(* ===== verification/_CoqProject ===== *)
-Q . S2P
Prelude.v
GlobalDefinitions.v
BitMap.v
BitMapOps.v
BitMapScan.v
BitMapPar.v
MarkOop.v
ReservedSpace.v
VirtualSpace.v
CodeHeap.v
CodeHeapInv.v
CodeHeapOps.v
CodeHeapAlloc.v
CodeHeapSpec.v
CodeHeapGrow.v
CodeHeapTheorems.v
BlockOffsetTable.v
BlockOffsetTheorems.v
BlockOffsetSplit.v
BlockOffsetSearch.v
BlockOffsetHistory.v
BlockOffsetContig.v
FreeDictionary.v
FreeDictCells.v
FreeDictInsert.v
FreeDictRemove.v
FreeDictSplice.v
FreeDictDelete.v
FreeDictOrder.v
FreeDictGet.v
FreeDictQueries.v
FreeDictVerify.v
FreeDictHistory.v
FreeDictTheorems.v
FreeList.v
FreeListTheorems.v
FreeListHistory.v
Utf8.v
ClassFileParser.v
ClassFileTheorems.v
TaskQueue.v
TaskQueueTheorems.v
SeedPeriod.v
TaskTerminator.v
Pack200.v
CompressedStream.v
IdealType.v
IdealTypeTheorems.v
IdealNode.v
IdealValue.v
IdealRings.v
IdealValueTheorems.v
IdealComputes.v
IdealDivide.v
IdealDivideTheorems.v
IdealModTheorems.v
IdealTransform.v
IdealIdentityTheorems.v
IdealTransformTheorems.v
IdealShiftTheorems.v
IdealConvert.v
IdealConvertTheorems.v
IdealGVN.v
IdealGVNTheorems.v
JavaMachine.v
Bytecodes.v
JavaMethod.v
BytecodeInterpreter.v
InterpreterTheorems.v
InterpreterLoop.v
InterpreterLoopTheorems.v
Parse.v
ParseTheorems.v
