(* ===== verification/Prelude.v ===== *)
(** * A verification of parts of the HotSpot virtual machine with Graal

    The repository holds the HotSpot Java virtual machine (C++, under src/src/) and
    the Graal compiler and Truffle (Java, under src/graal/).  This development models
    parts of the virtual machine that the rest is built on and that are self-contained
    enough to be translated line by line: the encodings it stores in words and byte
    streams, the memory it reserves and commits, the heap of compiled code, the tables
    that lead from an address to the block of a heap space that contains it, the lists and
    the search tree of free chunks of metaspace, the sets of bits and the queues its parallel collectors share, the checks it makes on names and
    flags of class files, the integer instructions of its interpreter, and the parsing,
    types and transformations of integer arithmetic in its optimising compiler C2.

    ** Conventions

    A C++ integer of width [w] is a [Z] with its wrap-around written out ([wrap],
    [swrap] and the casts of this file).  The platform is LP64: [size_t] and pointers
    have 64 bits, [int] 32.  A failed [assert], [guarantee] or [fatal], an access
    outside an array and undefined behaviour are [None]; the properties show that
    correct use never gives [None], or name the use that does.  Calls of the operating
    system and flags of the virtual machine are arguments of the definitions that use
    them; what is assumed of them is a named hypothesis ([os_ok] of ReservedSpace), and
    each property with such a hypothesis has an instance on a concrete function.

    ** Parts and files

    - Prelude.v, GlobalDefinitions.v: machine integers, loops, and the helpers of
      utilities/globalDefinitions.hpp (alignment, powers of two, logarithms, [MAX2]).
    - BitMap.v, BitMapOps.v, BitMapScan.v, BitMapPar.v: utilities/bitMap.*: a bit map
      as its size and its words; ranges, searches, set operations, counts, iteration,
      growth, and the lock-free operations as steps of threads interleaved in any order.
    - MarkOop.v: oops/markOop.*: the header word of an object: locks, bias, age, hash and
      the encodings of the collectors.
    - ReservedSpace.v, VirtualSpace.v: runtime/virtualspace.*: reserving address space
      over the system calls, and committing and uncommitting it in three regions.
    - CodeHeap.v, CodeHeapInv.v, CodeHeapOps.v, CodeHeapAlloc.v, CodeHeapSpec.v,
      CodeHeapGrow.v, CodeHeapTheorems.v: memory/heap.*: the heap of compiled code on
      two virtual spaces, its blocks, the free list threaded through them and the
      segment map.
    - BlockOffsetTable.v: memory/blockOffsetTable.*: a byte for each card of a space, the
      updates when blocks are recorded, split, checked and added, and the searches, for
      spaces that are not contiguous and for contiguous ones.  BlockOffsetTheorems.v and
      BlockOffsetSplit.v: the entries that the updates leave; BlockOffsetSearch.v: where the
      searches lead; BlockOffsetHistory.v and BlockOffsetContig.v: the two kinds of spaces.
      What a history needs to know of the entries is the class [Described], with one
      instance for what every split leaves and one for what the right splits leave.
    - FreeDictionary.v: memory/binaryTreeDictionary.* with the lists of memory/freeList.* and
      the links of memory/metachunk.hpp: a binary search tree of lists of free chunks by size,
      all of it kept in the chunks, as a memory of chunks and pointers into it.
      FreeDictCells.v: ownership of cells of that memory, and trees laid out in them;
      FreeDictInsert.v, FreeDictRemove.v, FreeDictSplice.v, FreeDictDelete.v: what adding and
      taking out a chunk do to the tree; FreeDictOrder.v: the tree as an ordered sequence;
      FreeDictGet.v, FreeDictQueries.v, FreeDictVerify.v: searches, reports and the
      verification of the code; FreeDictHistory.v, FreeDictTheorems.v: the dictionary against
      a map of addresses to sizes.  FreeList.v, FreeListTheorems.v, FreeListHistory.v: the
      free lists as objects of their own, against sequences of chunks.
    - Utf8.v: utilities/utf8.*: modified UTF-8 and UTF-16.
    - ClassFileParser.v, ClassFileTheorems.v: the format checks of
      classfile/classFileParser.cpp on names, signatures, strings and modifiers.
    - TaskQueue.v, TaskQueueTheorems.v, SeedPeriod.v, TaskTerminator.v:
      utilities/taskqueue.*: the work-stealing queue as interleaved atomic accesses of
      an owner and thieves, the choice of a victim, and the termination protocol.
    - Pack200.v, CompressedStream.v: code/compressedStream.*: the variable-length numbers
      of debug information and the streams that hold them.
    - IdealType.v: opto/type.*: the types [TypeInt] and [TypeLong] of C2, ranges with a
      count of widenings, their meet, dual, filter, widening and narrowing.  IdealNode.v:
      nodes as trees of their data inputs with the meaning of the Java operation, and the
      laws the transformations rely on of the phase that applies them (classes
      [PhaseSound], [PhaseFolded] and [MinSound]).  IdealValue.v: the [Value] methods of the integer
      nodes (opto/addnode.cpp, subnode.cpp, mulnode.cpp, divnode.cpp).  IdealDivide.v:
      division and remainder by constants (opto/divnode.cpp).  IdealTransform.v: the
      other [Identity] and [Ideal] methods.  IdealConvert.v: conversions, tests and
      conditional moves (opto/connode.cpp, subnode.cpp).  IdealGVN.v: [PhaseGVN::transform]
      (opto/phaseX.cpp), which applies all of them.  IdealTypeTheorems.v, IdealRings.v,
      IdealValueTheorems.v, IdealComputes.v, IdealDivideTheorems.v, IdealModTheorems.v,
      IdealIdentityTheorems.v, IdealTransformTheorems.v, IdealShiftTheorems.v,
      IdealConvertTheorems.v and IdealGVNTheorems.v: their theorems.
    - JavaMachine.v, Bytecodes.v, JavaMethod.v: what integer bytecodes mean: instructions
      on a frame of values, their encoding (interpreter/bytecodes.hpp), and the machine
      that executes the code of a method.  It is the specification of two components.
      BytecodeInterpreter.v, InterpreterLoop.v: the C++ interpreter
      (interpreter/bytecodeInterpreter.cpp with the Zero port in cpu/zero/vm/), whose
      frame is words of memory; InterpreterTheorems.v and InterpreterLoopTheorems.v: its
      theorems.  Parse.v: the parser of C2 (opto/parse2.cpp and graphKit.cpp), whose frame is
      nodes of the graph that it puts through [PhaseGVN::transform]; ParseTheorems.v: its
      theorems, and that compiled and interpreted code agree.

    ** What the theorems show

    - Sets of bits: every range operation, search, set operation, count and iteration
      has its specification on the bits of the map, whatever way ranges fall on words;
      a search or loop returns.  Of the threads that set one bit exactly one is told it
      did.
    - Mark word: the fields are independent, each encoding decodes, the predicates on
      lock states exclude each other and cover what the header can hold.
    - Memory: a heap space that is reserved is aligned, has the size asked for and is
      where it was requested; every history of expansions and shrinkings with
      any answers of the system keeps the committed part what an abstract interval of
      bytes says.
    - Code heap: every history of initialisation, allocation, deallocation and expansion
      keeps an invariant that says the blocks tile the used part, the segment map leads
      every address back to its block, and the free list is the sorted list of free
      blocks with no two adjacent.  Allocation, deallocation, search by address and
      iteration are specified on an abstract list of blocks.
    - Block offset tables: in every history of a space the updates fail no assertion and
      the search over table and blocks finds the block of every address.  The search that
      only reads the table is right in the histories without a certain kind of split, and
      a split of that kind misleads it.
    - Free chunks: through every sequence of chunks returned, removed and requested the
      dictionary fails no assertion and passes its own verification, a request gets the
      smallest chunk that fits, and the totals and searches are right of the free chunks; two
      exceptions to its comments are shown.  Free lists are the sequences that the operations
      on them build.
    - Strings and class files: UTF-8 conversion round-trips and stays within its
      buffers; the checks accept exactly the names, signatures and flags of grammars
      stated independently of the code.
    - Task queues: in every interleaving the queue is a sequence of tasks, none lost or
      taken twice, and every call ends in a bounded number of its own steps; the random
      choice of a victim ends because the generator has full period; threads that agree
      to terminate have all offered to.
    - Streams: what is written is read back, and the encoding is canonical.
    - Integer arithmetic in C2: the types are closed under their operations, meet is
      commutative and has the symmetry with the dual that the compiler asserts, and types
      are widened and narrowed a bounded number of times.  In every phase that is sound
      for an execution, the type a [Value] method computes contains the value of the
      node, and the node an [Identity] or [Ideal] method returns computes the same value,
      for all inputs and with wrap-around; the multiplications and shifts that replace a
      division or a remainder by a constant compute it for every dividend.  The one
      exception is the rewriting of minima of sums, which is right only where no sum
      wraps around.  [PhaseGVN::transform] is such a phase: it keeps the value of every
      node but a minimum, and the assumptions on phases are met by the one of the source.
    - Bytecodes: the interpreter makes the steps of Java's machine on every method of
      integer instructions, branches, switches and returns, within its stack and locals.
      The graph that the parser builds for straight-line code computes the values of
      Java's machine in every execution, and throws where it throws.  So the code gives
      the same values and exceptions interpreted and compiled.

    ** Bounds and fuel

    Loops whose bound is in the code are folds over it.  Fuel is used where a loop
    follows data: the walks of the free list get as many rounds as there are segments,
    which the invariant bounds the list by; the walk of the segment map gets the number
    of segments below; a scan of a string its length; a draw of a victim the period
    2147483646 of the generator; the search for the multiplier of a division as many
    rounds as the width has bits; a search of a block offset table the number of cards and
    blocks, or 211 rounds, fifteen for each of fourteen powers of 16 and one, where it only
    reads the table; a walk over free chunks one round more than there are chunks.  In each
    case a theorem says that the fuel is enough.
    [PhaseGVN::transform] rewrites a node as long as a rewriting applies, with no bound in
    the source; its fuel bounds the rounds and the depth, and its theorem holds for all
    fuel.  The loop of the interpreter may run forever; the theorem is about any number of
    its rounds.
    Executions of the task queue are shorter than 2^32 steps, since the tag of the
    queue's age has 32 bits and a thief asleep for longer can be fooled by its wrap.

    ** Not modelled

    Memory orders weaker than sequential consistency; statistics, printing and
    verification code other than the checks of the block offset table and of the
    dictionary of free blocks; the statistics that the collectors keep in its lists;
    BitMap2D. Of the arithmetic of C2: control inputs, dead code and the order in which a phase visits
    nodes, the nodes of floats and pointers, and unsigned comparisons. Of the parser:
    branches and merges of blocks, with the phi for an int remainder by a power of 2,
    and three-way comparisons. Of the interpreter: floats, objects, arrays, fields,
    calls, monitors, handlers of exceptions, counters and safepoints, and the code of
    the template interpreter. The collectors, the rest of the compilers, class loading
    and linking, threads and monitors, the services and entry points, and the ports are
    not modelled: they work on the graph of Java objects and classes, on machine code or
    on the operating system, none of which has a model here. The Java code of Graal and
    Truffle, the serviceability agent, the build and the tests are not modelled either. *)
From stdpp Require Export prelude gmap list.
From Stdlib Require Export ZArith Lia.
From Stdlib Require Import Btauto.

#[global] Open Scope Z_scope.

(** * Machine integers

    A C++ integer of width [w] is a [Z]; [wrap] is conversion to the unsigned
    type of that width and [swrap] conversion to the signed (two's complement)
    one. *)
Definition wrap (w z : Z) : Z := z mod 2 ^ w.
Definition swrap (w z : Z) : Z := (z + 2 ^ (w - 1)) mod 2 ^ w - 2 ^ (w - 1).

(** The ranges of the two families of types. *)
Definition in_unsigned (w z : Z) : Prop := 0 <= z < 2 ^ w.
Definition in_signed (w z : Z) : Prop := - 2 ^ (w - 1) <= z < 2 ^ (w - 1).

(** The casts the sources write. *)
Definition u_char (z : Z) : Z := wrap 8 z.
Definition jbyte (z : Z) : Z := swrap 8 z.
Definition jchar (z : Z) : Z := wrap 16 z.
Definition jshort (z : Z) : Z := swrap 16 z.
Definition jint (z : Z) : Z := swrap 32 z.
Definition juint (z : Z) : Z := wrap 32 z.
Definition jlong (z : Z) : Z := swrap 64 z.
Definition julong (z : Z) : Z := wrap 64 z.

Lemma pow2_double w : 0 < w -> 2 ^ w = 2 * 2 ^ (w - 1).
Proof.
  intros Hw. replace w with (1 + (w - 1)) at 1 by lia.
  rewrite Z.pow_add_r by lia. reflexivity.
Qed.

Lemma pow2_pos w : 0 <= w -> 0 < 2 ^ w.
Proof. intros. apply Z.pow_pos_nonneg; lia. Qed.

Lemma wrap_range w z : 0 <= w -> in_unsigned w (wrap w z).
Proof. intros. apply Z.mod_pos_bound, pow2_pos; done. Qed.

Lemma wrap_small w z : in_unsigned w z -> wrap w z = z.
Proof. apply Z.mod_small. Qed.

Lemma swrap_range w z : 0 < w -> in_signed w (swrap w z).
Proof.
  intros Hw. unfold in_signed, swrap.
  pose proof (pow2_double w Hw).
  pose proof (Z.mod_pos_bound (z + 2 ^ (w - 1)) (2 ^ w) (pow2_pos w ltac:(lia))). lia.
Qed.

Lemma swrap_small w z : 0 < w -> in_signed w z -> swrap w z = z.
Proof.
  intros Hw Hz. unfold in_signed, swrap in *.
  pose proof (pow2_double w Hw). rewrite Z.mod_small; lia.
Qed.

Lemma swrap_wrap w z : 0 < w -> swrap w (wrap w z) = swrap w z.
Proof.
  intros Hw. unfold swrap, wrap. f_equal.
  rewrite Zplus_mod_idemp_l. reflexivity.
Qed.

Lemma wrap_swrap w z : 0 < w -> wrap w (swrap w z) = wrap w z.
Proof.
  intros Hw. unfold swrap, wrap.
  rewrite Zminus_mod_idemp_l. f_equal. lia.
Qed.

Lemma wrap_wrap w z : wrap w (wrap w z) = wrap w z.
Proof. apply Zmod_mod. Qed.

Lemma wrap_wrap_le w1 w2 z : 0 <= w1 <= w2 -> wrap w1 (wrap w2 z) = wrap w1 z.
Proof.
  intros Hw. apply Z.mod_mod_divide.
  exists (2 ^ (w2 - w1)). rewrite <- Z.pow_add_r by lia. f_equal. lia.
Qed.

(** [wrap] and [swrap] only depend on the residue. *)
Lemma wrap_eq w a b : (a - b) mod 2 ^ w = 0 -> wrap w a = wrap w b.
Proof.
  intros Hab. unfold wrap.
  replace a with (b + (a - b)) by lia.
  rewrite Zplus_mod, Hab, Z.add_0_r, Zmod_mod. reflexivity.
Qed.

Lemma swrap_wrap_eq w a b : 0 < w -> wrap w a = wrap w b -> swrap w a = swrap w b.
Proof. intros Hw Hab. by rewrite <- (swrap_wrap w a), Hab, swrap_wrap. Qed.

Lemma wrap_add_l w a b : wrap w (wrap w a + b) = wrap w (a + b).
Proof. apply Zplus_mod_idemp_l. Qed.

Lemma wrap_add_r w a b : wrap w (a + wrap w b) = wrap w (a + b).
Proof. apply Zplus_mod_idemp_r. Qed.

Lemma swrap_add_l w a b : 0 < w -> swrap w (swrap w a + b) = swrap w (a + b).
Proof.
  intros Hw. apply swrap_wrap_eq; [done |].
  by rewrite <- wrap_add_l, wrap_swrap, wrap_add_l.
Qed.

Lemma swrap_add_r w a b : 0 < w -> swrap w (a + swrap w b) = swrap w (a + b).
Proof. intros. rewrite Z.add_comm, swrap_add_l, Z.add_comm; done. Qed.

(** ** Bits *)

Lemma wrap_bits w z i :
  0 <= w -> Z.testbit (wrap w z) i = (i <? w) && Z.testbit z i.
Proof.
  intros Hw. unfold wrap. destruct (Z.ltb_spec i w); simpl.
  - by rewrite Z.mod_pow2_bits_low.
  - apply Z.mod_pow2_bits_high; lia.
Qed.

Lemma wrap_land w z : 0 <= w -> wrap w z = Z.land z (Z.ones w).
Proof. intros. symmetry. by apply Z.land_ones. Qed.

Lemma testbit_high w z i :
  in_unsigned w z -> 0 <= w <= i -> Z.testbit z i = false.
Proof.
  intros Hz Hi. rewrite <- (wrap_small w z Hz), wrap_bits by lia.
  destruct (Z.ltb_spec i w); [lia | done].
Qed.

Lemma unsigned_of_bits w z :
  0 <= w -> 0 <= z -> (forall i, w <= i -> Z.testbit z i = false) -> in_unsigned w z.
Proof.
  intros Hw Hz Hb. rewrite <- (Z.mod_small z (2 ^ w)).
  - by apply wrap_range.
  - split; [done |].
    destruct (Z.lt_ge_cases z (2 ^ w)) as [|Hge]; [done |].
    assert (0 < z) by (pose proof (pow2_pos w Hw); lia).
    pose proof (Z.log2_le_mono _ _ Hge) as Hl. rewrite Z.log2_pow2 in Hl by done.
    pose proof (Z.bit_log2 z ltac:(done)) as Ht. rewrite Hb in Ht by done. done.
Qed.

Lemma lor_range w a b :
  0 <= w -> in_unsigned w a -> in_unsigned w b -> in_unsigned w (Z.lor a b).
Proof.
  intros Hw Ha Hb. apply unsigned_of_bits; [done | |].
  - apply Z.lor_nonneg. split; [apply Ha | apply Hb].
  - intros i Hi. by rewrite Z.lor_spec, (testbit_high w a), (testbit_high w b) by done.
Qed.

Lemma land_range w a b : 0 <= w -> in_unsigned w a -> in_unsigned w (Z.land a b).
Proof.
  intros Hw Ha. apply unsigned_of_bits; [done | |].
  - apply Z.land_nonneg. left. apply Ha.
  - intros i Hi. by rewrite Z.land_spec, (testbit_high w a) by done.
Qed.

Create Rewrite HintDb bits.
#[export] Hint Rewrite Z.lor_spec Z.land_spec Z.lxor_spec Z.testbit_0_l : bits.
#[export] Hint Rewrite Z.shiftl_spec Z.shiftr_spec Z.lnot_spec wrap_bits using lia : bits.

(** Decide a bit-level equality position by position. *)
Ltac bitwise i :=
  apply Z.bits_inj'; intros i ?; autorewrite with bits.

Create Rewrite HintDb bools.
#[export] Hint Rewrite andb_false_r andb_false_l andb_true_r andb_true_l
  orb_false_r orb_false_l orb_true_r orb_true_l xorb_false_r xorb_false_l : bools.

(** Succeed on integer literals and their sums and differences. *)
Ltac is_pos_literal p :=
  lazymatch p with
  | xH => idtac
  | xO ?q => is_pos_literal q
  | xI ?q => is_pos_literal q
  end.
Ltac is_nat_literal n :=
  lazymatch n with
  | O => idtac
  | S ?m => is_nat_literal m
  end.
Ltac is_literal z :=
  lazymatch z with
  | Z0 => idtac
  | Zpos ?p => is_pos_literal p
  | Zneg ?p => is_pos_literal p
  | ?a + ?b => is_literal a; is_literal b
  | ?a - ?b => is_literal a; is_literal b
  | Z.lxor ?a ?b => is_literal a; is_literal b
  | Z.of_nat ?n => is_nat_literal n
  end.

(** Push a test at a literal bit number through the operators of a word whose
    masks and shift counts are literals. *)
Ltac bit_step :=
  match goal with
  | |- context [?a <? ?b] => is_literal a; is_literal b;
      let v := eval vm_compute in (a <? b) in change (a <? b) with v
  | |- context [Z.testbit ?c ?k] => is_literal k;
      first [ is_literal c; let v := eval vm_compute in (Z.testbit c k) in
              change (Z.testbit c k) with v
            | let v := eval vm_compute in k in progress change (Z.testbit c k) with (Z.testbit c v)
            | rewrite (Z.testbit_neg_r c k) by lia
            | lazymatch c with
              | Z.lor _ _ => rewrite Z.lor_spec
              | Z.land _ _ => rewrite Z.land_spec
              | Z.lxor _ _ => rewrite Z.lxor_spec
              | Z.shiftl _ _ => rewrite Z.shiftl_spec by lia
              | Z.shiftr _ _ => rewrite Z.shiftr_spec by lia
              | wrap _ _ => rewrite wrap_bits by lia
              end ]
  end.
Ltac bit_eval := repeat (bit_step; autorewrite with bools).

(** Split on a natural number below a literal bound. *)
Ltac nat_cases n tac :=
  first [exfalso; lia | destruct n as [|n]; [solve [tac] | nat_cases n tac]].

(** [lia] with quotients and remainders by literals. *)
Ltac dlia := Z.to_euclidean_division_equations; lia.

(** A boolean statement about the integers below a bound, decided by evaluating it
    on each of them. *)
Lemma below_forall n (P : Z -> bool) :
  forallb P (seqZ 0 n) = true -> forall b, 0 <= b < n -> P b = true.
Proof.
  intros HP b Hb. rewrite forallb_forall in HP. apply HP, list_elem_of_In, elem_of_seqZ. lia.
Qed.

(** Close [E b = E' b] for a [b] below a literal bound, by evaluation. *)
Ltac by_evaluation n b :=
  apply Z.eqb_eq;
  lazymatch goal with
  | |- ?e = true =>
      lazymatch eval pattern b in e with
      | ?P b => apply (below_forall n P); [vm_compute; reflexivity | lia]
      end
  end.

(** * Loops *)

(** [for (i = beg; i < beg + n; ++i) s = body(i, s)] *)
Fixpoint for_loop {A} (n : nat) (i : Z) (body : Z -> A -> A) (s : A) : A :=
  match n with
  | O => s
  | S n => for_loop n (i + 1) body (body i s)
  end.

(** The same loop with a body that may return from the enclosing function. *)
Fixpoint for_until {R} (n : nat) (i : Z) (body : Z -> option R) : option R :=
  match n with
  | O => None
  | S n => match body i with Some r => Some r | None => for_until n (i + 1) body end
  end.

(** The invariant rule: [P k] holds after the rounds below [k]. *)
Lemma for_loop_ind {A} (P : Z -> A -> Prop) n i body (s : A) :
  P i s ->
  (forall k s, i <= k < i + Z.of_nat n -> P k s -> P (k + 1) (body k s)) ->
  P (i + Z.of_nat n) (for_loop n i body s).
Proof.
  revert i s. induction n as [|n IH]; intros i s H0 HS; simpl.
  - by rewrite Z.add_0_r.
  - replace (i + Z.of_nat (S n)) with (i + 1 + Z.of_nat n) by lia. apply IH.
    + apply HS; [lia | done].
    + intros k s' Hk. apply HS. lia.
Qed.

Lemma for_until_spec {R} n i (body : Z -> option R) :
  match for_until n i body with
  | Some r => exists k, i <= k < i + Z.of_nat n /\ body k = Some r /\
                forall j, i <= j < k -> body j = None
  | None => forall k, i <= k < i + Z.of_nat n -> body k = None
  end.
Proof.
  revert i. induction n as [|n IH]; intros i; simpl; [lia |].
  destruct (body i) as [r|] eqn:Hb.
  - exists i. split; [lia |]. split; [done | lia].
  - specialize (IH (i + 1)). destruct (for_until n (i + 1) body) as [r|].
    + destruct IH as (k & Hk & Hr & Hj). exists k. split; [lia |]. split; [done |].
      intros j Hj'. destruct (decide (j = i)) as [->|]; [done | apply Hj; lia].
    + intros k Hk. destruct (decide (k = i)) as [->|]; [done | apply IH; lia].
Qed.
