(* ===== verification/GlobalDefinitions.v ===== *)
(** Arithmetic and bit-field helpers of [utilities/globalDefinitions.hpp]:
    halves of a [jlong], alignment, powers of two, logarithms and masks, on the
    64-bit (LP64) data model. *)
From S2P Require Import Prelude.

Module GlobalDefinitions.

Definition LogBitsPerWord : Z := 6.
Definition BitsPerWord : Z := Z.shiftl 1 LogBitsPerWord.
Definition AllBits : Z := Z.lnot 0.
Definition NoBits : Z := 0.
Definition OneBit : Z := 1.

(** ** Halves of a [jlong] *)

Definition low (value : Z) : Z := jint value.
Definition high (value : Z) : Z := jint (Z.shiftr value 32).

Definition set_low (value low : Z) : Z :=
  let value := Z.land value (jlong (Z.shiftl 0xffffffff 32)) in
  Z.lor value (jlong (julong (juint low))).

Definition set_high (value high : Z) : Z :=
  let value := Z.land value (jlong (julong (juint 0xffffffff))) in
  Z.lor value (jlong (Z.shiftl high 32)).

Definition jlong_from (h l : Z) : Z :=
  let result := 0 in
  let result := set_high result h in
  let result := set_low result l in
  result.

(** ** Masks; [intptr_t] operands *)

Definition intptr_t (z : Z) : Z := swrap 64 z.
Definition uintptr_t (z : Z) : Z := wrap 64 z.

Definition nth_bit (n : Z) : Z :=
  if BitsPerWord <=? n then 0 else intptr_t (Z.shiftl OneBit n).
Definition right_n_bits (n : Z) : Z := intptr_t (nth_bit n - 1).
Definition left_n_bits (n : Z) : Z :=
  intptr_t (Z.shiftl (right_n_bits n) (if BitsPerWord <=? n then 0 else BitsPerWord - n)).
Definition mask_bits (x m : Z) : Z := Z.land x m.
Definition bitfield (x start_bit_no field_length : Z) : Z :=
  mask_bits (Z.shiftr x start_bit_no) (right_n_bits field_length).

(** ** Alignment *)

Definition align_size_up (size alignment : Z) : Z :=
  Z.land (intptr_t (size + (alignment - 1))) (Z.lnot (alignment - 1)).
Definition align_size_down (size alignment : Z) : Z :=
  Z.land size (Z.lnot (alignment - 1)).
Definition is_size_aligned (size alignment : Z) : bool :=
  align_size_up size alignment =? size.

(** ** Powers of two and logarithms *)

Definition is_power_of_2 (x : Z) : bool :=
  negb (x =? NoBits) && (mask_bits x (intptr_t (x - 1)) =? NoBits).

(** [while (p != 0 && p <= (uintptr_t)x) { i++; p *= 2; }]; [p] doubles until it
    exceeds [x] or overflows to 0, so 65 tests are enough. *)
Fixpoint log2_loop (fuel : nat) (i p x : Z) : option Z :=
  match fuel with
  | O => None
  | S fuel =>
      if negb (p =? 0) && (p <=? uintptr_t x)
      then log2_loop fuel (i + 1) (uintptr_t (p * 2)) x
      else Some i
  end.

Definition log2_intptr (x : Z) : option Z := log2_loop 65 (-1) 1 x.

Definition exact_log2 (x : Z) : option Z := log2_intptr x.

Definition round_to (x s : Z) : Z :=
  let m := s - 1 in mask_bits (intptr_t (x + m)) (Z.lnot m).
Definition round_down (x s : Z) : Z :=
  let m := s - 1 in mask_bits x (Z.lnot m).

Definition MAX2 (a b : Z) : Z := if b <? a then a else b.
Definition MIN2 (a b : Z) : Z := if a <? b then a else b.

(** [while ((next = cur % div) != 0) { cur = div; div = next; }]; the fuel bounds
    [div], which decreases. *)
Fixpoint lcm_loop (fuel : nat) (cur div : Z) : option Z :=
  match fuel with
  | O => None
  | S fuel =>
      let next := cur mod div in
      if next =? 0 then Some div else lcm_loop fuel div next
  end.

Definition lcm (a b : Z) : option Z :=
  let cur := MAX2 a b in
  let div := MIN2 a b in
  if div =? 0 then None else
  div ← lcm_loop (Z.to_nat div) cur div;
  let result := julong (julong a * b) / div in
  Some result.

(** ** Lemmas *)

Lemma lcm_loop_spec fuel cur div :
  0 < div -> (Z.to_nat div <= fuel)%nat -> lcm_loop fuel cur div = Some (Z.gcd cur div).
Proof.
  revert cur div. induction fuel as [| fuel IH]; intros cur div Hd Hf; [lia |]. cbn [lcm_loop].
  pose proof (Z.mod_pos_bound cur div Hd).
  assert (Hg : Z.gcd cur div = Z.gcd div (cur mod div)).
  { rewrite (Z.gcd_comm div (cur mod div)), Z.gcd_mod by lia. apply Z.gcd_comm. }
  destruct (Z.eqb_spec (cur mod div) 0) as [E | E].
  - rewrite Hg, E, Z.gcd_0_r, Z.abs_eq by lia. done.
  - rewrite IH by lia. by rewrite Hg.
Qed.

Lemma MAX2_max a b : MAX2 a b = Z.max a b.
Proof. unfold MAX2. destruct (Z.ltb_spec b a); lia. Qed.

Lemma MIN2_min a b : MIN2 a b = Z.min a b.
Proof. unfold MIN2. destruct (Z.ltb_spec a b); lia. Qed.

Lemma MAX2_pow a b : 0 <= a -> 0 <= b -> MAX2 (2 ^ a) (2 ^ b) = 2 ^ Z.max a b.
Proof.
  intros. rewrite MAX2_max. destruct (Z.le_ge_cases a b).
  - rewrite (Z.max_r a b) by lia. apply Z.max_r, Z.pow_le_mono_r; lia.
  - rewrite (Z.max_l a b) by lia. apply Z.max_l, Z.pow_le_mono_r; lia.
Qed.

Lemma is_power_of_2_pow k : 0 <= k < 62 -> is_power_of_2 (2 ^ k) = true.
Proof.
  intros Hk. unfold is_power_of_2, NoBits, mask_bits, intptr_t.
  pose proof (pow2_pos k ltac:(lia)). pose proof (Z.pow_lt_mono_r 2 k 62 ltac:(lia) ltac:(lia)).
  rewrite swrap_small; [| lia | unfold in_signed; change (64 - 1) with 63; lia].
  destruct (Z.eqb_spec (2 ^ k) 0); [lia |]. apply Z.eqb_eq.
  replace (2 ^ k - 1) with (Z.ones k) by (rewrite Z.ones_equiv; lia).
  rewrite Z.land_ones by lia. apply Z.mod_same. lia.
Qed.

Lemma land_lnot_ones x k :
  0 <= k -> Z.land x (Z.lnot (2 ^ k - 1)) = x / 2 ^ k * 2 ^ k.
Proof.
  intros Hk. rewrite <- Z.ldiff_land.
  replace (2 ^ k - 1) with (Z.ones k) by (rewrite Z.ones_equiv; lia).
  rewrite Z.ldiff_ones_r by done.
  rewrite Z.shiftl_mul_pow2, Z.shiftr_div_pow2 by done. reflexivity.
Qed.

Lemma align_size_up_spec size k :
  0 <= k -> 0 <= size -> size + 2 ^ k <= 2 ^ 63 ->
  align_size_up size (2 ^ k) = (size + 2 ^ k - 1) / 2 ^ k * 2 ^ k.
Proof.
  intros Hk Hs Hb. unfold align_size_up, intptr_t. pose proof (pow2_pos k Hk).
  rewrite swrap_small; [| lia | unfold in_signed; change (64 - 1) with 63; lia].
  rewrite land_lnot_ones by done. do 2 f_equal. lia.
Qed.

Lemma set_high_0 h : in_signed 32 h -> set_high 0 h = h * 2 ^ 32.
Proof.
  intros Hh. unfold set_high. rewrite Z.land_0_l, Z.lor_0_l.
  rewrite Z.shiftl_mul_pow2 by lia. apply swrap_small; [lia |].
  unfold in_signed in *. change (32 - 1) with 31 in Hh. change (64 - 1) with 63. lia.
Qed.

Lemma lor_disjoint_add a b k :
  0 <= k -> 0 <= b < 2 ^ k -> Z.lor (a * 2 ^ k) b = a * 2 ^ k + b.
Proof.
  intros Hk Hb. assert (Z.land (a * 2 ^ k) b = 0) as Hl.
  { bitwise i. rewrite <- Z.shiftl_mul_pow2, Z.shiftl_spec by lia.
    destruct (Z.lt_ge_cases i k).
    - rewrite Z.testbit_neg_r by lia. done.
    - rewrite (testbit_high k b) by (done || lia). by rewrite andb_false_r. }
  rewrite <- Z.lxor_lor by done. symmetry. by apply Z.add_nocarry_lxor.
Qed.

Lemma jlong_from_spec h l :
  in_signed 32 h -> jlong_from h l = h * 2 ^ 32 + juint l.
Proof.
  intros Hh. unfold jlong_from, set_low. rewrite set_high_0 by done.
  pose proof (wrap_range 32 l ltac:(lia)) as Hl. fold (juint l) in Hl.
  assert (Z.land (h * 2 ^ 32) (jlong (Z.shiftl 0xffffffff 32)) = h * 2 ^ 32) as ->.
  { change (jlong (Z.shiftl 0xffffffff 32)) with (Z.lnot (2 ^ 32 - 1)).
    rewrite land_lnot_ones by lia. rewrite Z.div_mul by lia. reflexivity. }
  unfold jlong, julong. rewrite (wrap_small 64 (juint l)), (swrap_small 64 (juint l)).
  - apply lor_disjoint_add; [lia | done].
  - lia.
  - unfold in_signed, in_unsigned in *. change (64 - 1) with 63. lia.
  - unfold in_unsigned in *. lia.
Qed.

Lemma low_jlong_from h l :
  in_signed 32 h -> in_signed 32 l -> low (jlong_from h l) = l.
Proof.
  intros Hh Hl. rewrite jlong_from_spec by done. unfold low, jint, juint.
  rewrite <- (swrap_wrap 32) by lia. unfold wrap at 1.
  rewrite Z.add_comm, Z.mod_add by lia. fold (wrap 32 (wrap 32 l)).
  rewrite wrap_wrap, swrap_wrap by lia. apply swrap_small; [lia | done].
Qed.

Lemma high_jlong_from h l :
  in_signed 32 h -> high (jlong_from h l) = h.
Proof.
  intros Hh. rewrite jlong_from_spec by done. unfold high, jint.
  pose proof (wrap_range 32 l ltac:(lia)) as Hl. unfold in_unsigned in Hl. fold (juint l) in Hl.
  rewrite Z.shiftr_div_pow2, Z.add_comm, Z.div_add, Z.div_small, Z.add_0_l by lia.
  apply swrap_small; [lia | done].
Qed.

Lemma jlong_from_high_low v : in_signed 64 v -> jlong_from (high v) (low v) = v.
Proof.
  intros Hv. rewrite jlong_from_spec by (apply swrap_range; lia).
  unfold high, low, jint, juint. rewrite wrap_swrap by lia.
  rewrite Z.shiftr_div_pow2 by lia. unfold wrap.
  rewrite (swrap_small 32 (v / 2 ^ 32)).
  - pose proof (Z.div_mod v (2 ^ 32) ltac:(lia)). lia.
  - lia.
  - unfold in_signed in *. change (64 - 1) with 63 in Hv. change (32 - 1) with 31.
    split; [apply Z.div_le_lower_bound | apply Z.div_lt_upper_bound]; lia.
Qed.

Lemma log2_loop_spec fuel i x :
  -1 <= i <= 63 -> (64 - i <= Z.of_nat fuel) ->
  (0 <= i -> 2 ^ i <= uintptr_t x) ->
  log2_loop fuel i (uintptr_t (2 ^ (i + 1))) x =
    Some (if uintptr_t x =? 0 then -1 else Z.log2 (uintptr_t x)).
Proof.
  revert i. induction fuel as [|fuel IH]; intros i Hi Hf Hlo; [lia |].
  pose proof (wrap_range 64 x ltac:(lia)) as Hx. fold (uintptr_t x) in Hx. unfold in_unsigned in Hx.
  simpl. destruct (decide (i = 63)) as [->|Hne].
  - change (uintptr_t (2 ^ (63 + 1))) with 0. simpl. specialize (Hlo ltac:(lia)).
    destruct (Z.eqb_spec (uintptr_t x) 0); [lia |].
    f_equal. symmetry. apply Z.log2_unique; lia.
  - assert (uintptr_t (2 ^ (i + 1)) = 2 ^ (i + 1)) as Hp.
    { apply wrap_small. split; [apply Z.pow_nonneg; lia | apply Z.pow_lt_mono_r; lia]. }
    pose proof (pow2_pos (i + 1) ltac:(lia)). rewrite Hp.
    destruct (Z.eqb_spec (2 ^ (i + 1)) 0); [lia |]. simpl.
    destruct (Z.leb_spec (2 ^ (i + 1)) (uintptr_t x)) as [Hle|Hgt].
    + replace (2 ^ (i + 1) * 2) with (2 ^ (i + 1 + 1))
        by (rewrite (Z.pow_add_r 2 (i + 1)); lia).
      apply IH; lia || done.
    + destruct (Z.eqb_spec (uintptr_t x) 0) as [Hx0|].
      * f_equal. destruct (decide (i = -1)); [lia |].
        pose proof (pow2_pos i ltac:(lia)). specialize (Hlo ltac:(lia)). lia.
      * f_equal. destruct (decide (i = -1)) as [->|]; [change (2 ^ (-1 + 1)) with 1 in Hgt; lia |].
        symmetry. apply Z.log2_unique; [lia | split; [apply Hlo; lia | done]].
Qed.

Lemma log2_intptr_spec x :
  log2_intptr x = Some (if uintptr_t x =? 0 then -1 else Z.log2 (uintptr_t x)).
Proof. apply (log2_loop_spec 65 (-1)); [lia | simpl; lia | intros; lia]. Qed.

Lemma exact_log2_pow2 k : 0 <= k < 64 -> exact_log2 (2 ^ k) = Some k.
Proof.
  intros Hk. unfold exact_log2. rewrite log2_intptr_spec.
  unfold uintptr_t. rewrite wrap_small.
  - pose proof (pow2_pos k ltac:(lia)). destruct (Z.eqb_spec (2 ^ k) 0); [lia |].
    by rewrite Z.log2_pow2 by lia.
  - split; [apply Z.pow_nonneg; lia | apply Z.pow_lt_mono_r; lia].
Qed.

Lemma right_n_bits_ones n : 0 <= n < 64 -> right_n_bits n = Z.ones n.
Proof.
  intros Hn. unfold right_n_bits, nth_bit. change BitsPerWord with 64.
  replace (64 <=? n) with false by lia. unfold intptr_t, OneBit.
  rewrite Z.shiftl_1_l, Z.ones_equiv, <- Z.sub_1_r.
  rewrite <- (swrap_small 64 (2 ^ n - 1)).
  - rewrite <- !Z.add_opp_r. apply swrap_add_l. lia.
  - lia.
  - unfold in_signed. change (64 - 1) with 63. pose proof (pow2_pos n ltac:(lia)).
    pose proof (Z.pow_le_mono_r 2 n 63 ltac:(lia) ltac:(lia)). lia.
Qed.

Lemma left_n_bits_bits n k :
  0 <= n < 64 -> 0 <= k < 64 -> Z.testbit (uintptr_t (left_n_bits n)) k = (64 - n <=? k).
Proof.
  intros Hn Hk. unfold left_n_bits, uintptr_t, intptr_t. change BitsPerWord with 64.
  replace (64 <=? n) with false by lia. rewrite wrap_swrap, wrap_bits, right_n_bits_ones by lia.
  replace (k <? 64) with true by lia. rewrite Z.shiftl_spec by lia.
  destruct (Z.leb_spec (64 - n) k).
  - apply Z.ones_spec_low. lia.
  - by rewrite Z.testbit_neg_r by lia.
Qed.

End GlobalDefinitions.
