(* ===== verification/BitMap.v ===== *)
(** Bit maps over arrays of 64-bit words: [utilities/bitMap.hpp],
    [utilities/bitMap.inline.hpp] and [utilities/bitMap.cpp]. *)
From S2P Require Import Prelude GlobalDefinitions.
Import GlobalDefinitions.

Module BitMap.

(** [bm_word_t* _map; idx_t _size].  Reading or writing outside [_map] is
    undefined in C++; the definitions give 0 and no effect there and no theorem
    relies on it. *)
Record BitMap : Set := mkBitMap {
  _map : list Z;
  _size : Z
}.

(** [idx_t] and [bm_word_t] arithmetic is modulo 2^64. *)
Definition idx (z : Z) : Z := wrap 64 z.
Definition not_word (w : Z) : Z := wrap 64 (Z.lnot w).
Definition all_ones : Z := not_word 0.

Definition bit_in_word (bit : Z) : Z := Z.land bit (BitsPerWord - 1).
Definition bit_mask (bit : Z) : Z := idx (Z.shiftl 1 (bit_in_word bit)).
Definition word_index (bit : Z) : Z := Z.shiftr bit LogBitsPerWord.
Definition bit_index (word : Z) : Z := idx (Z.shiftl word LogBitsPerWord).

Definition map (bm : BitMap) (word : Z) : Z := nth (Z.to_nat word) (_map bm) 0.
Definition set_word (bm : BitMap) (word val : Z) : BitMap :=
  mkBitMap (<[Z.to_nat word := val]> (_map bm)) (_size bm).
Definition clear_word (bm : BitMap) (word : Z) : BitMap := set_word bm word 0.

Definition size (bm : BitMap) : Z := _size bm.
Definition size_in_words (bm : BitMap) : Z := word_index (idx (size bm + BitsPerWord - 1)).

Definition word_align_up (bit : Z) : Z := idx (align_size_up bit BitsPerWord).
Definition word_align_down (bit : Z) : Z := idx (align_size_down bit BitsPerWord).
Definition is_word_aligned (bit : Z) : bool := word_align_up bit =? bit.

(** The preconditions asserted in debug builds. *)
Definition verify_index (bm : BitMap) (index : Z) : bool := index <? size bm.
Definition verify_range (bm : BitMap) (beg_index end_index : Z) : bool :=
  (beg_index <=? end_index) && ((end_index =? size bm) || verify_index bm end_index).

(** ** Single bits *)

Definition at_ (bm : BitMap) (index : Z) : bool :=
  negb (Z.land (map bm (word_index index)) (bit_mask index) =? 0).

Definition set_bit (bm : BitMap) (bit : Z) : BitMap :=
  let w := word_index bit in set_word bm w (Z.lor (map bm w) (bit_mask bit)).

Definition clear_bit (bm : BitMap) (bit : Z) : BitMap :=
  let w := word_index bit in set_word bm w (Z.land (map bm w) (not_word (bit_mask bit))).

Definition at_put (bm : BitMap) (offset : Z) (value : bool) : BitMap :=
  if value then set_bit bm offset else clear_bit bm offset.

(** ** Ranges of words *)

Definition set_range_of_words (bm : BitMap) (beg end_ : Z) : BitMap :=
  for_loop (Z.to_nat (end_ - beg)) beg (fun i bm => set_word bm i all_ones) bm.

Definition clear_range_of_words (bm : BitMap) (beg end_ : Z) : BitMap :=
  for_loop (Z.to_nat (end_ - beg)) beg (fun i bm => set_word bm i 0) bm.

(** [memset(_map + beg, c, n * sizeof(uintptr_t))]: every byte of [n] words. *)
Definition word_of_byte (c : Z) : Z := c * 0x0101010101010101.
Definition memset_words (bm : BitMap) (beg c n : Z) : BitMap :=
  for_loop (Z.to_nat n) beg (fun i bm => set_word bm i (word_of_byte c)) bm.

Definition set_large_range_of_words (bm : BitMap) (beg end_ : Z) : BitMap :=
  memset_words bm beg (u_char (Z.lnot 0)) (end_ - beg).
Definition clear_large_range_of_words (bm : BitMap) (beg end_ : Z) : BitMap :=
  memset_words bm beg 0 (end_ - beg).

Definition word_index_round_up (bm : BitMap) (bit : Z) : Z :=
  let bit_rounded_up := idx (bit + (BitsPerWord - 1)) in
  if bit <? bit_rounded_up then word_index bit_rounded_up else size_in_words bm.

(** ** Ranges of bits *)

Definition inverted_bit_mask_for_range (beg end_ : Z) : Z :=
  let mask := idx (bit_mask beg - 1) in
  if negb (bit_in_word end_ =? 0)
  then Z.lor mask (not_word (idx (bit_mask end_ - 1)))
  else mask.

Definition set_range_within_word (bm : BitMap) (beg end_ : Z) : BitMap :=
  if negb (beg =? end_) then
    let mask := inverted_bit_mask_for_range beg end_ in
    let w := word_index beg in
    set_word bm w (Z.lor (map bm w) (not_word mask))
  else bm.

Definition clear_range_within_word (bm : BitMap) (beg end_ : Z) : BitMap :=
  if negb (beg =? end_) then
    let mask := inverted_bit_mask_for_range beg end_ in
    let w := word_index beg in
    set_word bm w (Z.land (map bm w) mask)
  else bm.

Definition set_range (bm : BitMap) (beg end_ : Z) : BitMap :=
  let beg_full_word := word_index_round_up bm beg in
  let end_full_word := word_index end_ in
  if beg_full_word <? end_full_word then
    let bm := set_range_within_word bm beg (bit_index beg_full_word) in
    let bm := set_range_of_words bm beg_full_word end_full_word in
    set_range_within_word bm (bit_index end_full_word) end_
  else
    let boundary := MIN2 (bit_index beg_full_word) end_ in
    let bm := set_range_within_word bm beg boundary in
    set_range_within_word bm boundary end_.

Definition clear_range (bm : BitMap) (beg end_ : Z) : BitMap :=
  let beg_full_word := word_index_round_up bm beg in
  let end_full_word := word_index end_ in
  if beg_full_word <? end_full_word then
    let bm := clear_range_within_word bm beg (bit_index beg_full_word) in
    let bm := clear_range_of_words bm beg_full_word end_full_word in
    clear_range_within_word bm (bit_index end_full_word) end_
  else
    let boundary := MIN2 (bit_index beg_full_word) end_ in
    let bm := clear_range_within_word bm beg boundary in
    clear_range_within_word bm boundary end_.

Definition set_large_range (bm : BitMap) (beg end_ : Z) : BitMap :=
  let beg_full_word := word_index_round_up bm beg in
  let end_full_word := word_index end_ in
  let bm := set_range_within_word bm beg (bit_index beg_full_word) in
  let bm := set_large_range_of_words bm beg_full_word end_full_word in
  set_range_within_word bm (bit_index end_full_word) end_.

Definition clear_large_range (bm : BitMap) (beg end_ : Z) : BitMap :=
  let beg_full_word := word_index_round_up bm beg in
  let end_full_word := word_index end_ in
  let bm := clear_range_within_word bm beg (bit_index beg_full_word) in
  let bm := clear_large_range_of_words bm beg_full_word end_full_word in
  clear_range_within_word bm (bit_index end_full_word) end_.

Definition at_put_range (bm : BitMap) (start_offset end_offset : Z) (value : bool) : BitMap :=
  if value then set_range bm start_offset end_offset
  else clear_range bm start_offset end_offset.

Definition at_put_large_range (bm : BitMap) (beg end_ : Z) (value : bool) : BitMap :=
  if value then set_large_range bm beg end_ else clear_large_range bm beg end_.

Inductive RangeSizeHint : Set := unknown_range | small_range | large_range.
#[export] Instance RangeSizeHint_eq_dec : EqDecision RangeSizeHint.
Proof. solve_decision. Defined.

Definition set_range_hint (bm : BitMap) (beg end_ : Z) (hint : RangeSizeHint) : BitMap :=
  if bool_decide (hint = small_range) && (idx (end_ - beg) =? 1) then set_bit bm beg
  else if bool_decide (hint = large_range) then set_large_range bm beg end_
  else set_range bm beg end_.

Definition clear_range_hint (bm : BitMap) (beg end_ : Z) (hint : RangeSizeHint) : BitMap :=
  if bool_decide (hint = small_range) && (idx (end_ - beg) =? 1) then clear_bit bm beg
  else if bool_decide (hint = large_range) then clear_large_range bm beg end_
  else clear_range bm beg end_.

Definition clear (bm : BitMap) : BitMap := clear_range_of_words bm 0 (size_in_words bm).
Definition clear_large (bm : BitMap) : BitMap :=
  clear_large_range_of_words bm 0 (size_in_words bm).

(** [resize] copies the old words into a fresh array ([fresh] is what the
    allocator left there) and zeroes the words past the old ones. *)
Definition resize (fresh : nat -> list Z) (bm : BitMap) (size_in_bits : Z) : BitMap :=
  let old_size_in_words := size_in_words bm in
  let old_map := _map bm in
  let bm := mkBitMap (_map bm) size_in_bits in
  let new_size_in_words := size_in_words bm in
  let n := Z.to_nat (MIN2 old_size_in_words new_size_in_words) in
  let bm := mkBitMap (take n old_map ++ drop n (fresh (Z.to_nat new_size_in_words))) size_in_bits in
  if old_size_in_words <? new_size_in_words
  then clear_range_of_words bm old_size_in_words (size_in_words bm)
  else bm.

Definition at_put_grow (fresh : nat -> list Z) (bm : BitMap) (offset : Z) (value : bool) : BitMap :=
  let bm := if size bm <=? offset
            then resize fresh bm (idx (2 * MAX2 (size bm) offset)) else bm in
  at_put bm offset value.

(** ** Set operations *)

Definition words (bm : BitMap) : nat := Z.to_nat (size_in_words bm).

Definition contains (bm other : BitMap) : bool :=
  match for_until (words bm) 0 (fun index =>
    let word_union := Z.lor (map bm index) (map other index) in
    if negb (word_union =? map bm index) then Some false else None)
  with Some r => r | None => true end.

Definition intersects (bm other : BitMap) : bool :=
  match for_until (words bm) 0 (fun index =>
    if negb (Z.land (map bm index) (map other index) =? 0) then Some true else None)
  with Some r => r | None => false end.

Definition set_union (bm other : BitMap) : BitMap :=
  for_loop (words bm) 0 (fun index bm =>
    set_word bm index (Z.lor (map bm index) (map other index))) bm.

Definition set_difference (bm other : BitMap) : BitMap :=
  for_loop (words bm) 0 (fun index bm =>
    set_word bm index (Z.land (map bm index) (not_word (map other index)))) bm.

Definition set_intersection (bm other : BitMap) : BitMap :=
  for_loop (words bm) 0 (fun index bm =>
    set_word bm index (Z.land (map bm index) (map other index))) bm.

Definition set_intersection_at_offset (bm other : BitMap) (offset : Z) : BitMap :=
  let offset_word_ind := word_index offset in
  for_loop (words bm) 0 (fun index bm =>
    set_word bm index (Z.land (map bm index) (map other (idx (offset_word_ind + index))))) bm.

Definition set_union_with_result (bm other : BitMap) : bool * BitMap :=
  for_loop (words bm) 0 (fun index '(changed, bm) =>
    let temp := Z.lor (map bm index) (map other index) in
    (changed || negb (temp =? map bm index), set_word bm index temp)) (false, bm).

Definition set_difference_with_result (bm other : BitMap) : bool * BitMap :=
  for_loop (words bm) 0 (fun index '(changed, bm) =>
    let temp := Z.land (map bm index) (not_word (map other index)) in
    (changed || negb (temp =? map bm index), set_word bm index temp)) (false, bm).

Definition set_intersection_with_result (bm other : BitMap) : bool * BitMap :=
  for_loop (words bm) 0 (fun index '(changed, bm) =>
    let orig := map bm index in
    let temp := Z.land orig (map other index) in
    (changed || negb (temp =? orig), set_word bm index temp)) (false, bm).

Definition set_from (bm other : BitMap) : BitMap :=
  for_loop (words bm) 0 (fun index bm => set_word bm index (map other index)) bm.

Definition is_same (bm other : BitMap) : bool :=
  match for_until (words bm) 0 (fun index =>
    if negb (map bm index =? map other index) then Some false else None)
  with Some r => r | None => true end.

(** [for (; rest >= BitsPerWord; rest -= BitsPerWord) { ...; word++; }]; one round
    per whole word, so [words bm + 1] rounds are enough. *)
Fixpoint is_full_loop (fuel : nat) (bm : BitMap) (word rest : Z) : option bool :=
  match fuel with
  | O => None
  | S fuel =>
      if BitsPerWord <=? rest then
        if negb (map bm word =? uintptr_t AllBits) then Some false
        else is_full_loop fuel bm (word + 1) (rest - BitsPerWord)
      else Some ((rest =? 0)
             || (Z.lor (map bm word) (not_word (right_n_bits rest)) =? uintptr_t AllBits))
  end.
Definition is_full (bm : BitMap) : option bool := is_full_loop (S (words bm)) bm 0 (size bm).

Fixpoint is_empty_loop (fuel : nat) (bm : BitMap) (word rest : Z) : option bool :=
  match fuel with
  | O => None
  | S fuel =>
      if BitsPerWord <=? rest then
        if negb (map bm word =? uintptr_t NoBits) then Some false
        else is_empty_loop fuel bm (word + 1) (rest - BitsPerWord)
      else Some ((rest =? 0)
             || (Z.land (map bm word) (uintptr_t (right_n_bits rest)) =? uintptr_t NoBits))
  end.
Definition is_empty (bm : BitMap) : option bool := is_empty_loop (S (words bm)) bm 0 (size bm).

(** ** Searching *)

(** [for (; !(res & 1); res_offset++) res = res >> 1;] at most 64 rounds on a
    nonzero word. *)
Fixpoint skip_zeros (fuel : nat) (res res_offset : Z) : option Z :=
  match fuel with
  | O => None
  | S fuel => if Z.odd res then Some res_offset
              else skip_zeros fuel (Z.shiftr res 1) (res_offset + 1)
  end.
Fixpoint skip_ones (fuel : nat) (res res_offset : Z) : option Z :=
  match fuel with
  | O => None
  | S fuel => if Z.odd res then skip_ones fuel (Z.shiftr res 1) (res_offset + 1)
              else Some res_offset
  end.

(** The outer [option] is the early return of the loop, the inner one is the fuel
    of the bit loops. *)
Definition get_next_one_offset_inline (bm : BitMap) (l_offset r_offset : Z) : option Z :=
  if l_offset =? r_offset then Some l_offset else
  let index := word_index l_offset in
  let r_index := word_index (idx (r_offset - 1)) + 1 in
  let pos := bit_in_word l_offset in
  let res := Z.shiftr (map bm index) pos in
  if negb (res =? uintptr_t NoBits) then
    res_offset ← skip_zeros 64 res l_offset; Some (MIN2 res_offset r_offset)
  else
    match for_until (Z.to_nat (r_index - (index + 1))) (index + 1) (fun index =>
      let res := map bm index in
      if negb (res =? uintptr_t NoBits) then
        Some (res_offset ← skip_zeros 64 res (bit_index index); Some (MIN2 res_offset r_offset))
      else None)
    with Some r => r | None => Some r_offset end.

Definition get_next_zero_offset_inline (bm : BitMap) (l_offset r_offset : Z) : option Z :=
  if l_offset =? r_offset then Some l_offset else
  let index := word_index l_offset in
  let r_index := word_index (idx (r_offset - 1)) + 1 in
  let pos := Z.land l_offset (BitsPerWord - 1) in
  let res := Z.lor (Z.shiftr (map bm index) pos) (uintptr_t (left_n_bits pos)) in
  if negb (res =? uintptr_t AllBits) then
    res_offset ← skip_ones 64 res l_offset; Some (MIN2 res_offset r_offset)
  else
    match for_until (Z.to_nat (r_index - (index + 1))) (index + 1) (fun index =>
      let res := map bm index in
      if negb (res =? uintptr_t AllBits) then
        Some (res_offset ← skip_ones 64 res (idx (Z.shiftl index LogBitsPerWord));
              Some (MIN2 res_offset r_offset))
      else None)
    with Some r => r | None => Some r_offset end.

Definition get_next_one_offset_inline_aligned_right (bm : BitMap) (l_offset r_offset : Z) : option Z :=
  if l_offset =? r_offset then Some l_offset else
  let index := word_index l_offset in
  let r_index := word_index r_offset in
  let res := Z.shiftr (map bm index) (bit_in_word l_offset) in
  if negb (res =? uintptr_t NoBits) then skip_zeros 64 res l_offset
  else
    match for_until (Z.to_nat (r_index - (index + 1))) (index + 1) (fun index =>
      let res := map bm index in
      if negb (res =? uintptr_t NoBits) then Some (skip_zeros 64 res (bit_index index))
      else None)
    with Some r => r | None => Some r_offset end.

(** ** Counting *)

(** The nested [while] loops of [num_set_bits]; every round shifts [w] right. *)
Fixpoint num_set_bits_skip (fuel : nat) (w : Z) : option Z :=
  match fuel with
  | O => None
  | S fuel => if Z.land w 1 =? 0 then num_set_bits_skip fuel (Z.shiftr w 1) else Some w
  end.
Fixpoint num_set_bits_loop (fuel : nat) (w bits : Z) : option Z :=
  match fuel with
  | O => None
  | S fuel =>
      if w =? 0 then Some bits else
      w ← num_set_bits_skip 64 w;
      num_set_bits_loop fuel (Z.shiftr w 1) (bits + 1)
  end.
Definition num_set_bits (w : Z) : option Z := num_set_bits_loop 65 w 0.

(** [init_pop_count_table] fills the table once; a losing thread frees its copy. *)
Definition init_pop_count_table : list (option Z) :=
  (fun i => num_set_bits (Z.of_nat i)) <$> seq 0 256.
Definition num_set_bits_from_table (table : list (option Z)) (c : Z) : option Z :=
  mjoin (table !! Z.to_nat c).

Definition count_one_bits (bm : BitMap) : option Z :=
  let table := init_pop_count_table in
  for_loop (words bm) 0 (fun i sum =>
    fst <$> for_loop 8 0 (fun _ acc =>
      '(sum, w) ← acc;
      n ← num_set_bits_from_table table (u_char (Z.land w 255));
      Some (idx (sum + n), Z.shiftr w 8)) (sum ← sum; Some (sum, map bm i))) (Some 0).

(** ** Iteration

    A closure has a state of its own and may modify the map: [do_bit st bm offset]
    returns whether to go on. *)
Section Iterate.
Context {St : Type} (do_bit : St -> BitMap -> Z -> bool * St * BitMap).

(** The loop over the bits of one word: at most 64 rounds. *)
Fixpoint iterate_word (fuel : nat) (st : St) (bm : BitMap) (index offset rest rightOffset : Z) :
    option (bool * St * BitMap) :=
  match fuel with
  | O => None
  | S fuel =>
      if (offset <? rightOffset) && negb (rest =? NoBits) then
        if Z.odd rest then
          let '(go_on, st, bm) := do_bit st bm offset in
          if negb go_on then Some (false, st, bm)
          else
            let rest := Z.shiftr (map bm index) (Z.land offset (BitsPerWord - 1)) in
            iterate_word fuel st bm index (offset + 1) (Z.shiftr rest 1) rightOffset
        else iterate_word fuel st bm index (offset + 1) (Z.shiftr rest 1) rightOffset
      else Some (true, st, bm)
  end.

Fixpoint iterate_words (fuel : nat) (st : St) (bm : BitMap)
    (index offset endIndex rightOffset : Z) : option (bool * St * BitMap) :=
  match fuel with
  | O => None
  | S fuel =>
      if (offset <? rightOffset) && (index <? endIndex) then
        let rest := Z.shiftr (map bm index) (Z.land offset (BitsPerWord - 1)) in
        '(go_on, st, bm) ← iterate_word 65 st bm index offset rest rightOffset;
        if negb go_on then Some (false, st, bm)
        else iterate_words fuel st bm (index + 1) (idx (Z.shiftl (index + 1) LogBitsPerWord))
               endIndex rightOffset
      else Some (true, st, bm)
  end.

Definition iterate (st : St) (bm : BitMap) (leftOffset rightOffset : Z) :
    option (bool * St * BitMap) :=
  let startIndex := word_index leftOffset in
  let endIndex := MIN2 (word_index rightOffset + 1) (size_in_words bm) in
  iterate_words (S (words bm)) st bm startIndex leftOffset endIndex rightOffset.
End Iterate.

(** * Correctness *)

Arguments skip_zeros : simpl never.
Arguments skip_ones : simpl never.
Arguments num_set_bits_skip : simpl never.
Arguments num_set_bits_loop : simpl never.
Arguments iterate_word : simpl never.

Record wf (bm : BitMap) : Prop := {
  wf_size : 0 <= _size bm <= 2 ^ 64 - 64;
  wf_length : Z.of_nat (length (_map bm)) = size_in_words bm;
  wf_words : Forall (in_unsigned 64) (_map bm)
}.

(** The abstract view: a total function from bit numbers. *)
Definition bit (bm : BitMap) (i : Z) : bool := Z.testbit (map bm (i / 64)) (i mod 64).

(** ** Index arithmetic *)

Lemma idx_small z : 0 <= z < 2 ^ 64 -> idx z = z.
Proof. apply wrap_small. Qed.

Lemma word_index_div i : word_index i = i / 64.
Proof. unfold word_index. by rewrite Z.shiftr_div_pow2. Qed.

Lemma bit_in_word_mod i : bit_in_word i = i mod 64.
Proof. unfold bit_in_word. change (BitsPerWord - 1) with (Z.ones 6). by rewrite Z.land_ones. Qed.

Lemma bit_index_mul w : 0 <= w < 2 ^ 58 -> bit_index w = 64 * w.
Proof.
  intros Hw. unfold bit_index. rewrite Z.shiftl_mul_pow2 by done. change (2 ^ LogBitsPerWord) with 64.
  rewrite idx_small; lia.
Qed.

Lemma mod64_bound i : 0 <= i mod 64 < 64.
Proof. apply Z.mod_pos_bound. lia. Qed.

Lemma pow2_mod64 i : 0 < 2 ^ (i mod 64) < 2 ^ 64.
Proof.
  pose proof (mod64_bound i). split; [apply pow2_pos; lia | apply Z.pow_lt_mono_r; lia].
Qed.

Lemma bit_mask_pow i : bit_mask i = 2 ^ (i mod 64).
Proof.
  unfold bit_mask. rewrite bit_in_word_mod, Z.shiftl_1_l.
  pose proof (pow2_mod64 i). rewrite idx_small; lia.
Qed.

Lemma not_word_bits w k : 0 <= k < 64 -> Z.testbit (not_word w) k = negb (Z.testbit w k).
Proof.
  intros Hk. unfold not_word. rewrite wrap_bits, Z.lnot_spec by lia.
  by replace (k <? 64) with true by lia.
Qed.

Lemma not_word_range w : in_unsigned 64 (not_word w).
Proof. apply wrap_range. lia. Qed.

Lemma all_ones_bits k : 0 <= k < 64 -> Z.testbit all_ones k = true.
Proof. intros Hk. unfold all_ones. rewrite not_word_bits, Z.testbit_0_l by done. done. Qed.

Lemma size_in_words_spec bm :
  0 <= _size bm <= 2 ^ 64 - 64 -> size_in_words bm = (_size bm + 63) / 64.
Proof.
  intros Hs. unfold size_in_words, size. rewrite word_index_div.
  change BitsPerWord with 64. rewrite idx_small by lia. f_equal. lia.
Qed.

Lemma wf_words_bound bm : wf bm ->
  0 <= size_in_words bm < 2 ^ 58 /\ _size bm <= 64 * size_in_words bm < _size bm + 64.
Proof.
  intros [Hs _ _]. rewrite size_in_words_spec by done.
  pose proof (Z.div_mod (_size bm + 63) 64 ltac:(lia)).
  pose proof (mod64_bound (_size bm + 63)). lia.
Qed.

(** ** Words *)

Lemma map_range bm w : wf bm -> in_unsigned 64 (map bm w).
Proof.
  intros Hw. unfold map. destruct (nth_in_or_default (Z.to_nat w) (_map bm) 0) as [Hin | ->].
  - pose proof (wf_words _ Hw) as Hf. rewrite Forall_forall in Hf. apply Hf.
    by apply list_elem_of_In.
  - by unfold in_unsigned.
Qed.

Lemma map_set_word bm w v w' :
  0 <= w < Z.of_nat (length (_map bm)) -> 0 <= w' ->
  map (set_word bm w v) w' = if w =? w' then v else map bm w'.
Proof.
  intros Hw Hw'. unfold map, set_word. simpl. rewrite !nth_lookup.
  destruct (Z.eqb_spec w w') as [<-|Hne].
  - by rewrite list_lookup_insert_eq by lia.
  - by rewrite list_lookup_insert_ne by lia.
Qed.

Lemma bit_set_word bm w v i :
  0 <= w < Z.of_nat (length (_map bm)) -> 0 <= i ->
  bit (set_word bm w v) i = if w =? i / 64 then Z.testbit v (i mod 64) else bit bm i.
Proof.
  intros Hw Hi. unfold bit. rewrite map_set_word by (done || apply Z.div_pos; lia).
  by destruct (w =? i / 64).
Qed.

Lemma set_word_wf bm w v : wf bm -> in_unsigned 64 v -> wf (set_word bm w v).
Proof.
  intros [Hs Hl Hf] Hv. split; simpl; [done | |].
  - by rewrite length_insert.
  - by apply Forall_insert.
Qed.

(** The word with index [i / 64] is the one with [64 * w <= i < 64 * (w + 1)]. *)
Lemma div64_eqb w i : (w =? i / 64) = (64 * w <=? i) && (i <? 64 * (w + 1)).
Proof.
  pose proof (Z.div_mod i 64 ltac:(lia)). pose proof (mod64_bound i).
  destruct (Z.eqb_spec w (i / 64)); lia.
Qed.

Lemma at_bit bm i : at_ bm i = bit bm i.
Proof.
  unfold at_, bit. rewrite word_index_div, bit_mask_pow.
  pose proof (mod64_bound i). rewrite Z.land_comm. set (k := i mod 64) in *.
  set (w := map bm _).
  destruct (Z.testbit w k) eqn:Ht.
  - destruct (Z.eqb_spec (Z.land (2 ^ k) w) 0) as [Hz|]; [| done].
    assert (Z.testbit (Z.land (2 ^ k) w) k = false) as Hc by by rewrite Hz, Z.testbit_0_l.
    rewrite Z.land_spec, Ht, Z.pow2_bits_true in Hc by lia. done.
  - replace (Z.land (2 ^ k) w) with 0; [done |].
    symmetry. bitwise j. destruct (decide (j = k)) as [->|Hne].
    + by rewrite Ht, andb_false_r.
    + by rewrite Z.pow2_bits_false by lia.
Qed.

(** ** Updates

    [puts bm bm' beg end v]: [bm'] is [bm] with the bits of [[beg, end)] put to [v]. *)
Record puts (bm bm' : BitMap) (beg end_ : Z) (v : bool) : Prop := {
  puts_wf : wf bm';
  puts_size : _size bm' = _size bm;
  puts_bit : forall i, 0 <= i ->
    bit bm' i = if (beg <=? i) && (i <? end_) then v else bit bm i
}.

Lemma puts_refl bm a v : wf bm -> puts bm bm a a v.
Proof.
  intros Hw. split; [done | done |]. intros i _.
  by replace ((a <=? i) && (i <? a)) with false by lia.
Qed.

Lemma puts_trans bm bm1 bm2 a b c v :
  a <= b <= c -> puts bm bm1 a b v -> puts bm1 bm2 b c v -> puts bm bm2 a c v.
Proof.
  intros Habc [_ Hs1 Hb1] [Hw2 Hs2 Hb2]. split; [done | congruence |].
  intros i Hi. rewrite Hb2, Hb1 by done.
  destruct (Z.leb_spec b i), (Z.ltb_spec i c), (Z.leb_spec a i), (Z.ltb_spec i b);
    simpl; done || lia.
Qed.

Lemma size_in_words_size bm bm' : _size bm' = _size bm -> size_in_words bm' = size_in_words bm.
Proof. unfold size_in_words, size. by intros ->. Qed.

(** A store to one word puts a range when the new word has the right bits. *)
Lemma set_word_puts bm w val beg end_ v :
  wf bm -> 0 <= w < size_in_words bm -> in_unsigned 64 val ->
  64 * w <= beg -> end_ <= 64 * (w + 1) ->
  (forall k, 0 <= k < 64 ->
     Z.testbit val k = if (beg <=? 64 * w + k) && (64 * w + k <? end_) then v
                       else Z.testbit (map bm w) k) ->
  puts bm (set_word bm w val) beg end_ v.
Proof.
  intros Hw Hr Hval Hb He Hk. split; [by apply set_word_wf | done |].
  intros i Hi. rewrite bit_set_word by (rewrite ?(wf_length _ Hw); done).
  pose proof (Z.div_mod i 64 ltac:(lia)). pose proof (mod64_bound i).
  destruct (Z.eqb_spec w (i / 64)) as [Hwi|Hne].
  - rewrite Hk by done. replace (64 * w + i mod 64) with i by lia.
    unfold bit. by rewrite <- Hwi.
  - by replace ((beg <=? i) && (i <? end_)) with false by lia.
Qed.

Lemma low_mask_bits j k : 0 <= j < 64 -> 0 <= k -> Z.testbit (idx (2 ^ j - 1)) k = (k <? j).
Proof.
  intros Hj Hk. replace (2 ^ j - 1) with (Z.ones j) by (rewrite Z.ones_equiv; lia).
  unfold idx. rewrite wrap_bits by lia.
  destruct (Z.ltb_spec k j).
  - rewrite Z.ones_spec_low by lia. by replace (k <? 64) with true by lia.
  - rewrite Z.ones_spec_high by lia. apply andb_false_r.
Qed.

Lemma inverted_mask_bits w beg end_ k :
  64 * w <= beg < end_ -> end_ <= 64 * (w + 1) -> 0 <= k < 64 ->
  Z.testbit (inverted_bit_mask_for_range beg end_) k =
    negb ((beg <=? 64 * w + k) && (64 * w + k <? end_)).
Proof.
  intros Hbe He Hk. unfold inverted_bit_mask_for_range.
  rewrite bit_in_word_mod, !bit_mask_pow.
  pose proof (Z.div_mod beg 64 ltac:(lia)). pose proof (mod64_bound beg).
  pose proof (Z.div_mod end_ 64 ltac:(lia)). pose proof (mod64_bound end_).
  assert (beg / 64 = w) by (symmetry; apply (Z.div_unique _ _ _ (beg - 64 * w)); lia).
  destruct (Z.eqb_spec (end_ mod 64) 0) as [Hz|Hnz]; simpl.
  - rewrite low_mask_bits by lia. lia.
  - assert (end_ / 64 = w) by (symmetry; apply (Z.div_unique _ _ _ (end_ - 64 * w)); lia).
    rewrite Z.lor_spec, not_word_bits, !low_mask_bits by lia. lia.
Qed.

Lemma inverted_mask_range beg end_ : in_unsigned 64 (inverted_bit_mask_for_range beg end_).
Proof.
  unfold inverted_bit_mask_for_range.
  pose proof (wrap_range 64 (bit_mask beg - 1) ltac:(lia)) as H1. fold (idx (bit_mask beg - 1)) in H1.
  destruct (negb _); [| done]. apply lor_range; [lia | done | apply not_word_range].
Qed.

Lemma set_range_within_word_puts bm w beg end_ :
  wf bm -> 0 <= w < size_in_words bm -> 64 * w <= beg <= end_ -> end_ <= 64 * (w + 1) ->
  puts bm (set_range_within_word bm beg end_) beg end_ true.
Proof.
  intros Hw Hr Hb He. unfold set_range_within_word.
  destruct (Z.eqb_spec beg end_) as [->|Hne]; simpl; [by apply puts_refl |].
  rewrite word_index_div.
  replace (beg / 64) with w by (apply (Z.div_unique _ _ _ (beg - 64 * w)); lia).
  apply set_word_puts; [done.. | | lia | lia |].
  - apply lor_range; [lia | by apply map_range | apply not_word_range].
  - intros k Hk. rewrite Z.lor_spec, not_word_bits, (inverted_mask_bits w) by lia.
    rewrite negb_involutive. destruct ((beg <=? _) && _); [apply orb_true_r | apply orb_false_r].
Qed.

Lemma clear_range_within_word_puts bm w beg end_ :
  wf bm -> 0 <= w < size_in_words bm -> 64 * w <= beg <= end_ -> end_ <= 64 * (w + 1) ->
  puts bm (clear_range_within_word bm beg end_) beg end_ false.
Proof.
  intros Hw Hr Hb He. unfold clear_range_within_word.
  destruct (Z.eqb_spec beg end_) as [->|Hne]; simpl; [by apply puts_refl |].
  rewrite word_index_div.
  replace (beg / 64) with w by (apply (Z.div_unique _ _ _ (beg - 64 * w)); lia).
  apply set_word_puts; [done.. | | lia | lia |].
  - apply land_range; [lia | by apply map_range].
  - intros k Hk. rewrite Z.land_spec, (inverted_mask_bits w) by lia.
    destruct ((beg <=? _) && _); [apply andb_false_r | apply andb_true_r].
Qed.

(** A loop of stores of one value to consecutive words. *)
Lemma fill_words_puts bm a b val v :
  wf bm -> 0 <= a <= b -> b <= size_in_words bm -> in_unsigned 64 val ->
  (forall k, 0 <= k < 64 -> Z.testbit val k = v) ->
  puts bm (for_loop (Z.to_nat (b - a)) a (fun i bm => set_word bm i val) bm) (64 * a) (64 * b) v.
Proof.
  intros Hw Hab Hb Hval Hv.
  replace b with (a + Z.of_nat (Z.to_nat (b - a))) at 2 by lia.
  apply (for_loop_ind (fun k bm' => puts bm bm' (64 * a) (64 * k) v)).
  - by apply puts_refl.
  - intros k bm' Hk Hp. eapply puts_trans; [| exact Hp |]; [lia |].
    pose proof (size_in_words_size _ _ (puts_size _ _ _ _ _ Hp)) as Hsz.
    apply set_word_puts; [by eapply puts_wf | lia | done | lia | lia |].
    intros j Hj. rewrite Hv by done.
    by replace ((64 * k <=? 64 * k + j) && (64 * k + j <? 64 * (k + 1))) with true by lia.
Qed.

Lemma range_words bm beg end_ :
  wf bm -> 0 <= beg <= end_ -> end_ <= _size bm ->
  word_index_round_up bm beg = (beg + 63) / 64 /\ word_index end_ = end_ / 64 /\
  0 <= (beg + 63) / 64 <= size_in_words bm /\ 0 <= end_ / 64 <= size_in_words bm.
Proof.
  intros Hw Hb He. pose proof (wf_size _ Hw). pose proof (wf_words_bound _ Hw).
  unfold word_index_round_up. rewrite !word_index_div. change (BitsPerWord - 1) with 63.
  rewrite idx_small by lia. replace (beg <? beg + 63) with true by lia.
  pose proof (Z.div_mod (beg + 63) 64 ltac:(lia)). pose proof (mod64_bound (beg + 63)).
  pose proof (Z.div_mod end_ 64 ltac:(lia)). pose proof (mod64_bound end_). lia.
Qed.

(** The shape shared by [set_range], [clear_range] and their [large] and [par]
    variants: a partial word, whole words, a partial word. *)
Section PutRange.
Context (v : bool) (within : BitMap -> Z -> Z -> BitMap) (of_words : BitMap -> Z -> Z -> BitMap).
Context (within_puts : forall bm w beg end_,
  wf bm -> 0 <= w < size_in_words bm -> 64 * w <= beg <= end_ -> end_ <= 64 * (w + 1) ->
  puts bm (within bm beg end_) beg end_ v).
Context (within_nop : forall bm beg, within bm beg beg = bm).
Context (of_words_puts : forall bm a b,
  wf bm -> 0 <= a <= b -> b <= size_in_words bm ->
  puts bm (of_words bm a b) (64 * a) (64 * b) v).

Lemma within_puts_last bm w end_ :
  wf bm -> 0 <= w -> 64 * w <= end_ < 64 * (w + 1) -> end_ <= _size bm ->
  puts bm (within bm (64 * w) end_) (64 * w) end_ v.
Proof using within_puts within_nop.
  intros Hw Hw0 He Hs. pose proof (wf_words_bound _ Hw).
  destruct (decide (end_ = 64 * w)) as [->|].
  - rewrite within_nop. by apply puts_refl.
  - apply (within_puts bm w); lia || done.
Qed.

Lemma put_full_words bm beg end_ :
  wf bm -> 0 <= beg <= end_ -> end_ <= _size bm -> (beg + 63) / 64 <= end_ / 64 ->
  let b := (beg + 63) / 64 in let e := end_ / 64 in
  puts bm (within (of_words (within bm beg (64 * b)) b e) (64 * e) end_) beg end_ v.
Proof using within_puts within_nop of_words_puts.
  intros Hw Hb He Hfull b e.
  destruct (range_words bm beg end_ Hw Hb He) as (_ & _ & Hbb & Hee).
  pose proof (Z.div_mod (beg + 63) 64 ltac:(lia)). pose proof (mod64_bound (beg + 63)).
  pose proof (Z.div_mod end_ 64 ltac:(lia)). pose proof (mod64_bound end_).
  assert (b = (beg + 63) / 64) as Eb by done. assert (e = end_ / 64) as Ee by done.
  clearbody b e. rewrite <- Eb, <- Ee in *.
  assert (puts bm (within bm beg (64 * b)) beg (64 * b) v) as P1.
  { destruct (decide (beg = 64 * b)) as [Hbeg|];
        [rewrite <- Hbeg, within_nop; by apply puts_refl |].
    apply (within_puts bm (b - 1)); lia || done. }
  pose proof (size_in_words_size _ _ (puts_size _ _ _ _ _ P1)) as Hs1.
  pose proof (of_words_puts _ b e (puts_wf _ _ _ _ _ P1) ltac:(lia) ltac:(lia)) as P2.
  assert (puts bm (of_words (within bm beg (64 * b)) b e) beg (64 * e) v) as P12
    by (eapply puts_trans; [| exact P1 | exact P2]; lia).
  eapply puts_trans; [| exact P12 |]; [lia |].
  apply within_puts_last; [by eapply puts_wf | lia | lia |].
  rewrite (puts_size _ _ _ _ _ P12). done.
Qed.

Lemma put_partial_words bm beg end_ :
  wf bm -> 0 <= beg <= end_ -> end_ <= _size bm -> end_ / 64 <= (beg + 63) / 64 ->
  let boundary := MIN2 (64 * ((beg + 63) / 64)) end_ in
  puts bm (within (within bm beg boundary) boundary end_) beg end_ v.
Proof using within_puts within_nop.
  intros Hw Hb He Hpart boundary. unfold boundary. rewrite MIN2_min.
  pose proof (wf_words_bound _ Hw).
  pose proof (Z.div_mod (beg + 63) 64 ltac:(lia)). pose proof (mod64_bound (beg + 63)).
  pose proof (Z.div_mod end_ 64 ltac:(lia)). pose proof (mod64_bound end_).
  remember ((beg + 63) / 64) as b eqn:Eb. remember (end_ / 64) as e eqn:Ee. clear boundary.
  destruct (Z.min_spec (64 * b) end_) as [[Hlt ->]|[Hge ->]].
  - assert (e = b) as -> by lia.
    assert (puts bm (within bm beg (64 * b)) beg (64 * b) v) as P1.
    { destruct (decide (beg = 64 * b)) as [Hbeg|];
        [rewrite <- Hbeg, within_nop; by apply puts_refl |].
      apply (within_puts bm (b - 1)); lia || done. }
    eapply puts_trans; [| exact P1 |]; [lia |].
    apply within_puts_last; [by eapply puts_wf | lia | lia |].
    rewrite (puts_size _ _ _ _ _ P1). done.
  - rewrite within_nop. destruct (decide (beg = end_)) as [->|].
    + rewrite within_nop. by apply puts_refl.
    + apply (within_puts bm (b - 1)); lia || done.
Qed.
End PutRange.

Lemma set_range_within_word_nop bm beg : set_range_within_word bm beg beg = bm.
Proof. unfold set_range_within_word. by rewrite Z.eqb_refl. Qed.
Lemma clear_range_within_word_nop bm beg : clear_range_within_word bm beg beg = bm.
Proof. unfold clear_range_within_word. by rewrite Z.eqb_refl. Qed.

Lemma all_ones_range : in_unsigned 64 all_ones.
Proof. apply not_word_range. Qed.

Lemma set_range_of_words_puts bm a b :
  wf bm -> 0 <= a <= b -> b <= size_in_words bm ->
  puts bm (set_range_of_words bm a b) (64 * a) (64 * b) true.
Proof. intros. apply fill_words_puts; auto using all_ones_range, all_ones_bits. Qed.

Lemma clear_range_of_words_puts bm a b :
  wf bm -> 0 <= a <= b -> b <= size_in_words bm ->
  puts bm (clear_range_of_words bm a b) (64 * a) (64 * b) false.
Proof.
  intros. apply fill_words_puts; auto; [by unfold in_unsigned |].
  intros k _. apply Z.testbit_0_l.
Qed.

Lemma set_large_range_of_words_eq bm a b :
  set_large_range_of_words bm a b = set_range_of_words bm a b.
Proof. reflexivity. Qed.
Lemma clear_large_range_of_words_eq bm a b :
  clear_large_range_of_words bm a b = clear_range_of_words bm a b.
Proof. reflexivity. Qed.

#[local] Hint Resolve set_range_within_word_puts clear_range_within_word_puts
  set_range_within_word_nop clear_range_within_word_nop
  set_range_of_words_puts clear_range_of_words_puts : core.

Lemma set_range_puts bm beg end_ :
  wf bm -> 0 <= beg <= end_ -> end_ <= _size bm ->
  puts bm (set_range bm beg end_) beg end_ true.
Proof.
  intros Hw Hb He. destruct (range_words bm beg end_ Hw Hb He) as (Eb & Ee & Hb' & He').
  pose proof (wf_words_bound _ Hw). unfold set_range. rewrite Eb, Ee.
  rewrite !bit_index_mul by lia. destruct (Z.ltb_spec ((beg + 63) / 64) (end_ / 64)).
  - apply (put_full_words _ _ set_range_of_words); eauto; lia.
  - apply put_partial_words; eauto.
Qed.

Lemma clear_range_puts bm beg end_ :
  wf bm -> 0 <= beg <= end_ -> end_ <= _size bm ->
  puts bm (clear_range bm beg end_) beg end_ false.
Proof.
  intros Hw Hb He. destruct (range_words bm beg end_ Hw Hb He) as (Eb & Ee & Hb' & He').
  pose proof (wf_words_bound _ Hw). unfold clear_range. rewrite Eb, Ee.
  rewrite !bit_index_mul by lia. destruct (Z.ltb_spec ((beg + 63) / 64) (end_ / 64)).
  - apply (put_full_words _ _ clear_range_of_words); eauto; lia.
  - apply put_partial_words; eauto.
Qed.

Lemma at_put_large_range_puts bm beg end_ v :
  wf bm -> 0 <= beg <= end_ -> end_ <= _size bm -> (beg + 63) / 64 <= end_ / 64 ->
  puts bm (at_put_large_range bm beg end_ v) beg end_ v.
Proof.
  intros Hw Hb He Hl. destruct (range_words bm beg end_ Hw Hb He) as (Eb & Ee & Hb' & He').
  pose proof (wf_words_bound _ Hw).
  destruct v; simpl; unfold set_large_range, clear_large_range; rewrite Eb, Ee;
    rewrite !bit_index_mul by lia.
  - rewrite set_large_range_of_words_eq.
    apply (put_full_words _ _ set_range_of_words); eauto.
  - rewrite clear_large_range_of_words_eq.
    apply (put_full_words _ _ clear_range_of_words); eauto.
Qed.

Lemma at_put_puts bm i v :
  wf bm -> 0 <= i < _size bm -> puts bm (at_put bm i v) i (i + 1) v.
Proof.
  intros Hw Hi. pose proof (wf_words_bound _ Hw).
  pose proof (Z.div_mod i 64 ltac:(lia)). pose proof (mod64_bound i).
  destruct v; simpl; unfold set_bit, clear_bit; rewrite word_index_div, bit_mask_pow;
    apply set_word_puts; try (lia || done).
  - apply lor_range; [lia | by apply map_range | unfold in_unsigned].
    pose proof (pow2_mod64 i). lia.
  - intros k Hk. rewrite Z.lor_spec, Z.pow2_bits_eqb by lia.
    destruct (Z.eqb_spec (i mod 64) k).
    + replace (_ && _) with true by lia. apply orb_true_r.
    + replace ((i <=? _) && _) with false by lia. apply orb_false_r.
  - apply land_range; [lia | by apply map_range].
  - intros k Hk. rewrite Z.land_spec, not_word_bits, Z.pow2_bits_eqb by lia.
    destruct (Z.eqb_spec (i mod 64) k).
    + replace ((i <=? _) && _) with true by lia. apply andb_false_r.
    + replace ((i <=? _) && _) with false by lia. apply andb_true_r.
Qed.

(** C31.  [at_put_range] puts exactly the bits of [[beg, end)] to the value and
    leaves every other bit, the size and well-formedness as they were, whatever way
    the range falls on word boundaries. *)
Theorem at_put_range_correct bm beg end_ v :
  wf bm -> 0 <= beg <= end_ -> end_ <= size bm ->
  wf (at_put_range bm beg end_ v) /\ size (at_put_range bm beg end_ v) = size bm /\
  forall i, 0 <= i < size bm ->
    at_ (at_put_range bm beg end_ v) i = if (beg <=? i) && (i <? end_) then v else at_ bm i.
Proof.
  intros Hw Hb He. assert (puts bm (at_put_range bm beg end_ v) beg end_ v) as [Hw' Hs Hbit].
  { destruct v; [by apply set_range_puts | by apply clear_range_puts]. }
  split; [done |]. split; [done |]. intros i Hi. rewrite !at_bit. apply Hbit. lia.
Qed.

Lemma at_put_range_correct_witness :
  at_ (at_put_range (mkBitMap (replicate 3 0) 150) 60 131 true) 130 = true.
Proof.
  rewrite (proj2 (proj2 (at_put_range_correct (mkBitMap (replicate 3 0) 150) 60 131 true
    ltac:(split; [simpl; lia | reflexivity | repeat constructor; done])
    ltac:(lia) ltac:(simpl; lia))) 130 ltac:(simpl; lia)).
  reflexivity.
Defined.

(** ** Searching *)

Lemma skip_zeros_first fuel : forall res off k,
  0 <= k < Z.of_nat fuel -> Z.testbit res k = true ->
  exists j, 0 <= j <= k /\ skip_zeros fuel res off = Some (off + j) /\
    Z.testbit res j = true /\ forall j', 0 <= j' < j -> Z.testbit res j' = false.
Proof.
  induction fuel as [|fuel IH]; intros res off k Hk Ht; [lia |].
  change (skip_zeros (S fuel) res off) with
    (if Z.odd res then Some off else skip_zeros fuel (Z.shiftr res 1) (off + 1)).
  destruct (Z.odd res) eqn:Ho.
  - exists 0. rewrite Z.bit0_odd, Z.add_0_r. split; [lia |]. split; [done |]. split; [done | lia].
  - assert (k <> 0) by (intros ->; rewrite Z.bit0_odd in Ht; congruence).
    destruct (IH (Z.shiftr res 1) (off + 1) (k - 1)) as (j & Hj & -> & Htj & Hf).
    + lia.
    + rewrite Z.shiftr_spec by lia. by replace (k - 1 + 1) with k by lia.
    + exists (j + 1). rewrite Z.shiftr_spec in Htj by lia.
      split; [lia |]. split; [f_equal; lia |]. split; [done |].
      intros j' Hj'. destruct (decide (j' = 0)) as [->|]; [by rewrite Z.bit0_odd |].
      specialize (Hf (j' - 1) ltac:(lia)). rewrite Z.shiftr_spec in Hf by lia.
      by replace (j' - 1 + 1) with j' in Hf by lia.
Qed.

Lemma skip_ones_zeros fuel : forall res off,
  skip_ones fuel res off = skip_zeros fuel (Z.lnot res) off.
Proof.
  induction fuel as [|fuel IH]; intros res off; [done |].
  change (skip_zeros (S fuel) ?r off) with
    (if Z.odd r then Some off else skip_zeros fuel (Z.shiftr r 1) (off + 1)).
  change (skip_ones (S fuel) res off) with
    (if Z.odd res then skip_ones fuel (Z.shiftr res 1) (off + 1) else Some off).
  rewrite <- !Z.bit0_odd, Z.lnot_spec by lia.
  destruct (Z.testbit res 0); simpl; [| done].
  by rewrite IH, Z.lnot_shiftr.
Qed.

Lemma nonzero_bit w : in_unsigned 64 w -> w <> 0 -> exists k, 0 <= k < 64 /\ Z.testbit w k = true.
Proof.
  intros [H0 H1] Hnz. exists (Z.log2 w). split; [| apply Z.bit_log2; lia].
  split; [apply Z.log2_nonneg | apply Z.log2_lt_pow2; lia].
Qed.

Lemma not_all_bits w :
  in_unsigned 64 w -> w <> uintptr_t AllBits -> exists k, 0 <= k < 64 /\ Z.testbit w k = false.
Proof.
  intros Hw Hne. destruct (nonzero_bit (not_word w) (not_word_range w)) as (k & Hk & Ht).
  - intros Hz. apply Hne. apply Z.bits_inj'. intros k Hk.
    destruct (Z.lt_ge_cases k 64).
    + assert (Z.testbit (not_word w) k = false) as Hn by by rewrite Hz, Z.testbit_0_l.
      rewrite not_word_bits, negb_false_iff in Hn by lia. rewrite Hn.
      symmetry. by apply (all_ones_bits k).
    + rewrite (testbit_high 64 w), (testbit_high 64 (uintptr_t AllBits)); done || lia.
  - exists k. split; [done |]. rewrite not_word_bits in Ht by done. by apply negb_true_iff.
Qed.

(** A bit of a word of the map as a bit of the map. *)
Lemma word_bit bm w k : 0 <= k < 64 -> Z.testbit (map bm w) k = bit bm (64 * w + k).
Proof.
  intros Hk. unfold bit. rewrite Z.mul_comm, Z.div_add_l, Z.div_small, Z.add_0_r by lia.
  by rewrite Z.add_comm, Z.mod_add, Z.mod_small by lia.
Qed.

(** The search of the two [get_next_*] functions, for the bit value [b]: [start]
    is the shifted first word, [found] tells whether a word has a bit [b] and
    [skip] finds its first one. *)
Definition first_at (b : bool) (bm : BitMap) (l r o : Z) : Prop :=
  l <= o <= r /\ (forall i, l <= i < o -> bit bm i = negb b) /\ (o < r -> bit bm o = b).

Lemma search_words b bm l r n i0 body :
  wf bm -> 0 <= l < 64 * i0 -> 64 * (i0 - 1) <= l -> l < r ->
  i0 + Z.of_nat n = (r - 1) / 64 + 1 ->
  (forall i, l <= i < 64 * i0 -> bit bm i = negb b) ->
  (forall w, i0 <= w < i0 + Z.of_nat n ->
     (body w = None /\ forall k, 0 <= k < 64 -> bit bm (64 * w + k) = negb b) \/
     (exists j, 0 <= j < 64 /\ body w = Some (Some (Z.min (64 * w + j) r)) /\
        bit bm (64 * w + j) = b /\ forall k, 0 <= k < j -> bit bm (64 * w + k) = negb b)) ->
  exists o, match for_until n i0 body with Some r => r | None => Some r end = Some o /\
    first_at b bm l r o.
Proof.
  intros Hw Hl Hl' Hlr Hn Hpre Hbody.
  pose proof (Z.div_mod (r - 1) 64 ltac:(lia)). pose proof (mod64_bound (r - 1)).
  assert (forall w i, i0 <= w <= i0 + Z.of_nat n ->
    (forall w', i0 <= w' < w -> body w' = None) -> l <= i < 64 * w -> bit bm i = negb b) as Hskip.
  { intros w i Hwr Hnone Hi. destruct (Z.lt_ge_cases i (64 * i0)); [apply Hpre; lia |].
    pose proof (Z.div_mod i 64 ltac:(lia)). pose proof (mod64_bound i).
    destruct (Hbody (i / 64) ltac:(lia)) as [[_ Hz]|(j & _ & Hsome & _)].
    - rewrite (Z.div_mod i 64) by lia. by apply Hz.
    - rewrite Hnone in Hsome by lia. done. }
  pose proof (for_until_spec n i0 body) as Hs. destruct (for_until n i0 body) as [o|].
  - destruct Hs as (w & Hwr & Ho & Hnone).
    destruct (Hbody w Hwr) as [[Hnn _]|(j & Hj & Hsome & Htrue & Hfalse)]; [congruence |].
    rewrite Ho in Hsome. injection Hsome as ->.
    eexists. split; [done |]. split; [lia |]. split.
    + intros i Hi. destruct (Z.lt_ge_cases i (64 * w)).
      * apply (Hskip w); [lia | done | lia].
      * replace i with (64 * w + (i - 64 * w)) by lia. apply Hfalse. lia.
    + intros Hlt. rewrite Z.min_l by lia. done.
  - exists r. split; [done |]. split; [lia |]. split; [| lia].
    intros i Hi. apply (Hskip (i0 + Z.of_nat n)); [lia | | lia].
    intros w' Hw'. apply Hs. lia.
Qed.

Lemma first_word_bits bm l j :
  wf bm -> 0 <= l -> 0 <= j ->
  Z.testbit (Z.shiftr (map bm (l / 64)) (l mod 64)) j =
    if l mod 64 + j <? 64 then bit bm (l + j) else false.
Proof.
  intros Hw Hl Hj. pose proof (mod64_bound l). rewrite Z.shiftr_spec by lia.
  destruct (Z.ltb_spec (l mod 64 + j) 64).
  - rewrite word_bit by lia. f_equal. pose proof (Z.div_mod l 64 ltac:(lia)). lia.
  - apply (testbit_high 64); [by apply map_range | lia].
Qed.

Lemma first_word_range bm l : wf bm -> in_unsigned 64 (Z.shiftr (map bm (l / 64)) (l mod 64)).
Proof.
  intros Hw. pose proof (map_range bm (l / 64) Hw) as [H0 H1]. pose proof (mod64_bound l).
  rewrite Z.shiftr_div_pow2 by lia. pose proof (pow2_pos (l mod 64) ltac:(lia)).
  split; [by apply Z.div_pos |]. apply Z.div_lt_upper_bound; [done | nia].
Qed.

Lemma search_first_word b bm l r k j :
  wf bm -> 0 <= l < r -> 0 <= j <= k -> l mod 64 + j < 64 ->
  bit bm (l + j) = b -> (forall j', 0 <= j' < j -> bit bm (l + j') = negb b) ->
  first_at b bm l r (MIN2 (l + j) r).
Proof.
  intros Hw Hl Hj Hlt Ht Hf. rewrite MIN2_min. split; [lia |]. split.
  - intros i Hi. replace i with (l + (i - l)) by lia. apply Hf. lia.
  - intros Hlr. by rewrite Z.min_l by lia.
Qed.

Lemma wf_word_bounds bm l r :
  wf bm -> 0 <= l < r -> r <= _size bm ->
  let i0 := l / 64 + 1 in
  word_index (idx (r - 1)) = (r - 1) / 64 /\
  i0 + Z.of_nat (Z.to_nat ((r - 1) / 64 + 1 - i0)) = (r - 1) / 64 + 1 /\
  0 <= l < 64 * i0 /\ 64 * (i0 - 1) <= l /\
  (forall w, i0 <= w < (r - 1) / 64 + 1 -> 0 <= w < 2 ^ 58).
Proof.
  intros Hw Hl Hr i0. pose proof (wf_size _ Hw). pose proof (wf_words_bound _ Hw).
  pose proof (Z.div_mod l 64 ltac:(lia)). pose proof (mod64_bound l).
  pose proof (Z.div_mod (r - 1) 64 ltac:(lia)). pose proof (mod64_bound (r - 1)).
  rewrite word_index_div, idx_small by lia. subst i0. split_and!; lia.
Qed.

Lemma word_search_one bm w r :
  wf bm -> 0 <= w < 2 ^ 58 -> map bm w <> 0 ->
  exists j, 0 <= j < 64 /\ skip_zeros 64 (map bm w) (bit_index w) = Some (64 * w + j) /\
    bit bm (64 * w + j) = true /\ (forall k, 0 <= k < j -> bit bm (64 * w + k) = false) /\
    MIN2 (64 * w + j) r = Z.min (64 * w + j) r.
Proof.
  intros Hw Hb Hnz. destruct (nonzero_bit _ (map_range bm w Hw) Hnz) as (k & Hk & Ht).
  destruct (skip_zeros_first 64 _ (bit_index w) k ltac:(lia) Ht) as (j & Hj & Hs & Htj & Hf).
  rewrite bit_index_mul in Hs by done. exists j. split; [lia |].
  rewrite bit_index_mul by done. rewrite <- word_bit by lia. split_and!; try done.
  - intros k' Hk'. rewrite <- word_bit by lia. by apply Hf.
  - apply MIN2_min.
Qed.

Lemma word_zero_bits bm w k : map bm w = 0 -> 0 <= k < 64 -> bit bm (64 * w + k) = false.
Proof. intros Hz Hk. rewrite <- word_bit, Hz by done. apply Z.testbit_0_l. Qed.



Lemma zero_word_bits bm l j :
  wf bm -> 0 <= l -> 0 <= j < 64 ->
  Z.testbit (Z.lor (Z.shiftr (map bm (l / 64)) (l mod 64)) (uintptr_t (left_n_bits (l mod 64)))) j =
    if l mod 64 + j <? 64 then bit bm (l + j) else true.
Proof.
  intros Hw Hl Hj. pose proof (mod64_bound l).
  rewrite Z.lor_spec, first_word_bits, left_n_bits_bits by lia || done.
  destruct (Z.ltb_spec (l mod 64 + j) 64).
  - replace (64 - l mod 64 <=? j) with false by lia. apply orb_false_r.
  - by replace (64 - l mod 64 <=? j) with true by lia.
Qed.

Lemma skip_ones_first res off k :
  0 <= k < 64 -> Z.testbit res k = false ->
  exists j, 0 <= j <= k /\ skip_ones 64 res off = Some (off + j) /\
    Z.testbit res j = false /\ forall j', 0 <= j' < j -> Z.testbit res j' = true.
Proof.
  intros Hk Ht. rewrite skip_ones_zeros.
  destruct (skip_zeros_first 64 (Z.lnot res) off k ltac:(lia)) as (j & Hj & Hs & Htj & Hf).
  { by rewrite Z.lnot_spec, Ht by lia. }
  exists j. split; [done |]. split; [done |]. rewrite Z.lnot_spec in Htj by lia.
  split; [by apply negb_true_iff |]. intros j' Hj'. specialize (Hf j' Hj').
  rewrite Z.lnot_spec in Hf by lia. by apply negb_false_iff.
Qed.

Lemma word_search_zero bm w r :
  wf bm -> 0 <= w < 2 ^ 58 -> map bm w <> uintptr_t AllBits ->
  exists j, 0 <= j < 64 /\
    skip_ones 64 (map bm w) (idx (Z.shiftl w LogBitsPerWord)) = Some (64 * w + j) /\
    bit bm (64 * w + j) = false /\ (forall k, 0 <= k < j -> bit bm (64 * w + k) = true) /\
    MIN2 (64 * w + j) r = Z.min (64 * w + j) r.
Proof.
  intros Hw Hb Hnz. destruct (not_all_bits _ (map_range bm w Hw) Hnz) as (k & Hk & Ht).
  change (idx (Z.shiftl w LogBitsPerWord)) with (bit_index w).
  destruct (skip_ones_first _ (bit_index w) k Hk Ht) as (j & Hj & Hs & Htj & Hf).
  rewrite bit_index_mul in * by done. exists j. split; [lia |].
  rewrite <- word_bit by lia. split_and!; try done.
  - intros k' Hk'. rewrite <- word_bit by lia. by apply Hf.
  - apply MIN2_min.
Qed.

Lemma word_full_bits bm w k :
  map bm w = uintptr_t AllBits -> 0 <= k < 64 -> bit bm (64 * w + k) = true.
Proof. intros Hz Hk. rewrite <- word_bit, Hz by done. by apply all_ones_bits. Qed.

(** [get_next_zero_offset] returns the first clear bit of [[l, r)], or [r]
    when there is none. *)
Theorem get_next_zero_offset_correct bm l r :
  wf bm -> 0 <= l <= r -> r <= size bm ->
  exists o, get_next_zero_offset_inline bm l r = Some o /\ l <= o <= r /\
    (forall i, l <= i < o -> at_ bm i = true) /\ (o < r -> at_ bm o = false).
Proof.
  intros Hw Hl Hr. setoid_rewrite at_bit. unfold get_next_zero_offset_inline.
  destruct (Z.eqb_spec l r) as [->|Hne].
  { exists r. split; [done |]. split; [lia |]. split; intros; lia. }
  destruct (wf_word_bounds bm l r Hw ltac:(lia) Hr) as (-> & Hn & Hl0 & Hl1 & Hw58).
  fold (bit_in_word l). rewrite bit_in_word_mod, word_index_div.
  pose proof (mod64_bound l). pose proof (Z.div_mod l 64 ltac:(lia)).
  set (res := Z.lor _ _).
  assert (in_unsigned 64 res) as Hres.
  { apply lor_range; [lia | by apply first_word_range | apply wrap_range; lia]. }
  destruct (Z.eqb_spec res (uintptr_t AllBits)) as [Hz|Hnz]; cbn [negb].
  - apply (search_words false); [done | done | done | lia | done | |].
    + intros i Hi. pose proof (zero_word_bits bm l (i - l) Hw ltac:(lia) ltac:(lia)) as Hb.
      fold res in Hb. rewrite Hz in Hb.
      change (Z.testbit (uintptr_t AllBits) (i - l)) with (Z.testbit all_ones (i - l)) in Hb.
      rewrite all_ones_bits in Hb by lia. replace (l + (i - l)) with i in Hb by lia.
      by replace (l mod 64 + (i - l) <? 64) with true in Hb by lia.
    + intros w Hwr. destruct (Z.eqb_spec (map bm w) (uintptr_t AllBits)) as [Hz'|Hnz'].
      * left. split; [done | intros; by apply word_full_bits].
      * right. destruct (word_search_zero bm w r Hw (Hw58 w ltac:(lia)) Hnz')
          as (j & Hj & Hs & Ht & Hf & Hm).
        exists j. split; [done |]. cbn [negb]. rewrite Hs. simpl. rewrite Hm. done.
  - destruct (not_all_bits _ Hres Hnz) as (k & Hk & Ht).
    destruct (skip_ones_first _ l k Hk Ht) as (j & Hj & Hs & Htj & Hf).
    rewrite Hs. unfold res in Htj. rewrite zero_word_bits in Htj by lia || done.
    destruct (Z.ltb_spec (l mod 64 + j) 64); [| done].
    eexists. split; [done |]. apply (search_first_word false bm l r j); try lia || done.
    intros j' Hj'. specialize (Hf j' Hj'). unfold res in Hf.
    rewrite zero_word_bits in Hf by lia || done.
    by replace (l mod 64 + j' <? 64) with true in Hf by lia.
Qed.

Lemma get_next_zero_offset_correct_witness :
  exists o, get_next_zero_offset_inline (mkBitMap [2 ^ 64 - 1; 7] 128) 3 128 = Some o /\ 3 <= o <= 128 /\
    (forall i, 3 <= i < o -> at_ (mkBitMap [2 ^ 64 - 1; 7] 128) i = true) /\
    (o < 128 -> at_ (mkBitMap [2 ^ 64 - 1; 7] 128) o = false).
Proof.
  apply (get_next_zero_offset_correct (mkBitMap [2 ^ 64 - 1; 7] 128) 3 128);
    [split; [simpl; lia | reflexivity | repeat constructor; done] | lia | simpl; lia].
Defined.

(** ** The size hints *)

(** The hinted variants put the same range as the unhinted one, for every
    hint, when a [large_range] hint spans at least the 32 whole words its assertion
    asks for. *)
Theorem range_hint_correct bm beg end_ hint :
  wf bm -> 0 <= beg <= end_ -> end_ <= size bm ->
  (hint = large_range -> 32 <= end_ / 64 - (beg + 63) / 64) ->
  forall i, 0 <= i < size bm ->
    at_ (set_range_hint bm beg end_ hint) i = at_ (at_put_range bm beg end_ true) i /\
    at_ (clear_range_hint bm beg end_ hint) i = at_ (at_put_range bm beg end_ false) i.
Proof.
  intros Hw Hb He Hl i Hi. rewrite !at_bit. pose proof (wf_size _ Hw).
  rewrite (puts_bit _ _ _ _ _ (set_range_puts bm beg end_ Hw Hb He)) by lia.
  rewrite (puts_bit _ _ _ _ _ (clear_range_puts bm beg end_ Hw Hb He)) by lia.
  unfold set_range_hint, clear_range_hint. unfold size in *. rewrite idx_small by lia.
  destruct hint; simpl.
  - split; apply (puts_bit _ _ beg end_); auto using set_range_puts, clear_range_puts; lia.
  - destruct (Z.eqb_spec (end_ - beg) 1) as [H1|H1].
    + replace end_ with (beg + 1) by lia.
      split; apply (puts_bit _ _ beg (beg + 1)); try lia.
      * apply (at_put_puts bm beg true); lia || done.
      * apply (at_put_puts bm beg false); lia || done.
    + split; apply (puts_bit _ _ beg end_); auto using set_range_puts, clear_range_puts; lia.
  - specialize (Hl eq_refl). split; apply (puts_bit _ _ beg end_); try lia.
    + apply (at_put_large_range_puts bm beg end_ true); lia || done.
    + apply (at_put_large_range_puts bm beg end_ false); lia || done.
Qed.

Lemma range_hint_correct_witness :
  at_ (set_range_hint (mkBitMap [0] 64) 5 6 small_range) 5
    = at_ (at_put_range (mkBitMap [0] 64) 5 6 true) 5.
Proof.
  apply (range_hint_correct (mkBitMap [0] 64) 5 6 small_range);
    [split; [simpl; lia | reflexivity | repeat constructor; done] | lia | simpl; lia | done
    | simpl; lia].
Defined.

End BitMap.
