(* ===== verification/BitMapOps.v ===== *)
(** Set algebra, tests, counting and iteration on bit maps: correctness of the
    word-at-a-time loops of [utilities/bitMap.cpp] against the bits of the map. *)
From S2P Require Import Prelude GlobalDefinitions BitMap.
Import GlobalDefinitions BitMap.

Module BitMapOps.

(** ** Loops that rewrite every word *)

Definition update_words (f : Z -> Z -> Z) (bm : BitMap) : BitMap :=
  for_loop (words bm) 0 (fun index bm => set_word bm index (f index (map bm index))) bm.

Record updated (f : Z -> Z -> Z) (k : Z) (bm bm' : BitMap) : Prop := {
  updated_wf : wf bm';
  updated_size : _size bm' = _size bm;
  updated_map : forall w, 0 <= w -> map bm' w = if w <? k then f w (map bm w) else map bm w
}.

Lemma wf_words_count bm : wf bm -> Z.of_nat (words bm) = size_in_words bm.
Proof. intros Hw. pose proof (wf_words_bound _ Hw). unfold words. lia. Qed.

Lemma updated_step f k bm bm' :
  wf bm -> (forall w x, in_unsigned 64 x -> in_unsigned 64 (f w x)) ->
  0 <= k < size_in_words bm -> updated f k bm bm' ->
  updated f (k + 1) bm (set_word bm' k (f k (map bm' k))).
Proof.
  intros Hw Hf Hk [Hw' Hs Hm]. split.
  - apply set_word_wf; [done |]. apply Hf. by apply map_range.
  - done.
  - intros w Hw0. rewrite map_set_word.
    + rewrite (Hm k) by lia. rewrite (proj2 (Z.ltb_ge k k)) by lia.
      destruct (Z.eqb_spec k w) as [<-|Hne].
      * by replace (k <? k + 1) with true by lia.
      * rewrite (Hm w Hw0). by replace (w <? k + 1) with (w <? k) by lia.
    + rewrite (wf_length _ Hw'), (size_in_words_size _ _ Hs). lia.
    + done.
Qed.

Lemma update_words_spec f bm :
  wf bm -> (forall w x, in_unsigned 64 x -> in_unsigned 64 (f w x)) ->
  updated f (size_in_words bm) bm (update_words f bm).
Proof.
  intros Hw Hf. rewrite <- (wf_words_count bm Hw). unfold update_words.
  apply (for_loop_ind (fun k bm' => updated f k bm bm') (words bm) 0).
  - split; [done | done |]. intros w Hw0. by replace (w <? 0) with false by lia.
  - intros k bm' Hk. apply updated_step; [done | done |]. rewrite <- wf_words_count; done || lia.
Qed.

Lemma update_words_wf f bm :
  wf bm -> (forall w x, in_unsigned 64 x -> in_unsigned 64 (f w x)) ->
  wf (update_words f bm) /\ size (update_words f bm) = size bm.
Proof. intros Hw Hf. by destruct (update_words_spec f bm Hw Hf). Qed.

(** Bit by bit, for a word operation that acts bitwise through [g]. *)
Lemma update_words_bit f g bm i :
  wf bm -> (forall w x, in_unsigned 64 x -> in_unsigned 64 (f w x)) ->
  (forall w x k, 0 <= k < 64 -> Z.testbit (f w x) k = g (64 * w + k) (Z.testbit x k)) ->
  0 <= i < 64 * size_in_words bm ->
  bit (update_words f bm) i = g i (bit bm i).
Proof.
  intros Hw Hf Hg Hi. pose proof (update_words_spec f bm Hw Hf) as [_ _ Hm].
  pose proof (Z.div_mod i 64 ltac:(lia)). pose proof (mod64_bound i).
  unfold bit. rewrite Hm by lia. replace (i / 64 <? size_in_words bm) with true by lia.
  rewrite Hg by done. f_equal. lia.
Qed.

Lemma set_union_update bm other :
  set_union bm other = update_words (fun w x => Z.lor x (map other w)) bm.
Proof. reflexivity. Qed.
Lemma set_difference_update bm other :
  set_difference bm other = update_words (fun w x => Z.land x (not_word (map other w))) bm.
Proof. reflexivity. Qed.
Lemma set_intersection_update bm other :
  set_intersection bm other = update_words (fun w x => Z.land x (map other w)) bm.
Proof. reflexivity. Qed.
Lemma set_from_update bm other :
  set_from bm other = update_words (fun w _ => map other w) bm.
Proof. reflexivity. Qed.

Lemma lor_word_ok other (w x : Z) :
  wf other -> in_unsigned 64 x -> in_unsigned 64 (Z.lor x (map other w)).
Proof. intros. apply lor_range; [lia | done | by apply map_range]. Qed.

Lemma land_word_ok (m x : Z) : in_unsigned 64 x -> in_unsigned 64 (Z.land x m).
Proof. intros. apply land_range; [lia | done]. Qed.

Ltac word_ok :=
  first [assumption
        | intros ? ? ?; first [by apply lor_word_ok | by apply land_word_ok | by apply map_range]].

Lemma size_bits bm i : wf bm -> 0 <= i < size bm -> 0 <= i < 64 * size_in_words bm.
Proof. intros Hw Hi. pose proof (wf_words_bound _ Hw). unfold size in Hi. lia. Qed.

(** The set operations compute union, difference, intersection and copy bit by
    bit, keeping the size and well-formedness of the receiver. *)
Theorem set_operations_correct bm other :
  wf bm -> wf other -> size other = size bm ->
  (forall r, r ∈ [set_union bm other; set_difference bm other; set_intersection bm other;
                  set_from bm other] -> wf r /\ size r = size bm) /\
  forall i, 0 <= i < size bm ->
    at_ (set_union bm other) i = at_ bm i || at_ other i /\
    at_ (set_difference bm other) i = at_ bm i && negb (at_ other i) /\
    at_ (set_intersection bm other) i = at_ bm i && at_ other i /\
    at_ (set_from bm other) i = at_ other i.
Proof.
  intros Hw Ho _. pose proof (map_range other) as Hr. split.
  - intros r. rewrite !elem_of_cons, elem_of_nil.
    rewrite set_union_update, set_difference_update, set_intersection_update, set_from_update.
    intros [->|[->|[->|[->|[]]]]]; apply update_words_wf; word_ok.
  - intros i Hi%size_bits; [| done]. rewrite !at_bit.
    rewrite set_union_update, set_difference_update, set_intersection_update, set_from_update.
    split_and!.
    + apply (update_words_bit _ (fun i b => b || bit other i)); [word_ok | word_ok | | done].
      intros w x k Hk. by rewrite Z.lor_spec, word_bit.
    + apply (update_words_bit _ (fun i b => b && negb (bit other i))); [word_ok | word_ok | | done].
      intros w x k Hk. by rewrite Z.land_spec, not_word_bits, word_bit.
    + apply (update_words_bit _ (fun i b => b && bit other i)); [word_ok | word_ok | | done].
      intros w x k Hk. by rewrite Z.land_spec, word_bit.
    + apply (update_words_bit _ (fun i _ => bit other i)); [word_ok | word_ok | | done].
      intros w x k Hk. by rewrite word_bit.
Qed.

Lemma set_operations_correct_witness :
  at_ (set_difference (mkBitMap [7] 3) (mkBitMap [2] 3)) 1 = false.
Proof.
  rewrite (proj1 (proj2 (proj2 (set_operations_correct (mkBitMap [7] 3) (mkBitMap [2] 3)
    ltac:(split; [simpl; lia | reflexivity | repeat constructor; done])
    ltac:(split; [simpl; lia | reflexivity | repeat constructor; done]) eq_refl)
    1 ltac:(simpl; lia)))).
  reflexivity.
Defined.

(** ** The variants that report a change *)

Definition update_words_result (f : Z -> Z -> Z) (bm : BitMap) : bool * BitMap :=
  for_loop (words bm) 0 (fun index '(changed, bm) =>
    (changed || negb (f index (map bm index) =? map bm index),
     set_word bm index (f index (map bm index)))) (false, bm).

Lemma set_word_same bm w : 0 <= w -> set_word bm w (map bm w) = bm.
Proof.
  intros Hw. unfold set_word, map. destruct bm as [m s]. simpl. f_equal.
  rewrite nth_lookup. destruct (m !! Z.to_nat w) eqn:E; simpl.
  - by apply list_insert_id.
  - apply list_insert_ge. by apply lookup_ge_None.
Qed.

Lemma for_loop_fst_snd {A B} n (fb : Z -> B -> A) (body : Z -> B -> B) : forall i (op : A -> A -> A) a b,
  for_loop n i (fun k '(x, y) => (op x (fb k y), body k y)) (a, b) =
  ((for_loop n i (fun k '(x, y) => (op x (fb k y), body k y)) (a, b)).1, for_loop n i body b).
Proof.
  induction n as [|n IH]; intros i op a b; simpl; [done |]. by rewrite IH at 1.
Qed.

Lemma update_words_result_snd f bm : (update_words_result f bm).2 = update_words f bm.
Proof.
  unfold update_words_result.
  by rewrite (for_loop_fst_snd _ (fun k bm => negb (f k (map bm k) =? map bm k))
    (fun k bm => set_word bm k (f k (map bm k))) 0 orb).
Qed.

(** The flag is set exactly when some word changes. *)
Lemma update_words_result_fst f bm :
  wf bm -> (forall w x, in_unsigned 64 x -> in_unsigned 64 (f w x)) ->
  (update_words_result f bm).1 = true <->
  exists w, 0 <= w < size_in_words bm /\ f w (map bm w) <> map bm w.
Proof.
  intros Hw Hf. rewrite <- (wf_words_count bm Hw).
  pose proof (for_loop_ind (fun k '(changed, bm') => updated f k bm bm' /\
    (changed = true <-> exists w, 0 <= w < k /\ f w (map bm w) <> map bm w))
    (words bm) 0 (fun index '(changed, bm) =>
      (changed || negb (f index (map bm index) =? map bm index),
       set_word bm index (f index (map bm index)))) (false, bm)) as Hind.
  unfold update_words_result in *. destruct (for_loop _ _ _ _) as [changed bm'].
  apply Hind; clear Hind.
  - split; [| split; [done | intros (w & ? & ?); lia]].
    split; [done | done |]. intros w Hw0. by replace (w <? 0) with false by lia.
  - intros k [ch b] Hk [Hu Hc].
    pose proof (wf_words_count bm Hw) as Hcount. split; [apply updated_step; done || lia |].
    rewrite orb_true_iff, Hc, (updated_map _ _ _ _ Hu k) by lia.
    rewrite (proj2 (Z.ltb_ge k k)) by lia. split.
    + intros [(w & Hw1 & Hne)|Hne]; [exists w; split; [lia | done] |].
      exists k. split; [lia |]. destruct (Z.eqb_spec (f k (map bm k)) (map bm k)); done.
    + intros (w & Hw1 & Hne). destruct (decide (w = k)) as [->|].
      * right. by destruct (Z.eqb_spec (f k (map bm k)) (map bm k)).
      * left. exists w. split; [lia | done].
Qed.

Lemma words_differ a b :
  in_unsigned 64 a -> in_unsigned 64 b -> a <> b ->
  exists k, 0 <= k < 64 /\ Z.testbit a k <> Z.testbit b k.
Proof.
  intros Ha Hb Hne. destruct (nonzero_bit (Z.lxor a b)) as (k & Hk & Ht).
  - apply unsigned_of_bits; [lia | |].
    + apply Z.lxor_nonneg. destruct Ha, Hb. lia.
    + intros i Hi. by rewrite Z.lxor_spec, (testbit_high 64 a), (testbit_high 64 b) by done || lia.
  - intros Hz. apply Hne. by apply Z.lxor_eq.
  - exists k. split; [done |]. rewrite Z.lxor_spec in Ht.
    by destruct (Z.testbit a k), (Z.testbit b k).
Qed.

(** Two maps have a different word exactly when they have a different bit. *)
Lemma words_differ_bits bm bm' n :
  wf bm -> wf bm' ->
  (exists w, 0 <= w < n /\ map bm' w <> map bm w) <->
  (exists i, 0 <= i < 64 * n /\ bit bm' i <> bit bm i).
Proof.
  intros Hw Hw'. split.
  - intros (w & Hwn & Hne).
    destruct (words_differ _ _ (map_range bm' w Hw') (map_range bm w Hw) Hne) as (k & Hk & Ht).
    exists (64 * w + k). rewrite <- !word_bit by done. split; [lia | done].
  - intros (i & Hi & Hne). pose proof (Z.div_mod i 64 ltac:(lia)). pose proof (mod64_bound i).
    exists (i / 64). split; [lia |]. intros Heq. apply Hne. unfold bit. by rewrite Heq.
Qed.

Lemma update_words_result_bits f bm :
  wf bm -> (forall w x, in_unsigned 64 x -> in_unsigned 64 (f w x)) ->
  (update_words_result f bm).1 = true <->
  exists i, 0 <= i < 64 * size_in_words bm /\ bit (update_words f bm) i <> bit bm i.
Proof.
  intros Hw Hf. rewrite update_words_result_fst by done.
  destruct (update_words_spec f bm Hw Hf) as [Hw' _ Hm].
  rewrite <- words_differ_bits by done.
  split; intros (w & Hwn & Hne); exists w; (split; [done |]);
    rewrite Hm in * by lia; by replace (w <? size_in_words bm) with true in * by lia.
Qed.

(** A map whose last word has no bits past the size. *)
Definition clean (bm : BitMap) : Prop := forall i, size bm <= i -> bit bm i = false.

Lemma changed_below_size f bm :
  wf bm -> (forall w x, in_unsigned 64 x -> in_unsigned 64 (f w x)) ->
  (forall i, size bm <= i < 64 * size_in_words bm -> bit (update_words f bm) i = bit bm i) ->
  (update_words_result f bm).1 = true <->
  exists i, 0 <= i < size bm /\ at_ (update_words f bm) i <> at_ bm i.
Proof.
  intros Hw Hf Hc. rewrite update_words_result_bits by done.
  split; intros (i & Hi & Hne); exists i.
  - rewrite !at_bit. split; [| done]. destruct (Z.lt_ge_cases i (size bm)); [lia |].
    rewrite Hc in Hne by lia. done.
  - rewrite !at_bit in Hne. split; [by apply size_bits | done].
Qed.

(** The [*_with_result] operations leave the receiver as the plain operation
    does and return [true] exactly when some bit of the receiver changed, for maps
    with no stray bits past their size. *)
Theorem with_result_correct bm other :
  wf bm -> wf other -> size other = size bm -> clean bm -> clean other ->
  forall op op', (op, op') ∈ [(set_union, set_union_with_result);
                              (set_difference, set_difference_with_result);
                              (set_intersection, set_intersection_with_result)] ->
  (op' bm other).2 = op bm other /\
  ((op' bm other).1 = true <->
     exists i, 0 <= i < size bm /\ at_ (op bm other) i <> at_ bm i).
Proof.
  intros Hw Ho Hsz Hc Hco op op'. rewrite !elem_of_cons, elem_of_nil.
  pose proof (map_range other) as Hr.
  intros [[= -> ->]|[[= -> ->]|[[= -> ->]|[]]]].
  - change (set_union_with_result bm other)
      with (update_words_result (fun w x => Z.lor x (map other w)) bm).
    rewrite update_words_result_snd, set_union_update. split; [done |].
    apply changed_below_size; [word_ok | word_ok |].
    intros i Hi. pose proof (wf_size _ Hw). unfold size in *.
    rewrite (update_words_bit _ (fun i b => b || bit other i)); [| word_ok | word_ok | | lia].
    + rewrite (Hco i) by (unfold size; lia). apply orb_false_r.
    + intros w x k Hk. by rewrite Z.lor_spec, word_bit.
  - change (set_difference_with_result bm other)
      with (update_words_result (fun w x => Z.land x (not_word (map other w))) bm).
    rewrite update_words_result_snd, set_difference_update. split; [done |].
    apply changed_below_size; [word_ok | word_ok |].
    intros i Hi. pose proof (wf_size _ Hw). unfold size in *.
    rewrite (update_words_bit _ (fun i b => b && negb (bit other i))); [| word_ok | word_ok | | lia].
    + rewrite (Hco i) by (unfold size; lia). apply andb_true_r.
    + intros w x k Hk. by rewrite Z.land_spec, not_word_bits, word_bit.
  - change (set_intersection_with_result bm other)
      with (update_words_result (fun w x => Z.land x (map other w)) bm).
    rewrite update_words_result_snd, set_intersection_update. split; [done |].
    apply changed_below_size; [word_ok | word_ok |].
    intros i Hi. pose proof (wf_size _ Hw). unfold size in *.
    rewrite (update_words_bit _ (fun i b => b && bit other i)); [| word_ok | word_ok | | lia].
    + rewrite (Hc i) by (unfold size; lia). done.
    + intros w x k Hk. by rewrite Z.land_spec, word_bit.
Qed.

Lemma clean_1 m k :
  in_unsigned k m -> 0 <= k <= 64 -> clean (mkBitMap [m] k).
Proof.
  intros Hm Hk i Hi. simpl in Hi. unfold bit.
  pose proof (Z.div_mod i 64 ltac:(lia)). pose proof (mod64_bound i).
  destruct (decide (i / 64 = 0)) as [E|E].
  - rewrite E. apply (testbit_high k); [done | lia].
  - unfold map. cbn [_map]. rewrite nth_overflow; [apply Z.testbit_0_l |]. simpl. lia.
Qed.

Lemma with_result_correct_witness :
  (set_union_with_result (mkBitMap [1] 3) (mkBitMap [2] 3)).2
    = set_union (mkBitMap [1] 3) (mkBitMap [2] 3).
Proof.
  apply (with_result_correct (mkBitMap [1] 3) (mkBitMap [2] 3));
    [split; [simpl; lia | reflexivity | repeat constructor; done]
    | split; [simpl; lia | reflexivity | repeat constructor; done]
    | reflexivity | by apply clean_1 | by apply clean_1 | by left].
Defined.

(** ** Tests *)

Lemma for_until_all {R} n (p : Z -> bool) (r : R) :
  for_until n 0 (fun k => if negb (p k) then Some r else None) = None <->
  forall k, 0 <= k < Z.of_nat n -> p k = true.
Proof.
  pose proof (for_until_spec n 0 (fun k => if negb (p k) then Some r else None)) as Hs.
  destruct (for_until _ _ _).
  - split; [done |]. destruct Hs as (k & Hk & Hb & _). intros Hp. rewrite Hp in Hb by lia. done.
  - split; [| done]. intros _ k Hk. specialize (Hs k ltac:(lia)). simpl in Hs. by destruct (p k).
Qed.

Lemma for_until_bool n (p : Z -> bool) (b : bool) :
  match for_until n 0 (fun k => if negb (p k) then Some b else None) with
  | Some r => r | None => negb b end = negb b <->
  forall k, 0 <= k < Z.of_nat n -> p k = true.
Proof.
  rewrite <- (for_until_all n p b).
  pose proof (for_until_spec n 0 (fun k => if negb (p k) then Some b else None)) as Hs.
  destruct (for_until _ _ _) as [r|]; [| done].
  destruct Hs as (k & _ & Hb & _). destruct (negb (p k)); [| done]. injection Hb as <-.
  by destruct b.
Qed.

(** A bitwise test of all words is a test of all bits. *)
Lemma all_words_bits n (p : Z -> bool) (q : Z -> Prop) :
  (forall w, p w = true <-> forall k, 0 <= k < 64 -> q (64 * w + k)) ->
  (forall w, 0 <= w < n -> p w = true) <-> (forall i, 0 <= i < 64 * n -> q i).
Proof.
  intros Hp. split.
  - intros Hall i Hi. pose proof (Z.div_mod i 64 ltac:(lia)). pose proof (mod64_bound i).
    rewrite (Z.div_mod i 64) by lia. by apply Hp; [apply Hall; lia |].
  - intros Hall w Hw. apply Hp. intros k Hk. apply Hall. lia.
Qed.

Lemma words_eq_bits a b :
  in_unsigned 64 a -> in_unsigned 64 b ->
  (a =? b) = true <-> forall k, 0 <= k < 64 -> Z.testbit a k = Z.testbit b k.
Proof.
  intros Ha Hb. rewrite Z.eqb_eq. split; [by intros -> |]. intros Hk.
  destruct (decide (a = b)) as [|Hne]; [done |].
  destruct (words_differ a b Ha Hb Hne) as (k & Hk' & Ht). by rewrite Hk in Ht.
Qed.

Lemma below_size (q : Z -> Prop) bm :
  wf bm -> (forall i, size bm <= i -> q i) ->
  (forall i, 0 <= i < 64 * size_in_words bm -> q i) <-> (forall i, 0 <= i < size bm -> q i).
Proof.
  intros Hw Hq. split; intros Hall i Hi.
  - apply Hall. by apply size_bits.
  - destruct (Z.lt_ge_cases i (size bm)); [apply Hall; lia | apply Hq; lia].
Qed.

(** [contains], [is_same] and [intersects] decide inclusion, equality and
    non-disjointness of the sets of bits below the size. *)
Theorem set_tests_correct bm other :
  wf bm -> wf other -> size other = size bm -> clean bm -> clean other ->
  (contains bm other = true <->
     forall i, 0 <= i < size bm -> at_ other i = true -> at_ bm i = true) /\
  (is_same bm other = true <-> forall i, 0 <= i < size bm -> at_ bm i = at_ other i) /\
  (intersects bm other = false <->
     forall i, 0 <= i < size bm -> at_ bm i && at_ other i = false).
Proof.
  intros Hw Ho Hsz Hc Hco. setoid_rewrite at_bit.
  pose proof (fun w => map_range bm w Hw) as Hr. pose proof (fun w => map_range other w Ho) as Hro.
  pose proof (wf_words_count bm Hw) as Hn. split_and!.
  - etransitivity; [apply (for_until_bool _ _ false) |]. rewrite Hn.
    rewrite (all_words_bits _ _ (fun i => bit other i = true -> bit bm i = true)).
    + apply (below_size (fun i => bit other i = true -> bit bm i = true)); [done |].
      intros i Hi. rewrite Hco; [done | by rewrite Hsz].
    + intros w. rewrite words_eq_bits by (apply lor_range || idtac; auto; lia).
      split; intros Hk k Hk'; specialize (Hk k Hk'); revert Hk;
        rewrite Z.lor_spec, !word_bit by done;
        destruct (bit bm _), (bit other _); simpl;
        first [done | intros Himp; by specialize (Himp eq_refl)].
  - etransitivity; [apply (for_until_bool _ _ false) |]. rewrite Hn.
    rewrite (all_words_bits _ _ (fun i => bit bm i = bit other i)).
    + apply (below_size (fun i => bit bm i = bit other i)); [done |].
      intros i Hi. by rewrite Hc, Hco by (rewrite ?Hsz; done).
    + intros w. rewrite words_eq_bits by auto. split; intros Hk k Hk'; specialize (Hk k Hk');
        by rewrite !word_bit in * by done.
  - etransitivity; [apply (for_until_bool _ _ true) |]. rewrite Hn.
    rewrite (all_words_bits _ _ (fun i => bit bm i && bit other i = false)).
    + apply (below_size (fun i => bit bm i && bit other i = false)); [done |].
      intros i Hi. by rewrite Hc.
    + intros w. rewrite words_eq_bits by (apply land_range || idtac; auto; unfold in_unsigned; lia).
      split; intros Hk k Hk'; specialize (Hk k Hk');
        rewrite Z.land_spec, Z.testbit_0_l, !word_bit in * by done; done.
Qed.

Lemma set_tests_correct_witness :
  contains (mkBitMap [7] 3) (mkBitMap [5] 3) = true <->
    forall i, 0 <= i < 3 -> at_ (mkBitMap [5] 3) i = true -> at_ (mkBitMap [7] 3) i = true.
Proof.
  apply (set_tests_correct (mkBitMap [7] 3) (mkBitMap [5] 3));
    [split; [simpl; lia | reflexivity | repeat constructor; done]
    | split; [simpl; lia | reflexivity | repeat constructor; done]
    | reflexivity | by apply clean_1 | by apply clean_1].
Defined.

End BitMapOps.
