(* ===== verification/BitMapScan.v ===== *)
(** Whole-map scans of [utilities/bitMap.cpp]: [is_full], [is_empty],
    [count_one_bits] and [iterate]. *)
From S2P Require Import Prelude GlobalDefinitions BitMap BitMapOps.
Import GlobalDefinitions BitMap BitMapOps.

Module BitMapScan.

(** ** [is_full] and [is_empty] *)

Lemma all_bits_eq w :
  in_unsigned 64 w ->
  (w =? uintptr_t AllBits) = true <-> forall k, 0 <= k < 64 -> Z.testbit w k = true.
Proof.
  intros Hw. rewrite words_eq_bits by (done || apply all_ones_range).
  split; intros Hk k Hk'; [rewrite Hk by done | rewrite Hk by done; symmetry];
    by apply (all_ones_bits k).
Qed.

Lemma no_bits_eq w :
  in_unsigned 64 w ->
  (w =? uintptr_t NoBits) = true <-> forall k, 0 <= k < 64 -> Z.testbit w k = false.
Proof.
  intros Hw. rewrite words_eq_bits by (done || (unfold in_unsigned; simpl; lia)).
  split; intros Hk k Hk'; rewrite Hk by done; [| symmetry]; apply Z.testbit_0_l.
Qed.

Lemma last_word_full bm w rest :
  wf bm -> 0 < rest < 64 ->
  (Z.lor (map bm w) (not_word (right_n_bits rest)) =? uintptr_t AllBits) = true <->
  forall k, 0 <= k < rest -> bit bm (64 * w + k) = true.
Proof.
  intros Hw Hr.
  rewrite all_bits_eq by (apply lor_range; [lia | by apply map_range | apply not_word_range]).
  rewrite right_n_bits_ones by lia. split.
  - intros Hk k Hk'. specialize (Hk k ltac:(lia)).
    rewrite Z.lor_spec, not_word_bits, Z.ones_spec_low, word_bit in Hk by lia.
    by rewrite orb_false_r in Hk.
  - intros Hk k Hk'. rewrite Z.lor_spec, not_word_bits, word_bit by lia.
    destruct (Z.lt_ge_cases k rest); [by rewrite Hk by lia |].
    rewrite Z.ones_spec_high by lia. apply orb_true_r.
Qed.

Lemma last_word_empty bm w rest :
  wf bm -> 0 < rest < 64 ->
  (Z.land (map bm w) (uintptr_t (right_n_bits rest)) =? uintptr_t NoBits) = true <->
  forall k, 0 <= k < rest -> bit bm (64 * w + k) = false.
Proof.
  intros Hw Hr. rewrite no_bits_eq by (apply land_range; [lia | by apply map_range]).
  rewrite right_n_bits_ones by lia. unfold uintptr_t.
  assert (forall k, 0 <= k < 64 -> Z.testbit (wrap 64 (Z.ones rest)) k = (k <? rest)) as Hm.
  { intros k Hk. rewrite wrap_bits by lia. replace (k <? 64) with true by lia.
    destruct (Z.ltb_spec k rest); [apply Z.ones_spec_low | apply Z.ones_spec_high]; lia. }
  split; intros Hk k Hk'.
  - specialize (Hk k ltac:(lia)). rewrite Z.land_spec, Hm, word_bit in Hk by lia.
    replace (k <? rest) with true in Hk by lia. by rewrite andb_true_r in Hk.
  - rewrite Z.land_spec, Hm, word_bit by lia.
    destruct (Z.ltb_spec k rest); [by rewrite Hk by lia | apply andb_false_r].
Qed.

Lemma range_split (q : Z -> Prop) w n :
  64 <= n ->
  (forall k, 0 <= k < n -> q (64 * w + k)) <->
  (forall k, 0 <= k < 64 -> q (64 * w + k)) /\ (forall k, 0 <= k < n - 64 -> q (64 * (w + 1) + k)).
Proof.
  intros Hn. split.
  - intros H. split; intros k Hk; [apply H; lia |].
    replace (64 * (w + 1) + k) with (64 * w + (64 + k)) by lia. apply H. lia.
  - intros [H1 H2] k Hk. destruct (Z.lt_ge_cases k 64); [apply H1; lia |].
    replace (64 * w + k) with (64 * (w + 1) + (k - 64)) by lia. apply H2. lia.
Qed.

Lemma is_full_loop_spec fuel : forall bm w rest,
  wf bm -> 0 <= rest < 64 * Z.of_nat fuel ->
  exists b, is_full_loop fuel bm w rest = Some b /\
    (b = true <-> forall k, 0 <= k < rest -> bit bm (64 * w + k) = true).
Proof.
  induction fuel as [|fuel IH]; intros bm w rest Hw Hr; [lia |].
  simpl. change BitsPerWord with 64. destruct (Z.leb_spec 64 rest).
  - destruct (map bm w =? uintptr_t AllBits) eqn:E; simpl.
    + rewrite all_bits_eq in E by by apply map_range.
      destruct (IH bm (w + 1) (rest - 64) Hw ltac:(lia)) as (b & -> & Hb).
      exists b. split; [done |]. rewrite Hb, (range_split (fun i => bit bm i = true) w rest) by lia.
      split; [| by intros [_ ?]]. intros Hrest. split; [| done].
      intros k Hk. rewrite <- word_bit by done. by apply E.
    + exists false. split; [done |]. split; [done |]. intros Hall. exfalso.
      rewrite <- not_true_iff_false, all_bits_eq in E by by apply map_range.
      apply E. intros k Hk. rewrite word_bit by done. apply Hall. lia.
  - eexists. split; [done |]. rewrite orb_true_iff. destruct (Z.eqb_spec rest 0).
    + split; [intros; lia | by left].
    + rewrite last_word_full by lia || done. split; [by intros [?|?] | by right].
Qed.

Lemma is_empty_loop_spec fuel : forall bm w rest,
  wf bm -> 0 <= rest < 64 * Z.of_nat fuel ->
  exists b, is_empty_loop fuel bm w rest = Some b /\
    (b = true <-> forall k, 0 <= k < rest -> bit bm (64 * w + k) = false).
Proof.
  induction fuel as [|fuel IH]; intros bm w rest Hw Hr; [lia |].
  simpl. change BitsPerWord with 64. destruct (Z.leb_spec 64 rest).
  - destruct (map bm w =? uintptr_t NoBits) eqn:E; simpl.
    + rewrite no_bits_eq in E by by apply map_range.
      destruct (IH bm (w + 1) (rest - 64) Hw ltac:(lia)) as (b & -> & Hb).
      exists b. split; [done |]. rewrite Hb, (range_split (fun i => bit bm i = false) w rest) by lia.
      split; [| by intros [_ ?]]. intros Hrest. split; [| done].
      intros k Hk. rewrite <- word_bit by done. by apply E.
    + exists false. split; [done |]. split; [done |]. intros Hall. exfalso.
      rewrite <- not_true_iff_false, no_bits_eq in E by by apply map_range.
      apply E. intros k Hk. rewrite word_bit by done. apply Hall. lia.
  - eexists. split; [done |]. rewrite orb_true_iff. destruct (Z.eqb_spec rest 0).
    + split; [intros; lia | by left].
    + rewrite last_word_empty by lia || done. split; [by intros [?|?] | by right].
Qed.

(** [is_full] and [is_empty] return, and decide whether all bits below the
    size are set, respectively clear, whatever is past the size in the last word. *)
Theorem is_full_is_empty_correct bm :
  wf bm ->
  (exists b, is_full bm = Some b /\ (b = true <-> forall i, 0 <= i < size bm -> at_ bm i = true)) /\
  (exists b, is_empty bm = Some b /\ (b = true <-> forall i, 0 <= i < size bm -> at_ bm i = false)).
Proof.
  intros Hw. pose proof (wf_words_bound _ Hw). pose proof (wf_words_count _ Hw).
  pose proof (wf_size _ Hw). setoid_rewrite at_bit. unfold size. split.
  - destruct (is_full_loop_spec (S (words bm)) bm 0 (_size bm) Hw ltac:(lia)) as (b & Hb & Hs).
    exists b. done.
  - destruct (is_empty_loop_spec (S (words bm)) bm 0 (_size bm) Hw ltac:(lia)) as (b & Hb & Hs).
    exists b. done.
Qed.

Lemma is_full_is_empty_correct_witness :
  exists b, is_full (mkBitMap [2 ^ 64 - 1; 3] 66) = Some b /\
    (b = true <-> forall i, 0 <= i < 66 -> at_ (mkBitMap [2 ^ 64 - 1; 3] 66) i = true).
Proof.
  apply (is_full_is_empty_correct (mkBitMap [2 ^ 64 - 1; 3] 66)).
  split; [simpl; lia | reflexivity | repeat constructor; done].
Defined.

(** ** Counting *)

Fixpoint count (f : Z -> bool) (n : nat) : Z :=
  match n with
  | O => 0
  | S n => count f n + Z.b2z (f (Z.of_nat n))
  end.

Lemma count_ext f g n : (forall i, 0 <= i < Z.of_nat n -> f i = g i) -> count f n = count g n.
Proof.
  induction n as [|n IH]; intros He; simpl; [done |].
  rewrite IH, He; [done | lia |]. intros i Hi. apply He. lia.
Qed.

Lemma count_add f n m : count f (n + m) = count f n + count (fun i => f (Z.of_nat n + i)) m.
Proof.
  induction m as [|m IH]; simpl; [by rewrite Nat.add_0_r, Z.add_0_r |].
  rewrite Nat.add_succ_r. simpl. rewrite IH. rewrite Nat2Z.inj_add. lia.
Qed.

Lemma count_bound f n : 0 <= count f n <= Z.of_nat n.
Proof. induction n as [|n IH]; simpl; [lia |]. destruct (f (Z.of_nat n)); simpl; lia. Qed.

Lemma table_entries :
  forallb (fun c => match num_set_bits_from_table init_pop_count_table (Z.of_nat c) with
                    | Some n => n =? count (Z.testbit (Z.of_nat c)) 8
                    | None => false end) (seq 0 256) = true.
Proof. vm_compute. reflexivity. Qed.

Lemma table_ok c :
  0 <= c < 256 ->
  num_set_bits_from_table init_pop_count_table c = Some (count (Z.testbit c) 8).
Proof.
  intros Hc. pose proof table_entries as Ht. rewrite forallb_forall in Ht.
  specialize (Ht (Z.to_nat c)). rewrite in_seq, Z2Nat.id in Ht by lia.
  specialize (Ht ltac:(lia)).
  destruct (num_set_bits_from_table _ _); [| done]. f_equal. lia.
Qed.

Definition count_byte (acc : option (Z * Z)) : option (Z * Z) :=
  '(sum, w) ← acc;
  n ← num_set_bits_from_table init_pop_count_table (u_char (Z.land w 255));
  Some (idx (sum + n), Z.shiftr w 8).

Lemma count_byte_ok sum w0 j :
  0 <= sum -> sum + 64 < 2 ^ 64 -> 0 <= j < 8 ->
  count_byte (Some (sum + count (Z.testbit w0) (Z.to_nat (8 * j)), Z.shiftr w0 (8 * j))) =
    Some (sum + count (Z.testbit w0) (Z.to_nat (8 * (j + 1))), Z.shiftr w0 (8 * (j + 1))).
Proof.
  intros H0 Hs Hj. unfold count_byte. cbn [mbind option_bind].
  change 255 with (Z.ones 8). rewrite Z.land_ones by lia.
  pose proof (Z.mod_pos_bound (Z.shiftr w0 (8 * j)) (2 ^ 8) ltac:(lia)) as Hm.
  unfold u_char. rewrite wrap_small, table_ok by (done || lia). cbn [mbind option_bind].
  pose proof (count_bound (Z.testbit w0) (Z.to_nat (8 * (j + 1)))).
  replace (Z.to_nat (8 * (j + 1))) with (Z.to_nat (8 * j) + 8)%nat in * by lia.
  rewrite count_add in *.
  rewrite (count_ext (Z.testbit (Z.shiftr w0 (8 * j) mod 2 ^ 8))
             (fun i => Z.testbit w0 (Z.of_nat (Z.to_nat (8 * j)) + i))).
  - rewrite idx_small by lia. f_equal. f_equal; [lia |].
    rewrite Z.shiftr_shiftr by lia. f_equal. lia.
  - intros i Hi. rewrite Z.mod_pow2_bits_low, Z.shiftr_spec by lia. f_equal. lia.
Qed.

Lemma count_word_ok sum w :
  0 <= sum -> sum + 64 < 2 ^ 64 ->
  fst <$> for_loop 8 0 (fun _ => count_byte) (Some (sum, w)) =
    Some (sum + count (Z.testbit w) 64).
Proof.
  intros H0 Hs.
  pose proof (for_loop_ind (fun j acc => acc =
    Some (sum + count (Z.testbit w) (Z.to_nat (8 * j)), Z.shiftr w (8 * j))) 8 0
    (fun _ => count_byte) (Some (sum, w))) as Hind.
  change (0 + Z.of_nat 8) with 8 in Hind. change (Z.to_nat (8 * 8)) with 64%nat in Hind.
  rewrite Hind; [reflexivity | |].
  - change (Z.to_nat (8 * 0)) with O. change (8 * 0) with 0. cbn [count].
    by rewrite Z.add_0_r, Z.shiftr_0_r.
  - intros j acc Hj ->. by apply count_byte_ok.
Qed.

(** [count_one_bits], which sums table lookups byte by byte, returns the
    number of set bits of the map. *)
Theorem count_one_bits_correct bm :
  wf bm -> clean bm -> count_one_bits bm = Some (count (at_ bm) (Z.to_nat (size bm))).
Proof.
  intros Hw Hc. pose proof (wf_words_bound _ Hw). pose proof (wf_words_count _ Hw).
  pose proof (wf_size _ Hw). unfold size.
  assert (count_one_bits bm = Some (count (bit bm) (Z.to_nat (64 * size_in_words bm)))) as ->.
  { unfold count_one_bits. rewrite <- H0.
    apply (for_loop_ind (fun k sum => sum = Some (count (bit bm) (Z.to_nat (64 * k)))) (words bm) 0);
      [done |].
    intros k acc Hk ->. cbn [mbind option_bind].
    pose proof (count_bound (bit bm) (Z.to_nat (64 * k))).
    etransitivity; [apply count_word_ok; lia |].
    replace (Z.to_nat (64 * (k + 1))) with (Z.to_nat (64 * k) + 64)%nat by lia.
    rewrite count_add. f_equal. f_equal. apply count_ext. intros i Hi.
    rewrite word_bit by lia. f_equal. lia. }
  f_equal. replace (Z.to_nat (64 * size_in_words bm))
    with (Z.to_nat (_size bm) + Z.to_nat (64 * size_in_words bm - _size bm))%nat by lia.
  rewrite count_add. rewrite (count_ext (at_ bm) (bit bm)) by (intros; apply at_bit).
  rewrite (count_ext (fun i => bit bm (Z.of_nat (Z.to_nat (_size bm)) + i)) (fun _ => false)).
  - assert (forall n, count (fun _ => false) n = 0) as ->; [| lia].
    induction n as [|n IH]; simpl; [done | by rewrite IH].
  - intros i Hi. apply Hc. unfold size. lia.
Qed.

Lemma count_one_bits_correct_witness :
  count_one_bits (mkBitMap [0xf0f1] 16) = Some (count (at_ (mkBitMap [0xf0f1] 16)) 16).
Proof.
  apply (count_one_bits_correct (mkBitMap [0xf0f1] 16)).
  - split; [simpl; lia | reflexivity | repeat constructor; done].
  - by apply clean_1.
Defined.

(** ** Iteration *)

(** The set bits of [[a, b)] in increasing order. *)
Definition set_bits (bm : BitMap) (a b : Z) : list Z := List.filter (bit bm) (seqZ a (b - a)).

Lemma set_bits_nil bm a : set_bits bm a a = [].
Proof. unfold set_bits. by rewrite Z.sub_diag. Qed.

Lemma set_bits_cons bm a b :
  a < b -> set_bits bm a b = if bit bm a then a :: set_bits bm (a + 1) b else set_bits bm (a + 1) b.
Proof.
  intros Hab. unfold set_bits. rewrite seqZ_cons by lia. simpl.
  replace (Z.pred (b - a)) with (b - (a + 1)) by lia.
  replace (Z.succ a) with (a + 1) by lia. done.
Qed.

Lemma set_bits_app bm a b c :
  a <= b <= c -> set_bits bm a c = set_bits bm a b ++ set_bits bm b c.
Proof.
  intros Habc. unfold set_bits. replace (c - a) with ((b - a) + (c - b)) by lia.
  rewrite seqZ_app, List.filter_app by lia.
  by replace (a + (b - a)) with b by lia.
Qed.

Lemma set_bits_empty_n bm n : forall a,
  (forall i, a <= i < a + Z.of_nat n -> bit bm i = false) -> set_bits bm a (a + Z.of_nat n) = [].
Proof.
  induction n as [|n IH]; intros a Hz.
  - rewrite Z.add_0_r. apply set_bits_nil.
  - rewrite set_bits_cons, Hz by lia.
    replace (a + Z.of_nat (S n)) with (a + 1 + Z.of_nat n) by lia. apply IH.
    intros i Hi. apply Hz. lia.
Qed.

Lemma set_bits_empty bm a b :
  a <= b -> (forall i, a <= i < b -> bit bm i = false) -> set_bits bm a b = [].
Proof.
  intros Hab Hz. replace b with (a + Z.of_nat (Z.to_nat (b - a))) by lia.
  apply set_bits_empty_n. intros i Hi. apply Hz. lia.
Qed.

(** Elements of [set_bits] are exactly the set bits. *)
Lemma elem_of_set_bits bm a b i : In i (set_bits bm a b) <-> a <= i < b /\ bit bm i = true.
Proof.
  unfold set_bits. rewrite filter_In, <- list_elem_of_In, elem_of_seqZ. split; intros [? ?]; (split; [lia | done]).
Qed.

Section Visit.
Context {St : Type} (f : St -> Z -> bool * St).

(** A closure that only looks at the map. *)
Definition read_only (st : St) (bm : BitMap) (offset : Z) : bool * St * BitMap :=
  let '(go_on, st) := f st offset in (go_on, st, bm).

(** Apply [f] to the offsets in order until it says to stop. *)
Fixpoint visit (st : St) (offsets : list Z) : bool * St :=
  match offsets with
  | [] => (true, st)
  | o :: offsets => let '(go_on, st) := f st o in
                    if go_on then visit st offsets else (false, st)
  end.

Lemma visit_app st l1 l2 :
  visit st (l1 ++ l2) = let '(go_on, st) := visit st l1 in
                        if go_on then visit st l2 else (false, st).
Proof.
  revert st. induction l1 as [|o l1 IH]; intros st; simpl; [done |].
  destruct (f st o) as [[] st']; [apply IH | done].
Qed.

Lemma iterate_word_S fuel st bm index offset rest r :
  iterate_word read_only (S fuel) st bm index offset rest r =
    if (offset <? r) && negb (rest =? NoBits) then
      if Z.odd rest then
        let '(go_on, st) := f st offset in
        if negb go_on then Some (false, st, bm)
        else iterate_word read_only fuel st bm index (offset + 1)
               (Z.shiftr (Z.shiftr (map bm index) (Z.land offset (BitsPerWord - 1))) 1) r
      else iterate_word read_only fuel st bm index (offset + 1) (Z.shiftr rest 1) r
    else Some (true, st, bm).
Proof.
  unfold read_only. change (iterate_word ?g (S fuel) st bm index offset rest r) with
    (if (offset <? r) && negb (rest =? NoBits) then
       if Z.odd rest then
         let '(go_on, st, bm) := g st bm offset in
         if negb go_on then Some (false, st, bm)
         else iterate_word g fuel st bm index (offset + 1)
                (Z.shiftr (Z.shiftr (map bm index) (Z.land offset (BitsPerWord - 1))) 1) r
       else iterate_word g fuel st bm index (offset + 1) (Z.shiftr rest 1) r
     else Some (true, st, bm)).
  destruct (_ && _); [| done]. destruct (Z.odd rest); [| done]. by destruct (f st offset).
Qed.

Lemma iterate_word_ok fuel : forall st bm w offset r,
  wf bm -> 0 <= w -> 64 * w <= offset <= 64 * (w + 1) -> 64 * (w + 1) - offset < Z.of_nat fuel ->
  iterate_word read_only fuel st bm w offset (Z.shiftr (map bm w) (offset - 64 * w)) r =
    let '(go_on, st) := visit st (set_bits bm offset (Z.max offset (Z.min r (64 * (w + 1))))) in
    Some (go_on, st, bm).
Proof.
  induction fuel as [|fuel IH]; intros st bm w offset r Hw Hw0 Ho Hf; [lia |].
  rewrite iterate_word_S. change NoBits with 0. change (BitsPerWord - 1) with 63.
  set (rest := Z.shiftr (map bm w) (offset - 64 * w)).
  assert (forall k, 0 <= k -> Z.testbit rest k =
            if offset + k <? 64 * (w + 1) then bit bm (offset + k) else false) as Hrest.
  { intros k Hk. unfold rest. rewrite Z.shiftr_spec by lia.
    destruct (Z.ltb_spec (offset + k) (64 * (w + 1))).
    - rewrite word_bit by lia. f_equal. lia.
    - apply (testbit_high 64); [by apply map_range | lia]. }
  destruct (Z.ltb_spec offset r) as [Hlt|Hge]; cbn [andb].
  2: { replace (Z.max offset _) with offset by lia. by rewrite set_bits_nil. }
  destruct (Z.eqb_spec rest 0) as [Hz|Hnz]; cbn [negb].
  { rewrite set_bits_empty; [done | lia |]. intros i Hi. specialize (Hrest (i - offset) ltac:(lia)).
    rewrite Hz, Z.testbit_0_l in Hrest. replace (offset + (i - offset)) with i in Hrest by lia.
    by replace (i <? 64 * (w + 1)) with true in Hrest by lia. }
  assert (offset < 64 * (w + 1)) as Ho'.
  { destruct (Z.lt_ge_cases offset (64 * (w + 1))); [done |]. exfalso. apply Hnz.
    apply Z.bits_inj'. intros k Hk. rewrite Hrest, Z.testbit_0_l by done.
    by replace (offset + k <? 64 * (w + 1)) with false by lia. }
  assert (Z.odd rest = bit bm offset) as Hodd.
  { rewrite <- Z.bit0_odd, Hrest, Z.add_0_r by lia.
    by replace (offset <? 64 * (w + 1)) with true by lia. }
  assert (Z.shiftr rest 1 = Z.shiftr (map bm w) (offset + 1 - 64 * w)) as Hshift.
  { unfold rest. rewrite Z.shiftr_shiftr by lia. f_equal. lia. }
  rewrite set_bits_cons by lia. rewrite Hodd.
  replace (Z.max offset (Z.min r (64 * (w + 1))))
    with (Z.max (offset + 1) (Z.min r (64 * (w + 1)))) by lia.
  assert (Z.land offset 63 = offset - 64 * w) as ->.
  { change 63 with (Z.ones 6). rewrite Z.land_ones by lia. symmetry.
    apply (Z.mod_unique _ _ w); lia. }
  fold rest. rewrite Hshift. destruct (bit bm offset).
  - cbn [visit]. destruct (f st offset) as [[] st']; cbn [negb]; [| done].
    apply IH; lia || done.
  - apply IH; lia || done.
Qed.

Lemma iterate_words_ok fuel : forall st bm w offset e r,
  wf bm -> 0 <= w <= size_in_words bm -> 64 * w <= offset < 64 * (w + 1) -> r <= _size bm ->
  e = Z.min (r / 64 + 1) (size_in_words bm) ->
  size_in_words bm - w < Z.of_nat fuel ->
  iterate_words read_only fuel st bm w offset e r =
    let '(go_on, st) := visit st (set_bits bm offset (Z.max offset r)) in
    Some (go_on, st, bm).
Proof.
  induction fuel as [|fuel IH]; intros st bm w offset e r Hw Hw0 Ho Hr He Hf; [lia |].
  pose proof (wf_words_bound _ Hw) as [Hb1 Hb2].
  cbn [iterate_words]. change (BitsPerWord - 1) with 63.
  destruct (Z.ltb_spec offset r) as [Hlt|Hge]; cbn [andb].
  2: { replace (Z.max offset r) with offset by lia. by rewrite set_bits_nil. }
  pose proof (Z.div_mod r 64 ltac:(lia)). pose proof (mod64_bound r).
  replace (w <? e) with true by lia.
  assert (Z.land offset 63 = offset - 64 * w) as ->.
  { change 63 with (Z.ones 6). rewrite Z.land_ones by lia. symmetry.
    apply (Z.mod_unique _ _ w); lia. }
  rewrite (iterate_word_ok 65) by lia || done.
  rewrite (set_bits_app bm offset (Z.max offset (Z.min r (64 * (w + 1)))) (Z.max offset r)) by lia.
  rewrite visit_app. destruct (visit st _) as [[] st']; cbn [mbind option_bind negb]; [| done].
  fold (bit_index (w + 1)). rewrite bit_index_mul by lia.
  destruct (Z.lt_ge_cases (64 * (w + 1)) r) as [Hmore|Hdone].
  - rewrite (IH st' bm (w + 1)) by lia || done.
    by replace (Z.max offset (Z.min r (64 * (w + 1)))) with (64 * (w + 1)) by lia;
      replace (Z.max (64 * (w + 1)) r) with (Z.max offset r) by lia.
  - replace (Z.max offset (Z.min r (64 * (w + 1)))) with (Z.max offset r) by lia.
    rewrite set_bits_nil. cbn [visit].
    destruct fuel as [|fuel]; [lia |]. cbn [iterate_words].
    by replace (64 * (w + 1) <? r) with false by lia.
Qed.
End Visit.

(** [iterate] applies a closure that does not modify the map to exactly the
    set bits of [[l, r)], in increasing order, and stops early exactly when the
    closure asks to. *)
Theorem iterate_correct {St} (f : St -> Z -> bool * St) st bm l r :
  wf bm -> 0 <= l <= r -> r <= size bm ->
  iterate (read_only f) st bm l r =
    let '(go_on, st) := visit f st (set_bits bm l r) in Some (go_on, st, bm).
Proof.
  intros Hw Hl Hr. unfold size in Hr. unfold iterate. rewrite !word_index_div, MIN2_min.
  pose proof (wf_words_bound _ Hw). pose proof (wf_words_count _ Hw).
  pose proof (Z.div_mod l 64 ltac:(lia)). pose proof (mod64_bound l).
  rewrite iterate_words_ok by lia || done. by rewrite Z.max_r by lia.
Qed.

Lemma iterate_correct_witness :
  iterate (read_only (fun st o => (true, st ++ [o]))) [] (mkBitMap [5; 1] 70) 1 70 =
    let '(go_on, st) := visit (fun st o => (true, st ++ [o])) [] (set_bits (mkBitMap [5; 1] 70) 1 70)
    in Some (go_on, st, mkBitMap [5; 1] 70).
Proof.
  apply (iterate_correct (fun st o => (true, st ++ [o])) [] (mkBitMap [5; 1] 70) 1 70);
    [split; [simpl; lia | reflexivity | repeat constructor; done] | lia | simpl; lia].
Defined.

End BitMapScan.
