(* ===== verification/BitMapPar.v ===== *)
(** The compare-and-exchange operations of [utilities/bitMap.inline.hpp] and
    [utilities/bitMap.cpp] under interleaving, and the growing of a map. *)
From S2P Require Import Prelude GlobalDefinitions BitMap BitMapOps.
Import GlobalDefinitions BitMap BitMapOps.

Module BitMapPar.

(** * [par_set_bit] and [par_clear_bit] as interleaved threads *)

(** Where a call of [par_at_put] stands: before the first read, with an [old_val]
    in hand, or returned. *)
Inductive pc : Set :=
| Start
| Retry (old_val : Z)
| Return (changed : bool).

Record thread : Set := mkThread { t_bit : Z; t_value : bool; t_pc : pc }.

Definition par_new_val (bit : Z) (value : bool) (old_val : Z) : Z :=
  if value then Z.lor old_val (bit_mask bit) else Z.land old_val (not_word (bit_mask bit)).

(** [Atomic::cmpxchg_ptr(exchange_value, dest, compare_value)] on a word. *)
Definition cmpxchg (bm : BitMap) (word exchange_value compare_value : Z) : Z * BitMap :=
  let cur := map bm word in
  (cur, if cur =? compare_value then set_word bm word exchange_value else bm).

(** One atomic action of a thread: the first read, or one round of the loop, whose
    only access to memory is the [cmpxchg]. *)
Definition par_at_put_step (bm : BitMap) (t : thread) : option (BitMap * thread) :=
  let addr := word_index (t_bit t) in
  let goto pc := mkThread (t_bit t) (t_value t) pc in
  match t_pc t with
  | Start => Some (bm, goto (Retry (map bm addr)))
  | Retry old_val =>
      let new_val := par_new_val (t_bit t) (t_value t) old_val in
      if new_val =? old_val then Some (bm, goto (Return false))
      else
        let '(cur_val, bm) := cmpxchg bm addr new_val old_val in
        if cur_val =? old_val then Some (bm, goto (Return true))
        else Some (bm, goto (Retry cur_val))
  | Return _ => None
  end.

Definition system : Set := BitMap * list thread.

Inductive step : system -> system -> Prop :=
| step_thread bm ts i t bm' t' :
    ts !! i = Some t -> par_at_put_step bm t = Some (bm', t') ->
    step (bm, ts) (bm', <[i := t']> ts).

(** * [par_put_range_within_word] with interference

    [intf] is what other threads do to the word before each [cmpxchg]; after those
    rounds the word is left alone, so one more round is enough. *)
Definition put_mask (mr : Z) (value : bool) (w : Z) : Z :=
  if value then Z.lor w (not_word mr) else Z.land w mr.

Fixpoint par_put_loop (fuel : nat) (intf : list (Z -> Z)) (bm : BitMap) (pw mr : Z) (value : bool)
    (w nw : Z) : option BitMap :=
  match fuel with
  | O => None
  | S fuel =>
      let bm := match intf with f :: _ => set_word bm pw (f (map bm pw)) | [] => bm end in
      let '(res, bm) := cmpxchg bm pw nw w in
      if res =? w then Some bm
      else par_put_loop fuel (tail intf) bm pw mr value res (put_mask mr value res)
  end.

Definition par_put_range_within_word (intf : list (Z -> Z)) (bm : BitMap) (beg end_ : Z) (value : bool) :
    option BitMap :=
  if negb (beg =? end_) then
    let pw := word_index beg in
    let w := map bm pw in
    let mr := inverted_bit_mask_for_range beg end_ in
    par_put_loop (S (length intf)) intf bm pw mr value w (put_mask mr value w)
  else Some bm.

Definition par_at_put_range (intf1 intf2 : list (Z -> Z)) (bm : BitMap) (beg end_ : Z) (value : bool) :
    option BitMap :=
  let beg_full_word := word_index_round_up bm beg in
  let end_full_word := word_index end_ in
  if beg_full_word <? end_full_word then
    bm ← par_put_range_within_word intf1 bm beg (bit_index beg_full_word) value;
    let bm := if value then set_range_of_words bm beg_full_word end_full_word
              else clear_range_of_words bm beg_full_word end_full_word in
    par_put_range_within_word intf2 bm (bit_index end_full_word) end_ value
  else
    let boundary := MIN2 (bit_index beg_full_word) end_ in
    bm ← par_put_range_within_word intf1 bm beg boundary value;
    par_put_range_within_word intf2 bm boundary end_ value.

Definition par_at_put_large_range (intf1 intf2 : list (Z -> Z)) (bm : BitMap) (beg end_ : Z)
    (value : bool) : option BitMap :=
  let beg_full_word := word_index_round_up bm beg in
  let end_full_word := word_index end_ in
  bm ← par_put_range_within_word intf1 bm beg (bit_index beg_full_word) value;
  let bm := if value then set_large_range_of_words bm beg_full_word end_full_word
            else clear_large_range_of_words bm beg_full_word end_full_word in
  par_put_range_within_word intf2 bm (bit_index end_full_word) end_ value.

(** * Correctness of the single-bit operations *)

Lemma par_new_val_at_put bm b v :
  set_word bm (word_index b) (par_new_val b v (map bm (word_index b))) = at_put bm b v.
Proof. by destruct v. Qed.

(** The bit of a word the operation of [t] tests. *)
Lemma par_new_val_same b v w :
  in_unsigned 64 w -> par_new_val b v w = w <-> Z.testbit w (b mod 64) = v.
Proof.
  intros Hw. pose proof (mod64_bound b). unfold par_new_val. rewrite bit_mask_pow. split.
  - intros <-. destruct v.
    + rewrite Z.lor_spec, Z.pow2_bits_true by lia. apply orb_true_r.
    + rewrite Z.land_spec, not_word_bits, Z.pow2_bits_true by lia. apply andb_false_r.
  - intros Ht. apply Z.bits_inj'. intros k Hk. destruct (decide (k = b mod 64)) as [->|Hne].
    + destruct v; rewrite ?Z.lor_spec, ?Z.land_spec, Ht; done.
    + destruct v.
      * by rewrite Z.lor_spec, Z.pow2_bits_false, orb_false_r by lia.
      * rewrite Z.land_spec. destruct (Z.lt_ge_cases k 64).
        -- by rewrite not_word_bits, Z.pow2_bits_false, andb_true_r by lia.
        -- by rewrite (testbit_high 64 w) by done.
Qed.

Definition won (b : Z) (t : thread) : Z :=
  match t_pc t with Return true => if t_bit t =? b then 1 else 0 | _ => 0 end.

(** The number of calls for bit [b] that have returned [true]. *)
Definition winners (b : Z) (ts : list thread) : Z := foldr (fun t n => won b t + n) 0 ts.

Lemma winners_insert b ts i t t' :
  ts !! i = Some t -> winners b (<[i := t']> ts) = winners b ts - won b t + won b t'.
Proof.
  revert i. induction ts as [|t0 ts IH]; intros [|i] Hi; simplify_eq/=; [lia |].
  rewrite (IH i Hi). lia.
Qed.

(** Calls on bits of the map, with no call that clears [b]. *)
Definition only_setters (bm : BitMap) (b : Z) (ts : list thread) : Prop :=
  Forall (fun t => 0 <= t_bit t < size bm /\ (t_bit t = b -> t_value t = true)) ts.

(** What a call for bit [b] has learnt of the map [bm]. *)
Definition seen (b : Z) (bm : BitMap) (t : thread) : Prop :=
  t_bit t = b ->
  match t_pc t with
  | Start => True
  | Retry old_val => in_unsigned 64 old_val /\
                     (Z.testbit old_val (b mod 64) = true -> bit bm b = true)
  | Return _ => bit bm b = true
  end.

Record set_bit_inv (bm0 : BitMap) (b : Z) (s : system) : Prop := {
  inv_wf : wf s.1;
  inv_size : size s.1 = size bm0;
  inv_threads : only_setters bm0 b s.2;
  inv_seen : Forall (seen b s.1) s.2;
  inv_winners : winners b s.2 = Z.b2z (bit s.1 b) - Z.b2z (bit bm0 b)
}.

(** A step either leaves the map alone or puts the thread's bit. *)
Inductive action (bm : BitMap) (t : thread) : BitMap -> thread -> Prop :=
| act_read :
    won (t_bit t) t = 0 ->
    action bm t bm (mkThread (t_bit t) (t_value t) (Retry (map bm (word_index (t_bit t)))))
| act_beaten old_val :
    t_pc t = Retry old_val -> par_new_val (t_bit t) (t_value t) old_val = old_val ->
    action bm t bm (mkThread (t_bit t) (t_value t) (Return false))
| act_put :
    t_pc t = Retry (map bm (word_index (t_bit t))) ->
    par_new_val (t_bit t) (t_value t) (map bm (word_index (t_bit t)))
      <> map bm (word_index (t_bit t)) ->
    action bm t (at_put bm (t_bit t) (t_value t)) (mkThread (t_bit t) (t_value t) (Return true)).

Lemma par_at_put_step_action bm t bm' t' :
  par_at_put_step bm t = Some (bm', t') -> action bm t bm' t'.
Proof.
  unfold par_at_put_step, cmpxchg. destruct (t_pc t) as [|old_val|] eqn:Hpc; [| | done].
  - intros [= <- <-]. constructor. unfold won. by rewrite Hpc.
  - destruct (Z.eqb_spec (par_new_val (t_bit t) (t_value t) old_val) old_val) as [He|Hne].
    + intros [= <- <-]. by econstructor.
    + destruct (Z.eqb_spec (map bm (word_index (t_bit t))) old_val) as [<-|Hc];
        intros [= <- <-].
      * rewrite par_new_val_at_put. by constructor.
      * constructor. unfold won. by rewrite Hpc.
Qed.

Lemma won_other b t : won (t_bit t) t = 0 -> won b t = 0.
Proof.
  unfold won. destruct (t_pc t) as [| |[]]; try done.
  rewrite Z.eqb_refl. done.
Qed.

Lemma retry_not_won b t old_val : t_pc t = Retry old_val -> won b t = 0.
Proof. unfold won. by intros ->. Qed.

Lemma word_testbit bm b : Z.testbit (map bm (word_index b)) (b mod 64) = bit bm b.
Proof. unfold bit. by rewrite word_index_div. Qed.

(** A map update that does not clear bit [b] keeps what the other threads know. *)
Lemma seen_mono b ts bm bm' :
  (bit bm b = true -> bit bm' b = true) -> Forall (seen b bm) ts -> Forall (seen b bm') ts.
Proof.
  intros Hm Hs. eapply Forall_impl; [exact Hs |]. intros t Ht Hb. specialize (Ht Hb).
  destruct (t_pc t); [done | | by apply Hm]. destruct Ht as [? Ht]. split; [done |].
  intros Hold. by apply Hm, Ht.
Qed.

Lemma set_bit_inv_step bm0 b s s' :
  wf bm0 -> 0 <= b < size bm0 -> step s s' -> set_bit_inv bm0 b s -> set_bit_inv bm0 b s'.
Proof.
  intros Hw0 Hb0 [bm ts i t bm' t' Hi Ha%par_at_put_step_action] [Hw Hs Ht Hseen Hwin].
  simpl in *. pose proof (Forall_lookup_1 _ _ _ _ Ht Hi) as [Htr Htv].
  pose proof (Forall_lookup_1 _ _ _ _ Hseen Hi) as Hti. unfold seen in Hti.
  assert (puts bm (at_put bm (t_bit t) (t_value t)) (t_bit t) (t_bit t + 1) (t_value t)) as Hp.
  { apply at_put_puts; [done |]. unfold size in *. lia. }
  destruct Ha as [Hnw|old_val Hpc Hsame|Hpc Hdiff]; split; simpl; try done.
  - apply Forall_insert; [done | simpl; auto].
  - apply Forall_insert; [done |]. unfold seen; simpl. intros Heq. split; [by apply map_range |].
    rewrite Heq, word_testbit. done.
  - rewrite (winners_insert _ _ _ _ _ Hi), Hwin, won_other by done. unfold won. simpl. lia.
  - apply Forall_insert; [done | simpl; auto].
  - apply Forall_insert; [done |]. unfold seen; simpl. intros Heq. specialize (Hti Heq). rewrite Hpc in Hti.
    destruct Hti as [Hr Hbit]. apply Hbit. rewrite Heq in *.
    rewrite (Htv eq_refl) in Hsame. by apply par_new_val_same in Hsame.
  - rewrite (winners_insert _ _ _ _ _ Hi), Hwin, (retry_not_won _ _ _ Hpc).
    unfold won. simpl. lia.
  - by eapply puts_wf.
  - unfold size in *. rewrite <- Hs. by eapply puts_size.
  - apply Forall_insert; [done | simpl; auto].
  - apply Forall_insert.
    + revert Hseen. apply seen_mono. intros Hb. rewrite (puts_bit _ _ _ _ _ Hp) by lia.
      destruct (_ && _) eqn:E; [| done]. apply Htv. lia.
    + unfold seen; simpl. intros Heq. rewrite (puts_bit _ _ _ _ _ Hp) by lia.
      replace (_ && _) with true by lia. by apply Htv.
  - rewrite (winners_insert _ _ _ _ _ Hi), Hwin, (retry_not_won _ _ _ Hpc).
    rewrite (puts_bit _ _ _ _ _ Hp) by lia. unfold won. simpl.
    destruct (Z.eqb_spec (t_bit t) b) as [Heq|Hne].
    + replace ((t_bit t <=? b) && _) with true by lia. rewrite (Htv Heq) in *.
      rewrite par_new_val_same, word_testbit in Hdiff by by apply map_range.
      rewrite <- Heq. destruct (bit bm (t_bit t)); [done |]. simpl. lia.
    + replace ((t_bit t <=? b) && _) with false by lia. lia.
Qed.

Definition fresh_calls (bm : BitMap) (b : Z) (ts : list thread) : Prop :=
  only_setters bm b ts /\ Forall (fun t => t_pc t = Start) ts.

Lemma set_bit_inv_init bm b ts :
  wf bm -> fresh_calls bm b ts -> set_bit_inv bm b (bm, ts).
Proof.
  intros Hw [Ht Hs]. split; simpl; try done.
  - eapply Forall_impl; [exact Hs |]. intros t Hpc _. simpl in Hpc. by rewrite Hpc.
  - rewrite Z.sub_diag. induction Hs as [|t ts Hpc Hs IH]; [done |]. simpl.
    unfold won. rewrite Hpc, IH; [done |]. by apply Forall_cons in Ht as [_ ?].
Qed.

(** C26.  Concurrent [par_set_bit] calls on one bit that no call clears, interleaved
    in any way with calls on other bits of the map: at every moment the number of
    calls that returned [true] is 1 if the bit went from clear to set and 0
    otherwise, and once a call has returned, with either result, the bit is set. *)
Theorem par_set_bit_one_winner bm b ts bm' ts' :
  wf bm -> 0 <= b < size bm -> fresh_calls bm b ts -> rtc step (bm, ts) (bm', ts') ->
  winners b ts' = Z.b2z (at_ bm' b) - Z.b2z (at_ bm b) /\
  forall t c, t ∈ ts' -> t_bit t = b -> t_pc t = Return c -> at_ bm' b = true.
Proof.
  intros Hw Hb Hts Hrun.
  assert (set_bit_inv bm b (bm', ts')) as [_ _ _ Hseen Hwin].
  { remember (bm', ts') as s' eqn:Es. clear Es.
    pose proof (set_bit_inv_init bm b ts Hw Hts) as Hinit.
    induction Hrun as [|s1 s2 s3 Hs _ IH]; [done |].
    apply IH. by eapply set_bit_inv_step. }
  rewrite !at_bit. split; [done |]. intros t c Hin Hbt Hpc.
  rewrite Forall_forall in Hseen. specialize (Hseen t Hin Hbt). by rewrite Hpc in Hseen.
Qed.

Lemma par_set_bit_one_winner_witness :
  winners 1 [mkThread 1 true (Return true); mkThread 1 true (Return false)] =
    Z.b2z (at_ (mkBitMap [2] 64) 1) - Z.b2z (at_ (mkBitMap [0] 64) 1).
Proof.
  refine (proj1 (par_set_bit_one_winner (mkBitMap [0] 64) 1
    [mkThread 1 true Start; mkThread 1 true Start] (mkBitMap [2] 64)
    [mkThread 1 true (Return true); mkThread 1 true (Return false)] _ _ _ _)).
  - split; [simpl; lia | reflexivity | repeat constructor; done].
  - simpl. lia.
  - split; repeat constructor; simpl; lia.
  - eapply rtc_l; [eapply (step_thread _ _ 0); reflexivity |].
    eapply rtc_l; [eapply (step_thread _ _ 1); reflexivity |].
    eapply rtc_l; [eapply (step_thread _ _ 0); reflexivity |].
    eapply rtc_l; [eapply (step_thread _ _ 1); reflexivity |].
    eapply rtc_l; [eapply (step_thread _ _ 1); reflexivity |].
    apply rtc_refl.
Defined.

(** * Correctness of the range operations *)

Definition put_range_within_word (bm : BitMap) (beg end_ : Z) (value : bool) : BitMap :=
  if value then set_range_within_word bm beg end_ else clear_range_within_word bm beg end_.

(** Other threads write to a word of the map. *)
Definition interfere (pw : Z) (intf : list (Z -> Z)) (bm : BitMap) : BitMap :=
  foldl (fun bm f => set_word bm pw (f (map bm pw))) bm intf.

Lemma put_range_within_word_mask bm beg end_ value :
  beg <> end_ ->
  put_range_within_word bm beg end_ value =
    set_word bm (word_index beg)
      (put_mask (inverted_bit_mask_for_range beg end_) value (map bm (word_index beg))).
Proof.
  intros Hne. unfold put_range_within_word, set_range_within_word, clear_range_within_word.
  rewrite (proj2 (Z.eqb_neq _ _)) by done. by destruct value.
Qed.

Lemma par_put_loop_ok intf : forall bm pw mr value,
  exists k, (k <= length intf)%nat /\
    par_put_loop (S (length intf)) intf bm pw mr value (map bm pw)
      (put_mask mr value (map bm pw)) =
    let bm1 := interfere pw (take k intf) bm in
    Some (set_word bm1 pw (put_mask mr value (map bm1 pw))).
Proof.
  induction intf as [|f intf IH]; intros bm pw mr value.
  - exists O. simpl. by rewrite Z.eqb_refl.
  - set (bm1 := set_word bm pw (f (map bm pw))).
    change (par_put_loop (S (length (f :: intf))) (f :: intf) bm pw mr value (map bm pw)
              (put_mask mr value (map bm pw))) with
      (if map bm1 pw =? map bm pw
       then Some (if map bm1 pw =? map bm pw
                  then set_word bm1 pw (put_mask mr value (map bm pw)) else bm1)
       else par_put_loop (S (length intf)) intf
              (if map bm1 pw =? map bm pw
               then set_word bm1 pw (put_mask mr value (map bm pw)) else bm1)
              pw mr value (map bm1 pw) (put_mask mr value (map bm1 pw))).
    destruct (Z.eqb_spec (map bm1 pw) (map bm pw)) as [Heq|Hne].
    + exists 1%nat. split; [simpl; lia |]. simpl. fold bm1. by rewrite Heq.
    + destruct (IH bm1 pw mr value) as (k & Hk & Hs). exists (S k).
      split; [simpl; lia |]. rewrite Hs. done.
Qed.


Lemma par_put_alone bm beg end_ value :
  par_put_range_within_word [] bm beg end_ value = Some (put_range_within_word bm beg end_ value).
Proof.
  unfold par_put_range_within_word. destruct (Z.eqb_spec beg end_) as [->|Hne]; cbn [negb].
  - unfold put_range_within_word. rewrite set_range_within_word_nop, clear_range_within_word_nop.
    by destruct value.
  - rewrite put_range_within_word_mask by done. simpl. by rewrite Z.eqb_refl.
Qed.

(** Without interference the [par] range operations are the sequential ones. *)
Theorem par_at_put_range_sequential bm beg end_ value :
  par_at_put_range [] [] bm beg end_ value = Some (at_put_range bm beg end_ value) /\
  par_at_put_large_range [] [] bm beg end_ value = Some (at_put_large_range bm beg end_ value).
Proof.
  unfold par_at_put_range, par_at_put_large_range, at_put_range, at_put_large_range.
  split; [destruct (_ <? _) eqn:E |]; rewrite par_put_alone; cbn [mbind option_bind];
    rewrite par_put_alone; unfold set_range, clear_range, set_large_range, clear_large_range;
    rewrite ?E; by destruct value.
Qed.

(** * Growing *)

(** What the array allocators promise: an array of the length asked for. *)
Definition allocator (fresh : nat -> list Z) : Prop :=
  forall n, length (fresh n) = n /\ Forall (in_unsigned 64) (fresh n).

Lemma map_app_l l l' s w :
  0 <= w < Z.of_nat (length l) -> map (mkBitMap (l ++ l') s) w = map (mkBitMap l s) w.
Proof. intros Hw. unfold map. simpl. apply app_nth1. lia. Qed.

Lemma map_take bm n s w :
  0 <= w < Z.of_nat n -> map (mkBitMap (take n (_map bm)) s) w = map bm w.
Proof.
  intros Hw. unfold map. simpl. rewrite !nth_lookup, lookup_take.
  by rewrite decide_True by lia.
Qed.

(** The copied part of a resized map. *)
Lemma resize_copy fresh bm n :
  allocator fresh -> wf bm -> 0 <= n <= 2 ^ 64 - 64 ->
  let w := Z.to_nat (Z.min (size_in_words bm) ((n + 63) / 64)) in
  let bm' := mkBitMap (take w (_map bm) ++ drop w (fresh (Z.to_nat ((n + 63) / 64)))) n in
  wf bm' /\ forall i, 0 <= i < 64 * Z.min (size_in_words bm) ((n + 63) / 64) -> bit bm' i = bit bm i.
Proof.
  intros Hfr Hw Hn w bm'. pose proof (wf_words_bound _ Hw).
  destruct (Hfr (Z.to_nat ((n + 63) / 64))) as [Hfl Hff].
  pose proof (Z.div_pos (n + 63) 64 ltac:(lia) ltac:(lia)). pose proof (wf_length _ Hw) as Hl.
  assert (length (take w (_map bm)) = w) as Htw by (rewrite length_take; lia).
  split.
  - split; [done | |].
    + rewrite size_in_words_spec by done. simpl. rewrite length_app, length_drop, Htw, Hfl. lia.
    + simpl. apply Forall_app. split; [apply Forall_take, Hw | by apply Forall_drop].
  - intros i Hi. pose proof (Z.div_mod i 64 ltac:(lia)). pose proof (mod64_bound i).
    unfold bit, bm'. by rewrite map_app_l, map_take by (rewrite ?Htw; lia).
Qed.

(** [resize] of a map without stray bits keeps the bits below both sizes and
    makes every newly addressable bit 0. *)
Theorem resize_correct fresh bm n :
  allocator fresh -> wf bm -> clean bm -> 0 <= n <= 2 ^ 64 - 64 ->
  wf (resize fresh bm n) /\ size (resize fresh bm n) = n /\
  forall i, 0 <= i < n -> at_ (resize fresh bm n) i = (i <? size bm) && at_ bm i.
Proof.
  intros Hfr Hw Hc Hn. pose proof (wf_words_bound _ Hw).
  pose proof (resize_copy fresh bm n Hfr Hw Hn) as Hcopy. simpl in Hcopy.
  unfold resize. cbn [_size _map]. rewrite !(size_in_words_spec (mkBitMap _ n)) by done.
  cbn [_size]. rewrite MIN2_min. set (w := Z.to_nat _) in *. set (bm' := mkBitMap (_ ++ _) n) in *.
  destruct Hcopy as [Hw' Hb']. pose proof (Z.div_mod (n + 63) 64 ltac:(lia)).
  pose proof (mod64_bound (n + 63)).
  assert (forall i, 0 <= i -> bit bm i = (i <? size bm) && bit bm i) as Hclean.
  { intros i Hi. destruct (Z.ltb_spec i (size bm)); [done |]. by apply Hc. }
  setoid_rewrite at_bit.
  destruct (Z.ltb_spec (size_in_words bm) ((n + 63) / 64)) as [Hgrow|Hkeep].
  - destruct (clear_range_of_words_puts bm' (size_in_words bm) ((n + 63) / 64)) as [Hw2 Hs2 Hb2];
      [done | lia | rewrite (size_in_words_spec bm') by done; simpl; lia |].
    split; [done |]. split; [done |]. intros i Hi. rewrite Hb2, <- Hclean by lia.
    destruct (Z.leb_spec (64 * size_in_words bm) i).
    + replace (i <? 64 * ((n + 63) / 64)) with true by lia. simpl. symmetry.
      apply Hc. unfold size. lia.
    + simpl. apply Hb'. lia.
  - split; [done |]. split; [done |]. intros i Hi. rewrite <- Hclean by lia. apply Hb'. lia.
Qed.

Lemma zero_allocator : allocator (fun n => replicate n 0).
Proof.
  intros n. split; [apply length_replicate |]. apply Forall_replicate. by unfold in_unsigned.
Qed.

Lemma resize_correct_witness :
  at_ (resize (fun n => replicate n 0) (mkBitMap [5] 3) 100) 2 = (2 <? 3) && at_ (mkBitMap [5] 3) 2.
Proof.
  apply (resize_correct (fun n => replicate n 0) (mkBitMap [5] 3) 100).
  - exact zero_allocator.
  - split; [simpl; lia | reflexivity | repeat constructor; done].
  - by apply clean_1.
  - lia.
  - lia.
Defined.

(** [at_put_grow] puts the bit at any offset, growing the map when needed, and
    keeps every other bit, provided the map or the offset is not 0. *)
Theorem at_put_grow_correct fresh bm offset v :
  allocator fresh -> wf bm -> clean bm -> 0 <= offset -> 0 < size bm \/ 0 < offset ->
  2 * Z.max (size bm) offset <= 2 ^ 64 - 64 ->
  let bm' := at_put_grow fresh bm offset v in
  wf bm' /\ offset < size bm' /\ size bm <= size bm' /\
  forall i, 0 <= i < size bm' ->
    at_ bm' i = if i =? offset then v else (i <? size bm) && at_ bm i.
Proof.
  intros Hfr Hw Hc Ho Hne Hmax bm'. pose proof (wf_size _ Hw). unfold bm', at_put_grow.
  rewrite MAX2_max, idx_small by (unfold size in *; lia).
  set (bm1 := if size bm <=? offset then _ else _).
  assert (wf bm1 /\ offset < size bm1 /\ size bm <= size bm1 /\
    forall i, 0 <= i < size bm1 -> at_ bm1 i = (i <? size bm) && at_ bm i) as (Hw1 & Ho1 & Hs1 & Hb1).
  { unfold bm1. destruct (Z.leb_spec (size bm) offset).
    - destruct (resize_correct fresh bm (2 * Z.max (size bm) offset)) as (Hw1 & Hs1 & Hb1);
        [done | done | done | unfold size in *; lia |].
      rewrite Hs1. split; [done |]. split; [unfold size in *; lia |].
      split; [unfold size in *; lia | done].
    - split; [done |]. split; [done |]. split; [done |]. intros i Hi.
      by replace (i <? size bm) with true by lia. }
  clearbody bm1. destruct (at_put_puts bm1 offset v Hw1) as [Hw2 Hs2 Hb2]; [done |].
  unfold size in *. rewrite Hs2. split; [done |]. split; [done |]. split; [done |].
  intros i Hi. rewrite at_bit, Hb2 by lia. destruct (Z.eqb_spec i offset) as [->|Hi'].
  - by replace (_ && _) with true by lia.
  - replace ((offset <=? i) && _) with false by lia. rewrite <- at_bit. apply Hb1. lia.
Qed.

Lemma at_put_grow_correct_witness :
  at_ (at_put_grow (fun n => replicate n 0) (mkBitMap [5] 3) 90 true) 90 = true.
Proof.
  refine (proj2 (proj2 (proj2 (at_put_grow_correct (fun n => replicate n 0) (mkBitMap [5] 3) 90 true
    zero_allocator _ _ _ _ _))) 90 _).
  - split; [simpl; lia | reflexivity | repeat constructor; done].
  - by apply clean_1.
  - lia.
  - simpl; lia.
  - simpl; lia.
  - vm_compute. split; congruence.
Defined.

(** The growth policy does not grow an empty map for offset 0: the store that
    follows violates the bound that [verify_index] asserts. *)
Theorem at_put_grow_empty fresh :
  let grown := resize fresh (mkBitMap [] 0) (idx (2 * MAX2 (size (mkBitMap [] 0)) 0)) in
  size grown = 0 /\ verify_index grown 0 = false.
Proof. done. Qed.

(** A map that is shrunk and grown again shows its old bits: growing within the
    last word does not zero the newly addressable bits of that word. *)
Theorem resize_stale_bits fresh :
  allocator fresh ->
  let shrunk := resize fresh (set_bit (mkBitMap [0] 64) 10) 5 in
  at_ (resize fresh shrunk 64) 10 = true.
Proof.
  intros Hfr. unfold resize, at_. cbn.
  by destruct (Hfr 1%nat) as [Hl _]; destruct (fresh 1%nat) as [|x [|y l]]; simplify_eq/=.
Qed.

End BitMapPar.
