(* ===== verification/MarkOop.v ===== *)
(** The object header word, [oops/markOop.hpp] and [oops/markOop.inline.hpp], in
    its 64-bit layout: hash, age, lock and bias bits, pointers stored in the word,
    and the sizes CMS stores in free chunks. *)
From S2P Require Import Prelude GlobalDefinitions.
Import GlobalDefinitions.

Module MarkOop.

(** A mark is the [uintptr_t] that [value()] returns.  [None] is a failed
    assertion. *)
Definition markOop : Set := Z.

Definition age_bits : Z := 4.
Definition lock_bits : Z := 2.
Definition biased_lock_bits : Z := 1.
Definition max_hash_bits : Z := BitsPerWord - age_bits - lock_bits - biased_lock_bits.
Definition hash_bits : Z := if 31 <? max_hash_bits then 31 else max_hash_bits.
Definition cms_bits : Z := 1.
Definition epoch_bits : Z := 2.

Definition lock_shift : Z := 0.
Definition biased_lock_shift : Z := lock_bits.
Definition age_shift : Z := lock_bits + biased_lock_bits.
Definition cms_shift : Z := age_shift + age_bits.
Definition hash_shift : Z := cms_shift + cms_bits.
Definition epoch_shift : Z := hash_shift.

Definition lock_mask : Z := right_n_bits lock_bits.
Definition lock_mask_in_place : Z := Z.shiftl lock_mask lock_shift.
Definition biased_lock_mask : Z := right_n_bits (lock_bits + biased_lock_bits).
Definition biased_lock_mask_in_place : Z := Z.shiftl biased_lock_mask lock_shift.
Definition age_mask : Z := right_n_bits age_bits.
Definition age_mask_in_place : Z := Z.shiftl age_mask age_shift.
Definition epoch_mask : Z := right_n_bits epoch_bits.
Definition epoch_mask_in_place : Z := Z.shiftl epoch_mask epoch_shift.
Definition cms_mask : Z := right_n_bits cms_bits.
Definition cms_mask_in_place : Z := Z.shiftl cms_mask cms_shift.
Definition hash_mask : Z := right_n_bits hash_bits.
Definition hash_mask_in_place : Z := Z.shiftl hash_mask hash_shift.

Definition locked_value : Z := 0.
Definition unlocked_value : Z := 1.
Definition monitor_value : Z := 2.
Definition marked_value : Z := 3.
Definition biased_lock_pattern : Z := 5.
Definition no_hash : Z := 0.
Definition no_hash_in_place : Z := Z.shiftl no_hash hash_shift.
Definition no_lock_in_place : Z := unlocked_value.
Definition max_age : Z := age_mask.
Definition max_bias_epoch : Z := epoch_mask.

(** ** Biased locking *)

Definition has_bias_pattern (m : markOop) : bool :=
  mask_bits m biased_lock_mask_in_place =? biased_lock_pattern.
Definition biased_locker (m : markOop) : option Z :=
  if has_bias_pattern m then
    Some (mask_bits m (Z.lnot (Z.lor (Z.lor biased_lock_mask_in_place age_mask_in_place)
                                 epoch_mask_in_place)))
  else None.
Definition is_biased_anonymously (m : markOop) : bool :=
  has_bias_pattern m && match biased_locker m with Some t => t =? 0 | None => false end.
Definition bias_epoch (m : markOop) : option Z :=
  if has_bias_pattern m then Some (Z.shiftr (mask_bits m epoch_mask_in_place) epoch_shift) else None.
Definition set_bias_epoch (m : markOop) (epoch : Z) : option markOop :=
  if has_bias_pattern m && (Z.land epoch (Z.lnot epoch_mask) =? 0) then
    Some (Z.lor (mask_bits m (Z.lnot epoch_mask_in_place)) (Z.shiftl epoch epoch_shift))
  else None.
Definition incr_bias_epoch (m : markOop) : option markOop :=
  e ← bias_epoch m;
  set_bias_epoch m (Z.land (1 + e) epoch_mask).
Definition biased_locking_prototype : markOop := biased_lock_pattern.

(** ** Lock accessors *)

Definition is_locked (m : markOop) : bool := negb (mask_bits m lock_mask_in_place =? unlocked_value).
Definition is_unlocked (m : markOop) : bool :=
  mask_bits m biased_lock_mask_in_place =? unlocked_value.
Definition is_marked (m : markOop) : bool := mask_bits m lock_mask_in_place =? marked_value.
Definition is_neutral (m : markOop) : bool :=
  mask_bits m biased_lock_mask_in_place =? unlocked_value.
Definition is_being_inflated (m : markOop) : bool := m =? 0.
Definition INFLATING : markOop := 0.

Definition set_unlocked (m : markOop) : markOop := Z.lor m unlocked_value.
Definition has_locker (m : markOop) : bool := Z.land m lock_mask_in_place =? locked_value.
Definition locker (m : markOop) : option Z := if has_locker m then Some m else None.
Definition has_monitor (m : markOop) : bool := negb (Z.land m monitor_value =? 0).
Definition monitor (m : markOop) : option Z :=
  if has_monitor m then Some (Z.lxor m monitor_value) else None.
Definition has_displaced_mark_helper (m : markOop) : bool := Z.land m unlocked_value =? 0.
(** The address the displaced mark is read from and written to. *)
Definition displaced_mark_address (m : markOop) : option Z :=
  if has_displaced_mark_helper m then Some (Z.land m (Z.lnot monitor_value)) else None.
Definition copy_set_hash (m : markOop) (hash : Z) : markOop :=
  let tmp := Z.land m (Z.lnot hash_mask_in_place) in
  Z.lor tmp (Z.shiftl (Z.land hash hash_mask) hash_shift).
Definition unused_mark : markOop := marked_value.
Definition encode_lock (lock : Z) : markOop := lock.
Definition encode_monitor (monitor : Z) : markOop := Z.lor monitor monitor_value.
Definition encode_thread (UseBiasedLocking : bool) (thread age bias_epoch : Z) : option markOop :=
  if UseBiasedLocking &&
     (Z.land thread (Z.lor (Z.lor epoch_mask_in_place age_mask_in_place)
                       biased_lock_mask_in_place) =? 0) &&
     (age <=? max_age) && (bias_epoch <=? max_bias_epoch)
  then Some (Z.lor (Z.lor (Z.lor thread (Z.shiftl bias_epoch epoch_shift)) (Z.shiftl age age_shift))
               biased_lock_pattern)
  else None.

(** ** Garbage collection *)

Definition clear_lock_bits (m : markOop) : markOop := Z.land m (Z.lnot lock_mask_in_place).
Definition set_marked (m : markOop) : markOop :=
  Z.lor (Z.land m (Z.lnot lock_mask_in_place)) marked_value.
Definition set_unmarked (m : markOop) : markOop :=
  Z.lor (Z.land m (Z.lnot lock_mask_in_place)) unlocked_value.
Definition age (m : markOop) : Z := mask_bits (Z.shiftr m age_shift) age_mask.
Definition set_age (m : markOop) (v : Z) : option markOop :=
  if Z.land v (Z.lnot age_mask) =? 0 then
    Some (Z.lor (Z.land m (Z.lnot age_mask_in_place)) (Z.shiftl (Z.land v age_mask) age_shift))
  else None.
Definition incr_age (m : markOop) : option markOop :=
  if age m =? max_age then Some m else set_age m (age m + 1).
Definition hash (m : markOop) : Z := mask_bits (Z.shiftr m hash_shift) hash_mask.
Definition has_no_hash (m : markOop) : bool := hash m =? no_hash.
Definition prototype : markOop := Z.lor no_hash_in_place no_lock_in_place.

Definition encode_pointer_as_mark (p : Z) : markOop := set_marked p.
Definition decode_pointer (UseBiasedLocking : bool) (m : markOop) : Z :=
  if UseBiasedLocking && has_bias_pattern m then 0 else clear_lock_bits m.

Definition cms_free_chunk_pattern : Z := 1.
Definition size_shift : Z := cms_shift + cms_bits.
Definition size_bits : Z := 35.
Definition size_mask : Z := right_n_bits size_bits.
Definition size_mask_in_place : Z := Z.shiftl size_mask size_shift.
Definition cms_free_prototype : markOop :=
  Z.lor (Z.land prototype (Z.lnot cms_mask_in_place))
    (Z.shiftl (Z.land cms_free_chunk_pattern cms_mask) cms_shift).
Definition cms_encoding (m : markOop) : Z := mask_bits (Z.shiftr m cms_shift) cms_mask.
Definition is_cms_free_chunk (m : markOop) : bool :=
  is_neutral m && (Z.land (cms_encoding m) cms_free_chunk_pattern =? cms_free_chunk_pattern).
Definition get_size (m : markOop) : Z := Z.shiftr m size_shift.
Definition set_size_and_free (size : Z) : option markOop :=
  if Z.land size (Z.lnot size_mask) =? 0 then
    Some (Z.lor (Z.land cms_free_prototype (Z.lnot size_mask_in_place))
            (Z.shiftl (Z.land size size_mask) size_shift))
  else None.

(** ** Which headers a collection must save *)

Section Preserved.
Context (UseBiasedLocking : bool).

(** [prototype_for_object] reads the class's prototype header, given here. *)
Definition prototype_for_object (prototype_header : markOop) : option markOop :=
  if (prototype_header =? prototype) || has_bias_pattern prototype_header
  then Some prototype_header else None.

Definition must_be_preserved_with_bias (m prototype_header : markOop) : option bool :=
  if negb UseBiasedLocking then None else
  if has_bias_pattern m then Some false else
  h ← prototype_for_object prototype_header;
  if has_bias_pattern h then Some true else
  Some (negb (is_unlocked m) || negb (has_no_hash m)).
Definition must_be_preserved (m prototype_header : markOop) : option bool :=
  if negb UseBiasedLocking then Some (negb (is_unlocked m) || negb (has_no_hash m))
  else must_be_preserved_with_bias m prototype_header.

Definition must_be_preserved_with_bias_for_promotion_failure (m prototype_header : markOop)
    : option bool :=
  if negb UseBiasedLocking then None else
  if has_bias_pattern m then Some true else
  h ← prototype_for_object prototype_header;
  if has_bias_pattern h then Some true else
  Some (negb (is_unlocked m) || negb (has_no_hash m)).
Definition must_be_preserved_for_promotion_failure (m prototype_header : markOop) : option bool :=
  if negb UseBiasedLocking then Some (negb (is_unlocked m) || negb (has_no_hash m))
  else must_be_preserved_with_bias_for_promotion_failure m prototype_header.

Definition must_be_preserved_with_bias_for_cms_scavenge (m prototype_header : markOop)
    : option bool :=
  if negb UseBiasedLocking then None else
  if has_bias_pattern m || has_bias_pattern prototype_header then Some true else
  Some (negb (is_unlocked m) || negb (has_no_hash m)).
Definition must_be_preserved_for_cms_scavenge (m prototype_header : markOop) : option bool :=
  if negb UseBiasedLocking then Some (negb (is_unlocked m) || negb (has_no_hash m))
  else must_be_preserved_with_bias_for_cms_scavenge m prototype_header.
End Preserved.

(** ** Fields of a word *)

(** The [w] bits from bit [s] on. *)
Definition field (s w m : Z) : Z := Z.land (Z.shiftr m s) (Z.ones w).
Definition put_field (s w m v : Z) : Z :=
  Z.lor (Z.land m (Z.lnot (Z.shiftl (Z.ones w) s))) (Z.shiftl (Z.land v (Z.ones w)) s).

Lemma ones_bit w i : 0 <= w -> 0 <= i -> Z.testbit (Z.ones w) i = (i <? w).
Proof. intros. rewrite Z.testbit_ones by lia. destruct (Z.leb_spec 0 i); [done | lia]. Qed.

Lemma field_bit s w m i : 0 <= s -> 0 <= w -> 0 <= i ->
  Z.testbit (field s w m) i = Z.testbit m (i + s) && (i <? w).
Proof. intros. unfold field. by rewrite Z.land_spec, Z.shiftr_spec, ones_bit by lia. Qed.

Lemma put_field_bit s w m v i : 0 <= s -> 0 <= w -> 0 <= i ->
  Z.testbit (put_field s w m v) i =
  if (s <=? i) && (i <? s + w) then Z.testbit v (i - s) else Z.testbit m i.
Proof.
  intros Hs Hw Hi. unfold put_field.
  rewrite Z.lor_spec, Z.land_spec, Z.lnot_spec, !Z.shiftl_spec by lia.
  destruct (Z.leb_spec s i).
  - rewrite Z.land_spec, !ones_bit by lia. destruct (Z.ltb_spec (i - s) w), (Z.ltb_spec i (s + w)); try lia;
      by rewrite ?andb_true_r, ?andb_false_r, ?orb_false_r, ?orb_false_l.
  - rewrite !(Z.testbit_neg_r _ (i - s)) by lia. by rewrite orb_false_r, andb_true_r.
Qed.

Lemma field_put_same s w m v : 0 <= s -> 0 <= w -> field s w (put_field s w m v) = Z.land v (Z.ones w).
Proof.
  intros Hs Hw. apply Z.bits_inj'. intros i Hi. rewrite field_bit, put_field_bit by lia.
  rewrite Z.land_spec, ones_bit by lia. replace (i + s - s) with i by lia.
  destruct (Z.ltb_spec i w), (Z.leb_spec s (i + s)), (Z.ltb_spec (i + s) (s + w)); try lia;
    by rewrite ?andb_false_r.
Qed.

Lemma field_put_other s w s' w' m v :
  0 <= s -> 0 <= w -> 0 <= s' -> 0 <= w' -> s + w <= s' \/ s' + w' <= s ->
  field s' w' (put_field s w m v) = field s' w' m.
Proof.
  intros Hs Hw Hs' Hw' Hd. apply Z.bits_inj'. intros i Hi. rewrite !field_bit, put_field_bit by lia.
  destruct (Z.ltb_spec i w'); [| by rewrite !andb_false_r].
  destruct (Z.leb_spec s (i + s')), (Z.ltb_spec (i + s') (s + w)); try lia; done.
Qed.

Lemma field_range s w m : 0 <= w -> 0 <= field s w m < 2 ^ w.
Proof. intros. unfold field. rewrite Z.land_ones by lia. apply Z.mod_pos_bound, pow2_pos. lia. Qed.

(** [v] fits a field when the bits outside the mask are clear. *)
Lemma fits_field v w : 0 <= w -> 0 <= v ->
  (Z.land v (Z.lnot (Z.ones w)) =? 0) = (v <? 2 ^ w).
Proof.
  intros Hw Hv. rewrite <- Z.ldiff_land, Z.ldiff_ones_r, Z.shiftl_mul_pow2, Z.shiftr_div_pow2 by lia.
  pose proof (pow2_pos w Hw) as Hp. pose proof (Z.div_mod v (2 ^ w) ltac:(lia)).
  pose proof (Z.mod_pos_bound v (2 ^ w) Hp). pose proof (Z.div_pos v (2 ^ w) Hv Hp).
  destruct (Z.ltb_spec v (2 ^ w)), (Z.eqb_spec (v / 2 ^ w * 2 ^ w) 0); try done.
  - rewrite Z.div_small in *; lia.
  - nia.
Qed.

(** ** The operations as field accesses *)

Lemma age_field m : age m = field 3 4 m.
Proof. done. Qed.
Lemma hash_field m : hash m = field 8 31 m.
Proof. done. Qed.
Lemma cms_field m : cms_encoding m = field 7 1 m.
Proof. done. Qed.
Lemma set_age_field m v : 0 <= v -> set_age m v = if v <? 16 then Some (put_field 3 4 m v) else None.
Proof. intros. unfold set_age. change age_mask with (Z.ones 4). by rewrite (fits_field v 4) by lia. Qed.
Lemma copy_set_hash_field m h : copy_set_hash m h = put_field 8 31 m h.
Proof. done. Qed.
Lemma set_marked_field m : set_marked m = put_field 0 2 m marked_value.
Proof. done. Qed.
Lemma set_unmarked_field m : set_unmarked m = put_field 0 2 m unlocked_value.
Proof. done. Qed.

Lemma low_field w m : field 0 w m = Z.land m (Z.ones w).
Proof. unfold field. by rewrite Z.shiftr_0_r. Qed.

Lemma has_bias_pattern_field m : has_bias_pattern m = (field 0 3 m =? 5).
Proof. by rewrite low_field. Qed.
Lemma is_neutral_field m : is_neutral m = (field 0 3 m =? 1).
Proof. by rewrite low_field. Qed.
Lemma lock_field m : mask_bits m lock_mask_in_place = field 0 2 m.
Proof. by rewrite low_field. Qed.

(** Tests of the low bits see only the low bits. *)
Lemma land_low m k : 0 <= k < 8 -> Z.land m k = Z.land (field 0 3 m) k.
Proof.
  intros Hk. rewrite low_field, <- Z.land_assoc. f_equal. symmetry.
  rewrite Z.land_comm, Z.land_ones by lia. apply Z.mod_small. lia.
Qed.

Lemma low_cases m : exists r, field 0 3 m = r /\
  (r = 0 \/ r = 1 \/ r = 2 \/ r = 3 \/ r = 4 \/ r = 5 \/ r = 6 \/ r = 7).
Proof. pose proof (field_range 0 3 m ltac:(lia)). eexists. split; [done |]. lia. Qed.

Lemma field_02 m : field 0 2 m = Z.land (field 0 3 m) 3.
Proof. rewrite low_field. by apply land_low. Qed.

(** The five states the lock bits encode. *)
Definition lock_states (m : markOop) : list bool :=
  [has_bias_pattern m; is_neutral m; has_locker m; has_monitor m && negb (is_marked m); is_marked m].

Lemma aligned_bits p i : Z.land p 3 = 0 -> 0 <= i < 2 -> Z.testbit p i = false.
Proof.
  intros Hp Hi. assert (H : Z.testbit (Z.land p 3) i = false) by (rewrite Hp; apply Z.bits_0).
  rewrite Z.land_spec in H. assert (i = 0 \/ i = 1) as [-> | ->] by lia; by rewrite andb_true_r in H.
Qed.

Lemma small_bit c i : 0 <= c < 4 -> 2 <= i -> Z.testbit c i = false.
Proof. intros Hc Hi. apply (testbit_high 2); [unfold in_unsigned; lia | lia]. Qed.

(** Two words agree when they agree on their two low bits and above. *)
Lemma word_eq a b :
  Z.testbit a 0 = Z.testbit b 0 -> Z.testbit a 1 = Z.testbit b 1 ->
  (forall i, 2 <= i -> Z.testbit a i = Z.testbit b i) -> a = b.
Proof.
  intros H0 H1 H2. apply Z.bits_inj'. intros i Hi.
  destruct (decide (i = 0)) as [-> |]; [done |]. destruct (decide (i = 1)) as [-> |]; [done |].
  apply H2. lia.
Qed.

(** Decide an equation of words built from an aligned address and small constants. *)
Ltac low_bits Hp :=
  unfold encode_monitor, clear_lock_bits, encode_pointer_as_mark, set_marked;
  change lock_mask_in_place with 3; change monitor_value with 2; change marked_value with 3;
  apply word_eq;
  [ autorewrite with bits; rewrite ?(aligned_bits _ 0 Hp) by lia; reflexivity
  | autorewrite with bits; rewrite ?(aligned_bits _ 1 Hp) by lia; reflexivity
  | let i := fresh "i" in intros i ?; autorewrite with bits;
    rewrite ?(small_bit 1 i), ?(small_bit 2 i), ?(small_bit 3 i) by lia;
    autorewrite with bools; try reflexivity; by rewrite ?andb_true_r, ?orb_false_r ].

(** C33.  The lock bits of every mark encode exactly one of the five states biased,
    neutral, stack-locked, inflated and marked; a mark is locked exactly when it is
    in one of the last three; a pointer of an aligned stack lock or monitor comes
    back from the mark that encodes it; and an aligned address survives being
    stored in a mark during collection, with or without biased locking. *)
Theorem lock_states_correct m p ubl :
  Z.land p 3 = 0 ->
  count_occ bool_dec (lock_states m) true = 1%nat /\
  is_locked m = has_locker m || has_monitor m /\
  is_unlocked m = is_neutral m /\
  locker (encode_lock p) = Some p /\
  has_monitor (encode_monitor p) = true /\ monitor (encode_monitor p) = Some p /\
  is_marked (encode_pointer_as_mark p) = true /\
  decode_pointer ubl (encode_pointer_as_mark p) = p /\
  displaced_mark_address (encode_lock p) = Some p /\
  displaced_mark_address (encode_monitor p) = Some p.
Proof.
  intros Hp.
  assert (Emon : Z.land (encode_monitor p) 2 = 2) by low_bits Hp.
  assert (Exor : Z.lxor (encode_monitor p) 2 = p) by low_bits Hp.
  assert (Emark : Z.land (encode_pointer_as_mark p) 3 = 3) by low_bits Hp.
  assert (Eclear : clear_lock_bits (encode_pointer_as_mark p) = p) by low_bits Hp.
  assert (Edisp : Z.land (encode_monitor p) (Z.lnot 2) = p) by low_bits Hp.
  assert (Edisp' : Z.land p (Z.lnot 2) = p) by low_bits Hp.
  assert (E1 : Z.land p 1 = 0) by low_bits Hp.
  assert (E1' : Z.land (encode_monitor p) 1 = 0) by low_bits Hp.
  unfold lock_states, is_locked, is_unlocked, locker, monitor, is_marked, displaced_mark_address,
    has_locker, has_monitor, has_displaced_mark_helper, decode_pointer, encode_lock, mask_bits.
  rewrite !has_bias_pattern_field, !is_neutral_field.
  change lock_mask_in_place with 3. change monitor_value with 2. change unlocked_value with 1.
  change (Z.land m biased_lock_mask_in_place) with (mask_bits m (Z.ones 3)).
  rewrite Hp, Emon, Exor, Emark, Eclear, Edisp, Edisp', E1, E1'. cbn.
  unfold mask_bits. rewrite <- (low_field 3), (land_low m 3), (land_low m 2) by lia.
  replace (field 0 3 (encode_pointer_as_mark p) =? 5) with false.
  2: { destruct (low_cases (encode_pointer_as_mark p)) as (r & Er & Hr).
       rewrite (land_low _ 3), Er in Emark by lia. rewrite Er.
       clear Er. decompose [or] Hr; subst r; first [reflexivity | vm_compute in Emark; discriminate Emark]. }
  rewrite andb_false_r.
  destruct (low_cases m) as (r & -> & Hr). decompose [or] Hr; subst r; done.
Qed.

Lemma lock_states_correct_witness : Z.land 4096 3 = 0 /\ monitor (encode_monitor 4096) = Some 4096.
Proof. split; [done |]. by apply (lock_states_correct 77 4096 true). Defined.

(** Hash, age and lock bits are independent: each is read back as it was
    stored, and storing one leaves the others (and the CMS bit) as they were; a hash
    keeps its low 31 bits, an age above 15 is refused, and [incr_age] saturates. *)
Theorem mark_fields_independent m :
  (forall h, hash (copy_set_hash m h) = h mod 2 ^ 31 /\ age (copy_set_hash m h) = age m /\
    cms_encoding (copy_set_hash m h) = cms_encoding m /\
    lock_states (copy_set_hash m h) = lock_states m) /\
  (forall v, 0 <= v < 16 -> exists m', set_age m v = Some m' /\ age m' = v /\ hash m' = hash m /\
    cms_encoding m' = cms_encoding m /\ lock_states m' = lock_states m) /\
  (forall v, 16 <= v -> set_age m v = None) /\
  (exists m', incr_age m = Some m' /\ age m' = Z.min 15 (age m + 1) /\ hash m' = hash m /\
    lock_states m' = lock_states m) /\
  (age (set_marked m) = age m /\ hash (set_marked m) = hash m /\ is_marked (set_marked m) = true) /\
  (age (set_unmarked m) = age m /\ hash (set_unmarked m) = hash m /\
    is_marked (set_unmarked m) = false).
Proof.
  assert (Hlock : forall m', field 0 3 m' = field 0 3 m -> lock_states m' = lock_states m).
  { intros m' E. unfold lock_states, has_locker, has_monitor, is_marked, mask_bits.
    rewrite !has_bias_pattern_field, !is_neutral_field.
    change lock_mask_in_place with 3. change monitor_value with 2.
    by rewrite (land_low m' 3), (land_low m 3), (land_low m' 2), (land_low m 2), E by lia. }
  assert (Hset : forall v, 0 <= v < 16 -> exists m', set_age m v = Some m' /\ age m' = v /\
    hash m' = hash m /\ cms_encoding m' = cms_encoding m /\ lock_states m' = lock_states m).
  { intros v Hv. rewrite set_age_field by lia. rewrite (proj2 (Z.ltb_lt v 16)) by lia.
    eexists. split; [done |]. rewrite age_field, !hash_field, !cms_field.
    rewrite field_put_same, !field_put_other by lia. split_and!; auto.
    - rewrite Z.land_ones by lia. apply Z.mod_small. lia.
    - apply Hlock. apply field_put_other; lia. }
  assert (Hage : 0 <= age m < 16) by (rewrite age_field; apply (field_range 3 4); lia).
  split_and!.
  - intros h. rewrite copy_set_hash_field, !hash_field, !age_field, !cms_field.
    rewrite field_put_same, !field_put_other, Z.land_ones by lia. split_and!; auto.
    apply Hlock. apply field_put_other; lia.
  - exact Hset.
  - intros v Hv. rewrite set_age_field by lia. by rewrite (proj2 (Z.ltb_ge v 16)) by lia.
  - unfold incr_age. change max_age with 15. destruct (Z.eqb_spec (age m) 15) as [E | E].
    + exists m. split_and!; auto. lia.
    + destruct (Hset (age m + 1) ltac:(lia)) as (m' & H1 & H2 & H3 & _ & H5).
      exists m'. split_and!; auto. lia.
  - by rewrite set_marked_field, !age_field, field_put_other by lia.
  - by rewrite set_marked_field, !hash_field, field_put_other by lia.
  - unfold is_marked. rewrite lock_field, set_marked_field, field_put_same by lia. done.
  - by rewrite set_unmarked_field, !age_field, field_put_other by lia.
  - by rewrite set_unmarked_field, !hash_field, field_put_other by lia.
  - unfold is_marked. rewrite lock_field, set_unmarked_field, field_put_same by lia. done.
Qed.

(** ** Biased marks *)

Lemma thread_bit t i : Z.land t 895 = 0 -> 0 <= i < 7 \/ 8 <= i < 10 -> Z.testbit t i = false.
Proof.
  intros Ht Hi. assert (H : Z.testbit (Z.land t 895) i = false) by (rewrite Ht; apply Z.bits_0).
  rewrite Z.land_spec in H.
  assert (Z.testbit 895 i = true) as E.
  { assert (i = 0 \/ i = 1 \/ i = 2 \/ i = 3 \/ i = 4 \/ i = 5 \/ i = 6 \/ i = 8 \/ i = 9) as Hc by lia.
    decompose [or] Hc; by subst i. }
  by rewrite E, andb_true_r in H.
Qed.

Lemma biased_bit t a e i : 0 <= a < 16 -> 0 <= e < 4 -> 0 <= i ->
  Z.testbit (Z.lor (Z.lor (Z.lor t (Z.shiftl e 8)) (Z.shiftl a 3)) 5) i =
  Z.testbit t i || Z.testbit e (i - 8) || Z.testbit a (i - 3) || Z.testbit 5 i.
Proof. intros. by rewrite !Z.lor_spec, !Z.shiftl_spec by lia. Qed.

Lemma field_of_bits s w m v : 0 <= s -> 0 <= v < 2 ^ w -> 0 <= w ->
  (forall i, 0 <= i < w -> Z.testbit m (i + s) = Z.testbit v i) -> field s w m = v.
Proof.
  intros Hs Hv Hw H. apply Z.bits_inj'. intros i Hi. rewrite field_bit by lia.
  destruct (Z.ltb_spec i w).
  - rewrite andb_true_r. apply H. lia.
  - rewrite andb_false_r. symmetry. apply (testbit_high w); [done | lia].
Qed.

Lemma biased_fields t a e :
  Z.land t 895 = 0 -> 0 <= a < 16 -> 0 <= e < 4 ->
  let m := Z.lor (Z.lor (Z.lor t (Z.shiftl e 8)) (Z.shiftl a 3)) 5 in
  field 0 3 m = 5 /\ field 3 4 m = a /\ field 8 2 m = e /\ Z.land m (Z.lnot 895) = t.
Proof.
  intros Ht Ha He m.
  assert (He' : forall i, 2 <= i -> Z.testbit e i = false)
    by (intros; apply (testbit_high 2); [unfold in_unsigned |]; lia).
  assert (Ha' : forall i, 4 <= i -> Z.testbit a i = false)
    by (intros; apply (testbit_high 4); [unfold in_unsigned |]; lia).
  assert (H5 : forall i, 3 <= i -> Z.testbit 5 i = false)
    by (intros; apply (testbit_high 3); [unfold in_unsigned |]; lia).
  split_and!.
  - apply field_of_bits; try lia. intros i Hi. unfold m. rewrite biased_bit, (thread_bit t) by (auto; lia).
    rewrite (Z.testbit_neg_r e), (Z.testbit_neg_r a) by lia. by rewrite Z.add_0_r.
  - apply field_of_bits; try lia. intros i Hi. unfold m. rewrite biased_bit, (thread_bit t) by (auto; lia).
    rewrite (Z.testbit_neg_r e), H5 by lia. rewrite orb_false_r. simpl. f_equal. lia.
  - apply field_of_bits; try lia. intros i Hi. unfold m. rewrite biased_bit, (thread_bit t) by (auto; lia).
    rewrite Ha', H5 by lia. rewrite !orb_false_r. simpl. f_equal. lia.
  - apply Z.bits_inj'. intros i Hi. unfold m. rewrite Z.land_spec, Z.lnot_spec, biased_bit by lia.
    destruct (decide (0 <= i < 7 \/ 8 <= i < 10)) as [Hl | Hh].
    + rewrite (thread_bit t) by auto.
      assert (Z.testbit 895 i = true) as ->; [| by rewrite andb_false_r].
      assert (i = 0 \/ i = 1 \/ i = 2 \/ i = 3 \/ i = 4 \/ i = 5 \/ i = 6 \/ i = 8 \/ i = 9) as Hc by lia.
      decompose [or] Hc; by subst i.
    + assert (Z.testbit 895 i = false) as ->.
      { destruct (decide (i = 7)) as [-> |]; [done |]. apply (testbit_high 10); [done | lia]. }
      rewrite H5, (Ha' (i - 3)) by lia.
      assert (Z.testbit e (i - 8) = false) as ->.
      { destruct (decide (i = 7)) as [-> |]; [done |]. apply He'. lia. }
      by rewrite !orb_false_r, andb_true_r.
Qed.

Lemma bias_epoch_field m :
  bias_epoch m = if has_bias_pattern m then Some (field 8 2 m) else None.
Proof.
  unfold bias_epoch. destruct (has_bias_pattern m); [| done]. f_equal.
  unfold mask_bits, field. change epoch_mask_in_place with (Z.shiftl (Z.ones 2) 8).
  rewrite Z.shiftr_land. f_equal.
Qed.

Lemma set_bias_epoch_field m e : 0 <= e < 2 ^ 2 ->
  set_bias_epoch m e = if has_bias_pattern m then Some (put_field 8 2 m e) else None.
Proof.
  intros He. unfold set_bias_epoch. change epoch_mask with (Z.ones 2). rewrite fits_field by lia.
  rewrite (proj2 (Z.ltb_lt e (2 ^ 2))) by lia. rewrite andb_true_r.
  destruct (has_bias_pattern m); [| done]. f_equal. unfold put_field.
  by rewrite (Z.land_ones e), Z.mod_small by lia.
Qed.

(** A mark biased towards a thread gives the thread, the age and the epoch back;
    incrementing its epoch wraps around after 3 and keeps thread and age; it is
    anonymously biased exactly when the thread is null. *)
Theorem biased_mark_roundtrip t a e :
  Z.land t 895 = 0 -> 0 <= a <= max_age -> 0 <= e <= max_bias_epoch ->
  exists m, encode_thread true t a e = Some m /\ has_bias_pattern m = true /\
    biased_locker m = Some t /\ age m = a /\ bias_epoch m = Some e /\
    is_biased_anonymously m = (t =? 0) /\
    exists m', incr_bias_epoch m = Some m' /\ bias_epoch m' = Some ((e + 1) mod 4) /\
      biased_locker m' = Some t /\ age m' = a.
Proof.
  change max_age with 15. change max_bias_epoch with 3. intros Ht Ha He.
  destruct (biased_fields t a e Ht ltac:(lia) ltac:(lia)) as (Hp & Hage & Hep & Hth).
  set (m := Z.lor _ 5) in *. unfold encode_thread. change max_age with 15. change max_bias_epoch with 3.
  change (Z.lor (Z.lor epoch_mask_in_place age_mask_in_place) biased_lock_mask_in_place) with 895.
  rewrite Ht, (proj2 (Z.leb_le a 15)), (proj2 (Z.leb_le e 3)) by lia. exists m. split; [done |].
  assert (Hbias : has_bias_pattern m = true) by (by rewrite has_bias_pattern_field, Hp).
  assert (Hmask : forall x, mask_bits x (Z.lnot (Z.lor (Z.lor biased_lock_mask_in_place
    age_mask_in_place) epoch_mask_in_place)) = Z.land x (Z.lnot 895)) by done.
  assert (Hloc : biased_locker m = Some t) by (unfold biased_locker; by rewrite Hbias, Hmask, Hth).
  rewrite bias_epoch_field, Hbias, Hep. split_and!; auto.
  - unfold is_biased_anonymously. by rewrite Hbias, Hloc.
  - set (m' := put_field 8 2 m ((e + 1) mod 4)).
    pose proof (Z.mod_pos_bound (e + 1) 4 ltac:(lia)) as He'.
    assert (Hp' : field 0 3 m' = 5) by (unfold m'; rewrite field_put_other by lia; done).
    assert (Hb' : has_bias_pattern m' = true) by (by rewrite has_bias_pattern_field, Hp').
    exists m'. split_and!.
    + unfold incr_bias_epoch. rewrite bias_epoch_field, Hbias, Hep. cbn [mbind option_bind].
      change epoch_mask with (Z.ones 2). rewrite Z.land_ones, Z.add_comm by lia.
      by rewrite set_bias_epoch_field, Hbias by (change (2 ^ 2) with 4; lia).
    + rewrite bias_epoch_field, Hb'. unfold m'. rewrite field_put_same, Z.land_ones by lia.
      f_equal. by apply Z.mod_small.
    + unfold biased_locker. rewrite Hb', Hmask. f_equal. rewrite <- Hth. apply Z.bits_inj'. intros i Hi.
      rewrite !Z.land_spec. unfold m'. rewrite put_field_bit by lia.
      destruct (Z.leb_spec 8 i), (Z.ltb_spec i (8 + 2)); try done. cbn [andb].
      assert (i = 8 \/ i = 9) as [-> | ->] by lia; by rewrite !andb_false_r.
    + rewrite age_field. unfold m'. by rewrite field_put_other by lia.
Qed.

Lemma biased_mark_roundtrip_witness :
  exists m, encode_thread true 65536 9 3 = Some m /\ bias_epoch m = Some 3.
Proof.
  destruct (biased_mark_roundtrip 65536 9 3) as (m & H1 & _ & _ & _ & H2 & _);
    [done | vm_compute; split; discriminate | vm_compute; split; discriminate | by exists m].
Defined.

(** The size CMS stores in a free chunk's header is read back, up to 35 bits, and
    the header is recognized as that of a free chunk, which no header with a
    clear CMS bit is. *)
Theorem cms_size_roundtrip size :
  0 <= size ->
  (size < 2 ^ 35 -> exists m, set_size_and_free size = Some m /\ get_size m = size /\
    is_cms_free_chunk m = true /\ is_neutral m = true) /\
  (2 ^ 35 <= size -> set_size_and_free size = None) /\
  (forall m, cms_encoding m = 0 -> is_cms_free_chunk m = false).
Proof.
  intros Hs. assert (Hfit : set_size_and_free size =
    if size <? 2 ^ 35 then Some (put_field 8 35 cms_free_prototype size) else None).
  { unfold set_size_and_free. change size_mask with (Z.ones 35). by rewrite (fits_field size 35) by lia. }
  split_and!.
  - intros Hlt. rewrite Hfit, (proj2 (Z.ltb_lt _ _) Hlt). eexists. split; [done |]. split; [| split].
    + unfold get_size. change size_shift with 8. apply Z.bits_inj'. intros i Hi.
      rewrite Z.shiftr_spec, put_field_bit by lia. replace (i + 8 - 8) with i by lia.
      destruct (Z.leb_spec 8 (i + 8)), (Z.ltb_spec (i + 8) (8 + 35)); try lia; cbn [andb]; [done |].
      rewrite (testbit_high 8 cms_free_prototype), (testbit_high 35 size);
        [done | unfold in_unsigned; lia | lia | done | lia].
    + unfold is_cms_free_chunk. rewrite is_neutral_field, cms_field, !field_put_other by lia. done.
    + by rewrite is_neutral_field, field_put_other by lia.
  - intros Hge. by rewrite Hfit, (proj2 (Z.ltb_ge _ _) Hge).
  - intros m Hm. unfold is_cms_free_chunk. by rewrite Hm, andb_false_r.
Qed.

Lemma cms_size_roundtrip_witness : exists m, set_size_and_free 1000 = Some m /\ get_size m = 1000.
Proof.
  destruct (cms_size_roundtrip 1000) as (H & _); [lia |].
  destruct H as (m & H1 & H2 & _); [lia | by exists m].
Defined.

(** A header that a collection does not save can be rebuilt from the class:
    it is biased, or it is neutral and without a hash while the class is not
    biasable.  The rules for promotion failure and for CMS scavenges are the same
    rule, and they save every header that the normal rule saves. *)
Theorem must_be_preserved_correct ubl m ph :
  ph = prototype \/ has_bias_pattern ph = true ->
  (must_be_preserved ubl m ph = Some false ->
    ubl = true /\ has_bias_pattern m = true \/
    is_neutral m = true /\ hash m = 0 /\ (ubl = true -> ph = prototype)) /\
  must_be_preserved_for_cms_scavenge ubl m ph = must_be_preserved_for_promotion_failure ubl m ph /\
  (must_be_preserved ubl m ph = Some true ->
    must_be_preserved_for_promotion_failure ubl m ph = Some true) /\
  is_Some (must_be_preserved ubl m ph).
Proof.
  intros Hph.
  assert (Hp : prototype_for_object ph = Some ph).
  { unfold prototype_for_object. destruct Hph as [-> | ->]; [done | by rewrite orb_true_r]. }
  assert (Hpb : has_bias_pattern ph = false -> ph = prototype)
    by (destruct Hph as [-> | E]; [done | congruence]).
  unfold must_be_preserved, must_be_preserved_with_bias, must_be_preserved_for_cms_scavenge,
    must_be_preserved_with_bias_for_cms_scavenge, must_be_preserved_for_promotion_failure,
    must_be_preserved_with_bias_for_promotion_failure, has_no_hash.
  rewrite Hp. cbn [mbind option_bind].
  change (is_unlocked m) with (is_neutral m). change no_hash with 0.
  destruct ubl, (has_bias_pattern m), (has_bias_pattern ph), (is_neutral m), (Z.eqb_spec (hash m) 0);
    cbn; naive_solver.
Qed.

Lemma must_be_preserved_correct_witness :
  is_Some (must_be_preserved true prototype biased_locking_prototype).
Proof. apply (must_be_preserved_correct true prototype biased_locking_prototype). by right. Defined.

End MarkOop.
