(* ===== verification/ReservedSpace.v ===== *)
(** Reserving address ranges: the [ReservedSpace] classes of
    [runtime/virtualspace.cpp], with the parts of [os] they call that are portable
    code ([os::page_size_for_region], [os::reserve_memory_aligned]). *)
From S2P Require Import Prelude GlobalDefinitions MarkOop.
Import GlobalDefinitions.

Module ReservedSpace.

(** The operating system: its constants and its answers.  Addresses are numbers,
    [NULL] is 0. *)
Record OS : Set := mkOS {
  vm_page_size : Z;
  vm_allocation_granularity : Z;
  UseLargePages : bool;
  _page_sizes : list Z;
  can_commit_large_page_memory : bool;
  can_execute_large_page_memory : bool;
  (** [reserve_memory(bytes, NULL, alignment_hint)] *)
  reserve_memory : Z -> Z -> Z;
  (** [reserve_memory_special(bytes, alignment, addr, executable)] *)
  reserve_memory_special : Z -> Z -> Z -> bool -> Z;
  attempt_reserve_memory_at : Z -> Z -> Z;
  release_memory : Z -> Z -> bool;
  release_memory_special : Z -> Z -> bool;
  protect_memory : Z -> Z -> bool -> bool;
  commit_memory : Z -> Z -> bool;
  uncommit_memory : Z -> Z -> bool
}.

Record ReservedSpace : Set := mkReservedSpace {
  rs_base : Z;
  rs_size : Z;
  rs_noaccess_prefix : Z;
  rs_alignment : Z;
  rs_special : bool;
  rs_executable : bool
}.

Definition is_reserved (rs : ReservedSpace) : bool := negb (rs_base rs =? 0).
(** The dummy constructor. *)
Definition no_space : ReservedSpace := mkReservedSpace 0 0 0 0 false false.

(** A failed assertion and [fatal] end the run. *)
Notation "'check!' b ; k" := (if b then k else None) (at level 10, b at level 100, k at level 200).

Section System.
Context (os : OS).

Fixpoint page_size_search (sizes : list Z) (region_min_size region_max_size max_page_size : Z)
    : option Z :=
  match sizes with
  | [] => None
  | sz :: sizes =>
      if sz =? 0 then None else
      let mask := sz - 1 in
      if (Z.land region_min_size mask =? 0) && (Z.land region_max_size mask =? 0) then Some sz else
      if sz <=? max_page_size then Some sz
      else page_size_search sizes region_min_size region_max_size max_page_size
  end.

Definition page_size_for_region (region_min_size region_max_size min_pages : Z) : Z :=
  if UseLargePages os then
    let max_page_size := region_max_size / min_pages in
    match page_size_search (_page_sizes os) region_min_size region_max_size max_page_size with
    | Some sz => sz
    | None => vm_page_size os
    end
  else vm_page_size os.

(** Reserve more than asked for and give back what is before and after the
    aligned part. *)
Definition reserve_memory_aligned (size alignment : Z) : option Z :=
  check! Z.land alignment (vm_allocation_granularity os - 1) =? 0;
  check! Z.land size (alignment - 1) =? 0;
  let extra_size := wrap 64 (size + alignment) in
  check! size <=? extra_size;
  let extra_base := reserve_memory os extra_size alignment in
  if extra_base =? 0 then Some 0 else
  Some (align_size_up extra_base alignment).

(** [None] when the release failed. *)
Definition failed_to_reserve_as_requested (base requested_address size : Z) (special : bool)
    : option bool :=
  if (base =? requested_address) || (requested_address =? 0) then Some false else
  if negb (base =? 0) then
    if special then check! release_memory_special os base size; Some true
    else check! release_memory os base size; Some true
  else Some true.

(** The assertions at the end of [initialize]: the area must be distinguishable
    from marks. *)
Definition finish_reserved (rs : ReservedSpace) : option ReservedSpace :=
  let base := rs_base rs in
  let size := rs_size rs in
  check! MarkOop.decode_pointer true (MarkOop.encode_pointer_as_mark base) =? base;
  check! MarkOop.decode_pointer true (MarkOop.encode_pointer_as_mark (base + size)) =? base + size;
  Some rs.

Definition initialize_reserved (size alignment : Z) (large : bool) (requested_address0 noaccess_prefix : Z)
    (executable : bool) : option ReservedSpace :=
  let granularity := vm_allocation_granularity os in
  check! Z.land size (granularity - 1) =? 0;
  check! Z.land alignment (granularity - 1) =? 0;
  check! (alignment =? 0) || is_power_of_2 alignment;
  let alignment := MAX2 alignment (vm_page_size os) in
  check! (noaccess_prefix =? 0) || (noaccess_prefix =? alignment);
  let failed := mkReservedSpace 0 0 0 0 false executable in
  if size =? 0 then Some failed else
  let special := large && negb (can_commit_large_page_memory os) in
  let requested_address :=
    if negb (requested_address0 =? 0) then requested_address0 - noaccess_prefix
    else requested_address0 in
  check! (requested_address0 =? 0) || negb (requested_address =? 0);
  let done (base size : Z) (special : bool) :=
    finish_reserved (mkReservedSpace base size noaccess_prefix alignment special executable) in
  let base := if special
              then reserve_memory_special os size alignment requested_address executable else 0 in
  if negb (base =? 0) then
    f ← failed_to_reserve_as_requested base requested_address size true;
    if f : bool then Some failed else
    check! base mod alignment =? 0;
    done base size true
  else
    base ←
      (if negb (requested_address =? 0) then
         let base := attempt_reserve_memory_at os size requested_address in
         f ← failed_to_reserve_as_requested base requested_address size false;
         Some (if f : bool then 0 else base)
       else Some (reserve_memory os size alignment));
    if base =? 0 then Some failed else
    if negb (Z.land (base + noaccess_prefix) (alignment - 1) =? 0) then
      check! release_memory os base size;
      let size := align_size_up size alignment in
      base ← reserve_memory_aligned size alignment;
      f ← (if negb (requested_address =? 0)
           then failed_to_reserve_as_requested base requested_address size false else Some false);
      if f : bool then Some failed else done base size false
    else done base size false.

(** The constructors. *)
Definition NewReservedSpace (size : Z) : option ReservedSpace :=
  let page_size := page_size_for_region size size 1 in
  let large_pages := negb (page_size =? vm_page_size os) in
  let alignment := vm_allocation_granularity os in
  initialize_reserved size alignment large_pages 0 0 false.

Definition NewReservedSpaceAt (size alignment : Z) (large : bool)
    (requested_address noaccess_prefix : Z) : option ReservedSpace :=
  initialize_reserved (size + noaccess_prefix) alignment large requested_address noaccess_prefix false.

Definition NewReservedSpaceExec (size alignment : Z) (large executable : bool)
    : option ReservedSpace :=
  initialize_reserved size alignment large 0 0 executable.

Definition ReservedCodeSpace (r_size rs_align : Z) (large : bool) : option ReservedSpace :=
  NewReservedSpaceExec r_size rs_align large true.

(** The private constructor, and the parts of a space. *)
Definition ReservedSpaceOf (base size alignment : Z) (special executable : bool)
    : option ReservedSpace :=
  check! size mod vm_allocation_granularity os =? 0;
  Some (mkReservedSpace base size 0 alignment special executable).

Definition first_part (rs : ReservedSpace) (partition_size alignment : Z) : option ReservedSpace :=
  check! partition_size <=? rs_size rs;
  ReservedSpaceOf (rs_base rs) partition_size alignment (rs_special rs) (rs_executable rs).

Definition last_part (rs : ReservedSpace) (partition_size alignment : Z) : option ReservedSpace :=
  check! partition_size <=? rs_size rs;
  ReservedSpaceOf (rs_base rs + partition_size) (rs_size rs - partition_size) alignment
    (rs_special rs) (rs_executable rs).

Definition page_align_size_up (size : Z) : Z := align_size_up size (vm_page_size os).
Definition page_align_size_down (size : Z) : Z := align_size_down size (vm_page_size os).
Definition allocation_align_size_up (size : Z) : Z :=
  align_size_up size (vm_allocation_granularity os).
Definition allocation_align_size_down (size : Z) : Z :=
  align_size_down size (vm_allocation_granularity os).

(** The address range given back, if any, and the space afterwards. *)
Definition release_reserved (rs : ReservedSpace) : option (Z * Z) * ReservedSpace :=
  if is_reserved rs then
    let real_base := rs_base rs - rs_noaccess_prefix rs in
    let real_size := rs_size rs + rs_noaccess_prefix rs in
    (Some (real_base, real_size), mkReservedSpace 0 0 0 (rs_alignment rs) false false)
  else (None, rs).

(** Protecting the pages below the heap of compressed oops; [noaccess] says whether
    compressed oops with a base and implicit null checks are in use. *)
Definition protect_noaccess_prefix (noaccess : bool) (rs : ReservedSpace) (size : Z)
    : option ReservedSpace :=
  check! Bool.eqb (negb (rs_noaccess_prefix rs =? 0)) (noaccess && negb (rs_base rs =? 0));
  if rs_noaccess_prefix rs =? 0 then Some rs else
  check! vm_page_size os <=? rs_noaccess_prefix rs;
  check! protect_memory os (rs_base rs) (rs_noaccess_prefix rs) (rs_special rs);
  let base := rs_base rs + rs_noaccess_prefix rs in
  let size' := wrap 64 (rs_size rs - rs_noaccess_prefix rs) in
  check! (size =? size') && (base mod rs_alignment rs =? 0);
  Some (mkReservedSpace base size' (rs_noaccess_prefix rs) (rs_alignment rs) (rs_special rs)
          (rs_executable rs)).

Definition ReservedHeapSpace (noaccess : bool) (size alignment : Z) (large : bool)
    (requested_address : Z) : option ReservedSpace :=
  prefix ← (if noaccess then lcm (vm_page_size os) alignment else Some 0);
  rs ← NewReservedSpaceAt size alignment large requested_address prefix;
  protect_noaccess_prefix noaccess rs size.
End System.

(** ** What the system promises *)

(** Page sizes are powers of two; every reservation starts at a page and lies in the
    address space; a special reservation is aligned as asked; releasing what was
    reserved succeeds. *)
Record os_ok (os : OS) (p g : Z) : Prop := {
  os_pages : 2 <= p <= g /\ g < 32;
  os_page_size : vm_page_size os = 2 ^ p;
  os_granularity : vm_allocation_granularity os = 2 ^ g;
  os_page_sizes : Forall (fun sz => exists k, p <= k < 32 /\ sz = 2 ^ k) (_page_sizes os);
  os_reserve : forall n a, let b := reserve_memory os n a in
    0 <= b /\ (b <> 0 -> b + n < 2 ^ 62 /\ b mod 2 ^ p = 0);
  os_attempt : forall n r, let b := attempt_reserve_memory_at os n r in
    0 <= b /\ (b <> 0 -> b + n < 2 ^ 62 /\ b mod 2 ^ p = 0);
  os_special : forall n a r e, let b := reserve_memory_special os n a r e in
    0 <= b /\ (b <> 0 -> b + n < 2 ^ 62 /\ b mod a = 0);
  os_release : forall b n, release_memory os b n = true;
  os_release_special : forall b n, release_memory_special os b n = true
}.

Lemma land_mask_mod x k : 0 <= k -> Z.land x (2 ^ k - 1) = x mod 2 ^ k.
Proof. intros. rewrite <- Z.land_ones, Z.ones_equiv by done. f_equal. Qed.

Lemma mod_weaken p q x : 0 <= p <= q -> x mod 2 ^ q = 0 -> x mod 2 ^ p = 0.
Proof.
  intros Hpq Hx. pose proof (pow2_pos p ltac:(lia)). pose proof (pow2_pos q ltac:(lia)).
  apply Z.mod_divide in Hx as [c Hc]; [| lia]. apply Z.mod_divide; [lia |].
  exists (c * 2 ^ (q - p)). rewrite Hc, <- Z.mul_assoc, <- Z.pow_add_r by lia. do 2 f_equal. lia.
Qed.

Lemma mod_add_0 x y k : x mod k = 0 -> y mod k = 0 -> (x + y) mod k = 0.
Proof. intros Hx Hy. rewrite Zplus_mod, Hx, Hy. apply Zmod_0_l. Qed.

(** The page size chosen for a region is a page size of the system, and not
    larger than the region. *)
Lemma page_size_for_region_spec os p g lo hi n :
  os_ok os p g -> 2 ^ p <= hi -> 0 < n ->
  exists k, p <= k < 32 /\ page_size_for_region os lo hi n = 2 ^ k /\ 2 ^ k <= hi.
Proof.
  intros Hos Hhi Hn. pose proof (os_pages _ _ _ Hos). pose proof (pow2_pos p ltac:(lia)).
  unfold page_size_for_region. destruct (UseLargePages os).
  2: { exists p. rewrite (os_page_size _ _ _ Hos). split_and!; auto; lia. }
  pose proof (os_page_sizes _ _ _ Hos) as Hsizes.
  induction (_page_sizes os) as [| sz sizes IH]; simpl.
  { exists p. rewrite (os_page_size _ _ _ Hos). split_and!; auto; lia. }
  apply Forall_cons in Hsizes as [(k & Hk & ->) Hsizes]. pose proof (pow2_pos k ltac:(lia)) as Hpk.
  destruct (Z.eqb_spec (2 ^ k) 0); [lia |].
  destruct ((Z.land lo (2 ^ k - 1) =? 0) && (Z.land hi (2 ^ k - 1) =? 0)) eqn:E.
  - exists k. split_and!; auto; try lia. apply andb_true_iff in E as [_ E]. apply Z.eqb_eq in E.
    rewrite land_mask_mod in E by lia. apply Z.mod_divide in E as [c Hc]; [| lia]. assert (0 < c) by nia. nia.
  - destruct (Z.leb_spec (2 ^ k) (hi / n)); [| by apply IH].
    exists k. split_and!; auto; try lia.
    assert (hi / n <= hi) by (apply Z.div_le_upper_bound; nia). lia.
Qed.

(** The round trip through the mark word that [initialize] asserts. *)
Lemma pointer_mark_roundtrip x : x mod 4 = 0 ->
  (MarkOop.decode_pointer true (MarkOop.encode_pointer_as_mark x) =? x) = true.
Proof.
  intros Hx. apply Z.eqb_eq.
  assert (Hp : Z.land x 3 = 0) by (change 3 with (2 ^ 2 - 1); by rewrite land_mask_mod).
  assert (E : Z.land (MarkOop.encode_pointer_as_mark x) 3 = 3) by MarkOop.low_bits Hp.
  unfold MarkOop.decode_pointer. rewrite MarkOop.has_bias_pattern_field.
  replace (MarkOop.field 0 3 _ =? 5) with false; [simpl; MarkOop.low_bits Hp |].
  symmetry. apply Z.eqb_neq. intros F. by rewrite (MarkOop.land_low _ 3), F in E by lia.
Qed.

(** What a reservation delivers. *)
Definition delivers (os : OS) (p g size requested prefix alignment : Z) (rs : ReservedSpace) : Prop :=
  (is_reserved rs = false -> rs_noaccess_prefix rs = 0 \/ exists n a, reserve_memory os n a = 0) /\
  (is_reserved rs = true ->
  0 < rs_base rs /\ rs_base rs + rs_size rs < 2 ^ 62 /\ rs_alignment rs = alignment /\
  rs_noaccess_prefix rs = prefix /\ (rs_base rs + prefix) mod alignment = 0 /\
  (rs_size rs = size \/ rs_size rs = align_size_up size alignment) /\
  (requested <> 0 -> rs_base rs = requested - prefix)).

Lemma reserve_memory_aligned_spec os p g size k :
  os_ok os p g -> 0 <= size < 2 ^ 61 -> size mod 2 ^ k = 0 -> g <= k < 60 ->
  exists b, reserve_memory_aligned os size (2 ^ k) = Some b /\ 0 <= b /\
    b mod 2 ^ k = 0 /\ b + size < 2 ^ 62 /\ (b = 0 -> exists n a, reserve_memory os n a = 0).
Proof.
  intros Hos Hsize Hmod Hk. pose proof (os_pages _ _ _ Hos). unfold reserve_memory_aligned.
  pose proof (pow2_pos k ltac:(lia)). pose proof (Z.pow_lt_mono_r 2 k 60 ltac:(lia) ltac:(lia)).
  rewrite (os_granularity _ _ _ Hos), !land_mask_mod by lia.
  rewrite (mod_weaken g k (2 ^ k)), Hmod by (try apply Z.mod_same; lia). cbn [Z.eqb].
  rewrite wrap_small by (unfold in_unsigned; lia). rewrite (proj2 (Z.leb_le _ _)) by lia.
  destruct (os_reserve _ _ _ Hos (size + 2 ^ k) (2 ^ k)) as (Hb & Ht).
  set (b := reserve_memory os _ _) in *.
  destruct (Z.eqb_spec b 0).
  { exists 0. split; [done |]. split; [lia |]. split; [apply Zmod_0_l |]. split; [lia | by eexists _, _]. }
  specialize (Ht ltac:(done)).
  eexists. split; [done |]. rewrite align_size_up_spec by lia.
  pose proof (Z.div_mod (b + 2 ^ k - 1) (2 ^ k) ltac:(lia)).
  pose proof (Z.mod_pos_bound (b + 2 ^ k - 1) (2 ^ k) ltac:(lia)).
  split_and!; [lia | apply Z.mod_mul; lia | lia | lia].
Qed.

Lemma failed_to_reserve_spec os p g b r n sp :
  os_ok os p g -> failed_to_reserve_as_requested os b r n sp =
    Some (negb ((b =? r) || (r =? 0))).
Proof.
  intros Hos. unfold failed_to_reserve_as_requested.
  rewrite (os_release _ _ _ Hos), (os_release_special _ _ _ Hos).
  destruct ((b =? r) || (r =? 0)); [done |]. destruct (negb (b =? 0)), sp; done.
Qed.

Lemma finish_reserved_spec rs :
  rs_base rs mod 4 = 0 -> rs_size rs mod 4 = 0 -> finish_reserved rs = Some rs.
Proof.
  intros Hb Hs. unfold finish_reserved. rewrite !pointer_mark_roundtrip; auto.
  by apply mod_add_0.
Qed.

Lemma align_up_mod size k : 0 <= k < 60 -> 0 <= size < 2 ^ 60 ->
  align_size_up size (2 ^ k) mod 2 ^ k = 0 /\ 0 <= align_size_up size (2 ^ k) < size + 2 ^ k.
Proof.
  intros Hk Hs. pose proof (pow2_pos k ltac:(lia)).
  pose proof (Z.pow_lt_mono_r 2 k 60 ltac:(lia) ltac:(lia)).
  rewrite align_size_up_spec by lia.
  pose proof (Z.div_mod (size + 2 ^ k - 1) (2 ^ k) ltac:(lia)).
  pose proof (Z.mod_pos_bound (size + 2 ^ k - 1) (2 ^ k) ltac:(lia)).
  split; [apply Z.mod_mul; lia | lia].
Qed.

(** The adjusted request: null exactly when none was made. *)
Definition adjusted (requested prefix req : Z) : Prop :=
  (requested = 0 <-> req = 0) /\ (requested <> 0 -> req = requested - prefix).

(** A reservation at [b], aligned after the prefix, of [n] bytes. *)
Lemma reservation_done os p g size requested prefix req k executable :
  adjusted requested prefix req -> 2 <= k -> prefix mod 2 ^ k = 0 ->
  forall b n sp, 0 <= b -> b mod 2 ^ k = 0 -> b + n < 2 ^ 62 -> n mod 4 = 0 ->
    n = size \/ n = align_size_up size (2 ^ k) -> (req = 0 \/ b = req \/ b = 0) ->
    (b = 0 -> exists n a, reserve_memory os n a = 0) ->
    exists rs, finish_reserved (mkReservedSpace b n prefix (2 ^ k) sp executable) = Some rs /\
      delivers os p g size requested prefix (2 ^ k) rs.
Proof.
  intros [Hr0 Hr1] Hk Hpre b n sp Hb Hbk Ht Hn4 Hn Hr Hnull. eexists. split.
  { apply finish_reserved_spec; [| done]. apply (mod_weaken 2 k); [lia | done]. }
  split.
  { intros Hres. right. apply Hnull. unfold is_reserved in Hres. simpl in Hres. lia. }
  intros Hres. unfold is_reserved in Hres. simpl in *. split_and!; auto; [lia | by apply mod_add_0 | lia].
Qed.

(** The regular reservation: at the requested address if there is one. *)
Lemma regular_reservation os p g size req a :
  os_ok os p g ->
  exists b, (if negb (req =? 0) then
      f ← failed_to_reserve_as_requested os (attempt_reserve_memory_at os size req) req size false;
      Some (if f : bool then 0 else attempt_reserve_memory_at os size req)
      else Some (reserve_memory os size a)) = Some b /\
    0 <= b /\ (b = 0 \/ b + size < 2 ^ 62 /\ b mod 2 ^ p = 0 /\ (req = 0 \/ b = req)).
Proof.
  intros Hos. destruct (Z.eqb_spec req 0); cbn [negb].
  - destruct (os_reserve _ _ _ Hos size a) as (? & ?). eexists. split; [done |]. lia.
  - rewrite (failed_to_reserve_spec _ _ _ _ _ _ _ Hos). cbn [mbind option_bind].
    destruct (os_attempt _ _ _ Hos size req) as (? & ?). eexists. split; [done |].
    destruct ((_ =? req) || (req =? 0)) eqn:E; cbn [negb]; lia.
Qed.

(** Reserving an address range, for every answer the system may give.  No assertion
    of [initialize] fails, and what is reserved is as asked. *)
Lemma initialize_reserved_spec os p g size alignment k large requested prefix executable :
  os_ok os p g -> 0 <= size < 2 ^ 59 -> size mod 2 ^ g = 0 ->
  alignment = 0 /\ k = p \/ alignment = 2 ^ k /\ g <= k < 59 ->
  prefix = 0 \/ prefix = 2 ^ k ->
  requested = 0 \/ prefix < requested ->
  exists rs, initialize_reserved os size alignment large requested prefix executable = Some rs /\
    delivers os p g size requested prefix (2 ^ k) rs.
Proof.
  intros Hos Hsize Hmod Hal Hpre Hreq. pose proof (os_pages _ _ _ Hos) as Hpg.
  assert (Hk : p <= k < 59) by lia.
  pose proof (pow2_pos k ltac:(lia)) as Hpk. pose proof (pow2_pos p ltac:(lia)) as Hpp.
  pose proof (Z.pow_le_mono_r 2 p k ltac:(lia) ltac:(lia)) as Hle.
  assert (HA : Z.land alignment (2 ^ g - 1) = 0 /\ (alignment =? 0) || is_power_of_2 alignment = true /\
    MAX2 alignment (2 ^ p) = 2 ^ k).
  { destruct Hal as [[-> ->] | [-> Hgk]].
    - split_and!; auto. rewrite MAX2_max. lia.
    - rewrite land_mask_mod, is_power_of_2_pow, orb_true_r, MAX2_pow, Z.max_l by lia. split_and!; auto.
      apply (mod_weaken g k); [lia |]. apply Z.mod_same. lia. }
  destruct HA as (HA1 & HA2 & HA3).
  unfold initialize_reserved. rewrite (os_granularity _ _ _ Hos), (os_page_size _ _ _ Hos).
  rewrite land_mask_mod, Hmod, HA1, HA2, HA3 by lia. cbn [Z.eqb].
  replace ((prefix =? 0) || (prefix =? 2 ^ k)) with true by lia.
  destruct (Z.eqb_spec size 0) as [E0 | Hs0]; [by eexists; split; [done | split; [left |]] |].
  set (req := if negb (requested =? 0) then requested - prefix else requested).
  assert (Hreq' : adjusted requested prefix req).
  { unfold adjusted, req. destruct (Z.eqb_spec requested 0); simpl; lia. }
  clearbody req.
  replace ((requested =? 0) || negb (req =? 0)) with true
    by (unfold adjusted in Hreq'; destruct (Z.eqb_spec requested 0), (Z.eqb_spec req 0); simpl; lia).
  assert (Hs4 : size mod 4 = 0) by (apply (mod_weaken 2 g); [lia | done]).
  assert (Hpre0 : prefix mod 2 ^ k = 0) by (destruct Hpre as [-> | ->]; [apply Zmod_0_l | apply Z.mod_same; lia]).
  pose proof (reservation_done os p g size requested prefix req k executable Hreq' ltac:(lia) Hpre0)
    as Hdone.
  assert (Hfail : exists rs, Some (mkReservedSpace 0 0 0 0 false executable) = Some rs /\
    delivers os p g size requested prefix (2 ^ k) rs) by (eexists; split; [done | by split; [left |]]).
  set (base := if large && _ then _ else 0).
  destruct (Z.eqb_spec base 0) as [Eb | Eb]; cbn [negb].
  2: { (* pinned in large pages *)
       assert (Hb : 0 <= base /\ base + size < 2 ^ 62 /\ base mod 2 ^ k = 0).
       { unfold base in *. destruct (large && _); [| done].
         destruct (os_special _ _ _ Hos size (2 ^ k) req executable) as [? H]. specialize (H Eb). lia. }
       rewrite (failed_to_reserve_spec _ _ _ _ _ _ _ Hos). cbn [mbind option_bind].
       destruct ((base =? req) || (req =? 0)) eqn:E; cbn [negb]; [| done].
       rewrite (proj2 (proj2 Hb)). apply Hdone; [apply Hb | apply Hb | apply Hb | done | by left | lia | done]. }
  clear base Eb.
  destruct (regular_reservation os p g size req (2 ^ k) Hos) as (b & -> & Hb & Hb').
  cbn [mbind option_bind].
  destruct (Z.eqb_spec b 0) as [-> | Hb0]; [done |].
  destruct Hb' as [| (Hbt & Hbp & Hbr)]; [lia |].
  rewrite land_mask_mod by lia. destruct (Z.eqb_spec ((b + prefix) mod 2 ^ k) 0) as [Emod | Emod]; cbn [negb].
  - apply Hdone; auto; [| lia | done].
    rewrite Zplus_mod, Hpre0, Z.add_0_r, Zmod_mod in Emod. done.
  - (* not aligned: give it back and reserve with alignment *)
    assert (Hgk : g <= k).
    { destruct Hal as [[_ ->] | [_ ?]]; [| lia]. destruct Emod. by apply mod_add_0. }
    destruct (align_up_mod size k ltac:(lia) ltac:(lia)) as [Hup Hupr].
    pose proof (Z.pow_lt_mono_r 2 k 59 ltac:(lia) ltac:(lia)).
    rewrite (os_release _ _ _ Hos).
    destruct (reserve_memory_aligned_spec os p g (align_size_up size (2 ^ k)) k Hos ltac:(lia) Hup ltac:(lia))
      as (b' & -> & Hb'0 & Hb'k & Hb't & Hb'n). cbn [mbind option_bind].
    assert (Hn4 : align_size_up size (2 ^ k) mod 4 = 0) by (apply (mod_weaken 2 k); [lia | done]).
    destruct (Z.eqb_spec req 0) as [Er | Er]; cbn [negb mbind option_bind].
    + apply Hdone; auto.
    + rewrite (failed_to_reserve_spec _ _ _ _ _ _ _ Hos). cbn [mbind option_bind].
      destruct ((b' =? req) || (req =? 0)) eqn:E; cbn [negb]; [| done]. apply Hdone; auto. lia.
Qed.

(** A system with 4K pages that hands out addresses at 64K and offers no large
    pages. *)
Definition sample_os : OS :=
  mkOS 4096 4096 false [] false false
    (fun n _ => if n <? 2 ^ 61 then 65536 else 0) (fun _ _ _ _ => 0) (fun _ _ => 0)
    (fun _ _ => true) (fun _ _ => true) (fun _ _ _ => true) (fun _ _ => true) (fun _ _ => true).

Lemma sample_os_ok : os_ok sample_os 12 12.
Proof.
  constructor; simpl; auto; try lia; intros n a.
  - destruct (Z.ltb_spec n (2 ^ 61)); split; try lia. intros _. split; [lia | done].
Qed.

(** The two parts of a space are adjacent and together make up the space; and
    what a heap space gives back when it is released is the whole range that was
    reserved, prefix included, although its base was moved past the prefix. *)
Theorem parts_and_release_correct os rs n alignment size rs' :
  0 <= n <= rs_size rs -> n mod vm_allocation_granularity os = 0 ->
  (rs_size rs - n) mod vm_allocation_granularity os = 0 ->
  0 <= rs_noaccess_prefix rs <= rs_size rs -> rs_size rs < 2 ^ 64 ->
  protect_noaccess_prefix os true rs size = Some rs' -> is_reserved rs' = true ->
  rs_noaccess_prefix rs <> 0 ->
  (exists first last, first_part os rs n alignment = Some first /\
    last_part os rs n alignment = Some last /\
    rs_base first = rs_base rs /\ rs_base first + rs_size first = rs_base last /\
    rs_base last + rs_size last = rs_base rs + rs_size rs) /\
  rs_size rs' = size /\ rs_base rs' mod rs_alignment rs = 0 /\
  (release_reserved rs').1 = Some (rs_base rs, rs_size rs) /\
  is_reserved (release_reserved rs').2 = false.
Proof.
  intros Hn Hg1 Hg2 Hpre Hsz Hprot Hres Hne. split.
  - unfold first_part, last_part, ReservedSpaceOf.
    rewrite (proj2 (Z.leb_le n (rs_size rs))), Hg1, Hg2 by lia.
    eexists _, _. split; [done |]. split; [done |]. simpl. lia.
  - unfold protect_noaccess_prefix in Hprot.
    destruct (Bool.eqb _ _); [| done].
    destruct (Z.eqb_spec (rs_noaccess_prefix rs) 0); [done |].
    destruct (vm_page_size os <=? _); [| done]. destruct (protect_memory os _ _ _); [| done].
    rewrite wrap_small in Hprot by (unfold in_unsigned; lia).
    destruct (Z.eqb_spec size (rs_size rs - rs_noaccess_prefix rs)) as [-> |]; [| done].
    destruct (Z.eqb_spec ((rs_base rs + rs_noaccess_prefix rs) mod rs_alignment rs) 0); [| done].
    injection Hprot as <-. unfold release_reserved. rewrite Hres. simpl. split_and!; auto.
    do 2 f_equal; lia.
Qed.

Lemma parts_and_release_correct_witness :
  exists rs', protect_noaccess_prefix sample_os true (mkReservedSpace 65536 20480 4096 4096 false false) 16384
    = Some rs' /\ (release_reserved rs').1 = Some (65536, 20480).
Proof.
  eexists. split; [vm_compute; reflexivity |].
  apply (parts_and_release_correct sample_os (mkReservedSpace 65536 20480 4096 4096 false false)
    8192 4096 16384); first [done | simpl; lia].
Defined.

Lemma gcd_pow2 a b : 0 <= a <= b -> Z.gcd (2 ^ b) (2 ^ a) = 2 ^ a.
Proof.
  intros Hab. pose proof (pow2_pos a ltac:(lia)). rewrite Z.gcd_comm.
  apply Z.divide_gcd_iff; [lia |]. exists (2 ^ (b - a)). rewrite <- Z.pow_add_r by lia. f_equal. lia.
Qed.

Lemma lcm_pow2 p k : 0 <= p <= k -> k < 32 -> lcm (2 ^ p) (2 ^ k) = Some (2 ^ k).
Proof.
  intros Hpk Hk. pose proof (pow2_pos p ltac:(lia)) as Hp. pose proof (pow2_pos k ltac:(lia)).
  pose proof (Z.pow_lt_mono_r 2 k 32 ltac:(lia) ltac:(lia)). pose proof (Z.pow_le_mono_r 2 p k ltac:(lia) ltac:(lia)).
  unfold lcm. rewrite MAX2_max, MIN2_min, Z.max_r, Z.min_l by lia.
  destruct (Z.eqb_spec (2 ^ p) 0); [lia |]. rewrite lcm_loop_spec, gcd_pow2 by lia. cbn [mbind option_bind].
  unfold julong. rewrite (wrap_small 64 (2 ^ p)), wrap_small by (unfold in_unsigned; nia).
  f_equal. rewrite Z.mul_comm. apply Z.div_mul. lia.
Qed.



(** When the second, aligned reservation is refused, [initialize] goes on as if it
    had succeeded: the space is not reserved but has a size and a prefix, and
    constructing a heap space from it fails the assertion of
    [protect_noaccess_prefix] instead of reporting the failure. *)
Theorem refused_retry_not_reported :
  exists os, os_ok os 12 12 /\
    (exists rs, initialize_reserved os (2 ^ 21) (2 ^ 20) false 0 (2 ^ 20) false = Some rs /\
      is_reserved rs = false /\ rs_size rs = 2 ^ 21 /\ rs_noaccess_prefix rs = 2 ^ 20) /\
    ReservedHeapSpace os true (2 ^ 20) (2 ^ 20) false 0 = None.
Proof.
  exists (mkOS 4096 4096 false [] false false
    (fun n _ => if n <=? 2 ^ 21 then 65536 else 0) (fun _ _ _ _ => 0) (fun _ _ => 0)
    (fun _ _ => true) (fun _ _ => true) (fun _ _ _ => true) (fun _ _ => true) (fun _ _ => true)).
  split; [| split].
  - constructor; simpl; auto; try lia; intros n a.
    destruct (Z.leb_spec n (2 ^ 21)); split; try lia. intros _. split; [lia | done].
  - eexists. split; [vm_compute; reflexivity |]. by vm_compute.
  - by vm_compute.
Qed.

End ReservedSpace.
