(* ===== verification/VirtualSpace.v ===== *)
(** Committed and reserved memory: [runtime/virtualspace.cpp].  A space is a range
    of reserved addresses of which a growing prefix is usable; the prefix is
    committed in three regions, the middle one in large pages. *)
From S2P Require Import Prelude GlobalDefinitions ReservedSpace.
Import GlobalDefinitions ReservedSpace.

Module VirtualSpace.

(** [char*] values are addresses. *)
Record VirtualSpace : Set := mkVirtualSpace {
  _low_boundary : Z;
  _high_boundary : Z;
  _low : Z;
  _high : Z;
  _special : bool;
  _executable : bool;
  _lower_high : Z;
  _middle_high : Z;
  _upper_high : Z;
  _lower_high_boundary : Z;
  _middle_high_boundary : Z;
  _upper_high_boundary : Z;
  _lower_alignment : Z;
  _middle_alignment : Z;
  _upper_alignment : Z
}.

Definition empty_space : VirtualSpace :=
  mkVirtualSpace 0 0 0 0 false false 0 0 0 0 0 0 0 0 0.

Definition release (vs : VirtualSpace) : VirtualSpace := empty_space.

(** Functional updates of the fields the operations assign. *)
Definition set_high (vs : VirtualSpace) (h : Z) : VirtualSpace :=
  mkVirtualSpace (_low_boundary vs) (_high_boundary vs) (_low vs) h (_special vs) (_executable vs)
    (_lower_high vs) (_middle_high vs) (_upper_high vs) (_lower_high_boundary vs)
    (_middle_high_boundary vs) (_upper_high_boundary vs) (_lower_alignment vs)
    (_middle_alignment vs) (_upper_alignment vs).
Definition set_regions (vs : VirtualSpace) (l m u : Z) : VirtualSpace :=
  mkVirtualSpace (_low_boundary vs) (_high_boundary vs) (_low vs) (_high vs) (_special vs)
    (_executable vs) l m u (_lower_high_boundary vs)
    (_middle_high_boundary vs) (_upper_high_boundary vs) (_lower_alignment vs)
    (_middle_alignment vs) (_upper_alignment vs).

(** [size_t] results are modulo 2^64. *)
Definition pointer_delta (left right : Z) : Z := wrap 64 (left - right).

Definition committed_size (vs : VirtualSpace) : Z := pointer_delta (_high vs) (_low vs).
Definition reserved_size (vs : VirtualSpace) : Z :=
  pointer_delta (_high_boundary vs) (_low_boundary vs).
Definition uncommitted_size (vs : VirtualSpace) : Z :=
  wrap 64 (reserved_size vs - committed_size vs).
Definition actual_committed_size (vs : VirtualSpace) : Z :=
  if _special vs then reserved_size vs else
  let committed_low := pointer_delta (_lower_high vs) (_low_boundary vs) in
  let committed_middle := pointer_delta (_middle_high vs) (_lower_high_boundary vs) in
  let committed_high := pointer_delta (_upper_high vs) (_middle_high_boundary vs) in
  wrap 64 (committed_low + committed_middle + committed_high).
Definition contains (vs : VirtualSpace) (p : Z) : bool := (_low vs <=? p) && (p <? _high vs).

(** The conditions asserted by [check_for_contiguity]. *)
Definition check_for_contiguity (vs : VirtualSpace) : bool :=
  (_low_boundary vs <=? _lower_high vs) && (_lower_high vs <=? _lower_high_boundary vs) &&
  (_lower_high_boundary vs <=? _middle_high vs) && (_middle_high vs <=? _middle_high_boundary vs) &&
  (_middle_high_boundary vs <=? _upper_high vs) && (_upper_high vs <=? _upper_high_boundary vs) &&
  (_low_boundary vs <=? _low vs) && (_low_boundary vs <=? _lower_high_boundary vs) &&
  (_upper_high_boundary vs <=? _high_boundary vs) && (_high vs <=? _upper_high vs).

Section Operations.
(** The system calls: [os::commit_memory(addr, bytes)] and
    [os::uncommit_memory(addr, bytes)] answer whether they succeeded. *)
Context (commit_memory uncommit_memory : Z -> Z -> bool).

Definition needs (above below : Z) : Z :=
  if below <? above then pointer_delta above below else 0.

(** Commit one region: the new high of the region, or failure. *)
Definition commit_region (high need : Z) : option Z :=
  if 0 <? need then if negb (commit_memory high need) then None else Some (high + need)
  else Some high.

Definition expand_by (vs : VirtualSpace) (bytes : Z) : bool * VirtualSpace :=
  if uncommitted_size vs <? bytes then (false, vs) else
  if _special vs then (true, set_high vs (_high vs + bytes)) else
  let unaligned_new_high := _high vs + bytes in
  let unaligned_lower_new_high := MIN2 unaligned_new_high (_lower_high_boundary vs) in
  let unaligned_middle_new_high := MIN2 unaligned_new_high (_middle_high_boundary vs) in
  let unaligned_upper_new_high := MIN2 unaligned_new_high (_upper_high_boundary vs) in
  let aligned_lower_new_high := round_to unaligned_lower_new_high (_lower_alignment vs) in
  let aligned_middle_new_high := round_to unaligned_middle_new_high (_middle_alignment vs) in
  let aligned_upper_new_high := round_to unaligned_upper_new_high (_upper_alignment vs) in
  let lower_needs := needs aligned_lower_new_high (_lower_high vs) in
  let middle_needs := needs aligned_middle_new_high (_middle_high vs) in
  let upper_needs := needs aligned_upper_new_high (_upper_high vs) in
  match commit_region (_lower_high vs) lower_needs with
  | None => (false, vs)
  | Some l =>
      let vs := set_regions vs l (_middle_high vs) (_upper_high vs) in
      match commit_region (_middle_high vs) middle_needs with
      | None => (false, vs)
      | Some m =>
          let vs := set_regions vs l m (_upper_high vs) in
          match commit_region (_upper_high vs) upper_needs with
          | None => (false, vs)
          | Some u => let vs := set_regions vs l m u in
                      (true, set_high vs (_high vs + bytes))
          end
      end
  end.

Definition initialize_with_granularity (vm_page_size : Z) (rs : ReservedSpace)
    (committed_size max_commit_granularity : Z) : bool * VirtualSpace :=
  if negb (is_reserved rs) then (false, empty_space) else
  let low_boundary := rs_base rs in
  let high_boundary := low_boundary + rs_size rs in
  let lower_high_boundary := round_to low_boundary max_commit_granularity in
  let middle_high_boundary := round_down high_boundary max_commit_granularity in
  let vs := mkVirtualSpace low_boundary high_boundary low_boundary low_boundary
              (rs_special rs) (rs_executable rs)
              low_boundary lower_high_boundary middle_high_boundary
              lower_high_boundary middle_high_boundary high_boundary
              vm_page_size max_commit_granularity vm_page_size in
  if 0 <? committed_size then expand_by vs committed_size else (true, vs).

(** Give one region back: the new high of the region, or failure. *)
Definition uncommit_region (new_high high need : Z) : option Z :=
  if 0 <? need then if negb (uncommit_memory new_high need) then None else Some (high - need)
  else Some high.

(** [None] is the [fatal] error. *)
Definition shrink_by (vs : VirtualSpace) (size : Z) : option VirtualSpace :=
  if committed_size vs <? size then None else
  if _special vs then Some (set_high vs (_high vs - size)) else
  let unaligned_new_high := _high vs - size in
  let unaligned_upper_new_high := MAX2 unaligned_new_high (_middle_high_boundary vs) in
  let unaligned_middle_new_high := MAX2 unaligned_new_high (_lower_high_boundary vs) in
  let unaligned_lower_new_high := MAX2 unaligned_new_high (_low_boundary vs) in
  let aligned_upper_new_high := round_to unaligned_upper_new_high (_upper_alignment vs) in
  let aligned_middle_new_high := round_to unaligned_middle_new_high (_middle_alignment vs) in
  let aligned_lower_new_high := round_to unaligned_lower_new_high (_lower_alignment vs) in
  let upper_needs := needs (_upper_high vs) aligned_upper_new_high in
  let middle_needs := needs (_middle_high vs) aligned_middle_new_high in
  let lower_needs := needs (_lower_high vs) aligned_lower_new_high in
  match uncommit_region aligned_upper_new_high (_upper_high vs) upper_needs with
  | None => Some vs
  | Some u =>
      let vs := set_regions vs (_lower_high vs) (_middle_high vs) u in
      match uncommit_region aligned_middle_new_high (_middle_high vs) middle_needs with
      | None => Some vs
      | Some m =>
          let vs := set_regions vs (_lower_high vs) m u in
          match uncommit_region aligned_lower_new_high (_lower_high vs) lower_needs with
          | None => Some vs
          | Some l => let vs := set_regions vs l m u in
                      Some (set_high vs (_high vs - size))
          end
      end
  end.
End Operations.

Definition initialize (os : OS) (rs : ReservedSpace) (committed_size : Z) : bool * VirtualSpace :=
  let max_commit_granularity := page_size_for_region os (rs_size rs) (rs_size rs) 1 in
  initialize_with_granularity (commit_memory os) (vm_page_size os) rs committed_size
    max_commit_granularity.

(** ** Correctness *)

Definition aligned (a x : Z) : Prop := x mod a = 0.

(** The invariant: the regions are in order and aligned, and a region is in use
    only when the regions below it are committed entirely. *)
Record wf (vs : VirtualSpace) : Prop := {
  wf_pages : exists p m, 0 <= p <= m /\ m < 62 /\
    _lower_alignment vs = 2 ^ p /\ _upper_alignment vs = 2 ^ p /\ _middle_alignment vs = 2 ^ m;
  wf_low : _low vs = _low_boundary vs;
  wf_upper : _upper_high_boundary vs = _high_boundary vs;
  wf_order : 0 <= _low_boundary vs <= _lower_high_boundary vs /\
    _lower_high_boundary vs <= _middle_high_boundary vs <= _high_boundary vs;
  wf_top : _high_boundary vs < 2 ^ 62;
  wf_high : _low_boundary vs <= _high vs <= _high_boundary vs;
  wf_lower : _low_boundary vs <= _lower_high vs <= _lower_high_boundary vs;
  wf_middle : _lower_high_boundary vs <= _middle_high vs <= _middle_high_boundary vs;
  wf_upper_high : _middle_high_boundary vs <= _upper_high vs <= _high_boundary vs;
  wf_aligned : aligned (_lower_alignment vs) (_low_boundary vs) /\
    aligned (_middle_alignment vs) (_lower_high_boundary vs) /\
    aligned (_middle_alignment vs) (_middle_high_boundary vs) /\
    aligned (_upper_alignment vs) (_high_boundary vs);
  wf_fill :
    (_lower_high_boundary vs < _middle_high vs -> _lower_high vs = _lower_high_boundary vs) /\
    (_middle_high_boundary vs < _upper_high vs ->
      _lower_high vs = _lower_high_boundary vs /\ _middle_high vs = _middle_high_boundary vs)
}.

(** Every address of [[low, high)] is in the committed part of its region; a
    special space is committed as a whole. *)
Definition covered (vs : VirtualSpace) : Prop :=
  _special vs = true \/
  forall x, _low vs <= x < _high vs ->
    _low_boundary vs <= x < _lower_high vs \/
    _lower_high_boundary vs <= x < _middle_high vs \/
    _middle_high_boundary vs <= x < _upper_high vs.

(** The assertions of [actual_committed_size]. *)
Definition committed_asserts (vs : VirtualSpace) : bool :=
  let committed_low := pointer_delta (_lower_high vs) (_low_boundary vs) in
  let committed_middle := pointer_delta (_middle_high vs) (_lower_high_boundary vs) in
  let committed_high := pointer_delta (_upper_high vs) (_middle_high_boundary vs) in
  let lower := pointer_delta (_lower_high_boundary vs) (_low_boundary vs) in
  let middle := pointer_delta (_middle_high_boundary vs) (_lower_high_boundary vs) in
  implb (0 <? committed_high) ((committed_low =? lower) && (committed_middle =? middle)) &&
  implb (0 <? committed_middle) (committed_low =? lower) &&
  implb (committed_middle <? middle) (committed_high =? 0) &&
  implb (committed_low <? lower) ((committed_high =? 0) && (committed_middle =? 0)).

Lemma round_to_spec x k :
  0 <= k < 62 -> 0 <= x < 2 ^ 62 ->
  round_to x (2 ^ k) = (x + 2 ^ k - 1) / 2 ^ k * 2 ^ k.
Proof.
  intros Hk Hx. unfold round_to, mask_bits, intptr_t. pose proof (pow2_pos k ltac:(lia)).
  pose proof (Z.pow_lt_mono_r 2 k 62 ltac:(lia) ltac:(lia)).
  rewrite swrap_small; [| lia | unfold in_signed; change (64 - 1) with 63; lia].
  rewrite land_lnot_ones by lia. do 2 f_equal. lia.
Qed.

(** [round_to] is the least multiple that is not below. *)
Lemma round_to_bounds x k :
  0 <= k < 62 -> 0 <= x < 2 ^ 62 ->
  x <= round_to x (2 ^ k) < x + 2 ^ k /\ aligned (2 ^ k) (round_to x (2 ^ k)) /\
  forall y, aligned (2 ^ k) y -> x <= y -> round_to x (2 ^ k) <= y.
Proof.
  intros Hk Hx. rewrite round_to_spec by done. pose proof (pow2_pos k ltac:(lia)) as Hp.
  pose proof (Z.div_mod (x + 2 ^ k - 1) (2 ^ k) ltac:(lia)).
  pose proof (Z.mod_pos_bound (x + 2 ^ k - 1) (2 ^ k) Hp).
  split; [lia |]. split; [unfold aligned; apply Z.mod_mul; lia |].
  intros y Hy Hxy. unfold aligned in Hy.
  pose proof (Z.div_mod y (2 ^ k) ltac:(lia)).
  assert ((x + 2 ^ k - 1) / 2 ^ k <= y / 2 ^ k); [| nia].
  apply Z.lt_succ_r, Z.div_lt_upper_bound; [done | nia].
Qed.

Lemma aligned_weaken p m x : 0 <= p <= m -> aligned (2 ^ m) x -> aligned (2 ^ p) x.
Proof.
  intros Hpm Hx. unfold aligned in *. apply Z.mod_divide in Hx; [| apply Z.pow_nonzero; lia].
  apply Z.mod_divide; [apply Z.pow_nonzero; lia |].
  etransitivity; [| exact Hx]. exists (2 ^ (m - p)). rewrite <- Z.pow_add_r by lia. f_equal. lia.
Qed.

(** Coverage in terms of the three highs. *)
Definition covered_highs (vs : VirtualSpace) : Prop :=
  Z.min (_high vs) (_lower_high_boundary vs) <= _lower_high vs /\
  Z.min (_high vs) (_middle_high_boundary vs) <= _middle_high vs /\
  _high vs <= _upper_high vs.

Lemma covered_iff vs : wf vs -> covered vs <-> _special vs = true \/ covered_highs vs.
Proof.
  intros []. unfold covered, covered_highs. split.
  - intros [Hs | Hc]; [by left | right].
    destruct (decide (_high vs = _low_boundary vs)); [lia |].
    repeat split.
    + specialize (Hc (Z.min (_high vs) (_lower_high_boundary vs) - 1)). lia.
    + specialize (Hc (Z.min (_high vs) (_middle_high_boundary vs) - 1)). lia.
    + specialize (Hc (_high vs - 1)). lia.
  - intros [Hs | Hc]; [by left | right]. lia.
Qed.

Lemma pointer_delta_small a b : 0 <= b <= a -> a < 2 ^ 63 -> pointer_delta a b = a - b.
Proof. intros. apply wrap_small. unfold in_unsigned. lia. Qed.

(** The region's new high, once its request to the system succeeded. *)
Lemma needs_above above below :
  0 <= below < 2 ^ 63 -> 0 <= above < 2 ^ 63 -> needs above below = Z.max 0 (above - below).
Proof.
  intros. unfold needs. destruct (Z.ltb_spec below above); [rewrite pointer_delta_small |]; lia.
Qed.

Lemma commit_region_spec commit high need h :
  commit_region commit high (Z.max 0 (need - high)) = Some h -> h = Z.max high need.
Proof.
  unfold commit_region. destruct (Z.ltb_spec 0 (Z.max 0 (need - high))); [destruct (negb _) |];
    intros [=]; lia.
Qed.

Lemma uncommit_region_spec uncommit new_high high need h :
  uncommit_region uncommit new_high high (Z.max 0 (high - need)) = Some h -> h = Z.min high need.
Proof.
  unfold uncommit_region. destruct (Z.ltb_spec 0 (Z.max 0 (high - need))); [destruct (negb _) |]; intros [=]; lia.
Qed.

(** One region's bounds under rounding: all the facts of [round_to_bounds] that
    the order of the region boundaries needs. *)
Lemma round_region x k hi :
  0 <= k < 62 -> 0 <= x -> x <= hi -> hi < 2 ^ 62 -> aligned (2 ^ k) hi ->
  x <= round_to x (2 ^ k) <= hi /\ round_to x (2 ^ k) < x + 2 ^ k.
Proof.
  intros Hk Hx Hhi Htop Hal. pose proof (round_to_bounds x k Hk ltac:(lia)) as (? & _ & Hle).
  specialize (Hle hi Hal Hhi). lia.
Qed.

(** Where [expand_by] wants the three highs for a new high [A]. *)
Lemma expand_targets vs A p m :
  wf vs -> _low_boundary vs <= A <= _high_boundary vs -> 0 <= p <= m -> m < 62 ->
  _lower_alignment vs = 2 ^ p -> _upper_alignment vs = 2 ^ p -> _middle_alignment vs = 2 ^ m ->
  let rl := round_to (Z.min A (_lower_high_boundary vs)) (2 ^ p) in
  let rm := round_to (Z.min A (_middle_high_boundary vs)) (2 ^ m) in
  let ru := round_to (Z.min A (_high_boundary vs)) (2 ^ p) in
  Z.min A (_lower_high_boundary vs) <= rl <= _lower_high_boundary vs /\
  Z.min A (_middle_high_boundary vs) <= rm <= _middle_high_boundary vs /\
  (A <= _lower_high_boundary vs -> rm <= _lower_high_boundary vs) /\
  A <= ru <= _high_boundary vs /\
  (A <= _middle_high_boundary vs -> ru <= _middle_high_boundary vs).
Proof.
  intros [] HA Hp Hm El Eu Em rl rm ru. rewrite El, Eu, Em in *.
  destruct wf_aligned0 as (_ & Hl & Hmi & Hu).
  pose proof (aligned_weaken p m _ Hp Hl). pose proof (aligned_weaken p m _ Hp Hmi).
  assert (Hru : ru = round_to A (2 ^ p)) by (unfold ru; by rewrite Z.min_l by lia).
  assert (Hrm : A <= _lower_high_boundary vs -> rm = round_to A (2 ^ m))
    by (intros; unfold rm; by rewrite Z.min_l by lia).
  rewrite Hru.
  split; [by (eapply round_region; [| | | | eassumption]; lia) |].
  split; [by (eapply round_region; [| | | | eassumption]; lia) |].
  split; [intros HAl; rewrite Hrm by done; by (eapply round_region; [| | | | eassumption]; lia) |].
  split; [by (eapply round_region; [| | | | eassumption]; lia) |].
  intros HAm. by (eapply round_region; [| | | | eassumption]; lia).
Qed.

Lemma wf_update vs l m u h :
  wf vs ->
  _low_boundary vs <= h <= _high_boundary vs ->
  _low_boundary vs <= l <= _lower_high_boundary vs ->
  _lower_high_boundary vs <= m <= _middle_high_boundary vs ->
  _middle_high_boundary vs <= u <= _high_boundary vs ->
  (_lower_high_boundary vs < m -> l = _lower_high_boundary vs) ->
  (_middle_high_boundary vs < u -> l = _lower_high_boundary vs /\ m = _middle_high_boundary vs) ->
  wf (set_high (set_regions vs l m u) h).
Proof. intros [] ??????. by constructor. Qed.

(** The same for a state that also covers its range. *)
Lemma covered_update vs l m u h :
  wf vs ->
  _low_boundary vs <= h <= _high_boundary vs ->
  Z.max (_low_boundary vs) (Z.min h (_lower_high_boundary vs)) <= l <= _lower_high_boundary vs ->
  Z.max (_lower_high_boundary vs) (Z.min h (_middle_high_boundary vs)) <= m <=
    _middle_high_boundary vs ->
  Z.max (_middle_high_boundary vs) h <= u <= _high_boundary vs ->
  (_lower_high_boundary vs < m -> l = _lower_high_boundary vs) ->
  (_middle_high_boundary vs < u -> l = _lower_high_boundary vs /\ m = _middle_high_boundary vs) ->
  wf (set_high (set_regions vs l m u) h) /\ covered (set_high (set_regions vs l m u) h).
Proof.
  intros Hwf Hh Hl Hm Hu Hf1 Hf2.
  assert (wf (set_high (set_regions vs l m u) h)) by (apply wf_update; auto; lia).
  split; [done |]. apply covered_iff; [done |]. right. unfold covered_highs. simpl. lia.
Qed.

Lemma set_high_id vs : set_high vs (_high vs) = vs.
Proof. by destruct vs. Qed.
Lemma set_regions_id vs : set_regions vs (_lower_high vs) (_middle_high vs) (_upper_high vs) = vs.
Proof. by destruct vs. Qed.
Lemma set_regions_twice vs l m u l' m' u' :
  set_regions (set_regions vs l m u) l' m' u' = set_regions vs l' m' u'.
Proof. done. Qed.

Lemma sizes vs :
  wf vs -> committed_size vs = _high vs - _low_boundary vs /\
  reserved_size vs = _high_boundary vs - _low_boundary vs /\
  uncommitted_size vs = _high_boundary vs - _high vs.
Proof.
  intros []. unfold uncommitted_size, committed_size, reserved_size.
  rewrite wf_low0, !pointer_delta_small by lia. repeat split.
  rewrite wrap_small; unfold in_unsigned; lia.
Qed.

(** The states [expand_by] may end in: the regions that were committed reach
    their targets, and [high] moves only when all of them do. *)
Lemma expand_update vs A rl rm ru l m u h :
  wf vs -> covered_highs vs -> _high vs <= A <= _high_boundary vs ->
  Z.min A (_lower_high_boundary vs) <= rl <= _lower_high_boundary vs ->
  Z.min A (_middle_high_boundary vs) <= rm <= _middle_high_boundary vs ->
  (A <= _lower_high_boundary vs -> rm <= _lower_high_boundary vs) ->
  A <= ru <= _high_boundary vs ->
  (A <= _middle_high_boundary vs -> ru <= _middle_high_boundary vs) ->
  l = Z.max (_lower_high vs) rl ->
  m = _middle_high vs /\ u = _upper_high vs /\ h = _high vs \/
  m = Z.max (_middle_high vs) rm /\
    (u = _upper_high vs /\ h = _high vs \/ u = Z.max (_upper_high vs) ru /\ h = A) ->
  wf (set_high (set_regions vs l m u) h) /\ covered (set_high (set_regions vs l m u) h).
Proof.
  intros Hwf (Hc1 & Hc2 & Hc3) HA Hrl Hrm Hrm' Hru Hru' Hl Hmu.
  pose proof Hwf as [_ _ _ Ho _ Hh Hlo Hmi Hup _ [Hf1 Hf2]].
  assert (Hl1 : Z.min A (_lower_high_boundary vs) <= l <= _lower_high_boundary vs)
    by (clear - Hl Hrl Hlo; lia).
  assert (Hl2 : _lower_high_boundary vs < _middle_high vs \/ _lower_high_boundary vs < rm ->
    l = _lower_high_boundary vs) by (clear - Hl Hf1 Hrl Hrm' Hlo; lia).
  assert (Hmin : h <= A) by (clear - Hmu HA; lia).
  assert (Hm1 : _lower_high_boundary vs <= m <= _middle_high_boundary vs)
    by (clear - Hmu Hmi Hrm; lia).
  assert (Hm2 : Z.min h (_middle_high_boundary vs) <= m) by (clear - Hmu Hc2 Hrm; lia).
  assert (Hm3 : _lower_high_boundary vs < m ->
    _lower_high_boundary vs < _middle_high vs \/ _lower_high_boundary vs < rm)
    by (clear - Hmu; lia).
  assert (Hu1 : Z.max (_middle_high_boundary vs) h <= u <= _high_boundary vs)
    by (clear - Hmu Hc3 Hup Hru; lia).
  assert (Hu2 : _middle_high_boundary vs < u ->
    l = _lower_high_boundary vs /\ m = _middle_high_boundary vs).
  { intros Hu. assert (_middle_high_boundary vs < _upper_high vs \/ _middle_high_boundary vs < A)
      as [Hx | Hx] by (clear - Hmu Hu Hru'; lia).
    - specialize (Hf2 Hx). clear - Hf2 Hl Hrl Hmu Hrm. lia.
    - assert (_middle_high_boundary vs < _upper_high vs \/ h = A)
        as [Hy | ->] by (clear - Hmu Hu; lia);
        [specialize (Hf2 Hy); clear - Hf2 Hl Hrl Hmu Hrm; lia |].
      clear - Hx Hl1 Hm1 Hm2 Ho. lia. }
  apply covered_update; [done | clear - HA Hh Hmin Hmu; lia | | | done | auto | done];
    clear - Hl1 Hlo Hl Hmin Hm1 Hm2; lia.
Qed.

Lemma commit_region_grants commit h n :
  (forall a b, commit a b = true) -> commit_region commit h n <> None.
Proof. intros Hc. unfold commit_region. rewrite Hc. by destruct (0 <? n). Qed.
Lemma uncommit_region_grants uncommit a h n :
  (forall a b, uncommit a b = true) -> uncommit_region uncommit a h n <> None.
Proof. intros Hc. unfold uncommit_region. rewrite Hc. by destruct (0 <? n). Qed.

(** Expansion.  For every behaviour of the system's commit call,
    [expand_by] keeps the region invariant and never loses coverage; it moves
    [high] by exactly [bytes] when it answers true and leaves [high] alone when
    it answers false; and it answers true whenever the request fits the
    reservation and the system grants it. *)
Lemma expand_by_spec commit vs bytes :
  wf vs -> covered vs -> 0 <= bytes < 2 ^ 64 ->
  let '(ok, vs') := expand_by commit vs bytes in
  wf vs' /\ covered vs' /\
  _high vs' = (if ok then _high vs + bytes else _high vs) /\
  (ok = true -> bytes <= uncommitted_size vs) /\
  (bytes <= uncommitted_size vs -> (forall a n, commit a n = true) -> ok = true).
Proof.
  intros Hwf Hcov Hb. unfold expand_by. pose proof (sizes vs Hwf) as (_ & _ & Hun).
  destruct (Z.ltb_spec (uncommitted_size vs) bytes); [split_and!; auto; lia |].
  pose proof Hwf as [Hpages ??????????]. destruct Hpages as (p & m & Hp & Hm & El & Eu & Em).
  destruct (_special vs) eqn:Hs.
  { split; [| split_and!; auto; by left].
    rewrite <- (set_regions_id vs) at 1. apply wf_update; auto; lia. }
  apply covered_iff in Hcov; [| done]. destruct Hcov as [| Hcov]; [congruence |].
  pose proof (expand_targets vs (_high vs + bytes) p m Hwf ltac:(lia) Hp Hm El Eu Em) as HT.
  rewrite !MIN2_min, wf_upper0, El, Eu, Em. revert HT.
  set (rl := round_to _ _). set (rm := round_to _ _). set (ru := round_to _ _).
  clearbody rl rm ru. cbn zeta. intros HT. rewrite !needs_above by lia.
  pose proof (commit_region_grants commit) as Hall. unfold covered_highs in Hcov. cbn [_middle_high _upper_high set_regions].
  destruct HT as (Hrl & Hrm & Hrm' & Hru & Hru').
  assert (HS : forall l m u h, _ -> _ -> wf (set_high (set_regions vs l m u) h) /\
      covered (set_high (set_regions vs l m u) h))
    by (intros l mi u h; apply (expand_update vs (_high vs + bytes) rl rm ru); auto; lia).
  destruct (commit_region commit (_lower_high vs) _) as [l |] eqn:Hl;
    [apply commit_region_spec in Hl |].
  2: { split_and!; auto; [apply covered_iff; auto | intros; by edestruct Hall]. }
  destruct (commit_region commit (_middle_high vs) _) as [mi |] eqn:Hmi;
    [apply commit_region_spec in Hmi |].
  2: { apply and_assoc. split; [| split_and!; [done.. | intros; by edestruct Hall]].
       rewrite <- (set_high_id (set_regions _ _ _ _)). by apply HS; [| left]. }
  rewrite !set_regions_twice.
  destruct (commit_region commit (_upper_high vs) _) as [u |] eqn:Hu;
    [apply commit_region_spec in Hu |].
  2: { apply and_assoc. split; [| split_and!; [done.. | intros; by edestruct Hall]].
       rewrite <- (set_high_id (set_regions _ _ _ _)).
       apply HS; [done | right; split; [done | by left]]. }
  apply and_assoc. split; [| done].
  apply HS; [done | right; split; [done | by right]].
Qed.

(** Where [shrink_by] wants the three highs for a new high [B]. *)
Lemma shrink_targets vs B p m :
  wf vs -> _low_boundary vs <= B <= _high_boundary vs -> 0 <= p <= m -> m < 62 ->
  _lower_alignment vs = 2 ^ p -> _upper_alignment vs = 2 ^ p -> _middle_alignment vs = 2 ^ m ->
  let tu := round_to (Z.max B (_middle_high_boundary vs)) (2 ^ p) in
  let tm := round_to (Z.max B (_lower_high_boundary vs)) (2 ^ m) in
  let tl := round_to (Z.max B (_low_boundary vs)) (2 ^ p) in
  (Z.max B (_middle_high_boundary vs) <= tu /\ tu < Z.max B (_middle_high_boundary vs) + 2 ^ p /\
    (B <= _middle_high_boundary vs -> tu <= _middle_high_boundary vs)) /\
  (Z.max B (_lower_high_boundary vs) <= tm /\ tm < Z.max B (_lower_high_boundary vs) + 2 ^ m /\
    (B <= _lower_high_boundary vs -> tm <= _lower_high_boundary vs)) /\
  (B <= tl < B + 2 ^ p) /\ 2 ^ p <= 2 ^ m /\ tu < 2 ^ 63 /\ tm < 2 ^ 63 /\ tl < 2 ^ 63.
Proof.
  intros [] HB Hp Hm El Eu Em tu tm tl. rewrite El, Eu, Em in *.
  destruct wf_aligned0 as (_ & Hl & Hmi & Hu). pose proof (aligned_weaken p m _ Hp Hmi) as Hmi'.
  pose proof (Z.pow_le_mono_r 2 p m ltac:(lia) ltac:(lia)) as Hpm.
  pose proof (Z.pow_lt_mono_r 2 m 62 ltac:(lia) ltac:(lia)) as Hm62.
  pose proof (round_to_bounds (Z.max B (_middle_high_boundary vs)) p ltac:(lia) ltac:(lia))
    as (Hu1 & _ & Hu2).
  pose proof (round_to_bounds (Z.max B (_lower_high_boundary vs)) m ltac:(lia) ltac:(lia))
    as (Hm1 & _ & Hm2).
  pose proof (round_to_bounds (Z.max B (_low_boundary vs)) p ltac:(lia) ltac:(lia))
    as (Hl1 & _ & _).
  fold tu in Hu1, Hu2. fold tm in Hm1, Hm2. fold tl in Hl1. clearbody tu tm tl.
  split_and!; try lia; intros; [apply Hu2 | apply Hm2]; auto; lia.
Qed.

(** The states [shrink_by] may end in. *)
Lemma shrink_update vs B tl tm tu l m u h :
  wf vs -> _low_boundary vs <= B <= _high vs ->
  Z.max B (_middle_high_boundary vs) <= tu ->
  (B <= _middle_high_boundary vs -> tu <= _middle_high_boundary vs) ->
  Z.max B (_lower_high_boundary vs) <= tm ->
  (B <= _lower_high_boundary vs -> tm <= _lower_high_boundary vs) -> B <= tl ->
  u = Z.min (_upper_high vs) tu ->
  m = _middle_high vs /\ l = _lower_high vs /\ h = _high vs \/
  m = Z.min (_middle_high vs) tm /\
    (l = _lower_high vs /\ h = _high vs \/ l = Z.min (_lower_high vs) tl /\ h = B) ->
  wf (set_high (set_regions vs l m u) h).
Proof.
  intros Hwf HB Htu Htu' Htm Htm' Htl Hu Hml.
  pose proof Hwf as [_ _ _ Ho _ Hh Hlo Hmi Hup _ [Hf1 Hf2]].
  assert (Hl1 : l = _lower_high vs \/ l = Z.min (_lower_high vs) tl) by (clear - Hml; lia).
  assert (Hm1 : m = _middle_high vs \/ m = Z.min (_middle_high vs) tm) by (clear - Hml; lia).
  apply wf_update; [done | clear - Hml Hh HB; lia | clear - Hl1 Hlo HB Htl; lia
    | clear - Hm1 Hmi Htm; lia | clear - Hu Hup Htu; lia | |].
  - clear - Hml Hf1 Htm' Htl Hm1 Hl1. lia.
  - intros Hx. assert (_middle_high_boundary vs < B) by (clear - Hx Hu Htu'; lia).
    specialize (Hf2 ltac:(clear - Hx Hu; lia)). clear - Hf2 Hl1 Hm1 H Htl Htm Ho. lia.
Qed.

Lemma actual_committed_size_spec vs :
  wf vs -> _special vs = false ->
  actual_committed_size vs = (_lower_high vs - _low_boundary vs) +
    (_middle_high vs - _lower_high_boundary vs) + (_upper_high vs - _middle_high_boundary vs).
Proof.
  intros [] Hs. unfold actual_committed_size. rewrite Hs, !pointer_delta_small by lia.
  rewrite wrap_small; unfold in_unsigned; lia.
Qed.

(** After a complete shrink the regions cover the new range with less than one
    large page to spare. *)
Lemma shrink_tight vs B tl tm tu l m u p q :
  wf vs -> _special vs = false -> _low_boundary vs <= B <= _high vs -> 2 ^ p <= 2 ^ q ->
  tu < Z.max B (_middle_high_boundary vs) + 2 ^ p ->
  (B <= _middle_high_boundary vs -> tu <= _middle_high_boundary vs) ->
  tm < Z.max B (_lower_high_boundary vs) + 2 ^ q ->
  (B <= _lower_high_boundary vs -> tm <= _lower_high_boundary vs) -> tl < B + 2 ^ p ->
  u = Z.min (_upper_high vs) tu -> m = Z.min (_middle_high vs) tm ->
  l = Z.min (_lower_high vs) tl ->
  wf (set_high (set_regions vs l m u) B) ->
  actual_committed_size (set_high (set_regions vs l m u) B) <
  committed_size (set_high (set_regions vs l m u) B) + 2 ^ q.
Proof.
  intros Hwf Hs HB Hpq Htu Htu' Htm Htm' Htl Hu Hm Hl Hwf'.
  rewrite actual_committed_size_spec by done. rewrite (proj1 (sizes _ Hwf')). simpl.
  destruct Hwf as [_ _ _ Ho _ Hh Hlo Hmi Hup _ _]. clear Hwf'.
  generalize dependent (2 ^ p). generalize dependent (2 ^ q). intros P Q HPQ Htm Htl.
  destruct (Z.le_gt_cases B (_lower_high_boundary vs)) as [H1 | H1];
    [specialize (Htm' H1); specialize (Htu' ltac:(lia)); lia |].
  destruct (Z.le_gt_cases B (_middle_high_boundary vs)) as [H2 | H2];
    [specialize (Htu' H2); lia | lia].
Qed.

(** Shrinking.  A request within the committed size keeps the region
    invariant whatever the system answers, and moves [high] by the whole size or
    not at all.  When the system takes the memory back, [high] does move, every
    address below it stays committed, and less than one large page stays
    committed beyond what is used.  A larger request is the fatal error. *)
Lemma shrink_by_spec uncommit vs size :
  wf vs -> 0 <= size ->
  (committed_size vs < size -> shrink_by uncommit vs size = None) /\
  (size <= committed_size vs -> exists vs',
    shrink_by uncommit vs size = Some vs' /\ wf vs' /\
    (_high vs' = _high vs \/ _high vs' = _high vs - size) /\
    ((forall a n, uncommit a n = true) ->
      _high vs' = _high vs - size /\ (covered vs -> covered vs') /\
      (_special vs = false ->
        actual_committed_size vs' < committed_size vs' + _middle_alignment vs'))).
Proof.
  intros Hwf Hsize. unfold shrink_by. pose proof (sizes vs Hwf) as (Hcs & _ & _).
  split; intros Hle; [by rewrite (proj2 (Z.ltb_lt _ _) Hle) |].
  rewrite (proj2 (Z.ltb_ge _ _) Hle).
  pose proof Hwf as [Hpages ??????????]. destruct Hpages as (p & q & Hp & Hq & El & Eu & Em).
  destruct (_special vs) eqn:Hs.
  { eexists; split; [done |]. split; [| split; [by right | intros _; split_and!; [done | by left | done]]].
    rewrite <- (set_regions_id vs) at 1. apply wf_update; auto; lia. }
  pose proof (shrink_targets vs (_high vs - size) p q Hwf ltac:(lia) Hp Hq El Eu Em) as HT.
  rewrite !MAX2_max, El, Eu, Em. revert HT.
  set (tu := round_to _ _). set (tm := round_to _ _). set (tl := round_to _ _).
  clearbody tu tm tl. cbn zeta.
  intros ((Hu1 & Hu2 & Hu3) & (Hm1 & Hm2 & Hm3) & Hl1 & Hpq & Hbig).
  rewrite !needs_above by lia.
  pose proof (uncommit_region_grants uncommit) as Hall.
  cbn [_middle_high _lower_high set_regions].
  assert (HS : forall l m u h, _ -> _ -> wf (set_high (set_regions vs l m u) h))
    by (intros l m u h; apply (shrink_update vs (_high vs - size) tl tm tu); auto; lia).
  destruct (uncommit_region uncommit _ (_upper_high vs) _) as [u |] eqn:Hu;
    [apply uncommit_region_spec in Hu |].
  2: { eexists; split_and!; [done.. | auto | intros; by edestruct Hall]. }
  destruct (uncommit_region uncommit _ (_middle_high vs) _) as [m |] eqn:Hm;
    [apply uncommit_region_spec in Hm |].
  2: { eexists; split_and!; [done | | auto | intros; by edestruct Hall].
       rewrite <- (set_high_id (set_regions _ _ _ _)). by apply HS; [| left]. }
  rewrite !set_regions_twice.
  destruct (uncommit_region uncommit _ (_lower_high vs) _) as [l |] eqn:Hl;
    [apply uncommit_region_spec in Hl |].
  2: { eexists; split_and!; [done | | auto | intros; by edestruct Hall].
       rewrite <- (set_high_id (set_regions _ _ _ _)).
       apply HS; [done | right; split; [done | by left]]. }
  assert (Hw : wf (set_high (set_regions vs l m u) (_high vs - size)))
    by (apply HS; [done | right; split; [done | by right]]).
  eexists; split_and!; [done | done | by right | intros _; split_and!; [done | |]].
  - rewrite !covered_iff by done. intros [Hc | Hc]; [by left | right].
    unfold covered_highs in *. simpl. clear - Hc Hu Hm Hl Hu1 Hm1 Hl1 Hsize. lia.
  - intros _. change (_middle_alignment (set_high _ _)) with (_middle_alignment vs). rewrite Em.
    apply (shrink_tight vs (_high vs - size) tl tm tu _ _ _ p q); auto; lia.
Qed.

Lemma round_down_spec x k : 0 <= k -> round_down x (2 ^ k) = x / 2 ^ k * 2 ^ k.
Proof. intros. unfold round_down, mask_bits. by rewrite land_lnot_ones. Qed.

(** The state [initialize_with_granularity] builds before it commits anything. *)
Lemma initial_wf base size special exec p m :
  0 <= p <= m -> m < 62 -> 0 <= base -> 2 ^ m <= size -> base + size < 2 ^ 62 ->
  aligned (2 ^ p) base -> aligned (2 ^ p) size ->
  let lhb := round_to base (2 ^ m) in
  let mhb := round_down (base + size) (2 ^ m) in
  let vs := mkVirtualSpace base (base + size) base base special exec base lhb mhb
              lhb mhb (base + size) (2 ^ p) (2 ^ m) (2 ^ p) in
  wf vs /\ covered vs.
Proof.
  intros Hp Hm Hb Hsz Htop Hab Has lhb mhb vs.
  pose proof (round_to_bounds base m ltac:(lia) ltac:(lia)) as (Hlhb & Hal & _).
  fold lhb in Hlhb, Hal.
  assert (Hmhb : mhb = (base + size) / 2 ^ m * 2 ^ m) by (apply round_down_spec; lia).
  pose proof (pow2_pos m ltac:(lia)) as Hpos.
  pose proof (Z.div_mod (base + size) (2 ^ m) ltac:(lia)).
  pose proof (Z.mod_pos_bound (base + size) (2 ^ m) Hpos).
  assert (Ham : aligned (2 ^ m) mhb) by (rewrite Hmhb; apply Z.mod_mul; lia).
  assert (lhb <= mhb).
  { unfold aligned in Hal. pose proof (Z.div_mod lhb (2 ^ m) ltac:(lia)).
    assert (lhb / 2 ^ m <= (base + size) / 2 ^ m); [| nia].
    apply Z.div_le_mono; [done | lia]. }
  clearbody lhb mhb. unfold vs. split; [| by right; simpl; lia].
  constructor; simpl; try done; try lia.
  - exists p, m. split_and!; done || lia.
  - unfold aligned in *. split_and!; auto. rewrite Z.add_mod, Hab, Has by (apply Z.pow_nonzero; lia).
    apply Z.mod_0_l, Z.pow_nonzero; lia.
Qed.

(** The debug assertions hold of every well-formed, covered state. *)
Lemma wf_asserts vs :
  wf vs -> covered vs -> _special vs = false ->
  check_for_contiguity vs = true /\ committed_asserts vs = true.
Proof.
  intros Hwf Hc Hs. apply covered_iff in Hc; [| done]. destruct Hc as [| (_ & _ & Hc)]; [congruence |].
  destruct Hwf as [_ ? ? Ho ? ? Hl Hm Hu _ [Hf1 Hf2]].
  split; [unfold check_for_contiguity; lia |].
  unfold committed_asserts. rewrite !pointer_delta_small by lia.
  rewrite !andb_true_iff, !implb_true_iff, !andb_true_iff, !Z.ltb_lt, !Z.eqb_eq. lia.
Qed.

(** ** Histories of a space *)

(** The operations a client makes, with what the system answers to each. *)
Inductive op : Type :=
  | Expand (commit : Z -> Z -> bool) (bytes : Z)
  | Shrink (size : Z).

(** The space with a system that always takes memory back. *)
Definition run_op (vs : VirtualSpace) (o : op) : option VirtualSpace :=
  match o with
  | Expand commit bytes => Some (expand_by commit vs bytes).2
  | Shrink size => shrink_by (fun _ _ => true) vs size
  end.

(** The abstract machine: a counter of usable bytes below a capacity. *)
Inductive spec_op (capacity used : Z) : op -> Z -> Prop :=
  | spec_expand commit bytes :
      used + bytes <= capacity -> spec_op capacity used (Expand commit bytes) (used + bytes)
  | spec_expand_full commit bytes :
      capacity < used + bytes -> spec_op capacity used (Expand commit bytes) used
  | spec_expand_refused commit bytes :
      ~ (forall a n, commit a n = true) -> spec_op capacity used (Expand commit bytes) used
  | spec_shrink size : size <= used -> spec_op capacity used (Shrink size) (used - size).

Inductive history {A} (next : A -> op -> A -> Prop) : A -> list op -> A -> Prop :=
  | history_nil a : history next a [] a
  | history_cons a o b ops c : next a o b -> history next b ops c -> history next a (o :: ops) c.

Definition op_ok (o : op) : Prop :=
  match o with Expand _ n | Shrink n => 0 <= n < 2 ^ 64 end.

(** No operation moves the reservation. *)
Definition same_reservation (vs vs' : VirtualSpace) : Prop :=
  _low_boundary vs' = _low_boundary vs /\ _high_boundary vs' = _high_boundary vs /\
  _special vs' = _special vs.

Lemma expand_same_reservation commit vs bytes :
  same_reservation vs (expand_by commit vs bytes).2.
Proof. unfold expand_by. repeat case_match; done. Qed.
Lemma shrink_same_reservation uncommit vs size vs' :
  shrink_by uncommit vs size = Some vs' -> same_reservation vs vs'.
Proof. unfold shrink_by. repeat case_match; intros [= <-]; done. Qed.

Lemma run_op_refines vs o vs' :
  wf vs -> covered vs -> op_ok o -> run_op vs o = Some vs' ->
  wf vs' /\ covered vs' /\ same_reservation vs vs' /\
  spec_op (reserved_size vs) (committed_size vs) o (committed_size vs').
Proof.
  intros Hwf Hc Hok Hrun. pose proof (sizes vs Hwf) as (Hcs & Hrs & Hus).
  destruct o as [commit bytes | size]; cbn [run_op op_ok] in *.
  - pose proof (expand_by_spec commit vs bytes Hwf Hc Hok) as HE.
    pose proof (expand_same_reservation commit vs bytes) as HR.
    destruct (expand_by commit vs bytes) as [ok vs1]. injection Hrun as <-. simpl in HR.
    destruct HE as (Hwf' & Hc' & Hh & Hfit & Htotal). split_and!; auto.
    pose proof (sizes vs1 Hwf') as (-> & _ & _). rewrite (proj1 HR), Hh, Hcs.
    destruct ok.
    + replace (_high vs + bytes - _low_boundary vs) with (_high vs - _low_boundary vs + bytes) by lia.
      constructor. lia.
    + destruct (Z.le_gt_cases bytes (uncommitted_size vs)) as [Hle | Hgt];
        [apply spec_expand_refused | apply spec_expand_full; lia].
      intros Hall. by specialize (Htotal Hle Hall).
  - pose proof (shrink_by_spec (fun _ _ => true) vs size Hwf ltac:(lia)) as [Hf Hs].
    destruct (Z.le_gt_cases size (committed_size vs)) as [Hle | Hgt];
      [| rewrite Hf in Hrun by lia; done].
    destruct (Hs Hle) as (vs1 & E & Hwf' & _ & Hg). rewrite E in Hrun. injection Hrun as <-.
    destruct (Hg ltac:(done)) as (Hh & Hcov & _).
    pose proof (shrink_same_reservation _ _ _ _ E) as HR.
    split_and!; auto. pose proof (sizes vs1 Hwf') as (-> & _ & _). rewrite (proj1 HR), Hh.
    replace (_high vs - size - _low_boundary vs) with (committed_size vs - size) by lia.
    by constructor.
Qed.

Lemma reserved_size_same vs vs' : same_reservation vs vs' -> reserved_size vs' = reserved_size vs.
Proof. intros (Hl & Hh & _). unfold reserved_size. by rewrite Hl, Hh. Qed.

Lemma history_refines vs ops vs' :
  wf vs -> covered vs -> Forall op_ok ops ->
  history (fun a o b => run_op a o = Some b) vs ops vs' ->
  wf vs' /\ covered vs' /\ same_reservation vs vs' /\
  history (spec_op (reserved_size vs)) (committed_size vs) ops (committed_size vs').
Proof.
  intros Hwf Hc Hops H. induction H as [vs | vs o vs1 ops vs' Hstep _ IH].
  - split_and!; auto; [repeat split | constructor].
  - apply Forall_cons in Hops as [Ho Hops].
    destruct (run_op_refines vs o vs1 Hwf Hc Ho Hstep) as (Hwf1 & Hc1 & HR & Hsp).
    destruct (IH Hwf1 Hc1 Hops) as (? & ? & HR' & Hh).
    rewrite (reserved_size_same _ _ HR) in Hh. split_and!; auto.
    + destruct HR as (? & ? & ?), HR' as (? & ? & ?). repeat split; congruence.
    + by econstructor.
Qed.

(** What a successful initialization establishes. *)
Lemma initialize_spec commit p m rs size vs :
  0 <= p <= m -> m < 62 -> 0 <= size < 2 ^ 64 ->
  0 <= rs_base rs -> 2 ^ m <= rs_size rs -> rs_base rs + rs_size rs < 2 ^ 62 ->
  aligned (2 ^ p) (rs_base rs) -> aligned (2 ^ p) (rs_size rs) ->
  initialize_with_granularity commit (2 ^ p) rs size (2 ^ m) = (true, vs) ->
  wf vs /\ covered vs /\ committed_size vs = size /\ reserved_size vs = rs_size rs /\
  _low_boundary vs = rs_base rs /\ _special vs = rs_special rs.
Proof.
  intros Hp Hm Hsz Hb Hrs Htop Hab Has Hinit. unfold initialize_with_granularity in Hinit.
  destruct (negb (is_reserved rs)); [done |].
  pose proof (initial_wf (rs_base rs) (rs_size rs) (rs_special rs) (rs_executable rs) p m
    Hp Hm Hb Hrs Htop Hab Has) as [Hwfi Hci].
  set (vsi := mkVirtualSpace _ _ _ _ _ _ _ _ _ _ _ _ _ _ _) in *.
  assert (H0 : wf vs /\ covered vs /\ same_reservation vsi vs /\ committed_size vs = size).
  { destruct (Z.ltb_spec 0 size).
    - pose proof (expand_by_spec commit vsi size Hwfi Hci Hsz) as HE.
      pose proof (expand_same_reservation commit vsi size) as HR. rewrite Hinit in HE, HR.
      simpl in HR. destruct HE as (Hwf0 & Hc0 & Hh0 & _). split_and!; auto.
      rewrite (proj1 (sizes _ Hwf0)), Hh0, (proj1 HR). simpl. lia.
    - injection Hinit as <-. split_and!; auto; [repeat split |].
      rewrite (proj1 (sizes _ Hwfi)). simpl. lia. }
  destruct H0 as (Hwf & Hc & HR & Hcs). split_and!; auto; [| by destruct HR | by destruct HR as (_ & _ & ->)].
  rewrite (proj1 (proj2 (sizes _ Hwf))). destruct HR as (-> & -> & _). simpl. lia.
Qed.


Definition refuse_above (limit : Z) (addr bytes : Z) : bool := addr + bytes <=? limit.

(** Sixteen small pages of 16 bytes, large pages of 64 bytes, a reservation that
    starts and ends inside a large page; one expansion is refused by the system. *)
Definition sample_reservation : ReservedSpace := mkReservedSpace 4144 256 0 16 false false.
Definition sample_initial : VirtualSpace :=
  (initialize_with_granularity (fun _ _ => true) (2 ^ 4) sample_reservation 100 (2 ^ 6)).2.
Definition sample_ops : list op :=
  [Expand (fun _ _ => true) 50; Expand (refuse_above 4352) 100; Shrink 120; Expand (fun _ _ => true) 1000].
Definition sample_final : VirtualSpace :=
  match foldl (fun v o => v ≫= fun vs => run_op vs o) (Some sample_initial) sample_ops with
  | Some vs => vs
  | None => empty_space
  end.


(** [shrink_by] returns early when the system refuses to take one region back,
    without moving [high]; if a region above was already given back, addresses
    below [high] are no longer committed. *)
Theorem shrink_partial_failure_uncovers :
  exists uncommit vs vs',
    wf vs /\ covered vs /\ shrink_by uncommit vs 150 = Some vs' /\ _high vs' = _high vs /\
    ~ covered vs'.
Proof.
  let v := eval vm_compute in (expand_by (fun _ _ => true) sample_initial 150).2 in
  pose (vs := v).
  exists (fun a _ => 4352 <=? a), vs. eexists. split_and!; [| | vm_compute; reflexivity | done |].
  - unfold vs. constructor; simpl; try done; try lia. exists 4, 6. split_and!; done || lia.
  - right. simpl. lia.
  - intros [Hs | Hc]; [done |]. specialize (Hc 4360 ltac:(simpl; lia)). simpl in Hc. lia.
Qed.

End VirtualSpace.
