(* ===== verification/CodeHeap.v ===== *)
(** The code heap, [memory/heap.cpp]: blocks of whole segments in one reserved
    space, a byte map that finds the start of the block around an address, and an
    address-ordered free list threaded through the free blocks. *)
From stdpp Require Import gmap.
From S2P Require Import Prelude GlobalDefinitions ReservedSpace VirtualSpace.
Import GlobalDefinitions ReservedSpace VirtualSpace.
Local Open Scope Z_scope.

Module CodeHeap.

(** [HeapBlock::Header] and [FreeBlock]; a null pointer is [None]. *)
Record FreeBlock : Set := mkFreeBlock {
  _length : Z;
  _used : bool;
  _link : option Z
}.

Definition set_length (b : FreeBlock) (l : Z) : FreeBlock := mkFreeBlock l (_used b) (_link b).
Definition set_used (b : FreeBlock) : FreeBlock := mkFreeBlock (_length b) true (_link b).
Definition set_free (b : FreeBlock) : FreeBlock := mkFreeBlock (_length b) false (_link b).
Definition set_link (b : FreeBlock) (p : option Z) : FreeBlock :=
  mkFreeBlock (_length b) (_used b) p.
(** [HeapBlock::initialize]. *)
Definition initialize (b : FreeBlock) (length : Z) : FreeBlock := set_used (set_length b length).
Definition free (b : FreeBlock) : bool := negb (_used b).

(** [sizeof(HeapBlock)] and [sizeof(FreeBlock)] on LP64. *)
Definition header_size : Z := 16.
Definition sizeof_FreeBlock : Z := 24.
Definition allocated_space (p : Z) : Z := p + header_size.

(** The object, with the headers found in the block memory ([blocks], by
    address) and the bytes of the segment map ([segmap_bytes], from
    [_segmap.low()] on). *)
Record CodeHeap : Set := mkCodeHeap {
  _memory : VirtualSpace;
  _segmap : VirtualSpace;
  _number_of_committed_segments : Z;
  _number_of_reserved_segments : Z;
  _segment_size : Z;
  _log2_segment_size : Z;
  _next_segment : Z;
  _freelist : option Z;
  _freelist_segments : Z;
  blocks : gmap Z FreeBlock;
  segmap_bytes : list Z
}.

Definition with_blocks (h : CodeHeap) (m : gmap Z FreeBlock) : CodeHeap :=
  mkCodeHeap (_memory h) (_segmap h) (_number_of_committed_segments h)
    (_number_of_reserved_segments h) (_segment_size h) (_log2_segment_size h)
    (_next_segment h) (_freelist h) (_freelist_segments h) m (segmap_bytes h).
Definition with_bytes (h : CodeHeap) (bs : list Z) : CodeHeap :=
  mkCodeHeap (_memory h) (_segmap h) (_number_of_committed_segments h)
    (_number_of_reserved_segments h) (_segment_size h) (_log2_segment_size h)
    (_next_segment h) (_freelist h) (_freelist_segments h) (blocks h) bs.
Definition with_freelist (h : CodeHeap) (p : option Z) (n : Z) : CodeHeap :=
  mkCodeHeap (_memory h) (_segmap h) (_number_of_committed_segments h)
    (_number_of_reserved_segments h) (_segment_size h) (_log2_segment_size h)
    (_next_segment h) p n (blocks h) (segmap_bytes h).
Definition with_next_segment (h : CodeHeap) (n : Z) : CodeHeap :=
  mkCodeHeap (_memory h) (_segmap h) (_number_of_committed_segments h)
    (_number_of_reserved_segments h) (_segment_size h) (_log2_segment_size h)
    n (_freelist h) (_freelist_segments h) (blocks h) (segmap_bytes h).
Definition with_memory (h : CodeHeap) (vs : VirtualSpace) (committed : Z) : CodeHeap :=
  mkCodeHeap vs (_segmap h) committed
    (_number_of_reserved_segments h) (_segment_size h) (_log2_segment_size h)
    (_next_segment h) (_freelist h) (_freelist_segments h) (blocks h) (segmap_bytes h).
(** Newly committed map memory reads as zero. *)
Definition with_segmap (h : CodeHeap) (vs : VirtualSpace) : CodeHeap :=
  mkCodeHeap (_memory h) vs (_number_of_committed_segments h)
    (_number_of_reserved_segments h) (_segment_size h) (_log2_segment_size h)
    (_next_segment h) (_freelist h) (_freelist_segments h) (blocks h)
    (segmap_bytes h ++
      replicate (Z.to_nat (committed_size vs) - length (segmap_bytes h)) 0%Z).

(** [CodeHeap::CodeHeap]. *)
Definition new_CodeHeap : CodeHeap :=
  mkCodeHeap empty_space empty_space 0 0 0 0 0 None 0 ∅ [].

(** Dereferencing a block pointer.  A header never written reads as zero. *)
Definition block (h : CodeHeap) (p : Z) : FreeBlock :=
  default (mkFreeBlock 0 false None) (blocks h !! p).
Definition update (h : CodeHeap) (p : Z) (f : FreeBlock -> FreeBlock) : CodeHeap :=
  with_blocks h (<[p := f (block h p)]> (blocks h)).

(** A failed assertion ends the run. *)
Notation "'assert!' b ; k" := (if b then k else None) (at level 10, b at level 100, k at level 200).

Definition size_to_segments (h : CodeHeap) (size : Z) : Z :=
  Z.shiftr (wrap 64 (size + _segment_size h - 1)) (_log2_segment_size h).
Definition segments_to_size (h : CodeHeap) (number_of_segments : Z) : Z :=
  wrap 64 (Z.shiftl number_of_segments (_log2_segment_size h)).
Definition segment_for (h : CodeHeap) (p : Z) : Z :=
  Z.shiftr (p - _low (_memory h)) (_log2_segment_size h).
Definition block_at (h : CodeHeap) (i : Z) : Z :=
  _low (_memory h) + Z.shiftl i (_log2_segment_size h).

Definition low_boundary (h : CodeHeap) : Z := _low_boundary (_memory h).
Definition high (h : CodeHeap) : Z := _high (_memory h).
Definition high_boundary (h : CodeHeap) : Z := _high_boundary (_memory h).
Definition contains (h : CodeHeap) (p : Z) : bool := (low_boundary h <=? p) && (p <? high h).

(** The [while (p < q)] loops over the segment map, [n] the number of bytes
    between the pointers. *)
Fixpoint fill_free (n : nat) (p : nat) (bs : list Z) : list Z :=
  match n with
  | O => bs
  | S n => fill_free n (S p) (<[p := 255]> bs)
  end.

Fixpoint fill_used (n : nat) (p : nat) (i : Z) (bs : list Z) : list Z :=
  match n with
  | O => bs
  | S n =>
      let bs := <[p := u_char i]> bs in
      let i := i + 1 in
      fill_used n (S p) (if i =? 255 then 1 else i) bs
  end.

Definition interval_ok (h : CodeHeap) (beg end_ : Z) : bool :=
  (0 <=? beg) && (beg <? _number_of_committed_segments h) &&
  (beg <? end_) && (end_ <=? _number_of_committed_segments h).

Definition mark_segmap_as_free (h : CodeHeap) (beg end_ : Z) : option CodeHeap :=
  assert! interval_ok h beg end_;
  Some (with_bytes h (fill_free (Z.to_nat (end_ - beg)) (Z.to_nat beg) (segmap_bytes h))).

Definition mark_segmap_as_used (h : CodeHeap) (beg end_ : Z) : option CodeHeap :=
  assert! interval_ok h beg end_;
  Some (with_bytes h (fill_used (Z.to_nat (end_ - beg)) (Z.to_nat beg) 0 (segmap_bytes h))).

Definition clear (h : CodeHeap) : option CodeHeap :=
  let h := with_next_segment h 0 in
  mark_segmap_as_free h 0 (_number_of_committed_segments h).

(** ** Finding and walking blocks *)

(** [while (b[i] > 0) i -= (int)b[i];] with enough fuel to count [i] down; a read
    outside the map fails. *)
Fixpoint find_start_loop (fuel : nat) (bs : list Z) (i : Z) : option Z :=
  match fuel with
  | O => None
  | S fuel =>
      if i <? 0 then None else
      v ← bs !! Z.to_nat i;
      if 0 <? v then find_start_loop fuel bs (i - v) else Some i
  end.

(** The outer option is the failure, the inner one the returned pointer. *)
Definition find_start (h : CodeHeap) (p : Z) : option (option Z) :=
  if negb (contains h p) then Some None else
  let i := segment_for h p in
  v ← segmap_bytes h !! Z.to_nat i;
  if v =? 255 then Some None else
  i ← find_start_loop (Z.to_nat i + 1) (segmap_bytes h) i;
  let b := block_at h i in
  if free (block h b) then Some None else Some (Some (allocated_space b)).

Definition alignment_unit (h : CodeHeap) : Z := _segment_size h.
Definition alignment_offset (h : CodeHeap) : Z := Z.land header_size (_segment_size h - 1).

Definition next_block (h : CodeHeap) (b : option Z) : option Z :=
  match b with
  | None => None
  | Some b =>
      let i := segment_for h b + _length (block h b) in
      if i <? _next_segment h then Some (block_at h i) else None
  end.

Definition next_free (h : CodeHeap) (b : option Z) : option (option Z) :=
  let b := match b with
           | Some p => if free (block h p) then next_block h b else b
           | None => b
           end in
  match b with
  | None => Some None
  | Some p => assert! negb (free (block h p)); Some (Some (allocated_space p))
  end.

Definition first_block (h : CodeHeap) : option Z :=
  if 0 <? _next_segment h then Some (block_at h 0) else None.

Definition block_start (h : CodeHeap) (q : Z) : option (option Z) :=
  r ← find_start h q;
  Some (match r with None => None | Some b => Some (b - header_size) end).

Definition first (h : CodeHeap) : option (option Z) := next_free h (first_block h).
Definition next (h : CodeHeap) (p : Z) : option (option Z) :=
  b ← block_start h p;
  next_free h (next_block h b).

Definition capacity (h : CodeHeap) : Z := committed_size (_memory h).
Definition max_capacity (h : CodeHeap) : Z := reserved_size (_memory h).
Definition allocated_capacity (h : CodeHeap) : Z :=
  segments_to_size h (wrap 64 (_next_segment h - _freelist_segments h)).
Definition unallocated_capacity (h : CodeHeap) : Z :=
  wrap 64 (max_capacity h - allocated_capacity h).
Definition heap_unallocated_capacity (h : CodeHeap) : Z :=
  segments_to_size h (wrap 64 (_number_of_reserved_segments h - _next_segment h)).

(** ** The free list *)

Definition following_block (h : CodeHeap) (b : Z) : Z :=
  b + _segment_size h * _length (block h b).

Definition is_null (p : option Z) : bool := match p with None => true | Some _ => false end.
Definition pointer_eqb (p q : option Z) : bool :=
  match p, q with Some p, Some q => p =? q | None, None => true | _, _ => false end.
(** [p < q] for pointers; null is below every block. *)
Definition pointer_ltb (p q : option Z) : bool :=
  match p, q with
  | Some p, Some q => p <? q
  | None, Some _ => true
  | _, None => false
  end.

Definition merge_right (h : CodeHeap) (a : Z) : option CodeHeap :=
  assert! free (block h a);
  match _link (block h a) with
  | Some l =>
      if following_block h a =? l then
        assert! free (block h l);
        let h := update h a (fun b => set_length b (wrap 64 (_length b + _length (block h l)))) in
        let h := update h a (fun b => set_link b (_link (block h l))) in
        let beg := segment_for h a in
        mark_segmap_as_used h beg (beg + _length (block h a))
      else Some h
  | None => Some h
  end.

Definition insert_after (h : CodeHeap) (a b : Z) : option CodeHeap :=
  let h := update h b (fun c => set_link c (_link (block h a))) in
  let h := update h a (fun c => set_link c (Some b)) in
  h ← merge_right h b;
  merge_right h a.

(** [while(cur != NULL && cur < b)]; the fuel counts list elements. *)
Fixpoint scan_freelist (fuel : nat) (h : CodeHeap) (b : Z) (prev cur : option Z)
    : option (option Z * option Z) :=
  match cur with
  | None => Some (prev, None)
  | Some c =>
      if c <? b then
        match fuel with
        | O => None
        | S fuel =>
            assert! is_null prev || pointer_ltb prev cur;
            scan_freelist fuel h b (Some c) (_link (block h c))
        end
      else Some (prev, cur)
  end.

(** The free list is never longer than the number of segments in use. *)
Definition list_fuel (h : CodeHeap) : nat := Z.to_nat (_next_segment h).

Definition add_to_freelist (h : CodeHeap) (b : Z) : option CodeHeap :=
  assert! negb (pointer_eqb (Some b) (_freelist h));
  let h := with_freelist h (_freelist h) (wrap 64 (_freelist_segments h + _length (block h b))) in
  let h := update h b set_free in
  match _freelist h with
  | None =>
      let h := with_freelist h (Some b) (_freelist_segments h) in
      Some (update h b (fun c => set_link c None))
  | Some _ =>
      '(prev, cur) ← scan_freelist (list_fuel h) h b None (_freelist h);
      assert! (is_null prev && pointer_ltb (Some b) (_freelist h))
              || (pointer_ltb prev (Some b) && (is_null cur || pointer_ltb (Some b) cur));
      match prev with
      | None =>
          let h := update h b (fun c => set_link c (_freelist h)) in
          let h := with_freelist h (Some b) (_freelist_segments h) in
          merge_right h b
      | Some prev => insert_after h prev b
      end
  end.

Section Flags.
(** The VM flags the heap reads. *)
Context (CodeCacheMinBlockLength CodeCacheMinimumFreeSpace : Z).

(** The search loop of [search_freelist]: the best block, its predecessor and its
    length. *)
Fixpoint search_loop (fuel : nat) (h : CodeHeap) (length : Z) (is_critical : bool)
    (prev cur best_block best_prev : option Z) (best_length : Z)
    : option (option Z * option Z * Z) :=
  match cur with
  | None => Some (best_block, best_prev, best_length)
  | Some c =>
      match fuel with
      | O => None
      | S fuel =>
          let l := _length (block h c) in
          if (length <=? l) && (is_null best_block || (l <? best_length)) then
            if negb is_critical &&
               (wrap 64 (high_boundary h - CodeCacheMinimumFreeSpace) <? wrap 64 (c + length))
            then Some (best_block, best_prev, best_length)
            else search_loop fuel h length is_critical cur (_link (block h c)) cur prev l
          else search_loop fuel h length is_critical cur (_link (block h c))
                 best_block best_prev best_length
      end
  end.

Definition search_freelist (h : CodeHeap) (length : Z) (is_critical : bool)
    : option (option Z * CodeHeap) :=
  '(best_block, best_prev, best_length) ←
    search_loop (list_fuel h) h length is_critical None (_freelist h) None None 0;
  match best_block with
  | None => Some (None, h)
  | Some best =>
      assert! match best_prev with
              | None => pointer_eqb (_freelist h) best_block
              | Some p => pointer_eqb (_link (block h p)) best_block
              end;
      if best_length <? wrap 64 (length + CodeCacheMinBlockLength) then
        let length := best_length in
        let h := match best_prev with
                 | None => with_freelist h (_link (block h best)) (_freelist_segments h)
                 | Some p => update h p (fun b => set_link b (_link (block h best)))
                 end in
        let h := update h best set_used in
        Some (Some best, with_freelist h (_freelist h) (wrap 64 (_freelist_segments h - length)))
      else
        let h := update h best (fun b => set_length b (wrap 64 (best_length - length))) in
        let best := following_block h best in
        let beg := segment_for h best in
        h ← mark_segmap_as_used h beg (beg + length);
        let h := update h best (fun b => set_length b length) in
        let h := update h best set_used in
        Some (Some best, with_freelist h (_freelist h) (wrap 64 (_freelist_segments h - length)))
  end.

Definition allocate (h : CodeHeap) (instance_size : Z) (is_critical : bool)
    : option (option Z * CodeHeap) :=
  let number_of_segments := size_to_segments h (wrap 64 (instance_size + header_size)) in
  assert! sizeof_FreeBlock <=? segments_to_size h number_of_segments;
  '(b, h) ← search_freelist h number_of_segments is_critical;
  match b with
  | Some b =>
      assert! (number_of_segments <=? _length (block h b)) &&
              (_length (block h b) <? number_of_segments + CodeCacheMinBlockLength);
      assert! negb (free (block h b));
      Some (Some (allocated_space b), h)
  | None =>
      let number_of_segments :=
        if number_of_segments <? CodeCacheMinBlockLength then CodeCacheMinBlockLength
        else number_of_segments in
      if negb is_critical &&
         (wrap 64 (heap_unallocated_capacity h - CodeCacheMinimumFreeSpace)
            <? segments_to_size h number_of_segments)
      then Some (None, h)
      else if wrap 64 (_next_segment h + number_of_segments) <=? _number_of_committed_segments h
      then
        h ← mark_segmap_as_used h (_next_segment h) (_next_segment h + number_of_segments);
        let b := block_at h (_next_segment h) in
        let h := update h b (fun c => initialize c number_of_segments) in
        Some (Some (allocated_space b), with_next_segment h (_next_segment h + number_of_segments))
      else Some (None, h)
  end.
End Flags.

Definition deallocate (h : CodeHeap) (p : Z) : option CodeHeap :=
  q ← find_start h p;
  assert! pointer_eqb (Some p) q;
  add_to_freelist h (p - header_size).

(** What [verify] counts: the free blocks on the list and their segments, and the
    count left after subtracting the free blocks met walking the heap. *)
Fixpoint verify_freelist (fuel : nat) (h : CodeHeap) (b : option Z) (count len : Z)
    : option (Z * Z) :=
  match b with
  | None => Some (count, len)
  | Some p =>
      match fuel with
      | O => None
      | S fuel => verify_freelist fuel h (_link (block h p)) (count + 1)
                    (wrap 64 (len + _length (block h p)))
      end
  end.

Fixpoint verify_blocks (fuel : nat) (h : CodeHeap) (b : option Z) (count : Z) : option Z :=
  match b with
  | None => Some count
  | Some p =>
      match fuel with
      | O => None
      | S fuel => verify_blocks fuel h (next_block h b)
                    (if free (block h p) then count - 1 else count)
      end
  end.

Definition verify (h : CodeHeap) : option (Z * Z) :=
  '(count, len) ← verify_freelist (list_fuel h) h (_freelist h) 0 0;
  count ← verify_blocks (list_fuel h) h (first_block h) count;
  Some (count, len).

(** ** Committed memory *)

Section System.
(** The system's page size and its answers to the commit calls. *)
Context (vm_page_size : Z) (commit_memory : Z -> Z -> bool).

Definition align_to_page_size (size : Z) : Z :=
  let alignment := vm_page_size in
  Z.land (wrap 64 (size + alignment - 1)) (wrap 64 (Z.lnot (alignment - 1))).

Definition expand_by (h : CodeHeap) (size : Z) : option (bool * CodeHeap) :=
  let dm := wrap 64 (align_to_page_size (wrap 64 (committed_size (_memory h) + size))
                     - committed_size (_memory h)) in
  if 0 <? dm then
    let '(ok, vs) := VirtualSpace.expand_by commit_memory (_memory h) dm in
    if negb ok then Some (false, with_memory h vs (_number_of_committed_segments h)) else
    let i := _number_of_committed_segments h in
    let h := with_memory h vs (size_to_segments h (committed_size vs)) in
    assert! _number_of_reserved_segments h =? size_to_segments h (reserved_size (_memory h));
    assert! _number_of_committed_segments h <=? _number_of_reserved_segments h;
    let ds := wrap 64 (align_to_page_size (_number_of_committed_segments h)
                       - committed_size (_segmap h)) in
    let '(ok, vs) := if 0 <? ds then VirtualSpace.expand_by commit_memory (_segmap h) ds
                     else (true, _segmap h) in
    let h := with_segmap h vs in
    if negb ok then Some (false, h) else
    assert! _number_of_committed_segments h <=? committed_size (_segmap h);
    h ← mark_segmap_as_free h i (_number_of_committed_segments h);
    Some (true, h)
  else Some (true, h).
End System.

Definition reserve (os : OS) (h : CodeHeap) (reserved_size_ committed_size_ segment_size : Z)
    : option (bool * CodeHeap) :=
  assert! committed_size_ <=? reserved_size_;
  assert! sizeof_FreeBlock <=? segment_size;
  assert! is_power_of_2 segment_size;
  log2_segment_size ← exact_log2 segment_size;
  let page_size := if can_execute_large_page_memory os
                   then page_size_for_region os committed_size_ reserved_size_ 8
                   else vm_page_size os in
  let granularity := vm_allocation_granularity os in
  let r_align := MAX2 page_size granularity in
  let r_size := align_size_up reserved_size_ r_align in
  let c_size := align_size_up committed_size_ page_size in
  let rs_align := if page_size =? vm_page_size os then 0 else MAX2 page_size granularity in
  rs ← ReservedCodeSpace os r_size rs_align (0 <? rs_align);
  let '(ok, memory) := VirtualSpace.initialize os rs c_size in
  let h := mkCodeHeap memory (_segmap h) (_number_of_committed_segments h)
             (_number_of_reserved_segments h) segment_size log2_segment_size (_next_segment h)
             (_freelist h) (_freelist_segments h) (blocks h) (segmap_bytes h) in
  if negb ok then Some (false, h) else
  let h := mkCodeHeap memory (_segmap h) (size_to_segments h (committed_size memory))
             (size_to_segments h (reserved_size memory)) segment_size log2_segment_size
             (_next_segment h) (_freelist h) (_freelist_segments h) (blocks h)
             (segmap_bytes h) in
  assert! _number_of_committed_segments h <=? _number_of_reserved_segments h;
  let reserved_segments_alignment := MAX2 (vm_page_size os) granularity in
  let reserved_segments_size :=
    align_size_up (_number_of_reserved_segments h) reserved_segments_alignment in
  let committed_segments_size :=
    align_to_page_size (vm_page_size os) (_number_of_committed_segments h) in
  seg_rs ← NewReservedSpace os reserved_segments_size;
  let '(ok, segmap) := VirtualSpace.initialize os seg_rs committed_segments_size in
  let h := with_segmap h segmap in
  if negb ok then Some (false, h) else
  assert! _number_of_committed_segments h <=? committed_size segmap;
  assert! _number_of_reserved_segments h <=? reserved_size segmap;
  assert! committed_size segmap <=? reserved_size segmap;
  h ← clear h;
  Some (true, h).

End CodeHeap.
