(* ===== verification/CodeHeapInv.v ===== *)
(** The invariant of the code heap: the blocks tile the segments in use, the
    segment map leads every segment to the start of its block, and the free list
    holds exactly the free blocks in address order. *)
From stdpp Require Import gmap.
From S2P Require Import Prelude GlobalDefinitions ReservedSpace VirtualSpace CodeHeap.
Import GlobalDefinitions ReservedSpace VirtualSpace CodeHeap.
Local Open Scope Z_scope.

Module CodeHeapInv.

(** ** The abstract heap: a list of blocks in address order *)

Record blk : Set := mkBlk { b_seg : Z; b_len : Z; b_used : bool }.

(** The blocks of the list fill the segments from [s] to [e] without a gap. *)
Fixpoint tiles (s : Z) (L : list blk) (e : Z) : Prop :=
  match L with
  | [] => s = e
  | b :: L => b_seg b = s /\ 0 < b_len b /\ tiles (s + b_len b) L e
  end.

Definition is_used (b : blk) : Prop := b_used b = true.
#[export] Instance is_used_dec b : Decision (is_used b) := decide (b_used b = true).

Definition used_blocks (L : list blk) : list blk := filter is_used L.
Definition free_blocks (L : list blk) : list blk := filter (fun b => ~ is_used b) L.

Definition total (L : list blk) : Z := foldr (fun b n => b_len b + n) 0 L.

(** No two free blocks are neighbours. *)
Definition head_used (L : list blk) : Prop := match L with [] => True | b :: _ => is_used b end.
Fixpoint no_adjacent_free (L : list blk) : Prop :=
  match L with
  | [] => True
  | b :: L => (is_used b \/ head_used L) /\ no_adjacent_free L
  end.
Definition last_used (L : list blk) : Prop := match last L with None => True | Some b => is_used b end.

(** The byte the segment map holds [k] segments into a block. *)
Definition back (k : Z) : Z := if k =? 0 then 0 else (k - 1) mod 254 + 1.

Definition mapped (bs : list Z) (b : blk) : Prop :=
  forall k, 0 <= k < b_len b -> bs !! Z.to_nat (b_seg b + k) = Some (back k).

(** A list threaded through the link fields. *)
Fixpoint linked (m : gmap Z FreeBlock) (p : option Z) (l : list Z) (q : option Z) : Prop :=
  match l with
  | [] => p = q
  | a :: l => p = Some a /\ exists b, m !! a = Some b /\ linked m (_link b) l q
  end.

(** The fixed geometry of a heap. *)
Record geometry (h : CodeHeap) : Prop := {
  geo_log2 : 5 <= _log2_segment_size h < 32;
  geo_size : _segment_size h = 2 ^ _log2_segment_size h;
  geo_low : 0 < _low (_memory h) /\ _low (_memory h) = _low_boundary (_memory h);
  geo_high : _high (_memory h) =
    _low (_memory h) + _number_of_committed_segments h * _segment_size h;
  geo_boundary : _high_boundary (_memory h) =
    _low (_memory h) + _number_of_reserved_segments h * _segment_size h;
  geo_reserved : 0 <= _number_of_committed_segments h <= _number_of_reserved_segments h;
  geo_top : _high_boundary (_memory h) < 2 ^ 62;
  geo_bytes : _number_of_committed_segments h <= Z.of_nat (length (segmap_bytes h))
}.

Definition block_ok (h : CodeHeap) (b : blk) : Prop :=
  exists lk, blocks h !! block_at h (b_seg b) = Some (mkFreeBlock (b_len b) (b_used b) lk).

Definition addresses (h : CodeHeap) (L : list blk) : list Z := (fun b => block_at h (b_seg b)) <$> L.

Record rep (h : CodeHeap) (L : list blk) : Prop := {
  rep_geometry : geometry h;
  rep_tiles : tiles 0 L (_next_segment h);
  rep_next : _next_segment h <= _number_of_committed_segments h;
  rep_blocks : Forall (block_ok h) L;
  rep_mapped : Forall (mapped (segmap_bytes h)) L;
  rep_rest : forall i, _next_segment h <= i < _number_of_committed_segments h ->
    segmap_bytes h !! Z.to_nat i = Some 255;
  rep_list : linked (blocks h) (_freelist h) (addresses h (free_blocks L)) None;
  rep_count : _freelist_segments h = total (free_blocks L)
}.

Definition inv (h : CodeHeap) (L : list blk) : Prop := rep h L /\ no_adjacent_free L.

(** ** Lists of blocks *)

Lemma tiles_app s A B e : tiles s (A ++ B) e <-> exists m, tiles s A m /\ tiles m B e.
Proof.
  revert s. induction A as [| b A IH]; intros s; simpl.
  - split; [by eauto | by intros (m & -> & ?)].
  - rewrite IH. split.
    + intros (? & ? & m & ? & ?). eauto 6.
    + intros (m & (? & ? & ?) & ?). eauto 6.
Qed.

Lemma tiles_le s L e : tiles s L e -> s <= e.
Proof.
  revert s. induction L as [| b L IH]; intros s; simpl; [lia |].
  intros (? & ? & ?%IH). lia.
Qed.

Lemma tiles_in s L e b :
  tiles s L e -> b ∈ L -> s <= b_seg b /\ b_seg b + b_len b <= e /\ 0 < b_len b.
Proof.
  intros HT (A & B & ->)%list_elem_of_split.
  apply tiles_app in HT as (m & H1%tiles_le & ? & ? & H2%tiles_le). lia.
Qed.

Lemma tiles_middle A b B e :
  tiles 0 (A ++ b :: B) e ->
  tiles 0 A (b_seg b) /\ 0 <= b_seg b /\ 0 < b_len b /\ tiles (b_seg b + b_len b) B e /\
  b_seg b + b_len b <= e.
Proof.
  intros (m & HA & <- & ? & HB)%tiles_app. pose proof (tiles_le _ _ _ HA).
  pose proof (tiles_le _ _ _ HB). auto.
Qed.

Lemma free_blocks_app A B : free_blocks (A ++ B) = free_blocks A ++ free_blocks B.
Proof. apply filter_app. Qed.
Lemma used_blocks_app A B : used_blocks (A ++ B) = used_blocks A ++ used_blocks B.
Proof. apply filter_app. Qed.

Lemma free_blocks_cons_free s l B :
  free_blocks (mkBlk s l false :: B) = mkBlk s l false :: free_blocks B.
Proof. apply filter_cons_True. unfold is_used. simpl. congruence. Qed.
Lemma free_blocks_cons_used s l B : free_blocks (mkBlk s l true :: B) = free_blocks B.
Proof. apply filter_cons_False. unfold is_used. simpl. naive_solver. Qed.
Lemma used_blocks_cons_free s l B : used_blocks (mkBlk s l false :: B) = used_blocks B.
Proof. apply filter_cons_False. unfold is_used. simpl. congruence. Qed.
Lemma used_blocks_cons_used s l B :
  used_blocks (mkBlk s l true :: B) = mkBlk s l true :: used_blocks B.
Proof. by apply filter_cons_True. Qed.

Lemma elem_of_free_blocks b L : b ∈ free_blocks L <-> b_used b = false /\ b ∈ L.
Proof.
  unfold free_blocks. rewrite list_elem_of_filter. unfold is_used. destruct (b_used b); naive_solver.
Qed.

Lemma total_app A B : total (A ++ B) = total A + total B.
Proof. induction A as [| b A IH]; simpl; [done | lia]. Qed.

Lemma total_free_nonneg s L e : tiles s L e -> 0 <= total (free_blocks L) <= e - s.
Proof.
  revert s. induction L as [| [a l u] L IH]; intros s; simpl; [intros ->; unfold total; simpl; lia |].
  intros (<- & ? & HT%IH). destruct u; [rewrite free_blocks_cons_used |
    rewrite free_blocks_cons_free; simpl]; lia.
Qed.

Lemma no_adjacent_free_app A B :
  no_adjacent_free (A ++ B) <->
  no_adjacent_free A /\ no_adjacent_free B /\ (last_used A \/ head_used B).
Proof.
  induction A as [| b A IH]; simpl; [unfold last_used; simpl; naive_solver |].
  rewrite IH. destruct A as [| c A]; simpl; [unfold last_used; simpl; naive_solver |].
  unfold last_used. rewrite last_cons_cons. naive_solver.
Qed.

(** ** The segment map *)

Lemma back_0 : back 0 = 0.
Proof. done. Qed.

Lemma back_succ k : 0 <= k -> back (k + 1) = if back k + 1 =? 255 then 1 else back k + 1.
Proof.
  intros Hk. unfold back. destruct (Z.eqb_spec (k + 1) 0); [lia |].
  replace (k + 1 - 1) with k by lia.
  destruct (Z.eqb_spec k 0) as [-> | Hk0]; [done |].
  pose proof (Z.mod_pos_bound (k - 1) 254 ltac:(lia)).
  pose proof (Z.div_mod (k - 1) 254 ltac:(lia)) as Hd.
  destruct (Z.eqb_spec ((k - 1) mod 254 + 1 + 1) 255).
  - replace k with (((k - 1) / 254 + 1) * 254) by lia. by rewrite Z.mod_mul.
  - replace k with ((k - 1) mod 254 + 1 + (k - 1) / 254 * 254) at 1 by lia.
    rewrite Z.mod_add, Z.mod_small by lia. lia.
Qed.

(** The byte is small enough not to be the free mark, and leads back into the
    block. *)
Lemma back_bounds k : 0 <= k -> 0 <= back k < 255 /\ back k <= k /\ (0 < k -> 0 < back k).
Proof.
  intros Hk. unfold back. destruct (Z.eqb_spec k 0); [lia |].
  pose proof (Z.mod_pos_bound (k - 1) 254 ltac:(lia)).
  pose proof (Z.mod_le (k - 1) 254 ltac:(lia) ltac:(lia)). lia.
Qed.

Lemma fill_used_length n p i bs : length (fill_used n p i bs) = length bs.
Proof. revert p i bs. induction n as [| n IH]; intros; simpl; [done |]. by rewrite IH, length_insert. Qed.
Lemma fill_free_length n p bs : length (fill_free n p bs) = length bs.
Proof. revert p bs. induction n as [| n IH]; intros; simpl; [done |]. by rewrite IH, length_insert. Qed.

Lemma fill_used_outside n p i bs j :
  (j < p \/ p + n <= j)%nat -> fill_used n p i bs !! j = bs !! j.
Proof.
  revert p i bs. induction n as [| n IH]; intros p i bs Hj; simpl; [done |].
  rewrite IH by lia. apply list_lookup_insert_ne. lia.
Qed.

Lemma fill_used_inside n p k bs j :
  0 <= k -> (p + n <= length bs)%nat -> (j < n)%nat ->
  fill_used n p (back k) bs !! (p + j)%nat = Some (back (k + Z.of_nat j)).
Proof.
  revert p k bs j. induction n as [| n IH]; intros p k bs j Hk Hlen Hj; [lia |].
  cbn [fill_used]. rewrite <- back_succ by done. destruct j as [| j].
  - rewrite fill_used_outside by lia. rewrite Nat.add_0_r, list_lookup_insert_eq by lia.
    f_equal. rewrite Z.add_0_r. pose proof (back_bounds k Hk). unfold u_char.
    apply wrap_small. unfold in_unsigned. lia.
  - replace (p + S j)%nat with (S p + j)%nat by lia.
    rewrite IH; [f_equal; f_equal; lia | lia | rewrite length_insert; lia | lia].
Qed.

Lemma fill_free_outside n p bs j :
  (j < p \/ p + n <= j)%nat -> fill_free n p bs !! j = bs !! j.
Proof.
  revert p bs. induction n as [| n IH]; intros p bs Hj; simpl; [done |].
  rewrite IH by lia. apply list_lookup_insert_ne. lia.
Qed.

Lemma fill_free_inside n p bs j :
  (p + n <= length bs)%nat -> (p <= j < p + n)%nat -> fill_free n p bs !! j = Some 255.
Proof.
  revert p bs. induction n as [| n IH]; intros p bs Hlen Hj; [lia |]. cbn [fill_free].
  destruct (decide (j = p)) as [-> |].
  - rewrite fill_free_outside by lia. apply list_lookup_insert_eq. lia.
  - apply IH; [rewrite length_insert; lia | lia].
Qed.

(** ** Linked lists *)

Lemma linked_app m p l1 l2 q :
  linked m p (l1 ++ l2) q <-> exists r, linked m p l1 r /\ linked m r l2 q.
Proof.
  revert p. induction l1 as [| a l1 IH]; intros p; simpl; [naive_solver |].
  setoid_rewrite IH. naive_solver.
Qed.

Lemma linked_frame m p l q a b : a ∉ l -> linked m p l q -> linked (<[a := b]> m) p l q.
Proof.
  revert p. induction l as [| c l IH]; intros p Ha; simpl; [done |].
  apply not_elem_of_cons in Ha as [Hne Ha]. intros (-> & d & Hd & Hl). split; [done |].
  exists d. rewrite lookup_insert_ne by done. auto.
Qed.

(** Changing a header but not its link. *)
Lemma linked_header m p l q a b b' :
  m !! a = Some b -> _link b' = _link b -> linked m p l q -> linked (<[a := b']> m) p l q.
Proof.
  intros Ha Hb. revert p. induction l as [| c l IH]; intros p; simpl; [done |].
  intros (-> & d & Hd & Hl). split; [done |].
  destruct (decide (a = c)) as [<- | Hne].
  - exists b'. rewrite lookup_insert_eq. split; [done |]. rewrite Hb. apply IH. by simplify_eq.
  - exists d. rewrite lookup_insert_ne by done. auto.
Qed.

(** ** Addresses *)

Section Geometry.
Context (h : CodeHeap) (G : geometry h).

Lemma segment_size_pos : 32 <= _segment_size h.
Proof using G.
  rewrite (geo_size h G). change 32 with (2 ^ 5). apply Z.pow_le_mono_r; [lia |].
  apply (geo_log2 h G).
Qed.

Lemma block_at_eq i : block_at h i = _low (_memory h) + i * _segment_size h.
Proof using G.
  unfold block_at. rewrite Z.shiftl_mul_pow2 by (destruct (geo_log2 h G); lia).
  by rewrite (geo_size h G).
Qed.

Lemma block_at_inj i j : block_at h i = block_at h j <-> i = j.
Proof using G. rewrite !block_at_eq. pose proof segment_size_pos. split; [nia | by intros ->]. Qed.
Lemma block_at_lt i j : block_at h i < block_at h j <-> i < j.
Proof using G. rewrite !block_at_eq. pose proof segment_size_pos. nia. Qed.

Lemma segment_for_block_at i k :
  0 <= k < _segment_size h -> segment_for h (block_at h i + k) = i.
Proof using G.
  intros Hk. unfold segment_for. rewrite block_at_eq, Z.shiftr_div_pow2
    by (destruct (geo_log2 h G); lia). rewrite <- (geo_size h G).
  replace (_low (_memory h) + i * _segment_size h + k - _low (_memory h))
    with (k + i * _segment_size h) by lia.
  rewrite Z.div_add, Z.div_small by lia. lia.
Qed.

Lemma segment_for_block i : segment_for h (block_at h i) = i.
Proof using G.
  rewrite <- (segment_for_block_at i 0) at 2; [by rewrite Z.add_0_r |].
  pose proof segment_size_pos. lia.
Qed.

Lemma committed_bound : 0 <= _number_of_committed_segments h < 2 ^ 57 /\
  _number_of_reserved_segments h < 2 ^ 57.
Proof using G.
  destruct G. pose proof segment_size_pos. nia.
Qed.
End Geometry.

(** Two heaps with the same geometry: what every list operation preserves. *)
Definition same_frame (h h' : CodeHeap) : Prop :=
  _memory h' = _memory h /\ _segmap h' = _segmap h /\
  _number_of_committed_segments h' = _number_of_committed_segments h /\
  _number_of_reserved_segments h' = _number_of_reserved_segments h /\
  _segment_size h' = _segment_size h /\ _log2_segment_size h' = _log2_segment_size h /\
  length (segmap_bytes h') = length (segmap_bytes h).

Lemma same_frame_block_at h h' i : same_frame h h' -> block_at h' i = block_at h i.
Proof. intros (Hm & _ & _ & _ & _ & Hl & _). unfold block_at. by rewrite Hm, Hl. Qed.

Lemma same_frame_geometry h h' : same_frame h h' -> geometry h -> geometry h'.
Proof.
  intros (Hm & Hs & Hc & Hr & Hz & Hl & Hb) [].
  constructor; rewrite ?Hm, ?Hs, ?Hc, ?Hr, ?Hz, ?Hl, ?Hb; auto.
Qed.

Lemma same_frame_addresses h h' L : same_frame h h' -> addresses h' L = addresses h L.
Proof.
  intros HF. unfold addresses. apply list_fmap_ext. intros. by apply same_frame_block_at.
Qed.

Lemma same_frame_refl h : same_frame h h.
Proof. done. Qed.
Lemma same_frame_trans h1 h2 h3 : same_frame h1 h2 -> same_frame h2 h3 -> same_frame h1 h3.
Proof. unfold same_frame. intuition congruence. Qed.

Lemma addresses_app h A B : addresses h (A ++ B) = addresses h A ++ addresses h B.
Proof. apply fmap_app. Qed.
Lemma addresses_cons h b B : addresses h (b :: B) = block_at h (b_seg b) :: addresses h B.
Proof. done. Qed.

Lemma address_elem h L a : geometry h ->
  block_at h a ∈ addresses h L <-> exists b, b ∈ L /\ b_seg b = a.
Proof.
  intros G. unfold addresses. rewrite list_elem_of_fmap. setoid_rewrite (block_at_inj h G).
  naive_solver.
Qed.

Lemma block_lookup h p b : blocks h !! p = Some b -> block h p = b.
Proof. unfold block. by intros ->. Qed.

Lemma blocks_update h p f : blocks (update h p f) = <[p := f (block h p)]> (blocks h).
Proof. done. Qed.

Lemma block_update h p f q :
  block (update h p f) q = if decide (q = p) then f (block h p) else block h q.
Proof.
  unfold block at 1. rewrite blocks_update. destruct (decide (q = p)) as [-> | Hne].
  - by rewrite lookup_insert_eq.
  - by rewrite lookup_insert_ne.
Qed.

Lemma block_update_eq h p f : block (update h p f) p = f (block h p).
Proof. rewrite block_update. by destruct (decide (p = p)). Qed.
Lemma block_update_ne h p f q : q <> p -> block (update h p f) q = block h q.
Proof. intros. rewrite block_update. by destruct (decide (q = p)). Qed.

Lemma same_frame_update h p f : same_frame h (update h p f).
Proof. done. Qed.

Lemma block_ok_update_ne h a f b :
  geometry h -> b_seg b <> a -> block_ok h b -> block_ok (update h (block_at h a) f) b.
Proof.
  intros G Hne (lk & Hb). exists lk. rewrite blocks_update, lookup_insert_ne; [done |].
  change (block_at h a <> block_at h (b_seg b)). rewrite block_at_inj by done. done.
Qed.

(** Changing a link field leaves every block as it is. *)
Lemma block_ok_update_link h p q b :
  block_ok h b -> block_ok (update h p (fun c => set_link c q)) b.
Proof.
  intros (lk & Hb). unfold block_ok. rewrite blocks_update.
  change (block_at (update _ _ _)) with (block_at h).
  destruct (decide (p = block_at h (b_seg b))) as [-> | Hne].
  - exists q. rewrite lookup_insert_eq. by rewrite (block_lookup _ _ _ Hb).
  - exists lk. by rewrite lookup_insert_ne.
Qed.

Lemma mark_used_spec h beg n :
  geometry h -> 0 <= beg -> 0 < n -> beg + n <= _number_of_committed_segments h ->
  exists bs, mark_segmap_as_used h beg (beg + n) = Some (with_bytes h bs) /\
    length bs = length (segmap_bytes h) /\ mapped bs (mkBlk beg n true) /\
    (forall i, 0 <= i -> i < beg \/ beg + n <= i -> bs !! Z.to_nat i = segmap_bytes h !! Z.to_nat i).
Proof.
  intros G Hb Hn Hle. unfold mark_segmap_as_used.
  replace (interval_ok h beg (beg + n)) with true by (unfold interval_ok; lia).
  pose proof (geo_bytes h G). eexists. split; [done |].
  split; [apply fill_used_length |]. split.
  - intros k Hk. cbn [b_seg b_len] in *. replace (Z.to_nat (beg + k)) with (Z.to_nat beg + Z.to_nat k)%nat by lia.
    change 0 with (back 0) at 1.
    rewrite fill_used_inside by lia. do 2 f_equal. lia.
  - intros i Hi Ho. apply fill_used_outside. lia.
Qed.

Lemma mapped_outside bs bs' b lo hi :
  0 <= b_seg b -> b_seg b + b_len b <= lo \/ hi <= b_seg b ->
  (forall i, 0 <= i -> i < lo \/ hi <= i -> bs' !! Z.to_nat i = bs !! Z.to_nat i) ->
  mapped bs b -> mapped bs' b.
Proof. intros Hb Ho Hsame Hm k Hk. rewrite Hsame by lia. by apply Hm. Qed.

(** Replacing a stretch of blocks by others that fill the same segments. *)
Lemma rep_replace h h' A C D B lo hi :
  rep h (A ++ C ++ B) -> same_frame h h' -> _next_segment h' = _next_segment h ->
  tiles 0 A lo -> tiles lo C hi -> tiles lo D hi ->
  (forall b, b ∈ A \/ b ∈ B -> block_ok h b -> block_ok h' b) ->
  Forall (block_ok h') D ->
  Forall (mapped (segmap_bytes h')) D ->
  (forall i, 0 <= i -> i < lo \/ hi <= i ->
    segmap_bytes h' !! Z.to_nat i = segmap_bytes h !! Z.to_nat i) ->
  linked (blocks h') (_freelist h') (addresses h (free_blocks (A ++ D ++ B))) None ->
  _freelist_segments h' = total (free_blocks (A ++ D ++ B)) ->
  rep h' (A ++ D ++ B).
Proof.
  intros [G HT Hnext Hbl Hmap Hrest _ _] HF Hn HA HC HD Hkeep HDok HDmap Hbytes Hlink Hcount.
  pose proof HF as (_ & _ & Hcm & _).
  assert (HB : tiles hi B (_next_segment h)).
  { apply tiles_app in HT as (m & HA' & (m' & HC' & HB')%tiles_app).
    assert (m = lo) as -> by (clear - HA HA'; revert HA HA'; generalize 0; induction A; simpl;
      intros; [congruence | naive_solver]).
    assert (m' = hi) as -> by (clear - HC HC'; revert HC HC'; generalize lo; induction C; simpl;
      intros; [congruence | naive_solver]). done. }
  rewrite !Forall_app in Hbl, Hmap. destruct Hbl as (HbA & _ & HbB), Hmap as (HmA & _ & HmB).
  pose proof (tiles_le _ _ _ HA). pose proof (tiles_le _ _ _ HC). pose proof (tiles_le _ _ _ HB).
  constructor.
  - by eapply same_frame_geometry.
  - rewrite Hn. apply tiles_app. exists lo. split; [done |]. apply tiles_app. eauto.
  - by rewrite Hn, Hcm.
  - rewrite !Forall_app. rewrite Forall_forall in HbA, HbB.
    split_and!; [apply Forall_forall; eauto | done | apply Forall_forall; eauto].
  - rewrite !Forall_app. rewrite Forall_forall in HmA, HmB. split_and!; [| done |];
      apply Forall_forall; intros b Hb; (eapply mapped_outside; [| | exact Hbytes | eauto]).
    + apply (tiles_in _ _ _ _ HA) in Hb. lia.
    + apply (tiles_in _ _ _ _ HA) in Hb. lia.
    + apply (tiles_in _ _ _ _ HB) in Hb. lia.
    + apply (tiles_in _ _ _ _ HB) in Hb. lia.
  - intros i Hi. rewrite Hn, Hcm in Hi. rewrite Hbytes by lia. auto.
  - by rewrite (same_frame_addresses _ _ _ HF).
  - done.
Qed.

End CodeHeapInv.
