(* ===== verification/CodeHeapOps.v ===== *)
(** Allocation and deallocation in the code heap preserve the invariant: the free
    list operations of [memory/heap.cpp] as changes of the list of blocks. *)
From stdpp Require Import gmap.
From S2P Require Import Prelude GlobalDefinitions ReservedSpace VirtualSpace CodeHeap CodeHeapInv.
Import GlobalDefinitions ReservedSpace VirtualSpace CodeHeap CodeHeapInv.
Local Open Scope Z_scope.

Module CodeHeapOps.

(** ** Merging *)

(** What [merge_right] does to the blocks after the one it is called on. *)
Definition merged (s l : Z) (B : list blk) : list blk :=
  match B with
  | mkBlk _ l' false :: B' => mkBlk s (l + l') false :: B'
  | _ => mkBlk s l false :: B
  end.

Lemma rep_free_block h A s l B :
  rep h (A ++ mkBlk s l false :: B) ->
  exists lk, blocks h !! block_at h s = Some (mkFreeBlock l false lk) /\
    linked (blocks h) (_freelist h) (addresses h (free_blocks A)) (Some (block_at h s)) /\
    linked (blocks h) lk (addresses h (free_blocks B)) None.
Proof.
  intros [G _ _ Hbl _ _ Hlist _].
  apply Forall_app in Hbl as [_ [(lk & Hb) _]%Forall_cons]. simpl in Hb.
  rewrite free_blocks_app, free_blocks_cons_free, addresses_app, addresses_cons in Hlist.
  apply linked_app in Hlist as (r & HA & -> & b & Hb' & HB). simpl in Hb'.
  rewrite Hb in Hb'. injection Hb' as <-. eauto.
Qed.

Lemma rep_used_block h A s l B :
  rep h (A ++ mkBlk s l true :: B) ->
  exists lk r, blocks h !! block_at h s = Some (mkFreeBlock l true lk) /\
    linked (blocks h) (_freelist h) (addresses h (free_blocks A)) r /\
    linked (blocks h) r (addresses h (free_blocks B)) None.
Proof.
  intros [G _ _ Hbl _ _ Hlist _].
  apply Forall_app in Hbl as [_ [(lk & Hb) _]%Forall_cons]. simpl in Hb.
  rewrite free_blocks_app, free_blocks_cons_used, addresses_app in Hlist.
  apply linked_app in Hlist as (r & HA & HB). eauto.
Qed.

(** The segments before and after a block. *)
Lemma rep_bounds h A b B :
  rep h (A ++ b :: B) ->
  tiles 0 A (b_seg b) /\ 0 <= b_seg b /\ 0 < b_len b /\
  tiles (b_seg b + b_len b) B (_next_segment h) /\
  b_seg b + b_len b <= _next_segment h <= _number_of_committed_segments h /\
  _number_of_committed_segments h < 2 ^ 57.
Proof.
  intros HR. destruct (tiles_middle _ _ _ _ (rep_tiles _ _ HR)) as (? & ? & ? & ? & ?).
  pose proof (rep_next _ _ HR). pose proof (committed_bound h (rep_geometry _ _ HR)).
  split_and!; auto; lia.
Qed.

(** A block's address is not among those of blocks elsewhere. *)
Lemma address_outside h s L lo hi :
  geometry h -> tiles lo L hi -> s < lo \/ hi <= s -> block_at h s ∉ addresses h (free_blocks L).
Proof.
  intros G HT Hs (b & Hb & E)%address_elem; [| done].
  apply elem_of_free_blocks in Hb as [_ Hb]. apply (tiles_in _ _ _ _ HT) in Hb. lia.
Qed.

Lemma following_block_at h s l u lk :
  geometry h -> blocks h !! block_at h s = Some (mkFreeBlock l u lk) ->
  following_block h (block_at h s) = block_at h (s + l).
Proof.
  intros G Hb. unfold following_block. rewrite (block_lookup _ _ _ Hb), !block_at_eq by done.
  simpl. lia.
Qed.

(** The link of a free block passes over a neighbour in use. *)
Lemma link_passes_used h s l B e lk :
  geometry h -> tiles (s + l) B e -> head_used B ->
  linked (blocks h) lk (addresses h (free_blocks B)) None -> lk <> Some (block_at h (s + l)).
Proof.
  intros G HT Hu HL ->. destruct B as [| [s' l' u'] B]; [done |].
  simpl in HT, Hu. destruct HT as (-> & Hl & HT). unfold is_used in Hu. simpl in Hu. subst u'.
  rewrite free_blocks_cons_used in HL.
  destruct (free_blocks B) as [| b0 B0] eqn:EB; [done |]. destruct HL as ([= E] & _).
  apply (proj1 (block_at_inj h G _ _)) in E.
  assert (Hin : b0 ∈ free_blocks B) by (rewrite EB; left).
  apply elem_of_free_blocks in Hin as [_ Hin]. apply (tiles_in _ _ _ _ HT) in Hin. lia.
Qed.

(** The state after a merge represents the blocks with the two joined. *)
Lemma rep_merge h A s l l' B bs lk' h' :
  rep h (A ++ mkBlk s l false :: mkBlk (s + l) l' false :: B) ->
  same_frame h h' -> _next_segment h' = _next_segment h -> _freelist h' = _freelist h ->
  _freelist_segments h' = _freelist_segments h -> segmap_bytes h' = bs ->
  blocks h' = <[block_at h s := mkFreeBlock (l + l') false lk']> (blocks h) ->
  linked (blocks h) lk' (addresses h (free_blocks B)) None ->
  mapped bs (mkBlk s (l + l') true) ->
  (forall i, 0 <= i -> i < s \/ s + (l + l') <= i ->
    bs !! Z.to_nat i = segmap_bytes h !! Z.to_nat i) ->
  rep h' (A ++ mkBlk s (l + l') false :: B).
Proof.
  intros HR HF Hn Hfl Hfs Hbs Hbl HLB Hmap Hout. pose proof (rep_geometry _ _ HR) as G.
  destruct (rep_free_block _ _ _ _ _ HR) as (lk & Hb & HLA & _).
  destruct (rep_bounds _ _ _ _ HR) as (HtA & Hs & Hl & HtB & Hle & _).
  simpl in HtA, Hs, Hl, HtB, Hle. destruct HtB as (_ & Hl' & HtB).
  apply (rep_replace h _ A [mkBlk s l false; mkBlk (s + l) l' false] [mkBlk s (l + l') false] B
    s (s + l + l')); auto; try (by simpl; split_and!; auto; lia).
  - intros b Hbin (lkb & Hbb). exists lkb. rewrite Hbl, (same_frame_block_at _ _ _ HF).
    rewrite lookup_insert_ne; [done |]. rewrite block_at_inj by done.
    destruct Hbin as [Hi | Hi];
      [apply (tiles_in _ _ _ _ HtA) in Hi | apply (tiles_in _ _ _ _ HtB) in Hi]; lia.
  - constructor; [| constructor]. exists lk'. rewrite Hbl, (same_frame_block_at _ _ _ HF).
    apply lookup_insert_eq.
  - constructor; [by rewrite Hbs | constructor].
  - intros i Hi Ho. rewrite Hbs. apply Hout; lia.
  - simpl app. rewrite Hbl, Hfl, free_blocks_app, addresses_app.
    rewrite free_blocks_cons_free, addresses_cons. apply linked_app.
    exists (Some (block_at h s)). split.
    + apply linked_frame; [| done]. eapply address_outside; eauto. lia.
    + split; [done |]. eexists. split; [apply lookup_insert_eq |].
      apply linked_frame; [| done]. eapply address_outside; eauto. lia.
  - simpl app. rewrite Hfs, (rep_count _ _ HR), !free_blocks_app.
    rewrite !free_blocks_cons_free, !total_app. simpl. lia.
Qed.

Lemma merge_right_spec h A s l B :
  rep h (A ++ mkBlk s l false :: B) ->
  exists h', merge_right h (block_at h s) = Some h' /\ rep h' (A ++ merged s l B) /\
    same_frame h h' /\ _next_segment h' = _next_segment h.
Proof.
  intros HR. pose proof (rep_geometry _ _ HR) as G.
  destruct (rep_free_block _ _ _ _ _ HR) as (lk & Hb & HLA & HLB).
  destruct (rep_bounds _ _ _ _ HR) as (HtA & Hs & Hl & HtB & Hle & Hsmall).
  simpl in HtA, Hs, Hl, HtB, Hle.
  unfold merge_right. rewrite (block_lookup _ _ _ Hb), (following_block_at _ _ _ _ _ G Hb).
  cbn [free _used negb _link].
  assert (Hcase : head_used B \/ exists l' B', B = mkBlk (s + l) l' false :: B').
  { destruct B as [| [s' l' []] B]; [by left | by left | right]. simpl in HtB. naive_solver. }
  destruct Hcase as [Hu | (l' & B' & ->)].
  { exists h. pose proof (link_passes_used _ _ _ _ _ _ G HtB Hu HLB) as Hne. split_and!; [| | done..].
    - destruct lk as [a |]; [| done]. destruct (Z.eqb_spec (block_at h (s + l)) a); [congruence | done].
    - by destruct B as [| [? ? []] B]. }
  simpl in HtB. destruct HtB as (_ & Hl' & HtB).
  rewrite free_blocks_cons_free in HLB. destruct HLB as (-> & b' & Hb' & HLB). simpl b_seg in *.
  assert (exists lk', b' = mkFreeBlock l' false lk') as (lk' & ->).
  { pose proof (rep_blocks _ _ HR) as HF. rewrite Forall_app, !Forall_cons in HF.
    destruct HF as (_ & _ & (lk' & E) & _). simpl in E. rewrite E in Hb'. naive_solver. }
  rewrite Z.eqb_refl, (block_lookup _ _ _ Hb'). cbn [free _used negb].
  assert (Hne : block_at h (s + l) <> block_at h s) by (rewrite block_at_inj by done; lia).
  set (h1 := update h (block_at h s) _). set (h2 := update h1 (block_at h s) _).
  assert (Eb : block h2 (block_at h s) = mkFreeBlock (l + l') false lk').
  { unfold h2, h1. rewrite !block_update_eq, (block_update_ne _ _ _ _ Hne).
    rewrite (block_lookup _ _ _ Hb), (block_lookup _ _ _ Hb'). simpl. apply tiles_le in HtB.
    rewrite wrap_small by (unfold in_unsigned; lia). done. }
  rewrite Eb. change (segment_for h2 (block_at h s)) with (segment_for h (block_at h s)).
  rewrite (segment_for_block h G). simpl _length.
  destruct (mark_used_spec h2 s (l + l')) as (bs & Hm & Hlen & Hmap & Hout);
    [by apply (same_frame_geometry h) | lia | lia | simpl; apply tiles_le in HtB; lia |].
  rewrite Hm. eexists. split; [done |].
  assert (HF : same_frame h (with_bytes h2 bs)) by (repeat split; simpl; auto).
  split; [| by split]. apply (rep_merge h A s l l' B' bs lk'); auto.
  simpl. rewrite insert_insert_eq. f_equal. unfold h2 in Eb. by rewrite block_update_eq in Eb.
Qed.

(** ** Freeing a block *)

(** Pointers in increasing order, above [lo]. *)
Fixpoint ascending (lo : option Z) (l : list Z) : Prop :=
  match l with
  | [] => True
  | a :: l => pointer_ltb lo (Some a) = true /\ ascending (Some a) l
  end.

Lemma ascending_free h L s e lo :
  geometry h -> tiles s L e ->
  pointer_ltb lo (Some (block_at h s)) = true ->
  ascending lo (addresses h (free_blocks L)).
Proof.
  intros G. revert s lo. induction L as [| [a l u] L IH]; intros s lo HT Hlo; [done |].
  simpl in HT. destruct HT as (-> & Hl & HT).
  assert (Hstep : block_at h s < block_at h (s + l)) by (apply block_at_lt; auto; lia).
  destruct u.
  - rewrite free_blocks_cons_used. eapply IH; [done |]. destruct lo; simpl in *; [lia | done].
  - rewrite free_blocks_cons_free, addresses_cons. split; [done |]. eapply IH; [done |].
    simpl. lia.
Qed.

(** The scan stops at the first list element that is not below [b]. *)
Lemma scan_freelist_spec fuel h b prev cur l r :
  linked (blocks h) cur l r -> ascending prev l -> Forall (fun a => a < b) l ->
  (forall c, r = Some c -> b <= c) -> (length l <= fuel)%nat ->
  scan_freelist fuel h b prev cur = Some (match last l with Some a => Some a | None => prev end, r).
Proof.
  revert fuel prev cur. induction l as [| a l IH]; intros fuel prev cur HL Hasc Hlt Hr Hfuel.
  - simpl in HL. subst cur. destruct r as [c |]; [| by destruct fuel].
    specialize (Hr c eq_refl). destruct fuel; simpl; (destruct (Z.ltb_spec c b); [lia | done]).
  - simpl in HL. destruct HL as (-> & ba & Ha & HL). simpl in Hasc. destruct Hasc as [Hp Hasc].
    apply Forall_cons in Hlt as [Hab Hlt]. simpl in Hfuel. destruct fuel as [| fuel]; [lia |].
    cbn [scan_freelist]. rewrite (proj2 (Z.ltb_lt a b) Hab).
    replace (is_null prev || pointer_ltb prev (Some a)) with true
      by (rewrite Hp; by destruct (is_null prev)).
    rewrite (block_lookup _ _ _ Ha). rewrite (IH fuel (Some a) (_link ba)); auto; [| lia].
    destruct l as [| c l]; [done |]. rewrite last_cons_cons. by destruct (last (c :: l)) eqn:E; [| by apply last_None in E].
Qed.

(** The last free block of a list. *)
Lemma last_free A :
  free_blocks A = [] \/
  exists A1 p l A2, A = A1 ++ mkBlk p l false :: A2 /\ free_blocks A2 = [].
Proof.
  induction A as [| [s l u] A [IH | (A1 & p & l' & A2 & -> & H2)]]; [by left | |].
  - destruct u; [rewrite free_blocks_cons_used; by left |]. right. by exists [], s, l, A.
  - right. by exists (mkBlk s l u :: A1), p, l', A2.
Qed.

Lemma free_blocks_length s L e : tiles s L e -> (length (free_blocks L) <= Z.to_nat (e - s))%nat.
Proof.
  revert s. induction L as [| [a l u] L IH]; intros s; [simpl; intros; lia |].
  simpl. intros (-> & Hl & HT). pose proof (tiles_le _ _ _ HT). apply IH in HT.
  destruct u; [rewrite free_blocks_cons_used | rewrite free_blocks_cons_free; simpl]; lia.
Qed.

Lemma addresses_below h L lo s : geometry h -> tiles lo L s ->
  Forall (fun a => a < block_at h s) (addresses h (free_blocks L)).
Proof.
  intros G HT. apply Forall_forall. intros a (b & -> & Hb)%list_elem_of_fmap.
  apply elem_of_free_blocks in Hb as [_ Hb]. apply (tiles_in _ _ _ _ HT) in Hb.
  apply block_at_lt; [done | lia].
Qed.

Lemma head_above h L r s e lo : geometry h -> tiles lo L e -> s <= lo ->
  linked (blocks h) r (addresses h (free_blocks L)) None ->
  forall c, r = Some c -> block_at h s <= c.
Proof.
  intros G HT Hs HL c ->. destruct (free_blocks L) as [| b L'] eqn:EL; [done |].
  destruct HL as ([= ->] & _). assert (Hb : b ∈ free_blocks L) by (rewrite EL; left).
  apply elem_of_free_blocks in Hb as [_ Hb]. apply (tiles_in _ _ _ _ HT) in Hb.
  destruct (decide (b_seg b = s)) as [-> |]; [lia |]. apply Z.lt_le_incl, block_at_lt; [done | lia].
Qed.

(** The state in which the freed block is linked in, before any merge. *)
Lemma rep_insert h A s l B h' r :
  rep h (A ++ mkBlk s l true :: B) ->
  same_frame h h' -> _next_segment h' = _next_segment h -> segmap_bytes h' = segmap_bytes h ->
  _freelist_segments h' = _freelist_segments h + l ->
  (forall b, b ∈ A \/ b ∈ B -> block_ok h b -> block_ok h' b) ->
  blocks h' !! block_at h s = Some (mkFreeBlock l false r) ->
  linked (blocks h') (_freelist h') (addresses h (free_blocks A)) (Some (block_at h s)) ->
  linked (blocks h') r (addresses h (free_blocks B)) None ->
  rep h' (A ++ mkBlk s l false :: B).
Proof.
  intros HR HF Hn Hbytes Hcount Hkeep Hb HLA HLB.
  destruct (rep_bounds _ _ _ _ HR) as (HtA & Hs & Hl & HtB & Hle & _). simpl in HtA, Hs, Hl.
  pose proof (rep_mapped _ _ HR) as Hmap. apply Forall_app in Hmap as [_ [Hmap _]%Forall_cons].
  apply (rep_replace h _ A [mkBlk s l true] [mkBlk s l false] B s (s + l)); auto;
    try (by simpl; split_and!; auto; lia).
  - constructor; [| constructor]. exists r. by rewrite (same_frame_block_at _ _ _ HF).
  - constructor; [| constructor]. by rewrite Hbytes.
  - intros. by rewrite Hbytes.
  - simpl app. rewrite free_blocks_app, free_blocks_cons_free, addresses_app, addresses_cons.
    apply linked_app. exists (Some (block_at h s)). split; [done |]. simpl. eauto.
  - simpl app. rewrite Hcount, (rep_count _ _ HR), !free_blocks_app, free_blocks_cons_free,
      free_blocks_cons_used, !total_app. simpl. lia.
Qed.

(** The freed block becomes the first of the list. *)
Lemma rep_insert_first h A s l B lk :
  rep h (A ++ mkBlk s l true :: B) -> free_blocks A = [] ->
  blocks h !! block_at h s = Some (mkFreeBlock l true lk) ->
  let h1 := update (with_freelist h (Some (block_at h s)) (_freelist_segments h + l))
              (block_at h s) (fun _ => mkFreeBlock l false (_freelist h)) in
  rep h1 (A ++ mkBlk s l false :: B).
Proof.
  intros HR HA Hb h1. pose proof (rep_geometry _ _ HR) as G.
  destruct (rep_used_block _ _ _ _ _ HR) as (_ & r & _ & HLA & HLB).
  destruct (rep_bounds _ _ _ _ HR) as (HtA & Hs & Hl & HtB & _ & _). simpl in HtA, Hs, Hl, HtB.
  rewrite HA in HLA. simpl in HLA. subst r.
  apply (rep_insert h A s l B h1 (_freelist h)); auto.
  - done.
  - intros b Hin Hok. apply (block_ok_update_ne (with_freelist h _ _)); [by apply (same_frame_geometry h) | | done].
    destruct Hin as [Hi | Hi];
      [apply (tiles_in _ _ _ _ HtA) in Hi | apply (tiles_in _ _ _ _ HtB) in Hi]; lia.
  - apply lookup_insert_eq.
  - by rewrite HA.
  - apply linked_frame; [| done]. eapply address_outside; eauto. lia.
Qed.

(** The freed block is linked in after the last free block below it. *)
Lemma rep_insert_after h A1 p pl A2 s l B :
  rep h ((A1 ++ mkBlk p pl false :: A2) ++ mkBlk s l true :: B) -> free_blocks A2 = [] ->
  exists r, blocks h !! block_at h p = Some (mkFreeBlock pl false r) /\
  let h1 := with_freelist h (_freelist h) (_freelist_segments h + l) in
  let h2 := update h1 (block_at h s) (fun _ => mkFreeBlock l false r) in
  let h3 := update h2 (block_at h p) (fun c => set_link c (Some (block_at h s))) in
  rep h3 ((A1 ++ mkBlk p pl false :: A2) ++ mkBlk s l false :: B).
Proof.
  intros HR HA2. pose proof (rep_geometry _ _ HR) as G.
  destruct (rep_bounds _ _ _ _ HR) as (HtA & Hs & Hl & HtB & _ & _). simpl in HtA, Hs, Hl, HtB.
  destruct (tiles_middle _ _ _ _ HtA) as (HtA1 & Hp & Hpl & HtA2 & Hps). simpl in HtA1, Hp, Hpl, HtA2, Hps.
  pose proof HR as HR'. rewrite <- app_assoc in HR'. simpl in HR'.
  destruct (rep_free_block _ _ _ _ _ HR') as (r & Hb & HL1 & HL2).
  rewrite free_blocks_app, HA2, free_blocks_cons_used in HL2. simpl in HL2.
  exists r. split; [done |]. intros h1 h2 h3.
  assert (Hne : block_at h p <> block_at h s) by (rewrite block_at_inj by done; lia).
  assert (Hb2 : block h2 (block_at h p) = mkFreeBlock pl false r)
    by (unfold h2; rewrite block_update_ne by done; by apply block_lookup).
  apply (rep_insert h _ s l B h3 r); auto.
  - done.
  - intros b Hin Hok. apply block_ok_update_link.
    apply (block_ok_update_ne h1); [by apply (same_frame_geometry h) | | done].
    destruct Hin as [Hi | Hi];
      [apply (tiles_in _ _ _ _ HtA) in Hi | apply (tiles_in _ _ _ _ HtB) in Hi]; lia.
  - unfold h3. rewrite blocks_update, lookup_insert_ne by done. apply lookup_insert_eq.
  - rewrite free_blocks_app, free_blocks_cons_free, HA2, addresses_app, addresses_cons.
    apply linked_app. exists (Some (block_at h p)). split.
    + apply linked_frame; [eapply address_outside; eauto; lia |].
      apply linked_frame; [eapply address_outside; eauto; lia |]. done.
    + split; [done |]. eexists. split; [apply lookup_insert_eq |]. by rewrite Hb2.
  - apply linked_frame; [eapply address_outside; eauto; lia |].
    apply linked_frame; [eapply address_outside; eauto; lia |]. done.
Qed.

(** ** Shapes after a merge *)

Lemma free_blocks_nil_used A : free_blocks A = [] -> last_used A /\ head_used A.
Proof.
  intros H. assert (Hall : forall b, b ∈ A -> is_used b).
  { intros b Hb. unfold is_used. destruct (b_used b) eqn:E; [done |].
    assert (Hin : b ∈ free_blocks A) by (by apply elem_of_free_blocks). by rewrite H, elem_of_nil in Hin. }
  split.
  - unfold last_used. destruct (last A) eqn:E; [| done]. apply Hall. by apply last_Some_elem_of.
  - destruct A; [done |]. apply Hall. left.
Qed.

Lemma merged_shape s l u B :
  no_adjacent_free (mkBlk s l u :: B) ->
  exists l' B', merged s l B = mkBlk s l' false :: B' /\ head_used B' /\
    no_adjacent_free B' /\ used_blocks B' = used_blocks B.
Proof.
  intros [_ HB]. destruct B as [| [s1 l1 []] B]; simpl.
  - eexists _, _. split; [done |]. done.
  - eexists _, _. split; [done |]. split; [done |]. split; [exact HB | done].
  - destruct HB as [[HB | HB] HB']; [done |]. eexists _, _. split; [done |].
    rewrite used_blocks_cons_free. auto.
Qed.

(** Joining a free block on its left, given that its right neighbour is in use. *)
Lemma merged_left p pl A2 s l B :
  free_blocks A2 = [] -> no_adjacent_free A2 -> head_used B -> no_adjacent_free B ->
  let L := merged p pl (A2 ++ mkBlk s l false :: B) in
  no_adjacent_free L /\ used_blocks L = used_blocks A2 ++ used_blocks B /\
  exists l' L', L = mkBlk p l' false :: L'.
Proof.
  intros H2 Hn2 HuB HnB. destruct (free_blocks_nil_used A2 H2) as [Hl Hh].
  destruct A2 as [| [s2 l2 u2] A2]; simpl.
  - rewrite used_blocks_cons_free. split_and!; eauto.
  - destruct u2; [| done]. simpl.
    rewrite used_blocks_cons_free, !used_blocks_cons_used, used_blocks_app, used_blocks_cons_free.
    split; [| split; [done | by eauto]]. split; [by right |]. split; [by left |].
    destruct Hn2 as [_ Hn2]. apply no_adjacent_free_app. split_and!; [done | by split; [right |] |].
    left. destruct A2 as [| c A2]; [done |]. unfold last_used in *. by rewrite last_cons_cons in Hl.
Qed.

(** A block in use is not on the free list. *)
Lemma freelist_not_used h A s l B :
  rep h (A ++ mkBlk s l true :: B) -> _freelist h <> Some (block_at h s).
Proof.
  intros HR E. pose proof (rep_geometry _ _ HR) as G.
  destruct (rep_bounds _ _ _ _ HR) as (HtA & Hs & Hl & HtB & _ & _). simpl in HtA, Hs, Hl, HtB.
  pose proof (rep_list _ _ HR) as HL. rewrite E, free_blocks_app, free_blocks_cons_used in HL.
  assert (Hin : block_at h s ∈ addresses h (free_blocks A ++ free_blocks B)).
  { destruct (free_blocks A ++ free_blocks B); [done |]. destruct HL as ([= ->] & _). left. }
  rewrite addresses_app, elem_of_app in Hin.
  destruct Hin as [Hin | Hin]; (eapply address_outside; [..| exact Hin]; eauto; lia).
Qed.

(** What the scan of [add_to_freelist] finds. *)
Lemma scan_for_block h h' A s l B r :
  rep h (A ++ mkBlk s l true :: B) -> blocks h' = blocks h \/
    (exists b, blocks h' = <[block_at h s := b]> (blocks h)) ->
  linked (blocks h) (_freelist h) (addresses h (free_blocks A)) r ->
  linked (blocks h) r (addresses h (free_blocks B)) None ->
  scan_freelist (list_fuel h) h' (block_at h s) None (_freelist h) =
    Some (last (addresses h (free_blocks A)), r) /\
  forall c, r = Some c -> block_at h s < c.
Proof.
  intros HR Hb HLA HLB. pose proof (rep_geometry _ _ HR) as G.
  destruct (rep_bounds _ _ _ _ HR) as (HtA & Hs & Hl & HtB & Hle & _). simpl in HtA, Hs, Hl, HtB, Hle.
  assert (Hr : forall c, r = Some c -> block_at h s < c).
  { intros c Hc. pose proof (head_above h B r (s + l) _ _ G HtB ltac:(lia) HLB c Hc).
    assert (block_at h s < block_at h (s + l)) by (apply block_at_lt; auto; lia). lia. }
  split; [| done]. rewrite (scan_freelist_spec _ _ _ _ _ (addresses h (free_blocks A)) r).
  - by destruct (last _).
  - destruct Hb as [-> | (b & ->)]; [done |]. apply linked_frame; [| done].
    eapply address_outside; eauto; lia.
  - eapply ascending_free; eauto.
  - by eapply addresses_below.
  - intros c Hc. apply Hr in Hc. lia.
  - unfold addresses, list_fuel. rewrite length_fmap. pose proof (free_blocks_length _ _ _ HtA). lia.
Qed.

Lemma update_update h p f g : update (update h p f) p g = update h p (fun b => g (f b)).
Proof.
  unfold update at 1. rewrite block_update_eq, blocks_update, insert_insert_eq. done.
Qed.

Lemma update_ext h p f g : f (block h p) = g (block h p) -> update h p f = update h p g.
Proof. unfold update. by intros ->. Qed.

Lemma update_with_freelist h q n p f :
  update (with_freelist h q n) p f = with_freelist (update h p f) q n.
Proof. done. Qed.

Lemma with_freelist_twice h q n q' n' :
  with_freelist (with_freelist h q n) q' n' = with_freelist h q' n'.
Proof. done. Qed.

(** Linking at the head of the list, then merging. *)
Lemma add_first_spec h A s l B lk :
  inv h (A ++ mkBlk s l true :: B) -> free_blocks A = [] ->
  blocks h !! block_at h s = Some (mkFreeBlock l true lk) ->
  let h1 := update (with_freelist h (Some (block_at h s)) (_freelist_segments h + l))
              (block_at h s) (fun _ => mkFreeBlock l false (_freelist h)) in
  exists h' L', merge_right h1 (block_at h s) = Some h' /\ inv h' L' /\
    used_blocks L' = used_blocks A ++ used_blocks B /\ same_frame h h' /\
    _next_segment h' = _next_segment h.
Proof.
  intros [HR Hna] HA Hb h1. pose proof (rep_insert_first h A s l B lk HR HA Hb) as HR1.
  fold h1 in HR1. destruct (merge_right_spec h1 A s l B HR1) as (h' & Hm & HR' & HF & Hn).
  apply no_adjacent_free_app in Hna as (HnA & HnB & _).
  destruct (merged_shape s l true B HnB) as (l1 & B1 & HM & HuB1 & HnB1 & HusB1).
  exists h', (A ++ merged s l B). split; [done |]. split; [split; [done |] | split; [| split; [| done]]].
  - rewrite HM. apply no_adjacent_free_app. split_and!; [done | by split; [right |] |].
    left. by apply free_blocks_nil_used.
  - by rewrite HM, used_blocks_app, used_blocks_cons_free, HusB1.
  - apply (same_frame_trans _ h1); done.
Qed.

(** Linking after a free block, then merging on both sides. *)
Lemma insert_after_spec h A1 p pl A2 s l B r q n h2 :
  inv h ((A1 ++ mkBlk p pl false :: A2) ++ mkBlk s l true :: B) -> free_blocks A2 = [] ->
  blocks h !! block_at h p = Some (mkFreeBlock pl false r) ->
  let h1 := with_freelist h q n in
  h2 = update h1 (block_at h s) (fun _ => mkFreeBlock l false r) ->
  rep (update h2 (block_at h p) (fun c => set_link c (Some (block_at h s))))
      ((A1 ++ mkBlk p pl false :: A2) ++ mkBlk s l false :: B) ->
  exists h' L',
    (h4 ← merge_right (update h2 (block_at h p) (fun c => set_link c (Some (block_at h s))))
            (block_at h s); merge_right h4 (block_at h p)) = Some h' /\
    inv h' L' /\
    used_blocks L' = used_blocks (A1 ++ mkBlk p pl false :: A2) ++ used_blocks B /\
    same_frame h h' /\ _next_segment h' = _next_segment h.
Proof.
  intros [_ Hna] HA2 Hb h1 -> HR3. set (h3 := update _ (block_at h p) _) in *.
  destruct (merge_right_spec h3 _ s l B HR3) as (h4 & Hm & HR4 & HF4 & Hn4).
  change (block_at h3 s) with (block_at h s) in Hm. rewrite Hm. cbn [mbind option_bind].
  apply no_adjacent_free_app in Hna as (HnA & HnB & _).
  destruct (merged_shape s l true B HnB) as (l1 & B1 & HM & HuB1 & HnB1 & HusB1).
  rewrite HM, <- app_assoc in HR4. simpl in HR4.
  destruct (merge_right_spec h4 _ p pl _ HR4) as (h5 & Hm5 & HR5 & HF5 & Hn5).
  rewrite (same_frame_block_at _ _ _ HF4) in Hm5. change (block_at h3 p) with (block_at h p) in Hm5.
  rewrite Hm5. apply no_adjacent_free_app in HnA as (HnA1 & [HpA2 HnA2] & HlA1).
  destruct (merged_left p pl A2 s l1 B1 HA2 HnA2 HuB1 HnB1) as (Hno & Hus & l' & L' & HL').
  eexists _, _. split; [done |]. split; [split; [exact HR5 |] | split; [| split]].
  - apply no_adjacent_free_app. split_and!; auto. left. destruct HlA1; [done |]. done.
  - rewrite !used_blocks_app, Hus, used_blocks_cons_free, HusB1, app_assoc. done.
  - apply (same_frame_trans _ h3); [done |]. by apply (same_frame_trans _ h4).
  - by rewrite Hn5, Hn4.
Qed.

Lemma add_to_freelist_spec h A s l B :
  inv h (A ++ mkBlk s l true :: B) ->
  exists h' L', add_to_freelist h (block_at h s) = Some h' /\ inv h' L' /\
    used_blocks L' = used_blocks A ++ used_blocks B /\ same_frame h h' /\
    _next_segment h' = _next_segment h.
Proof.
  intros Hinv. pose proof Hinv as [HR Hna]. pose proof (rep_geometry _ _ HR) as G.
  destruct (rep_used_block _ _ _ _ _ HR) as (lk & r & Hb & HLA & HLB).
  destruct (rep_bounds _ _ _ _ HR) as (HtA & Hs & Hl & HtB & Hle & Hsm). simpl in HtA, Hs, Hl, HtB, Hle.
  pose proof (total_free_nonneg _ _ _ (rep_tiles _ _ HR)) as Htot. rewrite <- (rep_count _ _ HR) in Htot.
  unfold add_to_freelist. rewrite (block_lookup _ _ _ Hb). cbn [_length].
  replace (negb (pointer_eqb (Some (block_at h s)) (_freelist h))) with true.
  2: { pose proof (freelist_not_used _ _ _ _ _ HR). simpl. destruct (_freelist h) as [q |]; [| done].
       destruct (Z.eqb_spec (block_at h s) q); [congruence | done]. }
  rewrite wrap_small by (unfold in_unsigned; lia).
  set (h1 := with_freelist h (_freelist h) _). set (h2 := update h1 _ set_free).
  change (_freelist h2) with (_freelist h). change (list_fuel h2) with (list_fuel h).
  destruct (scan_for_block h h2 A s l B r) as [Hscan Hr]; [done | right; by eexists | done | done |].
  assert (Hb1 : block h1 (block_at h s) = mkFreeBlock l true lk) by (by apply block_lookup).
  destruct (last_free A) as [HA | (A1 & p & pl & A2 & -> & HA2)].
  - (* every block below is in use *)
    destruct (add_first_spec h A s l B lk Hinv HA Hb) as (h' & L' & Hm & Hinv' & Hrest).
    rewrite HA in HLA. simpl in HLA. subst r. rewrite HA in Hscan. simpl in Hscan.
    destruct (_freelist h) as [f |] eqn:Hf.
    + rewrite Hscan. cbn [mbind option_bind]. simpl pointer_ltb.
      rewrite (proj2 (Z.ltb_lt _ _) (Hr f eq_refl)). cbn [is_null andb orb].
      exists h', L'. split; [| done]. rewrite <- Hm. f_equal. unfold h2, h1.
      rewrite update_update, !update_with_freelist, with_freelist_twice. f_equal.
      apply update_ext. by rewrite (block_lookup _ _ _ Hb).
    + exists h', L'. split; [| done]. rewrite <- Hm. unfold merge_right at 1.
      rewrite block_update_eq. cbn [free _used negb _link]. f_equal. unfold h2, h1.
      rewrite !update_with_freelist, with_freelist_twice, update_update. f_equal. apply update_ext. by rewrite (block_lookup _ _ _ Hb).
  - (* the block at [p] is the last free one below *)
    destruct (rep_insert_after h A1 p pl A2 s l B HR HA2) as (r' & Hbp & HR3).
    assert (r' = r) as ->.
    { rewrite free_blocks_app, free_blocks_cons_free, HA2, addresses_app, addresses_cons in HLA.
      apply linked_app in HLA as (q & _ & _ & b & Hb' & HL). simpl in Hb', HL. rewrite Hbp in Hb'.
      by injection Hb' as <-. }
    assert (Hlast : last (addresses h (free_blocks (A1 ++ mkBlk p pl false :: A2))) = Some (block_at h p)).
    { rewrite free_blocks_app, free_blocks_cons_free, HA2, addresses_app, addresses_cons.
      apply last_snoc. }
    rewrite Hlast in Hscan. destruct (_freelist h) as [f |] eqn:Hf.
    2: { rewrite free_blocks_app, free_blocks_cons_free, addresses_app in HLA.
         destruct (addresses h (free_blocks A1)); simpl in HLA; by destruct HLA. }
    rewrite Hscan. cbn [mbind option_bind].
    assert (Hps : block_at h p < block_at h s).
    { apply (tiles_middle _ _ _ _) in HtA as (_ & _ & ? & _ & ?). apply block_at_lt; [done |]. simpl in *. lia. }
    replace (pointer_ltb (Some (block_at h p)) (Some (block_at h s))) with true by (simpl; lia).
    replace (is_null r || pointer_ltb (Some (block_at h s)) r) with true.
    2: { destruct r as [c |]; [| done]. simpl. specialize (Hr c eq_refl). lia. }
    cbn [is_null andb orb]. unfold insert_after.
    assert (Hne : block_at h p <> block_at h s) by lia.
    unfold h2. rewrite (block_update_ne _ _ _ _ Hne), update_update.
    change (block h1 (block_at h p)) with (block h (block_at h p)). rewrite (block_lookup _ _ _ Hbp).
    rewrite (update_ext h1 _ _ (fun _ => mkFreeBlock l false r)) by (by rewrite Hb1).
    eapply insert_after_spec; eauto.
Qed.

End CodeHeapOps.
