(* ===== verification/CodeHeapAlloc.v ===== *)
(** The code heap's address lookup, its best-fit search and its operations as a
    whole: [find_start], [search_freelist], [allocate], [deallocate] and the
    iteration over blocks in use. *)
From stdpp Require Import gmap.
From S2P Require Import Prelude GlobalDefinitions ReservedSpace VirtualSpace CodeHeap CodeHeapInv CodeHeapOps.
Import GlobalDefinitions ReservedSpace VirtualSpace CodeHeap CodeHeapInv CodeHeapOps.
Local Open Scope Z_scope.

Module CodeHeapAlloc.

(** ** Finding the block around an address *)

Lemma find_start_loop_spec fuel bs b k :
  mapped bs b -> 0 <= b_seg b -> 0 <= k < b_len b -> (Z.to_nat k < fuel)%nat ->
  find_start_loop fuel bs (b_seg b + k) = Some (b_seg b).
Proof.
  intros Hm Hs. revert k. induction fuel as [| fuel IH]; intros k Hk Hfuel; [lia |].
  cbn [find_start_loop]. destruct (Z.ltb_spec (b_seg b + k) 0); [lia |].
  rewrite (Hm k Hk). cbn [mbind option_bind].
  pose proof (back_bounds k ltac:(lia)) as (Hb & Hle & Hpos).
  destruct (Z.ltb_spec 0 (back k)) as [H0 | H0].
  - replace (b_seg b + k - back k) with (b_seg b + (k - back k)) by lia. apply IH; lia.
  - f_equal. destruct (decide (k = 0)); lia.
Qed.

(** The segment of an address in the committed range. *)
Lemma segment_for_range h p : geometry h ->
  contains h p = true ->
  0 <= segment_for h p < _number_of_committed_segments h /\
  exists k, 0 <= k < _segment_size h /\ p = block_at h (segment_for h p) + k.
Proof.
  intros G Hp. pose proof (segment_size_pos h G) as Hz. destruct G as [Hlog Hsz [Hlo Hlob] Hhi _ _ _ _].
  unfold contains, low_boundary, high in Hp. rewrite <- Hlob, Hhi in Hp.
  unfold block_at, segment_for. rewrite Z.shiftl_mul_pow2, Z.shiftr_div_pow2, <- Hsz by lia.
  pose proof (Z.div_mod (p - _low (_memory h)) (_segment_size h) ltac:(lia)).
  pose proof (Z.mod_pos_bound (p - _low (_memory h)) (_segment_size h) ltac:(lia)).
  split; [split; [apply Z.div_pos; lia | apply Z.div_lt_upper_bound; lia] |].
  exists ((p - _low (_memory h)) mod _segment_size h). split; lia.
Qed.

Definition in_block (h : CodeHeap) (b : blk) (p : Z) : Prop :=
  block_at h (b_seg b) <= p < block_at h (b_seg b + b_len b).

Lemma in_block_segment h b p : geometry h -> contains h p = true ->
  in_block h b p <-> b_seg b <= segment_for h p < b_seg b + b_len b.
Proof.
  intros G Hp. destruct (segment_for_range h p G Hp) as (_ & k & Hk & Ep).
  unfold in_block. rewrite Ep at 1 2. rewrite !block_at_eq by done.
  pose proof (segment_size_pos h G). nia.
Qed.

Lemma tiles_find s L e i : tiles s L e -> s <= i < e ->
  exists b, b ∈ L /\ b_seg b <= i < b_seg b + b_len b.
Proof.
  revert s. induction L as [| b L IH]; intros s; simpl; [lia |].
  intros (<- & Hl & HT) Hi. destruct (Z.lt_ge_cases i (b_seg b + b_len b)) as [Hlt | Hge].
  - exists b. split; [left | lia].
  - destruct (IH _ HT ltac:(lia)) as (c & Hc & Hic). exists c. split; [by right | done].
Qed.

(** The lookup inside a block of the heap. *)
Lemma find_start_in_block h L b p :
  rep h L -> b ∈ L -> in_block h b p ->
  find_start h p =
    Some (if b_used b then Some (allocated_space (block_at h (b_seg b))) else None).
Proof.
  intros HR Hb Hin. pose proof (rep_geometry _ _ HR) as G.
  pose proof (tiles_in _ _ _ _ (rep_tiles _ _ HR) Hb) as (Hs & He & Hl).
  pose proof (rep_next _ _ HR) as Hn.
  assert (Hc : contains h p = true).
  { unfold contains, low_boundary, high. destruct Hin as [H1 H2]. rewrite block_at_eq in H1, H2 by done.
    pose proof (segment_size_pos h G). destruct (geo_low h G). rewrite (geo_high h G). nia. }
  apply (in_block_segment h b p G Hc) in Hin.
  unfold find_start. rewrite Hc. cbn [negb].
  pose proof (rep_mapped _ _ HR) as Hm. rewrite Forall_forall in Hm. specialize (Hm b Hb).
  set (k := segment_for h p - b_seg b).
  replace (segment_for h p) with (b_seg b + k) by lia.
  rewrite (Hm k) by lia. cbn [mbind option_bind].
  pose proof (back_bounds k ltac:(lia)) as (Hbk & _ & _).
  destruct (Z.eqb_spec (back k) 255); [lia |].
  rewrite find_start_loop_spec by (auto; lia). cbn [mbind option_bind].
  pose proof (rep_blocks _ _ HR) as HB. rewrite Forall_forall in HB. destruct (HB b Hb) as (lk & E).
  rewrite (block_lookup _ _ _ E). unfold free. cbn [_used]. by destruct (b_used b).
Qed.

Lemma find_start_outside h L p :
  rep h L -> (forall b, b ∈ L -> ~ in_block h b p) -> find_start h p = Some None.
Proof.
  intros HR Hout. pose proof (rep_geometry _ _ HR) as G. unfold find_start.
  destruct (contains h p) eqn:Hc; [| done]. cbn [negb].
  destruct (segment_for_range h p G Hc) as (Hi & _).
  rewrite (rep_rest _ _ HR); [done |].
  destruct (Z.lt_ge_cases (segment_for h p) (_next_segment h)) as [Hlt | Hge]; [| lia].
  destruct (tiles_find _ _ _ _ (rep_tiles _ _ HR) (conj (proj1 Hi) Hlt)) as (b & Hb & Hib).
  destruct (Hout b Hb). by apply in_block_segment.
Qed.

(** ** The best-fit search *)

(** What the search loop has found among the free blocks [D] it has passed. *)
Definition best_of (h : CodeHeap) (n : Z) (D : list blk) (bb bp : option Z) (bl : Z) : Prop :=
  match bb with
  | None => forall c, c ∈ D -> b_len c < n
  | Some a => exists D1 c D2, D = D1 ++ c :: D2 /\ a = block_at h (b_seg c) /\
      bp = last (addresses h D1) /\ bl = b_len c /\ n <= bl /\
      forall d, d ∈ D -> n <= b_len d -> bl <= b_len d
  end.

Lemma best_of_skip h n D bb bp bl c :
  best_of h n D bb bp bl ->
  ((n <=? b_len c) && (is_null bb || (b_len c <? bl))) = false ->
  best_of h n (D ++ [c]) bb bp bl.
Proof.
  intros HB Hc. destruct bb as [a |]; simpl in *.
  - destruct HB as (D1 & c0 & D2 & -> & -> & -> & -> & Hn & Hmin).
    exists D1, c0, (D2 ++ [c]). split; [by rewrite <- app_assoc |]. split_and!; auto.
    intros d. rewrite elem_of_app, list_elem_of_singleton. intros [Hd | ->]; [auto |]. lia.
  - intros d. rewrite elem_of_app, list_elem_of_singleton. intros [Hd | ->]; [auto |]. lia.
Qed.

Lemma best_of_take h n D bb bp bl c :
  best_of h n D bb bp bl ->
  ((n <=? b_len c) && (is_null bb || (b_len c <? bl))) = true ->
  best_of h n (D ++ [c]) (Some (block_at h (b_seg c))) (last (addresses h D)) (b_len c).
Proof.
  intros HB Hc. exists D, c, []. split_and!; auto; [lia |].
  intros d. rewrite elem_of_app, list_elem_of_singleton. intros [Hd | ->] Hnd; [| lia].
  destruct bb as [a |]; simpl in *.
  - destruct HB as (D1 & c0 & D2 & -> & _ & _ & -> & _ & Hmin). specialize (Hmin d Hd Hnd). lia.
  - specialize (HB d Hd). lia.
Qed.

Lemma free_blocks_split L D1 c D2 :
  free_blocks L = D1 ++ c :: D2 ->
  exists A B, L = A ++ c :: B /\ free_blocks A = D1 /\ free_blocks B = D2 /\ b_used c = false.
Proof.
  revert D1. induction L as [| [s l u] L IH]; intros D1 E; [by destruct D1 |]. destruct u.
  - rewrite free_blocks_cons_used in E. destruct (IH D1 E) as (A & B & -> & HA & HB & Hc).
    exists (mkBlk s l true :: A), B. rewrite free_blocks_cons_used. auto.
  - rewrite free_blocks_cons_free in E. destruct D1 as [| d D1]; injection E as <- E.
    + exists [], L. auto.
    + destruct (IH D1 E) as (A & B & -> & HA & HB & Hc). exists (mkBlk s l false :: A), B.
      rewrite free_blocks_cons_free, HA. auto.
Qed.

(** Redirecting the last link of a list. *)
Lemma linked_redirect m p l a q b q' :
  a ∉ l -> linked m p (l ++ [a]) q -> linked (<[a := set_link b q']> m) p (l ++ [a]) q'.
Proof.
  intros Ha (r & H1 & -> & _)%linked_app. apply linked_app. exists (Some a).
  split; [by apply linked_frame |]. simpl. split; [done |]. eexists. split; [apply lookup_insert_eq | done].
Qed.

Lemma no_dup_addresses h L s e : geometry h -> tiles s L e -> NoDup (addresses h (free_blocks L)).
Proof.
  intros G. revert s. induction L as [| [a l u] L IH]; intros s HT; [constructor |].
  simpl in HT. destruct HT as (-> & Hl & HT). destruct u.
  - rewrite free_blocks_cons_used. eauto.
  - rewrite free_blocks_cons_free, addresses_cons. constructor; [| eauto].
    eapply address_outside; eauto. simpl. lia.
Qed.

(** Unlinking a block: the pointer that led to it is redirected to its successor. *)
Definition unlink (h : CodeHeap) (best : Z) (best_prev : option Z) : CodeHeap :=
  match best_prev with
  | None => with_freelist h (_link (block h best)) (_freelist_segments h)
  | Some p => update h p (fun b => set_link b (_link (block h best)))
  end.

Lemma rep_take h A s l B n :
  rep h (A ++ mkBlk s l false :: B) -> n = _freelist_segments h - l ->
  let h1 := update (unlink h (block_at h s) (last (addresses h (free_blocks A)))) (block_at h s) set_used in
  rep (with_freelist h1 (_freelist h1) n) (A ++ mkBlk s l true :: B) /\ same_frame h h1 /\
  _next_segment h1 = _next_segment h.
Proof.
  intros HR Hn. pose proof (rep_geometry _ _ HR) as G.
  destruct (rep_free_block _ _ _ _ _ HR) as (lk & Hb & HLA & HLB).
  destruct (rep_bounds _ _ _ _ HR) as (HtA & Hs & Hl & HtB & Hle & _). simpl in HtA, Hs, Hl, HtB, Hle.
  pose proof (rep_mapped _ _ HR) as Hmap. apply Forall_app in Hmap as [_ [Hmap _]%Forall_cons].
  set (h0 := unlink _ _ _). intros h1.
  assert (E0 : h0 = match last (addresses h (free_blocks A)) with
                    | None => with_freelist h lk (_freelist_segments h)
                    | Some p => update h p (fun b => set_link b lk)
                    end) by (unfold h0, unlink; by rewrite (block_lookup _ _ _ Hb)).
  clearbody h0.
  assert (HF0 : same_frame h h0 /\ _next_segment h0 = _next_segment h /\
    segmap_bytes h0 = segmap_bytes h) by (rewrite E0; by destruct (last _)).
  destruct HF0 as (HF0 & Hn0 & Hby0).
  assert (Hin : forall a, a ∈ addresses h (free_blocks A) -> a <> block_at h s).
  { intros a Ha ->. eapply address_outside in Ha; eauto. lia. }
  assert (Hb0 : blocks h0 !! block_at h s = Some (mkFreeBlock l false lk)).
  { rewrite E0. destruct (last _) eqn:E; [| done]. rewrite blocks_update, lookup_insert_ne; [done |].
    apply Hin. by apply last_Some_elem_of. }
  assert (Hlist : linked (blocks h0) (_freelist h0) (addresses h (free_blocks A)) lk /\
    linked (blocks h0) lk (addresses h (free_blocks B)) None).
  { rewrite E0. destruct (last (addresses h (free_blocks A))) as [p |] eqn:E.
    - apply last_Some in E as (l' & E). pose proof (no_dup_addresses h A _ _ G HtA) as Hnd. rewrite E in *.
      apply NoDup_app in Hnd as (_ & Hnd & _). split.
      + apply (linked_redirect _ _ _ _ (Some (block_at h s))); [| done].
        intros Hp. apply (Hnd p Hp). left.
      + apply linked_frame; [| done]. intros Hp. assert (Hp' : p ∈ addresses h (free_blocks A)) by (rewrite E; set_solver).
        apply list_elem_of_fmap in Hp' as (b1 & E1 & Hb1). rewrite E1 in Hp.
        apply elem_of_free_blocks in Hb1 as [_ Hb1]. apply (tiles_in _ _ _ _ HtA) in Hb1.
        eapply address_outside in Hp; eauto. lia.
    - apply last_None in E. rewrite E. split; [done | done]. }
  split; [| done].
  apply (rep_replace h _ A [mkBlk s l false] [mkBlk s l true] B s (s + l)); auto;
    try (by simpl; split_and!; auto; lia).
  - intros b Hbin Hok. change (block_ok h1 b). unfold h1. rewrite <- (same_frame_block_at _ _ s HF0).
    apply block_ok_update_ne; [by apply (same_frame_geometry h) | |].
    + destruct Hbin as [Hi | Hi];
        [apply (tiles_in _ _ _ _ HtA) in Hi | apply (tiles_in _ _ _ _ HtB) in Hi]; lia.
    + rewrite E0. destruct (last _); [by apply block_ok_update_link | done].
  - constructor; [| constructor]. exists lk.
    rewrite (same_frame_block_at h (with_freelist h1 (_freelist h1) n) _ HF0). simpl.
    rewrite (block_lookup _ _ _ Hb0). apply lookup_insert_eq.
  - constructor; [| constructor]. change (mapped (segmap_bytes h0) (mkBlk s l true)). by rewrite Hby0.
  - intros. change (segmap_bytes h0 !! Z.to_nat i = segmap_bytes h !! Z.to_nat i). by rewrite Hby0.
  - simpl app. rewrite free_blocks_app, free_blocks_cons_used, addresses_app.
    apply linked_app. exists lk. simpl. destruct Hlist.
    split; eapply linked_header; eauto; by rewrite (block_lookup _ _ _ Hb0).
  - simpl. rewrite Hn, (rep_count _ _ HR), !free_blocks_app, free_blocks_cons_free,
      free_blocks_cons_used, !total_app. simpl. lia.
Qed.

(** Cutting the tail off a free block. *)
Lemma rep_split h A s l B n h' bs lk :
  rep h (A ++ mkBlk s l false :: B) -> 0 < n < l ->
  same_frame h h' -> _next_segment h' = _next_segment h -> _freelist h' = _freelist h ->
  _freelist_segments h' = _freelist_segments h - n -> segmap_bytes h' = bs ->
  (exists lk0, blocks h !! block_at h s = Some (mkFreeBlock l false lk0) /\
    blocks h' = <[block_at h (s + (l - n)) := mkFreeBlock n true lk]>
                  (<[block_at h s := mkFreeBlock (l - n) false lk0]> (blocks h))) ->
  mapped bs (mkBlk (s + (l - n)) n true) ->
  (forall i, 0 <= i -> i < s + (l - n) \/ s + (l - n) + n <= i ->
    bs !! Z.to_nat i = segmap_bytes h !! Z.to_nat i) ->
  rep h' (A ++ mkBlk s (l - n) false :: mkBlk (s + (l - n)) n true :: B).
Proof.
  intros HR Hn HF Hnx Hfl Hfs Hbs (lk0 & Hb & Hbl) Hmap Hout. pose proof (rep_geometry _ _ HR) as G.
  destruct (rep_free_block _ _ _ _ _ HR) as (lk1 & Hb1 & HLA & HLB). rewrite Hb in Hb1.
  injection Hb1 as <-.
  destruct (rep_bounds _ _ _ _ HR) as (HtA & Hs & Hl & HtB & Hle & _). simpl in HtA, Hs, Hl, HtB, Hle.
  pose proof (rep_mapped _ _ HR) as Hm. apply Forall_app in Hm as [_ [Hm _]%Forall_cons].
  assert (Hne : block_at h (s + (l - n)) <> block_at h s) by (rewrite block_at_inj by done; lia).
  apply (rep_replace h _ A [mkBlk s l false] [mkBlk s (l - n) false; mkBlk (s + (l - n)) n true] B
    s (s + l)); auto; try (by simpl; split_and!; auto; lia).
  - intros b Hbin (lkb & Hbb). exists lkb. rewrite Hbl, (same_frame_block_at _ _ _ HF).
    rewrite !lookup_insert_ne; [done | |]; rewrite block_at_inj by done;
    (destruct Hbin as [Hi | Hi];
      [apply (tiles_in _ _ _ _ HtA) in Hi | apply (tiles_in _ _ _ _ HtB) in Hi]; lia).
  - constructor; [| constructor; [| constructor]].
    + exists lk0. rewrite Hbl, (same_frame_block_at _ _ _ HF), lookup_insert_ne by done.
      apply lookup_insert_eq.
    + exists lk. rewrite Hbl, (same_frame_block_at _ _ _ HF). apply lookup_insert_eq.
  - rewrite Hbs. constructor; [| constructor; [done | constructor]].
    intros k Hk. simpl in *. rewrite Hout by lia. apply (Hm k). simpl. lia.
  - intros i Hi Ho. rewrite Hbs. apply Hout; lia.
  - simpl app. rewrite free_blocks_app, free_blocks_cons_free, free_blocks_cons_used.
    rewrite addresses_app, addresses_cons, Hbl, Hfl. simpl b_seg.
    apply linked_app. exists (Some (block_at h s)). split.
    + apply linked_frame; [eapply address_outside; eauto; lia |].
      apply linked_frame; [eapply address_outside; eauto; lia | done].
    + split; [done |]. eexists. split; [rewrite lookup_insert_ne by done; apply lookup_insert_eq |].
      apply linked_frame; [eapply address_outside; eauto; lia |].
      apply linked_frame; [eapply address_outside; eauto; lia | done].
  - simpl app. rewrite Hfs, (rep_count _ _ HR), !free_blocks_app, !free_blocks_cons_free,
      free_blocks_cons_used, !total_app. simpl. lia.
Qed.

(** The predecessor the search reports leads to the block. *)
Lemma best_prev_links h A s l B :
  rep h (A ++ mkBlk s l false :: B) ->
  match last (addresses h (free_blocks A)) with
  | None => pointer_eqb (_freelist h) (Some (block_at h s))
  | Some p => pointer_eqb (_link (block h p)) (Some (block_at h s))
  end = true.
Proof.
  intros HR. destruct (rep_free_block _ _ _ _ _ HR) as (lk & _ & HLA & _).
  destruct (last (addresses h (free_blocks A))) as [p |] eqn:E.
  - apply last_Some in E as (l' & E). rewrite E in HLA.
    apply linked_app in HLA as (r & _ & _ & b & Hb & HL). simpl in HL.
    rewrite (block_lookup _ _ _ Hb), HL. apply Z.eqb_refl.
  - apply last_None in E. rewrite E in HLA. simpl in HLA. rewrite HLA. apply Z.eqb_refl.
Qed.

(** The branch of [search_freelist] that splits the block it found. *)
Lemma split_spec h A s l B n :
  rep h (A ++ mkBlk s l false :: B) -> 0 < n < l ->
  exists h',
    (let h := update h (block_at h s) (fun b => set_length b (wrap 64 (l - n))) in
     let best := following_block h (block_at h s) in
     let beg := segment_for h best in
     h ← mark_segmap_as_used h beg (beg + n);
     let h := update h best (fun b => set_length b n) in
     let h := update h best set_used in
     Some (Some best, with_freelist h (_freelist h) (wrap 64 (_freelist_segments h - n)))) =
      Some (Some (block_at h (s + (l - n))), h') /\
    rep h' (A ++ mkBlk s (l - n) false :: mkBlk (s + (l - n)) n true :: B) /\
    same_frame h h' /\ _next_segment h' = _next_segment h.
Proof.
  intros HR Hn. pose proof (rep_geometry _ _ HR) as G.
  destruct (rep_free_block _ _ _ _ _ HR) as (lk & Hb & HLA & HLB).
  destruct (rep_bounds _ _ _ _ HR) as (HtA & Hs & Hl & HtB & Hle & Hsm). simpl in HtA, Hs, Hl, HtB, Hle.
  rewrite (wrap_small 64 (l - n)) by (unfold in_unsigned; lia).
  assert (Hcnt : 0 <= _freelist_segments h - n < 2 ^ 64).
  { pose proof (total_free_nonneg _ _ _ (rep_tiles _ _ HR)). pose proof (rep_count _ _ HR) as Hc.
    rewrite free_blocks_app, free_blocks_cons_free, total_app in Hc. simpl in Hc.
    pose proof (total_free_nonneg _ _ _ HtA). pose proof (total_free_nonneg _ _ _ HtB). lia. }
  set (h1 := update h (block_at h s) _). cbv zeta.
  assert (G1 : geometry h1) by (by apply (same_frame_geometry h)).
  assert (Hb1 : blocks h1 !! block_at h s = Some (mkFreeBlock (l - n) false lk)).
  { unfold h1. rewrite blocks_update, lookup_insert_eq. by rewrite (block_lookup _ _ _ Hb). }
  rewrite (following_block_at h1 s (l - n) false lk G1 Hb1).
  rewrite (segment_for_block h1 G1).
  destruct (mark_used_spec h1 (s + (l - n)) n) as (bs & Hm & Hlen & Hmap & Hout);
    [done | lia | lia | simpl; lia |].
  rewrite Hm. cbn [mbind option_bind]. eexists. split; [done |]. rewrite update_update.
  split; [| split; [| done]]; [| by repeat split].
  eapply (rep_split h A s l B n _ bs); [done | done | by repeat split | done | done
    | simpl; by apply wrap_small | done | | done | exact Hout].
  exists lk. split; [done |]. simpl. unfold set_used, set_length. simpl.
  rewrite (block_lookup _ _ _ Hb). done.
Qed.

Section Search.
Context (CodeCacheMinBlockLength CodeCacheMinimumFreeSpace : Z).

Lemma search_loop_spec fuel h n crit D R cur bb bp bl :
  Forall (fun b => exists u lk, blocks h !! block_at h (b_seg b) = Some (mkFreeBlock (b_len b) u lk)) R ->
  linked (blocks h) cur (addresses h R) None -> (length R <= fuel)%nat ->
  best_of h n D bb bp bl ->
  exists D' bb' bp' bl',
    search_loop CodeCacheMinimumFreeSpace fuel h n crit (last (addresses h D)) cur bb bp bl = Some (bb', bp', bl') /\
    best_of h n D' bb' bp' bl' /\ D' `prefix_of` D ++ R /\ (crit = true -> D' = D ++ R).
Proof.
  revert D cur bb bp bl fuel. induction R as [| c R IH]; intros D cur bb bp bl fuel HF HL Hfuel HB.
  - simpl in HL. subst cur. exists D, bb, bp, bl. rewrite app_nil_r.
    split_and!; auto. by destruct fuel.
  - rewrite addresses_cons in HL. destruct HL as (-> & b & Hb & HL).
    apply Forall_cons in HF as [(u & lk & E) HF]. rewrite Hb in E. injection E as ->.
    simpl in Hfuel. destruct fuel as [| fuel]; [lia |]. cbn [CodeHeap.search_loop].
    rewrite (block_lookup _ _ _ Hb). cbn [_length _link].
    assert (HD : last (addresses h (D ++ [c])) = Some (block_at h (b_seg c)))
      by (rewrite addresses_app; apply last_snoc).
    assert (Happ : D ++ c :: R = (D ++ [c]) ++ R) by (by rewrite <- app_assoc).
    destruct ((n <=? b_len c) && (is_null bb || (b_len c <? bl))) eqn:Hfit.
    + destruct (negb crit && _) eqn:Hstop.
      * exists D, bb, bp, bl. split_and!; auto; [by apply prefix_app_r | by destruct crit].
      * destruct (IH (D ++ [c]) lk (Some (block_at h (b_seg c))) (last (addresses h D)) (b_len c) fuel)
          as (D' & H); [done | done | lia | by eapply best_of_take |].
        rewrite HD, <- Happ in H. by exists D'.
    + destruct (IH (D ++ [c]) lk bb bp bl fuel)
        as (D' & H); [done | done | lia | by apply best_of_skip |].
      rewrite HD, <- Happ in H. by exists D'.
Qed.

(** What a search of the free list may answer. *)
Inductive found (L : list blk) (n : Z) (crit : bool) : option Z -> list blk -> Prop :=
  | found_none : (crit = true -> forall b, b ∈ L -> b_used b = false -> b_len b < n) ->
      found L n crit None L
  | found_exact A s l B : L = A ++ mkBlk s l false :: B ->
      n <= l < n + CodeCacheMinBlockLength ->
      (crit = true -> forall b, b ∈ L -> b_used b = false -> n <= b_len b -> l <= b_len b) ->
      found L n crit (Some s) (A ++ mkBlk s l true :: B)
  | found_split A s l B : L = A ++ mkBlk s l false :: B ->
      n + CodeCacheMinBlockLength <= l ->
      (crit = true -> forall b, b ∈ L -> b_used b = false -> n <= b_len b -> l <= b_len b) ->
      found L n crit (Some (s + (l - n)))
        (A ++ mkBlk s (l - n) false :: mkBlk (s + (l - n)) n true :: B).

Lemma search_freelist_spec h L n crit :
  rep h L -> 0 < n < 2 ^ 60 -> 0 < CodeCacheMinBlockLength < 2 ^ 60 ->
  exists r h' L',
    search_freelist CodeCacheMinBlockLength CodeCacheMinimumFreeSpace h n crit =
      Some (block_at h <$> r, h') /\
    found L n crit r L' /\ rep h' L' /\ same_frame h h' /\ _next_segment h' = _next_segment h /\
    (r = None -> h' = h).
Proof.
  intros HR Hn Hmin. pose proof (rep_geometry _ _ HR) as G.
  destruct (search_loop_spec (list_fuel h) h n crit [] (free_blocks L) (_freelist h) None None 0)
    as (D & bb & bp & bl & Hloop & Hbest & [R HD] & Hcrit).
  { pose proof (rep_blocks _ _ HR) as HB. rewrite Forall_forall in *. intros b Hb.
    apply elem_of_free_blocks in Hb as [Hu Hb]. destruct (HB b Hb) as (lk & E). eauto. }
  { apply (rep_list _ _ HR). }
  { unfold list_fuel. pose proof (free_blocks_length _ _ _ (rep_tiles _ _ HR)). lia. }
  { simpl. intros c. by rewrite elem_of_nil. }
  change (last (addresses h [])) with (@None Z) in Hloop.
  unfold search_freelist. rewrite Hloop. cbn [mbind option_bind]. simpl app in HD, Hcrit.
  destruct bb as [a |]; cbn [best_of] in Hbest.
  2: { exists None, h, L. split_and!; auto; [| done]. constructor.
       intros -> b Hb Hu. apply Hbest. rewrite (Hcrit eq_refl). by apply elem_of_free_blocks. }
  destruct Hbest as (D1 & c & D2 & -> & -> & -> & -> & Hnc & Hbm).
  rewrite <- app_assoc in HD. simpl in HD.
  destruct (free_blocks_split L D1 c (D2 ++ R)) as (A & B & -> & HA & HB & Hc);
    [done |]. destruct c as [s l u]. simpl in Hc, Hnc, Hbm. subst u. simpl b_seg. simpl b_len.
  assert (Hbest' : crit = true -> forall b, b ∈ A ++ mkBlk s l false :: B -> b_used b = false ->
    n <= b_len b -> l <= b_len b).
  { intros -> b Hb Hu. apply Hbm. rewrite (Hcrit eq_refl). by apply elem_of_free_blocks. }
  subst D1. rewrite (best_prev_links _ _ _ _ _ HR).
  destruct (rep_bounds _ _ _ _ HR) as (HtA & Hs & Hl & HtB & Hle & Hsm).
  simpl in HtA, Hs, Hl, HtB, Hle.
  rewrite (wrap_small _ (n + _)) by (unfold in_unsigned; lia).
  pose proof (total_free_nonneg _ _ _ (rep_tiles _ _ HR)) as Htot.
  pose proof (rep_count _ _ HR) as Hcount.
  assert (Hl_le : l <= _freelist_segments h).
  { rewrite Hcount, free_blocks_app, free_blocks_cons_free, total_app. simpl.
    pose proof (total_free_nonneg _ _ _ HtA). pose proof (total_free_nonneg _ _ _ HtB). lia. }
  destruct (Z.ltb_spec l (n + CodeCacheMinBlockLength)) as [Hfit | Hsplit].
  - destruct (rep_take h A s l B (_freelist_segments h - l) HR eq_refl) as (HR' & HF' & Hn').
    exists (Some s). eexists _, _. split; [| split; [by apply found_exact | by split_and!]].
    unfold unlink. destruct (last _) as [p |]; simpl; rewrite wrap_small by (unfold in_unsigned; lia); done.
  - destruct (split_spec h A s l B n HR ltac:(lia)) as (h' & Hm & HR' & HF' & Hn').
    exists (Some (s + (l - n))), h'. eexists. split; [| split; [by apply found_split | by split_and!]].
    exact Hm.
Qed.

Lemma found_no_adjacent L n crit r L' :
  found L n crit r L' -> no_adjacent_free L -> no_adjacent_free L'.
Proof.
  intros HF Hna. destruct HF as [| A s l B -> | A s l B ->]; [done | |];
    apply no_adjacent_free_app in Hna as (HA & HB & HAB); apply no_adjacent_free_app;
    simpl in *; unfold is_used in *; simpl in *; intuition.
Qed.

(** The used blocks after a search. *)
Lemma found_used L n crit r L' :
  found L n crit r L' -> 0 < CodeCacheMinBlockLength ->
  match r with
  | None => L' = L
  | Some s => exists l, n <= l < n + CodeCacheMinBlockLength /\
      mkBlk s l true ∈ L' /\ used_blocks L' ≡ₚ mkBlk s l true :: used_blocks L
  end.
Proof.
  intros HF Hn. destruct HF as [| A s l B -> | A s l B ->]; [done | |].
  - exists l. split; [done |]. split; [set_solver |].
    rewrite !used_blocks_app, used_blocks_cons_used, used_blocks_cons_free. solve_Permutation.
  - exists n. split; [lia |]. split; [set_solver |].
    rewrite !used_blocks_app, !used_blocks_cons_free, used_blocks_cons_used. solve_Permutation.
Qed.
End Search.

(** A new block at the end of the segments in use. *)
Lemma rep_extend h L n bs lk h' :
  rep h L -> 0 < n -> _next_segment h + n <= _number_of_committed_segments h ->
  same_frame h h' -> _next_segment h' = _next_segment h + n -> _freelist h' = _freelist h ->
  _freelist_segments h' = _freelist_segments h -> segmap_bytes h' = bs ->
  blocks h' = <[block_at h (_next_segment h) := mkFreeBlock n true lk]> (blocks h) ->
  mapped bs (mkBlk (_next_segment h) n true) ->
  (forall i, 0 <= i -> i < _next_segment h \/ _next_segment h + n <= i ->
    bs !! Z.to_nat i = segmap_bytes h !! Z.to_nat i) ->
  rep h' (L ++ [mkBlk (_next_segment h) n true]).
Proof.
  intros HR Hn Hle HF Hnx Hfl Hfs Hbs Hbl Hmap Hout. pose proof HR as [G HT Hnc HB HM Hrest HL Hc].
  pose proof (tiles_le _ _ _ HT) as H0. pose proof HF as (_ & _ & Hcm & _).
  assert (Hin : forall b, b ∈ L -> 0 <= b_seg b /\ b_seg b + b_len b <= _next_segment h /\ 0 < b_len b)
    by (intros b; by apply tiles_in).
  constructor.
  - by eapply same_frame_geometry.
  - rewrite Hnx. apply tiles_app. exists (_next_segment h). simpl. split_and!; auto.
  - by rewrite Hnx, Hcm.
  - rewrite Forall_app. split.
    + rewrite Forall_forall in *. intros b Hb. destruct (HB b Hb) as (lkb & E). exists lkb.
      rewrite Hbl, (same_frame_block_at _ _ _ HF), lookup_insert_ne; [done |].
      rewrite block_at_inj by done. specialize (Hin b Hb). lia.
    + constructor; [| constructor]. exists lk. rewrite Hbl, (same_frame_block_at _ _ _ HF).
      apply lookup_insert_eq.
  - rewrite Forall_app, Hbs. split; [| constructor; [done | constructor]].
    rewrite Forall_forall in *. intros b Hb. specialize (Hin b Hb).
    eapply mapped_outside; [lia | | exact Hout | by apply HM]. lia.
  - intros i Hi. rewrite Hnx, Hcm in Hi. rewrite Hbs, Hout by lia. apply Hrest. lia.
  - rewrite (same_frame_addresses _ _ _ HF), free_blocks_app, free_blocks_cons_used, app_nil_r, Hfl, Hbl.
    apply linked_frame; [| done]. eapply address_outside; eauto. lia.
  - rewrite Hfs, Hc, free_blocks_app, free_blocks_cons_used, app_nil_r. done.
Qed.

(** The number of segments a request needs: the least that hold it and a header. *)
Lemma size_to_segments_spec h size :
  geometry h -> 0 <= size < 2 ^ 60 ->
  let n := size_to_segments h (wrap 64 (size + header_size)) in
  0 < n < 2 ^ 57 /\ (n - 1) * _segment_size h < size + header_size <= n * _segment_size h /\
  segments_to_size h n = n * _segment_size h.
Proof.
  intros G Hs. pose proof (segment_size_pos h G) as Hz. pose proof (geo_size h G) as Hsz.
  pose proof (geo_log2 h G) as Hlog.
  assert (Hz' : _segment_size h < 2 ^ 32) by (rewrite Hsz; apply Z.pow_lt_mono_r; lia).
  cbv zeta. unfold size_to_segments, header_size.
  rewrite (wrap_small 64 (size + 16)) by (unfold in_unsigned; lia).
  rewrite wrap_small by (unfold in_unsigned; lia).
  rewrite Z.shiftr_div_pow2, <- Hsz by lia. set (n := _ / _).
  assert (Hn : (n - 1) * _segment_size h < size + 16 <= n * _segment_size h).
  { pose proof (Z.div_mod (size + 16 + _segment_size h - 1) (_segment_size h) ltac:(lia)).
    pose proof (Z.mod_pos_bound (size + 16 + _segment_size h - 1) (_segment_size h) ltac:(lia)).
    unfold n. lia. }
  cbv zeta. split; [nia |]. split; [done |].
  unfold segments_to_size. rewrite Z.shiftl_mul_pow2, <- Hsz by lia. apply wrap_small.
  unfold in_unsigned. nia.
Qed.

(** Blocks of a heap do not overlap. *)
Lemma blocks_disjoint h L b b' p :
  rep h L -> b ∈ L -> b' ∈ L -> in_block h b p -> in_block h b' p -> b = b'.
Proof.
  intros HR Hb Hb' Hp Hp'. pose proof (rep_geometry _ _ HR) as G. pose proof (rep_tiles _ _ HR) as HT.
  assert (Hlt : forall i j, block_at h i <= p < block_at h j -> i < j)
    by (intros i j Hij; apply (block_at_lt h G); lia).
  pose proof (Hlt _ _ Hp). pose proof (Hlt _ _ Hp').
  assert (b_seg b < b_seg b' + b_len b') by (apply Hlt; unfold in_block in *; lia).
  assert (b_seg b' < b_seg b + b_len b) by (apply Hlt; unfold in_block in *; lia).
  clear - Hb Hb' HT H1 H2. revert HT. generalize 0. induction L as [| c L IH]; [by rewrite elem_of_nil in Hb |].
  intros s (Hs & Hl & HT). apply elem_of_cons in Hb as [-> | Hb], Hb' as [-> | Hb']; [done | | | eauto].
  - apply (tiles_in _ _ _ _ HT) in Hb'. lia.
  - apply (tiles_in _ _ _ _ HT) in Hb. lia.
Qed.

Section Allocate.
Context (CodeCacheMinBlockLength CodeCacheMinimumFreeSpace : Z).
Context (Hmin : 0 < CodeCacheMinBlockLength < 2 ^ 30).

(** The heap has no room for a request: no free block fits, and the segments
    committed but never used are too few. *)
Definition exhausted (h : CodeHeap) (L : list blk) (size : Z) : Prop :=
  exists n, size + header_size <= n * _segment_size h < size + header_size + _segment_size h /\
    (forall b, b ∈ L -> b_used b = false -> b_len b < n) /\
    _number_of_committed_segments h < _next_segment h + Z.max n CodeCacheMinBlockLength.

(** What [allocate] promises of its result. *)
Definition allocated (h : CodeHeap) (L : list blk) (size : Z) (crit : bool)
    (r : option Z) (h' : CodeHeap) (L' : list blk) : Prop :=
  match r with
  | None => h' = h /\ L' = L /\ (crit = true -> exhausted h L size)
  | Some p => exists b, b_used b = true /\ b ∈ L' /\
      p = allocated_space (block_at h (b_seg b)) /\
      used_blocks L' ≡ₚ b :: used_blocks L /\
      size + header_size <= b_len b * _segment_size h /\
      b_len b * _segment_size h <
        size + header_size + CodeCacheMinBlockLength * _segment_size h
  end.

Lemma allocate_spec h L size crit :
  inv h L -> 0 <= size < 2 ^ 60 ->
  exists r h' L',
    allocate CodeCacheMinBlockLength CodeCacheMinimumFreeSpace h size crit = Some (r, h') /\
    inv h' L' /\ same_frame h h' /\ allocated h L size crit r h' L'.
Proof using Hmin.
  intros [HR Hna] Hsize. pose proof (rep_geometry _ _ HR) as G.
  destruct (size_to_segments_spec h size G Hsize) as (Hn & Hneed & Hseg).
  pose proof (segment_size_pos h G) as Hz.
  unfold CodeHeap.allocate. set (n := size_to_segments h _) in *.
  replace (sizeof_FreeBlock <=? segments_to_size h n) with true
    by (rewrite Hseg; unfold sizeof_FreeBlock; nia).
  destruct (search_freelist_spec CodeCacheMinBlockLength CodeCacheMinimumFreeSpace h L n crit HR)
    as (r & h1 & L1 & Hs & HF & HR1 & HFr & Hn1 & Hsame); [lia | lia |].
  rewrite Hs. cbn [mbind option_bind].
  pose proof (found_no_adjacent _ _ _ _ _ _ HF Hna) as Hna1.
  pose proof (found_used _ _ _ _ _ _ HF ltac:(lia)) as Hu. destruct r as [s |]; simpl.
  - (* from the free list *)
    destruct Hu as (l & Hl & Hin & Hperm).
    pose proof (rep_blocks _ _ HR1) as HB. rewrite Forall_forall in HB.
    destruct (HB _ Hin) as (lk & E). simpl in E. rewrite (same_frame_block_at _ _ _ HFr) in E.
    rewrite (block_lookup _ _ _ E). cbn [_length free _used negb].
    replace ((n <=? l) && (l <? n + CodeCacheMinBlockLength)) with true by lia.
    eexists _, h1, L1. split; [done |]. split; [done |]. split; [done |].
    exists (mkBlk s l true). simpl. split_and!; auto; nia.
  - specialize (Hsame eq_refl). subst h1. subst L1.
    assert (Hnone : crit = true -> forall b, b ∈ L -> b_used b = false -> b_len b < n)
      by (by inversion HF).
    set (m := if n <? CodeCacheMinBlockLength then CodeCacheMinBlockLength else n).
    assert (Hm : m = Z.max n CodeCacheMinBlockLength)
      by (unfold m; destruct (Z.ltb_spec n CodeCacheMinBlockLength); lia).
    clearbody m.
    destruct (negb crit && _) eqn:Hcrit.
    { exists None, h, L. split; [done |]. split; [done |]. split; [done |].
      split; [done |]. split; [done |]. by destruct crit. }
    pose proof (committed_bound h G). pose proof (tiles_le _ _ _ (rep_tiles _ _ HR)).
    pose proof (rep_next _ _ HR).
    rewrite wrap_small by (unfold in_unsigned; lia).
    destruct (Z.leb_spec (_next_segment h + m) (_number_of_committed_segments h)) as [Hroom | Hfull].
    2: { exists None, h, L. split; [done |]. split; [done |]. split; [done |].
         split; [done |]. split; [done |]. intros Hc. exists n. split; [lia |].
         split; [auto |]. lia. }
    destruct (mark_used_spec h (_next_segment h) m) as (bs & Hmk & Hlen & Hmap & Hout);
      [done | lia | lia | lia |].
    rewrite Hmk. cbn [mbind option_bind]. eexists _, _, _. split; [done |].
    assert (HR' : rep (with_next_segment
      (update (with_bytes h bs) (block_at h (_next_segment h)) (fun c => initialize c m))
      (_next_segment h + m)) (L ++ [mkBlk (_next_segment h) m true])).
    { eapply (rep_extend h L m bs); [done | lia | lia | by repeat split | done | done | done | done
        | done | done | exact Hout]. }
    split; [split; [exact HR' |] |].
    { apply no_adjacent_free_app. split_and!; [done | by split; [left |] | by right]. }
    split; [by repeat split |]. exists (mkBlk (_next_segment h) m true). simpl.
    split_and!; [done | set_solver | done | | nia | nia].
    rewrite used_blocks_app, used_blocks_cons_used. solve_Permutation.
Qed.
End Allocate.

End CodeHeapAlloc.
