(* ===== verification/CodeHeapSpec.v ===== *)
(** What the code heap promises: the theorems about [memory/heap.cpp] as a whole. *)
From stdpp Require Import gmap.
From S2P Require Import Prelude GlobalDefinitions ReservedSpace VirtualSpace.
From S2P Require Import CodeHeap CodeHeapInv CodeHeapOps CodeHeapAlloc.
Import GlobalDefinitions ReservedSpace VirtualSpace CodeHeap CodeHeapInv CodeHeapOps CodeHeapAlloc.
Local Open Scope Z_scope.

Module CodeHeapSpec.

(** ** Deallocation and client writes *)

Lemma elem_of_used_blocks b L : b ∈ used_blocks L <-> b_used b = true /\ b ∈ L.
Proof. unfold used_blocks. by rewrite list_elem_of_filter. Qed.

Lemma header_in_block h L b : rep h L -> b ∈ L ->
  in_block h b (allocated_space (block_at h (b_seg b))).
Proof.
  intros HR Hb. pose proof (rep_geometry _ _ HR) as G. pose proof (segment_size_pos h G).
  apply (tiles_in _ _ _ _ (rep_tiles _ _ HR)) in Hb.
  unfold in_block, allocated_space, header_size. rewrite !block_at_eq by done. nia.
Qed.

Lemma deallocate_spec h L b :
  inv h L -> b ∈ used_blocks L ->
  exists h' L', deallocate h (allocated_space (block_at h (b_seg b))) = Some h' /\ inv h' L' /\
    used_blocks L ≡ₚ b :: used_blocks L' /\ same_frame h h' /\ _next_segment h' = _next_segment h.
Proof.
  intros Hinv Hb. apply elem_of_used_blocks in Hb as [Hu Hb]. pose proof Hinv as [HR _].
  unfold deallocate.
  rewrite (find_start_in_block h L b _ HR Hb (header_in_block h L b HR Hb)), Hu.
  cbn [mbind option_bind pointer_eqb]. rewrite Z.eqb_refl.
  replace (allocated_space (block_at h (b_seg b)) - header_size) with (block_at h (b_seg b))
    by (unfold allocated_space; lia).
  apply list_elem_of_split in Hb as (A & B & ->). destruct b as [s l u]. simpl in Hu. subst u.
  destruct (add_to_freelist_spec h A s l B Hinv) as (h' & L' & E & Hinv' & Hused & HF & Hn).
  exists h', L'. split; [done |]. split; [done |]. split; [| done].
  rewrite Hused, used_blocks_app, used_blocks_cons_used. solve_Permutation.
Qed.

(** A client may write anything into its block; the word after the header is where
    a free block keeps its link. *)
Definition client_write (h : CodeHeap) (b : blk) (q : option Z) : CodeHeap :=
  update h (block_at h (b_seg b)) (fun c => set_link c q).

Lemma client_write_inv h L b q : inv h L -> b ∈ used_blocks L -> inv (client_write h b q) L.
Proof.
  intros [HR Hna] Hb. split; [| done]. apply elem_of_used_blocks in Hb as [Hu Hb].
  apply list_elem_of_split in Hb as (A & B & ->). destruct b as [s l u]. simpl in Hu. subst u.
  destruct (rep_bounds _ _ _ _ HR) as (HtA & Hs & Hl & HtB & _). simpl in HtA, Hs, Hl, HtB.
  destruct HR as [G HT Hn HB HM Hrest HL Hc]. constructor; auto.
  - by apply (same_frame_geometry h); [repeat split |].
  - eapply Forall_impl; [exact HB |]. intros b Hb. by apply (block_ok_update_link h).
  - apply linked_frame; [| done]. rewrite free_blocks_app, free_blocks_cons_used.
    change (addresses (client_write _ _ _)) with (addresses h).
    rewrite addresses_app, not_elem_of_app. split; (eapply address_outside; eauto; simpl; lia).
Qed.

(** ** Iteration *)

(** [first] and [next] as a client's loop collects them. *)
Fixpoint iterate_from (fuel : nat) (h : CodeHeap) (p : option Z) : option (list Z) :=
  match p with
  | None => Some []
  | Some p =>
      match fuel with
      | O => None
      | S fuel => q ← next h p; l ← iterate_from fuel h q; Some (p :: l)
      end
  end.

Definition iterate (h : CodeHeap) : option (list Z) :=
  p ← first h;
  iterate_from (list_fuel h) h p.

Definition pointer_of (h : CodeHeap) (b : blk) : Z := allocated_space (block_at h (b_seg b)).

(** The block pointer at the start of the rest of the heap. *)
Definition start_of (h : CodeHeap) (L : list blk) : option Z :=
  match L with [] => None | b :: _ => Some (block_at h (b_seg b)) end.

Lemma next_block_spec h A b B :
  rep h (A ++ b :: B) -> next_block h (Some (block_at h (b_seg b))) = start_of h B.
Proof.
  intros HR. pose proof (rep_geometry _ _ HR) as G.
  destruct (rep_bounds _ _ _ _ HR) as (_ & _ & _ & HtB & _).
  pose proof (rep_blocks _ _ HR) as HB. apply Forall_app in HB as [_ [(lk & E) _]%Forall_cons].
  unfold next_block. rewrite (block_lookup _ _ _ E), (segment_for_block h G). simpl _length.
  destruct B as [| c B]; simpl in *.
  - destruct (Z.ltb_spec (b_seg b + b_len b) (_next_segment h)); [lia | done].
  - destruct HtB as (-> & Hl & HtB%tiles_le).
    destruct (Z.ltb_spec (b_seg b + b_len b) (_next_segment h)); [done | lia].
Qed.

Lemma next_free_spec h A B :
  inv h (A ++ B) ->
  next_free h (start_of h B) = Some (head (pointer_of h <$> used_blocks B)).
Proof.
  intros [HR Hna]. apply no_adjacent_free_app in Hna as (_ & Hna & _).
  destruct B as [| [s l u] B]; [done |].
  pose proof (rep_blocks _ _ HR) as HB. apply Forall_app in HB as [_ [(lk & E) HB]%Forall_cons].
  simpl in E. unfold next_free. cbn [start_of b_seg]. rewrite (block_lookup _ _ _ E).
  unfold free. cbn [_used]. destruct u; cbn [negb].
  - rewrite (block_lookup _ _ _ E). cbn [_used negb]. by rewrite used_blocks_cons_used.
  - pose proof (next_block_spec h A (mkBlk s l false) B HR) as Hnext. simpl b_seg in Hnext.
    rewrite Hnext, used_blocks_cons_free. destruct Hna as [[Hna | Hna] _]; [done |].
    destruct B as [| [s' l' u'] B]; [done |]. destruct u'; [| done].
    apply Forall_cons in HB as [(lk' & E') _]. simpl in E'. cbn [start_of b_seg].
    rewrite (block_lookup _ _ _ E'). cbn [_used negb]. by rewrite used_blocks_cons_used.
Qed.

Lemma first_block_spec h L : rep h L -> first_block h = start_of h L.
Proof.
  intros HR. unfold first_block. pose proof (rep_tiles _ _ HR) as HT.
  destruct L as [| b L]; simpl in *.
  - by rewrite <- HT.
  - destruct HT as (Hs & Hl & HT%tiles_le).
    destruct (Z.ltb_spec 0 (_next_segment h)); [by rewrite Hs | lia].
Qed.

Lemma next_spec h A b B :
  inv h (A ++ b :: B) -> b_used b = true ->
  next h (pointer_of h b) = Some (head (pointer_of h <$> used_blocks B)).
Proof.
  intros Hinv Hu. pose proof Hinv as [HR _]. unfold next, block_start, pointer_of.
  rewrite (find_start_in_block h (A ++ b :: B) b _ HR);
    [| set_solver | eapply header_in_block; [done | set_solver]].
  rewrite Hu. cbn [mbind option_bind].
  replace (allocated_space (block_at h (b_seg b)) - header_size) with (block_at h (b_seg b))
    by (unfold allocated_space; lia).
  rewrite (next_block_spec h A b B HR). apply (next_free_spec h (A ++ [b]) B).
  by rewrite <- app_assoc.
Qed.

Lemma iterate_from_spec h A B fuel :
  inv h (A ++ B) -> (length (used_blocks B) <= fuel)%nat ->
  iterate_from fuel h (head (pointer_of h <$> used_blocks B)) = Some (pointer_of h <$> used_blocks B).
Proof.
  revert A fuel. induction B as [| [s l u] B IH]; intros A fuel Hinv Hfuel; [by destruct fuel |].
  destruct u.
  - rewrite used_blocks_cons_used in *. simpl in Hfuel. destruct fuel as [| fuel]; [lia |].
    cbn [fmap list_fmap head iterate_from].
    rewrite (next_spec h A _ B Hinv eq_refl). cbn [mbind option_bind].
    rewrite (IH (A ++ [mkBlk s l true])); [done | by rewrite <- app_assoc | lia].
  - rewrite used_blocks_cons_free in *. apply (IH (A ++ [mkBlk s l false])); [by rewrite <- app_assoc | done].
Qed.

Lemma used_blocks_length s L e : tiles s L e -> (length (used_blocks L) <= Z.to_nat (e - s))%nat.
Proof.
  revert s. induction L as [| [a l u] L IH]; intros s; [simpl; intros; lia |].
  simpl. intros (-> & Hl & HT). pose proof (tiles_le _ _ _ HT). apply IH in HT.
  destruct u; [rewrite used_blocks_cons_used; simpl | rewrite used_blocks_cons_free]; lia.
Qed.

Lemma iterate_spec h L : inv h L -> iterate h = Some (pointer_of h <$> used_blocks L).
Proof.
  intros Hinv. pose proof Hinv as [HR _]. unfold iterate, first.
  rewrite (first_block_spec h L HR), (next_free_spec h [] L Hinv). cbn [mbind option_bind].
  apply (iterate_from_spec h []); [done |]. unfold list_fuel.
  pose proof (used_blocks_length _ _ _ (rep_tiles _ _ HR)). lia.
Qed.

(** ** The counts of [verify] *)

Lemma verify_freelist_spec h F p fuel count len :
  Forall (fun b => exists u lk, blocks h !! block_at h (b_seg b) = Some (mkFreeBlock (b_len b) u lk)) F ->
  linked (blocks h) p (addresses h F) None -> (length F <= fuel)%nat ->
  (forall b, b ∈ F -> 0 <= b_len b) -> 0 <= len -> len + total F < 2 ^ 64 ->
  verify_freelist fuel h p count len = Some (count + Z.of_nat (length F), len + total F).
Proof.
  revert p fuel count len. induction F as [| b F IH]; intros p fuel count len HF HL Hfuel Hpos Hlen Hsum.
  - simpl in *. subst p. destruct fuel; simpl; do 2 f_equal; lia.
  - apply Forall_cons in HF as [(u & lk & E) HF]. rewrite addresses_cons in HL.
    destruct HL as (-> & c & Hc & HL). rewrite E in Hc. injection Hc as <-. simpl in HL.
    simpl in Hfuel. destruct fuel as [| fuel]; [lia |]. cbn [verify_freelist].
    rewrite (block_lookup _ _ _ E). cbn [_length _link].
    assert (0 <= b_len b) by (apply Hpos; left).
    assert (Htot : 0 <= total F).
    { clear - Hpos. induction F as [| c F IHF]; [done |]. simpl. specialize (Hpos c) as Hc.
      assert (0 <= b_len c) by (apply Hc; set_solver). assert (0 <= total F) by (apply IHF; set_solver). lia. }
    simpl total in *. rewrite wrap_small by (unfold in_unsigned; lia).
    rewrite IH; auto; [do 2 f_equal; [simpl length |]; lia | lia | set_solver | lia | lia].
Qed.

Lemma verify_blocks_spec h A B fuel count :
  rep h (A ++ B) -> (length B <= fuel)%nat ->
  verify_blocks fuel h (start_of h B) count = Some (count - Z.of_nat (length (free_blocks B))).
Proof.
  revert A fuel count. induction B as [| [s l u] B IH]; intros A fuel count HR Hfuel.
  - destruct fuel; simpl; f_equal; lia.
  - simpl in Hfuel. destruct fuel as [| fuel]; [lia |]. cbn [verify_blocks start_of b_seg].
    pose proof (next_block_spec h A _ B HR) as Hnext. simpl b_seg in Hnext. rewrite Hnext.
    pose proof (rep_blocks _ _ HR) as HB. apply Forall_app in HB as [_ [(lk & E) _]%Forall_cons].
    simpl in E. rewrite (block_lookup _ _ _ E). unfold free. cbn [_used].
    rewrite (IH (A ++ [mkBlk s l u])); [| by rewrite <- app_assoc | lia].
    destruct u; cbn [negb]; [by rewrite free_blocks_cons_used |].
    rewrite free_blocks_cons_free. f_equal. simpl length. lia.
Qed.

Lemma blocks_length s L e : tiles s L e -> (length L <= Z.to_nat (e - s))%nat.
Proof.
  revert s. induction L as [| b L IH]; intros s; [simpl; intros; lia |].
  simpl. intros (_ & Hl & HT). pose proof (tiles_le _ _ _ HT). apply IH in HT. lia.
Qed.

Lemma verify_spec h L : rep h L -> verify h = Some (0, _freelist_segments h).
Proof.
  intros HR. pose proof (rep_tiles _ _ HR) as HT. pose proof (tiles_le _ _ _ HT).
  pose proof (total_free_nonneg _ _ _ HT). pose proof (rep_next _ _ HR).
  pose proof (committed_bound h (rep_geometry _ _ HR)).
  unfold verify, list_fuel. rewrite (verify_freelist_spec h (free_blocks L)).
  - cbn [mbind option_bind]. rewrite (first_block_spec h L HR).
    rewrite (verify_blocks_spec h [] L); [| done | pose proof (blocks_length _ _ _ HT); lia].
    cbn [mbind option_bind]. rewrite (rep_count _ _ HR). do 2 f_equal; lia.
  - pose proof (rep_blocks _ _ HR) as HB. rewrite Forall_forall in *. intros b Hb.
    apply elem_of_free_blocks in Hb as [_ Hb]. destruct (HB b Hb) as (lk & E). eauto.
  - apply (rep_list _ _ HR).
  - pose proof (free_blocks_length _ _ _ HT). lia.
  - intros b [_ Hb]%elem_of_free_blocks. apply (tiles_in _ _ _ _ HT) in Hb. lia.
  - lia.
  - lia.
Qed.

End CodeHeapSpec.
