(* ===== verification/CodeHeapGrow.v ===== *)
(** Reserving and committing the code heap's memory: [CodeHeap::reserve] and
    [CodeHeap::expand_by] establish and keep the invariant, and every state a client
    can reach satisfies it. *)
From stdpp Require Import gmap.
From S2P Require Import Prelude GlobalDefinitions ReservedSpace VirtualSpace.
From S2P Require Import CodeHeap CodeHeapInv CodeHeapOps CodeHeapAlloc CodeHeapSpec.
Import GlobalDefinitions ReservedSpace VirtualSpace CodeHeap CodeHeapInv CodeHeapOps CodeHeapAlloc CodeHeapSpec.
Local Open Scope Z_scope.

Module CodeHeapGrow.

(** The least multiple of [2^k] that is not below [x]. *)
Definition round_up (k x : Z) : Z := (x + 2 ^ k - 1) / 2 ^ k * 2 ^ k.

Lemma round_up_bounds k x : 0 <= k ->
  x <= round_up k x < x + 2 ^ k /\ (2 ^ k | round_up k x).
Proof.
  intros Hk. unfold round_up. pose proof (pow2_pos k Hk).
  pose proof (Z.div_mod (x + 2 ^ k - 1) (2 ^ k) ltac:(lia)).
  pose proof (Z.mod_pos_bound (x + 2 ^ k - 1) (2 ^ k) ltac:(lia)).
  split; [lia | by eexists].
Qed.

Lemma round_up_mono k x y : 0 <= k -> x <= y -> round_up k x <= round_up k y.
Proof.
  intros Hk Hxy. unfold round_up. pose proof (pow2_pos k Hk).
  apply Z.mul_le_mono_nonneg_r; [lia |]. apply Z.div_le_mono; lia.
Qed.

Lemma align_to_page_size_spec p x :
  0 <= p < 32 -> 0 <= x < 2 ^ 63 -> align_to_page_size (2 ^ p) x = round_up p x.
Proof.
  intros Hp Hx. unfold align_to_page_size, round_up.
  pose proof (pow2_pos p ltac:(lia)). pose proof (Z.pow_lt_mono_r 2 p 32 ltac:(lia) ltac:(lia)).
  assert (Hw : wrap 64 (x + 2 ^ p - 1) = x + 2 ^ p - 1)
    by (apply wrap_small; unfold in_unsigned; lia).
  rewrite (wrap_land 64 (Z.lnot _)), (Z.land_comm (Z.lnot _)), Z.land_assoc by lia.
  rewrite <- wrap_land, wrap_wrap, Hw by lia. apply land_lnot_ones; lia.
Qed.

(** Exact division of a size in whole segments. *)
Lemma size_to_segments_exact h n :
  5 <= _log2_segment_size h < 32 -> _segment_size h = 2 ^ _log2_segment_size h ->
  0 <= n * _segment_size h < 2 ^ 62 -> size_to_segments h (n * _segment_size h) = n.
Proof.
  intros Hl Hsz Hn. unfold size_to_segments.
  pose proof (pow2_pos (_log2_segment_size h) ltac:(lia)).
  pose proof (Z.pow_lt_mono_r 2 (_log2_segment_size h) 32 ltac:(lia) ltac:(lia)).
  rewrite wrap_small by (unfold in_unsigned; lia). rewrite Z.shiftr_div_pow2, <- Hsz by lia.
  replace (n * _segment_size h + _segment_size h - 1) with (_segment_size h - 1 + n * _segment_size h) by lia.
  rewrite Z.div_add, Z.div_small by lia. lia.
Qed.

(** The invariant with the state of the two spaces. *)
Record heap_ok (p : Z) (h : CodeHeap) (L : list blk) : Prop := {
  ok_inv : inv h L;
  ok_page : _log2_segment_size h <= p < 32;
  ok_memory : wf (_memory h) /\ covered (_memory h);
  ok_segmap : wf (_segmap h) /\ covered (_segmap h);
  ok_mem_pages : (2 ^ p | committed_size (_memory h));
  ok_map_size : committed_size (_segmap h) = round_up p (_number_of_committed_segments h);
  ok_bytes : length (segmap_bytes h) = Z.to_nat (committed_size (_segmap h))
}.

(** A heap whose committed part grew keeps its blocks. *)
Lemma rep_grow h h' L :
  rep h L -> geometry h' ->
  _low (_memory h') = _low (_memory h) -> _log2_segment_size h' = _log2_segment_size h ->
  _next_segment h' = _next_segment h -> _freelist h' = _freelist h ->
  _freelist_segments h' = _freelist_segments h -> blocks h' = blocks h ->
  _number_of_committed_segments h <= _number_of_committed_segments h' ->
  (forall i, 0 <= i < _number_of_committed_segments h ->
    segmap_bytes h' !! Z.to_nat i = segmap_bytes h !! Z.to_nat i) ->
  (forall i, _number_of_committed_segments h <= i < _number_of_committed_segments h' ->
    segmap_bytes h' !! Z.to_nat i = Some 255) ->
  rep h' L.
Proof.
  intros [G HT Hn HB HM Hrest HL Hc] G' Hlow Hlog Hnx Hfl Hfs Hbl Hcm Hold Hnew.
  assert (Hat : forall i, block_at h' i = block_at h i)
    by (intros; unfold block_at; by rewrite Hlow, Hlog).
  pose proof (tiles_le _ _ _ HT). constructor.
  - done.
  - by rewrite Hnx.
  - lia.
  - eapply Forall_impl; [exact HB |]. intros b (lk & E). exists lk. by rewrite Hbl, Hat.
  - rewrite Forall_forall in *. intros b Hb k Hk. pose proof (tiles_in _ _ _ _ HT Hb).
    rewrite Hold by lia. by apply HM.
  - intros i Hi. rewrite Hnx in Hi.
    destruct (Z.lt_ge_cases i (_number_of_committed_segments h)); [| apply Hnew; lia].
    rewrite Hold by lia. apply Hrest. lia.
  - rewrite Hfl, Hbl. replace (addresses h' (free_blocks L)) with (addresses h (free_blocks L)); [done |].
    unfold addresses. apply list_fmap_ext. intros. by rewrite Hat.
  - by rewrite Hfs.
Qed.

Lemma divide_weaken p q x : 0 <= p <= q -> (2 ^ q | x) -> (2 ^ p | x).
Proof.
  intros Hpq Hx. etransitivity; [| exact Hx]. exists (2 ^ (q - p)).
  rewrite <- Z.pow_add_r by lia. f_equal. lia.
Qed.

Lemma committed_in_segments h L p :
  heap_ok p h L ->
  committed_size (_memory h) = _number_of_committed_segments h * _segment_size h /\
  reserved_size (_memory h) = _number_of_reserved_segments h * _segment_size h.
Proof.
  intros []. pose proof (rep_geometry _ _ (proj1 ok_inv0)) as G. destruct ok_memory0 as [Hwf _].
  destruct (sizes _ Hwf) as (-> & -> & _). destruct (geo_low h G) as [_ Hlb].
  rewrite (geo_high h G), (geo_boundary h G). lia.
Qed.

(** The geometry after the memory was replaced by an expanded one. *)
Lemma geometry_expand h h' :
  geometry h -> wf (_memory h') -> same_reservation (_memory h) (_memory h') ->
  _log2_segment_size h' = _log2_segment_size h -> _segment_size h' = _segment_size h ->
  _number_of_reserved_segments h' = _number_of_reserved_segments h ->
  _high (_memory h') = _low (_memory h) + _number_of_committed_segments h' * _segment_size h ->
  0 <= _number_of_committed_segments h' ->
  _number_of_committed_segments h' <= Z.of_nat (length (segmap_bytes h')) ->
  geometry h'.
Proof.
  intros G Hwf (Hl & Hh & _) Hlog Hsz Hres Hhigh H0 Hbytes. pose proof (segment_size_pos h G) as Hz.
  destruct G as [g1 g2 [g3 g4] g5 g6 g7 g8 g9]. pose proof (wf_low _ Hwf) as Hlow. pose proof (wf_high _ Hwf).
  assert (Elow : _low (_memory h') = _low (_memory h)) by congruence.
  constructor; rewrite ?Hlog, ?Hsz, ?Hres, ?Elow, ?Hhigh, ?Hh, ?Hl; auto.
  split; [done |]. rewrite Hhigh, Hh, g6 in *. nia.
Qed.

(** The first part of an expansion: how many bytes of memory it asks for. *)
Lemma expansion_size p h L size :
  heap_ok p h L -> 0 <= size < 2 ^ 60 ->
  exists k, 0 <= k /\
    wrap 64 (align_to_page_size (2 ^ p) (wrap 64 (committed_size (_memory h) + size))
             - committed_size (_memory h)) = k * _segment_size h /\
    size <= k * _segment_size h < 2 ^ 61 /\
    (2 ^ p | committed_size (_memory h) + k * _segment_size h) /\
    round_up p (committed_size (_memory h) + size) = committed_size (_memory h) + k * _segment_size h.
Proof.
  intros Hok Hs. pose proof Hok as []. pose proof (rep_geometry _ _ (proj1 ok_inv0)) as G.
  destruct (committed_in_segments _ _ _ Hok) as [Hc _].
  pose proof (segment_size_pos h G) as Hz. pose proof (geo_size h G) as Hsz. pose proof (geo_log2 h G) as Hlog.
  pose proof (Z.pow_lt_mono_r 2 p 32 ltac:(lia) ltac:(lia)) as Hp32.
  assert (HC : 0 <= committed_size (_memory h) < 2 ^ 62).
  { destruct ok_memory0 as [Hwf _]. rewrite (proj1 (sizes _ Hwf)).
    pose proof (wf_high _ Hwf). pose proof (wf_order _ Hwf). pose proof (wf_top _ Hwf). lia. }
  set (C := committed_size (_memory h)) in *. rewrite (wrap_small 64 (C + size)) by (unfold in_unsigned; lia).
  rewrite align_to_page_size_spec by lia.
  destruct (round_up_bounds p (C + size) ltac:(lia)) as [Hb Hd].
  assert (Hk : (_segment_size h | round_up p (C + size) - C)).
  { apply Z.divide_sub_r; rewrite Hsz; eapply divide_weaken; eauto; lia. }
  destruct Hk as [k Hk]. exists k. split; [nia |].
  rewrite wrap_small by (unfold in_unsigned; lia). split_and!; [lia | lia | lia | | lia].
  by replace (C + k * _segment_size h) with (round_up p (C + size)) by lia.
Qed.

Lemma lookup_extended bs n i : 0 <= i < Z.of_nat (length bs) ->
  (bs ++ replicate n 0) !! Z.to_nat i = bs !! Z.to_nat i.
Proof. intros. apply lookup_app_l. lia. Qed.

(** The state after both spaces grew and the new map entries were marked free. *)
Lemma heap_ok_grown p h L vs vs2 k bs :
  heap_ok p h L -> 0 < k ->
  wf vs -> covered vs -> same_reservation (_memory h) vs ->
  _high vs = _high (_memory h) + k * _segment_size h ->
  (2 ^ p | committed_size vs) ->
  let c := _number_of_committed_segments h + k in
  wf vs2 -> covered vs2 -> committed_size vs2 = round_up p c ->
  length bs = Z.to_nat (committed_size vs2) ->
  (forall i, 0 <= i < _number_of_committed_segments h ->
    bs !! Z.to_nat i = segmap_bytes h !! Z.to_nat i) ->
  (forall i, _number_of_committed_segments h <= i < c -> bs !! Z.to_nat i = Some 255) ->
  heap_ok p (with_bytes (with_segmap (with_memory h vs c) vs2) bs) L.
Proof.
  intros Hok Hk Hwf Hcov Hres Hhigh Hdiv c Hwf2 Hcov2 Hsize Hlen Hold Hnew.
  pose proof Hok as []. pose proof (rep_geometry _ _ (proj1 ok_inv0)) as G.
  pose proof (geo_reserved h G) as Hrange. pose proof (geo_log2 h G).
  destruct (round_up_bounds p c ltac:(lia)) as [Hup _].
  assert (G' : geometry (with_bytes (with_segmap (with_memory h vs c) vs2) bs)).
  { apply (geometry_expand h); auto; simpl; [| lia | lia].
    rewrite Hhigh, (geo_high h G). lia. }
  constructor; simpl; auto. split; [| exact (proj2 ok_inv0)].
  apply (rep_grow h); auto; simpl; try lia; [exact (proj1 ok_inv0) |].
  destruct Hres as (El & _). rewrite (wf_low _ Hwf), El. symmetry. apply (wf_low _ (proj1 ok_memory0)).
Qed.

Lemma heap_ok_refused p h L vs :
  heap_ok p h L -> wf vs -> covered vs -> same_reservation (_memory h) vs ->
  _high vs = _high (_memory h) ->
  heap_ok p (with_memory h vs (_number_of_committed_segments h)) L.
Proof.
  intros Hok Hwf Hcov Hres Hhigh. pose proof Hok as [].
  pose proof (rep_geometry _ _ (proj1 ok_inv0)) as G.
  assert (G' : geometry (with_memory h vs (_number_of_committed_segments h))).
  { apply (geometry_expand h); auto; simpl; [| apply G | apply G]. by rewrite Hhigh, (geo_high h G). }
  assert (El : _low vs = _low (_memory h)).
  { destruct Hres as (El & _). rewrite (wf_low _ Hwf), El. symmetry. apply (wf_low _ (proj1 ok_memory0)). }
  constructor; simpl; auto.
  - split; [| exact (proj2 ok_inv0)]. apply (rep_grow h); auto; simpl; try lia. exact (proj1 ok_inv0).
  - unfold committed_size in *. by rewrite Hhigh, El.
Qed.

(** Growing the map space to the new number of segments. *)
Lemma segmap_growth commit p h L c :
  heap_ok p h L -> _number_of_committed_segments h <= c < 2 ^ 57 ->
  let ds := wrap 64 (align_to_page_size (2 ^ p) c - committed_size (_segmap h)) in
  exists ok vs,
    (if 0 <? ds then VirtualSpace.expand_by commit (_segmap h) ds else (true, _segmap h)) = (ok, vs) /\
    wf vs /\ covered vs /\
    (if ok then committed_size vs = round_up p c else committed_size vs < c).
Proof.
  intros Hok Hc. pose proof Hok as []. destruct ok_segmap0 as [Hwf Hcov].
  pose proof (geo_reserved h (rep_geometry _ _ (proj1 ok_inv0))).
  pose proof (geo_log2 h (rep_geometry _ _ (proj1 ok_inv0))).
  pose proof (Z.pow_lt_mono_r 2 p 32 ltac:(lia) ltac:(lia)).
  rewrite align_to_page_size_spec by lia.
  pose proof (round_up_mono p (_number_of_committed_segments h) c ltac:(lia) ltac:(lia)).
  destruct (round_up_bounds p c ltac:(lia)) as [Hup [q Hq]].
  destruct (round_up_bounds p (_number_of_committed_segments h) ltac:(lia)) as [Hup0 [q0 Hq0]].
  rewrite wrap_small by (unfold in_unsigned; lia). cbv zeta.
  destruct (Z.ltb_spec 0 (round_up p c - committed_size (_segmap h))) as [Hd | Hd].
  2: { eexists _, _. split; [done |]. split_and!; auto. lia. }
  pose proof (expand_by_spec commit (_segmap h) (round_up p c - committed_size (_segmap h)) Hwf Hcov ltac:(lia)) as HE.
  pose proof (expand_same_reservation commit (_segmap h) (round_up p c - committed_size (_segmap h))) as HRes.
  destruct (VirtualSpace.expand_by _ _ _) as [ok vs]. destruct HE as (Hwf' & Hcov' & Hhigh & _).
  exists ok, vs. split_and!; auto. rewrite (proj1 (sizes _ Hwf')), Hhigh. simpl in HRes. destruct HRes as (-> & _).
  pose proof (proj1 (sizes _ Hwf)). destruct ok; [lia |].
  pose proof (pow2_pos p ltac:(lia)). assert (q0 + 1 <= q) by nia. nia.
Qed.

Lemma heap_expand_spec commit p h L size :
  heap_ok p h L -> 0 <= size < 2 ^ 60 ->
  exists ok h', expand_by (2 ^ p) commit h size = Some (ok, h') /\
    (ok = true -> heap_ok p h' L /\
      committed_size (_memory h') = round_up p (committed_size (_memory h) + size)) /\
    (ok = false -> heap_ok p h' L /\ committed_size (_memory h') = committed_size (_memory h) \/
      committed_size (_segmap h') < _number_of_committed_segments h').
Proof.
  intros Hok Hs. destruct (expansion_size p h L size Hok Hs) as (k & Hk & Hdm & Hb & Hdiv & Hup).
  pose proof Hok as []. pose proof (rep_geometry _ _ (proj1 ok_inv0)) as G.
  destruct (committed_in_segments _ _ _ Hok) as [Hc Hr].
  pose proof (segment_size_pos h G) as Hz. pose proof (geo_log2 h G) as Hlog.
  unfold expand_by. rewrite Hdm. destruct (Z.ltb_spec 0 (k * _segment_size h)) as [Hpos | Hzero].
  2: { assert (k = 0) by nia. subst k. exists true, h. split; [done |]. split; [| done]. intros _.
       split; [done |]. rewrite Hup. lia. }
  destruct ok_memory0 as [Hwf Hcov].
  pose proof (expand_by_spec commit (_memory h) (k * _segment_size h) Hwf Hcov ltac:(lia)) as HE.
  pose proof (expand_same_reservation commit (_memory h) (k * _segment_size h)) as HRes.
  destruct (VirtualSpace.expand_by commit (_memory h) (k * _segment_size h)) as [ok vs].
  simpl in HRes. destruct HE as (Hwf' & Hcov' & Hhigh & _). destruct ok; cbn [negb].
  2: { exists false. eexists. split; [done |]. split; [done |]. intros _. left.
       split; [by apply heap_ok_refused |]. simpl.
       rewrite (proj1 (sizes _ Hwf')), (proj1 (sizes _ Hwf)), Hhigh. by destruct HRes as (-> & _). }
  assert (Hcs : committed_size vs = (_number_of_committed_segments h + k) * _segment_size h).
  { rewrite (proj1 (sizes _ Hwf')), Hhigh. destruct HRes as (-> & _).
    pose proof (proj1 (sizes _ Hwf)). lia. }
  assert (Hbig : 0 <= committed_size vs < 2 ^ 62).
  { rewrite (proj1 (sizes _ Hwf')). pose proof (wf_high _ Hwf'). pose proof (wf_order _ Hwf').
    pose proof (wf_top _ Hwf'). lia. }
  assert (Hrb : 0 <= reserved_size (_memory h) < 2 ^ 62).
  { rewrite (proj1 (proj2 (sizes _ Hwf))). pose proof (wf_order _ Hwf). pose proof (wf_top _ Hwf). lia. }
  assert (Hc' : size_to_segments h (committed_size vs) = _number_of_committed_segments h + k).
  { rewrite Hcs in *. apply size_to_segments_exact; auto. apply (geo_size h G). }
  rewrite Hc'. set (c := _number_of_committed_segments h + k). set (h1 := with_memory h vs c).
  assert (Hr' : size_to_segments h1 (reserved_size (_memory h1)) = _number_of_reserved_segments h).
  { simpl. rewrite (reserved_size_same _ _ HRes), Hr in *. apply (size_to_segments_exact h); auto.
    apply (geo_size h G). }
  assert (Hcr : c <= _number_of_reserved_segments h).
  { assert (committed_size vs <= reserved_size vs); [| rewrite (reserved_size_same _ _ HRes) in *; nia].
    destruct (sizes _ Hwf') as (-> & -> & _). pose proof (wf_high _ Hwf'). lia. }
  pose proof (committed_bound h G) as Hcb. assert (Hk0 : 0 < k) by nia.
  destruct (segmap_growth commit p h L c Hok ltac:(lia)) as (ok2 & vs2 & E2 & Hwf2 & Hcov2 & Hsz2).
  change (_number_of_reserved_segments h1) with (_number_of_reserved_segments h).
  change (_number_of_committed_segments h1) with c. change (_segmap h1) with (_segmap h).
  rewrite Hr', Z.eqb_refl. rewrite (proj2 (Z.leb_le _ _) Hcr), E2. destruct ok2; cbn [negb].
  2: { exists false. eexists. split; [done |]. split; [done |]. intros _. right. simpl. lia. }
  destruct (round_up_bounds p c ltac:(lia)) as [Hupc _].
  change (_number_of_committed_segments (with_segmap h1 vs2)) with c.
  change (_segmap (with_segmap h1 vs2)) with vs2.
  rewrite (proj2 (Z.leb_le c (committed_size vs2))) by lia.
  unfold mark_segmap_as_free.
  replace (interval_ok (with_segmap h1 vs2) (_number_of_committed_segments h) c) with true
    by (unfold interval_ok; simpl; lia).
  cbn [mbind option_bind]. exists true. eexists. split; [done |]. split; [| done]. intros _.
  assert (Hlen2 : length (segmap_bytes (with_segmap h1 vs2)) = Z.to_nat (committed_size vs2)).
  { simpl. rewrite length_app, length_replicate, ok_bytes0.
    pose proof (round_up_mono p (_number_of_committed_segments h) c ltac:(lia) ltac:(lia)). lia. }
  split; [| simpl; lia]. apply heap_ok_grown; auto.
  - by rewrite Hcs, Z.mul_add_distr_r, <- Hc.
  - by rewrite fill_free_length.
  - intros i Hi. rewrite fill_free_outside by lia. simpl. apply lookup_extended.
    pose proof (geo_bytes h G). lia.
  - intros i Hi. apply fill_free_inside; [rewrite Hlen2 |]; lia.
Qed.

(** ** Reserving *)

Lemma align_size_up_round k x : 0 <= k < 32 -> 0 <= x < 2 ^ 62 ->
  align_size_up x (2 ^ k) = round_up k x.
Proof.
  intros Hk Hx. pose proof (Z.pow_lt_mono_r 2 k 32 ltac:(lia) ltac:(lia)).
  apply align_size_up_spec; lia.
Qed.

Lemma round_up_pos k x : 0 <= k -> 0 < x -> 2 ^ k <= round_up k x.
Proof.
  intros Hk Hx. destruct (round_up_bounds k x Hk) as [Hb [q Hq]]. pose proof (pow2_pos k Hk).
  assert (0 < q) by nia. nia.
Qed.

Lemma round_up_multiple k x : 0 <= k -> (2 ^ k | x) -> round_up k x = x.
Proof.
  intros Hk [c ->]. pose proof (pow2_pos k Hk). unfold round_up.
  replace (c * 2 ^ k + 2 ^ k - 1) with (2 ^ k - 1 + c * 2 ^ k) by lia.
  rewrite Z.div_add, Z.div_small by lia. lia.
Qed.

(** A space initialized over a fresh reservation of [size] bytes. *)
Lemma reserved_space_initialize os p g size alignment k large exec rs csize vs :
  os_ok os p g -> 0 < size < 2 ^ 59 -> (2 ^ g | size) -> 2 ^ k <= size -> (2 ^ k | size) ->
  alignment = 0 /\ k = p \/ alignment = 2 ^ k /\ g <= k < 32 ->
  initialize_reserved os size alignment large 0 0 exec = Some rs -> 0 <= csize < 2 ^ 64 ->
  VirtualSpace.initialize os rs csize = (true, vs) ->
  wf vs /\ covered vs /\ committed_size vs = csize /\ reserved_size vs = size /\
  0 < _low_boundary vs.
Proof.
  intros Hos Hs Hg Hks Hkd Hal Hrs Hc Hinit. pose proof (os_pages _ _ _ Hos) as Hpg.
  pose proof (pow2_pos k ltac:(lia)). pose proof (pow2_pos g ltac:(lia)). pose proof (pow2_pos p ltac:(lia)).
  destruct (initialize_reserved_spec os p g size alignment k large 0 0 exec Hos) as (rs' & E & _ & Hdel);
    [lia | by apply Z.mod_divide; [lia |] | lia | by left | by left |].
  rewrite E in Hrs. injection Hrs as ->.
  unfold VirtualSpace.initialize in Hinit.
  assert (Hres : is_reserved rs = true).
  { unfold initialize_with_granularity in Hinit. by destruct (is_reserved rs). }
  destruct (Hdel Hres) as (Hb & Ht & _ & _ & Hm & Hsz & _). rewrite Z.add_0_r in Hm.
  rewrite (align_size_up_round k), round_up_multiple in Hsz by (auto; lia).
  assert (Esz : rs_size rs = size) by lia. rewrite Esz in *.
  pose proof (Z.pow_le_mono_r 2 p k ltac:(lia) ltac:(lia)).
  destruct (page_size_for_region_spec os p g size size 1 Hos ltac:(lia) ltac:(lia)) as (m & Hm' & Em & Hle).
  rewrite Em, (os_page_size _ _ _ Hos) in Hinit.
  destruct (initialize_spec (commit_memory os) p m rs csize vs) as (? & ? & ? & Hr & Hlow & _);
    auto; try lia.
  - by apply (mod_weaken p k); [lia |].
  - rewrite Esz. apply (mod_weaken p k); [lia |]. by apply Z.mod_divide; [lia |].
  - rewrite Esz in Hr. split_and!; auto. lia.
Qed.

(** The reservation of the code space in pages of size [2^a]. *)
Lemma code_space_spec os p g a reserved :
  os_ok os p g -> p <= a < 32 -> 0 < reserved < 2 ^ 58 ->
  let rs_align := if 2 ^ a =? 2 ^ p then 0 else 2 ^ Z.max a g in
  let r_size := round_up (Z.max a g) reserved in
  exists rs, ReservedCodeSpace os r_size rs_align (0 <? rs_align) = Some rs /\
    forall csize vs, 0 <= csize < 2 ^ 64 -> VirtualSpace.initialize os rs csize = (true, vs) ->
      wf vs /\ covered vs /\ committed_size vs = csize /\ reserved_size vs = r_size /\
      0 < _low_boundary vs.
Proof.
  intros Hos Ha Hr. pose proof (os_pages _ _ _ Hos) as Hpg. cbv zeta.
  destruct (round_up_bounds (Z.max a g) reserved ltac:(lia)) as [Hb Hd].
  pose proof (round_up_pos (Z.max a g) reserved ltac:(lia) ltac:(lia)) as Hpos.
  pose proof (Z.pow_lt_mono_r 2 (Z.max a g) 32 ltac:(lia) ltac:(lia)).
  set (k := if 2 ^ a =? 2 ^ p then p else Z.max a g).
  assert (Hk : p <= k <= Z.max a g) by (unfold k; destruct (2 ^ a =? 2 ^ p); lia).
  set (rs_align := if 2 ^ a =? 2 ^ p then 0 else 2 ^ Z.max a g).
  assert (Hal : rs_align = 0 /\ k = p \/ rs_align = 2 ^ k /\ g <= k < 32)
    by (unfold rs_align, k; destruct (2 ^ a =? 2 ^ p); [by left | right; split; [done | lia]]).
  clearbody k rs_align.
  assert (Hg : (2 ^ g | round_up (Z.max a g) reserved)) by (eapply divide_weaken; [| done]; lia).
  assert (Hkd : (2 ^ k | round_up (Z.max a g) reserved)) by (apply (divide_weaken k (Z.max a g)); [lia | done]).
  pose proof (Z.pow_le_mono_r 2 k (Z.max a g) ltac:(lia) ltac:(lia)).
  destruct (initialize_reserved_spec os p g (round_up (Z.max a g) reserved) rs_align k (0 <? rs_align)
    0 0 true Hos) as (rs & E & _);
    [lia | apply Z.mod_divide; [apply Z.pow_nonzero; lia | done] | lia | by left | by left |].
  exists rs. split; [exact E |]. intros csize vs Hc Hi.
  eapply (reserved_space_initialize os p g _ rs_align k); eauto; lia.
Qed.

(** The reservation of the map space for [r] segments. *)
Lemma map_space_spec os p g r :
  os_ok os p g -> 0 < r < 2 ^ 58 ->
  exists rs, NewReservedSpace os (round_up g r) = Some rs /\
    forall csize vs, 0 <= csize < 2 ^ 64 -> VirtualSpace.initialize os rs csize = (true, vs) ->
      wf vs /\ covered vs /\ committed_size vs = csize /\ reserved_size vs = round_up g r.
Proof.
  intros Hos Hr. pose proof (os_pages _ _ _ Hos) as Hpg.
  destruct (round_up_bounds g r ltac:(lia)) as [Hb Hd].
  pose proof (round_up_pos g r ltac:(lia) ltac:(lia)) as Hpos.
  pose proof (Z.pow_lt_mono_r 2 g 32 ltac:(lia) ltac:(lia)).
  unfold NewReservedSpace. rewrite (os_granularity _ _ _ Hos).
  set (large := negb _). destruct (initialize_reserved_spec os p g (round_up g r) (2 ^ g) g large
    0 0 false Hos) as (rs & E & _);
    [lia | apply Z.mod_divide; [apply Z.pow_nonzero; lia | done] | right; split; [done | lia]
     | by left | by left |].
  exists rs. split; [exact E |]. intros csize vs Hc Hi.
  destruct (reserved_space_initialize os p g (round_up g r) (2 ^ g) g large false rs csize vs)
    as (? & ? & ? & ? & _); auto; lia.
Qed.

(** A heap without blocks, right after [clear]. *)
Lemma fresh_heap_ok p l memory segmap c r bs :
  5 <= l <= p -> p < 32 -> wf memory -> covered memory -> wf segmap -> covered segmap ->
  0 < _low_boundary memory -> 0 < c <= r ->
  committed_size memory = c * 2 ^ l -> reserved_size memory = r * 2 ^ l -> (2 ^ p | c * 2 ^ l) ->
  committed_size segmap = round_up p c -> length bs = Z.to_nat (committed_size segmap) ->
  heap_ok p (mkCodeHeap memory segmap c r (2 ^ l) l 0 None 0 ∅
    (fill_free (Z.to_nat (c - 0)) (Z.to_nat 0) bs)) [].
Proof.
  intros Hl Hp Hwf Hcov Hwf2 Hcov2 Hlow Hcr Hcs Hrs Hd Hcs2 Hlen.
  destruct (round_up_bounds p c ltac:(lia)) as [Hpc _]. destruct (sizes _ Hwf) as (E1 & E2 & _).
  pose proof (wf_low _ Hwf). pose proof (wf_top _ Hwf).
  constructor; simpl; auto; try lia; [| by rewrite Hcs | by rewrite fill_free_length].
  split; [| done]. constructor; simpl; auto; try lia.
  - constructor; simpl; auto; try lia. rewrite fill_free_length. lia.
  - intros i Hi. apply fill_free_inside; lia.
Qed.

Lemma reserve_spec os p g l reserved committed :
  os_ok os p g -> 5 <= l <= p -> 0 < committed <= reserved -> 2 ^ p <= reserved < 2 ^ 58 ->
  exists ok h, reserve os new_CodeHeap reserved committed (2 ^ l) = Some (ok, h) /\
    (ok = true -> heap_ok p h [] /\ committed <= committed_size (_memory h) /\
      reserved <= reserved_size (_memory h)).
Proof.
  intros Hos Hl Hcr Hr. pose proof (os_pages _ _ _ Hos) as Hpg.
  pose proof (Z.pow_le_mono_r 2 5 l ltac:(lia) ltac:(lia)).
  unfold reserve. rewrite (proj2 (Z.leb_le committed reserved)) by lia.
  rewrite (proj2 (Z.leb_le sizeof_FreeBlock (2 ^ l))) by (unfold sizeof_FreeBlock; lia).
  rewrite is_power_of_2_pow, exact_log2_pow2 by lia. cbn [mbind option_bind].
  rewrite (os_page_size _ _ _ Hos), (os_granularity _ _ _ Hos).
  set (page_size := if can_execute_large_page_memory os then _ else _).
  assert (Hpage : exists a, p <= a < 32 /\ page_size = 2 ^ a).
  { unfold page_size. destruct (can_execute_large_page_memory os); [| exists p; split; [lia | done]].
    destruct (page_size_for_region_spec os p g committed reserved 8 Hos) as (a & Ha & E & _); [lia | lia |].
    by exists a. }
  destruct Hpage as (a & Ha & ->). rewrite !MAX2_pow by lia.
  rewrite (align_size_up_round (Z.max a g) reserved), (align_size_up_round a committed) by lia.
  destruct (code_space_spec os p g a reserved Hos ltac:(lia) ltac:(lia)) as (rs & Ers & Hmem).
  rewrite Ers. cbn [mbind option_bind].
  destruct (VirtualSpace.initialize os rs (round_up a committed)) as [ok memory] eqn:Emem.
  destruct ok; cbn [negb]; [| by eexists _, _; split; [done |]].
  destruct (round_up_bounds a committed ltac:(lia)) as [Hcb Hcd].
  pose proof (Z.pow_lt_mono_r 2 a 32 ltac:(lia) ltac:(lia)).
  destruct (Hmem (round_up a committed) memory ltac:(lia) Emem) as (Hwf & Hcov & Hcs & Hrs & Hlow).
  destruct (round_up_bounds (Z.max a g) reserved ltac:(lia)) as [Hrb Hrd].
  pose proof (Z.pow_lt_mono_r 2 (Z.max a g) 32 ltac:(lia) ltac:(lia)).
  destruct (divide_weaken l a _ ltac:(lia) Hcd) as [c Hc].
  destruct (divide_weaken l (Z.max a g) _ ltac:(lia) Hrd) as [r Hr'].
  match goal with |- context [size_to_segments ?h (committed_size memory)] => set (h1 := h) end.
  assert (Ec : size_to_segments h1 (committed_size memory) = c)
    by (rewrite Hcs, Hc; apply (size_to_segments_exact h1); simpl; lia).
  assert (Er : size_to_segments h1 (reserved_size memory) = r)
    by (rewrite Hrs, Hr'; apply (size_to_segments_exact h1); simpl; lia).
  rewrite Ec, Er. simpl. clear h1 Ec Er.
  assert (Hcr' : c <= r).
  { destruct (sizes _ Hwf) as (E1 & E2 & _). pose proof (wf_high _ Hwf). nia. }
  rewrite (proj2 (Z.leb_le c r) Hcr'). rewrite Z.max_r by lia.
  assert (Hc0 : 0 < c) by nia. assert (Hr57 : 0 < r < 2 ^ 58) by nia. rewrite (align_size_up_round g r), align_to_page_size_spec by lia.
  destruct (map_space_spec os p g r Hos Hr57) as (seg & Eseg & Hmap). rewrite Eseg. cbn [mbind option_bind].
  destruct (VirtualSpace.initialize os seg (round_up p c)) as [ok segmap] eqn:Emap.
  destruct ok; cbn [negb]; [| by eexists _, _; split; [done |]].
  destruct (round_up_bounds p c ltac:(lia)) as [Hpc _].
  destruct (Hmap (round_up p c) segmap ltac:(lia) Emap) as (Hwf2 & Hcov2 & Hcs2 & Hrs2).
  destruct (round_up_bounds g r ltac:(lia)) as [Hgr _].
  rewrite (proj2 (Z.leb_le c (committed_size segmap))) by lia.
  rewrite (proj2 (Z.leb_le r (reserved_size segmap))) by lia.
  rewrite (proj2 (Z.leb_le (committed_size segmap) (reserved_size segmap)))
    by (destruct (sizes _ Hwf2) as (-> & -> & _); pose proof (wf_high _ Hwf2); lia).
  unfold clear, mark_segmap_as_free, interval_ok. simpl.
  rewrite (proj2 (Z.ltb_lt 0 c)), Z.leb_refl by lia. cbn [andb mbind option_bind].
  eexists _, _. split; [done |]. intros _. simpl. split; [| lia].
  apply (fresh_heap_ok p l memory segmap c r (replicate (Z.to_nat (committed_size segmap) - 0) 0));
    auto; try lia.
  - rewrite <- Hc. by apply (divide_weaken p a); [lia |].
  - rewrite length_replicate. lia.
Qed.

End CodeHeapGrow.
