(* ===== verification/CodeHeapTheorems.v ===== *)
(** The properties of the code heap, [memory/heap.cpp]: what allocation,
    deallocation, address lookup and iteration promise in every reachable state, and
    what the reserve for critical allocations does not do. *)
From stdpp Require Import gmap relations.
From S2P Require Import Prelude GlobalDefinitions ReservedSpace VirtualSpace CodeHeap.
From S2P Require Import CodeHeapInv CodeHeapOps CodeHeapAlloc CodeHeapSpec CodeHeapGrow.
Import GlobalDefinitions ReservedSpace VirtualSpace CodeHeap CodeHeapInv CodeHeapOps CodeHeapAlloc
  CodeHeapSpec CodeHeapGrow.
Local Open Scope Z_scope.

Module CodeHeapTheorems.

#[export] Instance in_block_dec h b p : Decision (in_block h b p).
Proof. unfold in_block. apply _. Defined.

Lemma tiles_NoDup s L e : tiles s L e -> NoDup L.
Proof.
  revert s. induction L as [| b L IH]; intros s; [constructor |].
  intros (Hs & Hl & HT). constructor; [| eauto]. intros Hb. apply (tiles_in _ _ _ _ HT) in Hb. lia.
Qed.

Lemma used_blocks_NoDup h L : rep h L -> NoDup (used_blocks L).
Proof. intros HR. apply NoDup_filter. eapply tiles_NoDup. apply (rep_tiles _ _ HR). Qed.

Lemma total_used_free s L e : tiles s L e -> total (used_blocks L) + total (free_blocks L) = e - s.
Proof.
  revert s. induction L as [| [a l u] L IH]; intros s; [simpl; lia |].
  intros (_ & _ & HT%IH). simpl in HT. destruct u;
    [rewrite used_blocks_cons_used, free_blocks_cons_used
    | rewrite used_blocks_cons_free, free_blocks_cons_free]; simpl; lia.
Qed.

(** C15.  Allocation.  In a heap that satisfies the invariant [allocate] runs without
    failing an assertion and keeps the invariant.  A pointer it returns is that of a
    block which overlaps no block in use, has room for the object after its header
    and wastes less than the configured number of segments; all other blocks in use
    stay.  When it returns null nothing has changed, and for a critical request
    that happens only if no free block is long enough and the never-used segments
    that are committed do not suffice. *)
Theorem allocate_correct MinBlock MinFree h L size crit :
  0 < MinBlock < 2 ^ 30 -> inv h L -> 0 <= size < 2 ^ 60 ->
  exists r h' L', allocate MinBlock MinFree h size crit = Some (r, h') /\ inv h' L' /\
    match r with
    | None => h' = h /\ (crit = true -> exhausted MinBlock h L size)
    | Some p => exists b, p = pointer_of h b /\ used_blocks L' ≡ₚ b :: used_blocks L /\
        (forall b' q, b' ∈ used_blocks L -> in_block h b q -> ~ in_block h b' q) /\
        p + size <= block_at h (b_seg b + b_len b) /\
        b_len b * _segment_size h < size + header_size + MinBlock * _segment_size h
    end.
Proof.
  intros Hmin Hinv Hsize.
  destruct (allocate_spec MinBlock MinFree Hmin h L size crit Hinv Hsize)
    as (r & h' & L' & E & Hinv' & HF & HA).
  exists r, h', L'. split; [done |]. split; [done |]. destruct r as [p |]; simpl in HA; [| naive_solver].
  destruct HA as (b & Hu & Hb & -> & Hperm & Hsz & Hwaste). exists b. split; [done |]. split; [done |].
  assert (G : geometry h) by apply (rep_geometry _ _ (proj1 Hinv)).
  split_and!; [| | done].
  - intros b' q Hb' Hq Hq'.
    assert (Hin : b' ∈ used_blocks L') by (rewrite Hperm; by right).
    apply elem_of_used_blocks in Hin as [_ Hin].
    assert (b = b') as <-.
    { eapply (blocks_disjoint h' L' b b' q); [apply Hinv' | done | done | |];
        unfold in_block in *; by rewrite !(same_frame_block_at _ _ _ HF). }
    pose proof (used_blocks_NoDup _ _ (proj1 Hinv')) as Hnd. rewrite Hperm in Hnd.
    by apply NoDup_cons in Hnd as [].
  - unfold allocated_space, header_size in *. rewrite !block_at_eq by done. nia.
Qed.

(** C16.  Deallocation.  Giving back the pointer of a block in use succeeds, keeps the
    invariant (the free list stays sorted by address, and neighbouring free
    blocks are merged), and takes exactly that block out of the blocks in use. *)
Theorem deallocate_correct h L b :
  inv h L -> b ∈ used_blocks L ->
  exists h' L', deallocate h (pointer_of h b) = Some h' /\ inv h' L' /\
    used_blocks L ≡ₚ b :: used_blocks L' /\ (forall c, pointer_of h' c = pointer_of h c) /\
    _freelist_segments h' = _freelist_segments h + b_len b.
Proof.
  intros Hinv Hb. destruct (deallocate_spec h L b Hinv Hb) as (h' & L' & E & Hinv' & Hperm & HF & Hn).
  exists h', L'. split; [done |]. split; [done |]. split; [done |]. split.
  { intros c. unfold pointer_of. by rewrite (same_frame_block_at _ _ _ HF). }
  destruct Hinv as [HR _], Hinv' as [HR' _].
  rewrite (rep_count _ _ HR), (rep_count _ _ HR').
  pose proof (total_used_free _ _ _ (rep_tiles _ _ HR)) as H1.
  pose proof (total_used_free _ _ _ (rep_tiles _ _ HR')) as H2.
  assert (Hsum : total (used_blocks L) = b_len b + total (used_blocks L')).
  { change (b_len b + total (used_blocks L')) with (total (b :: used_blocks L')).
    clear - Hperm. induction Hperm; simpl in *; lia. }
  lia.
Qed.

(** C23.  Address lookup.  [find_start] follows the segment map from any address
    whatsoever and terminates: inside a block in use it returns that block's
    pointer, everywhere else (in free blocks, in committed memory never used,
    outside the heap) it returns null. *)
Theorem find_start_correct h L p :
  inv h L ->
  (forall b, b ∈ used_blocks L -> in_block h b p -> find_start h p = Some (Some (pointer_of h b))) /\
  ((forall b, b ∈ used_blocks L -> ~ in_block h b p) -> find_start h p = Some None).
Proof.
  intros [HR _]. split.
  - intros b [Hu Hb]%elem_of_used_blocks Hp. by rewrite (find_start_in_block h L b p HR Hb Hp), Hu.
  - intros Hout.
    destruct (decide (Exists (fun b => in_block h b p) L)) as [Hex | Hno].
    + apply Exists_exists in Hex as (b & Hb & Hin).
      rewrite (find_start_in_block h L b p HR Hb Hin). destruct (b_used b) eqn:Hu; [| done].
      destruct (Hout b); [by apply elem_of_used_blocks | done].
    + apply (find_start_outside h L p HR). intros b Hb Hin. apply Hno, Exists_exists. eauto.
Qed.

(** Iteration.  [first] and [next] enumerate exactly the blocks in use, in
    address order, and the counts taken by [verify] come out right: as many free
    blocks on the list as in the heap, and the recorded number of free segments. *)
Theorem iteration_correct h L :
  inv h L ->
  iterate h = Some (pointer_of h <$> used_blocks L) /\
  verify h = Some (0, _freelist_segments h).
Proof. intros Hinv. split; [by apply iterate_spec | by eapply verify_spec, Hinv]. Qed.

Lemma allocated_capacity_spec h L :
  inv h L -> allocated_capacity h = total (used_blocks L) * _segment_size h.
Proof.
  intros [HR _]. pose proof (rep_geometry _ _ HR) as G. pose proof (rep_tiles _ _ HR) as HT.
  pose proof (total_used_free _ _ _ HT). pose proof (total_free_nonneg _ _ _ HT).
  pose proof (rep_next _ _ HR). pose proof (committed_bound h G). pose proof (segment_size_pos h G).
  pose proof (geo_boundary h G). pose proof (geo_top h G). pose proof (geo_reserved h G).
  pose proof (geo_low h G).
  unfold allocated_capacity, segments_to_size. rewrite (rep_count _ _ HR).
  rewrite (wrap_small 64 (_ - _)) by (unfold in_unsigned; lia).
  rewrite Z.shiftl_mul_pow2, <- (geo_size h G) by (pose proof (geo_log2 h G); lia).
  rewrite wrap_small; [f_equal; lia |]. unfold in_unsigned. nia.
Qed.

(** ** Reachable states *)

Section Reachable.
Context (MinBlock MinFree p : Z).

(** What may happen to a heap: requests, giving back or writing to a block that is
    in use, and growing the committed part. *)
Inductive heap_step (h : CodeHeap) : CodeHeap -> Prop :=
  | step_allocate size crit r h' : 0 <= size < 2 ^ 60 ->
      allocate MinBlock MinFree h size crit = Some (r, h') -> heap_step h h'
  | step_deallocate q h' : find_start h q = Some (Some q) ->
      deallocate h q = Some h' -> heap_step h h'
  | step_write q lk : find_start h q = Some (Some q) ->
      heap_step h (update h (q - header_size) (fun c => set_link c lk))
  | step_expand commit size h' : 0 <= size < 2 ^ 60 ->
      expand_by (2 ^ p) commit h size = Some (true, h') -> heap_step h h'.

Lemma heap_ok_frame h h' L L' : heap_ok p h L -> same_frame h h' -> inv h' L' -> heap_ok p h' L'.
Proof.
  intros [] (Hm & Hs & Hc & Hr & Hz & Hl & Hb) Hinv.
  constructor; rewrite ?Hm, ?Hs, ?Hc, ?Hl, ?Hb; auto.
Qed.

Lemma live_pointer h L q :
  inv h L -> find_start h q = Some (Some q) -> exists b, b ∈ used_blocks L /\ q = pointer_of h b.
Proof.
  intros [HR _] Hq. destruct (decide (Exists (fun b => in_block h b q) L)) as [Hex | Hno].
  - apply Exists_exists in Hex as (b & Hb & Hin).
    rewrite (find_start_in_block h L b q HR Hb Hin) in Hq. destruct (b_used b) eqn:Hu; [| done].
    injection Hq as Hq. exists b. split; [by apply elem_of_used_blocks | done].
  - rewrite (find_start_outside h L q HR) in Hq; [done |].
    intros b Hb Hin. apply Hno, Exists_exists. eauto.
Qed.

Lemma heap_step_ok h L h' :
  0 < MinBlock < 2 ^ 30 -> heap_ok p h L -> heap_step h h' -> exists L', heap_ok p h' L'.
Proof.
  intros Hmin Hok Hstep. pose proof (ok_inv _ _ _ Hok) as Hinv.
  destruct Hstep as [size crit r h' Hsize E | q h' Hq E | q lk Hq | commit size h' Hsize E].
  - destruct (allocate_spec MinBlock MinFree Hmin h L size crit Hinv Hsize)
      as (r' & h1 & L' & E' & Hinv' & HF & _).
    rewrite E in E'. injection E' as <- <-. exists L'. by eapply heap_ok_frame.
  - destruct (live_pointer h L q Hinv Hq) as (b & Hb & ->).
    destruct (deallocate_spec h L b Hinv Hb) as (h1 & L' & E' & Hinv' & _ & HF & _).
    unfold pointer_of in E. rewrite E in E'. injection E' as <-. exists L'. by eapply heap_ok_frame.
  - destruct (live_pointer h L q Hinv Hq) as (b & Hb & ->). exists L.
    replace (pointer_of h b - header_size) with (block_at h (b_seg b))
      by (unfold pointer_of, allocated_space; lia).
    eapply heap_ok_frame; [done | done |]. by apply (client_write_inv h L b lk).
  - destruct (heap_expand_spec commit p h L size Hok Hsize) as (ok & h1 & E' & Ht & _).
    rewrite E in E'. injection E' as <- <-. exists L. by apply Ht.
Qed.

Lemma heap_steps_ok h L h' :
  0 < MinBlock < 2 ^ 30 -> heap_ok p h L -> rtc heap_step h h' -> exists L', heap_ok p h' L'.
Proof.
  intros Hmin Hok Hrtc. revert L Hok. induction Hrtc as [h | h h1 h2 Hstep _ IH]; [eauto |].
  intros L Hok. destruct (heap_step_ok h L h1 Hmin Hok Hstep) as (L1 & Hok1). eauto.
Qed.
End Reachable.


(** ** Examples *)

(** A heap of four pages, one committed, in segments of 64 bytes. *)
Definition sample_heap : CodeHeap :=
  match reserve sample_os new_CodeHeap 16384 4096 (2 ^ 6) with
  | Some (_, h) => h
  | None => new_CodeHeap
  end.

Lemma sample_reserve_ok :
  reserve sample_os new_CodeHeap 16384 4096 (2 ^ 6) = Some (true, sample_heap).
Proof. by vm_compute. Qed.

Lemma some_pair_eq {A B} (a a' : A) (b b' : B) : Some (a, b) = Some (a', b') -> a = a' /\ b = b'.
Proof. by intros [= -> ->]. Qed.

Lemma sample_heap_ok : heap_ok 12 sample_heap [].
Proof.
  destruct (reserve_spec sample_os 12 12 6 16384 4096 sample_os_ok) as (ok & h & E & H); [lia.. |].
  rewrite sample_reserve_ok in E. apply some_pair_eq in E as [<- <-].
  by apply H.
Qed.

(** The heap after one allocation. *)
Definition sample_used : CodeHeap :=
  match allocate 1 512000 sample_heap 100 true with Some (_, h) => h | None => sample_heap end.

Lemma sample_used_inv : exists L b, inv sample_used L /\ b ∈ used_blocks L /\ pointer_of sample_used b = 65552.
Proof.
  destruct (allocate_spec 1 512000 ltac:(lia) sample_heap [] 100 true (ok_inv _ _ _ sample_heap_ok) ltac:(lia))
    as (r & h' & L' & E & Hinv & HF & HA).
  assert (E' : allocate 1 512000 sample_heap 100 true = Some (Some 65552, sample_used)) by (by vm_compute).
  rewrite E' in E. apply some_pair_eq in E as [<- <-]. destruct HA as (b & Hu & Hb & Hp & _).
  exists L', b. split; [exact Hinv |].
  split; [exact (proj2 (elem_of_used_blocks b L') (conj Hu Hb)) |].
  unfold pointer_of. rewrite (same_frame_block_at _ _ _ HF). symmetry. exact Hp.
Qed.

Lemma allocate_correct_witness :
  exists r h' L', allocate 1 512000 sample_heap 100 true = Some (r, h') /\ inv h' L'.
Proof.
  destruct (allocate_correct 1 512000 sample_heap [] 100 true) as (r & h' & L' & H1 & H2 & _);
    [lia | apply (ok_inv _ _ _ sample_heap_ok) | lia |].
  exists r, h', L'. exact (conj H1 H2).
Defined.

Lemma deallocate_correct_witness : exists h' L', deallocate sample_used 65552 = Some h' /\ inv h' L'.
Proof.
  destruct sample_used_inv as (L & b & Hinv & Hb & E). rewrite <- E.
  destruct (deallocate_correct sample_used L b Hinv Hb) as (h' & L' & H1 & H2 & _).
  exists h', L'. exact (conj H1 H2).
Defined.

Lemma find_start_correct_witness : find_start sample_used (65552 + 8) = Some (Some 65552).
Proof.
  destruct sample_used_inv as (L & b & Hinv & Hb & E). rewrite <- E.
  apply (proj1 (find_start_correct sample_used L (pointer_of sample_used b + 8) Hinv) b Hb).
  pose proof (rep_geometry _ _ (proj1 Hinv)) as G. pose proof (segment_size_pos _ G).
  apply elem_of_used_blocks in Hb as [_ Hb].
  pose proof (tiles_in _ _ _ _ (rep_tiles _ _ (proj1 Hinv)) Hb).
  unfold in_block, pointer_of, allocated_space, header_size. rewrite !block_at_eq by exact G. nia.
Defined.

Lemma iteration_correct_witness :
  exists L, iterate sample_used = Some (pointer_of sample_used <$> used_blocks L) /\
    verify sample_used = Some (0, _freelist_segments sample_used).
Proof.
  destruct sample_used_inv as (L & b & Hinv & Hb & E). exists L.
  exact (iteration_correct sample_used L Hinv).
Defined.


(** ** The reserve for critical allocations *)

(** The same heap with all four pages committed. *)
Definition full_heap : CodeHeap :=
  match reserve sample_os new_CodeHeap 16384 16384 (2 ^ 6) with
  | Some (_, h) => h
  | None => new_CodeHeap
  end.

Definition after_allocate (MinFree : Z) (h : CodeHeap) (size : Z) (crit : bool) : CodeHeap :=
  match allocate 1 MinFree h size crit with Some (_, h') => h' | None => h end.
Definition after_deallocate (h : CodeHeap) (p : Z) : CodeHeap :=
  match deallocate h p with Some h' => h' | None => h end.

Lemma after_allocate_step MinFree h size crit :
  0 <= size < 2 ^ 60 -> bool_decide (is_Some (allocate 1 MinFree h size crit)) = true ->
  heap_step 1 MinFree 12 h (after_allocate MinFree h size crit).
Proof.
  intros Hs Hok. apply bool_decide_eq_true in Hok as [[r h'] E].
  unfold after_allocate. rewrite E. by eapply step_allocate.
Qed.

Lemma after_deallocate_step MinFree h p :
  bool_decide (find_start h p = Some (Some p)) = true ->
  bool_decide (is_Some (deallocate h p)) = true ->
  heap_step 1 MinFree 12 h (after_deallocate h p).
Proof.
  intros Hf Hok. apply bool_decide_eq_true in Hf. apply bool_decide_eq_true in Hok as [h' E].
  unfold after_deallocate. rewrite E. by eapply step_deallocate.
Qed.

(** [search_freelist] means to keep allocations that are not critical out of the last
    [CodeCacheMinimumFreeSpace] bytes, but it adds a number of segments to a byte
    address: a free block that starts below the limit is handed out although the
    allocation ends above it. *)
Theorem freelist_reserve_crossed :
  exists h p h', rtc (heap_step 1 8192 12) full_heap h /\
    allocate 1 8192 h 2500 false = Some (Some p, h') /\
    high_boundary h - 8192 < p + 2500.
Proof.
  pose (h1 := after_allocate 8192 full_heap 7664 true).
  pose (h2 := after_allocate 8192 h1 2544 true).
  pose (h3 := after_deallocate h2 73232).
  exists h3, 73232, (after_allocate 8192 h3 2500 false). split; [| split].
  - apply (rtc_l _ _ h1); [apply after_allocate_step; [lia | by vm_compute] |].
    apply (rtc_l _ _ h2); [apply after_allocate_step; [lia | by vm_compute] |].
    apply (rtc_l _ _ h3); [| apply rtc_refl].
    apply after_deallocate_step; by vm_compute.
  - by vm_compute.
  - by vm_compute.
Qed.

(** [allocate] subtracts the reserve from the unallocated capacity without checking
    that there is as much: when less is left, the difference wraps around and an
    allocation that is not critical takes the last segments. *)
Theorem allocate_reserve_underflow :
  exists h p h', rtc (heap_step 1 8192 12) full_heap h /\
    heap_unallocated_capacity h < 8192 /\
    allocate 1 8192 h 600 false = Some (Some p, h').
Proof.
  pose (h1 := after_allocate 8192 full_heap 12784 true).
  exists h1, 78352, (after_allocate 8192 h1 600 false). split; [| split].
  - apply (rtc_l _ _ h1); [apply after_allocate_step; [lia | by vm_compute] | apply rtc_refl].
  - by vm_compute.
  - by vm_compute.
Qed.

(** ** A failed expansion *)

Definition large_heap : CodeHeap :=
  match reserve sample_os new_CodeHeap 1048576 4096 (2 ^ 6) with
  | Some (_, h) => h
  | None => new_CodeHeap
  end.
(** A system that refuses to commit single pages. *)
Definition refuse_page (_ n : Z) : bool := negb (n =? 4096).
Definition half_expanded : CodeHeap :=
  match expand_by 4096 refuse_page large_heap 300000 with Some (_, h) => h | None => large_heap end.

(** When the memory grows but the segment map cannot, [expand_by] answers false
    with the number of committed segments already increased: the next allocation
    takes segments whose map entries are not committed. *)
Theorem failed_expansion_allocates :
  expand_by 4096 refuse_page large_heap 300000 = Some (false, half_expanded) /\
  committed_size (_segmap half_expanded) = 4096 /\
  exists h', allocate 1 0 half_expanded 270000 true = Some (Some 65552, h') /\
    4096 < _next_segment h'.
Proof.
  split; [by vm_compute | split; [by vm_compute |]].
  exists (match allocate 1 0 half_expanded 270000 true with Some (_, h) => h | None => large_heap end).
  split; by vm_compute.
Qed.

(** [clear] is declared to clear all heap contents, but keeps the free list. *)
Theorem clear_keeps_freelist :
  exists h, clear (after_deallocate sample_used 65552) = Some h /\
    _next_segment h = 0 /\ _freelist h = Some 65536.
Proof. eexists. split; [vm_compute; reflexivity | done]. Qed.

End CodeHeapTheorems.
