(* ===== verification/BlockOffsetTable.v ===== *)
(** The block offset table of a heap space (memory/blockOffsetTable.hpp, .inline.hpp, .cpp):
    for each card of 512 bytes a byte that says how far back the block begins which
    contains the first word of the card, and the searches and updates on it.

    A [HeapWord*] is the number of a word; a byte address is eight times that.  [None] is
    a failed assertion or guarantee, or an index outside the array.  The assertions on
    which thread may update the table, and on addresses lying in the heap, are left out:
    the array asserts the addresses it is given itself. *)
From S2P Require Import Prelude GlobalDefinitions.
Import GlobalDefinitions.

Module BlockOffsetTable.

Definition size_t (z : Z) : Z := wrap 64 z.

(** ** BlockOffsetSharedArray *)

Definition LogN : Z := 9.
Definition LogN_words : Z := 6.
Definition N_words : Z := 64.
Definition LogBase : Z := 4.
Definition N_powers : nat := 14.

(** The reserved region, the committed size of the table and its bytes. *)
Record shared_array : Set := mkArray {
  _reserved_start : Z; _reserved_end : Z; _committed : Z; _offset_array : Z -> Z }.

Definition set_entries (A : shared_array) (g : Z -> Z) : shared_array :=
  mkArray (_reserved_start A) (_reserved_end A) (_committed A) g.

Definition offset_array (A : shared_array) (index : Z) : option Z :=
  if (0 <=? index) && (index <? _committed A) then Some (_offset_array A index) else None.

(** [set_offset_array] with an offset, with two addresses, and of a closed range of cards. *)
Definition set_offset (A : shared_array) (index offset : Z) (reducing : bool) : option shared_array :=
  old ← offset_array A index;
  if negb reducing || (u_char offset <=? old)
  then Some (set_entries A (fun i => if i =? index then u_char offset else _offset_array A i)) else None.

Definition set_offset_between (A : shared_array) (index high low : Z) (reducing : bool) : option shared_array :=
  if (low <=? high) && (high - low <=? N_words) then set_offset A index (high - low) reducing else None.

Definition set_offsets (A : shared_array) (left right offset : Z) : option shared_array :=
  if (0 <=? left) && (right <? _committed A) && (left <=? right)
  then Some (set_entries A (fun i => if (left <=? i) && (i <=? right) then u_char offset else _offset_array A i)) else None.

Definition check_offset_array (A : shared_array) (index high low : Z) : bool :=
  match offset_array A index with
  | Some entry => (low <=? high) && (high - low <=? N_words) && (entry =? high - low)
  | None => false
  end.

Definition index_for (A : shared_array) (p : Z) : option Z :=
  if (_reserved_start A <=? p) && (p <? _reserved_end A) then
    let delta := 8 * p - 8 * _reserved_start A in
    let result := Z.shiftr delta LogN in
    if result <? _committed A then Some result else None
  else None.

Definition address_for_index (A : shared_array) (index : Z) : option Z :=
  if (0 <=? index) && (index <? _committed A) then
    let result := _reserved_start A + Z.shiftl index LogN_words in
    if (_reserved_start A <=? result) && (result <? _reserved_end A) then Some result else None
  else None.

(** ** BlockOffsetArray *)

Definition power_to_cards_back (i : nat) : Z := size_t (Z.shiftl 1 (LogBase * Z.of_nat i)).
Definition entry_to_cards_back (entry : Z) : option Z :=
  if N_words <=? entry then Some (power_to_cards_back (Z.to_nat (entry - N_words))) else None.

(** [check_all_cards]: the loop from card [c], [n] cards long. *)
Fixpoint check_cards (A : shared_array) (start_card c last_entry : Z) (n : nat) : bool :=
  match n with
  | O => true
  | S n =>
      match offset_array A c with
      | None => false
      | Some entry =>
          (last_entry <=? entry) &&
          (negb (power_to_cards_back 1 <? size_t (c - start_card)) || (N_words <? entry)) &&
          match entry_to_cards_back entry with
          | None => false
          | Some backskip =>
              let landing_card := size_t (c - backskip) in
              (size_t (start_card - 1) <=? landing_card) &&
              match offset_array A landing_card with
              | None => false
              | Some landing =>
                  if start_card <=? landing_card then landing <=? entry
                  else (landing_card =? start_card - 1) && (landing <=? N_words)
              end
          end && check_cards A start_card (c + 1) entry n
      end
  end.

Definition check_all_cards (A : shared_array) (start_card end_card : Z) : bool :=
  if end_card <? start_card then true else
  match offset_array A start_card with
  | Some entry => (entry =? N_words) && check_cards A start_card (start_card + 1) N_words (Z.to_nat (end_card - start_card))
  | None => false
  end.

(** The loop of [set_remainder_to_point_to_start_incl] over the powers from [i]: the array
    and [start_card_for_region]. *)
Fixpoint remainder_loop (A : shared_array) (start_card end_card region : Z) (i n : nat) : option (shared_array * Z) :=
  match n with
  | O => Some (A, region)
  | S n =>
      let reach := size_t (start_card - 1 + (power_to_cards_back (i + 1) - 1)) in
      let offset := N_words + Z.of_nat i in
      if end_card <=? reach then A ← set_offsets A region end_card offset; Some (A, reach + 1)
      else A ← set_offsets A region reach offset; remainder_loop A start_card end_card (reach + 1) (i + 1) n
  end.

Section Region.
(** [_bottom]. *)
Context (bottom : Z).

Definition set_remainder_to_point_to_start_incl (A : shared_array) (start_card end_card : Z) : option shared_array :=
  if end_card <? start_card then Some A else
  first ← index_for A bottom;
  before ← offset_array A (start_card - 1);
  if (first <? start_card) && (before <=? N_words) then
    '(A, region) ← remainder_loop A start_card end_card start_card 0 N_powers;
    if (end_card <? region) && check_all_cards A start_card end_card then Some A else None
  else None.

Definition set_remainder_to_point_to_start (A : shared_array) (start end_ : Z) : option shared_array :=
  if end_ <=? start then Some A else
  start_card ← index_for A start;
  end_card ← index_for A (end_ - 1);
  start' ← address_for_index A start_card;
  end' ← address_for_index A end_card;
  if (start =? start') && (end_ =? end' + N_words) then set_remainder_to_point_to_start_incl A start_card end_card else None.

Inductive Action : Set := Action_single | Action_mark | Action_check.

Definition do_block_internal (A : shared_array) (init_to_zero : bool) (blk_start blk_end : Z) (action : Action) (reducing : bool)
    : option shared_array :=
  let end_ui := uintptr_t (8 * (blk_end - 1)) in
  let start_ui := uintptr_t (8 * blk_start) in
  let boundary_before_end := Z.land end_ui (Z.lnot (right_n_bits LogN)) in
  if start_ui <=? boundary_before_end then
    start_index ← index_for A blk_start;
    end_index ← index_for A (blk_end - 1);
    boundary ← address_for_index A start_index;
    if boundary <=? blk_start then
      let '(boundary, start_index) :=
        if blk_start =? boundary then (boundary, start_index) else (boundary + N_words, start_index + 1) in
      if (start_index <=? end_index) && (8 * boundary <=? boundary_before_end) then
        match action, init_to_zero with
        | Action_mark, true => set_offset_between A start_index boundary blk_start reducing
        | Action_mark, false | Action_single, _ =>
            A ← set_offset_between A start_index boundary blk_start reducing;
            if start_index <? end_index then
              rem_st ← address_for_index A start_index;
              rem_end ← address_for_index A end_index;
              set_remainder_to_point_to_start A (rem_st + N_words) (rem_end + N_words)
            else Some A
        | Action_check, _ =>
            if check_offset_array A start_index boundary blk_start && check_all_cards A (start_index + 1) end_index
            then Some A else None
        end
      else None
    else None
  else Some A.

Definition single_block (A : shared_array) (init_to_zero : bool) (blk_start blk_end : Z) : option shared_array :=
  do_block_internal A init_to_zero blk_start blk_end Action_single false.

(** The constructor: without [init_to_zero] the region is one block. *)
Definition initialize_array (A : shared_array) (end_ : Z) (init_to_zero : bool) : option shared_array :=
  if bottom <=? end_ then
    if init_to_zero then Some A else
    A ← set_remainder_to_point_to_start A (bottom + N_words) end_;
    set_offset A 0 0 false
  else None.

(** [set_offset_array] of the cards between two addresses, and [resize] of the region to
    [new_word_size], which gives the new [_end]. *)
Definition is_card_boundary (A : shared_array) (p : Z) : bool :=
  (_reserved_start A <=? p) && (Z.land (p - _reserved_start A) (right_n_bits LogN_words) =? 0).

Definition set_offsets_of (A : shared_array) (left right offset : Z) : option shared_array :=
  last ← index_for A (right - 1);
  if (last <? _committed A) && (left <? right) then
    let num_cards := Z.shiftr (right - left) LogN_words in
    i ← index_for A left;
    Some (set_entries A (fun c => if (i <=? c) && (c <? i + num_cards) then u_char offset else _offset_array A c))
  else None.

Definition resize (A : shared_array) (init_to_zero : bool) (end_ new_word_size : Z) : option (shared_array * Z) :=
  let new_end := bottom + new_word_size in
  A ← (if (end_ <? new_end) && negb init_to_zero then
         if is_card_boundary A end_ && is_card_boundary A new_end then set_offsets_of A end_ new_end N_words else None
       else Some A);
  Some (A, new_end).

(** ** BlockOffsetArrayNonContigSpace *)

(** [VerifyBlockOffsetArray]: whether blocks are checked. *)
Context (verify : bool).

Definition verify_single_block (A : shared_array) (blk_start blk_end : Z) : option shared_array :=
  if verify then do_block_internal A false blk_start blk_end Action_check false else Some A.

Definition mark_block (A : shared_array) (init_to_zero : bool) (blk_start blk_end : Z) (reducing : bool) : option shared_array :=
  do_block_internal A init_to_zero blk_start blk_end Action_mark reducing.

(** The two loops over the powers of [split_block]. *)
Fixpoint split_first (A : shared_array) (suff_index end_index num_pref_cards : Z) (i n : nat)
    : option (shared_array * bool * nat) :=
  match n with
  | O => Some (A, true, i)
  | S n =>
      let back_by := power_to_cards_back i in
      let right_index := size_t (suff_index + back_by - 1) in
      let left_index := size_t (right_index - num_pref_cards + 1) in
      let '(right_index, more) :=
        if end_index - 1 <=? right_index then (end_index - 1, false) else (right_index, true) in
      if num_pref_cards <? back_by then
        if left_index <=? right_index then
          A ← set_offsets A left_index right_index (N_words + Z.of_nat i - 1);
          Some (A, more, S i)
        else Some (A, false, S i)
      else if more then split_first A suff_index end_index num_pref_cards (S i) n
      else Some (A, false, S i)
  end.

Fixpoint split_rest (A : shared_array) (suff_index end_index num_pref_cards : Z) (i n : nat) : option shared_array :=
  match n with
  | O => Some A
  | S n =>
      let back_by := power_to_cards_back i in
      let right_index := size_t (suff_index + back_by - 1) in
      let left_index := size_t (right_index - num_pref_cards + 1) in
      if end_index - 1 <=? right_index then
        let right_index := end_index - 1 in
        if right_index <? left_index then Some A
        else set_offsets A left_index right_index (N_words + Z.of_nat i - 1)
      else if left_index <=? right_index then
        A ← set_offsets A left_index right_index (N_words + Z.of_nat i - 1);
        split_rest A suff_index end_index num_pref_cards (S i) n
      else None
  end.

(** The card that a block starts first. *)
Definition first_index (A : shared_array) (addr : Z) : option Z :=
  index ← index_for A addr;
  a ← address_for_index A index;
  Some (if a =? addr then index else index + 1).

Definition split_suffix (A : shared_array) (suff_index end_index num_pref_cards num_suff_cards : Z) : option shared_array :=
  if num_suff_cards <=? num_pref_cards then set_remainder_to_point_to_start_incl A (suff_index + 1) (end_index - 1)
  else
    A ← set_remainder_to_point_to_start_incl A (suff_index + 1) (suff_index + num_pref_cards - 1);
    '(A, more, i) ← split_first A suff_index end_index num_pref_cards 1 (N_powers - 1);
    if more : bool then split_rest A suff_index end_index num_pref_cards i (N_powers - i) else Some A.

Definition split_block (A : shared_array) (blk blk_size left_blk_size : Z) : option shared_array :=
  A ← verify_single_block A blk (blk + blk_size);
  if (0 <? blk_size) && (0 <? left_blk_size) && (left_blk_size <? blk_size) then
    let suff_addr := blk + left_blk_size in
    let end_addr := blk + blk_size in
    pref_index ← first_index A blk;
    suff_index ← first_index A suff_addr;
    last ← index_for A (end_addr - 1);
    let end_index := last + 1 in
    let num_pref_cards := size_t (suff_index - pref_index) in
    let num_suff_cards := size_t (end_index - suff_index) in
    A ← (if 0 <? num_suff_cards then
           boundary ← address_for_index A suff_index;
           A ← set_offset_between A suff_index boundary suff_addr true;
           if 0 <? num_pref_cards then split_suffix A suff_index end_index num_pref_cards num_suff_cards else Some A
         else Some A);
    A ← verify_single_block A blk (blk + left_blk_size);
    verify_single_block A suff_addr (suff_addr + (blk_size - left_blk_size))
  else None.

(** [allocated], [freed] and [alloc_block], with [_unallocated_block] if it is maintained:
    the new [_unallocated_block]. *)
Definition allocated (A : shared_array) (unallocated_block : option Z) (blk_start blk_end : Z) : option (option Z) :=
  _ ← verify_single_block A blk_start blk_end;
  Some (match unallocated_block with Some ub => Some (MAX2 ub blk_end) | None => None end).

Definition freed (A : shared_array) (end_ : Z) (unallocated_block : option Z) (blk_start blk_end : Z) : option (option Z) :=
  _ ← verify_single_block A blk_start blk_end;
  match unallocated_block with
  | Some ub =>
      if ub <=? end_ then Some (Some (if (ub <=? blk_end) && (blk_start <=? ub) then blk_start else ub)) else None
  | None => Some None
  end.

Definition noncontig_alloc_block (A : shared_array) (unallocated_block : option Z) (blk_start blk_end : Z)
    : option (shared_array * option Z) :=
  if negb (blk_start =? 0) && (blk_start <? blk_end) then
    A ← single_block A false blk_start blk_end;
    ub ← allocated A unallocated_block blk_start blk_end;
    Some (A, ub)
  else None.

(** ** Searches *)

(** [_end], the bounds of the space, and the sizes of its blocks. *)
Context (end_ sp_bottom sp_end : Z) (block_size : Z -> Z).

(** From a card to the address its entry leads to. *)
Fixpoint go_back (A : shared_array) (q index : Z) (fuel : nat) : option Z :=
  match fuel with
  | O => None
  | S fuel =>
      offset ← offset_array A index;
      if N_words <=? offset then
        n_cards_back ← entry_to_cards_back offset;
        let q := q - N_words * n_cards_back in
        if (sp_bottom <=? q) && (q <? sp_end) then go_back A q (index - n_cards_back) fuel else None
      else
        let q := q - offset in
        if (sp_bottom <=? q) && (q <? sp_end) then Some q else None
  end.

(** Over the blocks to the one that contains [addr]. *)
Fixpoint go_forward (q n addr : Z) (fuel : nat) : option Z :=
  match fuel with
  | O => None
  | S fuel =>
      if n <=? addr then
        let q := n in
        let n := n + block_size n in
        if q <? n then go_forward q n addr fuel else None
      else if q <=? addr then Some q else None
  end.

(** [BlockOffsetArrayNonContigSpace::block_start_unsafe]; [unallocated_block] is where the
    unallocated end of the space begins, if that is maintained. *)
Definition block_start_unsafe (A : shared_array) (unallocated_block : option Z) (addr : Z) (fuel : nat) : option Z :=
  first ← offset_array A 0;
  if (first =? 0) && (bottom <=? addr) && (addr <? end_) then
    let search :=
      index ← index_for A addr;
      q ← address_for_index A index;
      q ← go_back A q index fuel;
      go_forward q q addr fuel in
    match unallocated_block with
    | Some ub => if ub <=? addr then Some ub else search
    | None => search
    end
  else None.

Fixpoint careful_loop (A : shared_array) (q index : Z) (fuel : nat) : option Z :=
  match fuel with
  | O => None
  | S fuel =>
      offset ← offset_array A index;
      if offset <? N_words then Some (q - offset)
      else n_cards_back ← entry_to_cards_back offset; careful_loop A (q - n_cards_back * N_words) (index - n_cards_back) fuel
  end.

Definition block_start_careful (A : shared_array) (unallocated_block : option Z) (addr : Z) (fuel : nat) : option Z :=
  first ← offset_array A 0;
  if (first =? 0) && (bottom <=? addr) && (addr <? end_) then
    let search :=
      index ← index_for A addr;
      a ← address_for_index A index;
      if a =? addr then q ← careful_loop A addr index fuel; if q <=? addr then Some q else None else None in
    match unallocated_block with
    | Some ub => if ub <=? addr then Some ub else search
    | None => search
    end
  else None.

End Region.

(** ** BlockOffsetArrayContigSpace *)

Record contig : Set := mkContig {
  c_array : shared_array; c_bottom : Z; c_end : Z; _next_offset_threshold : Z; _next_offset_index : Z }.

Definition initialize_threshold (T : contig) : option contig :=
  first ← index_for (c_array T) (c_bottom T);
  threshold ← address_for_index (c_array T) (first + 1);
  Some (mkContig (c_array T) (c_bottom T) (c_end T) threshold (first + 1)).

Definition zero_bottom_entry (T : contig) : option contig :=
  bottom_index ← index_for (c_array T) (c_bottom T);
  A ← set_offset (c_array T) bottom_index 0 false;
  Some (mkContig A (c_bottom T) (c_end T) (_next_offset_threshold T) (_next_offset_index T)).

(** The assertions at the end, on the entries that were set. *)
Definition entries_set (A : shared_array) (from end_index : Z) : bool :=
  forallb (fun k => let e := _offset_array A (from + Z.of_nat k) in (0 <? e) && (e <=? N_words + Z.of_nat N_powers - 1))
    (seq 0 (Z.to_nat (end_index - from + 1))).

Definition alloc_block_work (T : contig) (blk_start blk_end : Z) : option contig :=
  let A := c_array T in
  let index := _next_offset_index T in
  let threshold := _next_offset_threshold T in
  if negb (blk_start =? 0) && (blk_start <? blk_end) && (threshold <? blk_end) && (blk_start <=? threshold)
     && (threshold - blk_start <=? N_words) && (threshold =? _reserved_start A + index * N_words) then
    A ← set_offset_between A index threshold blk_start false;
    end_index ← index_for A (blk_end - 1);
    A ← (if index + 1 <=? end_index then
           rem_st ← address_for_index A (index + 1);
           rem_end ← address_for_index A end_index;
           set_remainder_to_point_to_start (c_bottom T) A rem_st (rem_end + N_words)
         else Some A);
    last ← address_for_index A end_index;
    let T := mkContig A (c_bottom T) (c_end T) (last + N_words) (end_index + 1) in
    start_index ← index_for A blk_start;
    boundary ← address_for_index A start_index;
    first ← offset_array A index;
    if (blk_end <=? _next_offset_threshold T)
       && (((first =? 0) && (blk_start =? boundary)) || ((0 <? first) && (first <=? N_words)))
       && entries_set A (index + 1) end_index
    then Some T else None
  else None.

Definition alloc_block (T : contig) (blk_start blk_end : Z) : option contig :=
  if _next_offset_threshold T <? blk_end then alloc_block_work T blk_start blk_end else Some T.

(** The two loops back over the cards. *)
Fixpoint back_powers (A : shared_array) (sp_bottom q index : Z) (fuel : nat) : option (Z * Z) :=
  match fuel with
  | O => None
  | S fuel =>
      offset ← offset_array A index;
      if N_words <? offset then
        n_cards_back ← entry_to_cards_back offset;
        let q := q - N_words * n_cards_back in
        if sp_bottom <=? q then back_powers A sp_bottom q (index - n_cards_back) fuel else None
      else Some (q, index)
  end.
Fixpoint back_single (A : shared_array) (sp_bottom q index : Z) (fuel : nat) : option (Z * Z) :=
  match fuel with
  | O => None
  | S fuel =>
      offset ← offset_array A index;
      if offset =? N_words then
        if sp_bottom <=? q then back_single A sp_bottom (q - N_words) (index - 1) fuel else None
      else if offset <? N_words then Some (q, offset) else None
  end.

(** [BlockOffsetArrayContigSpace::block_start_unsafe].  Its last loop is that of the other search,
    which asserts that every step leads forward; here a block of no size, where the loop would
    not end, has no result either. *)
Definition contig_block_start (T : contig) (sp_bottom : Z) (block_size : Z -> Z) (addr : Z) (fuel : nat) : option Z :=
  let A := c_array T in
  first ← offset_array A 0;
  if (first =? 0) && (c_bottom T <=? addr) && (addr <? c_end T) then
    index ← index_for A addr;
    let index := MIN2 index (_next_offset_index T - 1) in
    q ← address_for_index A index;
    '(q, index) ← back_powers A sp_bottom q index fuel;
    '(q, offset) ← back_single A sp_bottom q index fuel;
    go_forward block_size (q - offset) (q - offset) addr fuel
  else None.

End BlockOffsetTable.
