(* ===== verification/BlockOffsetTheorems.v ===== *)
(** The block offset table leads from every address to the block that contains it. *)
From S2P Require Import Prelude GlobalDefinitions BlockOffsetTable.
Import GlobalDefinitions BlockOffsetTable.

Module BlockOffsetTheorems.

(** ** Logarithms of base 16 *)

Definition log16 (d : Z) : Z := Z.log2 d / 4.

Lemma pow16 i : 0 <= i -> 16 ^ i = 2 ^ (4 * i).
Proof. intros. change 16 with (2 ^ 4). by rewrite <- Z.pow_mul_r by lia. Qed.

Lemma log16_nonneg d : 0 <= log16 d.
Proof. apply Z.div_pos; [apply Z.log2_nonneg | lia]. Qed.

Lemma log16_spec d : 1 <= d -> 16 ^ log16 d <= d < 16 ^ (log16 d + 1).
Proof.
  intros Hd. pose proof (log16_nonneg d). rewrite !pow16 by lia.
  pose proof (Z.log2_spec d ltac:(lia)) as [Hlo Hhi].
  pose proof (Z.div_mod (Z.log2 d) 4 ltac:(lia)) as Hdm. pose proof (Z.mod_pos_bound (Z.log2 d) 4 ltac:(lia)).
  fold (log16 d) in Hdm. split.
  - etransitivity; [| exact Hlo]. apply Z.pow_le_mono_r; lia.
  - eapply Z.lt_le_trans; [exact Hhi |]. apply Z.pow_le_mono_r; lia.
Qed.

Lemma pow16_lt_inv i j : 0 <= i -> 0 <= j -> 16 ^ i < 16 ^ j -> i < j.
Proof. intros Hi Hj H. apply (Z.pow_lt_mono_r_iff 16); lia. Qed.

Lemma log16_unique d i : 0 <= i -> 16 ^ i <= d < 16 ^ (i + 1) -> log16 d = i.
Proof.
  intros Hi [Hlo Hhi]. pose proof (Z.pow_pos_nonneg 16 i ltac:(lia) Hi).
  pose proof (log16_spec d ltac:(lia)) as [Hl Hh]. pose proof (log16_nonneg d).
  assert (log16 d < i + 1) by (apply pow16_lt_inv; lia). assert (i < log16 d + 1) by (apply pow16_lt_inv; lia). lia.
Qed.

Lemma log16_mono c d : 1 <= c <= d -> log16 c <= log16 d.
Proof. intros. apply Z.div_le_mono; [lia |]. apply Z.log2_le_mono. lia. Qed.

Lemma log16_small d : 1 <= d < 16 ^ 14 -> log16 d < 14.
Proof.
  intros Hd. pose proof (log16_spec d ltac:(lia)). pose proof (log16_nonneg d). apply pow16_lt_inv; lia.
Qed.

Lemma power_to_cards i : (i <= 14)%nat -> power_to_cards_back i = 16 ^ Z.of_nat i.
Proof.
  intros Hi. unfold power_to_cards_back, size_t, LogBase. rewrite Z.shiftl_mul_pow2, Z.mul_1_l by lia.
  rewrite pow16 by lia. apply wrap_small. split; [apply Z.pow_nonneg; lia |]. apply Z.pow_lt_mono_r; lia.
Qed.

Lemma cards_back e : N_words <= e < N_words + 14 -> entry_to_cards_back e = Some (16 ^ (e - N_words)).
Proof.
  unfold entry_to_cards_back, N_words. intros He. rewrite (proj2 (Z.leb_le 64 e)) by lia.
  rewrite power_to_cards by lia. by rewrite Z2Nat.id by lia.
Qed.

(** ** Cards *)

(** Where tables are: over whole cards, at a card boundary, within the address space, with
    an entry for each card. *)
Record placed_array (A : shared_array) : Prop := {
  start_aligned : _reserved_start A mod 64 = 0;
  start_nonneg : 0 <= _reserved_start A;
  end_aligned : (_reserved_end A - _reserved_start A) mod 64 = 0;
  end_addressable : 8 * _reserved_end A <= 2 ^ 63;
  cards_committed : (_reserved_end A - _reserved_start A) / 64 <= _committed A <= 2 ^ 55 }.

(** A table over 600 cards. *)
Definition table600 (entry : Z -> Z) : shared_array := mkArray 640 (640 + 64 * 600) 601 entry.

Lemma table600_placed entry : placed_array (table600 entry).
Proof. by split. Qed.

Definition card (A : shared_array) (p : Z) : Z := (p - _reserved_start A) / 64.
Definition first_card (A : shared_array) (p : Z) : Z := (p - _reserved_start A + 63) / 64.
Definition cards (A : shared_array) : Z := (_reserved_end A - _reserved_start A) / 64.

(** The same region, with other entries. *)
Definition updated (A A' : shared_array) (g : Z -> Z) : Prop :=
  _reserved_start A' = _reserved_start A /\ _reserved_end A' = _reserved_end A /\ _committed A' = _committed A /\
  forall c, _offset_array A' c = g c.

Lemma updated_placed A A' g : updated A A' g -> placed_array A -> placed_array A'.
Proof. intros (E1 & E2 & E3 & _) [? ? ? ? ?]. split; rewrite ?E1, ?E2, ?E3; done. Qed.

Lemma updated_card A A' g p : updated A A' g -> card A' p = card A p /\ first_card A' p = first_card A p /\ cards A' = cards A.
Proof. intros (E1 & E2 & _). unfold card, first_card, cards. by rewrite E1, E2. Qed.

Lemma updated_trans A A1 A2 g h : updated A A1 g -> updated A1 A2 h -> updated A A2 h.
Proof. intros (E1 & E2 & E3 & _) (F1 & F2 & F3 & F4). split_and!; [congruence | congruence | congruence | done]. Qed.

Lemma updated_ext A A' g h : (forall c, g c = h c) -> updated A A' g -> updated A A' h.
Proof. intros E (E1 & E2 & E3 & E4). split_and!; try done. intros c. by rewrite E4. Qed.

Lemma updated_refl A : updated A A (_offset_array A).
Proof. done. Qed.

Section Geometry.
Context (A : shared_array) (HA : placed_array A).

Lemma card_range p : _reserved_start A <= p < _reserved_end A -> 0 <= card A p < cards A.
Proof using HA.
  intros Hp. pose proof (end_aligned A HA). unfold card, cards. Z.to_euclidean_division_equations. lia.
Qed.

Lemma index_for_card p : _reserved_start A <= p < _reserved_end A -> index_for A p = Some (card A p).
Proof using HA.
  intros Hp. pose proof (card_range p Hp). pose proof (cards_committed A HA). unfold index_for.
  rewrite (proj2 (Z.leb_le _ _)), (proj2 (Z.ltb_lt p _)) by lia. cbv zeta. cbn [andb].
  assert (Z.shiftr (8 * p - 8 * _reserved_start A) LogN = card A p) as ->.
  { unfold LogN, card. rewrite Z.shiftr_div_pow2 by lia. change (2 ^ 9) with (8 * 64).
    rewrite <- Z.mul_sub_distr_l. by rewrite Z.div_mul_cancel_l by lia. }
  by rewrite (proj2 (Z.ltb_lt _ _)) by (unfold cards in *; lia).
Qed.

Lemma address_for_card c : 0 <= c < cards A -> address_for_index A c = Some (_reserved_start A + 64 * c).
Proof using HA.
  intros Hc. pose proof (cards_committed A HA). pose proof (end_aligned A HA). unfold address_for_index, LogN_words.
  assert (_reserved_start A + 64 * c < _reserved_end A) by (unfold cards in Hc; Z.to_euclidean_division_equations; lia).
  rewrite Z.shiftl_mul_pow2 by lia. change (2 ^ 6) with 64. rewrite (Z.mul_comm c).
  rewrite (proj2 (Z.leb_le 0 c)), (proj2 (Z.ltb_lt c _)) by (unfold cards in *; lia). cbn [andb]. cbv zeta.
  by rewrite (proj2 (Z.leb_le _ _)), (proj2 (Z.ltb_lt _ (_reserved_end A))) by lia.
Qed.

Lemma offset_array_card c : 0 <= c < cards A -> offset_array A c = Some (_offset_array A c).
Proof using HA.
  intros Hc. pose proof (cards_committed A HA). unfold offset_array.
  by rewrite (proj2 (Z.leb_le 0 c)), (proj2 (Z.ltb_lt c _)) by (unfold cards in *; lia).
Qed.

Lemma cards_small : cards A <= 2 ^ 55.
Proof using HA. pose proof (cards_committed A HA). unfold cards. lia. Qed.

End Geometry.

(** ** Setting entries *)

Lemma u_char_small z : 0 <= z < 256 -> u_char z = z.
Proof. intros. by apply wrap_small. Qed.

Lemma set_offsets_spec A l r o :
  placed_array A -> 0 <= l <= r -> r < cards A -> 0 <= o < 256 ->
  exists A', set_offsets A l r o = Some A' /\ updated A A' (fun c => if (l <=? c) && (c <=? r) then o else _offset_array A c).
Proof.
  intros HA Hl Hr Ho. pose proof (cards_committed A HA). unfold set_offsets.
  rewrite (proj2 (Z.leb_le 0 l)), (proj2 (Z.ltb_lt r _)), (proj2 (Z.leb_le l r)) by (unfold cards in *; lia).
  eexists. split; [done |]. split_and!; try done. intros c. simpl. by rewrite u_char_small.
Qed.

Lemma set_offset_between_spec A i high low reducing :
  placed_array A -> 0 <= i < cards A -> 0 <= high - low <= 64 -> (reducing = true -> high - low <= _offset_array A i) ->
  exists A', set_offset_between A i high low reducing = Some A' /\
    updated A A' (fun c => if c =? i then high - low else _offset_array A c).
Proof.
  intros HA Hi Hd Hr. unfold set_offset_between, set_offset, N_words.
  rewrite (proj2 (Z.leb_le low high)), (proj2 (Z.leb_le (high - low) 64)) by lia. cbn [andb].
  rewrite offset_array_card by done. cbn [mbind option_bind]. rewrite u_char_small by lia.
  assert (negb reducing || (high - low <=? _offset_array A i) = true) as ->.
  { destruct reducing; [| done]. simpl. apply Z.leb_le. by apply Hr. }
  by eexists.
Qed.

(** The loop over the powers. *)
Lemma remainder_loop_spec f last n : forall A i,
  placed_array A -> 0 <= f -> (i + n = 14)%nat -> f + 16 ^ Z.of_nat i <= last < cards A ->
  exists A' r, remainder_loop A (f + 1) last (f + 16 ^ Z.of_nat i) i n = Some (A', r) /\ last < r /\
    updated A A' (fun c => if (f + 16 ^ Z.of_nat i <=? c) && (c <=? last) then 64 + log16 (c - f) else _offset_array A c).
Proof.
  induction n as [|n IH]; intros A i HA Hf Hn Hl; pose proof (cards_small A HA).
  - exfalso. replace (Z.of_nat i) with 14 in Hl by lia. change (16 ^ 14) with 72057594037927936 in Hl. lia.
  - cbn [remainder_loop]. cbv zeta. rewrite power_to_cards by lia.
    assert (16 ^ Z.of_nat (i + 1) <= 16 ^ 14) as Hpow by (apply Z.pow_le_mono_r; lia).
    assert (16 ^ Z.of_nat i < 16 ^ Z.of_nat (i + 1)) as Hstep by (apply Z.pow_lt_mono_r; lia).
    pose proof (Z.pow_pos_nonneg 16 (Z.of_nat i) ltac:(lia) ltac:(lia)) as Hpos.
    change (16 ^ 14) with 72057594037927936 in Hpow.
    assert (size_t (f + 1 - 1 + (16 ^ Z.of_nat (i + 1) - 1)) = f + 16 ^ Z.of_nat (i + 1) - 1) as ->.
    { unfold size_t. rewrite wrap_small; [lia |]. unfold in_unsigned. lia. }
    assert (forall c, f + 16 ^ Z.of_nat i <= c <= f + 16 ^ Z.of_nat (i + 1) - 1 -> log16 (c - f) = Z.of_nat i) as Hlog.
    { intros c Hc. apply log16_unique; [lia |]. replace (Z.of_nat i + 1) with (Z.of_nat (i + 1)) by lia. lia. }
    unfold N_words. destruct (Z.leb_spec last (f + 16 ^ Z.of_nat (i + 1) - 1)) as [Hin|Hout].
    + destruct (set_offsets_spec A (f + 16 ^ Z.of_nat i) last (64 + Z.of_nat i)) as (A' & -> & HA'); [done | lia | lia | lia |].
      cbn [mbind option_bind]. exists A'. eexists. split; [done |]. split; [lia |]. eapply updated_ext, HA'. intros c. simpl.
      destruct (Z.leb_spec (f + 16 ^ Z.of_nat i) c), (Z.leb_spec c last); cbn [andb]; try done. rewrite Hlog; [done | lia].
    + destruct (set_offsets_spec A (f + 16 ^ Z.of_nat i) (f + 16 ^ Z.of_nat (i + 1) - 1) (64 + Z.of_nat i))
        as (A1 & -> & HA1); [done | lia | lia | lia |]. cbn [mbind option_bind].
      replace (f + 16 ^ Z.of_nat (i + 1) - 1 + 1) with (f + 16 ^ Z.of_nat (i + 1)) by lia.
      destruct (updated_card _ _ _ 0 HA1) as (_ & _ & Ec).
      destruct (IH A1 (i + 1)%nat) as (A' & r & -> & Hr & HA'); [by eapply updated_placed | done | lia | lia |].
      exists A', r. split; [done |]. split; [done |]. eapply updated_ext; [| by eapply updated_trans]. intros c. simpl.
      destruct HA1 as (_ & _ & _ & ->).
      destruct (Z.leb_spec (f + 16 ^ Z.of_nat (i + 1)) c), (Z.leb_spec c last), (Z.leb_spec (f + 16 ^ Z.of_nat i) c),
        (Z.leb_spec c (f + 16 ^ Z.of_nat (i + 1) - 1)); cbn [andb]; try done; try lia. rewrite Hlog; [done | lia].
Qed.

(** The cards of [f + 1 .. last] lead back to card [f]. *)
Definition leads_to (A : shared_array) (f last : Z) : Prop :=
  forall c, f < c <= last -> _offset_array A c = 64 + log16 (c - f).

Lemma size_t_small z : 0 <= z < 2 ^ 64 -> size_t z = z.
Proof. intros. by apply wrap_small. Qed.

Lemma check_cards_true A f last n : forall c,
  placed_array A -> 0 <= f -> last < cards A -> leads_to A f last -> _offset_array A f <= 64 ->
  f + 1 < c -> c + Z.of_nat n = last + 1 -> check_cards A (f + 1) c (64 + log16 (c - 1 - f)) n = true.
Proof.
  induction n as [|n IH]; intros c HA Hf Hl HL Hof Hc Hn; [done |]. cbn [check_cards].
  pose proof (cards_small A HA). rewrite offset_array_card by (done || lia). rewrite HL by lia.
  pose proof (log16_small (c - f) ltac:(lia)). pose proof (log16_nonneg (c - f)).
  pose proof (log16_spec (c - f) ltac:(lia)) as [Hp _]. pose proof (Z.pow_pos_nonneg 16 (log16 (c - f)) ltac:(lia) ltac:(lia)).
  rewrite (proj2 (Z.leb_le _ _)) by (pose proof (log16_mono (c - 1 - f) (c - f)); lia).
  rewrite cards_back by (unfold N_words; lia). cbn [andb]. cbv zeta. unfold N_words.
  replace (64 + log16 (c - f) - 64) with (log16 (c - f)) by lia.
  assert (negb (power_to_cards_back 1 <? size_t (c - (f + 1))) || (64 <? 64 + log16 (c - f)) = true) as ->.
  { change (power_to_cards_back 1) with 16. rewrite size_t_small by lia.
    destruct (Z.ltb_spec 16 (c - (f + 1))); [| done]. apply Z.ltb_lt.
    pose proof (log16_mono 16 (c - f) ltac:(lia)). change (log16 16) with 1 in *. lia. }
  rewrite size_t_small by lia. rewrite size_t_small by lia. rewrite offset_array_card by (done || lia).
  rewrite (proj2 (Z.leb_le (f + 1 - 1) _)) by lia. cbn [andb].
  pose proof (IH (c + 1) HA Hf Hl HL Hof ltac:(lia) ltac:(lia)) as HI. replace (c + 1 - 1 - f) with (c - f) in HI by lia.
  rewrite HI, andb_true_r. destruct (Z.leb_spec (f + 1) (c - 16 ^ log16 (c - f))).
  - rewrite HL by lia. apply Z.leb_le. pose proof (log16_mono (c - 16 ^ log16 (c - f) - f) (c - f)). lia.
  - replace (c - 16 ^ log16 (c - f)) with f by lia. apply andb_true_intro. split; [apply Z.eqb_eq | apply Z.leb_le]; lia.
Qed.

Lemma check_all_cards_true A f last :
  placed_array A -> 0 <= f -> last < cards A -> leads_to A f last -> _offset_array A f <= 64 ->
  check_all_cards A (f + 1) last = true.
Proof.
  intros HA Hf Hl HL Hof. unfold check_all_cards. destruct (Z.ltb_spec last (f + 1)) as [|Hlt]; [done |].
  rewrite offset_array_card by (done || lia). rewrite HL by lia. replace (f + 1 - f) with 1 by lia. change (log16 1) with 0.
  cbn [andb]. change (64 + 0 =? N_words) with true. cbn [andb].
  replace N_words with (64 + log16 (f + 1 + 1 - 1 - f)) by (replace (f + 1 + 1 - 1 - f) with 1 by lia; done).
  apply check_cards_true with last; (done || lia).
Qed.

Section Updates.
Context (bottom : Z).

(** The table after cards [f + 1 .. last] were led to card [f]. *)
Definition led (A : shared_array) (f last c : Z) : Z :=
  if (f + 1 <=? c) && (c <=? last) then 64 + log16 (c - f) else _offset_array A c.

Lemma set_remainder_incl_spec A f last :
  placed_array A -> bottom = _reserved_start A -> 0 <= f -> last < cards A -> _offset_array A f <= 64 ->
  exists A', set_remainder_to_point_to_start_incl bottom A (f + 1) last = Some A' /\ updated A A' (led A f last).
Proof.
  intros HA Hb Hf Hl Hof. unfold set_remainder_to_point_to_start_incl. destruct (Z.ltb_spec last (f + 1)) as [Hlt|Hge].
  - exists A. split; [done |]. eapply updated_ext, updated_refl. intros c. unfold led.
    destruct (Z.leb_spec (f + 1) c), (Z.leb_spec c last); cbn [andb]; (done || lia).
  - assert (_reserved_start A <= bottom < _reserved_end A) as Hbe
      by (pose proof (end_aligned A HA); unfold cards in *; Z.to_euclidean_division_equations; lia).
    rewrite index_for_card by done. cbn [mbind option_bind]. replace (f + 1 - 1) with f by lia.
    rewrite offset_array_card by (done || lia). cbn [mbind option_bind]. subst bottom. unfold card, N_words.
    rewrite Z.sub_diag. change (0 / 64) with 0. rewrite (proj2 (Z.ltb_lt _ _)), (proj2 (Z.leb_le _ _)) by lia. cbn [andb].
    destruct (remainder_loop_spec f last 14 A 0 HA Hf eq_refl) as (A' & r & E & Hr & HA');
      [change (16 ^ Z.of_nat 0) with 1; lia |].
    change (f + 16 ^ Z.of_nat 0) with (f + 1) in E, HA'. unfold N_powers. rewrite E. cbn [mbind option_bind].
    rewrite (proj2 (Z.ltb_lt _ _)) by lia. cbn [andb]. destruct (updated_card _ _ _ 0 HA') as (_ & _ & Ec).
    rewrite check_all_cards_true; [by exists A' | by eapply updated_placed | done | lia | |]; destruct HA' as (_ & _ & _ & G).
    + intros c Hc. rewrite G. by rewrite (proj2 (Z.leb_le _ _)), (proj2 (Z.leb_le _ _)) by lia.
    + rewrite G. destruct (Z.leb_spec (f + 1) f); [lia | done].
Qed.

Lemma address_inside A c : placed_array A -> 0 <= c < cards A ->
  _reserved_start A <= _reserved_start A + 64 * c /\ _reserved_start A + 64 * c + 64 <= _reserved_end A.
Proof. intros HA Hc. pose proof (end_aligned A HA). unfold cards in *. Z.to_euclidean_division_equations. lia. Qed.

Lemma card_address A c k : 0 <= k < 64 -> card A (_reserved_start A + 64 * c + k) = c.
Proof. intros. unfold card. Z.to_euclidean_division_equations. lia. Qed.

Lemma set_remainder_spec A f last :
  placed_array A -> bottom = _reserved_start A -> 0 <= f <= last -> last < cards A -> _offset_array A f <= 64 ->
  exists A', set_remainder_to_point_to_start bottom A (_reserved_start A + 64 * f + N_words) (_reserved_start A + 64 * last + N_words)
             = Some A' /\ updated A A' (led A f last).
Proof.
  intros HA Hb Hf Hl Hof. unfold set_remainder_to_point_to_start, N_words.
  destruct (Z.leb_spec (_reserved_start A + 64 * last + 64) (_reserved_start A + 64 * f + 64)) as [Hle|Hlt].
  - exists A. split; [done |]. eapply updated_ext, updated_refl. intros c. unfold led.
    destruct (Z.leb_spec (f + 1) c), (Z.leb_spec c last); cbn [andb]; (done || lia).
  - pose proof (address_inside A last HA ltac:(lia)). pose proof (address_inside A f HA ltac:(lia)).
    rewrite index_for_card by (done || lia). cbn [mbind option_bind]. rewrite index_for_card by (done || lia). cbn [mbind option_bind].
    replace (_reserved_start A + 64 * f + 64) with (_reserved_start A + 64 * (f + 1) + 0) by lia.
    replace (_reserved_start A + 64 * last + 64 - 1) with (_reserved_start A + 64 * last + 63) by lia.
    rewrite !card_address by lia. rewrite !address_for_card by (done || lia). cbn [mbind option_bind].
    rewrite (proj2 (Z.eqb_eq _ _)), (proj2 (Z.eqb_eq _ _)) by lia. cbn [andb].
    apply set_remainder_incl_spec; (done || lia).
Qed.

(** ** One block *)

(** What the table says of the cards that the block at [s] starts. *)
Definition entry_for (A : shared_array) (s c : Z) : Z :=
  if c =? first_card A s then _reserved_start A + 64 * c - s else 64 + log16 (c - first_card A s).

Definition records (A : shared_array) (s t : Z) : Prop :=
  forall c, first_card A s <= c <= card A (t - 1) -> _offset_array A c = entry_for A s c.

Lemma boundary_before A t :
  placed_array A -> _reserved_start A < t <= _reserved_end A ->
  Z.land (uintptr_t (8 * (t - 1))) (Z.lnot (right_n_bits LogN)) = 8 * (_reserved_start A + 64 * card A (t - 1)).
Proof.
  intros [Hsa Hs _ He _] Ht. unfold LogN, uintptr_t. rewrite right_n_bits_ones by lia. rewrite Z.ones_equiv.
  rewrite wrap_small by (unfold in_unsigned; lia). replace (Z.pred (2 ^ 9)) with (2 ^ 9 - 1) by lia.
  rewrite land_lnot_ones by lia. change (2 ^ 9) with 512. unfold card. Z.to_euclidean_division_equations. lia.
Qed.

Lemma first_card_spec A p :
  _reserved_start A <= p ->
  first_card A p = (if p =? _reserved_start A + 64 * card A p then card A p else card A p + 1) /\
  0 <= _reserved_start A + 64 * first_card A p - p < 64 /\ 0 <= card A p <= first_card A p.
Proof.
  intros Hp. unfold first_card, card.
  destruct (Z.eqb_spec p (_reserved_start A + 64 * ((p - _reserved_start A) / 64))); Z.to_euclidean_division_equations; lia.
Qed.

(** The common part of the three actions. *)
Lemma do_block_unfold A z s t action reducing :
  placed_array A -> _reserved_start A <= s < t -> t <= _reserved_end A ->
  do_block_internal bottom A z s t action reducing =
  let f := first_card A s in let last := card A (t - 1) in
  if last <? f then Some A else
  match action, z with
  | Action_mark, true => set_offset_between A f (_reserved_start A + 64 * f) s reducing
  | Action_mark, false | Action_single, _ =>
      A ← set_offset_between A f (_reserved_start A + 64 * f) s reducing;
      if f <? last then
        rem_st ← address_for_index A f; rem_end ← address_for_index A last;
        set_remainder_to_point_to_start bottom A (rem_st + N_words) (rem_end + N_words)
      else Some A
  | Action_check, _ =>
      if check_offset_array A f (_reserved_start A + 64 * f) s && check_all_cards A (f + 1) last then Some A else None
  end.
Proof.
  intros HA Hs Ht. unfold do_block_internal. rewrite (boundary_before A) by (done || lia). cbv zeta.
  pose proof (end_addressable A HA). pose proof (start_nonneg A HA).
  assert (uintptr_t (8 * s) = 8 * s) as -> by (apply wrap_small; unfold in_unsigned; lia).
  destruct (first_card_spec A s ltac:(lia)) as (Ef & Hf & Hc).
  assert ((8 * s <=? 8 * (_reserved_start A + 64 * card A (t - 1))) = negb (card A (t - 1) <? first_card A s)) as ->.
  { destruct (Z.ltb_spec (card A (t - 1)) (first_card A s)); simpl; [apply Z.leb_gt | apply Z.leb_le]; lia. }
  destruct (Z.ltb_spec (card A (t - 1)) (first_card A s)) as [|Hle]; [done |]. cbn [negb].
  pose proof (card_range A HA (t - 1) ltac:(lia)).
  rewrite index_for_card by (done || lia). cbn [mbind option_bind]. rewrite index_for_card by (done || lia). cbn [mbind option_bind].
  rewrite address_for_card by (done || lia). cbn [mbind option_bind].
  assert (_reserved_start A + 64 * card A s <= s) by (unfold card; Z.to_euclidean_division_equations; lia).
  rewrite (proj2 (Z.leb_le _ s)) by done. unfold N_words. rewrite Ef in *.
  destruct (Z.eqb_spec s (_reserved_start A + 64 * card A s)).
  - by rewrite (proj2 (Z.leb_le (card A s) _)), (proj2 (Z.leb_le (8 * _) _)) by lia.
  - replace (_reserved_start A + 64 * card A s + 64) with (_reserved_start A + 64 * (card A s + 1)) by lia.
    by rewrite (proj2 (Z.leb_le (card A s + 1) _)), (proj2 (Z.leb_le (8 * _) _)) by lia.
Qed.

(** The table after the block was recorded. *)
Definition recorded (A : shared_array) (s t c : Z) : Z :=
  if (first_card A s <=? c) && (c <=? card A (t - 1)) then entry_for A s c else _offset_array A c.

Definition in_region (A : shared_array) (s t : Z) : Prop := _reserved_start A <= s < t /\ t <= _reserved_end A.

Lemma mark_cards_spec A s t reducing :
  placed_array A -> bottom = _reserved_start A -> in_region A s t -> first_card A s <= card A (t - 1) ->
  (reducing = true -> _reserved_start A + 64 * first_card A s - s <= _offset_array A (first_card A s)) ->
  exists A', (A1 ← set_offset_between A (first_card A s) (_reserved_start A + 64 * first_card A s) s reducing;
              if first_card A s <? card A (t - 1) then
                rem_st ← address_for_index A1 (first_card A s); rem_end ← address_for_index A1 (card A (t - 1));
                set_remainder_to_point_to_start bottom A1 (rem_st + N_words) (rem_end + N_words)
              else Some A1) = Some A' /\ updated A A' (recorded A s t).
Proof.
  intros HA Hb [Hs Ht] Hle Hred. destruct (first_card_spec A s ltac:(lia)) as (_ & Hf & Hc).
  pose proof (card_range A HA (t - 1) ltac:(lia)).
  destruct (set_offset_between_spec A (first_card A s) (_reserved_start A + 64 * first_card A s) s reducing)
    as (A1 & -> & HA1); [done | lia | lia | done |]. cbn [mbind option_bind].
  destruct (updated_card _ _ _ (t - 1) HA1) as (Ec & _ & En). pose proof (updated_placed _ _ _ HA1 HA) as HP1.
  destruct HA1 as (E1 & E2 & E3 & G1).
  destruct (Z.ltb_spec (first_card A s) (card A (t - 1))) as [Hlt|].
  - rewrite address_for_card by (done || lia). cbn [mbind option_bind].
    rewrite address_for_card by (done || lia). cbn [mbind option_bind].
    destruct (set_remainder_spec A1 (first_card A s) (card A (t - 1))) as (A' & -> & F1 & F2 & F3 & G);
      [done | congruence | lia | lia | rewrite G1, Z.eqb_refl; lia |].
    exists A'. split; [done |]. split_and!; [congruence.. |]. intros c. rewrite G. unfold led, recorded, entry_for. rewrite G1.
    destruct (Z.eqb_spec c (first_card A s)), (Z.leb_spec (first_card A s + 1) c), (Z.leb_spec (first_card A s) c),
      (Z.leb_spec c (card A (t - 1))); cbn [andb]; (done || lia || congruence).
  - exists A1. split; [done |]. split_and!; [done.. |]. intros c. rewrite G1. unfold recorded, entry_for.
    destruct (Z.eqb_spec c (first_card A s)), (Z.leb_spec (first_card A s) c), (Z.leb_spec c (card A (t - 1)));
      cbn [andb]; (done || lia || congruence).
Qed.

Lemma recorded_none A s t : card A (t - 1) < first_card A s -> updated A A (recorded A s t).
Proof.
  intros Hlt. eapply updated_ext, updated_refl. intros c. unfold recorded.
  destruct (Z.leb_spec (first_card A s) c), (Z.leb_spec c (card A (t - 1))); cbn [andb]; (done || lia).
Qed.

Lemma single_block_spec A z s t :
  placed_array A -> bottom = _reserved_start A -> in_region A s t ->
  exists A', single_block bottom A z s t = Some A' /\ updated A A' (recorded A s t).
Proof.
  intros HA Hb [Hs Ht]. unfold single_block. rewrite do_block_unfold by (done || lia). cbv zeta.
  destruct (Z.ltb_spec (card A (t - 1)) (first_card A s)); [exists A; split; [done |]; by apply recorded_none |].
  by apply mark_cards_spec.
Qed.

Lemma recorded_records A A' s t : updated A A' (recorded A s t) -> records A' s t.
Proof.
  intros HA' c Hc. destruct (updated_card _ _ _ s HA') as (_ & E2 & _). destruct (updated_card _ _ _ (t - 1) HA') as (E1 & _ & _).
  destruct HA' as (Es & _ & _ & G). rewrite G. unfold recorded, entry_for. rewrite E2, E1 in *.
  rewrite (proj2 (Z.leb_le _ _)), (proj2 (Z.leb_le _ _)) by lia. cbn [andb]. by rewrite Es.
Qed.

Lemma check_offset A f s :
  placed_array A -> 0 <= f < cards A -> 0 <= _reserved_start A + 64 * f - s < 64 -> _offset_array A f = _reserved_start A + 64 * f - s ->
  check_offset_array A f (_reserved_start A + 64 * f) s = true.
Proof.
  intros HA Hf Ho E. unfold check_offset_array, N_words. rewrite offset_array_card by done. rewrite E, Z.eqb_refl.
  by rewrite (proj2 (Z.leb_le _ _)), (proj2 (Z.leb_le _ 64)) by lia.
Qed.

(** A table that records the block passes the check. *)
Lemma verify_block_spec A verify s t :
  placed_array A -> in_region A s t -> records A s t -> verify_single_block bottom verify A s t = Some A.
Proof.
  intros HA [Hs Ht] HR. unfold verify_single_block. destruct verify; [| done].
  rewrite do_block_unfold by (done || lia). cbv zeta. destruct (Z.ltb_spec (card A (t - 1)) (first_card A s)); [done |].
  destruct (first_card_spec A s ltac:(lia)) as (_ & Hf & Hc). pose proof (card_range A HA (t - 1) ltac:(lia)).
  assert (_offset_array A (first_card A s) = _reserved_start A + 64 * first_card A s - s) as E
    by (rewrite HR by lia; unfold entry_for; by rewrite Z.eqb_refl).
  rewrite check_offset, check_all_cards_true; try (done || lia).
  intros c Hc'. rewrite HR by lia. unfold entry_for. by rewrite (proj2 (Z.eqb_neq _ _)) by lia.
Qed.

End Updates.

End BlockOffsetTheorems.
