(* ===== verification/BlockOffsetSplit.v ===== *)
(** Splitting a block in the block offset table. *)
From S2P Require Import Prelude GlobalDefinitions BlockOffsetTable BlockOffsetTheorems.
Import GlobalDefinitions BlockOffsetTable BlockOffsetTheorems.

Module BlockOffsetSplit.

Lemma log16_ge d i : 1 <= i -> i <= log16 d <-> 16 ^ i <= d.
Proof.
  intros Hi. split; intros H.
  - destruct (Z.le_gt_cases d 0) as [Hd|Hd].
    + assert (log16 d = 0) by (unfold log16; by rewrite Z.log2_nonpos by lia). lia.
    + pose proof (log16_spec d ltac:(lia)). apply Z.le_trans with (16 ^ log16 d); [apply Z.pow_le_mono_r |]; lia.
  - pose proof (Z.pow_pos_nonneg 16 i ltac:(lia) ltac:(lia)). pose proof (log16_spec d ltac:(lia)). pose proof (log16_nonneg d).
    assert (i < log16 d + 1); [apply pow16_lt_inv; lia | lia].
Qed.

(** The entries once the power blocks from the [i]-th on were fixed for the block that
    starts at card [x] with [k] cards cut off before it. *)
Definition power_fixed (A : shared_array) (x end_index k i c : Z) : Z :=
  let j := log16 (c - x + k) in
  if (i <=? j) && (c - x <? 16 ^ j) && (c <? end_index) then 64 + j - 1 else _offset_array A c.

Section Powers.
Context (x end_index k : Z).
Hypotheses (Hk : 1 <= k) (Hx : 0 <= x - k).

(** The indices of a step do not wrap around. *)
Lemma step_indices A i :
  placed_array A -> (i < 14)%nat -> x < end_index <= cards A -> k < 16 ^ Z.of_nat i ->
  size_t (x + power_to_cards_back i - 1) = x + 16 ^ Z.of_nat i - 1 /\
  size_t (x + 16 ^ Z.of_nat i - 1 - k + 1) = x + 16 ^ Z.of_nat i - k.
Proof using Hk Hx.
  intros HA Hi He Hki. pose proof (cards_small A HA). rewrite power_to_cards by lia.
  assert (16 ^ Z.of_nat i <= 16 ^ 13) as Hp by (apply Z.pow_le_mono_r; lia). change (16 ^ 13) with (2 ^ 52) in Hp.
  split; rewrite size_t_small; lia.
Qed.

(** Which cards the step for a power fixes. *)
Lemma step_log i c :
  1 <= i -> k < 16 ^ i -> x + 16 ^ i - k <= c < x + 16 ^ i -> log16 (c - x + k) = i.
Proof using Hk.
  intros Hi Hki Hc. apply log16_unique; [lia |]. rewrite Z.pow_add_r by lia. lia.
Qed.

Lemma split_rest_spec n : forall A i,
  placed_array A -> (i + n = 14)%nat -> (1 <= i)%nat -> x < end_index <= cards A -> k < 16 ^ Z.of_nat i ->
  exists A', split_rest A x end_index k i n = Some A' /\ updated A A' (power_fixed A x end_index k (Z.of_nat i)).
Proof using Hk Hx.
  induction n as [|n IH]; intros A i HA Hn Hi He Hki; pose proof (cards_small A HA).
  - exists A. split; [done |]. eapply updated_ext, updated_refl. intros c. unfold power_fixed.
    destruct (Z.leb_spec (Z.of_nat i) (log16 (c - x + k))) as [Hj|]; [| done].
    destruct (Z.ltb_spec c end_index); [| by rewrite andb_false_r].
    apply log16_ge in Hj; [| lia]. replace (Z.of_nat i) with 14 in Hj by lia. change (16 ^ 14) with (2 ^ 56) in Hj. lia.
  - cbn [split_rest]. cbv zeta. destruct (step_indices A i) as (-> & ->); [done | lia | lia | done |].
    pose proof (log16_ge) as Hge. unfold N_words.
    destruct (Z.leb_spec (end_index - 1) (x + 16 ^ Z.of_nat i - 1)) as [Hend|Hmore].
    + assert (forall c, c < end_index -> Z.of_nat i <= log16 (c - x + k) -> x + 16 ^ Z.of_nat i - k <= c) as Hup
        by (intros c Hc Hj; apply Hge in Hj; lia).
      destruct (Z.ltb_spec (end_index - 1) (x + 16 ^ Z.of_nat i - k)) as [Hnone|Hsome].
      * exists A. split; [done |]. eapply updated_ext, updated_refl. intros c. unfold power_fixed.
        destruct (Z.leb_spec (Z.of_nat i) (log16 (c - x + k))) as [Hj|]; [| done].
        destruct (Z.ltb_spec c end_index); [| by rewrite andb_false_r]. specialize (Hup c). lia.
      * destruct (set_offsets_spec A (x + 16 ^ Z.of_nat i - k) (end_index - 1) (64 + Z.of_nat i - 1)) as (A' & -> & HA');
          [done | lia | lia | lia |].
        exists A'. split; [done |]. eapply updated_ext, HA'. intros c. unfold power_fixed. specialize (Hup c).
        pose proof (step_log (Z.of_nat i) c ltac:(lia) Hki) as Hlog.
        destruct (Z.leb_spec (x + 16 ^ Z.of_nat i - k) c), (Z.leb_spec c (end_index - 1)), (Z.ltb_spec c end_index);
          cbn [andb]; rewrite ?andb_false_r; try (done || lia).
        -- rewrite Hlog by lia. by rewrite Z.leb_refl, (proj2 (Z.ltb_lt _ _)) by lia.
        -- destruct (Z.leb_spec (Z.of_nat i) (log16 (c - x + k))); [lia | done].
    + rewrite (proj2 (Z.leb_le _ (x + 16 ^ Z.of_nat i - 1))) by lia.
      destruct (set_offsets_spec A (x + 16 ^ Z.of_nat i - k) (x + 16 ^ Z.of_nat i - 1) (64 + Z.of_nat i - 1)) as (A1 & -> & HA1);
        [done | lia | lia | lia |]. cbn [mbind option_bind].
      destruct (updated_card _ _ _ 0 HA1) as (_ & _ & Ec).
      assert (16 ^ Z.of_nat i < 16 ^ Z.of_nat (S i)) by (apply Z.pow_lt_mono_r; lia).
      destruct (IH A1 (S i)) as (A' & -> & HA'); [by eapply updated_placed | lia | lia | lia | lia |].
      exists A'. split; [done |]. eapply updated_ext; [| by eapply updated_trans]. intros c. unfold power_fixed.
      destruct HA1 as (_ & _ & _ & ->). pose proof (step_log (Z.of_nat i) c ltac:(lia) Hki) as Hlog.
      replace (Z.of_nat (S i)) with (Z.of_nat i + 1) by lia.
      destruct (Z.leb_spec (x + 16 ^ Z.of_nat i - k) c) as [Hl|Hl], (Z.leb_spec c (x + 16 ^ Z.of_nat i - 1)) as [Hr|Hr]; cbn [andb].
      * rewrite Hlog by lia. rewrite (proj2 (Z.leb_gt (Z.of_nat i + 1) _)), Z.leb_refl by lia. cbn [andb].
        by rewrite (proj2 (Z.ltb_lt _ _)), (proj2 (Z.ltb_lt c _)) by lia.
      * destruct (Z.eqb_spec (log16 (c - x + k)) (Z.of_nat i)) as [->|].
        -- rewrite (proj2 (Z.leb_gt (Z.of_nat i + 1) _)), Z.leb_refl by lia. cbn [andb]. by rewrite (proj2 (Z.ltb_ge _ _)) by lia.
        -- destruct (Z.leb_spec (Z.of_nat i + 1) (log16 (c - x + k))), (Z.leb_spec (Z.of_nat i) (log16 (c - x + k))); (done || lia).
      * assert (log16 (c - x + k) < Z.of_nat i) by (apply Z.lt_nge; intros Hj; apply Hge in Hj; lia).
        by rewrite (proj2 (Z.leb_gt (Z.of_nat i + 1) _)), (proj2 (Z.leb_gt (Z.of_nat i) _)) by lia.
      * lia.
Qed.

(** The first loop skips the powers up to [k], and then does what the second does. *)
Lemma split_first_rest n : forall A i,
  placed_array A -> (i + n = 14)%nat -> (1 <= i)%nat -> x + k < end_index <= cards A -> Z.of_nat i <= log16 k + 1 ->
  ('(A, more, i) ← split_first A x end_index k i n;
   if more : bool then split_rest A x end_index k i (N_powers - i) else Some A)
  = split_rest A x end_index k (Z.to_nat (log16 k + 1)) (Z.to_nat (13 - log16 k)).
Proof using Hk Hx.
  assert (1 <= k <= k) as Hkk by lia. pose proof (log16_spec k Hk) as Hlog. pose proof (log16_nonneg k).
  induction n as [|n IH]; intros A i HA Hn Hi He Hil; pose proof (cards_small A HA); cbn [split_first].
  - cbn [mbind option_bind]. replace (N_powers - i)%nat with O by (unfold N_powers; lia).
    by replace (Z.to_nat (13 - log16 k)) with O by lia.
  - cbv zeta. assert (16 ^ Z.of_nat i <= 16 ^ 13) as Hp by (apply Z.pow_le_mono_r; lia). change (16 ^ 13) with (2 ^ 52) in Hp.
    destruct (Z.eqb_spec (Z.of_nat i) (log16 k + 1)) as [Ei|Ei].
    + assert (k < 16 ^ Z.of_nat i) as Hki by (rewrite Ei; lia).
      destruct (step_indices A i) as (-> & ->); [done | lia | lia | done |]. rewrite power_to_cards by lia.
      rewrite (proj2 (Z.ltb_lt k _)) by done. rewrite <- Ei, Nat2Z.id.
      replace (Z.to_nat (13 - log16 k)) with (S n) by lia. cbn [split_rest]. cbv zeta.
      destruct (step_indices A i) as (-> & ->); [done | lia | lia | done |].
      destruct (Z.leb_spec (end_index - 1) (x + 16 ^ Z.of_nat i - 1)).
      * destruct (Z.ltb_spec (end_index - 1) (x + 16 ^ Z.of_nat i - k)), (Z.leb_spec (x + 16 ^ Z.of_nat i - k) (end_index - 1));
          try lia; [done |]. by destruct (set_offsets _ _ _ _).
      * rewrite (proj2 (Z.leb_le _ (x + 16 ^ Z.of_nat i - 1))) by lia.
        destruct (set_offsets _ _ _ _) as [A1|]; [| done]. cbn [mbind option_bind].
        by replace (N_powers - S i)%nat with n by (unfold N_powers; lia).
    + assert (16 ^ Z.of_nat i <= k) as Hki by (etransitivity; [| exact (proj1 Hlog)]; apply Z.pow_le_mono_r; lia).
      rewrite !power_to_cards by lia. rewrite (size_t_small (x + _ - 1)) by lia.
      rewrite (proj2 (Z.leb_gt (end_index - 1) _)) by lia. rewrite (proj2 (Z.ltb_ge k _)) by lia.
      apply IH; (done || lia).
Qed.

End Powers.

(** The entries of the suffix's cards after [split_suffix]. *)
Definition suffix_fixed (A : shared_array) (x end_index k c : Z) : Z :=
  if end_index - x <=? k then led A x (end_index - 1) c
  else power_fixed (set_entries A (led A x (x + k - 1))) x end_index k (log16 k + 1) c.

Section Split.
Context (bottom : Z).

Lemma split_suffix_spec A x end_index k :
  placed_array A -> bottom = _reserved_start A -> 1 <= k <= x -> x < end_index <= cards A -> _offset_array A x <= 64 ->
  exists A', split_suffix bottom A x end_index k (end_index - x) = Some A' /\ updated A A' (suffix_fixed A x end_index k).
Proof.
  intros HA Hb Hk He Hof. unfold split_suffix, suffix_fixed. destruct (Z.leb_spec (end_index - x) k) as [Hle|Hlt].
  - apply set_remainder_incl_spec; (done || lia).
  - destruct (set_remainder_incl_spec bottom A x (x + k - 1)) as (A1 & -> & HA1); [done | done | lia | lia | done |].
    cbn [mbind option_bind]. destruct (updated_card _ _ _ 0 HA1) as (_ & _ & Ec). pose proof (updated_placed _ _ _ HA1 HA) as HP1.
    pose proof (log16_nonneg k). pose proof (log16_spec k ltac:(lia)). pose proof (cards_small A HA).
    pose proof (log16_small k ltac:(change (16 ^ 14) with (2 ^ 56); lia)).
    rewrite (split_first_rest x end_index k ltac:(lia) ltac:(lia)) by (done || lia || (unfold N_powers; lia)).
    destruct (split_rest_spec x end_index k ltac:(lia) ltac:(lia) (Z.to_nat (13 - log16 k)) A1 (Z.to_nat (log16 k + 1)))
      as (A' & -> & HA'); [done | lia | lia | lia | rewrite Z2Nat.id by lia; lia |].
    exists A'. split; [done |]. eapply updated_ext; [| by eapply updated_trans]. intros c. unfold power_fixed.
    rewrite Z2Nat.id by lia. destruct HA1 as (_ & _ & _ & G1). by rewrite G1.
Qed.

Lemma first_index_spec A p :
  placed_array A -> _reserved_start A <= p < _reserved_end A -> first_index A p = Some (first_card A p).
Proof.
  intros HA Hp. unfold first_index. rewrite index_for_card by done. cbn [mbind option_bind].
  rewrite address_for_card by (done || by apply card_range). cbn [mbind option_bind].
  destruct (first_card_spec A p ltac:(lia)) as (-> & _). rewrite Z.eqb_sym. by destruct (p =? _).
Qed.

Lemma card_before A p : first_card A p = card A (p - 1) + 1.
Proof. unfold first_card, card. replace (p - _reserved_start A + 63) with (p - 1 - _reserved_start A + 1 * 64) by lia.
  by rewrite Z.div_add by lia. Qed.

(** The entries after a block from [s] to [t] was split at [m]. *)
Definition split_entries (A : shared_array) (s m t c : Z) : Z :=
  let x := first_card A m in
  let end_index := card A (t - 1) + 1 in
  let k := x - first_card A s in
  let A1 := set_entries A (fun c => if c =? x then _reserved_start A + 64 * x - m else _offset_array A c) in
  if end_index <=? x then _offset_array A c else if k <=? 0 then _offset_array A1 c else suffix_fixed A1 x end_index k c.

(** [split_block] without its checks. *)
Definition split_body (A : shared_array) (s m t : Z) : option shared_array :=
  pref_index ← first_index A s;
  suff_index ← first_index A m;
  last ← index_for A (t - 1);
  let end_index := last + 1 in
  let num_pref_cards := size_t (suff_index - pref_index) in
  let num_suff_cards := size_t (end_index - suff_index) in
  if 0 <? num_suff_cards then
    boundary ← address_for_index A suff_index;
    A ← set_offset_between A suff_index boundary m true;
    if 0 <? num_pref_cards then split_suffix bottom A suff_index end_index num_pref_cards num_suff_cards else Some A
  else Some A.

Lemma split_block_body verify A s size left :
  0 < left < size ->
  split_block bottom verify A s size left =
  (A0 ← verify_single_block bottom verify A s (s + size);
   A1 ← split_body A0 s (s + left) (s + size);
   A2 ← verify_single_block bottom verify A1 s (s + left);
   verify_single_block bottom verify A2 (s + left) (s + left + (size - left))).
Proof.
  intros Hl. unfold split_block. destruct (verify_single_block bottom verify A s (s + size)) as [A0|]; [| done].
  cbn [mbind option_bind]. rewrite !(proj2 (Z.ltb_lt _ _)) by lia. cbn [andb]. unfold split_body. cbv zeta.
  destruct (first_index A0 s); [| done]. cbn [mbind option_bind]. destruct (first_index A0 (s + left)); [| done].
  cbn [mbind option_bind]. by destruct (index_for A0 (s + size - 1)).
Qed.

Lemma split_body_spec A s m t :
  placed_array A -> bottom = _reserved_start A -> in_region A s t -> s < m < t ->
  (first_card A m <= card A (t - 1) -> _reserved_start A + 64 * first_card A m - m <= _offset_array A (first_card A m)) ->
  exists A', split_body A s m t = Some A' /\ updated A A' (split_entries A s m t).
Proof.
  intros HA Hb [Hs Ht] Hm Hred. unfold split_body, split_entries. rewrite !first_index_spec by (done || lia).
  cbn [mbind option_bind]. rewrite index_for_card by (done || lia). cbn [mbind option_bind]. cbv zeta.
  pose proof (cards_small A HA). pose proof (card_range A HA (t - 1) ltac:(lia)).
  destruct (first_card_spec A s ltac:(lia)) as (_ & Hfs & Hcs). destruct (first_card_spec A m ltac:(lia)) as (_ & Hfm & Hcm).
  assert (first_card A s <= first_card A m) as Hsm by (unfold first_card; Z.to_euclidean_division_equations; lia).
  assert (first_card A m <= card A (t - 1) + 1) as Hmt by (rewrite card_before; unfold card; Z.to_euclidean_division_equations; lia).
  rewrite !size_t_small by lia.
  destruct (Z.leb_spec (card A (t - 1) + 1) (first_card A m)), (Z.ltb_spec 0 (card A (t - 1) + 1 - first_card A m)); try lia; [by exists A |].
  rewrite address_for_card by (done || lia). cbn [mbind option_bind].
  destruct (set_offset_between_spec A (first_card A m) (_reserved_start A + 64 * first_card A m) m true) as (A1 & -> & HA1);
    [done | lia | lia | intros _; apply Hred; lia |]. cbn [mbind option_bind].
  destruct (updated_card _ _ _ 0 HA1) as (_ & _ & Ec). pose proof (updated_placed _ _ _ HA1 HA) as HP1.
  destruct (Z.leb_spec (first_card A m - first_card A s) 0), (Z.ltb_spec 0 (first_card A m - first_card A s)); try lia; [by exists A1 |].
  destruct (split_suffix_spec A1 (first_card A m) (card A (t - 1) + 1) (first_card A m - first_card A s)) as (A' & -> & HA');
    [done | destruct HA1; congruence | lia | lia | destruct HA1 as (_ & _ & _ & ->); rewrite Z.eqb_refl; lia |].
  exists A'. split; [done |]. eapply updated_ext; [| by eapply updated_trans]. intros c. simpl.
  destruct HA1 as (_ & _ & _ & G1). unfold suffix_fixed, power_fixed, led. simpl. by rewrite G1.
Qed.

(** ** Where the split is right *)

(** The first power block that is fixed begins [16 ^ (log16 k + 1) - k] cards after the
    suffix does: it reaches into the block before it if [k] is that large. *)
Definition fits (k n : Z) : bool := (n <=? k) || (k <? 16) || (k <=? 15 * 16 ^ log16 k).

Lemma power_value d k :
  1 <= d -> 1 <= k -> k < 16 \/ k <= 15 * 16 ^ log16 k ->
  (let j := log16 (d + k) in if (log16 k + 1 <=? j) && (d <? 16 ^ j) then j - 1 else if d <? k then log16 d else j) = log16 d.
Proof.
  intros Hd Hk Hfit. cbv zeta. pose proof (log16_spec k Hk) as [Hk1 Hk2]. pose proof (log16_spec (d + k) ltac:(lia)) as [Hj1 Hj2].
  pose proof (log16_nonneg k). pose proof (log16_spec d Hd). pose proof (log16_mono d (d + k) ltac:(lia)).
  destruct (Z.leb_spec (log16 k + 1) (log16 (d + k))) as [Hj|Hj]; cbn [andb].
  - destruct (Z.ltb_spec d (16 ^ log16 (d + k))) as [Hlt|Hge].
    + symmetry. apply log16_unique; [lia |]. replace (log16 (d + k) - 1 + 1) with (log16 (d + k)) by lia. split; [| done].
      assert (16 ^ log16 (d + k) = 16 * 16 ^ (log16 (d + k) - 1)) as E by (rewrite <- Z.pow_succ_r by lia; f_equal; lia).
      destruct (Z.eqb_spec (log16 k + 1) (log16 (d + k))) as [Ej|].
      * rewrite <- Ej in *. replace (log16 k + 1 - 1) with (log16 k) in * by lia. destruct Hfit as [Hs|]; [| lia].
        assert (log16 k = 0) as -> by (apply log16_unique; lia). lia.
      * assert (16 ^ (log16 k + 1) <= 16 ^ (log16 (d + k) - 1)) by (apply Z.pow_le_mono_r; lia). lia.
    + destruct (Z.ltb_spec d k); [done |]. symmetry. apply log16_unique; [apply log16_nonneg | lia].
  - destruct (Z.ltb_spec d k); [done |]. pose proof (log16_mono k d ltac:(lia)). lia.
Qed.

Lemma split_entries_outside A s m t c :
  c < first_card A m \/ card A (t - 1) < c -> split_entries A s m t c = _offset_array A c.
Proof.
  intros Hc. unfold split_entries. cbv zeta. destruct (Z.leb_spec (card A (t - 1) + 1) (first_card A m)); [done |].
  destruct (Z.leb_spec (first_card A m - first_card A s) 0); simpl; [by rewrite (proj2 (Z.eqb_neq _ _)) by lia |].
  unfold suffix_fixed, power_fixed, led. simpl. set (x := first_card A m) in *. set (k := x - first_card A s) in *.
  rewrite (proj2 (Z.eqb_neq _ _)) by lia.
  destruct (Z.leb_spec (card A (t - 1) + 1 - x) k), (Z.leb_spec (x + 1) c), (Z.leb_spec c (card A (t - 1) + 1 - 1)); cbn [andb];
    try (done || lia).
  - rewrite (proj2 (Z.ltb_ge c _)) by lia. rewrite andb_false_r. by rewrite (proj2 (Z.leb_gt c (x + k - 1))) by lia.
  - assert (log16 (c - x + k) < log16 k + 1) as Hj
      by (unfold log16; pose proof (Z.div_le_mono (Z.log2 (c - x + k)) (Z.log2 k) 4 ltac:(lia) ltac:(apply Z.log2_le_mono; lia)); lia).
    by rewrite (proj2 (Z.leb_gt _ _)) by lia.
Qed.

Lemma split_entries_first A s m t :
  first_card A m <= card A (t - 1) -> split_entries A s m t (first_card A m) = _reserved_start A + 64 * first_card A m - m.
Proof.
  intros Hx. unfold split_entries. cbv zeta. rewrite (proj2 (Z.leb_gt _ _)) by lia.
  destruct (Z.leb_spec (first_card A m - first_card A s) 0); simpl; [by rewrite Z.eqb_refl |].
  unfold suffix_fixed, power_fixed, led. simpl. rewrite Z.eqb_refl, Z.sub_diag. rewrite (proj2 (Z.leb_gt (first_card A m + 1) _)) by lia.
  cbn [andb]. rewrite Z.add_0_l. rewrite (proj2 (Z.leb_gt (log16 _ + 1) _)) by lia. by destruct (_ <=? _).
Qed.

(** The entries of the suffix's other cards. *)
Lemma split_entries_inner A s m t c :
  first_card A s <= first_card A m -> first_card A m < c <= card A (t - 1) ->
  split_entries A s m t c =
  let d := c - first_card A m in let k := first_card A m - first_card A s in
  if k <=? 0 then _offset_array A c else
  if card A (t - 1) + 1 - first_card A m <=? k then 64 + log16 d else
  let j := log16 (d + k) in
  if (log16 k + 1 <=? j) && (d <? 16 ^ j) then 64 + (j - 1) else if d <? k then 64 + log16 d else _offset_array A c.
Proof.
  intros Hsm Hc. unfold split_entries. cbv zeta. rewrite (proj2 (Z.leb_gt (card A (t - 1) + 1) _)) by lia.
  destruct (Z.leb_spec (first_card A m - first_card A s) 0); simpl; [by rewrite (proj2 (Z.eqb_neq _ _)) by lia |].
  unfold suffix_fixed, power_fixed, led. simpl. rewrite (proj2 (Z.eqb_neq _ _)) by lia.
  rewrite (proj2 (Z.leb_le _ c)) by lia. rewrite (proj2 (Z.ltb_lt c _)), andb_true_r by lia. cbn [andb].
  destruct (Z.leb_spec (card A (t - 1) + 1 - first_card A m) (first_card A m - first_card A s));
    [by rewrite (proj2 (Z.leb_le c _)) by lia |].
  destruct (_ && _); [lia |].
  destruct (Z.leb_spec c (first_card A m + (first_card A m - first_card A s) - 1)), (Z.ltb_spec (c - first_card A m) (first_card A m - first_card A s));
    (done || lia).
Qed.

Lemma fits_cases k n : fits k n = true -> n <= k \/ k < 16 \/ k <= 15 * 16 ^ log16 k.
Proof. unfold fits. rewrite !orb_true_iff, !Z.leb_le, Z.ltb_lt. tauto. Qed.

Lemma split_entries_exact A s m t c :
  first_card A s <= first_card A m -> records A s t ->
  fits (first_card A m - first_card A s) (card A (t - 1) + 1 - first_card A m) = true ->
  first_card A m < c <= card A (t - 1) -> split_entries A s m t c = 64 + log16 (c - first_card A m).
Proof.
  intros Hsm HR Hfit Hc. rewrite split_entries_inner by done. cbv zeta. apply fits_cases in Hfit.
  assert (_offset_array A c = 64 + log16 (c - first_card A m + (first_card A m - first_card A s))) as ->
    by (rewrite HR by lia; unfold entry_for; rewrite (proj2 (Z.eqb_neq _ _)) by lia; do 2 f_equal; lia).
  destruct (Z.leb_spec (first_card A m - first_card A s) 0); [do 2 f_equal; lia |].
  destruct (Z.leb_spec (card A (t - 1) + 1 - first_card A m) (first_card A m - first_card A s)); [done |].
  pose proof (power_value (c - first_card A m) (first_card A m - first_card A s) ltac:(lia) ltac:(lia) ltac:(lia)) as HP.
  cbv zeta in HP. destruct (_ && _); [lia |]. destruct (_ <? _); lia.
Qed.

(** Otherwise there is a card of the suffix that leads back to one of the prefix. *)
Lemma split_entries_wrong A s m t :
  first_card A s <= first_card A m ->
  fits (first_card A m - first_card A s) (card A (t - 1) + 1 - first_card A m) = false ->
  exists c i, first_card A m < c <= card A (t - 1) /\ 0 <= i /\ split_entries A s m t c = 64 + i /\
    first_card A s <= c - 16 ^ i < first_card A m.
Proof.
  intros Hsm Hfit. unfold fits in Hfit. rewrite !orb_false_iff, !Z.leb_gt, Z.ltb_ge in Hfit. destruct Hfit as [[Hn H16] Hbig].
  set (k := first_card A m - first_card A s) in *. pose proof (log16_spec k ltac:(lia)) as [Hk1 Hk2]. pose proof (log16_nonneg k).
  assert (16 ^ (log16 k + 1) = 16 ^ log16 k * 16) as E by (rewrite Z.pow_add_r by lia; lia). rewrite E in Hk2.
  exists (first_card A m + (16 ^ log16 k * 16 - k)), (log16 k). split_and!; [lia | lia | lia | | lia | lia].
  rewrite split_entries_inner by (done || lia). cbv zeta. fold k.
  replace (first_card A m + (16 ^ log16 k * 16 - k) - first_card A m) with (16 ^ log16 k * 16 - k) by lia.
  replace (16 ^ log16 k * 16 - k + k) with (16 ^ (log16 k + 1)) by lia.
  assert (log16 (16 ^ (log16 k + 1)) = log16 k + 1) as ->
    by (apply log16_unique; [lia |]; split; [lia |]; apply Z.pow_lt_mono_r; lia).
  rewrite (proj2 (Z.leb_gt k 0)), (proj2 (Z.leb_gt _ k)) by lia. rewrite Z.leb_refl, E, (proj2 (Z.ltb_lt _ _)) by lia. cbn [andb]. lia.
Qed.

End Split.

End BlockOffsetSplit.
