(* ===== verification/BlockOffsetSearch.v ===== *)
(** The searches of the block offset table, over the history of a space whose blocks are
    coalesced, split and extended. *)
From S2P Require Import Prelude GlobalDefinitions BlockOffsetTable BlockOffsetTheorems BlockOffsetSplit.
Import GlobalDefinitions BlockOffsetTable BlockOffsetTheorems BlockOffsetSplit.

Module BlockOffsetSearch.

(** ** The blocks of a space *)

Definition total (l : list Z) : Z := foldr Z.add 0 l.

(** The blocks of the sizes [l] from address [b]. *)
Fixpoint blocks (b : Z) (l : list Z) : list (Z * Z) :=
  match l with
  | [] => []
  | n :: l => (b, b + n) :: blocks (b + n) l
  end.

Definition positive (l : list Z) : Prop := Forall (fun n => 0 < n) l.

Lemma total_sizes_app l1 l2 : total (l1 ++ l2) = total l1 + total l2.
Proof. induction l1 as [|n l1 IH]; [done |]. simpl. lia. Qed.

Lemma total_nonneg l : positive l -> 0 <= total l.
Proof. induction 1; simpl; lia. Qed.

Lemma blocks_app b l1 l2 : blocks b (l1 ++ l2) = blocks b l1 ++ blocks (b + total l1) l2.
Proof.
  revert b. induction l1 as [|n l1 IH]; intros b; simpl; [f_equal; lia |]. rewrite IH. do 3 f_equal. lia.
Qed.

Lemma blocks_bounds l : forall b s t, positive l -> (s, t) ∈ blocks b l -> b <= s < t /\ t <= b + total l.
Proof.
  induction l as [|n l IH]; intros b s t Hl Hin; simpl in *; [by apply elem_of_nil in Hin |].
  apply Forall_cons in Hl as [Hn Hl]. pose proof (total_nonneg l Hl). apply elem_of_cons in Hin as [[= -> ->]|Hin]; [lia |].
  apply IH in Hin; [lia | done].
Qed.

(** Every address is in one block. *)
Lemma block_of l : forall b p, positive l -> b <= p < b + total l -> exists s t, (s, t) ∈ blocks b l /\ s <= p < t.
Proof.
  induction l as [|n l IH]; intros b p Hl Hp; simpl in *; [lia |]. apply Forall_cons in Hl as [Hn Hl].
  destruct (Z.lt_ge_cases p (b + n)).
  - exists b, (b + n). split; [by left | lia].
  - destruct (IH (b + n) p Hl ltac:(lia)) as (s & t & Hin & Hst). exists s, t. split; [by right | done].
Qed.

Lemma block_unique l : forall b p s t s' t',
  positive l -> (s, t) ∈ blocks b l -> s <= p < t -> (s', t') ∈ blocks b l -> s' <= p < t' -> s' = s /\ t' = t.
Proof.
  induction l as [|n l IH]; intros b p s t s' t' Hl Hin Hp Hin' Hp'; simpl in *; [by apply elem_of_nil in Hin |].
  apply Forall_cons in Hl as [Hn Hl].
  apply elem_of_cons in Hin as [[= -> ->]|Hin]; apply elem_of_cons in Hin' as [[= -> ->]|Hin']; [done | | |].
  - apply blocks_bounds in Hin'; [lia | done].
  - apply blocks_bounds in Hin; [lia | done].
  - by eapply IH.
Qed.

(** The blocks from one of them on. *)
Lemma blocks_from l : forall b s t,
  positive l -> (s, t) ∈ blocks b l -> exists l1 l2, l = l1 ++ l2 /\ s = b + total l1 /\ (s, t) ∈ blocks s l2.
Proof.
  induction l as [|n l IH]; intros b s t Hl Hin; simpl in *; [by apply elem_of_nil in Hin |].
  apply Forall_cons in Hl as [Hn Hl]. apply elem_of_cons in Hin as [[= -> ->]|Hin].
  - exists [], (n :: l). split_and!; [done | simpl; lia | by left].
  - destruct (IH _ _ _ Hl Hin) as (l1 & l2 & -> & -> & H2). exists (n :: l1), l2. split_and!; [done | simpl; lia | done].
Qed.

Lemma positive_app l1 l2 : positive (l1 ++ l2) <-> positive l1 /\ positive l2.
Proof. apply Forall_app. Qed.

(** ** What the table says of a block *)

(** The first card that the block starts leads to it, the others back by a power of 16, to
    some card. *)
Definition coarse (A : shared_array) (s t : Z) : Prop :=
  forall c, first_card A s <= c <= card A (t - 1) ->
  if c =? first_card A s then _offset_array A c = _reserved_start A + 64 * c - s
  else 64 <= _offset_array A c < 64 + 14 /\ 16 ^ (_offset_array A c - 64) <= c.

(** A statement about each of the cards that a block starts. *)
Class Local (P : shared_array -> Z -> Z -> Prop) : Prop := {
  local A A' g s t : updated A A' g -> (forall c, first_card A s <= c <= card A (t - 1) -> g c = _offset_array A c) ->
    P A s t -> P A' s t;
  shrink A s m t : m <= t -> P A s t -> P A s m }.

Lemma updated_at A A' g s t c :
  updated A A' g -> first_card A' s = first_card A s /\ card A' t = card A t /\ _reserved_start A' = _reserved_start A /\ _offset_array A' c = g c.
Proof. intros H. destruct (updated_card _ _ _ s H) as (_ & -> & _), (updated_card _ _ _ t H) as (-> & _ & _). by destruct H as (-> & _ & _ & ->). Qed.

Lemma card_mono A p q : p <= q -> card A p <= card A q.
Proof. intros. unfold card. apply Z.div_le_mono; lia. Qed.

#[export] Instance records_local : Local records.
Proof.
  split.
  - intros A A' g s t HU Hg HR c Hc. destruct (updated_at _ _ _ s (t - 1) c HU) as (E1 & E2 & E3 & E4).
    unfold entry_for. rewrite E1, E2, E3, E4 in *. rewrite Hg by done. by apply HR.
  - intros A s m t Hmt HR c Hc. pose proof (card_mono A (m - 1) (t - 1)). apply HR. lia.
Qed.

#[export] Instance coarse_local : Local coarse.
Proof.
  split.
  - intros A A' g s t HU Hg HR c Hc. destruct (updated_at _ _ _ s (t - 1) c HU) as (E1 & E2 & E3 & E4).
    rewrite E1, E2, E3, E4 in *. rewrite Hg by done. by apply HR.
  - intros A s m t Hmt HR c Hc. pose proof (card_mono A (m - 1) (t - 1)). apply HR. lia.
Qed.

Definition all_blocks (P : shared_array -> Z -> Z -> Prop) (A : shared_array) (l : list Z) : Prop :=
  forall s t, (s, t) ∈ blocks (_reserved_start A) l -> P A s t.

Lemma cards_apart A s t s' t' :
  t' <= s \/ t <= s' -> forall c, first_card A s' <= c <= card A (t' - 1) -> c < first_card A s \/ card A (t - 1) < c.
Proof.
  intros H c Hc. rewrite !card_before in *. destruct H.
  - pose proof (card_mono A (t' - 1) (s - 1)). lia.
  - pose proof (card_mono A (t - 1) (s' - 1)). lia.
Qed.

(** Blocks are replaced by others: only those need be looked at. *)
Lemma replace_blocks `{Local P} A A' g l1 l l' l2 :
  positive (l1 ++ l ++ l2) -> total l' = total l -> all_blocks P A (l1 ++ l ++ l2) -> updated A A' g ->
  (forall c, c < first_card A (_reserved_start A + total l1) \/ card A (_reserved_start A + total l1 + total l - 1) < c ->
    g c = _offset_array A c) ->
  (forall s t, (s, t) ∈ blocks (_reserved_start A + total l1) l' -> P A' s t) ->
  all_blocks P A' (l1 ++ l' ++ l2).
Proof.
  intros Hpos Htot HP HU Hg Hnew s t Hin. apply positive_app in Hpos as [Hl1 Hpos]. apply positive_app in Hpos as [Hl Hl2].
  destruct (updated_at _ _ _ 0 0 0 HU) as (_ & _ & E & _). rewrite E in Hin. unfold all_blocks in HP.
  rewrite !blocks_app, !elem_of_app in Hin. rewrite !blocks_app in HP. rewrite Htot in Hin.
  destruct Hin as [Hin|[Hin|Hin]]; [| by apply Hnew |].
  - apply (local A A' g); [done | | apply HP; set_solver]. intros c Hc. apply Hg. apply blocks_bounds in Hin; [| done].
    by apply cards_apart with (s' := s) (t' := t); [lia |].
  - apply (local A A' g); [done | | apply HP; set_solver]. intros c Hc. apply Hg. apply blocks_bounds in Hin; [| done].
    by apply cards_apart with (s' := s) (t' := t); [lia |].
Qed.

Lemma records_coarse A s t :
  placed_array A -> in_region A s t -> records A s t -> coarse A s t.
Proof.
  intros HA [Hs Ht] HR c Hc. rewrite HR by done. unfold entry_for. destruct (Z.eqb_spec c (first_card A s)); [done |].
  destruct (first_card_spec A s ltac:(lia)) as (_ & _ & Hf). pose proof (cards_small A HA).
  pose proof (card_range A HA (t - 1) ltac:(lia)).
  pose proof (log16_small (c - first_card A s) ltac:(change (16 ^ 14) with (2 ^ 56); lia)).
  pose proof (log16_nonneg (c - first_card A s)). pose proof (log16_spec (c - first_card A s) ltac:(lia)).
  replace (64 + log16 (c - first_card A s) - 64) with (log16 (c - first_card A s)) by lia. lia.
Qed.

Lemma first_card_mono A p q : p <= q -> first_card A p <= first_card A q.
Proof. intros. unfold first_card. apply Z.div_le_mono; lia. Qed.

(** ** The halves of a split block *)

Section Halves.
Context (A A' : shared_array) (s m t : Z).
Hypotheses (HA : placed_array A) (Hreg : in_region A s t) (Hm : s < m < t) (HU : updated A A' (split_entries A s m t)).

Lemma prefix_kept `{Local P} : P A s t -> P A' s m.
Proof using Hm HU.
  intros HP. apply (local A A' (split_entries A s m t)); [done | | apply shrink with t; [lia | done]].
  intros c Hc. apply split_entries_outside. rewrite card_before. lia.
Qed.

Lemma suffix_coarse : coarse A s t -> coarse A' m t.
Proof using HA Hreg Hm HU.
  intros HC c Hc. destruct Hreg as [Hs Ht]. destruct (updated_at _ _ _ m (t - 1) c HU) as (E1 & E2 & E3 & E4).
  rewrite E1, E2, E3, E4 in *. destruct (Z.eqb_spec c (first_card A m)) as [->|Hne]; [apply split_entries_first; lia |].
  pose proof (first_card_mono A s m ltac:(lia)). rewrite split_entries_inner by lia. cbv zeta.
  specialize (HC c ltac:(lia)). rewrite (proj2 (Z.eqb_neq _ _)) in HC by lia.
  destruct (first_card_spec A s ltac:(lia)) as (_ & _ & Hf). pose proof (cards_small A HA).
  pose proof (card_range A HA (t - 1) ltac:(lia)).
  assert (forall d i, 1 <= d <= c -> 0 <= i <= log16 d -> 64 <= 64 + i < 64 + 14 /\ 16 ^ (64 + i - 64) <= c) as Hd.
  { intros d i Hd Hi. pose proof (log16_small d ltac:(change (16 ^ 14) with (2 ^ 56); lia)). pose proof (log16_spec d ltac:(lia)).
    replace (64 + i - 64) with i by lia. assert (16 ^ i <= 16 ^ log16 d) by (apply Z.pow_le_mono_r; lia). lia. }
  set (k := first_card A m - first_card A s) in *. pose proof (log16_nonneg k). pose proof (log16_nonneg (c - first_card A m)).
  destruct (Z.leb_spec k 0); [done |]. destruct (_ <=? k); [apply (Hd (c - first_card A m)); lia |].
  destruct (Z.leb_spec (log16 k + 1) (log16 (c - first_card A m + k))); cbn [andb].
  - destruct (_ <? _); [apply (Hd (c - first_card A m + k)); lia |].
    destruct (_ <? k); [apply (Hd (c - first_card A m)); lia | done].
  - destruct (_ <? k); [apply (Hd (c - first_card A m)); lia | done].
Qed.

Lemma suffix_records :
  records A s t -> fits (first_card A m - first_card A s) (card A (t - 1) + 1 - first_card A m) = true -> records A' m t.
Proof using HA Hreg Hm HU.
  intros HR Hfit c Hc. pose proof (first_card_mono A s m ltac:(lia)).
  destruct (updated_at _ _ _ m (t - 1) c HU) as (E1 & E2 & E3 & E4). unfold entry_for.
  rewrite E1, E2, E3, E4 in *. destruct (Z.eqb_spec c (first_card A m)) as [->|Hne]; [apply split_entries_first; lia |].
  apply split_entries_exact; (done || lia).
Qed.

End Halves.

(** ** Searches *)

Section Search.
Context (A : shared_array) (end_ : Z) (l : list Z).
Hypotheses (HA : placed_array A) (Hpos : positive l) (Hend : _reserved_start A + total l = end_) (Hres : end_ <= _reserved_end A).

Lemma block_at c : 0 <= c -> _reserved_start A + 64 * c < end_ ->
  exists s t, (s, t) ∈ blocks (_reserved_start A) l /\ s <= _reserved_start A + 64 * c < t /\ in_region A s t /\ first_card A s <= c <= card A (t - 1).
Proof using HA Hpos Hend Hres.
  intros Hc0 Hc. destruct (block_of l (_reserved_start A) (_reserved_start A + 64 * c) Hpos ltac:(lia)) as (s & t & Hin & Hst).
  pose proof (blocks_bounds _ _ _ _ Hpos Hin). exists s, t. split_and!; [done | lia | lia | split; lia | |].
  - unfold first_card. Z.to_euclidean_division_equations. lia.
  - unfold card. Z.to_euclidean_division_equations. lia.
Qed.

Lemma go_back_spec sp_bottom sp_end fuel : forall c,
  all_blocks coarse A l -> sp_bottom <= _reserved_start A -> end_ <= sp_end -> 0 <= c < Z.of_nat fuel -> _reserved_start A + 64 * c < end_ ->
  exists s t, go_back sp_bottom sp_end A (_reserved_start A + 64 * c) c fuel = Some s /\ (s, t) ∈ blocks (_reserved_start A) l /\ s <= _reserved_start A + 64 * c.
Proof using HA Hpos Hend Hres.
  induction fuel as [|fuel IH]; intros c HC Hsb Hse Hc Hce; [lia |]. cbn [go_back].
  destruct (block_at c ltac:(lia) Hce) as (s & t & Hin & Hst & [Hs Ht] & Hcs).
  pose proof (card_range A HA (t - 1) ltac:(lia)). rewrite offset_array_card by (done || lia). cbn [mbind option_bind].
  pose proof (HC s t Hin c Hcs) as HCc. unfold N_words. destruct (Z.eqb_spec c (first_card A s)) as [->|].
  - destruct (first_card_spec A s ltac:(lia)) as (_ & Hf & _). rewrite HCc.
    rewrite (proj2 (Z.leb_gt _ _)) by lia. cbv zeta. rewrite (proj2 (Z.leb_le _ _)), (proj2 (Z.ltb_lt _ _)) by lia. cbn [andb].
    exists s, t. split_and!; [f_equal; lia | done | lia].
  - destruct HCc as [HC1 HC2]. rewrite (proj2 (Z.leb_le 64 _)) by lia. rewrite cards_back by (unfold N_words; lia).
    cbn [mbind option_bind]. cbv zeta. unfold N_words. set (w := 16 ^ (_offset_array A c - 64)) in *.
    assert (1 <= w) by (unfold w; pose proof (Z.pow_pos_nonneg 16 (_offset_array A c - 64)); lia).
    rewrite (proj2 (Z.leb_le _ _)), (proj2 (Z.ltb_lt _ _)) by lia. cbn [andb].
    destruct (IH (c - w)) as (s' & t' & E & Hin' & Hle); [done | done | done | lia | lia |].
    exists s', t'. replace (_reserved_start A + 64 * c - 64 * w) with (_reserved_start A + 64 * (c - w)) by lia. split_and!; [done | done | lia].
Qed.

Lemma first_entry : all_blocks coarse A l -> 0 < total l -> _offset_array A 0 = 0.
Proof using HA Hpos Hend Hres.
  intros HC Hl. destruct (block_at 0 ltac:(lia) ltac:(lia)) as (s & t & Hin & Hst & [Hs Ht] & Hc).
  assert (s = _reserved_start A) as -> by lia. pose proof (HC _ _ Hin 0 Hc) as H0.
  assert (first_card A (_reserved_start A) = 0) as E by (unfold first_card; by rewrite Z.sub_diag).
  rewrite E in H0. simpl in H0. lia.
Qed.

End Search.

Lemma go_forward_spec block_size addr l : forall fuel q s,
  positive l -> (forall s' t, (s', t) ∈ blocks s l -> block_size s' = t - s') -> s <= addr < s + total l -> (length l < fuel)%nat ->
  exists s' t, go_forward block_size q s addr fuel = Some s' /\ (s', t) ∈ blocks s l /\ s' <= addr < t.
Proof.
  induction l as [|n l IH]; intros fuel q s Hl Hbs Ha Hf; simpl in *; [lia |].
  apply Forall_cons in Hl as [Hn Hl]. destruct fuel as [|fuel]; [lia |]. cbn [go_forward].
  rewrite (proj2 (Z.leb_le s addr)) by lia. cbv zeta. rewrite (Hbs s (s + n)) by (by left).
  replace (s + (s + n - s)) with (s + n) by lia. rewrite (proj2 (Z.ltb_lt s _)) by lia.
  destruct (Z.le_gt_cases (s + n) addr).
  - destruct (IH fuel s (s + n)) as (s' & t & E & Hin & Hst); [done | by intros ? ? ?; apply Hbs; right | lia | lia |].
    exists s', t. split_and!; [done | by right | lia | lia].
  - destruct fuel as [|fuel]; [lia |]. cbn [go_forward]. rewrite (proj2 (Z.leb_gt _ _)), (proj2 (Z.leb_le s addr)) by lia.
    exists s, (s + n). split_and!; [done | by left | lia | lia].
Qed.

(** From the start of a block to the block of [addr]. *)
Lemma forward_from block_size addr l b s1 t1 s t fuel :
  positive l -> (forall s t, (s, t) ∈ blocks b l -> block_size s = t - s) -> (length l < fuel)%nat ->
  (s1, t1) ∈ blocks b l -> s1 <= addr -> (s, t) ∈ blocks b l -> s <= addr < t -> go_forward block_size s1 s1 addr fuel = Some s.
Proof.
  intros Hpos Hbs Hf Hin1 Hle Hin Ha. pose proof (blocks_bounds _ _ _ _ Hpos Hin) as Hb.
  destruct (blocks_from l _ _ _ Hpos Hin1) as (l1 & l2 & -> & -> & Hin2). pose proof Hpos as [Hp1 Hp2]%positive_app.
  rewrite total_sizes_app in Hb. rewrite length_app in Hf.
  destruct (go_forward_spec block_size addr l2 fuel (b + total l1) (b + total l1))
    as (s' & t' & -> & Hin' & Ha'); [done | | lia | lia |].
  - intros s' t' Hin'. apply Hbs. rewrite blocks_app, elem_of_app. by right.
  - f_equal. apply (block_unique (l1 ++ l2) b addr s t s' t'); [done | done | done | | done].
    rewrite blocks_app, elem_of_app. by right.
Qed.

(** The search through the table and over the blocks. *)
Lemma block_start_found A end_ l sp_bottom sp_end block_size unallocated fuel s t addr :
  placed_array A -> positive l -> _reserved_start A + total l = end_ -> end_ <= _reserved_end A -> all_blocks coarse A l ->
  sp_bottom <= _reserved_start A -> end_ <= sp_end ->
  (forall s t, (s, t) ∈ blocks (_reserved_start A) l -> block_size s = t - s) ->
  (forall u, unallocated = Some u -> u = end_ \/ (u, end_) ∈ blocks (_reserved_start A) l) ->
  (Z.to_nat (cards A) + length l < fuel)%nat -> (s, t) ∈ blocks (_reserved_start A) l -> s <= addr < t ->
  block_start_unsafe (_reserved_start A) end_ sp_bottom sp_end block_size A unallocated addr fuel = Some s.
Proof.
  intros HA Hpos Hend Hres HC Hsb Hse Hbs Hub Hf Hin Ha. pose proof (blocks_bounds _ _ _ _ Hpos Hin) as Hb.
  pose proof (card_range A HA addr ltac:(lia)) as Hcr. unfold block_start_unsafe.
  rewrite offset_array_card by (done || lia). cbn [mbind option_bind].
  rewrite (first_entry A end_ l) by (done || lia).
  change (0 =? 0) with true. rewrite (proj2 (Z.leb_le _ _)), (proj2 (Z.ltb_lt _ _)) by lia. cbn [andb]. cbv zeta.
  assert ((index ← index_for A addr; q ← address_for_index A index; q ← go_back sp_bottom sp_end A q index fuel;
           go_forward block_size q q addr fuel) = Some s) as Hsearch.
  { rewrite index_for_card by (done || lia). cbn [mbind option_bind]. rewrite address_for_card by (done || lia).
    cbn [mbind option_bind].
    assert (_reserved_start A + 64 * card A addr <= addr) by (unfold card; Z.to_euclidean_division_equations; lia).
    destruct (go_back_spec A end_ l HA Hpos Hend Hres sp_bottom sp_end fuel (card A addr)) as (s1 & t1 & -> & Hin1 & Hle);
      [done | done | done | lia | lia |]. cbn [mbind option_bind].
    apply (forward_from block_size addr l (_reserved_start A) s1 t1 s t); (done || lia). }
  destruct unallocated as [u|]; [| done]. destruct (Z.leb_spec u addr) as [Hu|]; [| done].
  destruct (Hub u eq_refl) as [->|Hinu]; [lia |]. f_equal.
  apply (block_unique l (_reserved_start A) addr s t u end_); (done || lia).
Qed.

(** ** The search through the table alone *)

(** [15 * j + a] steps lead [d] cards back, [d < (a + 1) * 16 ^ j]. *)
Lemma careful_loop_spec A s t n : forall j a c,
  placed_array A -> in_region A s t -> records A s t -> 15 * j + a <= Z.of_nat n -> 0 <= j -> 0 <= a <= 15 ->
  first_card A s <= c <= card A (t - 1) -> c - first_card A s < (a + 1) * 16 ^ j ->
  careful_loop A (_reserved_start A + 64 * c) c (S n) = Some s.
Proof.
  induction n as [|n IH]; intros j a c HA [Hs Ht] HR Hn Hj Ha Hc Hd;
    pose proof (card_range A HA (t - 1) ltac:(lia)); destruct (first_card_spec A s ltac:(lia)) as (_ & Hf & Hfc);
    cbn [careful_loop]; rewrite offset_array_card by (done || lia); cbn [mbind option_bind]; rewrite HR by done;
    unfold entry_for, N_words; destruct (Z.eqb_spec c (first_card A s)) as [->|Hne].
  1,3: rewrite (proj2 (Z.ltb_lt _ _)) by lia; f_equal; lia.
  1: assert (j = 0) as -> by lia; change (16 ^ 0) with 1 in Hd; lia.
  pose proof (log16_nonneg (c - first_card A s)). rewrite (proj2 (Z.ltb_ge _ _)) by lia. pose proof (cards_small A HA).
  pose proof (log16_small (c - first_card A s) ltac:(change (16 ^ 14) with (2 ^ 56); lia)).
  rewrite cards_back by (unfold N_words; lia). cbn [mbind option_bind]. unfold N_words.
  replace (64 + log16 (c - first_card A s) - 64) with (log16 (c - first_card A s)) by lia.
  set (d := c - first_card A s) in *. pose proof (log16_spec d ltac:(lia)) as [Hlo Hhi].
  pose proof (Z.pow_pos_nonneg 16 (log16 d) ltac:(lia) ltac:(lia)). rewrite Z.pow_add_r in Hhi by lia.
  replace (_reserved_start A + 64 * c - 16 ^ log16 d * 64) with (_reserved_start A + 64 * (c - 16 ^ log16 d)) by lia.
  destruct (Z.lt_trichotomy (log16 d) j) as [Hlt|[Heq|Hgt]].
  - apply (IH (log16 d) 14); (done || lia).
  - subst j. apply (IH (log16 d) (a - 1)); (done || lia || nia).
  - assert (16 ^ (j + 1) <= 16 ^ log16 d) as Hge by (apply Z.pow_le_mono_r; lia). rewrite Z.pow_add_r in Hge by lia. nia.
Qed.

(** 210 steps are enough for every table. *)
Lemma block_start_careful_found A end_ l s t c fuel :
  placed_array A -> positive l -> _reserved_start A + total l = end_ -> end_ <= _reserved_end A -> all_blocks records A l ->
  (s, t) ∈ blocks (_reserved_start A) l -> s <= _reserved_start A + 64 * c < t -> (210 < fuel)%nat ->
  block_start_careful (_reserved_start A) end_ A None (_reserved_start A + 64 * c) fuel = Some s.
Proof.
  intros HA Hpos Hend Hres HR Hin Hc Hf. pose proof (blocks_bounds _ _ _ _ Hpos Hin) as Hb.
  assert (card A (_reserved_start A + 64 * c) = c) as Ec
    by (replace (_reserved_start A + 64 * c) with (_reserved_start A + 64 * c + 0) by lia; by apply card_address).
  pose proof (card_range A HA (_reserved_start A + 64 * c) ltac:(lia)) as Hcr. rewrite Ec in Hcr.
  assert (all_blocks coarse A l) as HC.
  { intros s' t' Hin'. pose proof (blocks_bounds _ _ _ _ Hpos Hin'). apply records_coarse; [done | split; lia | by apply HR]. }
  unfold block_start_careful. rewrite offset_array_card by (done || lia). cbn [mbind option_bind].
  rewrite (first_entry A end_ l) by (done || lia).
  change (0 =? 0) with true. rewrite (proj2 (Z.leb_le _ _)), (proj2 (Z.ltb_lt _ end_)) by lia. cbn [andb]. cbv zeta.
  rewrite index_for_card by (done || lia). cbn [mbind option_bind]. rewrite Ec. rewrite address_for_card by (done || lia).
  cbn [mbind option_bind]. rewrite Z.eqb_refl. destruct fuel as [|fuel]; [lia |].
  destruct (block_at A end_ l HA Hpos Hend Hres c ltac:(lia) ltac:(lia)) as (s' & t' & Hin' & Hst' & Hreg & Hcc).
  destruct (block_unique l _ _ _ _ _ _ Hpos Hin Hc Hin' Hst') as [-> ->].
  destruct (first_card_spec A s ltac:(lia)) as (_ & _ & Hfc). pose proof (cards_small A HA).
  rewrite (careful_loop_spec A s t fuel 13 15); [| done | done | by apply HR | lia | lia | lia | done |].
  - cbn [mbind option_bind]. by rewrite (proj2 (Z.leb_le _ _)) by lia.
  - change (16 ^ 13) with (2 ^ 52). lia.
Qed.

End BlockOffsetSearch.
