(* ===== verification/BlockOffsetHistory.v ===== *)
(** Histories of a space and of its block offset table: what is found in every state. *)
From S2P Require Import Prelude GlobalDefinitions BlockOffsetTable BlockOffsetTheorems BlockOffsetSplit BlockOffsetSearch.
Import GlobalDefinitions BlockOffsetTable BlockOffsetTheorems BlockOffsetSplit BlockOffsetSearch.

Module BlockOffsetHistory.

(** A space that is not contiguous: the table, the end of the space and the sizes of its
    blocks.  It coalesces [n] blocks from the [i]-th on, splits the [i]-th block, and is
    extended by a block to a size in words. *)
Record bot : Set := mkBot { b_array : shared_array; b_end : Z; b_sizes : list Z }.

Inductive bot_op : Set :=
| Op_coalesce (i n : nat)
| Op_split (i : nat) (left_size : Z)
| Op_extend (new_word_size : Z).

Definition block_addr (T : bot) (i : nat) : Z := _reserved_start (b_array T) + total (take i (b_sizes T)).

Section Steps.
Context (verify : bool).

Definition apply_op (T : bot) (op : bot_op) : option bot :=
  let A := b_array T in
  let l := b_sizes T in
  let bottom := _reserved_start A in
  match op with
  | Op_coalesce i n =>
      let size := total (take n (drop i l)) in
      A ← single_block bottom A false (block_addr T i) (block_addr T i + size);
      Some (mkBot A (b_end T) (take i l ++ [size] ++ drop (i + n) l))
  | Op_split i left_size =>
      size ← l !! i;
      A ← split_block bottom verify A (block_addr T i) size left_size;
      Some (mkBot A (b_end T) (take i l ++ [left_size; size - left_size] ++ drop (i + 1) l))
  | Op_extend new_word_size =>
      '(A, new_end) ← resize bottom A false (b_end T) new_word_size;
      A ← mark_block bottom A false (b_end T) new_end false;
      Some (mkBot A new_end (l ++ [new_end - b_end T]))
  end.

Fixpoint run_ops (T : bot) (ops : list bot_op) : option bot :=
  match ops with
  | [] => Some T
  | op :: ops => T ← apply_op T op; run_ops T ops
  end.

End Steps.

(** What the space sees to: that the blocks exist, that a split has two parts, that the
    size is one of whole cards within the reserved region. *)
Definition op_ok (T : bot) (op : bot_op) : bool :=
  match op with
  | Op_coalesce i n => (0 <? n)%nat && (i + n <=? length (b_sizes T))%nat
  | Op_split i left_size => match b_sizes T !! i with Some size => (0 <? left_size) && (left_size <? size) | None => false end
  | Op_extend new_word_size =>
      (total (b_sizes T) <? new_word_size) && (_reserved_start (b_array T) + new_word_size <=? _reserved_end (b_array T)) &&
      (new_word_size mod 64 =? 0)
  end.

(** Whether a split is one that the table is right after. *)
Definition op_fits (T : bot) (op : bot_op) : bool :=
  match op with
  | Op_split i left_size =>
      match b_sizes T !! i with
      | Some size =>
          let A := b_array T in
          let x := first_card A (block_addr T i + left_size) in
          fits (x - first_card A (block_addr T i)) (card A (block_addr T i + size - 1) + 1 - x)
      | None => true
      end
  | _ => true
  end.

Fixpoint all_ops (ok : bot -> bot_op -> bool) (verify : bool) (T : bot) (ops : list bot_op) : bool :=
  match ops with
  | [] => true
  | op :: ops => ok T op && match apply_op verify T op with Some T => all_ops ok verify T ops | None => true end
  end.

(** ** What is known of the blocks' cards throughout *)

Class Described (P : shared_array -> Z -> Z -> Prop) (verify : bool) (fit : Z -> Z -> bool) : Prop := {
  described_local :: Local P;
  of_records A s t : placed_array A -> in_region A s t -> records A s t -> P A s t;
  to_coarse A s t : placed_array A -> in_region A s t -> P A s t -> coarse A s t;
  verified A s t : verify = true -> P A s t -> records A s t;
  suffix_described A A' s m t : placed_array A -> in_region A s t -> s < m < t -> updated A A' (split_entries A s m t) ->
    fit (first_card A m - first_card A s) (card A (t - 1) + 1 - first_card A m) = true -> P A s t -> P A' m t }.

#[export] Instance coarse_described : Described coarse false (fun _ _ => true).
Proof.
  split; [apply _ | exact records_coarse | done | done |]. intros A A' s m t HA Hr Hm HU _. by apply (suffix_coarse A A' s m t).
Qed.

#[export] Instance records_described verify : Described records verify fits.
Proof.
  split; [apply _ | done | exact records_coarse | done |]. intros A A' s m t HA Hr Hm HU Hfit HR.
  by apply (suffix_records A A' s m t).
Qed.

Lemma in_region_updated A A' g s t : updated A A' g -> in_region A s t -> in_region A' s t.
Proof. unfold in_region. by intros (-> & -> & _). Qed.

Section History.
Context (P : shared_array -> Z -> Z -> Prop) (verify : bool) (fit : Z -> Z -> bool) `{!Described P verify fit}.

Record consistent (T : bot) : Prop := {
  c_placed : placed_array (b_array T);
  c_positive : positive (b_sizes T);
  c_tiled : _reserved_start (b_array T) + total (b_sizes T) = b_end T;
  c_reserved : b_end T <= _reserved_end (b_array T);
  c_whole : total (b_sizes T) mod 64 = 0;
  c_blocks : all_blocks P (b_array T) (b_sizes T) }.

Lemma total_split l i n : total l = total (take i l) + total (take n (drop i l)) + total (drop (i + n) l).
Proof.
  rewrite <- (take_drop i l) at 1. rewrite total_sizes_app. rewrite <- (take_drop n (drop i l)) at 1.
  rewrite total_sizes_app, drop_drop. lia.
Qed.

Lemma split_list (l : list Z) i n : l = take i l ++ take n (drop i l) ++ drop (i + n) l.
Proof. rewrite <- drop_drop. by rewrite !take_drop. Qed.

Lemma total_pos l : positive l -> l <> [] -> 0 < total l.
Proof. intros Hl Hne. destruct Hl as [|n l Hn Hl]; [done |]. pose proof (total_nonneg l Hl). simpl. lia. Qed.

(** Blocks are replaced in a consistent space. *)
Lemma replace_consistent T A' g i n l' :
  consistent T -> total l' = total (take n (drop i (b_sizes T))) -> positive l' -> updated (b_array T) A' g ->
  (forall c, c < first_card (b_array T) (block_addr T i) \/
             card (b_array T) (block_addr T i + total (take n (drop i (b_sizes T))) - 1) < c -> g c = _offset_array (b_array T) c) ->
  (forall s t, (s, t) ∈ blocks (block_addr T i) l' -> P A' s t) ->
  consistent (mkBot A' (b_end T) (take i (b_sizes T) ++ l' ++ drop (i + n) (b_sizes T))).
Proof using Described0.
  intros [HA Hpos Ht Hres Hw HB] Htot Hpos' HU Hout Hnew. pose proof HU as (E1 & E2 & E3 & E4).
  rewrite (split_list (b_sizes T) i n) in Hpos, HB.
  assert (total (take i (b_sizes T) ++ l' ++ drop (i + n) (b_sizes T)) = total (b_sizes T)) as Et
    by (rewrite !total_sizes_app, (total_split (b_sizes T) i n); lia).
  split; cbn [b_array b_end b_sizes].
  - by eapply updated_placed.
  - pose proof (proj1 (positive_app _ _) Hpos) as [Hp1 Hp2]. apply positive_app in Hp2 as [Hp2 Hp3].
    rewrite !positive_app. done.
  - rewrite Et, E1. done.
  - by rewrite E2.
  - by rewrite Et.
  - eapply (replace_blocks (b_array T) A' g); done.
Qed.

Lemma coalesce_step T i n :
  consistent T -> op_ok T (Op_coalesce i n) = true -> exists T', apply_op verify T (Op_coalesce i n) = Some T' /\ consistent T'.
Proof using Described0.
  intros HT Hok. pose proof HT as [HA Hpos Ht Hres Hw HB]. simpl in Hok. apply andb_prop in Hok as [Hn Hi].
  apply Nat.ltb_lt in Hn. apply Nat.leb_le in Hi. unfold apply_op. cbv zeta.
  rewrite (split_list (b_sizes T) i n) in Hpos. apply positive_app in Hpos as [Hp1 Hp2]. apply positive_app in Hp2 as [Hp2 Hp3].
  assert (0 < total (take n (drop i (b_sizes T)))) as Hsize.
  { apply total_pos; [done |]. intros E. apply (f_equal length) in E. rewrite length_take, length_drop in E. simpl in E. lia. }
  assert (in_region (b_array T) (block_addr T i) (block_addr T i + total (take n (drop i (b_sizes T))))) as Hreg.
  { pose proof (total_split (b_sizes T) i n). pose proof (total_nonneg _ Hp1). pose proof (total_nonneg _ Hp3).
    unfold block_addr. split; lia. }
  destruct (single_block_spec (_reserved_start (b_array T)) (b_array T) false (block_addr T i)
    (block_addr T i + total (take n (drop i (b_sizes T))))) as (A' & -> & HU); [done.. |].
  cbn [mbind option_bind]. eexists. split; [done |]. eapply replace_consistent; [done | simpl; lia | | done | |].
  - by constructor.
  - intros c Hc. unfold recorded. destruct (Z.leb_spec (first_card (b_array T) (block_addr T i)) c),
      (Z.leb_spec c (card (b_array T) (block_addr T i + total (take n (drop i (b_sizes T))) - 1))); cbn [andb]; (done || lia).
  - intros s t Hin. simpl in Hin. apply list_elem_of_singleton in Hin as [= -> ->].
    apply (of_records (fit := fit) (verify := verify));
      [by eapply updated_placed | by eapply in_region_updated | by eapply recorded_records].
Qed.

Lemma verify_passes A s t :
  placed_array A -> in_region A s t -> P A s t -> verify_single_block (_reserved_start A) verify A s t = Some A.
Proof using Described0.
  intros HA Hreg HP. destruct verify eqn:Ev; [| done].
  apply verify_block_spec; [done | done |]. by apply (verified (P := P) (verify := true) (fit := fit)).
Qed.

Lemma split_block_spec A s m t :
  placed_array A -> in_region A s t -> s < m < t -> P A s t ->
  fit (first_card A m - first_card A s) (card A (t - 1) + 1 - first_card A m) = true ->
  exists A', split_block (_reserved_start A) verify A s (t - s) (m - s) = Some A' /\
    updated A A' (split_entries A s m t) /\ P A' s m /\ P A' m t.
Proof using Described0.
  intros HA Hreg Hm HP Hfit. rewrite split_block_body by lia. replace (s + (t - s)) with t by lia.
  replace (s + (m - s)) with m by lia. replace (m + (t - s - (m - s))) with t by lia.
  rewrite verify_passes by done. cbn [mbind option_bind].
  destruct (split_body_spec (_reserved_start A) A s m t) as (A' & -> & HU); [done | done | done | done | |].
  { intros Hx. pose proof (to_coarse (P := P) (verify := verify) (fit := fit) A s t HA Hreg HP) as HC.
    pose proof (first_card_mono A s m ltac:(lia)). destruct Hreg as [Hs Ht].
    destruct (first_card_spec A m ltac:(lia)) as (_ & Hfm & _). specialize (HC (first_card A m) ltac:(lia)).
    destruct (Z.eqb_spec (first_card A m) (first_card A s)); lia. }
  cbn [mbind option_bind]. pose proof (updated_placed _ _ _ HU HA) as HA'. pose proof HU as (E & _).
  assert (P A' s m) as Hpre by (by apply (prefix_kept A A' s m t Hm HU)).
  assert (P A' m t) as Hsuf by (by apply (suffix_described (P := P) (verify := verify) (fit := fit) A A' s m t)).
  rewrite <- E. rewrite verify_passes; [| done | | done].
  2: { eapply in_region_updated; [done |]. destruct Hreg. split; lia. }
  cbn [mbind option_bind]. rewrite verify_passes; [by exists A' | done | | done].
  eapply in_region_updated; [done |]. destruct Hreg. split; lia.
Qed.

Lemma take_one (l : list Z) i n : l !! i = Some n -> take 1 (drop i l) = [n].
Proof. intros Hi. by rewrite (drop_S _ _ _ Hi). Qed.

Lemma split_step T i left_size :
  consistent T -> op_ok T (Op_split i left_size) = true ->
  (forall size, b_sizes T !! i = Some size ->
     let x := first_card (b_array T) (block_addr T i + left_size) in
     fit (x - first_card (b_array T) (block_addr T i)) (card (b_array T) (block_addr T i + size - 1) + 1 - x) = true) ->
  exists T', apply_op verify T (Op_split i left_size) = Some T' /\ consistent T'.
Proof using Described0.
  intros HT Hok Hfit. pose proof HT as [HA Hpos Ht Hres Hw HB]. simpl in Hok. unfold apply_op. cbv zeta.
  destruct (b_sizes T !! i) as [size|] eqn:Ei; [| done]. cbn [mbind option_bind].
  apply andb_prop in Hok as [Hl0%Z.ltb_lt Hl1%Z.ltb_lt]. specialize (Hfit size eq_refl). cbv zeta in Hfit.
  pose proof (take_one _ _ _ Ei) as E1. pose proof (total_split (b_sizes T) i 1) as Etot. rewrite E1 in Etot. simpl in Etot.
  assert ((block_addr T i, block_addr T i + size) ∈ blocks (_reserved_start (b_array T)) (b_sizes T)) as Hin.
  { rewrite (split_list (b_sizes T) i 1), !blocks_app, E1, !elem_of_app. right. left. by left. }
  pose proof (blocks_bounds _ _ _ _ Hpos Hin) as Hb.
  destruct (split_block_spec (b_array T) (block_addr T i) (block_addr T i + left_size) (block_addr T i + size))
    as (A' & E & HU & Hpre & Hsuf); [done | split; lia | lia | by apply HB | done |].
  replace (block_addr T i + size - block_addr T i) with size in E by lia.
  replace (block_addr T i + left_size - block_addr T i) with left_size in E by lia.
  rewrite E. cbn [mbind option_bind]. eexists. split; [done |].
  eapply (replace_consistent T A'); [exact HT | rewrite E1; simpl; lia | | exact HU | |].
  - repeat constructor; lia.
  - rewrite E1. intros c Hc. apply split_entries_outside. simpl in Hc. rewrite Z.add_0_r in Hc.
    pose proof (first_card_mono (b_array T) (block_addr T i) (block_addr T i + left_size)). lia.
  - intros s t Hst. simpl in Hst. apply elem_of_cons in Hst as [[= -> ->]|Hst]; [done |].
    apply list_elem_of_singleton in Hst as [= -> ->]. by replace (block_addr T i + left_size + (size - left_size)) with (block_addr T i + size) by lia.
Qed.

Lemma whole_cards A p : _reserved_start A <= p -> (p - _reserved_start A) mod 64 = 0 -> is_card_boundary A p = true.
Proof.
  intros Hp Hm. unfold is_card_boundary, LogN_words. rewrite right_n_bits_ones by lia. rewrite Z.land_ones by lia.
  change (2 ^ 6) with 64. rewrite Hm. by rewrite (proj2 (Z.leb_le _ _)) by lia.
Qed.

Lemma resize_spec A e e' :
  placed_array A -> _reserved_start A <= e < e' -> e' <= _reserved_end A ->
  (e - _reserved_start A) mod 64 = 0 -> (e' - _reserved_start A) mod 64 = 0 ->
  exists A1 g, resize (_reserved_start A) A false e (e' - _reserved_start A) = Some (A1, e') /\ updated A A1 g /\
    forall c, c < first_card A e -> g c = _offset_array A c.
Proof.
  intros HA He He' Hm Hm'. unfold resize. cbv zeta. replace (_reserved_start A + (e' - _reserved_start A)) with e' by lia.
  rewrite (proj2 (Z.ltb_lt e e')) by lia. rewrite !whole_cards by (done || lia). cbn [andb negb].
  unfold set_offsets_of. rewrite (index_for_card A HA (e' - 1)) by lia. cbn [mbind option_bind].
  pose proof (card_range A HA (e' - 1) ltac:(lia)). pose proof (cards_committed A HA).
  rewrite (proj2 (Z.ltb_lt _ (_committed A))), (proj2 (Z.ltb_lt e e')) by (unfold cards in *; lia). cbn [andb]. cbv zeta.
  rewrite index_for_card by (done || lia). cbn [mbind option_bind]. do 2 eexists. split; [done |]. split; [done |].
  intros c Hc. simpl. rewrite card_before in Hc. pose proof (card_mono A (e - 1) e ltac:(lia)).
  assert (c < card A e) by (unfold card in *; Z.to_euclidean_division_equations; lia). by rewrite (proj2 (Z.leb_gt _ _)) by lia.
Qed.

Lemma mark_single A s t : mark_block (_reserved_start A) A false s t false = single_block (_reserved_start A) A false s t.
Proof. done. Qed.

Lemma extend_step T new_word_size :
  consistent T -> op_ok T (Op_extend new_word_size) = true -> exists T', apply_op verify T (Op_extend new_word_size) = Some T' /\ consistent T'.
Proof using Described0.
  intros [HA Hpos Ht Hres Hw HB] Hok. simpl in Hok. rewrite !andb_true_iff, Z.ltb_lt, Z.leb_le, Z.eqb_eq in Hok.
  destruct Hok as [[Hlt Hle] Hmod]. unfold apply_op. cbv zeta. set (A := b_array T) in *. set (e := b_end T) in *.
  pose proof (total_nonneg _ Hpos).
  destruct (resize_spec A e (_reserved_start A + new_word_size)) as (A1 & g & E & HU & Hg);
    [done | lia | done | by replace (e - _reserved_start A) with (total (b_sizes T)) by lia | |].
  { by replace (_reserved_start A + new_word_size - _reserved_start A) with new_word_size by lia. }
  replace (_reserved_start A + new_word_size - _reserved_start A) with new_word_size in E by lia. rewrite E. cbn [mbind option_bind].
  set (e' := _reserved_start A + new_word_size) in *. pose proof HU as (E1 & E2 & _). pose proof (updated_placed _ _ _ HU HA) as HA1.
  assert (in_region A1 e e') as Hreg by (split; lia). rewrite <- E1, mark_single.
  destruct (single_block_spec (_reserved_start A1) A1 false e e') as (A' & -> & HU'); [done.. |]. cbn [mbind option_bind].
  eexists. split; [done |]. pose proof HU' as (F1 & F2 & _). pose proof (updated_placed _ _ _ HU' HA1) as HA'.
  split; cbn [b_array b_end b_sizes].
  - done.
  - apply positive_app. split; [done |]. repeat constructor. lia.
  - rewrite F1, E1, total_sizes_app. simpl. lia.
  - rewrite F2, E2. done.
  - rewrite total_sizes_app. simpl. by replace (total (b_sizes T) + (e' - e + 0)) with new_word_size by lia.
  - intros s t Hin. rewrite F1, E1, blocks_app, elem_of_app in Hin. destruct Hin as [Hin|Hin].
    + apply (local A A' (recorded A1 e e')); [by eapply updated_trans | | by apply HB].
      intros c Hc. apply blocks_bounds in Hin; [| done]. unfold recorded.
      assert (c < first_card A e) as Hce by (rewrite card_before; pose proof (card_mono A (t - 1) (e - 1)); lia).
      destruct (updated_card _ _ _ e HU) as (_ & -> & _). rewrite (proj2 (Z.leb_gt _ _)) by lia. cbn [andb].
      destruct HU as (_ & _ & _ & ->). by apply Hg.
    + simpl in Hin. apply list_elem_of_singleton in Hin as [= -> ->].
      replace (_reserved_start A + total (b_sizes T)) with e by lia. replace (e + (e' - e)) with e' by lia.
      apply (of_records (fit := fit) (verify := verify)); [done | by eapply in_region_updated | by eapply recorded_records].
Qed.

Definition op_fit (T : bot) (op : bot_op) : Prop :=
  match op with
  | Op_split i left_size => forall size, b_sizes T !! i = Some size ->
      let x := first_card (b_array T) (block_addr T i + left_size) in
      fit (x - first_card (b_array T) (block_addr T i)) (card (b_array T) (block_addr T i + size - 1) + 1 - x) = true
  | _ => True
  end.

(** Each operation succeeds and leaves the space consistent. *)
Lemma run_consistent ok ops : forall T,
  (forall T op, ok T op = true -> op_ok T op = true /\ op_fit T op) ->
  consistent T -> all_ops ok verify T ops = true -> exists T', run_ops verify T ops = Some T' /\ consistent T'.
Proof using Described0.
  induction ops as [|op ops IH]; intros T Hok HT Hall; [by exists T |]. simpl in Hall. apply andb_prop in Hall as [Hop Hall].
  destruct (Hok _ _ Hop) as [Ho Hf]. cbn [run_ops].
  assert (exists T', apply_op verify T op = Some T' /\ consistent T') as (T' & E & HT').
  { destruct op as [i n | i ls | n]; [by apply coalesce_step | by apply split_step | by apply extend_step]. }
  rewrite E in Hall |- *. cbn [mbind option_bind]. by apply IH.
Qed.

(** A new table: the space is one block. *)
Lemma initial_consistent A0 end_ :
  placed_array A0 -> _reserved_start A0 < end_ <= _reserved_end A0 -> (end_ - _reserved_start A0) mod 64 = 0 ->
  _offset_array A0 0 <= 64 ->
  exists A, initialize_array (_reserved_start A0) A0 end_ false = Some A /\ consistent (mkBot A end_ [end_ - _reserved_start A0]).
Proof using Described0.
  intros HA He Hm H0. unfold initialize_array. rewrite (proj2 (Z.leb_le _ _)) by lia.
  pose proof (card_range A0 HA (end_ - 1) ltac:(lia)) as Hc. set (last := card A0 (end_ - 1)) in *.
  assert (end_ = _reserved_start A0 + 64 * last + N_words) as Ee by (unfold last, card, N_words; Z.to_euclidean_division_equations; lia).
  destruct (set_remainder_spec (_reserved_start A0) A0 0 last) as (A1 & E & HU1); [done | done | lia | lia | done |].
  replace (_reserved_start A0 + 64 * 0 + N_words) with (_reserved_start A0 + N_words) in E by lia. rewrite <- Ee in E. rewrite E.
  cbn [mbind option_bind]. destruct (updated_card _ _ _ 0 HU1) as (_ & _ & Ec). pose proof (updated_placed _ _ _ HU1 HA) as HA1.
  unfold set_offset. rewrite offset_array_card by (done || lia). cbn [mbind option_bind negb orb].
  eexists. split; [done |]. pose proof HU1 as (F1 & F2 & F3 & F4). split; cbn [b_array b_end b_sizes _reserved_start _reserved_end set_entries].
  - eapply updated_placed; [| exact HA1]. done.
  - repeat constructor. lia.
  - simpl. rewrite F1. lia.
  - rewrite F2. lia.
  - simpl. by rewrite Z.add_0_r.
  - intros s t Hin. simpl in Hin. rewrite F1 in Hin. apply list_elem_of_singleton in Hin as [= -> ->].
    apply (of_records (fit := fit) (verify := verify)).
    + by eapply updated_placed.
    + split; simpl; lia.
    + intros c Hcc. unfold entry_for. unfold card, first_card in *. simpl in *. rewrite F1 in *. rewrite Z.sub_diag in *.
      change ((0 + 63) / 64) with 0 in *. replace (_reserved_start A0 + (end_ - _reserved_start A0) - 1) with (end_ - 1) in Hcc by lia.
      fold last in Hcc. rewrite F4. unfold led. destruct (Z.eqb_spec c 0) as [->|]; [unfold u_char; rewrite wrap_small; unfold in_unsigned; lia |].
      rewrite (proj2 (Z.leb_le _ c)), (proj2 (Z.leb_le c _)) by lia. done.
Qed.

End History.

(** ** Splits that mislead *)

Lemma check_cards_landing A start_card n : forall c last_entry c',
  check_cards A start_card c last_entry n = true -> c <= c' < c + Z.of_nat n ->
  exists entry back, offset_array A c' = Some entry /\ entry_to_cards_back entry = Some back /\
    size_t (start_card - 1) <= size_t (c' - back).
Proof.
  induction n as [|n IH]; intros c last_entry c' Hchk Hc; [lia |]. cbn [check_cards] in Hchk.
  destruct (offset_array A c) as [entry|] eqn:Eo; [| done]. rewrite !andb_true_iff in Hchk. destruct Hchk as [[_ Hland] Hrest].
  destruct (Z.eqb_spec c' c) as [->|]; [| eapply IH; [exact Hrest | lia]].
  destruct (entry_to_cards_back entry) as [back|] eqn:Eb; [| done]. cbv zeta in Hland. apply andb_prop in Hland as [Hle%Z.leb_le _].
  by exists entry, back.
Qed.

Lemma check_all_cards_landing A f last c :
  0 <= f < 2 ^ 55 -> check_all_cards A (f + 1) last = true -> f < c <= last ->
  exists entry back, offset_array A c = Some entry /\ entry_to_cards_back entry = Some back /\ f <= size_t (c - back).
Proof.
  intros Hf Hchk Hc. unfold check_all_cards in Hchk. rewrite (proj2 (Z.ltb_ge last (f + 1))) in Hchk by lia.
  destruct (offset_array A (f + 1)) as [e|] eqn:Eo; [| done]. apply andb_prop in Hchk as [He%Z.eqb_eq Hchk].
  destruct (Z.eqb_spec c (f + 1)) as [->|].
  - exists e, 1. split_and!; [done | by subst e |]. rewrite size_t_small; lia.
  - destruct (check_cards_landing _ _ _ _ _ c Hchk ltac:(lia)) as (entry & back & E1 & E2 & Hle). exists entry, back.
    split_and!; [done | done |]. rewrite (size_t_small (f + 1 - 1)) in Hle by lia. lia.
Qed.

Lemma careful_loop_back A q c fuel i :
  offset_array A c = Some (64 + i) -> 0 <= i < 14 ->
  careful_loop A q c (S fuel) = careful_loop A (q - 16 ^ i * 64) (c - 16 ^ i) fuel.
Proof.
  intros Eo Hi. cbn [careful_loop]. rewrite Eo. cbn [mbind option_bind]. unfold N_words. rewrite (proj2 (Z.ltb_ge _ _)) by lia.
  rewrite cards_back by (unfold N_words; lia). cbn [mbind option_bind]. unfold N_words.
  by replace (64 + i - 64) with i by lia.
Qed.

Section Misfit.
Context (A : shared_array) (s m t : Z).
Hypotheses (HA : placed_array A) (Hreg : in_region A s t) (Hm : s < m < t) (HR : records A s t).
Hypothesis Hfit : fits (first_card A m - first_card A s) (card A (t - 1) + 1 - first_card A m) = false.

(** The table after the split, and the card that leads to the prefix. *)
Lemma misfit_card :
  exists A' c i, split_body (_reserved_start A) A s m t = Some A' /\ updated A A' (split_entries A s m t) /\
    first_card A m < c <= card A (t - 1) /\ 0 <= i < 14 /\ _offset_array A' c = 64 + i /\
    first_card A s <= c - 16 ^ i < first_card A m.
Proof using HA Hreg Hm HR Hfit.
  pose proof (first_card_mono A s m ltac:(lia)) as Hsm. destruct Hreg as [Hs Ht].
  destruct (first_card_spec A s ltac:(lia)) as (_ & _ & Hf). destruct (first_card_spec A m ltac:(lia)) as (_ & Hfm & _).
  destruct (split_entries_wrong A s m t Hsm Hfit) as (c & i & Hc & Hi & Ev & Hland).
  destruct (split_body_spec (_reserved_start A) A s m t) as (A' & E & HU); [done | done | done | done | |].
  { intros Hx. rewrite HR by lia. unfold entry_for. pose proof (log16_nonneg (first_card A m - first_card A s)).
    destruct (Z.eqb_spec (first_card A m) (first_card A s)); lia. }
  exists A', c, i. pose proof (cards_small A HA). pose proof (card_range A HA (t - 1) ltac:(lia)).
  assert (i < 14) by (apply pow16_lt_inv; [done | lia |]; change (16 ^ 14) with (2 ^ 56); lia).
  destruct HU as (E1 & E2 & E3 & E4). split_and!; try (done || lia). by rewrite E4.
Qed.

Lemma misfit_verify : split_block (_reserved_start A) true A s (t - s) (m - s) = None.
Proof using HA Hreg Hm HR Hfit.
  destruct misfit_card as (A' & c & i & E & HU & Hc & Hi & Ev & Hland). pose proof Hreg as [Hs Ht].
  rewrite split_block_body by lia. replace (s + (t - s)) with t by lia.
  replace (s + (m - s)) with m by lia. replace (m + (t - s - (m - s))) with t by lia.
  rewrite verify_block_spec by done. cbn [mbind option_bind]. rewrite E. cbn [mbind option_bind].
  pose proof (updated_placed _ _ _ HU HA) as HA'.
  assert (records A' s m) as Hpre by (by apply (prefix_kept A A' s m t Hm HU)).
  rewrite verify_block_spec; [| done | eapply in_region_updated; [exact HU | split; lia] | done]. cbn [mbind option_bind].
  unfold verify_single_block. pose proof HU as (E1 & E2 & _). rewrite do_block_unfold by (done || lia). cbv zeta.
  destruct (updated_at _ _ _ m (t - 1) c HU) as (-> & -> & _). rewrite (proj2 (Z.ltb_ge (card A (t - 1)) _)) by lia.
  destruct (check_all_cards A' (first_card A m + 1) (card A (t - 1))) eqn:Echk; [| by rewrite andb_false_r].
  exfalso. pose proof (cards_small A HA). pose proof (card_range A HA (t - 1) ltac:(lia)).
  destruct (first_card_spec A s ltac:(lia)) as (_ & _ & Hf). destruct (first_card_spec A m ltac:(lia)) as (_ & _ & Hfm).
  destruct (check_all_cards_landing A' (first_card A m) (card A (t - 1)) c) as (entry & back & Eo & Eb & Hle); [lia | done | lia |].
  destruct (updated_card _ _ _ 0 HU) as (_ & _ & Ec). rewrite offset_array_card in Eo by (done || lia). simplify_eq.
  rewrite Ev, cards_back in Eb by (unfold N_words; lia). unfold N_words in Eb. replace (64 + i - 64) with i in Eb by lia. simplify_eq.
  pose proof (Z.pow_pos_nonneg 16 i ltac:(lia) ltac:(lia)). rewrite size_t_small in Hle by lia. lia.
Qed.

Lemma misfit_careful end_ :
  _offset_array A 0 = 0 -> t <= end_ <= _reserved_end A ->
  exists A' c, split_block (_reserved_start A) false A s (t - s) (m - s) = Some A' /\ m <= _reserved_start A + 64 * c < t /\
    block_start_careful (_reserved_start A) end_ A' None (_reserved_start A + 64 * c) 212 = Some s.
Proof using HA Hreg Hm HR Hfit.
  intros H0 He. destruct misfit_card as (A' & c & i & E & HU & Hc & Hi & Ev & Hland). pose proof Hreg as [Hs Ht].
  pose proof (updated_placed _ _ _ HU HA) as HA'. exists A', c. pose proof (Z.pow_pos_nonneg 16 i ltac:(lia) ltac:(lia)).
  pose proof (cards_small A HA). pose proof (card_range A HA (t - 1) ltac:(lia)).
  destruct (first_card_spec A s ltac:(lia)) as (_ & _ & Hf). destruct (first_card_spec A m ltac:(lia)) as (_ & Hfm & _).
  assert (m <= _reserved_start A + 64 * c < t) as Hin by (unfold card in *; Z.to_euclidean_division_equations; lia).
  split_and!; [| lia | lia |].
  { rewrite split_block_body by lia. replace (s + (t - s)) with t by lia. replace (s + (m - s)) with m by lia.
    unfold verify_single_block. cbn [mbind option_bind]. by rewrite E. }
  destruct (updated_card _ _ _ 0 HU) as (_ & _ & Ec). pose proof HU as (E1 & E2 & _ & E4). rewrite <- E1.
  unfold block_start_careful. rewrite offset_array_card by (done || lia). cbn [mbind option_bind].
  rewrite E4, split_entries_outside, H0 by lia. change (0 =? 0) with true.
  rewrite (proj2 (Z.leb_le _ _)), (proj2 (Z.ltb_lt _ end_)) by lia. cbn [andb]. cbv zeta.
  rewrite index_for_card by (done || lia). cbn [mbind option_bind].
  assert (card A' (_reserved_start A' + 64 * c) = c) as ->
    by (replace (_reserved_start A' + 64 * c) with (_reserved_start A' + 64 * c + 0) by lia; by apply card_address).
  rewrite address_for_card by (done || lia). cbn [mbind option_bind]. rewrite Z.eqb_refl.
  rewrite (careful_loop_back A' _ c 211 i) by (done || (rewrite offset_array_card by (done || lia); by rewrite Ev)).
  replace (_reserved_start A' + 64 * c - 16 ^ i * 64) with (_reserved_start A' + 64 * (c - 16 ^ i)) by lia.
  destruct (updated_at _ _ _ s (m - 1) c HU) as (F1 & F2 & _ & _).
  rewrite (careful_loop_spec A' s m 210 13 15); [| done | | | lia | lia | lia | |].
  - cbn [mbind option_bind]. by rewrite (proj2 (Z.leb_le _ _)) by lia.
  - eapply in_region_updated; [exact HU | split; lia].
  - by apply (prefix_kept A A' s m t Hm HU).
  - rewrite F1, F2. rewrite (card_before A m) in Hland. lia.
  - rewrite F1. change (16 ^ 13) with (2 ^ 52). lia.
Qed.

End Misfit.

(** ** Properties *)

(** C8.  In every history of a space, starting from a new table over one block and going on with
    blocks that are coalesced, split and added at the end, every update of the table succeeds
    without a failed assertion, and the search through the table and over the blocks then
    finds the start of the block of every address of the space; it takes no more steps than
    there are cards and blocks. *)
Theorem block_start_in_history A0 end_ ops :
  placed_array A0 -> _reserved_start A0 < end_ <= _reserved_end A0 -> (end_ - _reserved_start A0) mod 64 = 0 ->
  _offset_array A0 0 <= N_words ->
  exists A, initialize_array (_reserved_start A0) A0 end_ false = Some A /\
  let T := mkBot A end_ [end_ - _reserved_start A0] in
  all_ops op_ok false T ops = true ->
  exists T', run_ops false T ops = Some T' /\
  let A' := b_array T' in
  forall s t addr block_size,
    (s, t) ∈ blocks (_reserved_start A') (b_sizes T') -> s <= addr < t ->
    (forall s t, (s, t) ∈ blocks (_reserved_start A') (b_sizes T') -> block_size s = t - s) ->
    block_start_unsafe (_reserved_start A') (b_end T') (_reserved_start A') (b_end T') block_size A' None addr
      (S (Z.to_nat (cards A') + length (b_sizes T'))) = Some s.
Proof.
  intros HA He Hm H0. destruct (initial_consistent coarse false (fun _ _ => true) A0 end_) as (A & E & HT); [done.. |].
  exists A. split; [done |]. cbv zeta. intros Hops.
  destruct (run_consistent coarse false (fun _ _ => true) op_ok ops (mkBot A end_ [end_ - _reserved_start A0]))
    as (T' & -> & [HA' Hpos Ht Hres Hw HB]); [| done | done |].
  { intros T op Hop. split; [done |]. by destruct op. }
  exists T'. split; [done |]. intros s t addr block_size Hin Ha Hbs.
  apply (block_start_found _ _ (b_sizes T') _ _ _ _ _ s t); (done || lia).
Qed.

(** A space of 400 cards that is split, coalesced and extended. *)
Definition ops400 : list bot_op := [Op_split 0 (64 * 250); Op_split 1 700; Op_coalesce 0 2; Op_extend (64 * 500); Op_split 2 (64 * 20 + 7)].

Lemma block_start_in_history_witness :
  match initialize_array 640 (table600 (fun _ => 0)) (640 + 64 * 400) false with
  | Some A =>
      let T := mkBot A (640 + 64 * 400) [64 * 400] in
      all_ops op_ok false T ops400 = true /\
      exists T', run_ops false T ops400 = Some T' /\
      let A' := b_array T' in
      forall s t addr block_size,
        (s, t) ∈ blocks (_reserved_start A') (b_sizes T') -> s <= addr < t ->
        (forall s t, (s, t) ∈ blocks (_reserved_start A') (b_sizes T') -> block_size s = t - s) ->
        block_start_unsafe (_reserved_start A') (b_end T') (_reserved_start A') (b_end T') block_size A' None addr
          (S (Z.to_nat (cards A') + length (b_sizes T'))) = Some s
  | None => False
  end.
Proof.
  assert (match initialize_array 640 (table600 (fun _ => 0)) (640 + 64 * 400) false with
          | Some A => all_ops op_ok false (mkBot A (640 + 64 * 400) [64 * 400]) ops400 | None => false end = true) as Hok
    by (vm_compute; reflexivity).
  destruct (block_start_in_history (table600 (fun _ => 0)) (640 + 64 * 400) ops400) as (A & E & H).
  - apply table600_placed.
  - split; [reflexivity | vm_compute; discriminate].
  - reflexivity.
  - vm_compute. discriminate.
  - change (_reserved_start (table600 (fun _ => 0))) with 640 in E. rewrite E in Hok |- *. cbv zeta. split; [exact Hok |].
    exact (H Hok).
Defined.

(** C9.  When every split is one whose prefix fits the power blocks, the updates also pass the
    checks of the table, and the search that only reads the table finds the block of every
    card, in 211 steps at most. *)
Theorem block_start_careful_in_history verify A0 end_ ops :
  placed_array A0 -> _reserved_start A0 < end_ <= _reserved_end A0 -> (end_ - _reserved_start A0) mod 64 = 0 ->
  _offset_array A0 0 <= N_words ->
  exists A, initialize_array (_reserved_start A0) A0 end_ false = Some A /\
  let T := mkBot A end_ [end_ - _reserved_start A0] in
  all_ops (fun T op => op_ok T op && op_fits T op) verify T ops = true ->
  exists T', run_ops verify T ops = Some T' /\
  let A' := b_array T' in
  forall s t c,
    (s, t) ∈ blocks (_reserved_start A') (b_sizes T') -> s <= _reserved_start A' + N_words * c < t ->
    block_start_careful (_reserved_start A') (b_end T') A' None (_reserved_start A' + N_words * c) 211 = Some s.
Proof.
  intros HA He Hm H0. destruct (initial_consistent records verify fits A0 end_) as (A & E & HT); [done.. |].
  exists A. split; [done |]. cbv zeta. intros Hops.
  destruct (run_consistent records verify fits (fun T op => op_ok T op && op_fits T op) ops
    (mkBot A end_ [end_ - _reserved_start A0])) as (T' & -> & [HA' Hpos Ht Hres Hw HB]); [| done | done |].
  { intros T op [Hop Hf]%andb_prop. split; [done |]. destruct op as [| i ls |]; try done. simpl in *.
    destruct (b_sizes T !! i); [| done]. intros size [= <-]. exact Hf. }
  exists T'. split; [done |]. intros s t c Hin Hc. apply (block_start_careful_found _ _ (b_sizes T') s t); (done || lia).
Qed.

(** The same with a first split that fits. *)
Definition fitting400 : list bot_op := [Op_split 0 (64 * 200); Op_split 1 700; Op_coalesce 0 2; Op_extend (64 * 500); Op_split 2 (64 * 20 + 7)].

Lemma block_start_careful_in_history_witness :
  match initialize_array 640 (table600 (fun _ => 0)) (640 + 64 * 400) false with
  | Some A =>
      let T := mkBot A (640 + 64 * 400) [64 * 400] in
      all_ops (fun T op => op_ok T op && op_fits T op) true T fitting400 = true /\
      exists T', run_ops true T fitting400 = Some T' /\
      let A' := b_array T' in
      forall s t c,
        (s, t) ∈ blocks (_reserved_start A') (b_sizes T') -> s <= _reserved_start A' + N_words * c < t ->
        block_start_careful (_reserved_start A') (b_end T') A' None (_reserved_start A' + N_words * c) 211 = Some s
  | None => False
  end.
Proof.
  assert (match initialize_array 640 (table600 (fun _ => 0)) (640 + 64 * 400) false with
          | Some A => all_ops (fun T op => op_ok T op && op_fits T op) true (mkBot A (640 + 64 * 400) [64 * 400]) fitting400
          | None => false end = true) as Hok by (vm_compute; reflexivity).
  destruct (block_start_careful_in_history true (table600 (fun _ => 0)) (640 + 64 * 400) fitting400) as (A & E & H).
  - apply table600_placed.
  - split; [reflexivity | vm_compute; discriminate].
  - reflexivity.
  - vm_compute. discriminate.
  - change (_reserved_start (table600 (fun _ => 0))) with 640 in E. rewrite E in Hok |- *. cbv zeta. split; [exact Hok |].
    exact (H Hok).
Defined.

(** C18.  Splitting a block at [m] whose prefix starts [k] cards, [k] less than the suffix starts,
    with [15 * 16 ^ i < k < 16 ^ (i + 1)] for some positive [i], overwrites entries that had
    been set right: the checks of the table fail, and without them the search that only
    reads the table leads from a card of the suffix to the start of the prefix. *)
Theorem split_block_misleads A s m t end_ :
  placed_array A -> in_region A s t -> s < m < t -> records A s t -> _offset_array A 0 = 0 -> t <= end_ <= _reserved_end A ->
  fits (first_card A m - first_card A s) (card A (t - 1) + 1 - first_card A m) = false ->
  split_block (_reserved_start A) true A s (t - s) (m - s) = None /\
  exists A' c, split_block (_reserved_start A) false A s (t - s) (m - s) = Some A' /\
    m <= _reserved_start A + N_words * c < t /\
    block_start_careful (_reserved_start A) end_ A' None (_reserved_start A + N_words * c) 212 = Some s.
Proof.
  intros HA Hreg Hm HR H0 He Hfit. split; [by apply misfit_verify | by apply misfit_careful].
Qed.

(** A table that records one block of 600 cards, which is split after 250 cards. *)
Definition one_block : shared_array := table600 (fun c => if c =? 0 then 0 else 64 + log16 c).

Lemma one_block_records : records one_block 640 (640 + 64 * 600).
Proof.
  intros c Hc. unfold entry_for. change (first_card one_block 640) with 0 in *. simpl.
  destruct (Z.eqb_spec c 0) as [->|]; [done |]. by rewrite Z.sub_0_r.
Qed.

Lemma split_block_misleads_witness :
  split_block 640 true one_block 640 (64 * 600) (64 * 250) = None /\
  exists A' c, split_block 640 false one_block 640 (64 * 600) (64 * 250) = Some A' /\
    640 + 64 * 250 <= 640 + N_words * c < 640 + 64 * 600 /\
    block_start_careful 640 (640 + 64 * 600) A' None (640 + N_words * c) 212 = Some 640.
Proof.
  apply (split_block_misleads one_block 640 (640 + 64 * 250) (640 + 64 * 600) (640 + 64 * 600)).
  - apply table600_placed.
  - split; [split; [vm_compute; discriminate | reflexivity] | vm_compute; discriminate].
  - split; reflexivity.
  - exact one_block_records.
  - reflexivity.
  - split; vm_compute; discriminate.
  - vm_compute. reflexivity.
Defined.

End BlockOffsetHistory.
