(* ===== verification/BlockOffsetContig.v ===== *)
(** The block offset table of a contiguous space: allocation from the bottom up. *)
From S2P Require Import Prelude GlobalDefinitions BlockOffsetTable BlockOffsetTheorems BlockOffsetSplit BlockOffsetSearch.
Import GlobalDefinitions BlockOffsetTable BlockOffsetTheorems BlockOffsetSplit BlockOffsetSearch.

Module BlockOffsetContig.

(** Blocks of the sizes [l] are allocated one after another from [p]. *)
Fixpoint alloc_blocks (T : contig) (p : Z) (l : list Z) : option contig :=
  match l with
  | [] => Some T
  | n :: l => T ← alloc_block T p (p + n); alloc_blocks T (p + n) l
  end.

(** The cards that a block starts: they lead back to the first of them, or to the second if
    that leads to the first (the block at the bottom is recorded from its second card on). *)
Definition chained (A : shared_array) (s t : Z) : Prop :=
  exists g, first_card A s <= g <= first_card A s + 1 /\
  forall c, first_card A s <= c <= card A (t - 1) ->
    _offset_array A c =
    (if c =? first_card A s then _reserved_start A + 64 * c - s else if c <=? g then 64 else 64 + log16 (c - g)).

#[export] Instance chained_local : Local chained.
Proof.
  split.
  - intros A A' g s t HU Hg (p & Hp & HR). exists p. destruct (updated_at _ _ _ s (t - 1) 0 HU) as (E1 & E2 & E3 & _).
    rewrite E1, E2, E3. split; [done |]. intros c Hc. destruct (updated_at _ _ _ s (t - 1) c HU) as (_ & _ & _ & ->).
    rewrite Hg by done. by apply HR.
  - intros A s m t Hmt (p & Hp & HR). exists p. split; [done |]. intros c Hc.
    pose proof (card_mono A (m - 1) (t - 1)). apply HR. lia.
Qed.

(** ** Allocation *)

Record allocated_to (T : contig) (l : list Z) : Prop := {
  a_placed : placed_array (c_array T);
  a_bottom : c_bottom T = _reserved_start (c_array T);
  a_nonnull : 0 < _reserved_start (c_array T);
  a_positive : positive l;
  a_threshold : _next_offset_threshold T = _reserved_start (c_array T) + _next_offset_index T * 64;
  a_index : 1 <= _next_offset_index T <= cards (c_array T);
  a_top : c_bottom T + total l <= _next_offset_threshold T;
  a_last : _next_offset_threshold T - 64 < c_bottom T + total l \/ _next_offset_index T = 1;
  a_zero : _offset_array (c_array T) 0 = 0;
  a_chained : all_blocks chained (c_array T) l }.

Lemma new_block_chained T l t :
  allocated_to T l -> c_bottom T + total l < t <= _next_offset_threshold T -> chained (c_array T) (c_bottom T + total l) t.
Proof.
  intros [HA Hb Hnn Hpos Hth Hi Htop Hlast H0 HC] Ht. set (s := c_bottom T + total l) in *. pose proof (total_nonneg l Hpos).
  exists (first_card (c_array T) s). split; [lia |]. intros c Hc.
  assert (c = 0 /\ s = _reserved_start (c_array T) /\ first_card (c_array T) s = 0) as (-> & -> & ->).
  { unfold first_card, card in *. rewrite Hth in *. Z.to_euclidean_division_equations. lia. }
  simpl. lia.
Qed.

Lemma entries_set_true A from last :
  (forall c, from <= c <= last -> 0 < _offset_array A c <= 77) -> entries_set A from last = true.
Proof.
  intros H. unfold entries_set. apply forallb_forall. intros k Hk. apply in_seq in Hk. cbv zeta.
  specialize (H (from + Z.of_nat k) ltac:(lia)). unfold N_words, N_powers. apply andb_true_intro. split; [apply Z.ltb_lt | apply Z.leb_le]; lia.
Qed.

(** The entries after a block at [s] was recorded from card [i] on. *)
Definition marked (A : shared_array) (i last s c : Z) : Z :=
  if c =? i then _reserved_start A + i * 64 - s else led A i last c.

Lemma marked_first A i last s : marked A i last s i = _reserved_start A + i * 64 - s.
Proof. unfold marked. by rewrite Z.eqb_refl. Qed.

Lemma mark_from_spec A i last s :
  placed_array A -> 0 <= i <= last -> last < cards A -> 0 <= _reserved_start A + i * 64 - s <= 64 ->
  exists A', (A1 ← set_offset_between A i (_reserved_start A + i * 64) s false;
              if i + 1 <=? last then
                rem_st ← address_for_index A1 (i + 1); rem_end ← address_for_index A1 last;
                set_remainder_to_point_to_start (_reserved_start A) A1 rem_st (rem_end + N_words)
              else Some A1) = Some A' /\ updated A A' (marked A i last s).
Proof.
  intros HA Hi Hl Hd. destruct (set_offset_between_spec A i (_reserved_start A + i * 64) s false) as (A1 & -> & HU1);
    [done | lia | lia | done |]. cbn [mbind option_bind]. destruct (updated_card _ _ _ 0 HU1) as (_ & _ & Ec).
  pose proof (updated_placed _ _ _ HU1 HA) as HA1. pose proof HU1 as (E1 & E2 & E3 & G1).
  destruct (Z.leb_spec (i + 1) last).
  - rewrite (address_for_card A1 HA1 (i + 1)) by lia. cbn [mbind option_bind]. rewrite (address_for_card A1 HA1 last) by lia.
    cbn [mbind option_bind].
    destruct (set_remainder_spec (_reserved_start A) A1 i last) as (A' & E & HU'); [done | done | lia | lia | rewrite G1, Z.eqb_refl; lia |].
    replace (_reserved_start A1 + 64 * (i + 1)) with (_reserved_start A1 + 64 * i + N_words) by (unfold N_words; lia).
    exists A'. split; [done |]. eapply updated_ext; [| by eapply updated_trans]. intros c. unfold marked, led. rewrite G1.
    destruct (Z.eqb_spec c i); [| done]. subst c. by rewrite (proj2 (Z.leb_gt _ _)) by lia.
  - exists A1. split; [done |]. eapply updated_ext, HU1. intros c. unfold marked, led.
    destruct (Z.eqb_spec c i), (Z.leb_spec (i + 1) c), (Z.leb_spec c last); cbn [andb]; (done || lia).
Qed.

Lemma alloc_block_work_spec T s t :
  placed_array (c_array T) -> c_bottom T = _reserved_start (c_array T) -> 0 < s ->
  _next_offset_threshold T = _reserved_start (c_array T) + _next_offset_index T * 64 -> 1 <= _next_offset_index T ->
  _reserved_start (c_array T) <= s -> _next_offset_threshold T - 64 <= s <= _next_offset_threshold T ->
  _next_offset_threshold T < t <= _reserved_end (c_array T) ->
  exists A', updated (c_array T) A' (marked (c_array T) (_next_offset_index T) (card (c_array T) (t - 1)) s) /\
    alloc_block_work T s t =
    Some (mkContig A' (c_bottom T) (c_end T) (_reserved_start (c_array T) + 64 * card (c_array T) (t - 1) + N_words)
            (card (c_array T) (t - 1) + 1)).
Proof.
  intros HA Hb Hs0 Hth Hi Hs Hd Ht. unfold alloc_block_work. cbv zeta. set (A := c_array T) in *. set (i := _next_offset_index T) in *.
  rewrite Hth in *. pose proof (card_range A HA (t - 1) ltac:(lia)).
  assert (i <= card A (t - 1)) as Hic by (unfold card; Z.to_euclidean_division_equations; lia).
  rewrite (proj2 (Z.eqb_neq s 0)), !(proj2 (Z.ltb_lt _ _)), !(proj2 (Z.leb_le _ _)) by (unfold N_words; lia).
  unfold N_words at 1. rewrite Z.eqb_refl. cbn [andb negb].
  destruct (mark_from_spec A i (card A (t - 1)) s) as (A' & E & HU); [done | lia | lia | lia |].
  destruct (set_offset_between A i (_reserved_start A + i * 64) s false) as [A1|] eqn:E1; [| done]. cbn [mbind option_bind] in E |- *.
  assert (updated A A1 (_offset_array A1)) as HU1.
  { unfold set_offset_between, set_offset in E1. destruct (_ && _); [| done]. destruct (offset_array A i); [| done]. simpl in E1.
    by simplify_eq. }
  pose proof (updated_placed _ _ _ HU1 HA) as HA1. pose proof HU1 as (G1 & G2 & _).
  rewrite (index_for_card A1 HA1 (t - 1)) by lia. cbn [mbind option_bind].
  destruct (updated_card _ _ _ (t - 1) HU1) as (-> & _ & _). rewrite Hb, E. cbn [mbind option_bind].
  pose proof (updated_placed _ _ _ HU HA) as HA'. pose proof HU as (F1 & F2 & _ & F4). destruct (updated_card _ _ _ s HU) as (Ecs & _ & Ec).
  rewrite (address_for_card A' HA' (card A (t - 1))) by lia. cbn [mbind option_bind].
  assert (0 <= card A s < cards A) as Hcs by (apply card_range; [done | lia]).
  rewrite (index_for_card A' HA' s) by lia. cbn [mbind option_bind]. rewrite Ecs. rewrite (address_for_card A' HA' (card A s)) by lia.
  cbn [mbind option_bind]. rewrite (offset_array_card A' HA' i) by lia. cbn [mbind option_bind _next_offset_threshold].
  rewrite F4, F1, marked_first. unfold N_words.
  rewrite (proj2 (Z.leb_le t _)) by (unfold card; Z.to_euclidean_division_equations; lia). cbn [andb].
  assert ((_reserved_start A + i * 64 - s =? 0) && (s =? _reserved_start A + 64 * card A s)
          || (0 <? _reserved_start A + i * 64 - s) && (_reserved_start A + i * 64 - s <=? 64) = true) as ->.
  { rewrite orb_true_iff, !andb_true_iff, !Z.eqb_eq, Z.ltb_lt, Z.leb_le. unfold card. Z.to_euclidean_division_equations. lia. }
  cbn [andb]. rewrite entries_set_true; [by exists A' |]. intros c Hc. rewrite F4. unfold marked, led.
  rewrite (proj2 (Z.eqb_neq c i)), (proj2 (Z.leb_le _ c)), (proj2 (Z.leb_le c _)) by lia. cbn [andb].
  pose proof (cards_small A HA). pose proof (log16_nonneg (c - i)).
  pose proof (log16_small (c - i) ltac:(change (16 ^ 14) with (2 ^ 56); lia)). lia.
Qed.

Lemma marked_chained A A' i last s t :
  updated A A' (marked A i last s) -> last = card A (t - 1) -> 1 <= i -> _reserved_start A <= s -> _offset_array A 0 = 0 ->
  _reserved_start A + i * 64 - 64 < s <= _reserved_start A + i * 64 \/ s = _reserved_start A /\ i = 1 -> chained A' s t.
Proof.
  intros HU El Hi Hs H0 Hcase. exists i. destruct (updated_at _ _ _ s (t - 1) 0 HU) as (E1 & E2 & E3 & _). rewrite E1, E2, E3.
  assert (first_card A s = i \/ s = _reserved_start A /\ i = 1 /\ first_card A s = 0) as Hf
    by (unfold first_card; Z.to_euclidean_division_equations; lia).
  split; [lia |]. intros c Hc. destruct HU as (_ & _ & _ & ->). unfold marked, led.
  destruct (Z.eqb_spec c i), (Z.eqb_spec c (first_card A s)), (Z.leb_spec (i + 1) c), (Z.leb_spec c last), (Z.leb_spec c i);
    cbn [andb]; try (done || lia).
  assert (c = 0) as -> by lia. lia.
Qed.

Lemma allocated_snoc T l n A' thr idx :
  allocated_to T l -> 0 < n -> placed_array A' -> _reserved_start A' = _reserved_start (c_array T) -> cards A' = cards (c_array T) ->
  thr = _reserved_start A' + idx * 64 -> 1 <= idx <= cards A' -> c_bottom T + total l + n <= thr ->
  thr - 64 < c_bottom T + total l + n \/ idx = 1 -> _offset_array A' 0 = 0 -> all_blocks chained A' l ->
  chained A' (c_bottom T + total l) (c_bottom T + total l + n) ->
  allocated_to (mkContig A' (c_bottom T) (c_end T) thr idx) (l ++ [n]).
Proof.
  intros [HA Hb Hnn Hpos Hth Hi Htop Hlast H0 HC] Hn HA' Es Ec Ethr Hidx Ht Hl H0' HC' Hnew.
  split; cbn [c_array c_bottom _next_offset_threshold _next_offset_index]; rewrite ?total_sizes_app; simpl.
  - done.
  - congruence.
  - by rewrite Es.
  - apply positive_app. split; [done |]. by constructor.
  - done.
  - done.
  - lia.
  - lia.
  - done.
  - intros s t Hin. rewrite blocks_app, elem_of_app in Hin. destruct Hin as [Hin|Hin]; [by apply HC' |].
    simpl in Hin. apply list_elem_of_singleton in Hin as [= -> ->]. by rewrite Es, <- Hb.
Qed.

Lemma alloc_block_step T l n :
  allocated_to T l -> 0 < n -> c_bottom T + total l + n <= _reserved_end (c_array T) ->
  exists T', alloc_block T (c_bottom T + total l) (c_bottom T + total l + n) = Some T' /\ allocated_to T' (l ++ [n]) /\
    c_bottom T' = c_bottom T /\ c_end T' = c_end T /\ _reserved_end (c_array T') = _reserved_end (c_array T).
Proof.
  intros HT Hn Hend. pose proof HT as [HA Hb Hnn Hpos Hth Hi Htop Hlast H0 HC]. unfold alloc_block.
  set (s := c_bottom T + total l) in *. pose proof (total_nonneg l Hpos).
  destruct (Z.ltb_spec (_next_offset_threshold T) (s + n)) as [Hlt|Hge].
  - destruct (alloc_block_work_spec T s (s + n)) as (A' & HU & E); [done | done | lia | done | lia | lia | lia | lia |].
    rewrite E. eexists. split; [done |]. pose proof (updated_placed _ _ _ HU HA) as HA'. destruct (updated_card _ _ _ 0 HU) as (_ & _ & Ec).
    pose proof HU as (F1 & F2 & _ & F4). pose proof (card_range (c_array T) HA (s + n - 1) ltac:(lia)).
    set (A := c_array T) in *. set (i := _next_offset_index T) in *. set (last := card A (s + n - 1)) in *.
    split; [| done]. apply allocated_snoc; try (done || lia); fold s.
    + unfold N_words. lia.
    + unfold last, card, N_words. Z.to_euclidean_division_equations. lia.
    + unfold last, card, N_words. Z.to_euclidean_division_equations. lia.
    + rewrite F4. unfold marked, led. rewrite (proj2 (Z.eqb_neq 0 i)), (proj2 (Z.leb_gt _ 0)) by lia. done.
    + intros s' t' Hin. rewrite F1 in Hin. apply (local A A' (marked A i last s)); [done | | by apply HC].
      intros c Hc. apply blocks_bounds in Hin; [| done]. unfold marked, led.
      assert (c < i) by (unfold card in Hc; Z.to_euclidean_division_equations; lia).
      by rewrite (proj2 (Z.eqb_neq c i)), (proj2 (Z.leb_gt _ c)) by lia.
    + apply (marked_chained A A' i last s (s + n)); (done || lia).
  - exists T. split; [done |]. split; [| done]. destruct T as [A b e thr i]. simpl in *.
    apply (allocated_snoc (mkContig A b e thr i)); simpl; try (done || lia).
    apply (new_block_chained _ _ _ HT). simpl. lia.
Qed.

Lemma alloc_blocks_spec l' : forall T l,
  allocated_to T l -> positive l' -> c_bottom T + total l + total l' <= _reserved_end (c_array T) ->
  exists T', alloc_blocks T (c_bottom T + total l) l' = Some T' /\ allocated_to T' (l ++ l') /\
    c_bottom T' = c_bottom T /\ c_end T' = c_end T /\ _reserved_end (c_array T') = _reserved_end (c_array T).
Proof.
  induction l' as [|n l' IH]; intros T l HT Hpos Hend; cbn [alloc_blocks]; [exists T; by rewrite app_nil_r |].
  apply Forall_cons in Hpos as [Hn Hpos]. simpl in Hend. pose proof (total_nonneg l' Hpos).
  destruct (alloc_block_step T l n HT Hn ltac:(lia)) as (T1 & -> & HT1 & Eb & Ee & Er). cbn [mbind option_bind].
  destruct (IH T1 (l ++ [n]) HT1 Hpos) as (T' & E & HT' & Eb' & Ee' & Er'); [rewrite total_sizes_app, Eb, Er; simpl; lia |].
  rewrite total_sizes_app, Eb in E. simpl in E. replace (c_bottom T + (total l + (n + 0))) with (c_bottom T + total l + n) in E by lia.
  exists T'. rewrite <- app_assoc in HT'. split_and!; (done || congruence).
Qed.

Lemma initial_allocated A end_ :
  placed_array A -> 0 < _reserved_start A -> 1 < cards A ->
  exists T, (T ← initialize_threshold (mkContig A (_reserved_start A) end_ 0 0); zero_bottom_entry T) = Some T /\
    allocated_to T [] /\ c_bottom T = _reserved_start A /\ c_end T = end_ /\ _reserved_end (c_array T) = _reserved_end A.
Proof.
  intros HA Hs Hc. unfold initialize_threshold, zero_bottom_entry. cbn [c_array c_bottom c_end].
  assert (_reserved_start A <= _reserved_start A < _reserved_end A) as Hin
    by (unfold cards in Hc; Z.to_euclidean_division_equations; lia).
  rewrite !index_for_card by done. cbn [mbind option_bind]. assert (card A (_reserved_start A) = 0) as -> by (unfold card; by rewrite Z.sub_diag).
  rewrite address_for_card by (done || lia). cbn [mbind option_bind c_array c_bottom c_end].
  rewrite index_for_card by done. cbn [mbind option_bind]. assert (card A (_reserved_start A) = 0) as -> by (unfold card; by rewrite Z.sub_diag).
  unfold set_offset. rewrite offset_array_card by (done || lia). cbn [mbind option_bind negb orb _next_offset_threshold _next_offset_index].
  eexists. split; [done |]. split_and!; [| done..]. split; simpl; try (done || lia).
  - eapply updated_placed; [| exact HA]. done.
  - by constructor.
  - split; [lia |]. change (1 <= cards A). lia.
  - intros s t Hst. by apply elem_of_nil in Hst.
Qed.

(** ** The search *)

(** Back over the cards of a block. *)
Lemma back_powers_spec A sp_bottom s t fuel : forall c,
  placed_array A -> in_region A s t -> chained A s t -> sp_bottom <= _reserved_start A ->
  first_card A s <= c <= card A (t - 1) -> c < Z.of_nat fuel ->
  exists c', back_powers A sp_bottom (_reserved_start A + 64 * c) c fuel = Some (_reserved_start A + 64 * c', c') /\
    first_card A s <= c' <= c /\ _offset_array A c' <= 64.
Proof.
  induction fuel as [|fuel IH]; intros c HA Hreg HC Hsb Hc Hf; pose proof Hreg as [Hs Ht]; destruct (first_card_spec A s ltac:(lia)) as (_ & Hfs & Hfc); [lia |].
  pose proof (card_range A HA (t - 1) ltac:(lia)). cbn [back_powers]. rewrite offset_array_card by (done || lia).
  cbn [mbind option_bind]. pose proof HC as (g & Hg & HE). specialize (HE c Hc). unfold N_words.
  destruct (Z.ltb_spec 64 (_offset_array A c)) as [Hlt|Hge]; [| exists c; split_and!; (done || lia)].
  destruct (Z.eqb_spec c (first_card A s)); [lia |]. destruct (Z.leb_spec c g); [lia |]. pose proof (cards_small A HA).
  pose proof (log16_spec (c - g) ltac:(lia)). pose proof (log16_small (c - g) ltac:(change (16 ^ 14) with (2 ^ 56); lia)).
  rewrite HE, cards_back by (unfold N_words; lia). cbn [mbind option_bind]. cbv zeta. unfold N_words.
  replace (64 + log16 (c - g) - 64) with (log16 (c - g)) by lia. set (w := 16 ^ log16 (c - g)) in *.
  assert (0 < w) by (apply Z.pow_pos_nonneg; lia). rewrite (proj2 (Z.leb_le sp_bottom _)) by lia.
  replace (_reserved_start A + 64 * c - 64 * w) with (_reserved_start A + 64 * (c - w)) by lia.
  destruct (IH (c - w)) as (c' & -> & Hc' & Ho); [done | done | done | done | lia | lia |]. exists c'. split_and!; (done || lia).
Qed.

Lemma back_single_spec A sp_bottom s t fuel : forall c,
  placed_array A -> in_region A s t -> chained A s t -> sp_bottom <= _reserved_start A ->
  first_card A s <= c <= card A (t - 1) -> _offset_array A c <= 64 -> c < Z.of_nat fuel ->
  exists q offset, back_single A sp_bottom (_reserved_start A + 64 * c) c fuel = Some (q, offset) /\ q - offset = s.
Proof.
  induction fuel as [|fuel IH]; intros c HA Hreg HC Hsb Hc Ho Hf; pose proof Hreg as [Hs Ht]; destruct (first_card_spec A s ltac:(lia)) as (_ & Hfs & Hfc); [lia |].
  pose proof (card_range A HA (t - 1) ltac:(lia)). cbn [back_single]. rewrite offset_array_card by (done || lia).
  cbn [mbind option_bind]. pose proof HC as (g & Hg & HE). pose proof (HE c Hc) as HEc. unfold N_words.
  destruct (Z.eqb_spec c (first_card A s)) as [->|Hne].
  - rewrite (proj2 (Z.eqb_neq _ _)), (proj2 (Z.ltb_lt _ _)) by lia. do 2 eexists. split; [done |]. lia.
  - pose proof (log16_nonneg (c - g)). rewrite (proj2 (Z.eqb_eq _ _)) by (destruct (c <=? g); lia).
    rewrite (proj2 (Z.leb_le sp_bottom _)) by lia.
    replace (_reserved_start A + 64 * c - 64) with (_reserved_start A + 64 * (c - 1)) by lia.
    apply IH; try (done || lia). rewrite HE by lia.
    destruct (Z.eqb_spec (c - 1) (first_card A s)); [lia |]. destruct (Z.leb_spec (c - 1) g); [lia |].
    destruct (Z.leb_spec c g); [lia |]. pose proof (log16_mono (c - 1 - g) (c - g) ltac:(lia)). lia.
Qed.

(** The blocks of the space: those allocated, and the rest of it. *)
Definition with_rest (T : contig) (l : list Z) : list Z :=
  let rest := c_end T - (c_bottom T + total l) in if 0 <? rest then l ++ [rest] else l.

Lemma with_rest_spec T l :
  positive l -> c_bottom T + total l <= c_end T -> positive (with_rest T l) /\ (length (with_rest T l) <= S (length l))%nat /\
  c_bottom T + total (with_rest T l) = c_end T /\ (forall s t, (s, t) ∈ blocks (c_bottom T) l -> (s, t) ∈ blocks (c_bottom T) (with_rest T l)).
Proof.
  intros Hpos Hend. unfold with_rest. cbv zeta. destruct (Z.ltb_spec 0 (c_end T - (c_bottom T + total l))).
  - rewrite total_sizes_app, length_app. simpl. split_and!; [| lia | lia |].
    + apply positive_app. split; [done |]. by constructor.
    + intros s t Hin. rewrite blocks_app, elem_of_app. by left.
  - split_and!; (done || lia).
Qed.

Lemma contig_back T l addr fuel :
  allocated_to T l -> c_bottom T + total l <= c_end T -> c_end T <= _reserved_end (c_array T) -> c_bottom T <= addr < c_end T ->
  cards (c_array T) < Z.of_nat fuel ->
  exists s t q offset, (s, t) ∈ blocks (c_bottom T) (with_rest T l) /\ s <= addr /\ q - offset = s /\
    ('(q, index) ← back_powers (c_array T) (c_bottom T) (_reserved_start (c_array T) + 64 * Z.min (card (c_array T) addr) (_next_offset_index T - 1))
       (Z.min (card (c_array T) addr) (_next_offset_index T - 1)) fuel;
     back_single (c_array T) (c_bottom T) q index fuel) = Some (q, offset).
Proof.
  intros HT Hend Hres Ha Hf. pose proof HT as [HA Hb Hnn Hpos Hth Hi Htop Hlast H0 HC]. set (A := c_array T) in *.
  destruct (with_rest_spec T l Hpos Hend) as (HposR & _ & HtotR & Hsub).
  pose proof (card_range A HA addr ltac:(lia)). set (c := Z.min (card A addr) (_next_offset_index T - 1)).
  assert (_reserved_start A + 64 * c <= addr) by (unfold c, card; Z.to_euclidean_division_equations; lia).
  destruct (Z.eqb_spec c 0) as [Ec|Hc0].
  - destruct (block_of (with_rest T l) (c_bottom T) (c_bottom T) HposR ltac:(lia)) as (s & t & Hin & Hst).
    pose proof (blocks_bounds _ _ _ _ HposR Hin). exists s, t, (_reserved_start A), 0. split_and!; [done | lia | lia |].
    rewrite Ec. destruct fuel as [|fuel]; [lia |]. cbn [back_powers back_single]. rewrite offset_array_card by (done || lia).
    cbn [mbind option_bind]. rewrite H0. change (N_words <? 0) with false. cbn [mbind option_bind].
    rewrite offset_array_card by (done || lia). cbn [mbind option_bind]. rewrite H0. simpl. do 2 f_equal. lia.
  - assert (_reserved_start A + 64 * c < c_bottom T + total l) as Hct by lia.
    destruct (block_of l (c_bottom T) (_reserved_start A + 64 * c) Hpos ltac:(lia)) as (s & t & Hin & Hst).
    pose proof (blocks_bounds _ _ _ _ Hpos Hin). assert (in_region A s t) as Hreg by (split; lia).
    assert (first_card A s <= c <= card A (t - 1)) as Hcc by (unfold first_card, card; Z.to_euclidean_division_equations; lia).
    assert (chained A s t) as Hch by (apply HC; by rewrite <- Hb).
    destruct (back_powers_spec A (c_bottom T) s t fuel c) as (c' & -> & Hc' & Ho); [done | done | done | lia | done | lia |].
    cbn [mbind option_bind].
    destruct (back_single_spec A (c_bottom T) s t fuel c') as (q & offset & -> & Eq); [done | done | done | lia | lia | done | lia |].
    exists s, t, q, offset. split_and!; [by apply Hsub | lia | done | done].
Qed.

Lemma contig_search T l s t addr block_size fuel :
  allocated_to T l -> c_bottom T + total l <= c_end T -> c_end T <= _reserved_end (c_array T) ->
  (s, t) ∈ blocks (c_bottom T) (with_rest T l) -> s <= addr < t ->
  (forall s t, (s, t) ∈ blocks (c_bottom T) (with_rest T l) -> block_size s = t - s) ->
  (Z.to_nat (cards (c_array T)) + S (length l) < fuel)%nat -> contig_block_start T (c_bottom T) block_size addr fuel = Some s.
Proof.
  intros HT Hend Hres Hin Ha Hbs Hf. pose proof HT as [HA Hb Hnn Hpos Hth Hi Htop Hlast H0 HC].
  destruct (with_rest_spec T l Hpos Hend) as (HposR & HlenR & HtotR & _). pose proof (blocks_bounds _ _ _ _ HposR Hin).
  pose proof (card_range _ HA addr ltac:(lia)). unfold contig_block_start. cbv zeta.
  rewrite (offset_array_card _ HA 0) by lia. cbn [mbind option_bind]. rewrite H0. change (0 =? 0) with true.
  rewrite (proj2 (Z.leb_le _ addr)), (proj2 (Z.ltb_lt addr _)) by lia. cbn [andb].
  rewrite (index_for_card _ HA addr) by lia. cbn [mbind option_bind]. rewrite MIN2_min.
  rewrite (address_for_card _ HA) by lia. cbn [mbind option_bind].
  destruct (contig_back T l addr fuel) as (s1 & t1 & q & offset & Hin1 & Hle & Eq & E); [done | done | done | lia | lia |].
  destruct (back_powers _ _ _ _ _) as [[q1 i1]|]; [| done]. cbn [mbind option_bind] in E |- *. rewrite E. cbn [mbind option_bind].
  rewrite Eq. apply (forward_from block_size addr (with_rest T l) (c_bottom T) s1 t1 s t); (done || lia).
Qed.

(** C22.  In every history of a contiguous space, its threshold initialized, its first entry
    cleared and blocks allocated one after another from the bottom, every update succeeds
    without a failed assertion, and the search then finds the start of the block of every
    address of the space, also in the rest that is not allocated. *)
Theorem contig_block_start_in_history A end_ l :
  placed_array A -> 0 < _reserved_start A -> 1 < cards A -> positive l ->
  _reserved_start A + total l <= end_ <= _reserved_end A ->
  exists T, (T ← initialize_threshold (mkContig A (_reserved_start A) end_ 0 0);
             T ← zero_bottom_entry T;
             alloc_blocks T (_reserved_start A) l) = Some T /\
  forall s t addr block_size,
    (s, t) ∈ blocks (_reserved_start A) (with_rest T l) -> s <= addr < t ->
    (forall s t, (s, t) ∈ blocks (_reserved_start A) (with_rest T l) -> block_size s = t - s) ->
    contig_block_start T (_reserved_start A) block_size addr (S (Z.to_nat (cards A) + S (length l))) = Some s.
Proof.
  intros HA Hs Hc Hpos Hend. destruct (initial_allocated A end_ HA Hs Hc) as (T0 & E0 & HT0 & Eb0 & Ee0 & Er0).
  destruct (initialize_threshold _) as [T1|]; [| done]. cbn [mbind option_bind] in E0 |- *. rewrite E0. cbn [mbind option_bind].
  destruct (alloc_blocks_spec l T0 [] HT0 Hpos) as (T & E & HT & Eb & Ee & Er); [simpl; lia |].
  simpl in E. rewrite Z.add_0_r, Eb0 in E. rewrite E. exists T. split; [done |]. intros s t addr block_size Hin Ha Hbs.
  simpl in HT. assert (c_bottom T = _reserved_start A) as Ebot by congruence. rewrite <- Ebot in *.
  assert (cards (c_array T) = cards A) as Ecards by (pose proof (a_bottom T l HT); unfold cards; congruence).
  rewrite <- Ecards. apply (contig_search T l s t); (done || congruence || lia).
Qed.

Lemma contig_block_start_in_history_witness :
  let A := table600 (fun _ => 0) in
  let l := [10; 700; 64 * 300 + 5; 3; 64] in
  positive l /\
  exists T, (T ← initialize_threshold (mkContig A 640 (640 + 64 * 600) 0 0); T ← zero_bottom_entry T; alloc_blocks T 640 l) = Some T /\
  forall s t addr block_size,
    (s, t) ∈ blocks 640 (with_rest T l) -> s <= addr < t ->
    (forall s t, (s, t) ∈ blocks 640 (with_rest T l) -> block_size s = t - s) ->
    contig_block_start T 640 block_size addr 607 = Some s.
Proof.
  assert (positive [10; 700; 64 * 300 + 5; 3; 64]) as Hl by (repeat constructor).
  split; [exact Hl |].
  apply (contig_block_start_in_history (table600 (fun _ => 0)) (640 + 64 * 600) [10; 700; 64 * 300 + 5; 3; 64]).
  - apply table600_placed.
  - reflexivity.
  - reflexivity.
  - exact Hl.
  - split; vm_compute; discriminate.
Defined.

End BlockOffsetContig.
