(* ===== verification/FreeDictionary.v ===== *)
(** The dictionary of free blocks of metaspace (memory/binaryTreeDictionary.hpp and .cpp,
    with memory/freeList.hpp and .cpp and the links of memory/metachunk.hpp): a binary
    search tree of free lists by size, kept in the free chunks themselves.

    The memory maps the address of a chunk to its fields; 0 is [NULL].  The [TreeList] of a
    node is embedded in the first chunk of its list, so a pointer to one is the address of
    that chunk.  [None] is a failed assertion or the use of an address that is no chunk.
    Statements under [debug_only] are executed, as the assertions are; the tests of
    [FLSVerifyDictionary] and the assertions on locks are left out.  Loops get as much
    fuel as there are chunks. *)
From S2P Require Import Prelude GlobalDefinitions.
Import GlobalDefinitions.

Module FreeDictionary.

Definition size_t (z : Z) : Z := wrap 64 z.

Definition assert (b : bool) : option unit := if b then Some tt else None.

Record TreeList : Set := mkTL {
  _parent : Z; _left : Z; _right : Z; _head : Z; _tail : Z; _size : Z; _count : Z }.

Record TreeChunk : Set := mkTC {
  _word_size : Z; _prev : Z; _next : Z; _list : Z; _embedded_list : TreeList }.

(** Fields changed. *)
Definition with_prev (v : Z) (c : TreeChunk) : TreeChunk := mkTC (_word_size c) v (_next c) (_list c) (_embedded_list c).
Definition with_next (v : Z) (c : TreeChunk) : TreeChunk := mkTC (_word_size c) (_prev c) v (_list c) (_embedded_list c).
Definition with_list (v : Z) (c : TreeChunk) : TreeChunk := mkTC (_word_size c) (_prev c) (_next c) v (_embedded_list c).
Definition with_parent (v : Z) (l : TreeList) : TreeList := mkTL v (_left l) (_right l) (_head l) (_tail l) (_size l) (_count l).
Definition with_left (v : Z) (l : TreeList) : TreeList := mkTL (_parent l) v (_right l) (_head l) (_tail l) (_size l) (_count l).
Definition with_right (v : Z) (l : TreeList) : TreeList := mkTL (_parent l) (_left l) v (_head l) (_tail l) (_size l) (_count l).
Definition with_head (v : Z) (l : TreeList) : TreeList := mkTL (_parent l) (_left l) (_right l) v (_tail l) (_size l) (_count l).
Definition with_tail (v : Z) (l : TreeList) : TreeList := mkTL (_parent l) (_left l) (_right l) (_head l) v (_size l) (_count l).
Definition with_size (v : Z) (l : TreeList) : TreeList := mkTL (_parent l) (_left l) (_right l) (_head l) (_tail l) v (_count l).
Definition with_count (v : Z) (l : TreeList) : TreeList := mkTL (_parent l) (_left l) (_right l) (_head l) (_tail l) (_size l) v.

Notation memory := (gmap Z TreeChunk).

(** Reads and writes of the fields of a chunk and of the list embedded in it. *)
Definition update (h : memory) (p : Z) (f : TreeChunk -> TreeChunk) : option memory :=
  c ← h !! p; Some (<[p := f c]> h).

Definition on_list (f : TreeList -> TreeList) (c : TreeChunk) : TreeChunk :=
  mkTC (_word_size c) (_prev c) (_next c) (_list c) (f (_embedded_list c)).

Definition update_list (h : memory) (p : Z) (f : TreeList -> TreeList) : option memory := update h p (on_list f).

Definition list_at (h : memory) (p : Z) : option TreeList := c ← h !! p; Some (_embedded_list c).

(** ** Links of chunks (Metabase) *)

Definition set_next (h : memory) (p v : Z) : option memory :=
  _ ← assert (negb (v =? p));
  update h p (with_next v).
Definition set_prev (h : memory) (p v : Z) : option memory :=
  _ ← assert (negb (v =? p));
  update h p (with_prev v).

Definition link_after (h : memory) (p ptr : Z) : option memory :=
  h ← set_next h p ptr;
  if ptr =? 0 then Some h else set_prev h ptr p.

Definition set_list (h : memory) (p v : Z) : option memory :=
  update h p (with_list v).

(** ** Free lists (FreeList) *)

Definition size_is (h : memory) (tl v : Z) : option unit :=
  if v =? 0 then Some tt else c ← h !! v; l ← list_at h tl; assert (_word_size c =? _size l).

Definition set_head (h : memory) (tl v : Z) : option memory :=
  h ← update_list h tl (with_head v);
  _ ← size_is h tl v;
  Some h.
Definition set_tail (h : memory) (tl v : Z) : option memory :=
  h ← update_list h tl (with_tail v);
  _ ← size_is h tl v;
  Some h.

Definition link_head (h : memory) (tl v : Z) : option memory :=
  h ← set_head h tl v;
  if v =? 0 then Some h else set_prev h v 0.
Definition link_tail (h : memory) (tl v : Z) : option memory :=
  h ← set_tail h tl v;
  if v =? 0 then Some h else set_next h v 0.

Definition set_count (h : memory) (tl n : Z) : option memory :=
  update_list h tl (with_count n).
Definition set_size (h : memory) (tl n : Z) : option memory :=
  update_list h tl (with_size n).

(** The chunks of a list from [p] on. *)
Fixpoint walk (h : memory) (p : Z) (fuel : nat) : option (list Z) :=
  match fuel with
  | O => None
  | S fuel => if p =? 0 then Some [] else c ← h !! p; ps ← walk h (_next c) fuel; Some (p :: ps)
  end.

Definition rounds (h : memory) : nat := S (size h).

(** [FreeList::verify_chunk_in_free_list] *)
Fixpoint in_free_list (h : memory) (tl fc p : Z) (fuel : nat) : option bool :=
  match fuel with
  | O => None
  | S fuel =>
      if p =? 0 then Some false else
      c ← h !! p; l ← list_at h tl; _ ← assert (_size l =? _word_size c);
      if fc =? p then Some true else in_free_list h tl fc (_next c) fuel
  end.
Definition list_verify_chunk (h : memory) (tl fc : Z) : option bool :=
  c ← h !! fc; l ← list_at h tl; _ ← assert (_word_size c =? _size l); in_free_list h tl fc (_head l) (rounds h).

(** The assertions on the ends of a list. *)
Definition list_invariant (h : memory) (tl : Z) : option unit :=
  l ← list_at h tl;
  _ ← (if _head l =? 0 then Some tt else c ← h !! _head l; assert (_prev c =? 0));
  if _tail l =? 0 then Some tt else c ← h !! _tail l; assert (_next c =? 0).

(** ** Nodes of the tree (TreeList) *)

Definition set_parent (h : memory) (p v : Z) : option memory :=
  update_list h p (with_parent v).
Definition set_left (h : memory) (p tl : Z) : option memory :=
  h ← update_list h p (with_left tl);
  if tl =? 0 then Some h else set_parent h tl p.
Definition set_right (h : memory) (p tl : Z) : option memory :=
  h ← update_list h p (with_right tl);
  if tl =? 0 then Some h else set_parent h tl p.
Definition clear_left (h : memory) (p : Z) : option memory :=
  update_list h p (with_left 0).
Definition clear_right (h : memory) (p : Z) : option memory :=
  update_list h p (with_right 0).

(** [TreeList::initialize] *)
Definition empty_list : TreeList := mkTL 0 0 0 0 0 0 0.
Definition initialize (h : memory) (p : Z) : option memory := update_list h p (fun _ => empty_list).

(** The assertion that a node is a child of its parent. *)
Definition is_child (h : memory) (tl : Z) : option unit :=
  l ← list_at h tl;
  if _parent l =? 0 then Some tt else p ← list_at h (_parent l); assert ((tl =? _left p) || (tl =? _right p)).

Section Dictionary.
(** [TreeChunk::min_size]. *)
Context (min_size : Z).

Definition as_TreeList (h : memory) (tc : Z) : option memory :=
  c ← h !! tc;
  _ ← assert (min_size <=? _word_size c);
  h ← initialize h tc;
  h ← set_list h tc tc;
  h ← set_size h tc (_word_size c);
  h ← link_head h tc tc;
  h ← link_tail h tc tc;
  h ← set_count h tc 1;
  l ← list_at h tc;
  _ ← assert (_parent l =? 0);
  Some h.

Definition return_chunk_at_tail (h : memory) (tl chunk : Z) : option memory :=
  c ← h !! chunk;
  l ← list_at h tl;
  double ← list_verify_chunk h tl chunk;
  _ ← assert (negb (chunk =? 0) && (_list c =? tl) && negb (_tail l =? 0) && negb double);
  _ ← list_invariant h tl;
  h ← link_after h (_tail l) chunk;
  h ← link_tail h tl chunk;
  h ← set_count h tl (_count l + 1);
  _ ← list_invariant h tl;
  Some h.

Definition return_chunk_at_head (h : memory) (tl chunk : Z) : option memory :=
  c ← h !! chunk;
  l ← list_at h tl;
  double ← list_verify_chunk h tl chunk;
  _ ← assert ((_list c =? tl) && negb (_head l =? 0) && negb (chunk =? 0) && negb double);
  _ ← list_invariant h tl;
  hd ← h !! _head l;
  let fc := _next hd in
  h ← (if negb (fc =? 0) then link_after h chunk fc else _ ← assert (_tail l =? 0); link_tail h tl chunk);
  h ← link_after h (_head l) chunk;
  _ ← size_is h tl (_head l);
  h ← set_count h tl (_count l + 1);
  _ ← list_invariant h tl;
  Some h.

(** [this] becomes [retTL] in every chunk of the list. *)
Fixpoint set_lists (h : memory) (p retTL : Z) (fuel : nat) : option memory :=
  match fuel with
  | O => None
  | S fuel => if p =? 0 then Some h else h ← set_list h p retTL; c ← h !! p; set_lists h (_next c) retTL fuel
  end.

(** The tree node moves from the first chunk of a list to the second. *)
Definition move_node (h : memory) (this tc nextTC : Z) : option memory :=
  c ← h !! tc;
  h ← update_list h nextTC (fun _ => _embedded_list c);
  let retTL := nextTC in
  h ← set_lists h nextTC retTL (rounds h);
  l ← list_at h retTL;
  h ← (if _parent l =? 0 then Some h else
         p ← list_at h (_parent l);
         if this =? _left p then set_left h (_parent l) retTL
         else _ ← assert (this =? _right p); set_right h (_parent l) retTL);
  this_l ← list_at h this; l ← list_at h retTL; _ ← assert (_right this_l =? _right l);
  h ← (if _right l =? 0 then Some h else set_parent h (_right l) retTL);
  this_l ← list_at h this; l ← list_at h retTL; _ ← assert (_left this_l =? _left l);
  h ← (if _left l =? 0 then Some h else set_parent h (_left l) retTL);
  link_head h retTL nextTC.

(** The second half of [remove_chunk_replace_if_needed]: the chunk is cleared and counted off. *)
Definition finish_removal (h : memory) (retTL tc prevFC nextTC : Z) : option (memory * Z) :=
  l ← list_at h retTL;
  _ ← size_is h retTL (_head l);
  h ← set_prev h tc 0;
  h ← set_next h tc 0;
  h ← set_list h tc 0;
  l ← list_at h retTL;
  chunks ← walk h (_head l) (rounds h);
  _ ← assert (negb (bool_decide (tc ∈ chunks)));
  _ ← assert ((prevFC =? 0) || bool_decide (prevFC ∈ chunks));
  _ ← assert ((nextTC =? 0) || bool_decide (nextTC ∈ chunks));
  _ ← is_child h retTL;
  h ← set_count h retTL (_count l - 1);
  _ ← assert (0 <=? _count l - 1);
  _ ← list_invariant h retTL;
  Some (h, retTL).

Definition remove_chunk_replace_if_needed (h : memory) (this tc : Z) : option (memory * Z) :=
  l ← list_at h this;
  let list := _head l in
  _ ← (if list =? 0 then Some tt else c ← h !! list; assert (negb (list =? _next c)));
  _ ← assert (negb (tc =? 0));
  _ ← is_child h this;
  _ ← list_invariant h this;
  c ← h !! tc;
  let prevFC := _prev c in
  let nextTC := _next c in
  _ ← assert (negb (list =? 0));
  '(h, retTL) ←
    (if tc =? list then
       if nextTC =? 0 then
         _ ← assert (prevFC =? 0);
         h ← set_tail h this 0;
         h ← set_head h this 0;
         Some (h, this)
       else
         h ← move_node h this tc nextTC;
         Some (h, nextTC)
     else
       h ← (if nextTC =? 0 then link_tail h this prevFC else Some h);
       h ← link_after h prevFC nextTC;
       Some (h, this));
  finish_removal h retTL tc prevFC nextTC.

Definition first_available (h : memory) (tl : Z) : option Z :=
  l ← list_at h tl;
  _ ← assert (negb (_head l =? 0));
  head ← h !! _head l;
  let retTC := if _next head =? 0 then _head l else _next head in
  c ← h !! retTC;
  _ ← assert (_list c =? tl);
  Some retTC.

(** The loop of [largest_address]. *)
Fixpoint largest_loop (h : memory) (last fc : Z) (fuel : nat) : option Z :=
  match fuel with
  | O => None
  | S fuel => c ← h !! fc; if _next c =? 0 then Some last else largest_loop h (if last <? fc then fc else last) (_next c) fuel
  end.
Definition largest_address (h : memory) (tl : Z) : option Z :=
  l ← list_at h tl;
  _ ← assert (negb (_head l =? 0));
  head ← h !! _head l;
  retTC ← (if _next head =? 0 then Some (_head l) else largest_loop h (_next head) (_next head) (rounds h));
  c ← h !! retTC;
  _ ← assert (_list c =? tl);
  Some retTC.

(** ** The dictionary (BinaryTreeDictionary) *)

Record dictionary : Set := mkDict { mem : memory; _total_size : Z; _total_free_blocks : Z; _root : Z }.

(** [reset], to be empty. *)
Definition reset (D : dictionary) : dictionary := mkDict (mem D) 0 0 0.

(** From [curTL] down to the node of the size: that node or 0, and the node above. *)
Fixpoint descend (h : memory) (sz prevTL curTL : Z) (fuel : nat) : option (Z * Z) :=
  match fuel with
  | O => None
  | S fuel =>
      if curTL =? 0 then Some (prevTL, curTL) else
      l ← list_at h curTL;
      if _size l =? sz then Some (prevTL, curTL)
      else if _size l <? sz then descend h sz curTL (_right l) fuel
      else descend h sz curTL (_left l) fuel
  end.

(** Back up to a node of at least the size. *)
Fixpoint ascend (h : memory) (sz curTL : Z) (fuel : nat) : option Z :=
  match fuel with
  | O => None
  | S fuel => if curTL =? 0 then Some 0 else l ← list_at h curTL; if sz <=? _size l then Some curTL else ascend h sz (_parent l) fuel
  end.

(** To the leftmost and to the rightmost node. *)
Fixpoint leftmost (h : memory) (curTL : Z) (fuel : nat) : option Z :=
  match fuel with
  | O => None
  | S fuel => l ← list_at h curTL; if _left l =? 0 then Some curTL else leftmost h (_left l) fuel
  end.
Fixpoint rightmost (h : memory) (curTL : Z) (fuel : nat) : option Z :=
  match fuel with
  | O => None
  | S fuel => l ← list_at h curTL; if _right l =? 0 then Some curTL else rightmost h (_right l) fuel
  end.

Definition find_list (D : dictionary) (sz : Z) : option Z :=
  '(_, curTL) ← descend (mem D) sz (_root D) (_root D) (rounds (mem D)); Some curTL.

Definition remove_tree_minimum (D : dictionary) (tl : Z) : option (dictionary * Z) :=
  let h := mem D in
  l ← list_at h tl;
  _ ← assert (negb (tl =? 0) && negb (_parent l =? 0));
  curTL ← leftmost h tl (rounds h);
  cur ← list_at h curTL;
  D ← (if negb (curTL =? _root D) then
         let parentTL := _parent cur in
         p ← list_at h parentTL;
         h ← (if _left p =? curTL then set_left h parentTL (_right cur)
              else _ ← assert (_right p =? curTL); set_right h parentTL (_right cur));
         Some (mkDict h (_total_size D) (_total_free_blocks D) (_root D))
       else Some (mkDict h (_total_size D) (_total_free_blocks D) 0));
  h ← set_parent (mem D) curTL 0;
  h ← clear_right h curTL;
  Some (mkDict h (_total_size D) (_total_free_blocks D) (_root D), curTL).

(** The node [replacementTL] leaves the tree. *)
Definition splice_out (D : dictionary) (tl replacementTL : Z) : option dictionary :=
  r ← list_at (mem D) replacementTL;
  _ ← assert ((_head r =? 0) && (_tail r =? 0));
  '(D, newTL, complicated_splice) ←
    (if _left r =? 0 then
       h ← clear_right (mem D) replacementTL;
       Some (mkDict h (_total_size D) (_total_free_blocks D) (_root D), _right r, false)
     else if _right r =? 0 then
       h ← clear_left (mem D) replacementTL;
       Some (mkDict h (_total_size D) (_total_free_blocks D) (_root D), _left r, false)
     else
       '(D, newTL) ← remove_tree_minimum D (_right r);
       n ← list_at (mem D) newTL;
       _ ← assert (negb (newTL =? 0) && (_left n =? 0) && (_right n =? 0));
       Some (D, newTL, true));
  r ← list_at (mem D) replacementTL;
  let parentTL := _parent r in
  D ← (if parentTL =? 0 then
         _ ← assert (tl =? _root D);
         h ← (if newTL =? 0 then Some (mem D) else set_parent (mem D) newTL 0);
         Some (mkDict h (_total_size D) (_total_free_blocks D) newTL)
       else
         p ← list_at (mem D) parentTL;
         h ← (if _right p =? replacementTL then set_right (mem D) parentTL newTL
              else _ ← assert (_left p =? replacementTL); set_left (mem D) parentTL newTL);
         Some (mkDict h (_total_size D) (_total_free_blocks D) (_root D)));
  h ← set_parent (mem D) replacementTL 0;
  h ← (if complicated_splice : bool then
         n ← list_at h newTL;
         _ ← assert (negb (newTL =? 0) && (_left n =? 0) && (_right n =? 0));
         r ← list_at h replacementTL;
         _ ← assert (negb (_left r =? 0));
         h ← set_left h newTL (_left r);
         r ← list_at h replacementTL;
         h ← set_right h newTL (_right r);
         h ← clear_right h replacementTL;
         clear_left h replacementTL
       else Some h);
  r ← list_at h replacementTL;
  _ ← assert ((_right r =? 0) && (_left r =? 0) && (_parent r =? 0));
  Some (mkDict h (_total_size D) (_total_free_blocks D) (_root D)).

(** [remove_chunk_from_tree], after the chunk has left its list. *)
Definition after_removal (D : dictionary) (h : memory) (tc tl replacementTL : Z) (removing_only_chunk : bool) : option dictionary :=
  _ ← is_child h replacementTL;
  D ← (if tl =? _root D then
         r ← list_at h replacementTL;
         _ ← assert (_parent r =? 0);
         Some (mkDict h (_total_size D) (_total_free_blocks D) replacementTL)
       else Some (mkDict h (_total_size D) (_total_free_blocks D) (_root D)));
  _ ← (if tl =? replacementTL then Some tt else
         r ← list_at h replacementTL;
         _ ← assert (negb (_head r =? 0));
         hd ← h !! _head r; tl ← h !! _tail r; c ← h !! tc;
         assert ((_list hd =? replacementTL) && (_list tl =? replacementTL) && (_size r =? _word_size c)));
  r ← list_at h replacementTL;
  D ← (if _count r =? 0 then splice_out D tl replacementTL else Some D);
  c ← mem D !! tc;
  _ ← assert ((_word_size c <=? _total_size D) && (0 <? _total_free_blocks D));
  let D := mkDict (mem D) (size_t (_total_size D - _word_size c)) (size_t (_total_free_blocks D - 1)) (_root D) in
  _ ← assert ((_prev c =? 0) && (_next c =? 0));
  _ ← assert (negb removing_only_chunk || (_root D =? 0));
  Some D.

Definition remove_chunk_from_tree (D : dictionary) (tc : Z) : option dictionary :=
  _ ← assert (negb (tc =? 0));
  c ← mem D !! tc;
  let tl := _list c in
  removing_only_chunk ←
    (if tl =? _root D then
       r ← list_at (mem D) (_root D);
       if (_left r =? 0) && (_right r =? 0) && (_count r =? 1) then _ ← assert (_head r =? tc); Some true else Some false
     else Some false);
  _ ← assert (negb (tl =? 0));
  _ ← is_child (mem D) tl;
  '(h, replacementTL) ← remove_chunk_replace_if_needed (mem D) tl tc;
  after_removal D h tc tl replacementTL removing_only_chunk.

Inductive Dither : Set := atLeast | exactly | roughly.

(** [get_chunk_from_tree], the chunk 0 if there is none; [get_better_list] of these lists is
    the list itself. *)
Definition get_chunk_from_tree (D : dictionary) (sz : Z) (dither : Dither) : option (dictionary * Z) :=
  let h := mem D in
  _ ← assert (min_size <=? sz);
  '(prevTL, curTL) ← descend h sz (_root D) (_root D) (rounds h);
  curTL ←
    (if curTL =? 0 then
       match dither with
       | exactly => Some 0
       | _ =>
           curTL ← ascend h sz prevTL (rounds h);
           _ ← (if curTL =? 0 then Some tt else l ← list_at h curTL; assert (0 <? _count l));
           Some curTL
       end
     else Some curTL);
  if curTL =? 0 then Some (D, 0) else
  l ← list_at h curTL;
  _ ← assert (sz <=? _size l);
  retTC ← first_available h curTL;
  c ← h !! retTC;
  _ ← assert (negb (retTC =? 0) && (0 <? _count l) && (sz <=? _word_size c));
  D ← remove_chunk_from_tree D retTC;
  Some (D, retTC).

Definition get_chunk (D : dictionary) (sz : Z) (dither : Dither) : option (dictionary * Z) :=
  '(D, res) ← get_chunk_from_tree D sz dither;
  _ ← match dither with
      | exactly => if res =? 0 then Some tt else c ← mem D !! res; assert (_word_size c =? sz)
      | _ => Some tt
      end;
  Some (D, res).

(** The part of [insert_chunk_in_tree] that puts the chunk in the list found, or in a node of its
    own below [prevTL]; with the root after it. *)
Definition place_chunk (h : memory) (root sz tc prevTL curTL : Z) : option (memory * Z) :=
  if negb (curTL =? 0) then
    h ← set_list h tc curTL;
    h ← return_chunk_at_tail h curTL tc;
    Some (h, root)
  else
    h ← set_next h tc 0;
    h ← set_prev h tc 0;
    h ← as_TreeList h tc;
    let newTL := tc in
    c ← h !! tc;
    _ ← assert (_list c =? newTL);
    if prevTL =? 0 then
      _ ← assert (root =? 0);
      Some (h, newTL)
    else
      p ← list_at h prevTL;
      h ← (if _size p <? sz then _ ← assert (_right p =? 0); set_right h prevTL newTL
           else _ ← assert ((sz <? _size p) && (_left p =? 0)); set_left h prevTL newTL);
      Some (h, root).

Definition insert_chunk_in_tree (D : dictionary) (fc : Z) : option dictionary :=
  let h := mem D in
  c ← h !! fc;
  let sz := _word_size c in
  _ ← assert (min_size <=? sz);
  h ← set_next h fc 0;
  h ← set_prev h fc 0;
  '(prevTL, curTL) ← descend h sz (_root D) (_root D) (rounds h);
  let tc := fc in
  h ← initialize h tc;
  '(h, root) ← place_chunk h (_root D) sz tc prevTL curTL;
  c ← h !! tc;
  _ ← assert (negb (_list c =? 0));
  Some (mkDict h (size_t (_total_size D + sz)) (size_t (_total_free_blocks D + 1)) root).

Definition return_chunk (D : dictionary) (chunk : Z) : option dictionary := insert_chunk_in_tree D chunk.
Definition remove_chunk (D : dictionary) (chunk : Z) : option dictionary := remove_chunk_from_tree D chunk.

Definition max_chunk_size (D : dictionary) : option Z :=
  if _root D =? 0 then Some 0 else tc ← rightmost (mem D) (_root D) (rounds (mem D)); l ← list_at (mem D) tc; Some (_size l).

Definition find_largest_dict (D : dictionary) : option Z :=
  if _root D =? 0 then Some 0 else tl ← rightmost (mem D) (_root D) (rounds (mem D)); largest_address (mem D) tl.

(** [total_list_length], with its assertion on the count. *)
Definition total_list_length (h : memory) (tl : Z) : option Z :=
  l ← list_at h tl;
  chunks ← walk h (_head l) (rounds h);
  _ ← assert (_count l =? Z.of_nat (length chunks));
  Some (_count l).
Fixpoint total_size_in_tree (h : memory) (tl : Z) (fuel : nat) : option Z :=
  match fuel with
  | O => None
  | S fuel =>
      if tl =? 0 then Some 0 else
      l ← list_at h tl;
      n ← total_list_length h tl;
      a ← total_size_in_tree h (_left l) fuel;
      b ← total_size_in_tree h (_right l) fuel;
      Some (size_t (_size l * n + a + b))
  end.

Fixpoint total_free_blocks_in_tree (h : memory) (tl : Z) (fuel : nat) : option Z :=
  match fuel with
  | O => None
  | S fuel =>
      if tl =? 0 then Some 0 else
      l ← list_at h tl;
      n ← total_list_length h tl;
      a ← total_free_blocks_in_tree h (_left l) fuel;
      b ← total_free_blocks_in_tree h (_right l) fuel;
      Some (size_t (n + a + b))
  end.
Definition num_free_blocks (D : dictionary) : option Z :=
  n ← total_free_blocks_in_tree (mem D) (_root D) (rounds (mem D));
  _ ← assert (n =? _total_free_blocks D);
  Some (_total_free_blocks D).

(** ** Verification *)

(** [verify_chunk_in_free_list] of the dictionary. *)
Definition dict_verify_chunk (D : dictionary) (tc : Z) : option bool :=
  c ← mem D !! tc;
  tl ← find_list D (_word_size c);
  if tl =? 0 then Some false else list_verify_chunk (mem D) tl tc.

Fixpoint verify_tree_chunk_list (h : memory) (this : Z) (fuel : nat) : option unit :=
  match fuel with
  | O => None
  | S fuel =>
      c ← h !! this;
      let nextTC := _next c in
      let e := _embedded_list c in
      _ ← (if _prev c =? 0 then Some tt else assert ((_parent e =? 0) && (_left e =? 0) && (_right e =? 0)));
      if nextTC =? 0 then Some tt else
      n ← h !! nextTC;
      _ ← assert ((_prev n =? this) && (_word_size n =? _word_size c));
      verify_tree_chunk_list h nextTC fuel
  end.

(** The chunks [verify_prev_free_ptrs] counts; all of them are free. *)
Definition verify_prev_free_ptrs (h : memory) (tl : Z) : option Z :=
  l ← list_at h tl;
  chunks ← walk h (_head l) (rounds h);
  Some (Z.of_nat (length chunks)).

(** A child points back to its parent, and its size is on the right side of it. *)
Definition verify_child (h : memory) (tl child : Z) (related : Z -> bool) : option unit :=
  if child =? 0 then Some tt else c ← list_at h child; assert ((_parent c =? tl) && related (_size c)).

Fixpoint verify_tree_helper (h : memory) (tl : Z) (fuel : nat) : option unit :=
  match fuel with
  | O => None
  | S fuel =>
      if tl =? 0 then Some tt else
      l ← list_at h tl;
      _ ← assert (negb (_size l =? 0));
      _ ← verify_child h tl (_left l) (fun s => s <? _size l);
      _ ← verify_child h tl (_right l) (fun s => _size l <? s);
      _ ← (if _head l =? 0 then Some tt else hd ← h !! _head l; assert (_list hd =? tl));
      _ ← assert ((0 <? _count l) || ((_head l =? 0) && (_tail l =? 0)));
      _ ← assert ((1 <? _count l) || (_head l =? _tail l));
      n ← verify_prev_free_ptrs h tl;
      _ ← assert (n =? size_t (_count l));
      _ ← (if _head l =? 0 then Some tt else verify_tree_chunk_list h (_head l) (rounds h));
      _ ← verify_tree_helper h (_left l) fuel;
      verify_tree_helper h (_right l) fuel
  end.

Definition verify_tree (D : dictionary) : option unit :=
  _ ← assert ((_root D =? 0) || (_total_free_blocks D =? 0) || negb (_total_size D =? 0));
  _ ← (if _root D =? 0 then Some tt else r ← list_at (mem D) (_root D); assert (_parent r =? 0));
  verify_tree_helper (mem D) (_root D) (rounds (mem D)).

Definition verify_dictionary (D : dictionary) : option unit :=
  _ ← verify_tree D;
  n ← total_size_in_tree (mem D) (_root D) (rounds (mem D));
  assert (_total_size D =? n).

(** ** Searches for a chunk that ends at an address *)

(** [EndTreeSearchClosure::do_list] and [DescendTreeSearchClosure::do_tree]: a chunk that ends at
    [target], or 0. *)
Fixpoint ends_in_list (h : memory) (target item : Z) (fuel : nat) : option Z :=
  match fuel with
  | O => None
  | S fuel =>
      if item =? 0 then Some 0 else
      c ← h !! item;
      if item + 8 * _word_size c =? target then Some item else ends_in_list h target (_next c) fuel
  end.
Fixpoint ends_in_tree (h : memory) (target tl : Z) (fuel : nat) : option Z :=
  match fuel with
  | O => None
  | S fuel =>
      if tl =? 0 then Some 0 else
      l ← list_at h tl;
      found ← ends_in_tree h target (_right l) fuel;
      if negb (found =? 0) then Some found else
      found ← ends_in_list h target (_head l) (rounds h);
      if negb (found =? 0) then Some found else ends_in_tree h target (_left l) fuel
  end.
Definition find_chunk_ends_at (D : dictionary) (target : Z) : option Z :=
  ends_in_tree (mem D) target (_root D) (rounds (mem D)).

End Dictionary.

End FreeDictionary.
