(* ===== verification/FreeDictCells.v ===== *)
(** The memory of the dictionary of free blocks as a list of cells that an operation owns,
    and what its operations on links and lists do to them. *)
From S2P Require Import Prelude GlobalDefinitions FreeDictionary.
Import GlobalDefinitions FreeDictionary.

Module FreeDictCells.

(** ** Cells *)

(** Chunks at distinct addresses, none of them [NULL], with their fields. *)
Definition owns (h : memory) (L : list (Z * TreeChunk)) : Prop :=
  h !! 0 = None /\ NoDup L.*1 /\ forall p c, (p, c) ∈ L -> h !! p = Some c.

#[export] Instance owns_proper h : Proper ((≡ₚ) ==> iff) (owns h).
Proof.
  intros L L' E. unfold owns.
  assert (forall p c, (p, c) ∈ L <-> (p, c) ∈ L') as Ein by (intros p c; by rewrite E).
  assert (NoDup L.*1 <-> NoDup L'.*1) as End by (by rewrite E).
  split; intros (H0 & Hnd & Hin); split_and!; try done; [by apply End | intros p c; rewrite <- Ein; apply Hin | by apply End |].
  intros p c; rewrite Ein; apply Hin.
Qed.

Lemma owns_read h p c L : owns h ((p, c) :: L) -> h !! p = Some c /\ p <> 0.
Proof. intros (H0 & _ & Hin). assert (h !! p = Some c) as E by (apply Hin; by left). split; [done |]. intros ->. congruence. Qed.

Lemma owns_write h p c c' L : owns h ((p, c) :: L) -> owns (<[p := c']> h) ((p, c') :: L).
Proof.
  intros HO. pose proof (owns_read _ _ _ _ HO) as [_ Hp0]. destruct HO as (H0 & Hnd & Hin). simpl in Hnd.
  apply NoDup_cons in Hnd as [Hp Hnd]. split_and!.
  - by rewrite lookup_insert_ne.
  - simpl. by constructor.
  - intros q d Hq. apply elem_of_cons in Hq as [[= -> ->]|Hq]; [by rewrite lookup_insert_eq |].
    rewrite lookup_insert_ne; [by apply Hin; right |]. intros ->. apply Hp. by apply (list_elem_of_fmap_2 fst) in Hq.
Qed.

Lemma owns_ne h p c q d L : owns h ((p, c) :: (q, d) :: L) -> p <> q.
Proof. intros (_ & Hnd & _) ->. simpl in Hnd. apply NoDup_cons in Hnd as [Hp _]. apply Hp. by left. Qed.

Lemma owns_size h L : owns h L -> (length L <= size h)%nat.
Proof.
  intros (_ & Hnd & Hin). rewrite <- (length_fmap fst). rewrite <- size_dom.
  rewrite <- (size_list_to_set (C := gset Z)) by done. apply subseteq_size. intros p Hp.
  apply elem_of_list_to_set, list_elem_of_fmap in Hp as ([q c] & -> & Hq). apply elem_of_dom. exists c. by apply Hin.
Qed.

Lemma owns_app_r h L1 L2 : owns h (L1 ++ L2) -> owns h L2.
Proof.
  intros (H0 & Hnd & Hin). split_and!; [done | | set_solver]. rewrite fmap_app in Hnd. by apply NoDup_app in Hnd as (_ & _ & ?).
Qed.

Lemma owns_cons_r h x L : owns h (x :: L) -> owns h L.
Proof. apply (owns_app_r h [x]). Qed.

(** The cells of a hypothesis, or of the last one about cells, in the order [L]. *)
Ltac reorder_in H L :=
  match type of H with owns _ ?L0 => let E := fresh in assert (L0 ≡ₚ L) as E by solve_Permutation; apply (owns_proper _ _ _ E) in H; clear E end.
Ltac reorder L := match goal with H : owns _ _ |- _ => reorder_in H L end.

(** ** Updates *)

Lemma update_spec h p c L f :
  owns h ((p, c) :: L) -> exists h', update h p f = Some h' /\ owns h' ((p, f c) :: L).
Proof. intros HO. pose proof (owns_read _ _ _ _ HO) as [E _]. unfold update. rewrite E. eexists. split; [done |]. by eapply owns_write. Qed.

Lemma list_at_spec h p c L : owns h ((p, c) :: L) -> list_at h p = Some (_embedded_list c).
Proof. intros HO. pose proof (owns_read _ _ _ _ HO) as [E _]. unfold list_at. by rewrite E. Qed.


Lemma set_next_spec h p c v L :
  owns h ((p, c) :: L) -> v <> p -> exists h', set_next h p v = Some h' /\ owns h' ((p, with_next v c) :: L).
Proof. intros HO Hv. unfold set_next. rewrite (proj2 (Z.eqb_neq v p)) by done. cbn [assert negb mbind option_bind]. by apply update_spec. Qed.

Lemma set_prev_spec h p c v L :
  owns h ((p, c) :: L) -> v <> p -> exists h', set_prev h p v = Some h' /\ owns h' ((p, with_prev v c) :: L).
Proof. intros HO Hv. unfold set_prev. rewrite (proj2 (Z.eqb_neq v p)) by done. cbn [assert negb mbind option_bind]. by apply update_spec. Qed.

Lemma set_list_spec h p c v L : owns h ((p, c) :: L) -> exists h', set_list h p v = Some h' /\ owns h' ((p, with_list v c) :: L).
Proof. apply update_spec. Qed.

Lemma update_list_spec h p c L f :
  owns h ((p, c) :: L) -> exists h', update_list h p f = Some h' /\ owns h' ((p, on_list f c) :: L).
Proof. apply update_spec. Qed.

Lemma link_after_spec h p c q d L :
  owns h ((p, c) :: (q, d) :: L) -> exists h', link_after h p q = Some h' /\ owns h' ((p, with_next q c) :: (q, with_prev p d) :: L).
Proof.
  intros HO. pose proof (owns_ne _ _ _ _ _ _ HO). unfold link_after.
  destruct (set_next_spec h p c q _ HO ltac:(done)) as (h1 & -> & HO1). cbn [mbind option_bind].
  reorder ((q, d) :: (p, with_next q c) :: L). pose proof (owns_read _ _ _ _ HO1) as [_ Hq].
  rewrite (proj2 (Z.eqb_neq q 0)) by done. destruct (set_prev_spec h1 q d p _ HO1 ltac:(done)) as (h2 & E & HO2).
  exists h2. split; [done |]. reorder ((p, with_next q c) :: (q, with_prev p d) :: L). done.
Qed.

Lemma link_after_null h p c L :
  owns h ((p, c) :: L) -> exists h', link_after h p 0 = Some h' /\ owns h' ((p, with_next 0 c) :: L).
Proof.
  intros HO. pose proof (owns_read _ _ _ _ HO) as [_ Hp]. unfold link_after.
  destruct (set_next_spec h p c 0 _ HO ltac:(done)) as (h1 & -> & HO1). cbn [mbind option_bind]. by exists h1.
Qed.

(** ** Trees *)

(** A node has a size and its chunks, the first of which is the node. *)
Inductive tree : Set :=
| Leaf
| Node (l : tree) (sz a : Z) (xs : list Z) (r : tree).

Definition root (t : tree) : Z := match t with Leaf => 0 | Node _ _ a _ _ => a end.

Definition first (xs : list Z) (d : Z) : Z := match xs with [] => d | x :: _ => x end.

(** Chunks of a list after the first, between [prev] and [next]. *)
Fixpoint seg (tl sz prev : Z) (xs : list Z) (next : Z) : list (Z * TreeChunk) :=
  match xs with
  | [] => []
  | x :: xs => (x, mkTC sz prev (first xs next) tl empty_list) :: seg tl sz x xs next
  end.

(** A list of chunks with the fields [l] of its node. *)
Definition ring (l : TreeList) (a : Z) (xs : list Z) : list (Z * TreeChunk) :=
  (a, mkTC (_size l) 0 (first xs 0) a l) :: seg a (_size l) a xs 0.

Definition node_list (par lp rp sz a : Z) (xs : list Z) : TreeList :=
  mkTL par lp rp a (List.last xs a) sz (1 + Z.of_nat (length xs)).

Fixpoint cells (par : Z) (t : tree) : list (Z * TreeChunk) :=
  match t with
  | Leaf => []
  | Node l sz a xs r => ring (node_list par (root l) (root r) sz a xs) a xs ++ cells a l ++ cells a r
  end.

(** A tree with a hole: the way from the hole up to the root. *)
Inductive frame : Set :=
| FL (sz a : Z) (xs : list Z) (r : tree)
| FR (l : tree) (sz a : Z) (xs : list Z).

Definition frame_addr (f : frame) : Z := match f with FL _ a _ _ | FR _ _ a _ => a end.
Definition fill (f : frame) (t : tree) : tree :=
  match f with FL sz a xs r => Node t sz a xs r | FR l sz a xs => Node l sz a xs t end.

Fixpoint plug (C : list frame) (t : tree) : tree :=
  match C with
  | [] => t
  | f :: C => plug C (fill f t)
  end.

Definition ctx_addr (C : list frame) : Z := match C with [] => 0 | f :: _ => frame_addr f end.

Definition frame_cells (par p : Z) (f : frame) : list (Z * TreeChunk) :=
  match f with
  | FL sz a xs r => ring (node_list par p (root r) sz a xs) a xs ++ cells a r
  | FR l sz a xs => ring (node_list par (root l) p sz a xs) a xs ++ cells a l
  end.

Fixpoint ctx_cells (C : list frame) (p : Z) : list (Z * TreeChunk) :=
  match C with
  | [] => []
  | f :: C => frame_cells (ctx_addr C) p f ++ ctx_cells C (frame_addr f)
  end.

Lemma root_fill f t : root (fill f t) = frame_addr f.
Proof. by destruct f. Qed.

Lemma cells_fill par f t : cells par (fill f t) ≡ₚ frame_cells par (root t) f ++ cells (frame_addr f) t.
Proof. destruct f; simpl; solve_Permutation. Qed.

Lemma cells_plug C : forall t, cells 0 (plug C t) ≡ₚ ctx_cells C (root t) ++ cells (ctx_addr C) t.
Proof.
  induction C as [|f C IH]; intros t; [done |]. simpl. rewrite IH, root_fill, cells_fill. solve_Permutation.
Qed.

Lemma root_plug f C t t' : root (plug (f :: C) t) = root (plug (f :: C) t').
Proof. revert f t t'. induction C as [|g C IH]; intros f t t'; simpl; [by rewrite !root_fill |]. apply (IH g). Qed.

Lemma cells_addrs par par' t : (cells par t).*1 = (cells par' t).*1.
Proof. by destruct t. Qed.

Lemma cells_node par l sz a xs r :
  cells par (Node l sz a xs r) =
  (a, mkTC sz 0 (first xs 0) a (node_list par (root l) (root r) sz a xs)) :: seg a sz a xs 0 ++ cells a l ++ cells a r.
Proof. done. Qed.

(** ** Links of the tree *)

Lemma set_parent_tree h par par' t L :
  root t <> 0 -> owns h (cells par t ++ L) -> exists h', set_parent h (root t) par' = Some h' /\ owns h' (cells par' t ++ L).
Proof.
  destruct t as [|l sz a xs r]; intros Hr HO; [done |]. unfold set_parent. rewrite cells_node in HO |- *.
  by apply update_list_spec with (f := with_parent par') in HO.
Qed.

(** The child of a frame is replaced. *)
Definition set_child (h : memory) (f : frame) (p : Z) : option memory :=
  match f with FL _ a _ _ => set_left h a p | FR _ _ a _ => set_right h a p end.

Lemma set_child_spec h f par p par' t L :
  owns h (frame_cells par p f ++ cells par' t ++ L) ->
  exists h', set_child h f (root t) = Some h' /\ owns h' (frame_cells par (root t) f ++ cells (frame_addr f) t ++ L).
Proof.
  intros HO. assert (exists h1, match f with
      | FL _ a _ _ => update_list h a (with_left (root t))
      | FR _ _ a _ => update_list h a (with_right (root t))
      end = Some h1 /\ owns h1 (frame_cells par (root t) f ++ cells par' t ++ L)) as (h1 & E1 & HO1).
  { destruct f as [sz a xs r|l sz a xs]; simpl in HO |- *.
    - by apply update_list_spec with (f := with_left (root t)) in HO.
    - by apply update_list_spec with (f := with_right (root t)) in HO. }
  assert (exists h', (if root t =? 0 then Some h1 else set_parent h1 (root t) (frame_addr f)) = Some h' /\
    owns h' (frame_cells par (root t) f ++ cells (frame_addr f) t ++ L)) as (h' & E & HO').
  { destruct (Z.eqb_spec (root t) 0) as [E0|Hne].
    - exists h1. split; [done |]. destruct t as [|l sz a xs r]; [done |]. simpl in E0. exfalso.
      reorder (cells par' (Node l sz a xs r) ++ frame_cells par (root (Node l sz a xs r)) f ++ L).
      rewrite cells_node in HO1. by apply owns_read in HO1 as [_ ?].
    - reorder (cells par' t ++ frame_cells par (root t) f ++ L).
      destruct (set_parent_tree h1 par' (frame_addr f) t _ Hne HO1) as (h' & E & HO').
      exists h'. split; [done |]. reorder (frame_cells par (root t) f ++ cells (frame_addr f) t ++ L). done. }
  exists h'. split; [| done]. destruct f; simpl in *; unfold set_left, set_right; rewrite E1; exact E.
Qed.

(** ** Lists *)

Lemma last_default (xs : list Z) : forall x d, List.last (x :: xs) d = List.last xs x.
Proof. induction xs as [|y xs IH]; intros x d; [done |]. change (List.last (y :: xs) d = List.last (y :: xs) x). by rewrite !IH. Qed.

Lemma seg_app tl sz ys next : forall xs prev,
  seg tl sz prev (xs ++ ys) next = seg tl sz prev xs (first ys next) ++ seg tl sz (List.last xs prev) ys next.
Proof.
  induction xs as [|x xs IH]; intros prev; [done |]. rewrite last_default. simpl. rewrite IH. by destruct xs.
Qed.

(** The last chunk of a list. *)
Lemma ring_last l a xs : exists c L, _next c = 0 /\ _word_size c = _size l /\ ring l a xs ≡ₚ (List.last xs a, c) :: L /\
  forall y, ring l a (xs ++ [y]) ≡ₚ (List.last xs a, with_next y c) :: (y, mkTC (_size l) (List.last xs a) 0 a empty_list) :: L.
Proof.
  unfold ring. destruct xs as [|z xs _] using rev_ind.
  - exists (mkTC (_size l) 0 0 a l), []. split_and!; try done.
  - exists (mkTC (_size l) (List.last xs a) 0 a empty_list), ((a, mkTC (_size l) 0 (first (xs ++ [z]) 0) a l) :: seg a (_size l) a xs z).
    rewrite List.last_last. split_and!; [done | done | |].
    + rewrite seg_app. simpl. solve_Permutation.
    + intros y. rewrite !seg_app, List.last_last. simpl. destruct xs; simpl; solve_Permutation.
Qed.

Lemma walk_spec h tl sz xs : forall prev L fuel,
  owns h (seg tl sz prev xs 0 ++ L) -> (length xs < fuel)%nat -> walk h (first xs 0) fuel = Some xs.
Proof.
  induction xs as [|x xs IH]; intros prev L fuel HO Hf; (destruct fuel as [|fuel]; [simpl in Hf; lia |]); [done |].
  simpl in HO, Hf |- *. pose proof (owns_read _ _ _ _ HO) as [E Hx]. rewrite (proj2 (Z.eqb_neq x 0)) by done. rewrite E.
  cbn [mbind option_bind _next]. by rewrite (IH x L) by (lia || by eapply owns_cons_r).
Qed.

Lemma in_free_list_spec h tl l fc sz xs : forall prev L fuel,
  owns h (seg tl sz prev xs 0 ++ L) -> list_at h tl = Some l -> _size l = sz -> fc ∉ xs -> (length xs < fuel)%nat ->
  in_free_list h tl fc (first xs 0) fuel = Some false.
Proof.
  induction xs as [|x xs IH]; intros prev L fuel HO El Es Hfc Hf; (destruct fuel as [|fuel]; [simpl in Hf; lia |]); [done |].
  simpl in HO, Hf |- *. pose proof (owns_read _ _ _ _ HO) as [E Hx]. rewrite (proj2 (Z.eqb_neq x 0)) by done. rewrite E, El.
  cbn [mbind option_bind _next _word_size]. rewrite Es, Z.eqb_refl. cbn [assert mbind option_bind].
  apply not_elem_of_cons in Hfc as [Hne Hfc]. rewrite (proj2 (Z.eqb_neq fc x)) by done.
  apply (IH x L); (done || lia || by eapply owns_cons_r).
Qed.

Lemma ring_length l a xs : length (ring l a xs) = S (length xs).
Proof. unfold ring. simpl. f_equal. generalize a at 2. generalize 0. induction xs as [|x xs IH]; intros n p; [done |]. simpl. by rewrite IH. Qed.

Lemma ring_rounds h l a xs L : owns h (ring l a xs ++ L) -> (S (length xs) < rounds h)%nat.
Proof. intros HO. apply owns_size in HO. rewrite length_app, ring_length in HO. unfold rounds. lia. Qed.

Lemma ring_walk h l a xs L : owns h (ring l a xs ++ L) -> walk h a (rounds h) = Some (a :: xs).
Proof.
  intros HO. pose proof (ring_rounds _ _ _ _ _ HO) as Hr. destruct (rounds h) as [|k]; [lia |]. simpl.
  pose proof (owns_read _ _ _ _ HO) as [-> Ha]. rewrite (proj2 (Z.eqb_neq a 0)) by done. cbn [mbind option_bind _next]. apply owns_cons_r in HO.
  by rewrite (walk_spec _ _ _ _ _ _ _ HO) by lia.
Qed.

Lemma list_verify_spec h l a xs fc c L :
  owns h ((fc, c) :: ring l a xs ++ L) -> _head l = a -> _word_size c = _size l -> list_verify_chunk h a fc = Some false.
Proof.
  intros HO Eh Es. pose proof (owns_read _ _ _ _ HO) as [E _]. unfold list_verify_chunk. rewrite E. cbn [mbind option_bind].
  assert (fc <> a) as Hne by (by apply (owns_ne _ _ _ _ _ _ HO)).
  assert (fc ∉ xs) as Hxs.
  { destruct HO as (_ & Hnd & _). simpl in Hnd. apply NoDup_cons in Hnd as [Hfc _]. intros Hin. apply Hfc. right.
    rewrite fmap_app. apply elem_of_app. left. clear -Hin. generalize a at 2. induction xs as [|x xs IH]; intros p; [by apply elem_of_nil in Hin |].
    simpl. apply elem_of_cons in Hin as [->|Hin]; [by left | right; by apply IH]. }
  apply owns_cons_r in HO. pose proof (ring_rounds _ _ _ _ _ HO). pose proof (list_at_spec _ _ _ _ HO) as El.
  rewrite El. cbn [mbind option_bind _embedded_list]. rewrite Es, Z.eqb_refl. cbn [assert mbind option_bind].
  destruct (rounds h) as [|n] eqn:En; [lia |]. cbn [in_free_list]. rewrite Eh. pose proof (owns_read _ _ _ _ HO) as [Ea Ha].
  rewrite (proj2 (Z.eqb_neq a 0)) by done. rewrite Ea, El. cbn [mbind option_bind _word_size _embedded_list]. rewrite Z.eqb_refl.
  cbn [assert mbind option_bind _next]. rewrite (proj2 (Z.eqb_neq fc a)) by done.
  apply (in_free_list_spec h a l fc (_size l) xs a L); [exact (owns_cons_r _ _ _ HO) | exact El | done | done | lia].
Qed.

Lemma list_invariant_spec h l a xs L :
  owns h (ring l a xs ++ L) -> _head l = a -> _tail l = List.last xs a -> list_invariant h a = Some tt.
Proof.
  intros HO Eh Et. unfold list_invariant. rewrite (list_at_spec _ _ _ _ HO). cbn [mbind option_bind _embedded_list].
  rewrite Eh, Et. pose proof (owns_read _ _ _ _ HO) as [Ea Ha]. rewrite (proj2 (Z.eqb_neq a 0)) by done. rewrite Ea.
  cbn [mbind option_bind _prev assert]. rewrite Z.eqb_refl. cbn [mbind option_bind].
  destruct (ring_last l a xs) as (c & L' & En & _ & EP & _). rewrite EP in HO. pose proof (owns_read _ _ _ _ HO) as [El Hl].
  rewrite (proj2 (Z.eqb_neq _ 0)) by done. rewrite El. cbn [mbind option_bind]. rewrite En. done.
Qed.

(** A chunk of a list. *)
Lemma seg_split tl sz prev xs x ys next :
  seg tl sz prev (xs ++ x :: ys) next ≡ₚ
  (x, mkTC sz (List.last xs prev) (first ys next) tl empty_list) :: seg tl sz prev xs x ++ seg tl sz x ys next.
Proof. rewrite seg_app. simpl. solve_Permutation. Qed.

Lemma ring_member l a xs v : v ∈ a :: xs -> exists c L, ring l a xs ≡ₚ (v, c) :: L /\ _word_size c = _size l /\ _list c = a.
Proof.
  intros Hv. unfold ring. apply elem_of_cons in Hv as [->|Hv]; [by do 2 eexists |].
  apply list_elem_of_split in Hv as (ys & zs & ->). do 2 eexists. split; [rewrite seg_split; apply Permutation_swap |]. done.
Qed.


Lemma update_ring h l a xs L f :
  (forall l, _size (f l) = _size l) -> owns h (ring l a xs ++ L) ->
  exists h', update_list h a f = Some h' /\ owns h' (ring (f l) a xs ++ L).
Proof.
  intros Hf HO. destruct (update_list_spec _ _ _ _ f HO) as (h' & E & HO'). exists h'. split; [done |].
  unfold ring. rewrite Hf. exact HO'.
Qed.

Lemma size_is_ring h l a xs v L : owns h (ring l a xs ++ L) -> v = 0 \/ v ∈ a :: xs -> size_is h a v = Some tt.
Proof.
  intros HO Hv. unfold size_is. destruct Hv as [->|Hv]; [done |]. destruct (Z.eqb_spec v 0); [done |].
  rewrite (list_at_spec _ _ _ _ HO). destruct (ring_member l a xs v Hv) as (c & L' & EP & Es & _). rewrite EP in HO.
  pose proof (owns_read _ _ _ _ HO) as [-> _]. cbn [mbind option_bind _embedded_list]. by rewrite Es, Z.eqb_refl.
Qed.

Lemma set_tail_ring h l a xs v L :
  owns h (ring l a xs ++ L) -> v = 0 \/ v ∈ a :: xs -> exists h', set_tail h a v = Some h' /\ owns h' (ring (with_tail v l) a xs ++ L).
Proof.
  intros HO Hv. destruct (update_ring _ _ _ _ _ (with_tail v) ltac:(done) HO) as (h' & E & HO'). exists h'. split; [| done].
  unfold set_tail. rewrite E. cbn [mbind option_bind]. by rewrite (size_is_ring _ _ _ _ _ _ HO' Hv).
Qed.

Lemma set_head_ring h l a xs v L :
  owns h (ring l a xs ++ L) -> v = 0 \/ v ∈ a :: xs -> exists h', set_head h a v = Some h' /\ owns h' (ring (with_head v l) a xs ++ L).
Proof.
  intros HO Hv. destruct (update_ring _ _ _ _ _ (with_head v) ltac:(done) HO) as (h' & E & HO'). exists h'. split; [| done].
  unfold set_head. rewrite E. cbn [mbind option_bind]. by rewrite (size_is_ring _ _ _ _ _ _ HO' Hv).
Qed.

Lemma last_member (xs : list Z) a : List.last xs a ∈ a :: xs.
Proof. destruct xs as [|z xs _] using rev_ind; [by left |]. rewrite List.last_last. right. apply elem_of_app. right. by left. Qed.

Lemma link_tail_ring h l a xs L :
  owns h (ring l a xs ++ L) ->
  exists h', link_tail h a (List.last xs a) = Some h' /\ owns h' (ring (with_tail (List.last xs a) l) a xs ++ L).
Proof.
  intros HO. destruct (set_tail_ring _ _ _ _ (List.last xs a) _ HO) as (h1 & E1 & HO1); [right; apply last_member |].
  destruct (ring_last (with_tail (List.last xs a) l) a xs) as (c & L' & En & _ & EP & _). rewrite EP in HO1. simpl in HO1.
  pose proof (owns_read _ _ _ _ HO1) as [_ Hne].
  destruct (set_next_spec _ _ _ 0 _ HO1 ltac:(done)) as (h2 & E2 & HO2). exists h2. unfold link_tail. rewrite E1. cbn [mbind option_bind].
  rewrite (proj2 (Z.eqb_neq _ 0)) by done. split; [done |]. rewrite EP. unfold with_next in HO2. rewrite <- En in HO2. by destruct c.
Qed.

Lemma link_head_ring h l a xs L :
  owns h (ring l a xs ++ L) -> exists h', link_head h a a = Some h' /\ owns h' (ring (with_head a l) a xs ++ L).
Proof.
  intros HO. destruct (set_head_ring _ _ _ _ a _ HO) as (h1 & E1 & HO1); [right; by left |].
  pose proof (owns_read _ _ _ _ HO1) as [_ Hne].
  destruct (set_prev_spec _ _ _ 0 _ HO1 ltac:(done)) as (h2 & E2 & HO2). exists h2. unfold link_head. rewrite E1. cbn [mbind option_bind].
  by rewrite (proj2 (Z.eqb_neq _ 0)) by done.
Qed.

(** ** A chunk comes to a list *)

Lemma return_chunk_at_tail_spec h l a xs y sz e L :
  owns h ((y, mkTC sz 0 0 a e) :: ring l a xs ++ L) -> e = empty_list -> sz = _size l -> _head l = a -> _tail l = List.last xs a ->
  exists h', return_chunk_at_tail h a y = Some h' /\ owns h' (ring (with_count (_count l + 1) (with_tail y l)) a (xs ++ [y]) ++ L).
Proof.
  intros HO -> -> Eh Et. unfold return_chunk_at_tail. pose proof (owns_read _ _ _ _ HO) as [Ey Hy]. rewrite Ey. cbn [mbind option_bind].
  pose proof HO as HR. apply owns_cons_r in HR. rewrite (list_at_spec _ _ _ _ HR). cbn [mbind option_bind _embedded_list].
  rewrite (list_verify_spec _ _ _ _ _ _ _ HO Eh eq_refl). cbn [mbind option_bind _list negb]. pose proof (owns_read _ _ _ _ HR) as [_ Ha].
  rewrite (list_invariant_spec _ _ _ _ _ HR Eh Et). rewrite Et.
  destruct (ring_last l a xs) as (c & L' & En & _ & EP & EPy). pose proof HR as HR'. rewrite EP in HR'. pose proof (owns_read _ _ _ _ HR') as [_ Hl].
  rewrite (proj2 (Z.eqb_neq y 0)), (proj2 (Z.eqb_neq (List.last xs a) 0)), Z.eqb_refl by done. cbn [negb andb assert mbind option_bind].
  rewrite EP in HO. simpl in HO. reorder ((List.last xs a, c) :: (y, mkTC (_size l) 0 0 a empty_list) :: L' ++ L).
  destruct (link_after_spec _ _ _ _ _ _ HO) as (h1 & -> & HO1). cbn [mbind option_bind].
  assert (owns h1 (ring l a (xs ++ [y]) ++ L)) as HO1' by (rewrite EPy; exact HO1).
  destruct (link_tail_ring _ _ _ _ _ HO1') as (h2 & E2 & HO2). rewrite List.last_last in E2, HO2. rewrite E2. cbn [mbind option_bind].
  destruct (update_ring _ _ _ _ _ (with_count (_count l + 1)) ltac:(done) HO2) as (h3 & E3 & HO3). unfold set_count.
  rewrite E3. cbn [mbind option_bind].
  rewrite (list_invariant_spec _ _ _ _ _ HO3); [by exists h3 | done |]. by rewrite List.last_last.
Qed.

Lemma as_TreeList_spec min_size h tc sz ls e L :
  owns h ((tc, mkTC sz 0 0 ls e) :: L) -> min_size <= sz ->
  exists h', as_TreeList min_size h tc = Some h' /\ owns h' (cells 0 (Node Leaf sz tc [] Leaf) ++ L).
Proof.
  intros HO Hsz. unfold as_TreeList. pose proof (owns_read _ _ _ _ HO) as [-> Htc]. cbn [mbind option_bind _word_size].
  rewrite (proj2 (Z.leb_le _ _)) by done. cbn [assert mbind option_bind]. unfold initialize.
  destruct (update_list_spec _ _ _ _ (fun _ => empty_list) HO) as (h1 & -> & HO1). cbn [mbind option_bind].
  destruct (set_list_spec _ _ _ tc _ HO1) as (h2 & -> & HO2). cbn [mbind option_bind]. unfold set_size.
  destruct (update_list_spec _ _ _ _ (with_size sz) HO2)
    as (h3 & -> & HO3). cbn [mbind option_bind].
  destruct (link_head_ring h3 (mkTL 0 0 0 0 0 sz 0) tc [] L HO3) as (h4 & -> & HO4). cbn [mbind option_bind].
  destruct (link_tail_ring _ _ _ _ _ HO4) as (h5 & E5 & HO5). simpl in E5. rewrite E5. cbn [mbind option_bind]. unfold set_count.
  destruct (update_ring _ _ _ _ _ (with_count 1) ltac:(done) HO5) as (h6 & E6 & HO6).
  rewrite E6. cbn [mbind option_bind].
  rewrite (list_at_spec _ _ _ _ HO6). cbn [mbind option_bind _embedded_list]. by exists h6.
Qed.

End FreeDictCells.
