(* ===== verification/FreeDictInsert.v ===== *)
(** Searching the dictionary of free blocks, and adding a chunk to it. *)
From S2P Require Import Prelude GlobalDefinitions FreeDictionary FreeDictCells.
Import GlobalDefinitions FreeDictionary FreeDictCells.

Module FreeDictInsert.

(** ** Searches *)

(** Down to the node of the size or to the place where it would be. *)
Fixpoint search (sz : Z) (C : list frame) (t : tree) : list frame * tree :=
  match t with
  | Leaf => (C, Leaf)
  | Node l s a xs r =>
      if s =? sz then (C, t) else if s <? sz then search sz (FR l s a xs :: C) r else search sz (FL s a xs r :: C) l
  end.

Definition way (sz : Z) (f : frame) : Prop := match f with FL s _ _ _ => sz < s | FR _ s _ _ => s < sz end.

Lemma search_plug sz t : forall C, let '(C', t') := search sz C t in plug C' t' = plug C t.
Proof.
  induction t as [|l IHl s a xs r IHr]; intros C; [done |]. simpl. destruct (s =? sz); [done |].
  destruct (s <? sz); [apply (IHr (FR l s a xs :: C)) | apply (IHl (FL s a xs r :: C))].
Qed.

Lemma search_way sz t : forall C C' t', Forall (way sz) C -> search sz C t = (C', t') -> Forall (way sz) C'.
Proof.
  induction t as [|l IHl s a xs r IHr]; intros C C' t' HC E; simpl in E; [by simplify_eq |].
  destruct (Z.eqb_spec s sz); [by simplify_eq |].
  destruct (Z.ltb_spec s sz); [eapply IHr in E | eapply IHl in E]; [done | by constructor | done | constructor; [simpl; lia | done]].
Qed.

Lemma search_found sz t : forall C C' t', search sz C t = (C', t') -> match t' with Leaf => True | Node _ s _ _ _ => s = sz end.
Proof.
  induction t as [|l IHl s a xs r IHr]; intros C C' t' E; simpl in E; [by simplify_eq |].
  destruct (Z.eqb_spec s sz); [by simplify_eq |]. destruct (s <? sz); [by eapply IHr | by eapply IHl].
Qed.

Lemma owns_root h par t L : owns h (cells par t ++ L) -> root t = 0 -> t = Leaf.
Proof. destruct t as [|l s a xs r]; [done |]. intros HO E. rewrite cells_node in HO. by apply owns_read in HO as [_ ?]. Qed.

Lemma node_read h par l s a xs r L :
  owns h (cells par (Node l s a xs r) ++ L) -> list_at h a = Some (node_list par (root l) (root r) s a xs) /\ a <> 0.
Proof. rewrite cells_node. intros HO. split; [by apply list_at_spec in HO | by apply owns_read in HO as [_ ?]]. Qed.

Lemma cells_left h par l s a xs r L : owns h (cells par (Node l s a xs r) ++ L) -> exists L', owns h (cells a l ++ L').
Proof. intros HO. exists (ring (node_list par (root l) (root r) s a xs) a xs ++ cells a r ++ L). simpl in HO. 
  reorder (cells a l ++ ring (node_list par (root l) (root r) s a xs) a xs ++ cells a r ++ L). done. Qed.
Lemma cells_right h par l s a xs r L : owns h (cells par (Node l s a xs r) ++ L) -> exists L', owns h (cells a r ++ L').
Proof. intros HO. exists (ring (node_list par (root l) (root r) s a xs) a xs ++ cells a l ++ L). simpl in HO. 
  reorder (cells a r ++ ring (node_list par (root l) (root r) s a xs) a xs ++ cells a l ++ L). done. Qed.

Lemma cells_length par l s a xs r :
  length (cells par (Node l s a xs r)) = (S (length xs) + length (cells a l) + length (cells a r))%nat.
Proof. change (cells par (Node l s a xs r)) with (ring (node_list par (root l) (root r) s a xs) a xs ++ cells a l ++ cells a r).
  rewrite !length_app, ring_length. lia. Qed.

Lemma cells_rounds h par t L : owns h (cells par t ++ L) -> (length (cells par t) < rounds h)%nat.
Proof. intros HO%owns_size. rewrite length_app in HO. unfold rounds. lia. Qed.

Lemma descend_spec h sz t : forall par L C prev fuel C' t',
  owns h (cells par t ++ L) -> (length (cells par t) < fuel)%nat -> prev = ctx_addr C \/ t <> Leaf -> search sz C t = (C', t') ->
  exists prev', descend h sz prev (root t) fuel = Some (prev', root t') /\ (t' = Leaf -> prev' = ctx_addr C').
Proof.
  induction t as [|l IHl s a xs r IHr]; intros par L C prev fuel C' t' HO Hf Hp E; (destruct fuel as [|fuel]; [lia |]).
  - simpl in E. simplify_eq. exists prev. split; [done |]. intros _. by destruct Hp.
  - destruct (node_read _ _ _ _ _ _ _ _ HO) as [Er Ha]. rewrite cells_length in Hf. cbn [descend root].
    rewrite (proj2 (Z.eqb_neq a 0)) by done. rewrite Er. cbn [mbind option_bind node_list _size _left _right]. simpl in E.
    destruct (s =? sz); [simplify_eq; by exists prev |].
    destruct (cells_left _ _ _ _ _ _ _ _ HO) as (L1 & HO1), (cells_right _ _ _ _ _ _ _ _ HO) as (L2 & HO2).
    destruct (s <? sz); [eapply IHr in E | eapply IHl in E]; eauto; lia.
Qed.

(** ** Adding a chunk *)

Definition grow (sz y : Z) (t : tree) : tree :=
  match t with Leaf => Node Leaf sz y [] Leaf | Node l s a xs r => Node l s a (xs ++ [y]) r end.

Definition tree_insert (sz y : Z) (T : tree) : tree := let '(C, t) := search sz [] T in plug C (grow sz y t).

(** The fields of the node of a frame. *)
Definition frame_list (par p : Z) (f : frame) : TreeList :=
  match f with FL sz a xs r => node_list par p (root r) sz a xs | FR l sz a xs => node_list par (root l) p sz a xs end.

Lemma frame_read h par p f L :
  owns h (frame_cells par p f ++ L) -> list_at h (frame_addr f) = Some (frame_list par p f) /\ frame_addr f <> 0.
Proof. destruct f; simpl; intros HO; (split; [by apply list_at_spec in HO | by apply owns_read in HO as [_ ?]]). Qed.

Lemma node_list_snoc par lp rp sz a xs y :
  with_count (_count (node_list par lp rp sz a xs) + 1) (with_tail y (node_list par lp rp sz a xs)) = node_list par lp rp sz a (xs ++ [y]).
Proof. unfold node_list, with_count, with_tail. simpl. rewrite List.last_last, length_app. simpl. f_equal. lia. Qed.

Section Insert.
Context (min_size : Z).

Lemma plug_node l s a xs r l' s' xs' r' C : root (plug C (Node l s a xs r)) = root (plug C (Node l' s' a xs' r')).
Proof. destruct C as [|f C]; [done |]. apply root_plug. Qed.

(** A node of its own. *)
Lemma place_new h C sz y ls L :
  owns h (ctx_cells C 0 ++ (y, mkTC sz 0 0 ls empty_list) :: L) -> Forall (way sz) C -> min_size <= sz ->
  exists h', place_chunk min_size h (root (plug C Leaf)) sz y (ctx_addr C) 0 = Some (h', root (plug C (Node Leaf sz y [] Leaf))) /\
    owns h' (ctx_cells C y ++ cells (ctx_addr C) (Node Leaf sz y [] Leaf) ++ L).
Proof.
  intros HO HW Hmin. unfold place_chunk. change (negb (0 =? 0)) with false. cbv iota. set (new := Node Leaf sz y [] Leaf).
  reorder ((y, mkTC sz 0 0 ls empty_list) :: ctx_cells C 0 ++ L).
  destruct (set_next_spec _ _ _ 0 _ HO) as (h4 & -> & HO4); [by apply owns_read in HO as [_ ?] |]. cbn [mbind option_bind].
  destruct (set_prev_spec _ _ _ 0 _ HO4) as (h5 & -> & HO5); [by apply owns_read in HO as [_ ?] |]. cbn [mbind option_bind].
  destruct (as_TreeList_spec min_size _ _ sz _ _ _ HO5 Hmin) as (h6 & -> & HO6). cbn [mbind option_bind].
  assert (h6 !! y = Some (mkTC sz 0 0 y (node_list 0 0 0 sz y []))) as -> by (by apply owns_read in HO6 as [? _]).
  cbn [mbind option_bind _list]. rewrite Z.eqb_refl. cbn [assert mbind option_bind].
  destruct C as [|f C]; [by exists h6 |]. cbn [ctx_addr ctx_cells] in HO6 |- *.
  reorder_in HO6 (frame_cells (ctx_addr C) 0 f ++ cells 0 new ++ ctx_cells C (frame_addr f) ++ L).
  destruct (frame_read _ _ _ _ _ HO6) as [Ef Hf]. rewrite (proj2 (Z.eqb_neq _ 0)) by done. rewrite Ef. cbn [mbind option_bind].
  destruct (set_child_spec _ _ _ _ _ new _ HO6) as (h7 & E7 & HO7). apply Forall_cons in HW as [Hway _].
  assert ((if _size (frame_list (ctx_addr C) 0 f) <? sz
           then _ ← assert (_right (frame_list (ctx_addr C) 0 f) =? 0); set_right h6 (frame_addr f) y
           else _ ← assert ((sz <? _size (frame_list (ctx_addr C) 0 f)) && (_left (frame_list (ctx_addr C) 0 f) =? 0));
                set_left h6 (frame_addr f) y) = Some h7) as ->.
  { rewrite <- E7. destruct f; simpl in Hway |- *.
    - rewrite (proj2 (Z.ltb_ge _ _)), (proj2 (Z.ltb_lt _ _)) by lia. done.
    - by rewrite (proj2 (Z.ltb_lt _ _)) by lia. }
  cbn [mbind option_bind]. assert (root (plug (f :: C) Leaf) = root (plug (f :: C) new)) as -> by apply root_plug.
  exists h7. split; [done |]. eapply owns_proper; [| exact HO7]. solve_Permutation.
Qed.

(** At the end of the list of its size. *)
Lemma place_old h rt C l sz a xs r y ls L prevTL :
  owns h (ctx_cells C a ++ cells (ctx_addr C) (Node l sz a xs r) ++ (y, mkTC sz 0 0 ls empty_list) :: L) ->
  exists h', place_chunk min_size h rt sz y prevTL a = Some (h', rt) /\
    owns h' (ctx_cells C a ++ cells (ctx_addr C) (Node l sz a (xs ++ [y]) r) ++ L).
Proof.
  intros HO. unfold place_chunk.
  reorder (cells (ctx_addr C) (Node l sz a xs r) ++ (y, mkTC sz 0 0 ls empty_list) :: ctx_cells C a ++ L). destruct (node_read _ _ _ _ _ _ _ _ HO) as [_ Ha].
  rewrite (proj2 (Z.eqb_neq a 0)) by done. cbn [negb].
  reorder ((y, mkTC sz 0 0 ls empty_list) :: cells (ctx_addr C) (Node l sz a xs r) ++ ctx_cells C a ++ L).
  destruct (set_list_spec _ _ _ a _ HO) as (h4 & -> & HO4). cbn [mbind option_bind].
  set (nl := node_list (ctx_addr C) (root l) (root r) sz a xs).
  assert (owns h4 ((y, mkTC sz 0 0 a empty_list) :: ring nl a xs ++ cells a l ++ cells a r ++ ctx_cells C a ++ L)) as HO4'.
  { eapply owns_proper; [| exact HO4]. simpl. fold nl. solve_Permutation. }
  destruct (return_chunk_at_tail_spec _ _ _ _ _ _ _ _ HO4') as (h5 & -> & HO5); [done | done | done | done |].
  cbn [mbind option_bind]. unfold nl in HO5. rewrite node_list_snoc in HO5. exists h5. split; [done |].
  eapply owns_proper; [| exact HO5]. simpl. solve_Permutation.
Qed.

Lemma insert_spec h ts n T y c L :
  owns h (cells 0 T ++ (y, c) :: L) -> min_size <= _word_size c ->
  exists h', insert_chunk_in_tree min_size (mkDict h ts n (root T)) y =
      Some (mkDict h' (size_t (ts + _word_size c)) (size_t (n + 1)) (root (tree_insert (_word_size c) y T))) /\
    owns h' (cells 0 (tree_insert (_word_size c) y T) ++ L).
Proof.
  intros HO Hmin. unfold insert_chunk_in_tree. cbn [mem _root _total_size _total_free_blocks]. cbv zeta.
  reorder ((y, c) :: cells 0 T ++ L). pose proof (owns_read _ _ _ _ HO) as [-> Hy]. cbn [mbind option_bind]. set (sz := _word_size c) in *.
  rewrite (proj2 (Z.leb_le _ _)) by done. cbn [assert mbind option_bind].
  destruct (set_next_spec _ _ _ 0 _ HO ltac:(done)) as (h1 & -> & HO1). cbn [mbind option_bind].
  destruct (set_prev_spec _ _ _ 0 _ HO1 ltac:(done)) as (h2 & -> & HO2). cbn [mbind option_bind].
  unfold tree_insert. destruct (search sz [] T) as [C t] eqn:Es.
  pose proof (search_plug sz T []) as HP. rewrite Es in HP. simpl in HP.
  pose proof (search_way sz T [] C t ltac:(constructor) Es) as HW. pose proof (search_found sz T [] C t Es) as HF.
  assert (exists prevTL, descend h2 sz (root T) (root T) (rounds h2) = Some (prevTL, root t) /\ (t = Leaf -> prevTL = ctx_addr C))
    as (prevTL & -> & Hprev).
  { pose proof HO2 as HO2'. apply owns_cons_r in HO2'. pose proof (cells_rounds _ _ _ _ HO2').
    eapply descend_spec; [exact HO2' | done | | exact Es]. destruct T; [by left | by right]. }
  cbn [mbind option_bind]. unfold initialize. destruct (update_list_spec _ _ _ _ (fun _ => empty_list) HO2) as (h3 & -> & HO3).
  cbn [mbind option_bind]. rewrite <- HP in HO3. rewrite cells_plug in HO3. change (on_list _ _) with (mkTC sz 0 0 (_list c) empty_list) in HO3.
  assert (exists h' l a xs r, grow sz y t = Node l sz a xs r /\ y ∈ a :: xs /\
            place_chunk min_size h3 (root T) sz y prevTL (root t) = Some (h', root (plug C (grow sz y t))) /\
            owns h' (ctx_cells C a ++ cells (ctx_addr C) (Node l sz a xs r) ++ L)) as (h4 & l & a & xs & r & -> & Hin & -> & HO4).
  { rewrite <- HP. destruct t as [|l s a xs r]; simpl grow.
    - rewrite Hprev by done. cbn [root cells app] in HO3. reorder_in HO3 (ctx_cells C 0 ++ (y, mkTC sz 0 0 (_list c) empty_list) :: L).
      destruct (place_new _ _ _ _ _ _ HO3 HW Hmin) as (h' & E & HO'). exists h', Leaf, y, [], Leaf. split_and!; [done | by left | done | done].
    - subst s. reorder_in HO3 (ctx_cells C a ++ cells (ctx_addr C) (Node l sz a xs r) ++ (y, mkTC sz 0 0 (_list c) empty_list) :: L).
      destruct (place_old _ (root (plug C (Node l sz a xs r))) _ _ _ _ _ _ _ _ _ prevTL HO3) as (h' & E & HO'). exists h', l, a, (xs ++ [y]), r.
      split_and!; [done | right; apply elem_of_app; right; by left | | done]. simpl root. rewrite E. do 2 f_equal. apply plug_node. }
  cbn [mbind option_bind]. exists h4. set (nl := node_list (ctx_addr C) (root l) (root r) sz a xs). pose proof HO4 as HOr.
  reorder_in HOr (ring nl a xs ++ cells a l ++ cells a r ++ ctx_cells C a ++ L). pose proof (owns_read _ _ _ _ HOr) as [_ Ha].
  destruct (ring_member nl a xs y Hin) as (cy & L' & EP & _ & El). rewrite EP in HOr. apply owns_read in HOr as [-> _]. cbn [mbind option_bind].
  rewrite El, (proj2 (Z.eqb_neq a 0)) by done. split; [done |]. rewrite cells_plug. eapply owns_proper; [| exact HO4]. simpl. solve_Permutation.
Qed.

End Insert.

End FreeDictInsert.
