(* ===== verification/FreeDictRemove.v ===== *)
(** A chunk leaves its list in the dictionary of free blocks. *)
From S2P Require Import Prelude GlobalDefinitions FreeDictionary FreeDictCells FreeDictInsert.
Import GlobalDefinitions FreeDictionary FreeDictCells FreeDictInsert.

Module FreeDictRemove.

(** ** Nodes and their parents *)

Lemma is_child_spec h C p c L :
  owns h (ctx_cells C p ++ (p, c) :: L) -> _parent (_embedded_list c) = ctx_addr C -> is_child h p = Some tt.
Proof.
  intros HO Ep. unfold is_child. assert (list_at h p = Some (_embedded_list c)) as ->.
  { reorder ((p, c) :: ctx_cells C p ++ L). by apply list_at_spec in HO. }
  cbn [mbind option_bind]. rewrite Ep. destruct C as [|f C]; [done |]. cbn [ctx_addr ctx_cells] in *.
  rewrite <- app_assoc in HO. destruct (frame_read _ _ _ _ _ HO) as [-> Hf]. rewrite (proj2 (Z.eqb_neq _ 0)) by done. cbn [mbind option_bind].
  destruct f; simpl; rewrite Z.eqb_refl; [done | by rewrite orb_true_r].
Qed.

Lemma root_ne h par t p c L : owns h (cells par t ++ (p, c) :: L) -> root t <> p.
Proof.
  destruct t as [|l s a xs r]; simpl root; intros HO.
  - reorder ((p, c) :: L). apply owns_read in HO as [_ ?]. congruence.
  - rewrite cells_node in HO. simpl in HO.
    reorder ((a, mkTC s 0 (first xs 0) a (node_list par (root l) (root r) s a xs)) :: (p, c) :: seg a s a xs 0 ++ cells a l ++ cells a r ++ L).
    by apply owns_ne in HO.
Qed.

(** The child of a frame becomes the node of a cell. *)
Lemma set_child_cell h f par p q c L :
  owns h (frame_cells par p f ++ (q, c) :: L) ->
  exists h', set_child h f q = Some h' /\ owns h' (frame_cells par q f ++ (q, on_list (with_parent (frame_addr f)) c) :: L).
Proof.
  intros HO. assert (exists h1, match f with FL _ a _ _ => update_list h a (with_left q) | FR _ _ a _ => update_list h a (with_right q) end
      = Some h1 /\ owns h1 (frame_cells par q f ++ (q, c) :: L)) as (h1 & E1 & HO1).
  { destruct f as [sz a xs r|l sz a xs]; simpl in HO |- *.
    - by apply update_list_spec with (f := with_left q) in HO.
    - by apply update_list_spec with (f := with_right q) in HO. }
  reorder_in HO1 ((q, c) :: frame_cells par q f ++ L). pose proof (owns_read _ _ _ _ HO1) as [_ Hq].
  destruct (update_list_spec _ _ _ _ (with_parent (frame_addr f)) HO1) as (h2 & E2 & HO2). exists h2. split.
  - destruct f; simpl in *; unfold set_left, set_right; rewrite E1; cbn [mbind option_bind]; by rewrite (proj2 (Z.eqb_neq q 0)) by done.
  - eapply owns_proper; [| exact HO2]. solve_Permutation.
Qed.

(** ** The second half of a removal *)

Lemma finish_spec h C l a xs x c prevFC nextTC L :
  owns h (ctx_cells C a ++ ring l a xs ++ (x, c) :: L) -> _parent l = ctx_addr C -> _head l = a -> _tail l = List.last xs a ->
  1 <= _count l -> prevFC = 0 \/ prevFC ∈ a :: xs -> nextTC = 0 \/ nextTC ∈ a :: xs ->
  exists h', finish_removal h a x prevFC nextTC = Some (h', a) /\
    owns h' (ctx_cells C a ++ ring (with_count (_count l - 1) l) a xs ++ (x, mkTC (_word_size c) 0 0 0 (_embedded_list c)) :: L).
Proof.
  intros HO Ep Eh Et Hcount Hprev Hnext. unfold finish_removal.
  reorder (ring l a xs ++ ctx_cells C a ++ (x, c) :: L). rewrite (list_at_spec _ _ _ _ HO). cbn [mbind option_bind _embedded_list].
  rewrite (size_is_ring _ _ _ _ _ _ HO) by (rewrite Eh; right; by left). cbn [mbind option_bind].
  reorder ((x, c) :: ring l a xs ++ ctx_cells C a ++ L). pose proof (owns_read _ _ _ _ HO) as [_ Hx].
  destruct (set_prev_spec _ _ _ 0 _ HO ltac:(done)) as (h1 & -> & HO1). cbn [mbind option_bind].
  destruct (set_next_spec _ _ _ 0 _ HO1 ltac:(done)) as (h2 & -> & HO2). cbn [mbind option_bind].
  destruct (set_list_spec _ _ _ 0 _ HO2) as (h3 & -> & HO3). cbn [mbind option_bind].
  change (with_list 0 _) with (mkTC (_word_size c) 0 0 0 (_embedded_list c)) in HO3.
  set (c' := mkTC (_word_size c) 0 0 0 (_embedded_list c)) in *.
  reorder_in HO3 (ring l a xs ++ (x, c') :: ctx_cells C a ++ L). rewrite (list_at_spec _ _ _ _ HO3). cbn [mbind option_bind _embedded_list].
  assert (walk h3 (_head l) (rounds h3) = Some (a :: xs)) as ->.
  { rewrite Eh. pose proof (ring_rounds _ _ _ _ _ HO3). destruct (rounds h3) as [|n]; [lia |]. cbn [walk].
    pose proof (owns_read _ _ _ _ HO3) as [-> Ha]. rewrite (proj2 (Z.eqb_neq a 0)) by done. cbn [mbind option_bind _next].
    by rewrite (walk_spec h3 a (_size l) xs a _ n (owns_cons_r _ _ _ HO3)) by lia. }
  cbn [mbind option_bind]. assert (x ∉ a :: xs) as Hnot.
  { intros Hin. destruct (ring_member l a xs x Hin) as (cx & L' & EP & _). rewrite EP in HO3.
    reorder_in HO3 ((x, cx) :: (x, c') :: L' ++ ctx_cells C a ++ L). by apply owns_ne in HO3. }
  rewrite (bool_decide_eq_false_2 (x ∈ a :: xs)) by done. cbn [negb assert mbind option_bind].
  assert ((prevFC =? 0) || bool_decide (prevFC ∈ a :: xs) = true) as ->.
  { destruct Hprev as [->|Hp]; [done |]. by rewrite bool_decide_eq_true_2, orb_true_r. }
  assert ((nextTC =? 0) || bool_decide (nextTC ∈ a :: xs) = true) as ->.
  { destruct Hnext as [->|Hp]; [done |]. by rewrite bool_decide_eq_true_2, orb_true_r. }
  cbn [assert mbind option_bind].
  assert (is_child h3 a = Some tt) as ->.
  { reorder_in HO3 (ctx_cells C a ++ ring l a xs ++ (x, c') :: L). by eapply is_child_spec in HO3. }
  cbn [mbind option_bind]. destruct (update_ring _ _ _ _ _ (with_count (_count l - 1)) ltac:(done) HO3) as (h4 & E4 & HO4).
  unfold set_count. rewrite E4. cbn [mbind option_bind]. rewrite (proj2 (Z.leb_le 0 _)) by lia. cbn [assert mbind option_bind].
  rewrite (list_invariant_spec _ _ _ _ _ HO4) by done. cbn [mbind option_bind]. exists h4. split; [done |].
  eapply owns_proper; [| exact HO4]. solve_Permutation.
Qed.

(** ** The first half *)

(** The list before, around and after a place. *)
Lemma ring_at l a ys : exists c L, _word_size c = _size l /\
  forall ws, ring l a (ys ++ ws) ≡ₚ (List.last ys a, with_next (first ws 0) c) :: seg a (_size l) (List.last ys a) ws 0 ++ L.
Proof.
  unfold ring. destruct ys as [|z ys _] using rev_ind.
  - exists (mkTC (_size l) 0 0 a l), []. split; [done |]. intros ws. simpl. unfold with_next. simpl. by rewrite app_nil_r.
  - exists (mkTC (_size l) (List.last ys a) 0 a empty_list), ((a, mkTC (_size l) 0 (first (ys ++ [z]) 0) a l) :: seg a (_size l) a ys z).
    split; [done |]. intros ws. rewrite List.last_last, <- app_assoc. simpl. rewrite seg_app. simpl.
    destruct ys; simpl; solve_Permutation.
Qed.

Lemma unlink_inner h l a ys x zs L :
  owns h (ring l a (ys ++ x :: zs) ++ L) -> _tail l = List.last (ys ++ x :: zs) a ->
  exists h', (h ← (if first zs 0 =? 0 then link_tail h a (List.last ys a) else Some h); link_after h (List.last ys a) (first zs 0)) = Some h' /\
    owns h' (ring (with_tail (List.last (ys ++ zs) a) l) a (ys ++ zs) ++ (x, mkTC (_size l) (List.last ys a) (first zs 0) a empty_list) :: L).
Proof.
  intros HO Et. destruct zs as [|z zs].
  - simpl first. change (0 =? 0) with true. cbv iota. rewrite app_nil_r.
    destruct (set_tail_ring _ _ _ _ (List.last ys a) _ HO) as (h1 & E1 & HO1).
    { right. pose proof (last_member ys a) as [->|Hm]%elem_of_cons; [by left | right; apply elem_of_app; by left]. }
    destruct (ring_at (with_tail (List.last ys a) l) a ys) as (c & L' & _ & EP). rewrite (EP [x]) in HO1. simpl in HO1.
    pose proof (owns_read _ _ _ _ HO1) as [_ Hl].
    destruct (set_next_spec _ _ _ 0 _ HO1 ltac:(done)) as (h2 & E2 & HO2). unfold link_tail. rewrite E1. cbn [mbind option_bind].
    rewrite (proj2 (Z.eqb_neq _ 0)) by done. rewrite E2. cbn [mbind option_bind].
    destruct (link_after_null _ _ _ _ HO2) as (h3 & E3 & HO3). exists h3. split; [done |].
    pose proof (EP []) as EP0. rewrite app_nil_r in EP0. rewrite EP0. eapply owns_proper; [| exact HO3]. simpl. solve_Permutation.
  - simpl first. destruct (ring_at l a ys) as (c & L' & _ & EP). rewrite (EP (x :: z :: zs)) in HO. simpl in HO.
    reorder ((List.last ys a, with_next x c) :: (z, mkTC (_size l) x (first zs 0) a empty_list) ::
      (x, mkTC (_size l) (List.last ys a) z a empty_list) :: seg a (_size l) z zs 0 ++ L' ++ L).
    assert (z <> 0) as Hz by (reorder_in HO ((z, mkTC (_size l) x (first zs 0) a empty_list) :: (List.last ys a, with_next x c) ::
      (x, mkTC (_size l) (List.last ys a) z a empty_list) :: seg a (_size l) z zs 0 ++ L' ++ L); by apply owns_read in HO as [_ ?]).
    rewrite (proj2 (Z.eqb_neq z 0)) by done. cbn [mbind option_bind].
    destruct (link_after_spec _ _ _ _ _ _ HO) as (h1 & E1 & HO1). exists h1. split; [done |].
    assert (with_tail (List.last (ys ++ z :: zs) a) l = l) as ->.
    { destruct l. unfold with_tail. simpl in *. f_equal. rewrite Et. clear. induction ys as [|y ys IH]; [done |].
      simpl. destruct ys; [done |]. exact IH. }
    rewrite (EP (z :: zs)). eapply owns_proper; [| exact HO1]. simpl. solve_Permutation.
Qed.

Lemma set_lists_spec tl tl' sz xs : forall h prev L fuel,
  owns h (seg tl sz prev xs 0 ++ L) -> (length xs < fuel)%nat ->
  exists h', set_lists h (first xs 0) tl' fuel = Some h' /\ owns h' (seg tl' sz prev xs 0 ++ L).
Proof.
  induction xs as [|x xs IH]; intros h prev L fuel HO Hf; (destruct fuel as [|fuel]; [simpl in Hf; lia |]); [by exists h |].
  simpl in HO, Hf |- *. pose proof (owns_read _ _ _ _ HO) as [_ Hx]. rewrite (proj2 (Z.eqb_neq x 0)) by done.
  destruct (set_list_spec _ _ _ tl' _ HO) as (h1 & -> & HO1). cbn [mbind option_bind].
  pose proof (owns_read _ _ _ _ HO1) as [-> _]. cbn [mbind option_bind with_list _next].
  set (cx := with_list tl' _) in HO1. reorder_in HO1 (seg tl sz x xs 0 ++ (x, cx) :: L).
  destruct (IH h1 x _ fuel HO1 ltac:(lia)) as (h2 & -> & HO2). exists h2. split; [done |].
  eapply owns_proper; [| exact HO2]. unfold cx. simpl. solve_Permutation.
Qed.

(** The parent of a node learns of its new address. *)
Lemma parent_learns h C a b ca cb L :
  owns h (ctx_cells C a ++ (a, ca) :: (b, cb) :: L) -> _parent (_embedded_list cb) = ctx_addr C ->
  exists h', (if _parent (_embedded_list cb) =? 0 then Some h else
                p ← list_at h (_parent (_embedded_list cb));
                if a =? _left p then set_left h (_parent (_embedded_list cb)) b
                else _ ← assert (a =? _right p); set_right h (_parent (_embedded_list cb)) b) = Some h' /\
    owns h' (ctx_cells C b ++ (a, ca) :: (b, cb) :: L).
Proof.
  intros HO Ep. rewrite Ep. destruct C as [|f C]; [by exists h |]. cbn [ctx_addr ctx_cells] in *.
  reorder (frame_cells (ctx_addr C) a f ++ (b, cb) :: (a, ca) :: ctx_cells C (frame_addr f) ++ L).
  destruct (frame_read _ _ _ _ _ HO) as [-> Hf]. rewrite (proj2 (Z.eqb_neq _ 0)) by done. cbn [mbind option_bind].
  destruct (set_child_cell _ _ _ _ _ _ _ HO) as (h1 & E1 & HO1). exists h1. split.
  - destruct f as [sz n xs r|l sz n xs]; simpl in E1 |- *; [by rewrite Z.eqb_refl |].
    assert (root l <> a) as Hne.
    { simpl in HO. reorder (cells n l ++ (a, ca) :: ring (node_list (ctx_addr C) (root l) a sz n xs) n xs ++ (b, cb) :: ctx_cells C n ++ L).
      by apply root_ne in HO. }
    rewrite (proj2 (Z.eqb_neq a (root l))), Z.eqb_refl by done. done.
  - assert (on_list (with_parent (frame_addr f)) cb = cb) as E.
    { destruct cb as [? ? ? ? [? ? ? ? ? ? ?]]. simpl in Ep. by rewrite Ep. }
    rewrite E in HO1. eapply owns_proper; [| exact HO1]. solve_Permutation.
Qed.

Lemma child_learns h a b t L :
  owns h (cells a t ++ L) -> exists h', (if root t =? 0 then Some h else set_parent h (root t) b) = Some h' /\ owns h' (cells b t ++ L).
Proof.
  intros HO. destruct (Z.eqb_spec (root t) 0) as [E0|Hne].
  - rewrite (owns_root _ _ _ _ HO E0) in HO |- *. by exists h.
  - by apply set_parent_tree with a.
Qed.

Lemma move_node_spec h C l sz a b bs r L :
  owns h (ctx_cells C a ++ cells (ctx_addr C) (Node l sz a (b :: bs) r) ++ L) ->
  exists h' ca, move_node h a a b = Some h' /\ _word_size ca = sz /\ _embedded_list ca = node_list (ctx_addr C) (root l) (root r) sz a (b :: bs) /\
    owns h' (ctx_cells C b ++ ring (with_head b (node_list (ctx_addr C) (root l) (root r) sz a (b :: bs))) b bs ++
             (a, ca) :: cells b l ++ cells b r ++ L).
Proof.
  intros HO. unfold move_node. set (nl := node_list (ctx_addr C) (root l) (root r) sz a (b :: bs)).
  set (ca := mkTC sz 0 b a nl). rewrite cells_node in HO. simpl in HO. fold nl in HO.
  reorder ((a, ca) :: (b, mkTC sz a (first bs 0) a empty_list) :: seg a sz b bs 0 ++ ctx_cells C a ++ cells a l ++ cells a r ++ L).
  pose proof (owns_read _ _ _ _ HO) as [-> Ha]. cbn [mbind option_bind _embedded_list]. change (_embedded_list ca) with nl.
  reorder ((b, mkTC sz a (first bs 0) a empty_list) :: (a, ca) :: seg a sz b bs 0 ++ ctx_cells C a ++ cells a l ++ cells a r ++ L).
  pose proof (owns_read _ _ _ _ HO) as [_ Hb].
  destruct (update_list_spec _ _ _ _ (fun _ => nl) HO) as (h1 & -> & HO1). cbn [mbind option_bind]. cbv zeta.
  assert (exists h2, set_lists h1 b b (rounds h1) = Some h2 /\
    owns h2 ((b, mkTC sz a (first bs 0) b nl) :: (a, ca) :: seg b sz b bs 0 ++ ctx_cells C a ++ cells a l ++ cells a r ++ L))
    as (h2 & -> & HO2).
  { pose proof HO1 as Hlen. apply owns_size in Hlen. simpl in Hlen. rewrite length_app in Hlen.
    assert (length (seg a sz b bs 0) = length bs) as Es by (clear; generalize b; induction bs as [|x bs IH]; intros p; [done |]; simpl; by rewrite IH).
    unfold rounds. cbn [set_lists]. rewrite (proj2 (Z.eqb_neq b 0)) by done.
    destruct (set_list_spec _ _ _ b _ HO1) as (h2 & -> & HO2). cbn [mbind option_bind]. pose proof (owns_read _ _ _ _ HO2) as [-> _].
    cbn [mbind option_bind with_list on_list _next]. set (cb := with_list b _) in HO2.
    reorder_in HO2 (seg a sz b bs 0 ++ (b, cb) :: (a, ca) :: ctx_cells C a ++ cells a l ++ cells a r ++ L).
    destruct (set_lists_spec a b sz bs h2 b _ (size h1) HO2 ltac:(lia)) as (h3 & E3 & HO3). exists h3. split; [done |].
    eapply owns_proper; [| exact HO3]. unfold cb. simpl. solve_Permutation. }
  cbn [mbind option_bind]. set (cb := mkTC sz a (first bs 0) b nl) in *. rewrite (list_at_spec _ _ _ _ HO2). cbn [mbind option_bind].
  reorder_in HO2 (ctx_cells C a ++ (a, ca) :: (b, cb) :: seg b sz b bs 0 ++ cells a l ++ cells a r ++ L).
  destruct (parent_learns _ _ _ _ _ _ _ HO2 eq_refl) as (h3 & -> & HO3). cbn [mbind option_bind].
  assert (forall h l' r', owns h (ctx_cells C b ++ (a, ca) :: (b, cb) :: seg b sz b bs 0 ++ cells l' l ++ cells r' r ++ L) ->
    list_at h a = Some nl /\ list_at h b = Some nl) as Hread.
  { intros h0 l' r' H0. split.
    - reorder_in H0 ((a, ca) :: ctx_cells C b ++ (b, cb) :: seg b sz b bs 0 ++ cells l' l ++ cells r' r ++ L). by apply list_at_spec in H0.
    - reorder_in H0 ((b, cb) :: (a, ca) :: ctx_cells C b ++ seg b sz b bs 0 ++ cells l' l ++ cells r' r ++ L). by apply list_at_spec in H0. }
  destruct (Hread _ _ _ HO3) as [-> ->]. cbn [mbind option_bind]. rewrite Z.eqb_refl. cbn [assert mbind option_bind].
  change (_right nl) with (root r). reorder_in HO3 (cells a r ++ ctx_cells C b ++ (a, ca) :: (b, cb) :: seg b sz b bs 0 ++ cells a l ++ L).
  destruct (child_learns _ _ b _ _ HO3) as (h4 & -> & HO4). cbn [mbind option_bind].
  reorder_in HO4 (ctx_cells C b ++ (a, ca) :: (b, cb) :: seg b sz b bs 0 ++ cells a l ++ cells b r ++ L).
  destruct (Hread _ _ _ HO4) as [-> ->]. cbn [mbind option_bind]. rewrite Z.eqb_refl. cbn [assert mbind option_bind].
  change (_left nl) with (root l). reorder_in HO4 (cells a l ++ ctx_cells C b ++ (a, ca) :: (b, cb) :: seg b sz b bs 0 ++ cells b r ++ L).
  destruct (child_learns _ _ b _ _ HO4) as (h5 & -> & HO5). cbn [mbind option_bind]. unfold link_head, set_head.
  reorder_in HO5 ((b, cb) :: seg b sz b bs 0 ++ cells b l ++ ctx_cells C b ++ (a, ca) :: cells b r ++ L).
  destruct (update_list_spec _ _ _ _ (with_head b) HO5) as (h6 & -> & HO6). cbn [mbind option_bind].
  unfold size_is. rewrite (proj2 (Z.eqb_neq b 0)) by done. pose proof (owns_read _ _ _ _ HO6) as [-> _].
  rewrite (list_at_spec _ _ _ _ HO6). cbn [mbind option_bind on_list _word_size _embedded_list with_head _size]. rewrite Z.eqb_refl.
  cbn [assert mbind option_bind]. destruct (set_prev_spec _ _ _ 0 _ HO6 ltac:(done)) as (h7 & E7 & HO7).
  exists h7, ca. split_and!; [done | done | done |]. eapply owns_proper; [| exact HO7]. unfold ring. simpl. solve_Permutation.
Qed.

(** ** Removal from a list *)

Section Replace.
Context (h : memory) (C : list frame) (l : tree) (sz a : Z) (xs : list Z) (r : tree) (L : list (Z * TreeChunk)).
Hypothesis HO : owns h (ctx_cells C a ++ cells (ctx_addr C) (Node l sz a xs r) ++ L).

Let nl := node_list (ctx_addr C) (root l) (root r) sz a xs.

(** The part before the chunk is looked at. *)
Lemma replace_start x :
  x ∈ a :: xs ->
  remove_chunk_replace_if_needed h a x =
  (c ← h !! x;
   '(h, retTL) ←
     (if x =? a then
        if _next c =? 0 then _ ← assert (_prev c =? 0); h ← set_tail h a 0; h ← set_head h a 0; Some (h, a)
        else h ← move_node h a x (_next c); Some (h, _next c)
      else
        h ← (if _next c =? 0 then link_tail h a (_prev c) else Some h); h ← link_after h (_prev c) (_next c); Some (h, a));
   finish_removal h retTL x (_prev c) (_next c)).
Proof using HO.
  intros Hx. unfold remove_chunk_replace_if_needed.
  reorder (ring nl a xs ++ ctx_cells C a ++ cells a l ++ cells a r ++ L). rewrite (list_at_spec _ _ _ _ HO). cbn [mbind option_bind _embedded_list].
  pose proof (owns_read _ _ _ _ HO) as [Ea Ha]. change (_head nl) with a. cbv zeta. rewrite (proj2 (Z.eqb_neq a 0)) by done. rewrite Ea.
  cbn [mbind option_bind _next].
  assert (a <> first xs 0) as Hne.
  { destruct xs as [|b bs]; [done |]. unfold ring in HO. simpl in HO. by apply owns_ne in HO. }
  rewrite (proj2 (Z.eqb_neq a (first xs 0))) by done. cbn [negb assert mbind option_bind].
  assert (x <> 0) as Hx0.
  { destruct (ring_member nl a xs x Hx) as (c & L' & EP & _). pose proof HO as HO'. rewrite EP in HO'. by apply owns_read in HO' as [_ ?]. }
  rewrite (proj2 (Z.eqb_neq x 0)) by done. cbn [negb assert mbind option_bind].
  assert (is_child h a = Some tt) as ->.
  { pose proof HO as HO'. reorder_in HO' (ctx_cells C a ++ ring nl a xs ++ cells a l ++ cells a r ++ L). by eapply is_child_spec in HO'. }
  cbn [mbind option_bind]. rewrite (list_invariant_spec _ _ _ _ _ HO) by done. cbn [mbind option_bind]. by destruct (h !! x).
Qed.

(** The only chunk. *)
Lemma replace_only :
  xs = [] ->
  exists h', remove_chunk_replace_if_needed h a a = Some (h', a) /\
    owns h' (ctx_cells C a ++ (a, mkTC sz 0 0 0 (mkTL (ctx_addr C) (root l) (root r) 0 0 sz 0)) :: cells a l ++ cells a r ++ L).
Proof using HO.
  intros E. rewrite replace_start by (by left). subst xs.
  reorder (ring nl a [] ++ ctx_cells C a ++ cells a l ++ cells a r ++ L). pose proof (owns_read _ _ _ _ HO) as [-> Ha].
  cbn [mbind option_bind _next _prev first]. rewrite !Z.eqb_refl. cbn [assert mbind option_bind].
  destruct (set_tail_ring _ _ _ _ 0 _ HO (or_introl eq_refl)) as (h1 & -> & HO1). cbn [mbind option_bind].
  destruct (set_head_ring _ _ _ _ 0 _ HO1 (or_introl eq_refl)) as (h2 & -> & HO2). cbn [mbind option_bind].
  unfold finish_removal. rewrite (list_at_spec _ _ _ _ HO2). cbn [mbind option_bind _embedded_list with_head _head size_is].
  change (size_is h2 a 0) with (Some tt). cbn [mbind option_bind]. unfold ring in HO2. simpl in HO2.
  destruct (set_prev_spec _ _ _ 0 _ HO2 ltac:(done)) as (h3 & -> & HO3). cbn [mbind option_bind].
  destruct (set_next_spec _ _ _ 0 _ HO3 ltac:(done)) as (h4 & -> & HO4). cbn [mbind option_bind].
  destruct (set_list_spec _ _ _ 0 _ HO4) as (h5 & -> & HO5). cbn [mbind option_bind].
  rewrite (list_at_spec _ _ _ _ HO5). cbn [mbind option_bind with_list with_next with_prev with_head with_tail _embedded_list _head].
  change (walk h5 0 (rounds h5)) with (Some (@nil Z)). cbn [mbind option_bind].
  rewrite (bool_decide_eq_false_2 (a ∈ [])) by (apply not_elem_of_nil). cbn [negb assert mbind option_bind Z.eqb orb].
  assert (is_child h5 a = Some tt) as ->.
  { reorder_in HO5 (ctx_cells C a ++ (a, with_list 0 (with_next 0 (with_prev 0 (mkTC sz 0 0 a (with_head 0 (with_tail 0 nl)))))) ::
      cells a l ++ cells a r ++ L). by eapply is_child_spec in HO5. }
  cbn [mbind option_bind]. unfold set_count. destruct (update_list_spec _ _ _ _ (with_count 0) HO5) as (h6 & E6 & HO6).
  change (_count _ - 1) with 0. rewrite E6. cbn [mbind option_bind]. change (0 <=? 0) with true. cbn [assert mbind option_bind].
  unfold list_invariant. rewrite (list_at_spec _ _ _ _ HO6). exists h6. split; [done |]. eapply owns_proper; [| exact HO6]. solve_Permutation.
Qed.

(** The first of several. *)
Lemma replace_first b bs :
  xs = b :: bs ->
  exists h' c, remove_chunk_replace_if_needed h a a = Some (h', b) /\ _word_size c = sz /\ _prev c = 0 /\ _next c = 0 /\
    owns h' (ctx_cells C b ++ cells (ctx_addr C) (Node l sz b bs r) ++ (a, c) :: L).
Proof using HO.
  intros E. rewrite replace_start by (by left). subst xs.
  pose proof HO as HO'. reorder_in HO' (ring nl a (b :: bs) ++ ctx_cells C a ++ cells a l ++ cells a r ++ L). pose proof (owns_read _ _ _ _ HO') as [-> Ha].
  cbn [mbind option_bind _next _prev first]. rewrite Z.eqb_refl.
  assert (b <> 0) as Hb by (unfold ring in HO'; simpl in HO'; apply owns_cons_r in HO'; by apply owns_read in HO' as [_ ?]).
  rewrite (proj2 (Z.eqb_neq b 0)) by done.
  destruct (move_node_spec _ _ _ _ _ _ _ _ _ HO) as (h1 & ca & -> & Es & El & HO1). cbn [mbind option_bind]. fold nl in HO1.
  reorder_in HO1 (ctx_cells C b ++ ring (with_head b nl) b bs ++ (a, ca) :: cells b l ++ cells b r ++ L).
  destruct (finish_spec _ _ _ _ _ _ _ 0 b _ HO1) as (h2 & -> & HO2); [done | done | | simpl; lia | by left | right; by left |].
  { change (_tail _) with (List.last (b :: bs) a). by rewrite last_default. }
  exists h2, (mkTC (_word_size ca) 0 0 0 (_embedded_list ca)). split; [done |]. split_and!; [| | | eapply owns_proper; [| exact HO2]]; [exact Es | done | done |].
  assert (with_count (_count (with_head b nl) - 1) (with_head b nl) = node_list (ctx_addr C) (root l) (root r) sz b bs) as ->.
  { unfold nl, node_list, with_count, with_head. cbn [_parent _left _right _head _tail _size _count]. rewrite last_default.
    f_equal. cbn [length]. lia. }
  simpl. solve_Permutation.
Qed.

(** One of the others. *)
Lemma replace_inner ys x zs :
  xs = ys ++ x :: zs ->
  exists h' c, remove_chunk_replace_if_needed h a x = Some (h', a) /\ _word_size c = sz /\ _prev c = 0 /\ _next c = 0 /\
    owns h' (ctx_cells C a ++ cells (ctx_addr C) (Node l sz a (ys ++ zs) r) ++ (x, c) :: L).
Proof using HO.
  intros E. rewrite replace_start by (subst xs; right; apply elem_of_app; right; by left). subst xs.
  reorder (ring nl a (ys ++ x :: zs) ++ ctx_cells C a ++ cells a l ++ cells a r ++ L).
  assert (h !! x = Some (mkTC sz (List.last ys a) (first zs 0) a empty_list) /\ x <> a) as [-> Hxa].
  { pose proof HO as HO'. unfold ring in HO'. rewrite seg_split in HO'. cbn [app] in HO'.
    split; [apply owns_cons_r in HO'; by apply owns_read in HO' as [? _] | apply not_eq_sym; by apply owns_ne in HO']. }
  cbn [mbind option_bind _next _prev]. rewrite (proj2 (Z.eqb_neq x a)) by done.
  destruct (unlink_inner _ _ _ _ _ _ _ HO eq_refl) as (h1 & E1 & HO1).
  destruct (if first zs 0 =? 0 then _ else _) as [h0|]; [| done]. cbn [mbind option_bind] in E1 |- *. rewrite E1. cbn [mbind option_bind].
  set (cx := mkTC (_size nl) (List.last ys a) (first zs 0) a empty_list) in HO1.
  reorder_in HO1 (ctx_cells C a ++ ring (with_tail (List.last (ys ++ zs) a) nl) a (ys ++ zs) ++ (x, cx) :: cells a l ++ cells a r ++ L).
  destruct (finish_spec _ _ _ _ _ _ _ (List.last ys a) (first zs 0) _ HO1) as (h2 & -> & HO2); [done | done | done | | | |].
  { unfold nl. cbn [with_tail node_list _count]. rewrite length_app. simpl. lia. }
  { right. pose proof (last_member ys a) as [->|Hm]%elem_of_cons; [by left | right; apply elem_of_app; by left]. }
  { destruct zs; [by left |]. right. right. apply elem_of_app. right. by left. }
  exists h2, (mkTC sz 0 0 0 empty_list). split; [done |]. split_and!; [| | | eapply owns_proper; [| exact HO2]]; [done.. |].
  assert (with_count (_count (with_tail (List.last (ys ++ zs) a) nl) - 1) (with_tail (List.last (ys ++ zs) a) nl)
          = node_list (ctx_addr C) (root l) (root r) sz a (ys ++ zs)) as ->.
  { unfold nl, node_list, with_count, with_tail. cbn [_parent _left _right _head _tail _size _count]. f_equal.
    rewrite !length_app. cbn [length]. lia. }
  simpl. solve_Permutation.
Qed.

End Replace.

End FreeDictRemove.
