(* ===== verification/FreeDictSplice.v ===== *)
(** A node leaves the tree of the dictionary of free blocks. *)
From S2P Require Import Prelude GlobalDefinitions FreeDictionary FreeDictCells FreeDictInsert FreeDictRemove.
Import GlobalDefinitions FreeDictionary FreeDictCells FreeDictInsert FreeDictRemove.

Module FreeDictSplice.

(** ** The least node of a tree *)

Fixpoint min_node (t : tree) : Z * Z * list Z :=
  match t with
  | Leaf => (0, 0, [])
  | Node Leaf s a xs _ => (s, a, xs)
  | Node l _ _ _ _ => min_node l
  end.

Fixpoint del_min (t : tree) : tree :=
  match t with
  | Leaf => Leaf
  | Node Leaf _ _ _ r => r
  | Node l s a xs r => Node (del_min l) s a xs r
  end.

(** The way to it. *)
Fixpoint min_way (C : list frame) (t : tree) : list frame * tree :=
  match t with
  | Leaf => (C, Leaf)
  | Node Leaf s a xs r => (C, r)
  | Node l s a xs r => min_way (FL s a xs r :: C) l
  end.

Lemma min_way_plug t : forall C, t <> Leaf ->
  let '(s, m, ms) := min_node t in let '(C', rm) := min_way C t in
  plug C' (Node Leaf s m ms rm) = plug C t /\ plug C' rm = plug C (del_min t).
Proof.
  induction t as [|l IHl s a xs r IHr]; intros C Hne; [done |].
  destruct l as [|l' s' a' xs' r']; [done |]. exact (IHl (FL s a xs r :: C) ltac:(done)).
Qed.

(** The frames of the way are of nodes that the hole is to the left of. *)
Lemma min_way_left t : forall C C' rm, Forall (fun f => match f with FL _ _ _ _ => True | FR _ _ _ _ => False end) C ->
  min_way C t = (C', rm) -> Forall (fun f => match f with FL _ _ _ _ => True | FR _ _ _ _ => False end) C'.
Proof.
  induction t as [|l IHl s a xs r IHr]; intros C C' rm HC E; [by simplify_eq/= |].
  destruct l as [|l' s' a' xs' r']; [by simplify_eq/= |]. cbn [min_way] in E. eapply IHl; [| exact E]. by constructor.
Qed.

(** Cells of a tree with a hole below a node [base]. *)
Definition addr_from (base : Z) (C : list frame) : Z := match C with [] => base | f :: _ => frame_addr f end.
Fixpoint cells_from (base : Z) (C : list frame) (p : Z) : list (Z * TreeChunk) :=
  match C with
  | [] => []
  | f :: C => frame_cells (addr_from base C) p f ++ cells_from base C (frame_addr f)
  end.

Lemma cells_plug_from base C : forall t, cells base (plug C t) ≡ₚ cells_from base C (root t) ++ cells (addr_from base C) t.
Proof.
  induction C as [|f C IH]; intros t; [done |]. simpl. rewrite IH, root_fill, cells_fill. solve_Permutation.
Qed.

Lemma leftmost_spec h t : forall par L fuel, t <> Leaf -> owns h (cells par t ++ L) -> (length (cells par t) < fuel)%nat ->
  leftmost h (root t) fuel = Some (let '(_, m, _) := min_node t in m).
Proof.
  induction t as [|l IHl s a xs r IHr]; intros par L fuel Hne HO Hf; [done |]. destruct fuel as [|fuel]; [lia |].
  destruct (node_read _ _ _ _ _ _ _ _ HO) as [Er Ha]. cbn [leftmost root]. rewrite Er. cbn [mbind option_bind node_list _left].
  destruct l as [|l' s' a' xs' r']; [done |].
  destruct (cells_left _ _ _ _ _ _ _ _ HO) as (L1 & HO1). destruct (node_read _ _ _ _ _ _ _ _ HO1) as [_ Ha'].
  rewrite cells_length in Hf. simpl root. rewrite (proj2 (Z.eqb_neq a' 0)) by done.
  apply (IHl a L1 fuel); [done | done | lia].
Qed.

(** ** A node gets another child *)

Lemma set_right_tree h a c p t L :
  owns h ((a, c) :: cells p t ++ L) ->
  exists h', set_right h a (root t) = Some h' /\ owns h' ((a, on_list (with_right (root t)) c) :: cells a t ++ L).
Proof.
  intros HO. destruct (update_list_spec _ _ _ _ (with_right (root t)) HO) as (h1 & E1 & HO1).
  set (c' := on_list (with_right (root t)) c) in *. reorder_in HO1 (cells p t ++ (a, c') :: L).
  destruct (child_learns _ _ a _ _ HO1) as (h2 & E2 & HO2). exists h2. unfold set_right. rewrite E1. cbn [mbind option_bind].
  split; [done |]. eapply owns_proper; [| exact HO2]. solve_Permutation.
Qed.

Lemma set_left_tree h a c p t L :
  owns h ((a, c) :: cells p t ++ L) ->
  exists h', set_left h a (root t) = Some h' /\ owns h' ((a, on_list (with_left (root t)) c) :: cells a t ++ L).
Proof.
  intros HO. destruct (update_list_spec _ _ _ _ (with_left (root t)) HO) as (h1 & E1 & HO1).
  set (c' := on_list (with_left (root t)) c) in *. reorder_in HO1 (cells p t ++ (a, c') :: L).
  destruct (child_learns _ _ a _ _ HO1) as (h2 & E2 & HO2). exists h2. unfold set_left. rewrite E1. cbn [mbind option_bind].
  split; [done |]. eapply owns_proper; [| exact HO2]. solve_Permutation.
Qed.

(** The node to be removed, whose list is empty. *)
Definition emptied (sz par lp rp : Z) : TreeChunk := mkTC sz 0 0 0 (mkTL par lp rp 0 0 sz 0).

(** ** The least node of the right subtree is taken out *)

Lemma remove_min_spec h ts n rt sz par a l r L :
  owns h ((a, emptied sz par (root l) (root r)) :: cells a l ++ cells a r ++ L) -> r <> Leaf ->
  (forall c, (rt, c) ∉ cells a r) ->
  let '(s, m, ms) := min_node r in
  exists h', remove_tree_minimum (mkDict h ts n rt) (root r) = Some (mkDict h' ts n rt, m) /\
    owns h' ((a, emptied sz par (root l) (root (del_min r))) :: cells 0 (Node Leaf s m ms Leaf) ++ cells a l ++ cells a (del_min r) ++ L).
Proof.
  intros HO Hr Hrt. unfold remove_tree_minimum. cbn [mem _root _total_size _total_free_blocks]. cbv zeta.
  set (ce := emptied sz par (root l) (root r)) in *.
  pose proof HO as HOr. reorder_in HOr (cells a r ++ (a, ce) :: cells a l ++ L).
  pose proof (leftmost_spec h r a _ (rounds h) Hr HOr (cells_rounds _ _ _ _ HOr)) as ->.
  assert (list_at h (root r) = Some (match r with Leaf => empty_list | Node l' s' a' xs' r' => node_list a (root l') (root r') s' a' xs' end)
    /\ root r <> 0) as [-> Hr0].
  { destruct r as [|l' s' a' xs' r']; [done |]. by destruct (node_read _ _ _ _ _ _ _ _ HOr). }
  cbn [mbind option_bind]. pose proof (owns_read _ _ _ _ HO) as [_ Ha].
  assert (_parent (match r with Leaf => empty_list | Node l' s' a' xs' r' => node_list a (root l') (root r') s' a' xs' end) = a) as ->
    by (by destruct r). rewrite (proj2 (Z.eqb_neq (root r) 0)), (proj2 (Z.eqb_neq a 0)) by done. cbn [negb andb assert mbind option_bind].
  pose proof (min_way_plug r [] Hr) as HP. destruct (min_node r) as [[s m] ms]. destruct (min_way [] r) as [Cm rm] eqn:EW.
  pose proof (min_way_left r [] Cm rm ltac:(constructor) EW) as HL. simpl in HP. destruct HP as [HP1 HP2].
  set (mt := Node Leaf s m ms rm) in *. rewrite <- HP1 in HO. rewrite (cells_plug_from a Cm mt) in HO.
  assert (exists cm, (m, cm) ∈ cells a r) as (cm & Hm).
  { rewrite <- HP1. eexists. rewrite (cells_plug_from a Cm mt). apply elem_of_app. right. by left. }
  assert (m <> rt) as Hmrt by (intros ->; by apply (Hrt cm)).
  assert (list_at h m = Some (node_list (addr_from a Cm) 0 (root rm) s m ms)) as ->.
  { reorder (cells (addr_from a Cm) mt ++ (a, ce) :: cells_from a Cm m ++ cells a l ++ L). by destruct (node_read _ _ _ _ _ _ _ _ HO). }
  cbn [mbind option_bind]. rewrite (proj2 (Z.eqb_neq m rt)) by done. cbn [negb node_list _parent _right].
  set (mc := mkTC s 0 (first ms 0) m (node_list (addr_from a Cm) 0 (root rm) s m ms)).
  assert (exists h1, (p ← list_at h (addr_from a Cm);
      h ← (if _left p =? m then set_left h (addr_from a Cm) (root rm)
           else _ ← assert (_right p =? m); set_right h (addr_from a Cm) (root rm)); Some (mkDict h ts n rt)) = Some (mkDict h1 ts n rt) /\
      owns h1 ((m, mc) :: seg m s m ms 0 ++ (a, emptied sz par (root l) (root (del_min r))) :: cells a l ++ cells a (del_min r) ++ L))
    as (h1 & -> & HO1).
  { change (cells (addr_from a Cm) mt) with ((m, mc) :: seg m s m ms 0 ++ cells m rm) in HO. destruct Cm as [|f Cm].
    - cbn [addr_from cells_from] in HO |- *. simpl in HP1, HP2. rewrite <- HP2. subst r. reorder ((a, ce) :: cells m rm ++ (m, mc) :: seg m s m ms 0 ++ cells a l ++ L).
      rewrite (list_at_spec _ _ _ _ HO). cbn [mbind option_bind _embedded_list ce emptied _left _right].
      assert (root l <> m) as Hlm.
      { reorder (cells a l ++ (m, mc) :: (a, ce) :: cells m rm ++ seg m s m ms 0 ++ L). by apply root_ne in HO. }
      rewrite (proj2 (Z.eqb_neq (root l) m)) by done. simpl root. rewrite Z.eqb_refl. cbn [assert mbind option_bind].
      destruct (set_right_tree _ _ _ _ _ _ HO) as (h1 & -> & HO1). exists h1. split; [done |].
      eapply owns_proper; [| exact HO1]. unfold ce, emptied. simpl. solve_Permutation.
    - apply Forall_cons in HL as [Hf _]. destruct f as [s1 a1 xs1 r1|]; [| done]. set (f := FL s1 a1 xs1 r1) in *.
      cbn [addr_from cells_from] in HO |- *.
      reorder (frame_cells (addr_from a Cm) m f ++ cells m rm ++ cells_from a Cm (frame_addr f) ++ (m, mc) :: seg m s m ms 0 ++ (a, ce) :: cells a l ++ L).
      destruct (frame_read _ _ _ _ _ HO) as [-> _]. cbn [mbind option_bind]. unfold f at 1. cbn [frame_list node_list _left]. rewrite Z.eqb_refl.
      destruct (set_child_spec _ _ _ _ _ _ _ HO) as (h1 & E1 & HO1). simpl in E1. unfold f at 1. cbn [frame_addr]. rewrite E1. cbn [mbind option_bind].
      exists h1. split; [done |]. rewrite <- HP2, (cells_plug_from a (f :: Cm) rm). cbn [addr_from cells_from].
      assert (root (plug (f :: Cm) rm) = root r) as -> by (rewrite <- HP1; apply root_plug).
      eapply owns_proper; [| exact HO1]. unfold ce. solve_Permutation. }
  cbn [mbind option_bind mem]. destruct (update_list_spec _ _ _ _ (with_parent 0) HO1) as (h2 & E2 & HO2). unfold set_parent. rewrite E2.
  cbn [mbind option_bind]. destruct (update_list_spec _ _ _ _ (with_right 0) HO2) as (h3 & E3 & HO3). unfold clear_right. rewrite E3.
  cbn [mbind option_bind]. exists h3. split; [done |]. eapply owns_proper; [| exact HO3]. simpl. solve_Permutation.
Qed.

(** ** The node is replaced *)

Definition join (l r : tree) : tree :=
  match l, r with
  | Leaf, _ => r
  | _, Leaf => l
  | _, _ => let '(s, m, ms) := min_node r in Node l s m ms (del_min r)
  end.

Lemma ctx_root C : forall f p t, exists c L, ctx_cells (f :: C) p ≡ₚ (root (plug (f :: C) t), c) :: L.
Proof.
  induction C as [|g C IH]; intros f p t.
  - simpl. rewrite root_fill. destruct f as [sz a xs r|l sz a xs]; simpl; unfold ring; do 2 eexists; rewrite app_nil_r; done.
  - destruct (IH g (frame_addr f) (fill f t)) as (c & L & E). exists c, (frame_cells (ctx_addr (g :: C)) p f ++ L).
    change (ctx_cells (f :: g :: C) p) with (frame_cells (ctx_addr (g :: C)) p f ++ ctx_cells (g :: C) (frame_addr f)).
    rewrite E. simpl. solve_Permutation.
Qed.

Lemma root_outside h C t0 a c0 t L :
  owns h (ctx_cells C a ++ (a, c0) :: cells a t ++ L) -> root t0 = a -> forall c, (root (plug C t0), c) ∉ cells a t.
Proof.
  intros HO Ea c Hin. apply list_elem_of_split in Hin as (L1 & L2 & E). rewrite E in HO. destruct C as [|f C].
  - simpl in HO. rewrite Ea in HO. reorder ((a, c0) :: (a, c) :: L1 ++ L2 ++ L). by apply owns_ne in HO.
  - destruct (ctx_root C f a t0) as (c' & L' & E'). rewrite E' in HO.
    reorder ((root (plug (f :: C) t0), c') :: (root (plug (f :: C) t0), c) :: (a, c0) :: L' ++ L1 ++ L2 ++ L). by apply owns_ne in HO.
Qed.

Lemma new_child h ts n C t0 a c q t L :
  owns h (ctx_cells C a ++ (a, c) :: cells q t ++ L) -> root t0 = a ->
  exists h', (if ctx_addr C =? 0 then
         _ ← assert (a =? root (plug C t0));
         h ← (if root t =? 0 then Some h else set_parent h (root t) 0);
         Some (mkDict h ts n (root t))
       else
         p ← list_at h (ctx_addr C);
         h ← (if _right p =? a then set_right h (ctx_addr C) (root t)
              else _ ← assert (_left p =? a); set_left h (ctx_addr C) (root t));
         Some (mkDict h ts n (root (plug C t0)))) = Some (mkDict h' ts n (root (plug C t))) /\
    owns h' (ctx_cells C (root t) ++ (a, c) :: cells (ctx_addr C) t ++ L).
Proof.
  intros HO Ea. destruct C as [|f C].
  - simpl in HO |- *. rewrite Ea, Z.eqb_refl. cbn [assert mbind option_bind]. reorder (cells q t ++ (a, c) :: L).
    destruct (child_learns _ _ 0 _ _ HO) as (h1 & -> & HO1). cbn [mbind option_bind]. exists h1. split; [done |].
    eapply owns_proper; [| exact HO1]. solve_Permutation.
  - cbn [ctx_addr ctx_cells] in HO |- *. reorder (frame_cells (ctx_addr C) a f ++ cells q t ++ (a, c) :: ctx_cells C (frame_addr f) ++ L).
    destruct (frame_read _ _ _ _ _ HO) as [-> Hf]. rewrite (proj2 (Z.eqb_neq _ 0)) by done. cbn [mbind option_bind].
    destruct (set_child_spec _ _ _ _ _ _ _ HO) as (h1 & E1 & HO1). exists h1. split.
    + assert ((if _right (frame_list (ctx_addr C) a f) =? a then set_right h (frame_addr f) (root t)
               else _ ← assert (_left (frame_list (ctx_addr C) a f) =? a); set_left h (frame_addr f) (root t)) = Some h1) as ->.
      { rewrite <- E1. destruct f as [sz b xs r|l sz b xs]; simpl; [| by rewrite Z.eqb_refl].
        assert (root r <> a) as Hne.
        { simpl in HO. reorder (cells b r ++ (a, c) :: ring (node_list (ctx_addr C) a (root r) sz b xs) b xs ++ cells q t ++ ctx_cells C b ++ L).
          by apply root_ne in HO. }
        by rewrite (proj2 (Z.eqb_neq (root r) a)), Z.eqb_refl by done. }
      cbn [mbind option_bind]. do 2 f_equal. apply root_plug.
    + eapply owns_proper; [| exact HO1]. solve_Permutation.
Qed.

(** What is left of the node. *)
Lemma finish_splice h C a sz par lp rp t L :
  owns h (ctx_cells C (root t) ++ (a, emptied sz par lp rp) :: cells (ctx_addr C) t ++ L) ->
  exists h', set_parent h a 0 = Some h' /\ owns h' ((a, emptied sz 0 lp rp) :: ctx_cells C (root t) ++ cells (ctx_addr C) t ++ L).
Proof.
  intros HO. reorder ((a, emptied sz par lp rp) :: ctx_cells C (root t) ++ cells (ctx_addr C) t ++ L).
  by apply update_list_spec with (f := with_parent 0) in HO.
Qed.

Lemma splice_simple h ts n C t0 a sz par t L :
  owns h (ctx_cells C a ++ (a, emptied sz (ctx_addr C) 0 0) :: cells par t ++ L) -> root t0 = a ->
  exists h', (r ← list_at h a;
      let parentTL := _parent r in
      D ← (if parentTL =? 0 then
             _ ← assert (a =? root (plug C t0));
             h ← (if root t =? 0 then Some h else set_parent h (root t) 0);
             Some (mkDict h ts n (root t))
           else
             p ← list_at h parentTL;
             h ← (if _right p =? a then set_right h parentTL (root t)
                  else _ ← assert (_left p =? a); set_left h parentTL (root t));
             Some (mkDict h ts n (root (plug C t0))));
      h ← set_parent (mem D) a 0;
      r ← list_at h a;
      _ ← assert ((_right r =? 0) && (_left r =? 0) && (_parent r =? 0));
      Some (mkDict h (_total_size D) (_total_free_blocks D) (_root D))) = Some (mkDict h' ts n (root (plug C t))) /\
    owns h' (cells 0 (plug C t) ++ (a, emptied sz 0 0 0) :: L).
Proof.
  intros HO Ea. assert (list_at h a = Some (_embedded_list (emptied sz (ctx_addr C) 0 0))) as ->.
  { reorder ((a, emptied sz (ctx_addr C) 0 0) :: ctx_cells C a ++ cells par t ++ L). by apply list_at_spec in HO. }
  cbn [mbind option_bind]. cbv zeta. cbn [emptied _embedded_list _parent].
  destruct (new_child h ts n _ _ _ _ _ _ _ HO Ea) as (h1 & -> & HO1). cbn [mbind option_bind mem _total_size _total_free_blocks _root].
  destruct (finish_splice _ _ _ _ _ _ _ _ _ HO1) as (h2 & -> & HO2). cbn [mbind option_bind].
  rewrite (list_at_spec _ _ _ _ HO2). cbn [mbind option_bind]. exists h2. split; [done |].
  rewrite cells_plug. eapply owns_proper; [| exact HO2]. solve_Permutation.
Qed.

(** The new node gets the children of the old one. *)
Lemma adopt_children h C l s m ms r' sz a L :
  owns h ((a, emptied sz 0 (root l) (root r')) :: ctx_cells C m ++ cells (ctx_addr C) (Node Leaf s m ms Leaf) ++
          cells a l ++ cells a r' ++ L) -> root l <> 0 ->
  exists h', (n ← list_at h m;
      _ ← assert (negb (m =? 0) && (_left n =? 0) && (_right n =? 0));
      r ← list_at h a;
      _ ← assert (negb (_left r =? 0));
      h ← set_left h m (_left r);
      r ← list_at h a;
      h ← set_right h m (_right r);
      h ← clear_right h a;
      clear_left h a) = Some h' /\
    owns h' ((a, emptied sz 0 0 0) :: ctx_cells C m ++ cells (ctx_addr C) (Node l s m ms r') ++ L).
Proof.
  intros HO Hl. set (mc lp rp := mkTC s 0 (first ms 0) m (node_list (ctx_addr C) lp rp s m ms)).
  pose proof (list_at_spec _ _ _ _ HO) as ->. cbn [emptied _embedded_list].
  reorder_in HO ((m, mc 0 0) :: cells a l ++ (a, emptied sz 0 (root l) (root r')) :: ctx_cells C m ++ seg m s m ms 0 ++ cells a r' ++ L).
  rewrite (list_at_spec _ _ _ _ HO). pose proof (owns_read _ _ _ _ HO) as [_ Hm].
  cbn [mbind option_bind mc node_list _embedded_list _left _right]. rewrite (proj2 (Z.eqb_neq m 0)), (proj2 (Z.eqb_neq (root l) 0)) by done.
  cbn [negb andb assert mbind option_bind Z.eqb].
  destruct (set_left_tree _ _ _ _ _ _ HO) as (h1 & -> & HO1). cbn [mbind option_bind].
  change (on_list _ _) with (mc (root l) 0) in HO1.
  assert (list_at h1 a = Some (_embedded_list (emptied sz 0 (root l) (root r')))) as ->.
  { reorder_in HO1 ((a, emptied sz 0 (root l) (root r')) :: (m, mc (root l) 0) :: cells m l ++ ctx_cells C m ++ seg m s m ms 0 ++ cells a r' ++ L).
    by apply list_at_spec in HO1. }
  cbn [mbind option_bind emptied _embedded_list _right].
  reorder_in HO1 ((m, mc (root l) 0) :: cells a r' ++ (a, emptied sz 0 (root l) (root r')) :: cells m l ++ ctx_cells C m ++ seg m s m ms 0 ++ L).
  destruct (set_right_tree _ _ _ _ _ _ HO1) as (h2 & -> & HO2). cbn [mbind option_bind].
  change (on_list _ _) with (mc (root l) (root r')) in HO2.
  reorder_in HO2 ((a, emptied sz 0 (root l) (root r')) :: (m, mc (root l) (root r')) :: cells m r' ++ cells m l ++ ctx_cells C m ++ seg m s m ms 0 ++ L).
  destruct (update_list_spec _ _ _ _ (with_right 0) HO2) as (h3 & E3 & HO3). unfold clear_right. rewrite E3. cbn [mbind option_bind].
  destruct (update_list_spec _ _ _ _ (with_left 0) HO3) as (h4 & E4 & HO4). exists h4. split; [exact E4 |].
  eapply owns_proper; [| exact HO4]. rewrite cells_node. simpl. solve_Permutation.
Qed.

Lemma splice_out_spec h ts n C l sz a r L :
  owns h (ctx_cells C a ++ (a, emptied sz (ctx_addr C) (root l) (root r)) :: cells a l ++ cells a r ++ L) ->
  exists h', splice_out (mkDict h ts n (root (plug C (Node l sz a [] r)))) a a = Some (mkDict h' ts n (root (plug C (join l r)))) /\
    owns h' (cells 0 (plug C (join l r)) ++ (a, emptied sz 0 0 0) :: L).
Proof.
  intros HO. set (t0 := Node l sz a [] r). unfold splice_out. cbn [mem _root _total_size _total_free_blocks].
  pose proof HO as HOa. reorder_in HOa ((a, emptied sz (ctx_addr C) (root l) (root r)) :: ctx_cells C a ++ cells a l ++ cells a r ++ L).
  rewrite (list_at_spec _ _ _ _ HOa). cbn [mbind option_bind emptied _embedded_list _head _tail _left _right]. rewrite !Z.eqb_refl.
  cbn [andb assert mbind option_bind]. destruct (Z.eqb_spec (root l) 0) as [El|Hl].
  - assert (l = Leaf) as El'. { reorder_in HOa (cells a l ++ (a, emptied sz (ctx_addr C) (root l) (root r)) :: ctx_cells C a ++ cells a r ++ L).
      by apply (owns_root _ _ _ _ HOa). }
    destruct (update_list_spec _ _ _ _ (with_right 0) HOa) as (h1 & E1 & HO1). unfold clear_right. rewrite E1. cbn [mbind option_bind].
    cbn [mem _root _total_size _total_free_blocks]. rewrite El' in HO1 |- *. cbn [root cells app join] in HO1 |- *.
    change (on_list _ _) with (emptied sz (ctx_addr C) 0 0) in HO1.
    reorder_in HO1 (ctx_cells C a ++ (a, emptied sz (ctx_addr C) 0 0) :: cells a r ++ L).
    destruct (splice_simple h1 ts n C t0 a sz a r L HO1 eq_refl) as (h2 & E2 & HO2). exists h2. split; [exact E2 | exact HO2].
  - destruct (Z.eqb_spec (root r) 0) as [Er|Hr].
    + assert (r = Leaf) as Er'. { reorder_in HOa (cells a r ++ (a, emptied sz (ctx_addr C) (root l) (root r)) :: ctx_cells C a ++ cells a l ++ L).
        by apply (owns_root _ _ _ _ HOa). }
      destruct (update_list_spec _ _ _ _ (with_left 0) HOa) as (h1 & E1 & HO1). unfold clear_left. rewrite E1. cbn [mbind option_bind].
      cbn [mem _root _total_size _total_free_blocks]. assert (join l r = l) as -> by (rewrite Er'; by destruct l).
      rewrite Er' in HO1. cbn [root cells app] in HO1. change (on_list _ _) with (emptied sz (ctx_addr C) 0 0) in HO1.
      reorder_in HO1 (ctx_cells C a ++ (a, emptied sz (ctx_addr C) 0 0) :: cells a l ++ L).
      destruct (splice_simple h1 ts n C t0 a sz a l L HO1 eq_refl) as (h2 & E2 & HO2). exists h2. split; [exact E2 | exact HO2].
    + assert (l <> Leaf /\ r <> Leaf) as [Hl' Hr'] by (split; intros ->; done).
      assert (forall c, (root (plug C t0), c) ∉ cells a r) as Hrt.
      { pose proof HO as HO0. reorder_in HO0 (ctx_cells C a ++ (a, emptied sz (ctx_addr C) (root l) (root r)) :: cells a r ++ cells a l ++ L).
        by apply (root_outside _ _ t0 _ _ _ _ HO0). }
      reorder_in HOa ((a, emptied sz (ctx_addr C) (root l) (root r)) :: cells a l ++ cells a r ++ ctx_cells C a ++ L).
      pose proof (remove_min_spec h ts n (root (plug C t0)) sz (ctx_addr C) a l r _ HOa Hr' Hrt) as HM.
      assert (join l r = let '(s, m, ms) := min_node r in Node l s m ms (del_min r)) as -> by (by destruct l, r).
      destruct (min_node r) as [[s m] ms]. destruct HM as (h1 & -> & HO1). cbn [mbind option_bind mem _root _total_size _total_free_blocks].
      pose proof HO1 as HOm. set (ce := emptied sz (ctx_addr C) (root l) (root (del_min r))) in *. set (mt := Node Leaf s m ms Leaf) in *.
      reorder_in HOm (cells 0 mt ++ (a, ce) :: cells a l ++ cells a (del_min r) ++ ctx_cells C a ++ L).
      destruct (node_read _ _ _ _ _ _ _ _ HOm) as [-> Hm0]. cbn [mbind option_bind node_list _left _right root].
      rewrite (proj2 (Z.eqb_neq m 0)) by done. cbn [negb andb assert mbind option_bind Z.eqb mem _root _total_size _total_free_blocks].
      rewrite (list_at_spec _ _ _ _ HO1). cbn [mbind option_bind ce emptied _embedded_list _parent]. cbv zeta.
      reorder_in HO1 (ctx_cells C a ++ (a, ce) :: cells 0 mt ++ cells a l ++ cells a (del_min r) ++ L).
      destruct (new_child h1 ts n C t0 a ce 0 mt _ HO1 eq_refl) as (h2 & E2 & HO2). change (root mt) with m in E2.
      rewrite E2. cbn [mbind option_bind mem _root _total_size _total_free_blocks].
      destruct (finish_splice _ _ _ _ _ _ _ _ _ HO2) as (h3 & -> & HO3). cbn [mbind option_bind].
      destruct (adopt_children h3 C l s m ms (del_min r) sz a L HO3 Hl) as (h4 & E4 & HO4).
      rewrite E4. cbn [mbind option_bind]. rewrite (list_at_spec _ _ _ _ HO4). cbn [mbind option_bind]. exists h4. split.
      * assert (root (plug C mt) = root (plug C (Node l s m ms (del_min r)))) as -> by apply plug_node. done.
      * rewrite cells_plug. eapply owns_proper; [| exact HO4]. solve_Permutation.
Qed.

End FreeDictSplice.
