(* ===== verification/FreeDictDelete.v ===== *)
(** Taking a chunk out of the dictionary of free blocks. *)
From S2P Require Import Prelude GlobalDefinitions FreeDictionary FreeDictCells FreeDictInsert FreeDictRemove FreeDictSplice.
Import GlobalDefinitions FreeDictionary FreeDictCells FreeDictInsert FreeDictRemove FreeDictSplice.

Module FreeDictDelete.

(** The node without one of its chunks. *)
Definition shrink (x : Z) (t : tree) : tree :=
  match t with
  | Leaf => Leaf
  | Node l sz a xs r =>
      if x =? a then match xs with [] => join l r | b :: bs => Node l sz b bs r end
      else Node l sz a (filter (fun y => y <> x) xs) r
  end.

Lemma root_above h f C t p a c L : owns h (ctx_cells (f :: C) p ++ (a, c) :: L) -> root (plug (f :: C) t) <> a.
Proof.
  intros HO E. destruct (ctx_root C f p t) as (c' & L' & E'). rewrite E' in HO.
  reorder ((root (plug (f :: C) t), c') :: (a, c) :: L' ++ L). by apply owns_ne in HO.
Qed.

Lemma size_t_id z : 0 <= z < 2 ^ 64 -> size_t z = z.
Proof. intros. by apply wrap_small. Qed.

(** The node stays, at the address of its first chunk. *)
Lemma after_kept h ts n h1 C t0 tl l sz b bs r x c L :
  owns h1 (ctx_cells C b ++ cells (ctx_addr C) (Node l sz b bs r) ++ (x, c) :: L) ->
  _word_size c = sz -> _prev c = 0 -> _next c = 0 -> 0 <= sz <= ts -> ts < 2 ^ 64 -> 0 < n < 2 ^ 64 ->
  root t0 = tl -> (C <> [] -> root (plug C t0) <> tl) ->
  after_removal (mkDict h ts n (root (plug C t0))) h1 x tl b false
  = Some (mkDict h1 (ts - sz) (n - 1) (root (plug C (Node l sz b bs r)))).
Proof.
  intros HO Es Ep En Hs Hts Hn Et HC. unfold after_removal. cbn [mem _root _total_size _total_free_blocks].
  set (nl := node_list (ctx_addr C) (root l) (root r) sz b bs).
  pose proof HO as HOc. reorder_in HOc (ctx_cells C b ++ ring nl b bs ++ cells b l ++ cells b r ++ (x, c) :: L).
  pose proof HOc as HOi. unfold ring in HOi. cbn [app] in HOi. rewrite (is_child_spec _ _ _ _ _ HOi eq_refl). cbn [mbind option_bind]. clear HOi.
  reorder_in HOc (ring nl b bs ++ ctx_cells C b ++ cells b l ++ cells b r ++ (x, c) :: L).
  rewrite !(list_at_spec _ _ _ _ HOc). cbn [mbind option_bind _embedded_list].
  assert ((if tl =? root (plug C t0) then _ ← assert (_parent nl =? 0); Some (mkDict h1 ts n b) else Some (mkDict h1 ts n (root (plug C t0))))
          = Some (mkDict h1 ts n (root (plug C (Node l sz b bs r))))) as ->.
  { destruct C as [|f C]; [simpl; by rewrite Et, Z.eqb_refl |]. rewrite (proj2 (Z.eqb_neq tl _)) by (apply not_eq_sym, HC; done).
    do 2 f_equal. apply root_plug. }
  cbn [mbind option_bind mem _root _total_size _total_free_blocks].
  pose proof HOc as HOx. reorder_in HOx ((x, c) :: ring nl b bs ++ ctx_cells C b ++ cells b l ++ cells b r ++ L).
  apply owns_read in HOx as [Ex _]. rewrite Ex. cbn [mbind option_bind].
  assert (forall v, v ∈ b :: bs -> exists d, h1 !! v = Some d /\ _list d = b) as Hring.
  { intros v Hv. destruct (ring_member nl b bs v Hv) as (d & L' & EP & _ & El). exists d. split; [| done].
    rewrite EP in HOc. by apply owns_read in HOc as [? _]. }
  destruct (Hring b ltac:(by left)) as (d1 & E1 & L1). destruct (Hring (List.last bs b) (last_member _ _)) as (d2 & E2 & L2).
  change (_head nl) with b. change (_tail nl) with (List.last bs b). pose proof (owns_read _ _ _ _ HOc) as [_ Hb].
  rewrite (proj2 (Z.eqb_neq b 0)), E1, E2 by done. cbn [negb assert mbind option_bind]. rewrite L1, L2, Es.
  change (_size nl) with sz. rewrite !Z.eqb_refl. cbn [andb assert]. assert ((if tl =? b then Some tt else Some tt) = Some tt) as -> by (by destruct (tl =? b)).
  cbn [mbind option_bind]. rewrite (proj2 (Z.eqb_neq (_count nl) 0)) by (simpl; lia). cbn [mbind option_bind mem]. rewrite Ex.
  cbn [mbind option_bind _total_size _total_free_blocks _root]. rewrite Es, Ep, En, (proj2 (Z.leb_le _ _)), (proj2 (Z.ltb_lt _ _)) by lia.
  cbn [andb assert mbind option_bind Z.eqb negb orb]. by rewrite !size_t_id by lia.
Qed.

(** The node leaves the tree. *)
Lemma after_emptied h ts n h1 C l sz a r only L :
  owns h1 (ctx_cells C a ++ (a, emptied sz (ctx_addr C) (root l) (root r)) :: cells a l ++ cells a r ++ L) ->
  0 <= sz <= ts -> ts < 2 ^ 64 -> 0 < n < 2 ^ 64 -> (only = true -> C = [] /\ l = Leaf /\ r = Leaf) ->
  exists h' c, after_removal (mkDict h ts n (root (plug C (Node l sz a [] r)))) h1 a a a only
    = Some (mkDict h' (ts - sz) (n - 1) (root (plug C (join l r)))) /\ _word_size c = sz /\ owns h' (cells 0 (plug C (join l r)) ++ (a, c) :: L).
Proof.
  intros HO Hs Hts Hn Honly. unfold after_removal. cbn [mem _root _total_size _total_free_blocks].
  rewrite (is_child_spec _ _ _ _ _ HO eq_refl). cbn [mbind option_bind].
  pose proof HO as HOa. reorder_in HOa ((a, emptied sz (ctx_addr C) (root l) (root r)) :: ctx_cells C a ++ cells a l ++ cells a r ++ L).
  rewrite !(list_at_spec _ _ _ _ HOa). cbn [mbind option_bind _embedded_list emptied _parent].
  set (R := root (plug C (Node l sz a [] r))).
  assert ((if a =? R then _ ← assert (ctx_addr C =? 0); Some (mkDict h1 ts n a) else Some (mkDict h1 ts n R)) = Some (mkDict h1 ts n R)) as ->.
  { destruct C as [|f C]; [change R with a; by rewrite Z.eqb_refl |]. pose proof (root_above _ _ _ (Node l sz a [] r) _ _ _ _ HO) as HR.
    by rewrite (proj2 (Z.eqb_neq a R) (not_eq_sym HR)). }
  cbn [mbind option_bind]. rewrite (Z.eqb_refl a). cbn [mbind option_bind]. change (_count _ =? 0) with true. cbv iota.
  destruct (splice_out_spec h1 ts n C l sz a r L HO) as (h2 & E2 & HO2). fold R in E2. rewrite E2. cbn [mbind option_bind mem].
  exists h2, (emptied sz 0 0 0). split; [| split; [done | exact HO2]].
  reorder_in HO2 ((a, emptied sz 0 0 0) :: cells 0 (plug C (join l r)) ++ L). pose proof (owns_read _ _ _ _ HO2) as [-> _].
  cbn [mbind option_bind _total_size _total_free_blocks _root emptied _word_size _prev _next].
  rewrite (proj2 (Z.leb_le _ _)), (proj2 (Z.ltb_lt _ _)) by lia. cbn [andb assert mbind option_bind Z.eqb].
  assert (negb only || (root (plug C (join l r)) =? 0) = true) as ->.
  { destruct only; [| done]. destruct (Honly eq_refl) as (-> & -> & ->). done. }
  cbn [assert mbind option_bind]. by rewrite !size_t_id by lia.
Qed.

Lemma only_node h C l sz a xs r x ts n L :
  owns h (ctx_cells C a ++ cells (ctx_addr C) (Node l sz a xs r) ++ L) -> x ∈ a :: xs ->
  exists only, (only = true -> C = [] /\ l = Leaf /\ r = Leaf /\ xs = []) /\
    remove_chunk_from_tree (mkDict h ts n (root (plug C (Node l sz a xs r)))) x =
    ('(h', replacementTL) ← remove_chunk_replace_if_needed h a x;
     after_removal (mkDict h ts n (root (plug C (Node l sz a xs r)))) h' x a replacementTL only).
Proof.
  intros HO Hx. unfold remove_chunk_from_tree. cbn [mem _root]. set (nl := node_list (ctx_addr C) (root l) (root r) sz a xs).
  destruct (ring_member nl a xs x Hx) as (c & L' & EP & _ & El).
  pose proof HO as HOr. reorder_in HOr (ring nl a xs ++ ctx_cells C a ++ cells a l ++ cells a r ++ L).
  pose proof HOr as HOx. rewrite EP in HOx. apply owns_read in HOx as [-> Hx0]. rewrite (proj2 (Z.eqb_neq x 0)) by done.
  cbn [negb assert mbind option_bind]. cbv zeta. rewrite El. pose proof (owns_read _ _ _ _ HOr) as [_ Ha].
  rewrite (proj2 (Z.eqb_neq a 0)) by done.
  assert (is_child h a = Some tt) as Hc.
  { pose proof HOr as HOi. reorder_in HOi (ctx_cells C a ++ ring nl a xs ++ cells a l ++ cells a r ++ L). by apply (is_child_spec _ _ _ _ _ HOi). }
  set (R := root (plug C (Node l sz a xs r))).
  assert (exists only, (if a =? R then r ← list_at h R; if (_left r =? 0) && (_right r =? 0) && (_count r =? 1)
             then _ ← assert (_head r =? x); Some true else Some false else Some false) = Some only /\
           (only = true -> C = [] /\ l = Leaf /\ r = Leaf /\ xs = [])) as (only & -> & Honly).
  { destruct (Z.eqb_spec a R) as [ER|]; [| by exists false]. rewrite <- ER, (list_at_spec _ _ _ _ HOr). cbn [mbind option_bind _embedded_list].
    destruct C as [|f C].
    2: { exfalso. unfold ring in HOr. cbn [app] in HOr. reorder_in HOr (ctx_cells (f :: C) a ++ ring nl a xs ++ cells a l ++ cells a r ++ L).
         unfold ring in HOr. cbn [app] in HOr. eapply root_above; [exact HOr | symmetry; exact ER]. }
    destruct (Z.eqb_spec (_left nl) 0) as [E1|]; [| by exists false]. destruct (Z.eqb_spec (_right nl) 0) as [E2|]; [| by exists false].
    destruct (Z.eqb_spec (_count nl) 1) as [E3|]; [| by exists false]. destruct xs as [|b bs]; [| simpl in E3; lia].
    apply list_elem_of_singleton in Hx as ->. cbn [andb nl node_list _head]. rewrite Z.eqb_refl. exists true. split; [done |]. intros _.
    split_and!; [done | | | done].
    - reorder_in HOr (cells a l ++ ring nl a [] ++ cells a r ++ L). by apply (owns_root _ _ _ _ HOr).
    - reorder_in HOr (cells a r ++ ring nl a [] ++ cells a l ++ L). by apply (owns_root _ _ _ _ HOr). }
  exists only. split; [exact Honly |]. cbn [negb assert mbind option_bind]. by rewrite Hc.
Qed.

Lemma filter_absent x (ys : list Z) : x ∉ ys -> filter (fun y => y <> x) ys = ys.
Proof.
  induction ys as [|y ys IH]; [done |]. intros [Hne Hin]%not_elem_of_cons. rewrite filter_cons_True by (by intros ->). by rewrite IH.
Qed.

Lemma filter_out (ys zs : list Z) x : x ∉ ys -> x ∉ zs -> filter (fun y => y <> x) (ys ++ x :: zs) = ys ++ zs.
Proof.
  intros Hy Hz. rewrite filter_app, filter_cons_False by (by intros []).
  by rewrite !filter_absent.
Qed.

Lemma seg_addrs tl sz next xs : forall prev, (seg tl sz prev xs next).*1 = xs.
Proof. induction xs as [|x xs IH]; intros prev; simpl; [done |]. by rewrite IH. Qed.

Lemma ring_nodup h l a xs L : owns h (ring l a xs ++ L) -> NoDup (a :: xs).
Proof.
  intros (_ & Hnd & _). rewrite fmap_app in Hnd. apply NoDup_app in Hnd as (Hnd & _). unfold ring in Hnd. simpl in Hnd.
  by rewrite seg_addrs in Hnd.
Qed.

Lemma remove_spec h ts n C l sz a xs r x L :
  owns h (ctx_cells C a ++ cells (ctx_addr C) (Node l sz a xs r) ++ L) -> x ∈ a :: xs ->
  0 <= sz <= ts -> ts < 2 ^ 64 -> 0 < n < 2 ^ 64 ->
  exists h' c, remove_chunk_from_tree (mkDict h ts n (root (plug C (Node l sz a xs r)))) x
    = Some (mkDict h' (ts - sz) (n - 1) (root (plug C (shrink x (Node l sz a xs r))))) /\ _word_size c = sz /\
    owns h' (cells 0 (plug C (shrink x (Node l sz a xs r))) ++ (x, c) :: L).
Proof.
  intros HO Hx Hs Hts Hn. destruct (only_node h C l sz a xs r x ts n L HO Hx) as (only & Honly & ->). simpl shrink.
  assert (C <> [] -> root (plug C (Node l sz a xs r)) <> a) as Habove.
  { destruct C as [|f C]; [done |]. intros _. rewrite cells_node in HO. cbn [app] in HO. by eapply root_above in HO. }
  destruct (Z.eqb_spec x a) as [->|Hxa].
  - destruct xs as [|b bs].
    + destruct (replace_only h C l sz a [] r L HO eq_refl) as (h1 & -> & HO1). cbn [mbind option_bind].
      apply after_emptied; try done. intros Ho. by destruct (Honly Ho) as (? & ? & ? & ?).
    + assert (only = false) as -> by (destruct only; [by destruct (Honly eq_refl) as (_ & _ & _ & ?) | done]).
      destruct (replace_first h C l sz a (b :: bs) r L HO b bs eq_refl) as (h1 & c & -> & Es & Ep & En & HO1). cbn [mbind option_bind].
      exists h1, c. split; [| split; [exact Es |]].
      * eapply after_kept; try done.
      * rewrite cells_plug. eapply owns_proper; [| exact HO1]. solve_Permutation.
  - apply elem_of_cons in Hx as [?|Hx]; [done |].
    assert (only = false) as -> by (destruct only; [destruct (Honly eq_refl) as (_ & _ & _ & ->); by apply elem_of_nil in Hx | done]).
    apply list_elem_of_split in Hx as (ys & zs & E).
    destruct (replace_inner h C l sz a xs r L HO ys x zs E) as (h1 & c & -> & Es & Ep & En & HO1). cbn [mbind option_bind].
    assert (filter (fun y => y <> x) xs = ys ++ zs) as ->.
    { rewrite E in HO |- *. reorder (ring (node_list (ctx_addr C) (root l) (root r) sz a (ys ++ x :: zs)) a (ys ++ x :: zs) ++ ctx_cells C a ++ cells a l ++ cells a r ++ L).
      apply ring_nodup, NoDup_cons in HO as [_ (_ & Hd & Hz)%NoDup_app]. apply NoDup_cons in Hz as [Hz _].
      apply filter_out; [| done]. intros Hy. by apply (Hd _ Hy); left. }
    exists h1, c. split; [| split; [exact Es |]].
    + eapply after_kept; try done.
    + rewrite cells_plug. eapply owns_proper; [| exact HO1]. solve_Permutation.
Qed.

End FreeDictDelete.
