(* ===== verification/FreeDictOrder.v ===== *)
(** The tree of the dictionary of free blocks as an ordered sequence of lists of chunks. *)
From S2P Require Import Prelude FreeDictCells FreeDictInsert FreeDictSplice FreeDictDelete.
Import FreeDictCells FreeDictInsert FreeDictSplice FreeDictDelete.
From Stdlib Require Import Sorting.Sorted.

Module FreeDictOrder.

(** ** From left to right *)

Fixpoint nodes (t : tree) : list (Z * list Z) :=
  match t with
  | Leaf => []
  | Node l s a xs r => nodes l ++ (s, a :: xs) :: nodes r
  end.

Definition ordered (N : list (Z * list Z)) : Prop := StronglySorted (fun n m => n.1 < m.1) N.

(** The chunks of the tree, with their sizes. *)
Definition chunks_of (n : Z * list Z) : list (Z * Z) := (fun x => (x, n.1)) <$> n.2.
Definition entries (N : list (Z * list Z)) : list (Z * Z) := N ≫= chunks_of.

(** What is to the left and to the right of a place in the tree. *)
Fixpoint before (C : list frame) : list (Z * list Z) :=
  match C with
  | [] => []
  | FL _ _ _ _ :: C => before C
  | FR l s a xs :: C => before C ++ nodes l ++ [(s, a :: xs)]
  end.
Fixpoint after (C : list frame) : list (Z * list Z) :=
  match C with
  | [] => []
  | FL s a xs r :: C => (s, a :: xs) :: nodes r ++ after C
  | FR _ _ _ _ :: C => after C
  end.

Lemma nodes_plug C : forall t, nodes (plug C t) = before C ++ nodes t ++ after C.
Proof.
  induction C as [|[s a xs r|l s a xs] C IH]; intros t; simpl; [by rewrite app_nil_r | |]; rewrite IH; simpl; rewrite <- !app_assoc; done.
Qed.

Lemma ordered_app N M : ordered (N ++ M) <-> ordered N /\ ordered M /\ forall n m, n ∈ N -> m ∈ M -> n.1 < m.1.
Proof.
  unfold ordered. induction N as [|n N IH]; simpl.
  - split; [intros H; split_and!; [constructor | done | intros n m Hn; by apply elem_of_nil in Hn] | by intros (_ & ? & _)].
  - split.
    + intros H. apply StronglySorted_inv in H as [H Hn]. apply IH in H as (HN & HM & HNM). apply List.Forall_app in Hn as [HnN HnM].
      split_and!; [by constructor | done |]. intros n' m [->|Hn']%elem_of_cons Hm; [| by apply HNM].
      rewrite List.Forall_forall in HnM. apply HnM. by apply list_elem_of_In.
    + intros (HN & HM & HNM). apply StronglySorted_inv in HN as [HN Hn]. constructor.
      * apply IH. split_and!; [done | done |]. intros n' m Hn' Hm. apply HNM; [by right | done].
      * apply List.Forall_app. split; [done |]. apply List.Forall_forall. intros m Hm. apply HNM; [by left | by apply list_elem_of_In].
Qed.

Lemma ordered_cons n N : ordered (n :: N) <-> ordered N /\ forall m, m ∈ N -> n.1 < m.1.
Proof.
  change (n :: N) with ([n] ++ N). rewrite ordered_app. split.
  - intros (_ & ? & H). split; [done |]. intros m Hm. apply H; [by left | done].
  - intros [? H]. split_and!; [repeat constructor | done |]. intros n' m ->%list_elem_of_singleton Hm. by apply H.
Qed.

(** ** Searches *)

Lemma way_sides sz C : forall t, Forall (way sz) C -> ordered (nodes (plug C t)) ->
  (forall n, n ∈ before C -> n.1 < sz) /\ (forall n, n ∈ after C -> sz < n.1).
Proof.
  induction C as [|f C IH]; intros t HW HS; [split; intros n Hn; by apply elem_of_nil in Hn |].
  apply Forall_cons in HW as [Hf HW]. change (plug (f :: C) t) with (plug C (fill f t)) in HS.
  destruct (IH (fill f t) HW HS) as [Hb Ha]. rewrite nodes_plug in HS.
  apply ordered_app in HS as (_ & HS & _). apply ordered_app in HS as (HS & _ & _).
  destruct f as [s a xs r|l s a xs]; simpl in Hf, HS |- *; (split; [intros n Hn | intros n Hn]).
  - by apply Hb.
  - apply ordered_app in HS as (_ & HS & _). apply ordered_cons in HS as [_ HS].
    apply elem_of_cons in Hn as [->|[Hn|Hn]%elem_of_app]; [done | specialize (HS n Hn); simpl in HS; lia | by apply Ha].
  - apply ordered_app in HS as (_ & _ & HS).
    apply elem_of_app in Hn as [Hn|[Hn|Hn%list_elem_of_singleton]%elem_of_app]; [by apply Hb | | by subst n].
    specialize (HS n (s, a :: xs) Hn ltac:(by left)). simpl in HS. lia.
  - by apply Ha.
Qed.

(** Up to the first node on whose left side the place is. *)
Fixpoint climb (C : list frame) (t : tree) : option (list frame * tree) :=
  match C with
  | [] => None
  | FL s a xs r :: C => Some (C, Node t s a xs r)
  | FR l s a xs :: C => climb C (Node l s a xs t)
  end.

Lemma climb_none C : forall t, climb C t = None -> after C = [].
Proof. induction C as [|[s a xs r|l s a xs] C IH]; intros t E; simpl in *; [done | done |]. by eapply IH. Qed.

Lemma climb_some C : forall t C' t', climb C t = Some (C', t') ->
  plug C' t' = plug C t /\ exists l s a xs r, t' = Node l s a xs r /\ (s, a :: xs) ∈ after C /\ before C' ++ nodes l = before C ++ nodes t.
Proof.
  induction C as [|[s a xs r|l s a xs] C IH]; intros t C' t' E; simpl in E; [done | |].
  - simplify_eq. split; [done |]. exists t, s, a, xs, r. split_and!; [done | by left | done].
  - apply IH in E as (E & l' & s' & a' & xs' & r' & -> & Hin & Eb). split; [done |]. exists l', s', a', xs', r'. split_and!; [done | done |].
    rewrite Eb. simpl. by rewrite <- !app_assoc.
Qed.

(** The node that [get_chunk_from_tree] chooses. *)
Definition choose (sz : Z) (exact : bool) (T : tree) : option (list frame * tree) :=
  let '(C, t) := search sz [] T in
  match t with
  | Leaf => if exact then None else climb C Leaf
  | _ => Some (C, t)
  end.

Lemma choose_none sz exact T : ordered (nodes T) -> choose sz exact T = None ->
  forall n, n ∈ nodes T -> if exact then n.1 <> sz else n.1 < sz.
Proof.
  intros HS E n Hn. unfold choose in E. destruct (search sz [] T) as [C t] eqn:Es.
  pose proof (search_plug sz T []) as HP. rewrite Es in HP. simpl in HP.
  pose proof (search_way sz T [] C t ltac:(constructor) Es) as HW. destruct t; [| done].
  rewrite <- HP in HS, Hn. destruct (way_sides _ _ _ HW HS) as [Hb Ha]. rewrite nodes_plug in Hn. simpl in Hn.
  apply elem_of_app in Hn as [Hn|Hn]; [specialize (Hb n Hn); destruct exact; lia |].
  specialize (Ha n Hn). destruct exact; [lia |]. apply climb_none in E. rewrite E in Hn. by apply elem_of_nil in Hn.
Qed.

Lemma choose_some sz exact T C t : ordered (nodes T) -> choose sz exact T = Some (C, t) ->
  plug C t = T /\ exists l s a xs r, t = Node l s a xs r /\ sz <= s /\ (exact = true -> s = sz) /\
    forall n, n ∈ nodes T -> sz <= n.1 -> s <= n.1.
Proof.
  intros HS E. unfold choose in E. destruct (search sz [] T) as [C0 t0] eqn:Es.
  pose proof (search_plug sz T []) as HP. rewrite Es in HP. simpl in HP.
  pose proof (search_way sz T [] C0 t0 ltac:(constructor) Es) as HW. pose proof (search_found sz T [] C0 t0 Es) as HF.
  destruct t0 as [|l s a xs r].
  2: { simplify_eq. split; [done |]. exists l, sz, a, xs, r. split_and!; [done | lia | done | done]. }
  destruct exact; [done |]. apply climb_some in E as (E & l & s & a & xs & r & -> & Hin & Eb).
  rewrite HP in E. split; [done |]. rewrite <- HP in HS. destruct (way_sides _ _ _ HW HS) as [Hb Ha].
  exists l, s, a, xs, r. specialize (Ha _ Hin) as Hs. simpl in Hs. split_and!; [done | lia | done |].
  intros n Hn Hsz. rewrite HP, <- E, nodes_plug in HS. rewrite <- E, nodes_plug in Hn. simpl in HS, Hn.
  rewrite <- app_assoc, app_assoc, Eb in HS, Hn. simpl in HS, Hn. rewrite app_nil_r in HS, Hn.
  apply ordered_app in HS as (_ & HS & _). apply ordered_cons in HS as [_ HS].
  apply elem_of_app in Hn as [Hn|[->|Hn]%elem_of_cons]; [specialize (Hb _ Hn); lia | done | specialize (HS _ Hn); simpl in HS; lia].
Qed.

(** ** Changes *)

Lemma insert_nodes sz y T : ordered (nodes T) ->
  ordered (nodes (tree_insert sz y T)) /\ entries (nodes (tree_insert sz y T)) ≡ₚ (y, sz) :: entries (nodes T).
Proof.
  intros HS. unfold tree_insert. destruct (search sz [] T) as [C t] eqn:Es.
  pose proof (search_plug sz T []) as HP. rewrite Es in HP. simpl in HP. subst T.
  pose proof (search_way sz _ [] C t ltac:(constructor) Es) as HW. pose proof (search_found sz _ [] C t Es) as HF.
  destruct (way_sides _ _ _ HW HS) as [Hb Ha]. rewrite !nodes_plug in *. unfold entries. destruct t as [|l s a xs r]; simpl in HS |- *.
  - apply ordered_app in HS as (HS1 & HS2 & HS3). split.
    + apply ordered_app. split_and!; [done | apply ordered_cons; split; [done | apply Ha] |].
      intros n m Hn [->|Hm]%elem_of_cons; [by apply Hb | by apply HS3].
    + rewrite !bind_app. simpl. solve_Permutation.
  - subst s. split.
    + rewrite <- app_assoc in HS |- *. simpl in HS |- *. rewrite app_assoc in HS |- *.
      apply ordered_app in HS as (HS1 & HS2 & HS3). apply ordered_cons in HS2 as [HS2 HS4].
      apply ordered_app. split_and!; [done | by apply ordered_cons |].
      intros n m Hn [->|Hm]%elem_of_cons; [apply (HS3 n (sz, a :: xs) Hn); by left | apply HS3; [done | by right]].
    + rewrite !bind_app. simpl. unfold chunks_of. simpl. rewrite fmap_app. simpl. solve_Permutation.
Qed.

Lemma join_nodes l r : nodes (join l r) = nodes l ++ nodes r.
Proof.
  unfold join. destruct l as [|l1 s a xs r1]; [done |]. destruct r as [|l2 s2 a2 xs2 r2]; [by rewrite app_nil_r |].
  pose proof (min_way_plug (Node l2 s2 a2 xs2 r2) [] ltac:(done)) as HM. destruct (min_node (Node l2 s2 a2 xs2 r2)) as [[s' m] ms].
  destruct (min_way [] (Node l2 s2 a2 xs2 r2)) as [C rm] eqn:Em. destruct HM as [E1 E2].
  pose proof (min_way_left _ _ _ _ ltac:(constructor) Em) as HL.
  assert (before C = []) as Eb by (clear -HL; induction HL as [|[] C ?? IH]; [done | exact IH | done]).
  apply (f_equal nodes) in E1, E2. rewrite nodes_plug, Eb in E1, E2. cbn [plug app] in E1, E2. rewrite <- E1.
  change (nodes (Node (Node l1 s a xs r1) s' m ms (del_min (Node l2 s2 a2 xs2 r2))))
    with (nodes (Node l1 s a xs r1) ++ (s', m :: ms) :: nodes (del_min (Node l2 s2 a2 xs2 r2))).
  by rewrite <- E2.
Qed.

Lemma shrink_nodes C l s a xs r x : x ∈ a :: xs -> NoDup (a :: xs) -> ordered (nodes (plug C (Node l s a xs r))) ->
  ordered (nodes (plug C (shrink x (Node l s a xs r)))) /\
  entries (nodes (plug C (Node l s a xs r))) ≡ₚ (x, s) :: entries (nodes (plug C (shrink x (Node l s a xs r)))).
Proof.
  intros Hx Hnd HS. rewrite !nodes_plug in *.
  assert (exists M, nodes (shrink x (Node l s a xs r)) = nodes l ++ M ++ nodes r /\ (M = [] \/ exists ys, M = [(s, ys)]) /\
            chunks_of (s, a :: xs) ≡ₚ (x, s) :: entries M) as (M & -> & HM & EP).
  { simpl. destruct (Z.eqb_spec x a) as [->|Hxa].
    - destruct xs as [|b bs]; [exists []; split_and!; [apply join_nodes | by left | done] |].
      exists [(s, b :: bs)]. split_and!; [done | right; by eexists |]. unfold entries, chunks_of. simpl. by rewrite app_nil_r.
    - apply elem_of_cons in Hx as [|Hx]; [done |]. exists [(s, a :: filter (fun y => y <> x) xs)]. split_and!; [done | right; by eexists |].
      apply list_elem_of_split in Hx as (ys & zs & ->). apply NoDup_cons in Hnd as [_ (_ & Hd & Hz)%NoDup_app]. apply NoDup_cons in Hz as [Hz _].
      rewrite filter_out; [| intros Hy; by apply (Hd _ Hy); left | done]. unfold entries, chunks_of. simpl.
      rewrite !fmap_app, app_nil_r. simpl. solve_Permutation. }
  split.
  - assert (before C ++ (nodes l ++ M ++ nodes r) ++ after C = (before C ++ nodes l) ++ M ++ nodes r ++ after C) as -> by (by rewrite <- !app_assoc).
    simpl in HS. rewrite <- app_assoc in HS. simpl in HS. rewrite app_assoc in HS.
    destruct HM as [->|[ys ->]]; simpl.
    + apply ordered_app in HS as (HS1 & HS2 & HS3). apply ordered_cons in HS2 as [HS2 HS4].
      apply ordered_app. split_and!; [done | done |]. intros n m Hn Hm. apply HS3; [done | by right].
    + apply ordered_app in HS as (HS1 & HS2 & HS3). apply ordered_cons in HS2 as [HS2 HS4].
      apply ordered_app. split_and!; [done | by apply ordered_cons |].
      intros n m Hn [->|Hm]%elem_of_cons; [apply (HS3 n (s, a :: xs) Hn); by left | apply HS3; [done | by right]].
  - unfold entries in *. simpl nodes. rewrite !bind_app. cbn [mbind list_bind]. rewrite EP. solve_Permutation.
Qed.

End FreeDictOrder.
