(* ===== verification/FreeDictGet.v ===== *)
(** Looking for a chunk in the dictionary of free blocks. *)
From S2P Require Import Prelude GlobalDefinitions FreeDictionary FreeDictCells FreeDictInsert FreeDictRemove FreeDictSplice FreeDictDelete FreeDictOrder.
Import GlobalDefinitions FreeDictionary FreeDictCells FreeDictInsert FreeDictRemove FreeDictSplice FreeDictDelete FreeDictOrder.

Module FreeDictGet.

(** ** The best fit *)

Lemma ctx_length C : forall p, (length C <= length (ctx_cells C p))%nat.
Proof.
  induction C as [|f C IH]; intros p; simpl; [lia |]. rewrite length_app. specialize (IH (frame_addr f)).
  destruct f; cbn [frame_cells]; rewrite length_app, ring_length; lia.
Qed.

Lemma ascend_spec h sz C : forall t p L fuel, Forall (way sz) C -> owns h (ctx_cells C p ++ L) -> (length C < fuel)%nat ->
  ascend h sz (ctx_addr C) fuel = Some (match climb C t with Some (_, t') => root t' | None => 0 end).
Proof.
  induction C as [|f C IH]; intros t p L [|fuel] HW HO Hf; simpl in Hf; [lia | done | lia |].
  apply Forall_cons in HW as [Hway HW]. cbn [ascend ctx_addr]. cbn [ctx_cells] in HO. rewrite <- app_assoc in HO.
  destruct (frame_read _ _ _ _ _ HO) as [-> Hf0]. rewrite (proj2 (Z.eqb_neq _ 0)) by done. cbn [mbind option_bind].
  destruct f as [s a xs r|l s a xs]; simpl in Hway |- *.
  - by rewrite (proj2 (Z.leb_le _ _)) by lia.
  - rewrite (proj2 (Z.leb_gt _ _)) by lia. apply (IH _ a (frame_cells (ctx_addr C) p (FR l s a xs) ++ L)); [done | | lia].
    eapply owns_proper; [| exact HO]. simpl. solve_Permutation.
Qed.

Lemma first_available_spec h par l s a xs r L :
  owns h (cells par (Node l s a xs r) ++ L) -> first_available h a = Some (first xs a) /\ first xs a <> 0 /\
  exists c, h !! first xs a = Some c /\ _word_size c = s.
Proof.
  intros HO. set (nl := node_list par (root l) (root r) s a xs).
  reorder (ring nl a xs ++ cells a l ++ cells a r ++ L). unfold first_available.
  rewrite (list_at_spec _ _ _ _ HO). pose proof (owns_read _ _ _ _ HO) as [Ea Ha]. cbn [mbind option_bind _embedded_list]. change (_head nl) with a.
  rewrite (proj2 (Z.eqb_neq a 0)) by done. cbn [negb assert mbind option_bind]. rewrite Ea. cbn [mbind option_bind _next]. cbv zeta.
  assert (first xs a ∈ a :: xs) as Hin by (destruct xs; simpl; [by left | right; by left]).
  destruct (ring_member nl a xs _ Hin) as (c & L' & EP & Es & El). pose proof HO as HOx. rewrite EP in HOx. apply owns_read in HOx as [Ex Hx].
  assert ((if first xs 0 =? 0 then a else first xs 0) = first xs a) as ->.
  { destruct xs as [|b bs]; [done |]. simpl. simpl in Hx. by rewrite (proj2 (Z.eqb_neq b 0)). }
  rewrite Ex. cbn [mbind option_bind]. rewrite El, Z.eqb_refl. cbn [assert mbind option_bind]. split_and!; [done | done |]. by exists c.
Qed.

Definition exact (dither : Dither) : bool := match dither with exactly => true | _ => false end.

Section Get.
Context (min_size : Z).

Lemma found_node h ts n T sz dither L :
  owns h (cells 0 T ++ L) -> min_size <= sz ->
  get_chunk_from_tree min_size (mkDict h ts n (root T)) sz dither =
  (let curTL := match choose sz (exact dither) T with Some (_, t) => root t | None => 0 end in
   if curTL =? 0 then Some (mkDict h ts n (root T), 0) else
   l ← list_at h curTL;
   _ ← assert (sz <=? _size l);
   retTC ← first_available h curTL;
   c ← h !! retTC;
   _ ← assert (negb (retTC =? 0) && (0 <? _count l) && (sz <=? _word_size c));
   D ← remove_chunk_from_tree (mkDict h ts n (root T)) retTC;
   Some (D, retTC)).
Proof.
  intros HO Hmin. unfold get_chunk_from_tree, choose. cbn [mem _root]. rewrite (proj2 (Z.leb_le _ _)) by done. cbn [assert mbind option_bind].
  destruct (search sz [] T) as [C t] eqn:Es. pose proof (search_plug sz T []) as HP. rewrite Es in HP. simpl in HP.
  pose proof (search_way sz T [] C t ltac:(constructor) Es) as HW.
  assert (exists prevTL, descend h sz (root T) (root T) (rounds h) = Some (prevTL, root t) /\ (t = Leaf -> prevTL = ctx_addr C)) as (prevTL & -> & Hprev).
  { pose proof (cells_rounds _ _ _ _ HO). eapply descend_spec; [exact HO | done | | exact Es]. destruct T; [by left | by right]. }
  cbn [mbind option_bind]. pose proof HO as HOc. rewrite <- HP, cells_plug in HOc. destruct t as [|l s a xs r].
  - rewrite Hprev by done. cbn [root]. change (0 =? 0) with true. cbv iota.
    assert (ascend h sz (ctx_addr C) (rounds h) = Some (match climb C Leaf with Some (_, t') => root t' | None => 0 end)) as Ea.
    { cbn [root cells app] in HOc. eapply ascend_spec; [done | rewrite <- app_assoc in HOc; exact HOc |].
      apply owns_size in HOc. rewrite !length_app in HOc. pose proof (ctx_length C 0). unfold rounds. lia. }
    destruct dither; [| done |]; cbn [exact]; rewrite Ea; cbn [mbind option_bind]; (destruct (climb C Leaf) as [[C' t']|] eqn:Ec; [| done]).
    all: apply climb_some in Ec as (Ec & l & s & a & xs & r & -> & _); cbn [root]; rewrite HP in Ec; rewrite <- Ec, cells_plug in HO.
    all: rewrite (Permutation_app_comm (ctx_cells _ _)), <- app_assoc in HO; destruct (node_read _ _ _ _ _ _ _ _ HO) as [El Ha].
    all: rewrite (proj2 (Z.eqb_neq a 0)) by done; rewrite El at 1; cbn [mbind option_bind node_list _count].
    all: rewrite (proj2 (Z.ltb_lt 0 (1 + Z.of_nat (length xs)))) by lia; cbn [assert mbind option_bind]; by rewrite (proj2 (Z.eqb_neq a 0)).
  - rewrite (Permutation_app_comm (ctx_cells _ _)), <- app_assoc in HOc. destruct (node_read _ _ _ _ _ _ _ _ HOc) as [_ Ha]. cbn [root].
    rewrite !(proj2 (Z.eqb_neq a 0)) by done. cbn [mbind option_bind]. by rewrite (proj2 (Z.eqb_neq a 0)) by done.
Qed.

Lemma get_spec h ts n T sz dither L :
  owns h (cells 0 T ++ L) -> ordered (nodes T) -> min_size <= sz ->
  match choose sz (exact dither) T with
  | Some (C, Node l s a xs r) =>
      get_chunk_from_tree min_size (mkDict h ts n (root T)) sz dither =
      (D ← remove_chunk_from_tree (mkDict h ts n (root T)) (first xs a); Some (D, first xs a))
  | _ => get_chunk_from_tree min_size (mkDict h ts n (root T)) sz dither = Some (mkDict h ts n (root T), 0)
  end.
Proof.
  intros HO HS Hmin. rewrite (found_node _ _ _ _ _ _ _ HO Hmin). destruct (choose sz (exact dither) T) as [[C t]|] eqn:Ec; [| done].
  apply choose_some in Ec as (HP & l & s & a & xs & r & -> & Hs & _ & _); [| done]. cbn [root]. cbv zeta.
  assert (owns h (cells (ctx_addr C) (Node l s a xs r) ++ ctx_cells C a ++ L)) as HOc.
  { eapply owns_proper; [| exact HO]. rewrite <- HP, cells_plug. simpl. solve_Permutation. }
  destruct (node_read _ _ _ _ _ _ _ _ HOc) as [-> Ha]. destruct (first_available_spec _ _ _ _ _ _ _ _ HOc) as (-> & Hx & c & Ec & Ew).
  rewrite (proj2 (Z.eqb_neq a 0)) by done. cbn [mbind option_bind node_list _size _count]. rewrite (proj2 (Z.leb_le sz s)) by done.
  cbn [assert mbind option_bind]. rewrite Ec. cbn [mbind option_bind]. rewrite Ew, (proj2 (Z.leb_le sz s)) by done.
  rewrite (proj2 (Z.eqb_neq _ 0)), (proj2 (Z.ltb_lt _ _)) by (done || lia). done.
Qed.

End Get.

(** ** Where a chunk is *)

Lemma find_entry T : forall x s, (x, s) ∈ entries (nodes T) -> exists C l a xs r, plug C (Node l s a xs r) = T /\ x ∈ a :: xs.
Proof.
  assert (forall C x s, (x, s) ∈ entries (nodes T) -> exists C' l a xs r, plug C' (Node l s a xs r) = plug C T /\ x ∈ a :: xs) as H.
  { induction T as [|l IHl s0 a xs r IHr]; intros C x s Hin; [by apply elem_of_nil in Hin |].
    unfold entries in Hin. cbn [nodes] in Hin. rewrite bind_app in Hin. cbn [mbind list_bind] in Hin.
    apply elem_of_app in Hin as [Hin|[Hin|Hin]%elem_of_app].
    - by apply (IHl (FL s0 a xs r :: C)) in Hin.
    - apply list_elem_of_fmap in Hin as (x' & [= -> ->] & Hin). by exists C, l, a, xs, r.
    - by apply (IHr (FR l s0 a xs :: C)) in Hin. }
  intros x s Hin. by apply (H []) in Hin.
Qed.

End FreeDictGet.
