(* ===== verification/FreeDictQueries.v ===== *)
(** Questions to the dictionary of free blocks: its largest size, its total size, the chunk
    that ends at an address. *)
From S2P Require Import Prelude GlobalDefinitions FreeDictionary FreeDictCells FreeDictInsert FreeDictDelete FreeDictOrder.
Import GlobalDefinitions FreeDictionary FreeDictCells FreeDictInsert FreeDictDelete FreeDictOrder.

Module FreeDictQueries.

(** ** The largest node *)

Lemma rightmost_spec h t : forall par L fuel, t <> Leaf -> owns h (cells par t ++ L) -> (length (cells par t) < fuel)%nat ->
  exists N par' l s a xs r L', rightmost h (root t) fuel = Some a /\ nodes t = N ++ [(s, a :: xs)] /\ owns h (cells par' (Node l s a xs r) ++ L').
Proof.
  induction t as [|l _ s a xs r IHr]; intros par L [|fuel] Ht HO Hf; [done | done | lia |]. cbn [rightmost root].
  destruct (node_read _ _ _ _ _ _ _ _ HO) as [-> Ha]. cbn [mbind option_bind node_list _right].
  destruct (Z.eqb_spec (root r) 0) as [E|Hr].
  - destruct (cells_right _ _ _ _ _ _ _ _ HO) as (L' & HO'). assert (r = Leaf) as -> by (by apply (owns_root _ _ _ _ HO')).
    by exists (nodes l), par, l, s, a, xs, Leaf, L.
  - rewrite cells_length in Hf. destruct (cells_right _ _ _ _ _ _ _ _ HO) as (L' & HO').
    destruct (IHr a L' fuel) as (N & par' & l1 & s1 & a1 & xs1 & r1 & L1 & -> & E & HO1); [by intros -> | done | lia |].
    exists (nodes l ++ (s, a :: xs) :: N), par', l1, s1, a1, xs1, r1, L1. split_and!; [done | | done]. simpl. by rewrite E, <- app_assoc.
Qed.

Lemma entries_elem N x s : (x, s) ∈ entries N <-> exists n, n ∈ N /\ n.1 = s /\ x ∈ n.2.
Proof.
  unfold entries. rewrite list_elem_of_bind. split.
  - intros (n & Hx & Hn). apply list_elem_of_fmap in Hx as (y & [= -> ->] & Hy). by exists n.
  - intros (n & Hn & <- & Hx). exists n. split; [| done]. apply list_elem_of_fmap. by exists x.
Qed.

(** The largest size, and a chunk of it. *)
Lemma largest_spec h T L : T <> Leaf -> owns h (cells 0 T ++ L) -> ordered (nodes T) ->
  exists par l s a xs r L', rightmost h (root T) (rounds h) = Some a /\ owns h (cells par (Node l s a xs r) ++ L') /\
    (forall x, x ∈ a :: xs -> (x, s) ∈ entries (nodes T)) /\ forall y s', (y, s') ∈ entries (nodes T) -> s' <= s.
Proof.
  intros HT HO HS. pose proof (cells_rounds _ _ _ _ HO) as Hf.
  destruct (rightmost_spec h T 0 L (rounds h) HT HO Hf) as (N & par & l & s & a & xs & r & L' & E & EN & HO').
  exists par, l, s, a, xs, r, L'. split_and!; [done | done | |].
  - intros x Hx. apply entries_elem. exists (s, a :: xs). split_and!; [| done | done]. rewrite EN. apply elem_of_app. right. by left.
  - intros y s' (n & Hn & <- & _)%entries_elem. rewrite EN in HS, Hn. apply ordered_app in HS as (_ & _ & HS).
    apply elem_of_app in Hn as [Hn| ->%list_elem_of_singleton]; [| done]. specialize (HS n (s, a :: xs) Hn ltac:(by left)). simpl in HS. lia.
Qed.

Lemma largest_loop_spec h tl sz xs : forall prev x L last fuel,
  owns h (seg tl sz prev (x :: xs) 0 ++ L) -> (S (length xs) < fuel)%nat ->
  exists r, largest_loop h last x fuel = Some r /\ r ∈ last :: x :: xs.
Proof.
  induction xs as [|y xs IH]; intros prev x L last [|fuel] HO Hf; simpl in Hf; try lia; cbn [largest_loop].
  - simpl in HO. apply owns_read in HO as [-> _]. exists last. split; [done | by left].
  - pose proof (owns_read _ _ _ _ HO) as [-> _]. cbn [mbind option_bind _next first]. apply owns_cons_r in HO.
    pose proof (owns_read _ _ _ _ HO) as [_ Hy]. rewrite (proj2 (Z.eqb_neq y 0)) by done.
    destruct (IH x y L (if last <? x then x else last) fuel HO ltac:(lia)) as (r & -> & Hr). exists r. split; [done |].
    apply elem_of_cons in Hr as [->|Hr]; [| right; by right]. destruct (last <? x); [right; by left | by left].
Qed.

Lemma largest_address_spec h par l s a xs r L :
  owns h (cells par (Node l s a xs r) ++ L) -> exists x, largest_address h a = Some x /\ x ∈ a :: xs.
Proof.
  intros HO. set (nl := node_list par (root l) (root r) s a xs).
  reorder (ring nl a xs ++ cells a l ++ cells a r ++ L). unfold largest_address. pose proof (ring_rounds _ _ _ _ _ HO) as Hf.
  rewrite (list_at_spec _ _ _ _ HO). pose proof (owns_read _ _ _ _ HO) as [Ea Ha]. cbn [mbind option_bind _embedded_list]. change (_head nl) with a.
  rewrite (proj2 (Z.eqb_neq a 0)) by done. cbn [negb assert mbind option_bind]. rewrite Ea. cbn [mbind option_bind _next].
  assert (exists x, (if first xs 0 =? 0 then Some a else largest_loop h (first xs 0) (first xs 0) (rounds h)) = Some x /\ x ∈ a :: xs) as (x & -> & Hx).
  { destruct xs as [|b bs]; [exists a; split; [done | by left] |]. pose proof (owns_cons_r _ _ _ HO) as HOs.
    pose proof (owns_read _ _ _ _ HOs) as [_ Hb]. simpl first. rewrite (proj2 (Z.eqb_neq b 0)) by done. simpl in Hf.
    destruct (largest_loop_spec h a s bs a b _ b (rounds h) HOs ltac:(lia)) as (x & -> & Hx). exists x. split; [done |].
    apply elem_of_cons in Hx as [->|Hx]; [right; by left | by right]. }
  exists x. split; [| done]. cbn [mbind option_bind]. destruct (ring_member nl a xs x Hx) as (c & L' & EP & _ & El). rewrite EP in HO.
  apply owns_read in HO as [-> _]. cbn [mbind option_bind]. by rewrite El, Z.eqb_refl.
Qed.

(** [return_chunk_at_head] fails its assertion on every list of one chunk, whose tail is that
    chunk. *)
Lemma return_at_head_fails h par l s a r y L : owns h (cells par (Node l s a [] r) ++ L) -> return_chunk_at_head h a y = None.
Proof.
  intros HO. destruct (node_read _ _ _ _ _ _ _ _ HO) as [El Ha]. rewrite cells_node in HO. apply owns_read in HO as [Ea _].
  unfold return_chunk_at_head. rewrite El. destruct (h !! y) as [c|]; [| done]. cbn [mbind option_bind].
  destruct (list_verify_chunk h a y) as [d|]; [| done]. cbn [mbind option_bind]. destruct (assert (_ && negb d)) as [[]|]; [| done]. cbn [mbind option_bind].
  destruct (list_invariant h a) as [[]|]; [| done]. cbn [mbind option_bind node_list _head _tail List.last]. rewrite Ea.
  cbn [mbind option_bind _next first]. cbv zeta. change (negb (0 =? 0)) with false. cbv iota. by rewrite (proj2 (Z.eqb_neq a 0)).
Qed.

(** ** The total size *)

Definition total (L : list (Z * Z)) : Z := foldr (fun e z => e.2 + z) 0 L.

Lemma total_entries_app L M : total (L ++ M) = total L + total M.
Proof. induction L as [|e L IH]; simpl; [done |]. rewrite IH. lia. Qed.

#[export] Instance total_proper : Proper ((≡ₚ) ==> eq) total.
Proof. intros L M E. induction E; simpl; lia. Qed.

Lemma total_list s xs : total (chunks_of (s, xs)) = s * Z.of_nat (length xs).
Proof.
  induction xs as [|x xs IH]; [simpl; lia |]. change (total (chunks_of (s, x :: xs))) with (s + total (chunks_of (s, xs))).
  rewrite IH. change (length (x :: xs)) with (S (length xs)). lia.
Qed.

Lemma total_size_spec h t : forall par L fuel, owns h (cells par t ++ L) -> (length (cells par t) < fuel)%nat ->
  total_size_in_tree h (root t) fuel = Some (size_t (total (entries (nodes t)))).
Proof.
  induction t as [|l IHl s a xs r IHr]; intros par L [|fuel] HO Hf; [lia | done | lia |].
  rewrite cells_length in Hf. cbn [total_size_in_tree root].
  destruct (cells_left _ _ _ _ _ _ _ _ HO) as (L1 & HO1). destruct (cells_right _ _ _ _ _ _ _ _ HO) as (L2 & HO2).
  destruct (node_read _ _ _ _ _ _ _ _ HO) as [El Ha]. rewrite (proj2 (Z.eqb_neq a 0)) by done. unfold total_list_length. rewrite !El.
  cbn [mbind option_bind node_list _left _right _head _size _count].
  assert (walk h a (rounds h) = Some (a :: xs)) as ->.
  { set (nl := node_list par (root l) (root r) s a xs). reorder (ring nl a xs ++ cells a l ++ cells a r ++ L).
    by eapply ring_walk. }
  cbn [mbind option_bind]. assert ((1 + Z.of_nat (length xs) =? Z.of_nat (length (a :: xs))) = true) as -> by (apply Z.eqb_eq; simpl; lia).
  cbn [assert mbind option_bind]. rewrite (IHl a L1), (IHr a L2) by (done || lia). cbn [mbind option_bind]. f_equal.
  unfold entries. cbn [nodes]. rewrite bind_app. cbn [mbind list_bind]. rewrite !total_entries_app, total_list.
  change (length (a :: xs)) with (S (length xs)). unfold size_t, wrap. rewrite Nat2Z.inj_succ. set (A := total (nodes l ≫= chunks_of)).
  set (B := total (nodes r ≫= chunks_of)). change (list_bind _ _ chunks_of (nodes r)) with (nodes r ≫= chunks_of). fold B.
  rewrite (Z.add_mod_idemp_r (s * (1 + Z.of_nat (length xs)) + A mod 2 ^ 64)) by done.
  rewrite <- Z.add_assoc, (Z.add_comm (A mod 2 ^ 64)), Z.add_assoc, Z.add_mod_idemp_r by done. f_equal. lia.
Qed.

(** ** The chunk that ends at an address *)

Lemma ends_list_spec h target tl sz xs : forall prev L fuel,
  owns h (seg tl sz prev xs 0 ++ L) -> (length xs < fuel)%nat ->
  exists r, ends_in_list h target (first xs 0) fuel = Some r /\
    (r = 0 /\ (forall x, x ∈ xs -> x + 8 * sz <> target) \/ r <> 0 /\ r ∈ xs /\ r + 8 * sz = target).
Proof.
  induction xs as [|x xs IH]; intros prev L [|fuel] HO Hf; simpl in Hf; try lia; cbn [ends_in_list first].
  - exists 0. split; [done |]. left. split; [done |]. intros x Hx. by apply elem_of_nil in Hx.
  - pose proof (owns_read _ _ _ _ HO) as [-> Hx]. rewrite (proj2 (Z.eqb_neq x 0)) by done. cbn [mbind option_bind _word_size _next].
    destruct (Z.eqb_spec (x + 8 * sz) target) as [E|Hne]; [exists x; split; [done |]; right; split_and!; [done | by left | done] |].
    apply owns_cons_r in HO. destruct (IH x L fuel HO ltac:(lia)) as (r & -> & [[-> Hr]|(Hr & Hin & E)]).
    + exists 0. split; [done |]. left. split; [done |]. intros y [->|Hy]%elem_of_cons; [done | by apply Hr].
    + exists r. split; [done |]. right. split_and!; [done | by right | done].
Qed.

Definition ends_at (target : Z) (E : list (Z * Z)) (r : Z) : Prop :=
  r = 0 /\ (forall x s, (x, s) ∈ E -> x + 8 * s <> target) \/ r <> 0 /\ exists s, (r, s) ∈ E /\ r + 8 * s = target.

Lemma ends_tree_spec h target t : forall par L fuel, owns h (cells par t ++ L) -> (length (cells par t) < fuel)%nat ->
  exists r, ends_in_tree h target (root t) fuel = Some r /\ ends_at target (entries (nodes t)) r.
Proof.
  induction t as [|l IHl s a xs r IHr]; intros par L [|fuel] HO Hf; [lia | | lia |].
  { exists 0. split; [done |]. left. split; [done |]. intros x s Hx. by apply elem_of_nil in Hx. }
  rewrite cells_length in Hf. cbn [ends_in_tree root].
  destruct (cells_left _ _ _ _ _ _ _ _ HO) as (L1 & HO1). destruct (cells_right _ _ _ _ _ _ _ _ HO) as (L2 & HO2).
  destruct (IHl a L1 fuel HO1 ltac:(lia)) as (r1 & E1 & H1). destruct (IHr a L2 fuel HO2 ltac:(lia)) as (r2 & E2 & H2).
  destruct (node_read _ _ _ _ _ _ _ _ HO) as [-> Ha]. rewrite (proj2 (Z.eqb_neq a 0)) by done.
  cbn [mbind option_bind node_list _left _right _head]. rewrite E2. cbn [mbind option_bind].
  assert (forall x s', (x, s') ∈ entries (nodes (Node l s a xs r)) <->
            (x, s') ∈ entries (nodes l) \/ (s' = s /\ x ∈ a :: xs) \/ (x, s') ∈ entries (nodes r)) as HE.
  { intros x s'. unfold entries. cbn [nodes]. rewrite bind_app. cbn [mbind list_bind]. rewrite !elem_of_app.
    assert ((x, s') ∈ chunks_of (s, a :: xs) <-> s' = s /\ x ∈ a :: xs) as ->; [| done].
    unfold chunks_of. rewrite list_elem_of_fmap. split; [by intros (y & [= -> ->] & ?) | intros [-> ?]; by exists x]. }
  destruct H2 as [[-> H2]|(Hr2 & s2 & Hin2 & Es2)].
  2: { rewrite (proj2 (Z.eqb_neq r2 0)) by done. exists r2. split; [done |]. right. split; [done |]. exists s2. split; [| done]. apply HE. by right; right. }
  change (negb (0 =? 0)) with false. cbv iota.
  assert (exists r', ends_in_list h target a (rounds h) = Some r' /\
    (r' = 0 /\ (forall x, x ∈ a :: xs -> x + 8 * s <> target) \/ r' <> 0 /\ r' ∈ a :: xs /\ r' + 8 * s = target)) as (r' & -> & H').
  { set (nl := node_list par (root l) (root r) s a xs). reorder (ring nl a xs ++ cells a l ++ cells a r ++ L).
    pose proof (ring_rounds _ _ _ _ _ HO) as Hr. destruct (rounds h) as [|k]; [lia |]. cbn [ends_in_list]. rewrite (proj2 (Z.eqb_neq a 0)) by done.
    pose proof (owns_read _ _ _ _ HO) as [-> _]. cbn [mbind option_bind _next _word_size]. change (_size nl) with s.
    destruct (Z.eqb_spec (a + 8 * s) target) as [E|Hne]; [exists a; split; [done |]; right; split_and!; [done | by left | done] |].
    apply owns_cons_r in HO. destruct (ends_list_spec h target _ _ _ _ _ k HO ltac:(lia)) as (r' & -> & [[-> Hr']|(Hr' & Hin & E)]).
    - exists 0. split; [done |]. left. split; [done |]. intros y [->|Hy]%elem_of_cons; [done | by apply Hr'].
    - exists r'. split; [done |]. right. split_and!; [done | by right | done]. }
  cbn [mbind option_bind]. destruct H' as [[-> H']|(Hr' & Hin' & Es')].
  2: { rewrite (proj2 (Z.eqb_neq r' 0)) by done. exists r'. split; [done |]. right. split; [done |]. exists s. split; [| done]. apply HE. right; by left. }
  change (negb (0 =? 0)) with false. cbv iota. exists r1. split; [done |]. destruct H1 as [[-> H1]|(Hr1 & s1 & Hin1 & Es1)].
  - left. split; [done |]. intros x s' [?|[[-> ?]|?]]%HE; [by apply H1 | by apply H' | by apply H2].
  - right. split; [done |]. exists s1. split; [| done]. apply HE. by left.
Qed.

End FreeDictQueries.
