(* ===== verification/FreeDictVerify.v ===== *)
(** The verification of the dictionary of free blocks on the trees it builds. *)
From S2P Require Import Prelude GlobalDefinitions FreeDictionary FreeDictCells FreeDictInsert FreeDictDelete FreeDictOrder FreeDictGet FreeDictQueries.
Import GlobalDefinitions FreeDictionary FreeDictCells FreeDictInsert FreeDictDelete FreeDictOrder FreeDictGet FreeDictQueries.

Module FreeDictVerify.

(** ** Lists *)

Lemma chunk_list_seg h tl sz xs : forall x prev L fuel, prev <> 0 ->
  owns h (seg tl sz prev (x :: xs) 0 ++ L) -> (length xs < fuel)%nat -> verify_tree_chunk_list h x fuel = Some tt.
Proof.
  induction xs as [|y xs IH]; intros x prev L [|fuel] Hp HO Hf; simpl in Hf; try lia; cbn [verify_tree_chunk_list].
  - simpl in HO. apply owns_read in HO as [-> _]. cbn [mbind option_bind _next _prev _embedded_list]. by rewrite (proj2 (Z.eqb_neq prev 0)).
  - pose proof (owns_read _ _ _ _ HO) as [-> Hx]. apply owns_cons_r in HO. pose proof (owns_read _ _ _ _ HO) as [Ey Hy].
    cbn [mbind option_bind _next _prev _embedded_list first empty_list _parent _left _right Z.eqb andb assert].
    rewrite (proj2 (Z.eqb_neq prev 0)), (proj2 (Z.eqb_neq y 0)) by done. cbn [mbind option_bind]. rewrite Ey. cbn [mbind option_bind _prev _word_size].
    rewrite !Z.eqb_refl. cbn [andb assert mbind option_bind]. by apply (IH y x L fuel); [| | lia].
Qed.

Lemma chunk_list_ring h l a xs L : owns h (ring l a xs ++ L) -> verify_tree_chunk_list h a (rounds h) = Some tt.
Proof.
  intros HO. pose proof (ring_rounds _ _ _ _ _ HO) as Hr. destruct (rounds h) as [|k]; [lia |]. cbn [verify_tree_chunk_list].
  pose proof (owns_read _ _ _ _ HO) as [-> Ha]. cbn [mbind option_bind _next _prev Z.eqb]. apply owns_cons_r in HO.
  destruct xs as [|b bs]; [done |]. pose proof (owns_read _ _ _ _ HO) as [Eb Hb]. cbn [first]. rewrite (proj2 (Z.eqb_neq b 0)) by done. rewrite Eb.
  cbn [mbind option_bind _prev _word_size]. rewrite !Z.eqb_refl. cbn [andb assert mbind option_bind]. apply (chunk_list_seg h a (_size l) bs b a L k Ha HO). simpl in Hr. lia.
Qed.

(** ** Trees *)

Lemma child_ok h par t L related : owns h (cells par t ++ L) -> (forall n, n ∈ nodes t -> related n.1 = true) ->
  verify_child h par (root t) related = Some tt.
Proof.
  intros HO Hrel. unfold verify_child. destruct t as [|l s a xs r]; [done |]. destruct (node_read _ _ _ _ _ _ _ _ HO) as [El Ha]. cbn [root].
  rewrite (proj2 (Z.eqb_neq a 0)), El by done. cbn [mbind option_bind node_list _parent _size].
  rewrite Z.eqb_refl. pose proof (Hrel (s, a :: xs)) as Hs. simpl in Hs. rewrite Hs; [done |]. apply elem_of_app. right. by left.
Qed.

Lemma verify_helper_spec h t : forall par L fuel, owns h (cells par t ++ L) -> ordered (nodes t) -> (forall n, n ∈ nodes t -> 0 < n.1) ->
  Z.of_nat (length (cells par t)) < 2 ^ 64 -> (length (cells par t) < fuel)%nat -> verify_tree_helper h (root t) fuel = Some tt.
Proof.
  induction t as [|l IHl s a xs r IHr]; intros par L [|fuel] HO HS Hpos Hc Hf; [lia | done | lia |].
  rewrite cells_length in Hf, Hc. cbn [verify_tree_helper root].
  destruct (cells_left _ _ _ _ _ _ _ _ HO) as (L1 & HO1). destruct (cells_right _ _ _ _ _ _ _ _ HO) as (L2 & HO2).
  destruct (node_read _ _ _ _ _ _ _ _ HO) as [El Ha]. rewrite (proj2 (Z.eqb_neq a 0)) by done. unfold verify_prev_free_ptrs. rewrite El.
  set (nl := node_list par (root l) (root r) s a xs) in *. cbn [mbind option_bind]. change (_head nl) with a. change (_size nl) with s. change (_left nl) with (root l).
  change (_right nl) with (root r). change (_tail nl) with (List.last xs a). change (_count nl) with (1 + Z.of_nat (length xs)).
  simpl in HS, Hpos. apply ordered_app in HS as (HSl & HS & Hlr). apply ordered_cons in HS as [HSr Hr].
  assert (0 < s) as Hs. { apply (Hpos (s, a :: xs)). apply elem_of_app. right. by left. }
  rewrite (proj2 (Z.eqb_neq s 0)) by lia. cbn [negb assert mbind option_bind].
  rewrite (child_ok _ _ _ _ _ HO1) by (intros n Hn; apply Z.ltb_lt, (Hlr n (s, a :: xs) Hn); by left). cbn [mbind option_bind].
  rewrite (child_ok _ _ _ _ _ HO2) by (intros n Hn; apply Z.ltb_lt, (Hr n Hn)). cbn [mbind option_bind].
  rewrite (proj2 (Z.eqb_neq a 0)) by done. pose proof HO as HOr. reorder_in HOr (ring nl a xs ++ cells a l ++ cells a r ++ L).
  pose proof (owns_read _ _ _ _ HOr) as [-> _]. cbn [mbind option_bind _list]. rewrite Z.eqb_refl. cbn [assert mbind option_bind].
  rewrite (proj2 (Z.ltb_lt 0 (1 + Z.of_nat (length xs)))) by lia. cbn [orb assert mbind option_bind].
  assert ((1 <? 1 + Z.of_nat (length xs)) || (a =? List.last xs a) = true) as ->.
  { destruct xs; [simpl; by rewrite Z.eqb_refl |]. rewrite (proj2 (Z.ltb_lt _ _)); [done | cbn [length]; lia]. }
  cbn [assert mbind option_bind]. rewrite (ring_walk _ _ _ _ _ HOr). cbn [mbind option_bind]. rewrite size_t_id by lia.
  rewrite (proj2 (Z.eqb_eq (Z.of_nat (length (a :: xs))) _)) by (cbn [length]; lia). cbn [assert mbind option_bind].
  rewrite (chunk_list_ring _ _ _ _ _ HOr). cbn [mbind option_bind].
  rewrite (IHl a L1), (IHr a L2); [done | done | done | | lia | lia | done | done | | lia | lia];
    intros n Hn; apply Hpos, elem_of_app; [right; by right | by left].
Qed.

Lemma chunks_length n : length (chunks_of n) = length n.2.
Proof. apply length_fmap. Qed.

Lemma cells_entries t : forall par, length (cells par t) = length (entries (nodes t)).
Proof.
  induction t as [|l IHl s a xs r IHr]; intros par; [done |]. rewrite cells_length, IHl, IHr. unfold entries. cbn [nodes]. rewrite bind_app, length_app.
  cbn [mbind list_bind]. rewrite length_app, (chunks_length (s, a :: xs)). cbn [snd length]. change (list_bind _ _ chunks_of (nodes r)) with (nodes r ≫= chunks_of). lia.
Qed.

Lemma total_blocks_spec h t : forall par L fuel, owns h (cells par t ++ L) -> (length (cells par t) < fuel)%nat ->
  total_free_blocks_in_tree h (root t) fuel = Some (size_t (Z.of_nat (length (entries (nodes t))))).
Proof.
  induction t as [|l IHl s a xs r IHr]; intros par L [|fuel] HO Hf; [lia | done | lia |].
  rewrite cells_length in Hf. cbn [total_free_blocks_in_tree root].
  destruct (cells_left _ _ _ _ _ _ _ _ HO) as (L1 & HO1). destruct (cells_right _ _ _ _ _ _ _ _ HO) as (L2 & HO2).
  destruct (node_read _ _ _ _ _ _ _ _ HO) as [El Ha]. rewrite (proj2 (Z.eqb_neq a 0)) by done. unfold total_list_length. rewrite !El.
  cbn [mbind option_bind node_list _left _right _head _size _count].
  assert (walk h a (rounds h) = Some (a :: xs)) as ->.
  { set (nl := node_list par (root l) (root r) s a xs). reorder (ring nl a xs ++ cells a l ++ cells a r ++ L). by eapply ring_walk. }
  cbn [mbind option_bind]. assert ((1 + Z.of_nat (length xs) =? Z.of_nat (length (a :: xs))) = true) as -> by (apply Z.eqb_eq; simpl; lia).
  cbn [assert mbind option_bind]. rewrite (IHl a L1), (IHr a L2) by (done || lia). cbn [mbind option_bind]. f_equal.
  unfold entries. cbn [nodes]. rewrite bind_app. cbn [mbind list_bind]. rewrite !length_app. rewrite (chunks_length (s, a :: xs)). cbn [snd length].
  change (list_bind _ _ chunks_of (nodes r)) with (nodes r ≫= chunks_of). unfold size_t, wrap. rewrite !Nat2Z.inj_add, Nat2Z.inj_succ.
  set (A := Z.of_nat (length (nodes l ≫= chunks_of))). set (B := Z.of_nat (length (nodes r ≫= chunks_of))).
  rewrite (Z.add_mod_idemp_r (1 + Z.of_nat (length xs) + A mod 2 ^ 64)) by done.
  rewrite <- Z.add_assoc, (Z.add_comm (A mod 2 ^ 64)), Z.add_assoc, Z.add_mod_idemp_r by done. f_equal. lia.
Qed.

(** ** Membership *)

Lemma in_list_spec h tl l fc sz xs : forall prev L fuel,
  owns h (seg tl sz prev xs 0 ++ L) -> list_at h tl = Some l -> _size l = sz -> (length xs < fuel)%nat ->
  in_free_list h tl fc (first xs 0) fuel = Some (bool_decide (fc ∈ xs)).
Proof.
  induction xs as [|x xs IH]; intros prev L [|fuel] HO El Es Hf; simpl in Hf; try lia; cbn [in_free_list first].
  - by rewrite bool_decide_eq_false_2 by apply not_elem_of_nil.
  - pose proof (owns_read _ _ _ _ HO) as [-> Hx]. rewrite (proj2 (Z.eqb_neq x 0)), El by done. cbn [mbind option_bind _word_size _next].
    rewrite Es, Z.eqb_refl. cbn [assert mbind option_bind]. destruct (Z.eqb_spec fc x) as [->|Hne]; [by rewrite bool_decide_eq_true_2 by (by left) |].
    apply owns_cons_r in HO. rewrite (IH x L fuel) by (done || lia). f_equal. apply bool_decide_ext. rewrite elem_of_cons. tauto.
Qed.

Lemma verify_chunk_spec h ts n T x c L : owns h (cells 0 T ++ L) -> ordered (nodes T) -> h !! x = Some c ->
  (forall s, (x, s) ∈ entries (nodes T) -> s = _word_size c) ->
  exists b, dict_verify_chunk (mkDict h ts n (root T)) x = Some b /\ (b = true <-> (x, _word_size c) ∈ entries (nodes T)).
Proof.
  intros HO HS Hx Hsz. unfold dict_verify_chunk, find_list. cbn [mem _root]. rewrite Hx. cbn [mbind option_bind]. set (sz := _word_size c) in *.
  destruct (search sz [] T) as [C t] eqn:Es. pose proof (search_plug sz T []) as HP. rewrite Es in HP. simpl in HP.
  pose proof (search_way sz T [] C t ltac:(constructor) Es) as HW. pose proof (search_found sz T [] C t Es) as HF.
  assert (exists prevTL, descend h sz (root T) (root T) (rounds h) = Some (prevTL, root t)) as (prevTL & ->).
  { pose proof (cells_rounds _ _ _ _ HO) as Hf. destruct (descend_spec h sz T 0 L [] (root T) (rounds h) C t HO Hf) as (p & E & _); [| done | by exists p].
    destruct T; [by left | by right]. }
  cbn [mbind option_bind]. rewrite <- HP in HS. destruct (way_sides _ _ _ HW HS) as [Hb Ha].
  assert (forall n, n ∈ nodes (plug C t) -> n.1 = sz -> n ∈ nodes t) as Hthere.
  { intros m Hm Em. rewrite nodes_plug in Hm. apply elem_of_app in Hm as [Hm|[Hm|Hm]%elem_of_app]; [specialize (Hb m Hm); lia | done | specialize (Ha m Hm); lia]. }
  rewrite <- HP in HO |- *. rewrite cells_plug in HO. destruct t as [|l s a xs r].
  - exists false. split; [done |]. split; [done |]. intros (m & Hm & Em & _)%entries_elem. by apply (Hthere m Hm), elem_of_nil in Em.
  - subst s. set (nl := node_list (ctx_addr C) (root l) (root r) sz a xs). reorder (ring nl a xs ++ cells a l ++ cells a r ++ ctx_cells C a ++ L).
    pose proof (owns_read _ _ _ _ HO) as [Ea Ha0]. cbn [root]. rewrite (proj2 (Z.eqb_neq a 0)) by done. unfold list_verify_chunk. rewrite Hx.
    pose proof (list_at_spec _ _ _ _ HO) as El. rewrite El. cbn [mbind option_bind _embedded_list]. change (_size nl) with sz. rewrite Z.eqb_refl. cbn [assert mbind option_bind].
    assert (in_free_list h a x (_head nl) (rounds h) = Some (bool_decide (x ∈ a :: xs))) as ->.
    { pose proof (ring_rounds _ _ _ _ _ HO) as Hr. destruct (rounds h) as [|k]; [lia |]. change (_head nl) with a. cbn [in_free_list].
      rewrite (proj2 (Z.eqb_neq a 0)), Ea, El by done. cbn [mbind option_bind _word_size _next _embedded_list]. rewrite Z.eqb_refl. cbn [assert mbind option_bind].
      destruct (Z.eqb_spec x a) as [->|Hne]; [by rewrite bool_decide_eq_true_2 by (by left) |]. apply owns_cons_r in HO.
      rewrite (in_list_spec _ _ _ _ _ _ _ _ k HO El) by (done || lia). f_equal. apply bool_decide_ext. rewrite elem_of_cons. tauto. }
    eexists. split; [done |]. rewrite bool_decide_eq_true. split.
    + intros Hin. apply entries_elem. exists (sz, a :: xs). split_and!; [| done | done]. rewrite nodes_plug. apply elem_of_app. right. apply elem_of_app. left.
      simpl. apply elem_of_app. right. by left.
    + intros (m & Hm & Em & Hin)%entries_elem. pose proof (Hthere m Hm Em) as Ht. simpl in Ht.
      rewrite nodes_plug in HS. apply ordered_app in HS as (_ & HS & _). apply ordered_app in HS as (HS & _ & _). simpl in HS.
      apply ordered_app in HS as (_ & HS & Hlr). apply ordered_cons in HS as [_ HS].
      apply elem_of_app in Ht as [Ht|[->|Ht]%elem_of_cons]; [specialize (Hlr m (sz, a :: xs) Ht ltac:(by left)); simpl in Hlr; lia | done | specialize (HS m Ht); simpl in HS; lia].
Qed.

Lemma entry_cell h T x s L : owns h (cells 0 T ++ L) -> (x, s) ∈ entries (nodes T) -> exists c, h !! x = Some c /\ _word_size c = s.
Proof.
  intros HO Hin. destruct (find_entry _ _ _ Hin) as (C & l & a & xs & r & HP & Hm). rewrite <- HP, cells_plug in HO.
  set (nl := node_list (ctx_addr C) (root l) (root r) s a xs). reorder (ring nl a xs ++ cells a l ++ cells a r ++ ctx_cells C a ++ L).
  destruct (ring_member nl a xs x Hm) as (c & L' & EP & Es & _). rewrite EP in HO. apply owns_read in HO as [Ex _]. by exists c.
Qed.

Lemma nodes_nonempty T : forall n, n ∈ nodes T -> exists x, x ∈ n.2.
Proof.
  induction T as [|l IHl s a xs r IHr]; intros n Hn; [by apply elem_of_nil in Hn |]. simpl in Hn.
  apply elem_of_app in Hn as [Hn|[->|Hn]%elem_of_cons]; [by apply IHl | exists a; by left | by apply IHr].
Qed.

End FreeDictVerify.
