(* ===== verification/FreeDictHistory.v ===== *)
(** The dictionary of free blocks against a map of addresses to sizes: what every sequence of
    requests to it does. *)
From S2P Require Import Prelude GlobalDefinitions FreeDictionary FreeDictCells FreeDictInsert FreeDictRemove FreeDictSplice FreeDictDelete FreeDictOrder FreeDictGet FreeDictQueries.
Import GlobalDefinitions FreeDictionary FreeDictCells FreeDictInsert FreeDictRemove FreeDictSplice FreeDictDelete FreeDictOrder FreeDictGet FreeDictQueries.

Module FreeDictHistory.

Notation blocks := (gmap Z Z).

(** ** Requests and their specification *)

Inductive request : Set := Return (x : Z) | Get (sz : Z) (dither : Dither) | Remove (x : Z).

Definition fits (dither : Dither) (sz s : Z) : Prop := match dither with exactly => s = sz | _ => sz <= s end.

(** The smallest of the free blocks that fit, or 0 where there is none. *)
Definition best_fit (free : blocks) (sz : Z) (dither : Dither) (r : Z) : Prop :=
  r = 0 /\ (forall x s, free !! x = Some s -> ~ fits dither sz s) \/
  exists s, free !! r = Some s /\ fits dither sz s /\ forall y s', free !! y = Some s' -> fits dither sz s' -> s <= s'.

Definition answers (free : blocks) (q : request) (r : Z) : Prop :=
  match q with Return x | Remove x => r = x | Get sz dither => best_fit free sz dither r end.

Definition move (x : Z) (A B : blocks) : blocks * blocks :=
  match A !! x with Some s => (delete x A, <[x := s]> B) | None => (A, B) end.

(** The free blocks and those in use after an answer. *)
Definition next (free used : blocks) (q : request) (r : Z) : blocks * blocks :=
  match q with
  | Return x => let '(used, free) := move x used free in (free, used)
  | Get _ _ | Remove _ => move r free used
  end.

Section History.
Context (min_size : Z) (Hmin : 0 < min_size).

Definition serve (D : dictionary) (q : request) : option (dictionary * Z) :=
  match q with
  | Return x => D ← return_chunk min_size D x; Some (D, x)
  | Get sz dither => get_chunk min_size D sz dither
  | Remove x => D ← remove_chunk D x; Some (D, x)
  end.

(** A chunk is returned when it is in use, removed when it is free. *)
Definition legal (free used : blocks) (q : request) : Prop :=
  match q with
  | Return x => is_Some (used !! x)
  | Get sz _ => min_size <= sz
  | Remove x => is_Some (free !! x)
  end.

(** From an empty dictionary, with all chunks of the memory in use. *)
Inductive reachable : dictionary -> blocks -> blocks -> Prop :=
| at_start D :
    mem D !! 0 = None -> (forall x c, mem D !! x = Some c -> min_size <= _word_size c) ->
    total (map_to_list (_word_size <$> mem D)) < 2 ^ 64 ->
    reachable (reset D) ∅ (_word_size <$> mem D)
| after_request D free used q D' r :
    reachable D free used -> legal free used q -> serve D q = Some (D', r) ->
    reachable D' (next free used q r).1 (next free used q r).2.

(** ** The invariant *)

Definition sizes_of (L : list (Z * TreeChunk)) : list (Z * Z) := (fun e => (e.1, _word_size e.2)) <$> L.

Definition holds (D : dictionary) (free used : blocks) : Prop :=
  exists T L, owns (mem D) (cells 0 T ++ L) /\ _root D = root T /\ ordered (nodes T) /\
    entries (nodes T) ≡ₚ map_to_list free /\ sizes_of L ≡ₚ map_to_list used /\
    _total_size D = total (map_to_list free) /\ _total_free_blocks D = Z.of_nat (size free) /\
    total (map_to_list free) + total (map_to_list used) < 2 ^ 64 /\
    free ##ₘ used /\ map_Forall (fun _ s => min_size <= s) free /\ map_Forall (fun _ s => min_size <= s) used.

Lemma total_size_bound (m : blocks) : map_Forall (fun _ s => min_size <= s) m -> Z.of_nat (size m) <= total (map_to_list m).
Proof using Hmin.
  intros Hm. rewrite <- length_map_to_list.
  assert (Forall (fun e => min_size <= e.2) (map_to_list m)) as HF.
  { apply Forall_forall. intros [x s] Hx%elem_of_map_to_list. by apply (Hm x s). }
  induction HF as [|e l He HF IH]; simpl; lia.
Qed.

Lemma total_insert (m : blocks) x s : m !! x = None -> total (map_to_list (<[x := s]> m)) = s + total (map_to_list m).
Proof. intros H. by rewrite map_to_list_insert. Qed.

Lemma total_delete (m : blocks) x s : m !! x = Some s -> total (map_to_list m) = s + total (map_to_list (delete x m)).
Proof. intros H. by rewrite <- (map_to_list_delete m x s H). Qed.

Lemma size_delete (m : blocks) x s : m !! x = Some s -> size m = S (size (delete x m)).
Proof. intros H. rewrite <- !length_map_to_list, <- (map_to_list_delete m x s H). done. Qed.

Lemma start_holds D :
  mem D !! 0 = None -> (forall x c, mem D !! x = Some c -> min_size <= _word_size c) ->
  total (map_to_list (_word_size <$> mem D)) < 2 ^ 64 -> holds (reset D) ∅ (_word_size <$> mem D).
Proof.
  intros H0 Hs Ht. exists Leaf, (map_to_list (mem D)). simpl. split_and!; try done.
  - split_and!; [done | apply NoDup_fst_map_to_list |]. intros p c Hp. by apply elem_of_map_to_list in Hp.
  - constructor.
  - unfold sizes_of. rewrite map_to_list_fmap. done.
  - apply map_disjoint_empty_l.
  - intros x s Hx. rewrite lookup_fmap_Some in Hx. destruct Hx as (c & <- & Hx). by eapply Hs.
Qed.

(** ** Returning a chunk *)

Lemma used_cell L (used : blocks) x s : sizes_of L ≡ₚ map_to_list used -> used !! x = Some s ->
  exists c L', L ≡ₚ (x, c) :: L' /\ _word_size c = s /\ sizes_of L' ≡ₚ map_to_list (delete x used).
Proof.
  intros HP Hx. assert ((x, s) ∈ sizes_of L) as Hin by (rewrite HP; by apply elem_of_map_to_list).
  apply list_elem_of_fmap in Hin as ([x' c] & [= -> ->] & Hin). apply elem_of_Permutation in Hin as (L' & EL). exists c, L'.
  split_and!; [done | done |]. unfold sizes_of in HP. rewrite EL in HP. rewrite <- (map_to_list_delete used x' _ Hx) in HP. by apply Permutation_cons_inv in HP.
Qed.

Lemma return_holds D free used x s : holds D free used -> used !! x = Some s ->
  exists D', return_chunk min_size D x = Some D' /\ holds D' (<[x := s]> free) (delete x used).
Proof using Hmin.
  intros (T & L & HO & ER & HS & EF & EU & Ets & En & Hsum & Hd & HmF & HmU) Hx.
  destruct (used_cell _ _ _ _ EU Hx) as (c & L' & EL & Ec & EU'). rewrite EL in HO.
  assert (min_size <= s) as Hs by (by apply (HmU x s)).
  destruct D as [h ts n R]. simpl in *. subst R. destruct (insert_spec min_size h ts n T x c L' HO ltac:(lia)) as (h' & E & HO').
  unfold return_chunk. rewrite E, Ec. rewrite Ec in HO'.
  assert (free !! x = None) as Hfx by (by eapply map_disjoint_Some_r).
  pose proof (total_delete _ _ _ Hx) as Ht. pose proof (total_size_bound _ HmF) as Hb1.
  assert (map_Forall (fun _ s => min_size <= s) (delete x used)) as HmU' by (by apply map_Forall_delete).
  pose proof (total_size_bound _ HmU') as Hb2. destruct (insert_nodes s x T HS) as [HS' EN'].
  eexists. split; [reflexivity |]. exists (tree_insert s x T), L'. simpl. split_and!; try done.
  - by rewrite EN', EF, map_to_list_insert.
  - rewrite total_insert, size_t_id by (done || lia). lia.
  - rewrite map_size_insert_None, size_t_id by (done || lia). lia.
  - rewrite total_insert by done. lia.
  - apply map_disjoint_insert_l. split; [by rewrite lookup_delete_eq | by apply map_disjoint_delete_r].
  - by apply map_Forall_insert_2.
Qed.

(** ** Taking a chunk out *)

Lemma free_entry D (free : blocks) T L x s :
  owns (mem D) (cells 0 T ++ L) -> entries (nodes T) ≡ₚ map_to_list free -> free !! x = Some s ->
  exists C l a xs r, plug C (Node l s a xs r) = T /\ x ∈ a :: xs /\ NoDup (a :: xs) /\ x <> 0 /\
    owns (mem D) (ctx_cells C a ++ cells (ctx_addr C) (Node l s a xs r) ++ L).
Proof.
  intros HO EF Hx. destruct (find_entry T x s) as (C & l & a & xs & r & HP & Hin); [rewrite EF; by apply elem_of_map_to_list |].
  exists C, l, a, xs, r. rewrite <- HP, cells_plug, <- app_assoc in HO. simpl root in HO.
  set (nl := node_list (ctx_addr C) (root l) (root r) s a xs). pose proof HO as HO'. reorder_in HO' (ring nl a xs ++ cells a l ++ cells a r ++ ctx_cells C a ++ L).
  split_and!; [done | done | by eapply ring_nodup | | exact HO].
  destruct (ring_member nl a xs x Hin) as (c & L' & EP & _). rewrite EP in HO'. by apply owns_read in HO' as [_ ?].
Qed.

Lemma remove_holds D free used x s : holds D free used -> free !! x = Some s ->
  exists D', remove_chunk_from_tree D x = Some D' /\ holds D' (delete x free) (<[x := s]> used).
Proof using Hmin.
  intros (T & L & HO & ER & HS & EF & EU & Ets & En & Hsum & Hd & HmF & HmU) Hx.
  destruct (free_entry D free T L x s HO EF Hx) as (C & l & a & xs & r & HP & Hin & Hnd & _ & HOc).
  assert (min_size <= s) as Hs by (by apply (HmF x s)).
  assert (map_Forall (fun _ s => min_size <= s) (delete x free)) as HmF' by (by apply map_Forall_delete).
  pose proof (total_delete _ _ _ Hx) as Ht. pose proof (total_size_bound _ HmF') as Hb1. pose proof (total_size_bound _ HmU) as Hb2.
  pose proof (size_delete _ _ _ Hx) as Hn. pose proof (total_size_bound _ HmF) as Hb3.
  destruct D as [h ts n R]. simpl in *. subst R. rewrite <- HP in HS, EF |- *.
  destruct (remove_spec h ts n C l s a xs r x L HOc Hin) as (h' & c & E & Ec & HO'); [lia.. |]. rewrite E.
  destruct (shrink_nodes C l s a xs r x Hin Hnd HS) as [HS' EN'].
  assert (used !! x = None) as Hux by (by eapply map_disjoint_Some_l).
  eexists. split; [reflexivity |]. exists (plug C (shrink x (Node l s a xs r))), ((x, c) :: L). cbn [mem _root _total_size _total_free_blocks].
  split_and!; try done.
  - rewrite EN', <- (map_to_list_delete free x s Hx) in EF. by apply Permutation_cons_inv in EF.
  - unfold sizes_of in EU |- *. rewrite map_to_list_insert by done. simpl. rewrite Ec. by constructor.
  - lia.
  - lia.
  - rewrite total_insert by done. lia.
  - apply map_disjoint_insert_r. split; [by rewrite lookup_delete_eq | by apply map_disjoint_delete_l].
  - by apply map_Forall_insert_2.
Qed.

(** ** Getting a chunk *)

Lemma exact_fits dither sz s : fits dither sz s <-> if exact dither then s = sz else sz <= s.
Proof. by destruct dither. Qed.

Lemma node_free T (free : blocks) n x : entries (nodes T) ≡ₚ map_to_list free -> n ∈ nodes T -> x ∈ n.2 -> free !! x = Some n.1.
Proof.
  intros EF Hn Hx. apply elem_of_map_to_list. rewrite <- EF. apply entries_elem. by exists n.
Qed.

Lemma free_node T (free : blocks) x s : entries (nodes T) ≡ₚ map_to_list free -> free !! x = Some s -> exists n, n ∈ nodes T /\ n.1 = s.
Proof.
  intros EF Hx. apply elem_of_map_to_list in Hx. rewrite <- EF in Hx. apply entries_elem in Hx as (n & Hn & E & _). by exists n.
Qed.

Lemma get_holds D free used sz dither : holds D free used -> min_size <= sz ->
  exists D' r, get_chunk min_size D sz dither = Some (D', r) /\ best_fit free sz dither r /\
    (r = 0 /\ D' = D \/ exists s, free !! r = Some s /\ holds D' (delete r free) (<[r := s]> used)).
Proof using Hmin.
  intros HD Hsz. pose proof HD as (T & L & HO & ER & HS & EF & _). unfold get_chunk.
  destruct D as [h ts n R]. simpl in HO, ER. subst R. pose proof (get_spec min_size h ts n T sz dither L HO HS Hsz) as HG.
  destruct (choose sz (exact dither) T) as [[C t]|] eqn:Ec.
  - apply choose_some in Ec as (HP & l & s & a & xs & r & -> & Hs & Hex & Hleast); [| done]. rewrite HG.
    assert (free !! first xs a = Some s) as Hx.
    { apply (node_free T free (s, a :: xs)); [done | | simpl; destruct xs; [by left | right; by left]].
      rewrite <- HP, nodes_plug. simpl. rewrite !elem_of_app, elem_of_cons. auto. }
    destruct (remove_holds _ _ _ _ _ HD Hx) as (D' & -> & HD'). cbn [mbind option_bind]. exists D', (first xs a). split_and!.
    + destruct dither; [done | | done]. destruct (first xs a =? 0); [done |]. destruct HD' as (T' & L' & HO' & _ & _ & _ & EU' & _).
      destruct (used_cell L' _ (first xs a) s EU' ltac:(by rewrite lookup_insert_eq)) as (c & L'' & EL & Ew & _).
      rewrite EL in HO'. reorder ((first xs a, c) :: cells 0 T' ++ L''). apply owns_read in HO' as [-> _]. cbn [mbind option_bind].
      rewrite Ew, (Hex eq_refl), Z.eqb_refl. done.
    + right. exists s. split_and!; [done | apply exact_fits; destruct (exact dither); auto |]. intros y s' Hy Hf.
      destruct (free_node _ _ _ _ EF Hy) as (m & Hm & <-). apply Hleast; [done |]. apply exact_fits in Hf. destruct (exact dither); lia.
    + right. by exists s.
  - rewrite HG. cbn [mbind option_bind]. exists (mkDict h ts n (root T)), 0. split_and!; [by destruct dither | | by left].
    left. split; [done |]. intros x s Hx Hf. destruct (free_node _ _ _ _ EF Hx) as (m & Hm & <-).
    pose proof (choose_none _ _ _ HS Ec m Hm) as Hn. apply exact_fits in Hf. destruct (exact dither); lia.
Qed.

Lemma free_not_null D free used s : holds D free used -> free !! 0 = Some s -> False.
Proof.
  intros (T & L & HO & _ & _ & EF & _) Hx. by destruct (free_entry D free T L 0 s HO EF Hx) as (C & l & a & xs & r & _ & _ & _ & ? & _).
Qed.

Lemma serve_holds D free used q : holds D free used -> legal free used q ->
  exists D' r, serve D q = Some (D', r) /\ answers free q r /\ holds D' (next free used q r).1 (next free used q r).2.
Proof using Hmin.
  intros HD HL. destruct q as [x|sz dither|x]; simpl in HL |- *.
  - destruct HL as [s Hx]. destruct (return_holds _ _ _ _ _ HD Hx) as (D' & -> & HD'). exists D', x. split_and!; [done.. |].
    unfold move. by rewrite Hx.
  - destruct (get_holds _ _ _ _ dither HD HL) as (D' & r & -> & Hb & Hr). exists D', r. split_and!; [done.. |]. unfold move.
    destruct Hr as [[-> ->]|(s & Hx & HD')]; [| by rewrite Hx]. destruct (free !! 0) as [s|] eqn:E; [| done]. by destruct (free_not_null _ _ _ _ HD E).
  - destruct HL as [s Hx]. destruct (remove_holds _ _ _ _ _ HD Hx) as (D' & E & HD'). unfold remove_chunk. rewrite E. exists D', x. split_and!; [done.. |].
    unfold move. by rewrite Hx.
Qed.

Lemma reachable_holds D free used : reachable D free used -> holds D free used.
Proof using Hmin.
  induction 1 as [D H0 Hs Ht|D free used q D' r HR IH HL E]; [by apply start_holds |].
  destruct (serve_holds _ _ _ _ IH HL) as (D'' & r' & E' & _ & HD'). rewrite E in E'. by simplify_eq.
Qed.

End History.
End FreeDictHistory.
