(* ===== verification/FreeDictTheorems.v ===== *)
(** What the dictionary of free blocks promises its clients. *)
From S2P Require Import Prelude GlobalDefinitions FreeDictionary FreeDictCells FreeDictInsert FreeDictDelete FreeDictOrder FreeDictGet FreeDictQueries FreeDictVerify FreeDictHistory.
Import GlobalDefinitions FreeDictionary FreeDictCells FreeDictInsert FreeDictDelete FreeDictOrder FreeDictGet FreeDictQueries FreeDictVerify FreeDictHistory.

Module FreeDictTheorems.

(** ** Requests *)

(** C7.  In every state that requests lead to, the dictionary serves the next one: no assertion fails,
    a chunk is taken in or out, and a request for a size gets the smallest free chunk that fits,
    or [NULL] exactly where none fits; the chunk it gets is no longer free, and its header still
    has its size. *)
Theorem dictionary_serves min_size D free used q :
  0 < min_size -> reachable min_size D free used -> legal min_size free used q ->
  exists D' r, serve min_size D q = Some (D', r) /\ answers free q r /\
    reachable min_size D' (next free used q r).1 (next free used q r).2 /\
    forall x s, (next free used q r).2 !! x = Some s -> exists c, mem D' !! x = Some c /\ _word_size c = s.
Proof.
  intros Hmin HR HL. pose proof (reachable_holds _ Hmin _ _ _ HR) as HD. destruct (serve_holds _ Hmin _ _ _ _ HD HL) as (D' & r & E & HA & HD').
  exists D', r. split_and!; [done | done | by econstructor |]. intros x s Hx. destruct HD' as (T & L & HO & _ & _ & _ & EU & _).
  destruct (used_cell L _ x s EU Hx) as (c & L' & EL & Ew & _). rewrite EL in HO. reorder ((x, c) :: cells 0 T ++ L').
  apply owns_read in HO as [? _]. by exists c.
Qed.

(** Three chunks of a heap, two of them of one size, whose fields hold anything. *)
Definition anything (sz : Z) : TreeChunk := mkTC sz 7 7 7 (mkTL 7 7 7 7 7 7 7).
Definition three_chunks (a b c : Z) : dictionary :=
  mkDict {[ 800 := anything a; 1600 := anything b; 2400 := anything c ]} 0 0 0.
Definition next_dict (D : dictionary) (q : request) : dictionary := (default (D, 0) (serve 5 D q)).1.

Lemma three_start a b c : 5 <= a < 100 -> 5 <= b < 100 -> 5 <= c < 100 ->
  reachable 5 (reset (three_chunks a b c)) ∅ {[ 800 := a; 1600 := b; 2400 := c ]}.
Proof.
  intros Ha Hb Hc. assert (_word_size <$> mem (three_chunks a b c) = {[ 800 := a; 1600 := b; 2400 := c ]} :> blocks) as E.
  { simpl. by rewrite !fmap_insert, map_fmap_singleton. }
  rewrite <- E. apply at_start; [done | | rewrite E].
  - intros x ch Hx. simpl in Hx. apply lookup_insert_Some in Hx as [[_ <-]|[_ Hx]]; [simpl; lia |].
    apply lookup_insert_Some in Hx as [[_ <-]|[_ Hx]]; [simpl; lia |]. apply lookup_singleton_Some in Hx as [_ <-]. simpl. lia.
  - rewrite !total_insert by done. rewrite map_to_list_singleton. simpl. lia.
Qed.

Lemma dictionary_serves_witness :
  let D0 := reset (three_chunks 10 20 30) in
  let D1 := next_dict (next_dict D0 (Return 1600)) (Return 2400) in
  exists D' r, serve 5 D1 (Get 12 atLeast) = Some (D', r) /\ best_fit {[ 1600 := 20; 2400 := 30 ]} 12 atLeast r.
Proof.
  intros D0 D1. pose proof (three_start 10 20 30 ltac:(lia) ltac:(lia) ltac:(lia)) as HR.
  apply (after_request 5 _ _ _ (Return 1600) (next_dict D0 (Return 1600)) 1600) in HR; [| by eexists | by vm_compute].
  apply (after_request 5 _ _ _ (Return 2400) D1 2400) in HR; [| by eexists | by vm_compute].
  destruct (dictionary_serves 5 D1 _ _ (Get 12 atLeast) ltac:(lia) HR ltac:(simpl; lia)) as (D' & r & E & HA & _).
  exists D', r. split; [exact E |]. exact HA.
Defined.

(** ** Accounts *)

(** The totals the dictionary keeps, and the largest size it reports. *)
Lemma accounts_ok min_size D free used :
  0 < min_size -> reachable min_size D free used ->
  _total_size D = total (map_to_list free) /\ _total_free_blocks D = Z.of_nat (size free) /\
  total_size_in_tree (mem D) (_root D) (rounds (mem D)) = Some (_total_size D) /\
  exists m, max_chunk_size D = Some m /\ (free = ∅ -> m = 0) /\
    (free <> ∅ -> (exists x, free !! x = Some m) /\ forall y s, free !! y = Some s -> s <= m).
Proof.
  intros Hmin HR. destruct (reachable_holds _ Hmin _ _ _ HR) as (T & L & HO & ER & HS & EF & EU & Ets & En & Hsum & _ & HmF & HmU).
  pose proof (total_size_bound _ Hmin _ HmF). pose proof (total_size_bound _ Hmin _ HmU). split_and!; [done | done | |].
  - pose proof (cells_rounds _ _ _ _ HO). rewrite ER, (total_size_spec _ _ _ _ _ HO) by done. by rewrite EF, size_t_id, Ets by lia.
  - unfold max_chunk_size. rewrite ER. assert (T = Leaf \/ T <> Leaf) as [->|HT] by (destruct T; [by left | by right]).
    + exists 0. split_and!; [done | done |]. intros Hne. exfalso. apply Hne. symmetry in EF. by apply Permutation_nil_r, map_to_list_empty_iff in EF.
    + destruct (largest_spec _ _ _ HT HO HS) as (par & l & s & a & xs & r & L' & E & HO' & Hin & Hmax).
      destruct T as [|l0 s0 a0 xs0 r0]; [done |]. destruct (node_read _ _ _ _ _ _ _ _ HO) as [_ Ha0]. cbn [root] in E |- *.
      rewrite (proj2 (Z.eqb_neq a0 0)), E by done. destruct (node_read _ _ _ _ _ _ _ _ HO') as [El _]. cbn [mbind option_bind]. rewrite El.
      assert (free !! a = Some s) as Ha by (apply elem_of_map_to_list; rewrite <- EF; apply Hin; by left).
      exists s. split_and!; [done | intros ->; by rewrite lookup_empty in Ha |]. intros _. split; [by exists a |].
      intros y s' Hy. apply (Hmax y). rewrite EF. by apply elem_of_map_to_list.
Qed.

(** C19.  The dictionary verifies itself in every state: the tests of its tree and of its totals
    succeed, the free chunks it counts are those there are, and the test whether a chunk is in
    it tells the free chunks from the others. *)
Theorem dictionary_verifies min_size D free used :
  0 < min_size -> reachable min_size D free used ->
  verify_dictionary D = Some tt /\ num_free_blocks D = Some (Z.of_nat (size free)) /\
  forall x c, mem D !! x = Some c -> exists b, dict_verify_chunk D x = Some b /\ (b = true <-> is_Some (free !! x)).
Proof.
  intros Hmin HR. destruct (reachable_holds _ Hmin _ _ _ HR) as (T & L & HO & ER & HS & EF & EU & Ets & En & Hsum & _ & HmF & HmU).
  pose proof (total_size_bound _ Hmin _ HmF). pose proof (total_size_bound _ Hmin _ HmU). pose proof (cells_rounds _ _ _ _ HO) as Hf.
  assert (length (entries (nodes T)) = size free) as Elen by (by rewrite EF, length_map_to_list).
  assert (total (entries (nodes T)) = total (map_to_list free)) as Etot by (by rewrite EF).
  destruct D as [h ts n R]. cbn [mem _root _total_size _total_free_blocks] in *. subst R. split_and!.
  - unfold verify_dictionary, verify_tree. cbn [mem _root _total_size _total_free_blocks].
    rewrite (verify_helper_spec _ _ _ _ _ HO HS), (total_size_spec _ _ _ _ _ HO Hf), Etot, size_t_id, <- Ets; [| lia | | by rewrite cells_entries; lia | done].
    2: { intros m Hm. destruct (nodes_nonempty T m Hm) as (x & Hx). specialize (HmF x m.1 (node_free _ _ _ _ EF Hm Hx)). simpl in HmF. lia. }
    destruct T as [|l s a xs r]; [simpl; by rewrite Z.eqb_refl |]. destruct (node_read _ _ _ _ _ _ _ _ HO) as [El Ha].
    cbn [root]. rewrite (proj2 (Z.eqb_neq a 0)), El by done. rewrite Bool.orb_false_l. assert (ts <> 0) as Hts by (rewrite <- cells_entries with (par := 0), cells_length in Elen; lia).
    rewrite (proj2 (Z.eqb_neq ts 0)), Bool.orb_true_r by done. cbn [assert mbind option_bind node_list _parent Z.eqb]. by rewrite Z.eqb_refl.
  - unfold num_free_blocks. cbn [mem _root _total_free_blocks]. rewrite (total_blocks_spec _ _ _ _ _ HO Hf), Elen, size_t_id by lia.
    cbn [mbind option_bind]. by rewrite En, Z.eqb_refl.
  - intros x c Hx. destruct (verify_chunk_spec h ts n T x c L HO HS Hx) as (b & E & Hb).
    { intros s Hin. destruct (entry_cell _ _ _ _ _ HO Hin) as (c' & Ex & <-). rewrite Hx in Ex. by simplify_eq. }
    exists b. split; [done |]. rewrite Hb, EF, elem_of_map_to_list. split; [by intros ->; eexists |]. intros [s Hs].
    destruct (entry_cell _ T x s _ HO) as (c' & Ex & Es); [rewrite EF; by apply elem_of_map_to_list |]. rewrite Hx in Ex. by simplify_eq.
Qed.

Lemma dictionary_verifies_witness :
  let D1 := next_dict (reset (three_chunks 10 20 30)) (Return 1600) in
  verify_dictionary D1 = Some tt /\ num_free_blocks D1 = Some 1.
Proof.
  intros D1. pose proof (three_start 10 20 30 ltac:(lia) ltac:(lia) ltac:(lia)) as HR.
  apply (after_request 5 _ _ _ (Return 1600) D1 1600) in HR; [| by eexists | by vm_compute].
  destruct (dictionary_verifies 5 D1 _ _ ltac:(lia) HR) as (E & En & _). split; [exact E | exact En].
Defined.

(** ** Searches *)

(** The search for a chunk that ends at an address, and for a largest chunk. *)
Lemma finds_ok min_size D free used target :
  0 < min_size -> reachable min_size D free used ->
  (exists r, find_chunk_ends_at D target = Some r /\ ends_at target (map_to_list free) r) /\
  exists x, find_largest_dict D = Some x /\ (free = ∅ -> x = 0) /\
    (free <> ∅ -> exists s, free !! x = Some s /\ forall y s', free !! y = Some s' -> s' <= s).
Proof.
  intros Hmin HR. destruct (reachable_holds _ Hmin _ _ _ HR) as (T & L & HO & ER & HS & EF & _). split.
  - pose proof (cells_rounds _ _ _ _ HO) as Hf. unfold find_chunk_ends_at. rewrite ER.
    destruct (ends_tree_spec _ target _ _ _ _ HO Hf) as (r & -> & [[-> H]|(Hr & s & Hin & E)]).
    + exists 0. split; [done |]. left. split; [done |]. intros x s Hx. apply H. by rewrite EF.
    + exists r. split; [done |]. right. split; [done |]. exists s. by rewrite <- EF.
  - unfold find_largest_dict. rewrite ER. assert (T = Leaf \/ T <> Leaf) as [->|HT] by (destruct T; [by left | by right]).
    + exists 0. split_and!; [done | done |]. intros Hne. exfalso. apply Hne. symmetry in EF. by apply Permutation_nil_r, map_to_list_empty_iff in EF.
    + destruct (largest_spec _ _ _ HT HO HS) as (par & l & s & a & xs & r & L' & E & HO' & Hin & Hmax).
      destruct T as [|l0 s0 a0 xs0 r0]; [done |]. destruct (node_read _ _ _ _ _ _ _ _ HO) as [_ Ha0]. cbn [root] in E |- *.
      rewrite (proj2 (Z.eqb_neq a0 0)), E by done. cbn [mbind option_bind]. destruct (largest_address_spec _ _ _ _ _ _ _ _ HO') as (x & -> & Hx).
      assert (free !! x = Some s) as Hfx by (apply elem_of_map_to_list; rewrite <- EF; by apply Hin).
      exists x. split_and!; [done | intros ->; by rewrite lookup_empty in Hfx |]. intros _. exists s. split; [done |].
      intros y s' Hy. apply (Hmax y). rewrite EF. by apply elem_of_map_to_list.
Qed.

(** C21.  What the dictionary reports is true of its free chunks: the totals it keeps, also where it
    adds them up again; the largest size, 0 where it is empty; a free chunk of the largest size;
    and a chunk that ends at an address, where there is one. *)
Theorem dictionary_reports min_size D free used target :
  0 < min_size -> reachable min_size D free used ->
  _total_size D = total (map_to_list free) /\ _total_free_blocks D = Z.of_nat (size free) /\
  total_size_in_tree (mem D) (_root D) (rounds (mem D)) = Some (_total_size D) /\
  (exists m, max_chunk_size D = Some m /\ (free = ∅ -> m = 0) /\
     (free <> ∅ -> (exists x, free !! x = Some m) /\ forall y s, free !! y = Some s -> s <= m)) /\
  (exists x, find_largest_dict D = Some x /\ (free = ∅ -> x = 0) /\
     (free <> ∅ -> exists s, free !! x = Some s /\ forall y s', free !! y = Some s' -> s' <= s)) /\
  exists r, find_chunk_ends_at D target = Some r /\ ends_at target (map_to_list free) r.
Proof.
  intros Hmin HR. destruct (accounts_ok _ _ _ _ Hmin HR) as (E1 & E2 & E3 & E4). destruct (finds_ok _ _ _ _ target Hmin HR) as [E5 E6].
  split_and!; done.
Qed.

Lemma dictionary_reports_witness :
  let D1 := next_dict (reset (three_chunks 10 20 30)) (Return 1600) in
  _total_size D1 = 20 /\ exists r, find_chunk_ends_at D1 1760 = Some r /\ ends_at 1760 [(1600, 20)] r.
Proof.
  intros D1. pose proof (three_start 10 20 30 ltac:(lia) ltac:(lia) ltac:(lia)) as HR.
  apply (after_request 5 _ _ _ (Return 1600) D1 1600) in HR; [| by eexists | by vm_compute].
  destruct (dictionary_reports 5 D1 _ _ 1760 ltac:(lia) HR) as (E & _ & _ & _ & _ & r & Er & H).
  split; [rewrite E; by vm_compute |]. exists r. split; [exact Er | exact H].
Defined.

(** C34.  [largest_address] need not return the block with the largest address among those of its
    size, as its comment says it does: its loop stops before it compares the last one. *)
Theorem largest_address_misses :
  exists D free used x y s, reachable 5 D free used /\ find_largest_dict D = Some x /\
    free !! x = Some s /\ free !! y = Some s /\ x < y.
Proof.
  pose proof (three_start 10 10 10 ltac:(lia) ltac:(lia) ltac:(lia)) as HR. set (D0 := reset (three_chunks 10 10 10)) in HR.
  set (D1 := next_dict D0 (Return 800)). set (D2 := next_dict D1 (Return 1600)). set (D3 := next_dict D2 (Return 2400)).
  apply (after_request 5 _ _ _ (Return 800) D1 800) in HR; [| by eexists | by vm_compute].
  apply (after_request 5 _ _ _ (Return 1600) D2 1600) in HR; [| by eexists | by vm_compute].
  apply (after_request 5 _ _ _ (Return 2400) D3 2400) in HR; [| by eexists | by vm_compute].
  do 2 eexists. exists ∅, 1600, 2400, 10. split_and!; [exact HR | by vm_compute.. | lia].
Qed.

End FreeDictTheorems.
