(* ===== verification/FreeList.v ===== *)
(** Free lists (memory/freeList.hpp and .cpp) over chunks with the links of
    memory/metachunk.hpp: doubly linked lists of chunks of one size, with their ends and
    their length.

    The memory is that of the dictionary of free blocks, whose nodes are free lists too; here
    the lists are objects of their own, outside the memory.  [None] is a failed assertion or
    the use of an address that is no chunk; the assertions on locks are left out. *)
From S2P Require Import Prelude GlobalDefinitions FreeDictionary.
Import GlobalDefinitions FreeDictionary.

Module FreeList.

Record FreeList : Set := mkFL { head : Z; tail : Z; list_size : Z; count : Z }.

Definition FreeList_initialize : FreeList := mkFL 0 0 0 0.

(** The assertion of [set_head] and [set_tail]. *)
Definition chunk_size_ok (h : memory) (l : FreeList) (v : Z) : option unit :=
  if v =? 0 then Some tt else c ← h !! v; assert (_word_size c =? list_size l).
Definition list_set_head (h : memory) (l : FreeList) (v : Z) : option FreeList :=
  _ ← chunk_size_ok h l v;
  Some (mkFL v (tail l) (list_size l) (count l)).
Definition list_set_tail (h : memory) (l : FreeList) (v : Z) : option FreeList :=
  _ ← chunk_size_ok h l v;
  Some (mkFL (head l) v (list_size l) (count l)).
Definition list_set_count (l : FreeList) (n : Z) : FreeList := mkFL (head l) (tail l) (list_size l) n.
Definition decrement_count (l : FreeList) : option FreeList :=
  _ ← assert (0 <=? count l - 1);
  Some (list_set_count l (count l - 1)).

Definition list_link_head (h : memory) (l : FreeList) (v : Z) : option (memory * FreeList) :=
  l ← list_set_head h l v;
  h ← (if v =? 0 then Some h else set_prev h v 0);
  Some (h, l).
Definition list_link_tail (h : memory) (l : FreeList) (v : Z) : option (memory * FreeList) :=
  l ← list_set_tail h l v;
  h ← (if v =? 0 then Some h else set_next h v 0);
  Some (h, l).

Definition FreeList_reset (h : memory) (l : FreeList) : option FreeList :=
  l ← list_set_head h (list_set_count l 0) 0;
  list_set_tail h l 0.

(** The assertions on the ends of a list, and on the sizes of the chunks there. *)
Definition ends_ok (h : memory) (l : FreeList) : option unit :=
  _ ← (if head l =? 0 then Some tt else c ← h !! head l; assert (_prev c =? 0));
  if tail l =? 0 then Some tt else c ← h !! tail l; assert (_next c =? 0).
Definition sizes_ok (h : memory) (l : FreeList) : option unit :=
  _ ← chunk_size_ok h l (head l);
  chunk_size_ok h l (tail l).

Definition get_chunk_at_head (h : memory) (l : FreeList) : option (memory * FreeList * Z) :=
  _ ← ends_ok h l;
  let fc := head l in
  '(h, l) ←
    (if fc =? 0 then Some (h, l) else
     c ← h !! fc;
     let nextFC := _next c in
     '(h, l) ← (if nextFC =? 0 then list_link_tail h l 0 else h ← set_prev h nextFC 0; Some (h, l));
     '(h, l) ← list_link_head h l nextFC;
     l ← decrement_count l;
     Some (h, l));
  _ ← ends_ok h l;
  Some (h, l, fc).

(** The loop of [getFirstNChunksFromList]: the last chunk taken, and how many are. *)
Fixpoint take_loop (h : memory) (tl n k : Z) (fuel : nat) : option (Z * Z) :=
  match fuel with
  | O => None
  | S fuel =>
      c ← h !! tl;
      if negb (_next c =? 0) && (0 <? n) then take_loop h (_next c) (size_t (n - 1)) (k + 1) fuel else Some (tl, k)
  end.
Definition getFirstNChunksFromList (h : memory) (l fl : FreeList) (n : Z) : option (memory * FreeList * FreeList) :=
  _ ← assert (count fl =? 0);
  if count l <=? 0 then Some (h, l, fl) else
  fl ← list_set_head h fl (head l);
  '(tl, k) ← take_loop h (head l) (size_t (n - 1)) 1 (rounds h);
  _ ← assert (negb (tl =? 0));
  c ← h !! tl;
  let new_head := _next c in
  l ← list_set_head h l new_head;
  let l := list_set_count l (count l - k) in
  '(h, l) ← (if new_head =? 0 then l ← list_set_tail h l 0; Some (h, l) else h ← set_prev h new_head 0; Some (h, l));
  h ← set_next h tl 0;
  fl ← list_set_tail h fl tl;
  Some (h, l, list_set_count fl k).

Definition list_remove_chunk (h : memory) (l : FreeList) (fc : Z) : option (memory * FreeList) :=
  _ ← assert (negb (head l =? 0) && negb (fc =? 0));
  c ← h !! fc;
  _ ← assert (list_size l =? _word_size c);
  _ ← ends_ok h l;
  let prevFC := _prev c in
  let nextFC := _next c in
  '(h, l) ← (if nextFC =? 0 then list_link_tail h l prevFC else h ← set_prev h nextFC prevFC; Some (h, l));
  '(h, l) ←
    (if prevFC =? 0 then
       '(h, l) ← list_link_head h l nextFC;
       _ ← (if nextFC =? 0 then Some tt else d ← h !! nextFC; assert (_prev d =? 0));
       Some (h, l)
     else
       h ← set_next h prevFC nextFC;
       _ ← (if tail l =? prevFC then d ← h !! prevFC; assert (_next d =? 0) else Some tt);
       Some (h, l));
  l ← decrement_count l;
  _ ← assert ((Z.b2z (head l =? 0) + Z.b2z (tail l =? 0) + Z.b2z (count l =? 0)) mod 3 =? 0);
  h ← set_prev h fc 0;
  h ← set_next h fc 0;
  _ ← ends_ok h l;
  _ ← sizes_ok h l;
  Some (h, l).

Definition list_return_chunk_at_head (h : memory) (l : FreeList) (chunk : Z) : option (memory * FreeList) :=
  c ← h !! chunk;
  _ ← assert (negb (chunk =? 0) && (list_size l =? _word_size c));
  _ ← ends_ok h l;
  let oldHead := head l in
  _ ← assert (negb (chunk =? oldHead));
  h ← link_after h chunk oldHead;
  '(h, l) ← list_link_head h l chunk;
  '(h, l) ← (if oldHead =? 0 then _ ← assert (tail l =? 0); list_link_tail h l chunk else Some (h, l));
  let l := list_set_count l (count l + 1) in
  _ ← ends_ok h l;
  _ ← sizes_ok h l;
  Some (h, l).

Definition list_return_chunk_at_tail (h : memory) (l : FreeList) (chunk : Z) : option (memory * FreeList) :=
  _ ← ends_ok h l;
  c ← h !! chunk;
  _ ← assert (negb (chunk =? 0) && (list_size l =? _word_size c));
  let oldTail := tail l in
  _ ← assert (negb (chunk =? oldTail));
  '(h, l) ←
    (if negb (oldTail =? 0) then h ← link_after h oldTail chunk; Some (h, l)
     else _ ← assert (head l =? 0); list_link_head h l chunk);
  '(h, l) ← list_link_tail h l chunk;
  let l := list_set_count l (count l + 1) in
  _ ← ends_ok h l;
  _ ← sizes_ok h l;
  Some (h, l).

Definition prepend (h : memory) (l fl : FreeList) : option (memory * FreeList * FreeList) :=
  if count fl <=? 0 then Some (h, l, fl) else
  '(h, l) ←
    (if count l =? 0 then
       l ← list_set_head h l (head fl);
       l ← list_set_tail h l (tail fl);
       Some (h, list_set_count l (count fl))
     else
       let fl_tail := tail fl in
       let this_head := head l in
       c ← h !! fl_tail;
       _ ← assert (_next c =? 0);
       h ← set_next h fl_tail this_head;
       h ← set_prev h this_head fl_tail;
       l ← list_set_head h l (head fl);
       Some (h, list_set_count l (count l + count fl)));
  fl ← list_set_head h fl 0;
  fl ← list_set_tail h fl 0;
  Some (h, l, list_set_count fl 0).

End FreeList.
