(* ===== verification/FreeListTheorems.v ===== *)
(** Free lists against sequences of chunks. *)
From S2P Require Import Prelude GlobalDefinitions FreeDictionary FreeDictCells FreeDictDelete FreeList.
Import GlobalDefinitions FreeDictionary FreeDictCells FreeDictDelete FreeList.

Module FreeListTheorems.

(** ** Chains of chunks *)

Notation chunk := (Z * TreeChunk)%type.

Definition cell (prev next : Z) (c : TreeChunk) : TreeChunk := mkTC (_word_size c) prev next (_list c) (_embedded_list c).

Fixpoint chain (prev : Z) (bs : list chunk) (next : Z) : list chunk :=
  match bs with
  | [] => []
  | b :: bs => (b.1, cell prev (first bs.*1 next) b.2) :: chain b.1 bs next
  end.

(** The list object of a sequence of chunks. *)
Definition list_of (sz : Z) (bs : list chunk) : FreeList := mkFL (first bs.*1 0) (List.last bs.*1 0) sz (Z.of_nat (length bs)).

Definition sized (sz : Z) (bs : list chunk) : Prop := Forall (fun b => _word_size b.2 = sz) bs.

Lemma chain_app bs cs next : forall prev, chain prev (bs ++ cs) next = chain prev bs (first cs.*1 next) ++ chain (List.last bs.*1 prev) cs next.
Proof.
  induction bs as [|b bs IH]; intros prev; [done |]. cbn [app chain]. rewrite IH. cbn [app].
  change ((b :: bs).*1) with (b.1 :: bs.*1). rewrite last_default. do 3 f_equal. destruct bs; simpl; [by destruct cs |]. done.
Qed.

Lemma chain_addrs bs next : forall prev, (chain prev bs next).*1 = bs.*1.
Proof. induction bs as [|b bs IH]; intros prev; simpl; [done |]. by rewrite IH. Qed.

Lemma chain_member sz bs next v : forall prev, sized sz bs -> v ∈ bs.*1 -> exists c, (v, c) ∈ chain prev bs next /\ _word_size c = sz.
Proof.
  induction bs as [|b bs IH]; intros prev Hs Hv; [by apply elem_of_nil in Hv |]. apply Forall_cons in Hs as [Hb Hs]. simpl in Hv |- *.
  apply elem_of_cons in Hv as [->|Hv]; [eexists; split; [by left | done] |]. destruct (IH b.1 Hs Hv) as (c & Hin & Ec). exists c. split; [by right | done].
Qed.

Lemma owns_in h L p c : owns h L -> (p, c) ∈ L -> h !! p = Some c /\ p <> 0.
Proof. intros (H0 & _ & Hin) Hp. split; [by apply Hin |]. intros ->. apply Hin in Hp. congruence. Qed.

Lemma owns_apart h L M p q : owns h (L ++ M) -> p ∈ L.*1 -> q ∈ M.*1 -> p <> q.
Proof.
  intros (_ & Hnd & _) Hp Hq ->. rewrite fmap_app in Hnd. apply NoDup_app in Hnd as (_ & Hd & _). by apply (Hd q).
Qed.

(** The first chunk gets another predecessor, the last one another successor. *)
Lemma relink_front h prev v bs next L :
  owns h (chain prev bs next ++ L) -> bs <> [] -> v <> first bs.*1 0 ->
  exists h', set_prev h (first bs.*1 0) v = Some h' /\ owns h' (chain v bs next ++ L).
Proof.
  destruct bs as [|b bs]; [done |]. intros HO _ Hv. simpl in HO, Hv |- *. destruct (set_prev_spec _ _ _ v _ HO Hv) as (h' & -> & HO').
  exists h'. split; [done |]. exact HO'.
Qed.

Lemma relink_back h prev v bs next L :
  owns h (chain prev bs next ++ L) -> bs <> [] -> v <> List.last bs.*1 0 ->
  exists h', set_next h (List.last bs.*1 0) v = Some h' /\ owns h' (chain prev bs v ++ L).
Proof.
  destruct bs as [|b bs _] using rev_ind; [done |]. intros HO _. rewrite fmap_app. simpl. rewrite List.last_last. intros Hv.
  rewrite chain_app in HO |- *. simpl in HO |- *.
  reorder ((b.1, cell (List.last bs.*1 prev) next b.2) :: chain prev bs b.1 ++ L).
  destruct (set_next_spec _ _ _ v _ HO Hv) as (h' & -> & HO'). exists h'. split; [done |]. eapply owns_proper; [| exact HO']. solve_Permutation.
Qed.

Lemma List_last_app (xs ys : list Z) d : ys <> [] -> List.last (xs ++ ys) d = List.last ys d.
Proof. intros Hy. induction xs as [|x [|y xs] IH]; [done | |]; [| exact IH]. simpl. by destruct ys. Qed.

Section Lists.
Context (sz : Z).

Lemma size_member h prev bs next L l v :
  owns h (chain prev bs next ++ L) -> sized sz bs -> list_size l = sz -> v = 0 \/ v ∈ bs.*1 -> chunk_size_ok h l v = Some tt.
Proof.
  intros HO Hs El [->|Hv]; [done |]. destruct (chain_member sz bs next v prev Hs Hv) as (c & Hin & Ec).
  unfold chunk_size_ok. destruct (owns_in _ _ v c HO) as [-> Hv0]; [apply elem_of_app; by left |]. rewrite (proj2 (Z.eqb_neq v 0)) by done.
  cbn [mbind option_bind]. by rewrite Ec, El, Z.eqb_refl.
Qed.

Lemma first_in (bs : list chunk) : first bs.*1 0 = 0 \/ first bs.*1 0 ∈ bs.*1.
Proof. destruct bs; [by left | right; by left]. Qed.

Lemma last_in (bs : list chunk) : List.last bs.*1 0 = 0 \/ List.last bs.*1 0 ∈ bs.*1.
Proof. destruct bs as [|b bs]; [by left |]. right. change ((b :: bs).*1) with (b.1 :: bs.*1). rewrite last_default. apply last_member. Qed.

Lemma first_not_null h prev bs next L : owns h (chain prev bs next ++ L) -> bs <> [] -> first bs.*1 0 <> 0.
Proof. destruct bs as [|b bs]; [done |]. intros HO _. simpl in HO |- *. by apply owns_read in HO as [_ ?]. Qed.

Lemma last_not_null h prev bs next L : owns h (chain prev bs next ++ L) -> bs <> [] -> List.last bs.*1 0 <> 0.
Proof.
  destruct bs as [|b bs _] using rev_ind; [done |]. intros HO _. rewrite fmap_app. simpl. rewrite List.last_last.
  rewrite chain_app in HO. simpl in HO. reorder ((b.1, cell (List.last bs.*1 prev) next b.2) :: chain prev bs b.1 ++ L). by apply owns_read in HO as [_ ?].
Qed.

Lemma last_cell h prev bs next L : owns h (chain prev bs next ++ L) -> bs <> [] -> exists c, h !! List.last bs.*1 0 = Some c /\ _next c = next.
Proof.
  destruct bs as [|b bs _] using rev_ind; [done |]. intros HO _. rewrite fmap_app. simpl. rewrite List.last_last.
  rewrite chain_app in HO. simpl in HO. reorder ((b.1, cell (List.last bs.*1 prev) next b.2) :: chain prev bs b.1 ++ L). apply owns_read in HO as [? _]. by eexists.
Qed.

Lemma ends_spec h bs n L : owns h (chain 0 bs 0 ++ L) -> ends_ok h (mkFL (first bs.*1 0) (List.last bs.*1 0) sz n) = Some tt.
Proof.
  intros HO. unfold ends_ok. cbn [head tail]. destruct bs as [|b0 bs0]; [done |]. set (bs := b0 :: bs0) in *.
  pose proof (first_not_null _ _ _ _ _ HO ltac:(done)) as Hf. pose proof (last_not_null _ _ _ _ _ HO ltac:(done)) as Hl.
  rewrite (proj2 (Z.eqb_neq _ 0) Hf), (proj2 (Z.eqb_neq _ 0) Hl).
  assert (h !! first bs.*1 0 = Some (cell 0 (first bs0.*1 0) b0.2)) as -> by (by apply owns_read in HO as [? _]).
  cbn [mbind option_bind cell _prev]. change (assert (0 =? 0)) with (Some tt). cbn [mbind option_bind].
  destruct (last_cell _ _ _ _ _ HO ltac:(done)) as (c & -> & Ec). cbn [mbind option_bind]. by rewrite Ec.
Qed.

Lemma sizes_spec h bs n L : owns h (chain 0 bs 0 ++ L) -> sized sz bs -> sizes_ok h (mkFL (first bs.*1 0) (List.last bs.*1 0) sz n) = Some tt.
Proof.
  intros HO Hs. unfold sizes_ok. cbn [head tail]. set (l := mkFL _ _ _ _).
  rewrite (size_member _ _ _ _ _ l _ HO Hs eq_refl (first_in bs)). cbn [mbind option_bind]. by rewrite (size_member _ _ _ _ _ l _ HO Hs eq_refl (last_in bs)).
Qed.

Lemma ends_list h bs L : owns h (chain 0 bs 0 ++ L) -> ends_ok h (list_of sz bs) = Some tt.
Proof. apply ends_spec. Qed.

Lemma sizes_list h bs L : owns h (chain 0 bs 0 ++ L) -> sized sz bs -> sizes_ok h (list_of sz bs) = Some tt.
Proof. apply sizes_spec. Qed.

(** ** The operations *)

Lemma pop_spec h x c bs L : owns h (chain 0 ((x, c) :: bs) 0 ++ L) -> sized sz ((x, c) :: bs) ->
  exists h' c', get_chunk_at_head h (list_of sz ((x, c) :: bs)) = Some (h', list_of sz bs, x) /\ _word_size c' = sz /\
    owns h' (chain 0 bs 0 ++ (x, c') :: L).
Proof.
  intros HO Hs. unfold get_chunk_at_head, list_of. rewrite (ends_spec _ _ _ _ HO). cbn [mbind option_bind head]. apply Forall_cons in Hs as [Hc Hs].
  change (first ((x, c) :: bs).*1 0) with x. pose proof (owns_read _ _ _ _ HO) as [Ex Hx]. simpl in Hx. rewrite (proj2 (Z.eqb_neq x 0)) by done.
  simpl in Ex. rewrite Ex. cbn [mbind option_bind cell _next]. cbv zeta. simpl in Hc.
  destruct bs as [|[y d] bs].
  - exists h, (cell 0 0 c). split; [| split; [done | by eapply owns_proper; [| exact HO]]]. simpl. done.
  - change (first ((y, d) :: bs).*1 0) with y.
    set (cx := cell 0 y c). reorder (chain x ((y, d) :: bs) 0 ++ (x, cx) :: L).
    pose proof (first_not_null _ _ _ _ _ HO ltac:(done)) as Hy. simpl in Hy. rewrite (proj2 (Z.eqb_neq y 0)) by done.
    destruct (relink_front _ _ 0 _ _ _ HO ltac:(done) ltac:(simpl; done)) as (h1 & E1 & HO1). simpl in E1. rewrite E1. cbn [mbind option_bind].
    unfold list_link_head, list_set_head. rewrite (size_member _ _ _ _ _ _ y HO1 Hs) by (done || right; by left). cbn [mbind option_bind].
    rewrite (proj2 (Z.eqb_neq y 0)) by done.
    destruct (relink_front _ _ 0 _ _ _ HO1 ltac:(done) ltac:(simpl; done)) as (h2 & E2 & HO2). simpl in E2. rewrite E2. cbn [mbind option_bind].
    unfold decrement_count, list_set_count. cbn [count tail head list_size].
    replace (0 <=? _) with true by (symmetry; apply Z.leb_le; simpl; lia). cbn [assert mbind option_bind].
    change (List.last ((x, c) :: (y, d) :: bs).*1 0) with (List.last ((y, d) :: bs).*1 0).
    change y with (first ((y, d) :: bs).*1 0) at 1. rewrite (ends_spec _ _ _ _ HO2). cbn [mbind option_bind].
    exists h2, cx. split_and!; [| done | done]. do 3 f_equal. unfold list_of. simpl. f_equal. lia.
Qed.

Lemma pop_empty h L : owns h L -> get_chunk_at_head h (list_of sz []) = Some (h, list_of sz [], 0).
Proof. done. Qed.

Lemma push_head_spec h x c bs L : owns h (chain 0 bs 0 ++ (x, c) :: L) -> sized sz bs -> _word_size c = sz ->
  exists h', list_return_chunk_at_head h (list_of sz bs) x = Some (h', list_of sz ((x, c) :: bs)) /\ owns h' (chain 0 ((x, c) :: bs) 0 ++ L).
Proof.
  intros HO Hs Hc. assert (sized sz ((x, c) :: bs)) as Hs' by (by constructor).
  unfold list_return_chunk_at_head, list_of. rewrite (ends_spec _ _ _ _ HO). cbn [head tail list_size count].
  pose proof (owns_apart h (chain 0 bs 0) ((x, c) :: L) (first bs.*1 0) x HO) as Hap. rewrite chain_addrs in Hap.
  reorder ((x, c) :: chain 0 bs 0 ++ L). pose proof (owns_read _ _ _ _ HO) as [-> Hx]. cbn [mbind option_bind].
  rewrite (proj2 (Z.eqb_neq x 0)), Hc, Z.eqb_refl by done. cbn [negb andb assert mbind option_bind].
  assert (x <> first bs.*1 0) as Hxf. { destruct (first_in bs) as [->|Hin]; [done |]. apply not_eq_sym, Hap; [done | by left]. }
  rewrite (proj2 (Z.eqb_neq x _)) by done. cbn [negb assert mbind option_bind]. unfold link_after.
  destruct (set_next_spec _ _ _ (first bs.*1 0) _ HO ltac:(done)) as (h1 & -> & HO1). cbn [mbind option_bind].
  assert (exists h2, (if first bs.*1 0 =? 0 then Some h1 else set_prev h1 (first bs.*1 0) x) = Some h2 /\
            owns h2 ((x, with_next (first bs.*1 0) c) :: chain x bs 0 ++ L)) as (h2 & -> & HO2).
  { destruct bs as [|b bs]; [by exists h1 |]. reorder_in HO1 (chain 0 (b :: bs) 0 ++ (x, with_next (first (b :: bs).*1 0) c) :: L).
    rewrite (proj2 (Z.eqb_neq _ 0)) by (by eapply first_not_null).
    destruct (relink_front _ _ x _ _ _ HO1 ltac:(done) Hxf) as (h2 & E2 & HO2). exists h2. split; [done |]. eapply owns_proper; [| exact HO2]. solve_Permutation. }
  cbn [mbind option_bind]. unfold list_link_head, list_set_head. unfold chunk_size_ok at 1. rewrite (proj2 (Z.eqb_neq x 0)) by done.
  pose proof (owns_read _ _ _ _ HO2) as [-> _]. cbn [mbind option_bind with_next _word_size list_size]. rewrite Hc, Z.eqb_refl. cbn [assert mbind option_bind].
  destruct (set_prev_spec _ _ _ 0 _ HO2 ltac:(done)) as (h3 & -> & HO3). cbn [mbind option_bind head tail list_size count].
  change (with_prev 0 (with_next (first bs.*1 0) c)) with (cell 0 (first bs.*1 0) c) in HO3.
  change ((x, cell 0 (first bs.*1 0) c) :: chain x bs 0 ++ L) with (chain 0 ((x, c) :: bs) 0 ++ L) in HO3.
  assert (exists h4, (if first bs.*1 0 =? 0 then _ ← assert (List.last bs.*1 0 =? 0); list_link_tail h3 (mkFL x (List.last bs.*1 0) sz (Z.of_nat (length bs))) x
             else Some (h3, mkFL x (List.last bs.*1 0) sz (Z.of_nat (length bs)))) = Some (h4, mkFL x (List.last ((x, c) :: bs).*1 0) sz (Z.of_nat (length bs))) /\
            owns h4 (chain 0 ((x, c) :: bs) 0 ++ L)) as (h4 & -> & HO4).
  { destruct bs as [|b bs].
    - simpl first. cbn [Z.eqb fmap list_fmap List.last assert mbind option_bind]. unfold list_link_tail, list_set_tail.
      rewrite (size_member _ _ _ _ _ _ x HO3 Hs') by (done || right; by left). cbn [mbind option_bind]. rewrite (proj2 (Z.eqb_neq x 0)) by done.
      destruct (relink_back _ _ 0 _ _ _ HO3 ltac:(done) ltac:(simpl; done)) as (h4 & E4 & HO4). simpl in E4. rewrite E4. by exists h4.
    - exists h3. rewrite (proj2 (Z.eqb_neq _ 0)); [done |]. simpl in HO3. apply owns_cons_r in HO3. by apply owns_read in HO3 as [_ ?]. }
  cbn [mbind option_bind]. cbv zeta. unfold list_set_count. cbn [head tail list_size count].
  assert (mkFL x (List.last ((x, c) :: bs).*1 0) sz (Z.of_nat (length bs) + 1) = list_of sz ((x, c) :: bs)) as ->.
  { unfold list_of. f_equal. simpl. lia. }
  rewrite (ends_list _ _ _ HO4), (sizes_list _ _ _ HO4 Hs'). by exists h4.
Qed.

Lemma last_snoc (bs : list chunk) b d : List.last (bs ++ [b]).*1 d = b.1.
Proof. rewrite fmap_app. simpl. apply List.last_last. Qed.

Lemma first_snoc (bs : list chunk) b : bs <> [] -> first (bs ++ [b]).*1 0 = first bs.*1 0.
Proof. by destruct bs. Qed.

Lemma push_tail_spec h x c bs L : owns h (chain 0 bs 0 ++ (x, c) :: L) -> sized sz bs -> _word_size c = sz ->
  exists h', list_return_chunk_at_tail h (list_of sz bs) x = Some (h', list_of sz (bs ++ [(x, c)])) /\ owns h' (chain 0 (bs ++ [(x, c)]) 0 ++ L).
Proof.
  intros HO Hs Hc. assert (sized sz (bs ++ [(x, c)])) as Hs' by (apply Forall_app; split; [done | by constructor]).
  unfold list_return_chunk_at_tail, list_of. rewrite (ends_spec _ _ _ _ HO). cbn [head tail list_size count mbind option_bind].
  pose proof (owns_apart h (chain 0 bs 0) ((x, c) :: L) (List.last bs.*1 0) x HO) as Hap. rewrite chain_addrs in Hap.
  pose proof HO as HOx. reorder_in HOx ((x, c) :: chain 0 bs 0 ++ L). pose proof (owns_read _ _ _ _ HOx) as [Ex Hx]. rewrite Ex. cbn [mbind option_bind].
  rewrite (proj2 (Z.eqb_neq x 0)), Hc, Z.eqb_refl by done. cbn [negb andb assert mbind option_bind].
  assert (x <> List.last bs.*1 0) as Hxl. { destruct (last_in bs) as [->|Hin]; [done |]. apply not_eq_sym, Hap; [done | by left]. }
  rewrite (proj2 (Z.eqb_neq x _)) by done. cbn [negb assert mbind option_bind].
  set (n := Z.of_nat (length bs)). set (f := first (bs ++ [(x, c)]).*1 0).
  assert (exists h2 d, (if negb (List.last bs.*1 0 =? 0) then h ← link_after h (List.last bs.*1 0) x; Some (h, mkFL (first bs.*1 0) (List.last bs.*1 0) sz n)
             else _ ← assert (first bs.*1 0 =? 0); list_link_head h (mkFL (first bs.*1 0) (List.last bs.*1 0) sz n) x)
            = Some (h2, mkFL f (List.last bs.*1 0) sz n) /\ d = cell (List.last bs.*1 0) (_next c) c /\ owns h2 (chain 0 bs x ++ (x, d) :: L))
    as (h2 & d & -> & Ed & HO2).
  { destruct bs as [|b bs].
    - cbn [Z.eqb fmap list_fmap List.last first negb assert mbind option_bind]. unfold list_link_head, list_set_head, chunk_size_ok.
      rewrite (proj2 (Z.eqb_neq x 0)) by done. rewrite Ex. cbn [mbind option_bind list_size]. rewrite Hc, Z.eqb_refl. cbn [assert mbind option_bind].
      destruct (set_prev_spec _ _ _ 0 _ HOx ltac:(done)) as (h2 & -> & HO2). by exists h2, (with_prev 0 c).
    - rewrite (proj2 (Z.eqb_neq _ 0)) by (by eapply last_not_null). cbn [negb]. unfold link_after.
      destruct (relink_back _ _ x _ _ _ HO ltac:(done) Hxl) as (h1 & -> & HO1). cbn [mbind option_bind]. rewrite (proj2 (Z.eqb_neq x 0)) by done.
      reorder_in HO1 ((x, c) :: chain 0 (b :: bs) x ++ L). destruct (set_prev_spec _ _ _ (List.last (b :: bs).*1 0) _ HO1 ltac:(done)) as (h2 & -> & HO2).
      exists h2, (with_prev (List.last (b :: bs).*1 0) c). split_and!; [done | done |]. eapply owns_proper; [| exact HO2]. solve_Permutation. }
  cbn [mbind option_bind]. reorder_in HO2 ((x, d) :: chain 0 bs x ++ L).
  unfold list_link_tail, list_set_tail, chunk_size_ok at 1. rewrite (proj2 (Z.eqb_neq x 0)) by done.
  pose proof (owns_read _ _ _ _ HO2) as [-> _]. cbn [mbind option_bind list_size]. assert (_word_size d = sz) as -> by (by rewrite Ed).
  rewrite Z.eqb_refl. cbn [assert mbind option_bind]. destruct (set_next_spec _ _ _ 0 _ HO2 ltac:(done)) as (h3 & -> & HO3).
  cbn [mbind option_bind head tail list_size count]. cbv zeta. unfold list_set_count. cbn [head tail list_size count].
  assert (owns h3 (chain 0 (bs ++ [(x, c)]) 0 ++ L)) as HO4.
  { eapply owns_proper; [| exact HO3]. rewrite chain_app, Ed. simpl. solve_Permutation. }
  assert (mkFL f x sz (n + 1) = list_of sz (bs ++ [(x, c)])) as ->.
  { unfold list_of, f, n. rewrite last_snoc, length_app. simpl. f_equal. lia. }
  rewrite (ends_list _ _ _ HO4), (sizes_list _ _ _ HO4 Hs'). by exists h3.
Qed.

(** Unlinking a chunk: the chunk after it, then the one before it. *)
Lemma unlink_after h ys x zs cx c L :
  owns h (chain 0 ys x ++ (x, cx) :: chain x zs 0 ++ L) -> sized sz ys -> sized sz zs ->
  exists h1 q, (if first zs.*1 0 =? 0 then list_link_tail h (list_of sz (ys ++ (x, c) :: zs)) (List.last ys.*1 0)
        else h ← set_prev h (first zs.*1 0) (List.last ys.*1 0); Some (h, list_of sz (ys ++ (x, c) :: zs)))
      = Some (h1, mkFL (first (ys ++ (x, c) :: zs).*1 0) (List.last (ys ++ zs).*1 0) sz (Z.of_nat (length (ys ++ (x, c) :: zs)))) /\
    owns h1 (chain 0 ys q ++ (x, cx) :: chain (List.last ys.*1 0) zs 0 ++ L).
Proof.
  intros HO Hy Hz. destruct zs as [|z zs].
  - simpl first. change (0 =? 0) with true. cbv iota. unfold list_link_tail, list_set_tail.
    rewrite (size_member _ _ _ _ _ _ _ HO Hy) by (done || apply last_in). cbn [mbind option_bind list_of head tail list_size count]. rewrite app_nil_r.
    destruct ys as [|y ys]; [by exists h, x |]. pose proof (last_not_null _ _ _ _ _ HO ltac:(done)) as Hl. rewrite (proj2 (Z.eqb_neq _ 0)) by done.
    destruct (relink_back _ _ 0 _ _ _ HO ltac:(done) ltac:(done)) as (h1 & -> & HO1). exists h1, 0. done.
  - pose proof HO as HO0. reorder_in HO0 (chain x (z :: zs) 0 ++ chain 0 ys x ++ (x, cx) :: L).
    pose proof (first_not_null _ _ _ _ _ HO0 ltac:(done)) as Hf. rewrite (proj2 (Z.eqb_neq _ 0)) by done.
    assert (List.last ys.*1 0 <> first (z :: zs).*1 0) as Hne.
    { destruct (last_in ys) as [->|Hin]; [done |]. apply (owns_apart _ _ _ _ _ HO); [by rewrite chain_addrs |].
      simpl. right. by left. }
    destruct (relink_front _ _ _ _ _ _ HO0 ltac:(done) Hne) as (h1 & -> & HO1). exists h1, x. split; [| eapply owns_proper; [| exact HO1]; solve_Permutation].
    cbn [mbind option_bind]. unfold list_of. do 3 f_equal. rewrite !fmap_app. simpl. clear. generalize (ys.*1). intros l. induction l as [|a [|b l] IH]; [done | done |]. exact IH.
Qed.

Lemma unlink_before h ys x zs c cx q n L :
  owns h (chain 0 ys q ++ (x, cx) :: chain (List.last ys.*1 0) zs 0 ++ L) -> sized sz zs ->
  let l := mkFL (first (ys ++ (x, c) :: zs).*1 0) (List.last (ys ++ zs).*1 0) sz n in
  exists h2, (if List.last ys.*1 0 =? 0 then
         '(h, l) ← list_link_head h l (first zs.*1 0);
         _ ← (if first zs.*1 0 =? 0 then Some tt else d ← h !! first zs.*1 0; assert (_prev d =? 0));
         Some (h, l)
       else
         h ← set_next h (List.last ys.*1 0) (first zs.*1 0);
         _ ← (if tail l =? List.last ys.*1 0 then d ← h !! List.last ys.*1 0; assert (_next d =? 0) else Some tt);
         Some (h, l))
      = Some (h2, mkFL (first (ys ++ zs).*1 0) (List.last (ys ++ zs).*1 0) sz n) /\
    owns h2 (chain 0 (ys ++ zs) 0 ++ (x, cx) :: L).
Proof.
  intros HO Hz. cbv zeta. rewrite chain_app. destruct ys as [|y ys].
  - cbn [fmap list_fmap List.last Z.eqb app]. simpl in HO. reorder (chain 0 zs 0 ++ (x, cx) :: L). unfold list_link_head, list_set_head.
    rewrite (size_member _ _ _ _ _ _ _ HO Hz) by (done || apply first_in). cbn [mbind option_bind head tail list_size count].
    destruct zs as [|z zs]; [by exists h |]. pose proof (first_not_null _ _ _ _ _ HO ltac:(done)) as Hf. rewrite !(proj2 (Z.eqb_neq _ 0)) by done.
    destruct (relink_front _ _ 0 _ _ _ HO ltac:(done) ltac:(done)) as (h2 & -> & HO2). cbn [mbind option_bind].
    assert (h2 !! first (z :: zs).*1 0 = Some (cell 0 (first zs.*1 0) z.2)) as -> by (by apply owns_read in HO2 as [? _]). by exists h2.
  - set (Y := y :: ys) in *. assert (Y <> []) as HY by done. pose proof (last_not_null _ _ _ _ _ HO HY) as Hl. rewrite (proj2 (Z.eqb_neq _ 0)) by done.
    assert (first zs.*1 0 <> List.last Y.*1 0 /\ (zs <> [] -> List.last zs.*1 0 <> List.last Y.*1 0)) as [Hne Hne2].
    { assert (forall v, v ∈ zs.*1 -> v <> List.last Y.*1 0) as Hap.
      { intros v Hv. apply not_eq_sym, (owns_apart _ _ _ _ _ HO); [rewrite chain_addrs; destruct (last_in Y); [done | done] |].
        rewrite fmap_cons, fmap_app, chain_addrs. right. apply elem_of_app. by left. }
      split; [destruct (first_in zs) as [->|?]; [done | by apply Hap] |]. intros Hnz. destruct (last_in zs) as [E|?]; [| by apply Hap]. rewrite E. done. }
    destruct (relink_back _ _ (first zs.*1 0) _ _ _ HO HY Hne) as (h2 & -> & HO2). cbn [mbind option_bind tail].
    assert ((if List.last (Y ++ zs).*1 0 =? List.last Y.*1 0 then d ← h2 !! List.last Y.*1 0; assert (_next d =? 0) else Some tt) = Some tt) as ->.
    { destruct zs as [|z zs].
      - rewrite app_nil_r, Z.eqb_refl. destruct (last_cell _ _ _ _ _ HO2 HY) as (d & -> & Ed). cbn [mbind option_bind]. by rewrite Ed.
      - rewrite fmap_app. change ((z :: zs).*1) with (z.1 :: zs.*1) in *. rewrite (proj2 (Z.eqb_neq _ _)); [done |].
        rewrite List_last_app by done. by apply Hne2. }
    cbn [mbind option_bind]. exists h2. split; [done |]. eapply owns_proper; [| exact HO2]. solve_Permutation.
Qed.

Lemma unlink_spec h ys x c zs L : owns h (chain 0 (ys ++ (x, c) :: zs) 0 ++ L) -> sized sz (ys ++ (x, c) :: zs) ->
  exists h' c', list_remove_chunk h (list_of sz (ys ++ (x, c) :: zs)) x = Some (h', list_of sz (ys ++ zs)) /\ _word_size c' = sz /\
    owns h' (chain 0 (ys ++ zs) 0 ++ (x, c') :: L).
Proof.
  intros HO Hs. unfold list_remove_chunk. rewrite (ends_list _ _ _ HO).
  pose proof (first_not_null _ _ _ _ _ HO ltac:(by destruct ys)) as Hf. change (head (list_of sz (ys ++ (x, c) :: zs))) with (first (ys ++ (x, c) :: zs).*1 0).
  rewrite (proj2 (Z.eqb_neq _ 0) Hf). apply Forall_app in Hs as [Hy Hs]. apply Forall_cons in Hs as [Hc Hz]. simpl in Hc.
  rewrite chain_app in HO. simpl in HO. set (cx := cell (List.last ys.*1 0) (first zs.*1 0) c) in HO.
  pose proof HO as HOx. reorder_in HOx ((x, cx) :: chain 0 ys x ++ chain x zs 0 ++ L). pose proof (owns_read _ _ _ _ HOx) as [-> Hx].
  rewrite (proj2 (Z.eqb_neq x 0)) by done. cbn [negb andb assert mbind option_bind list_of list_size cx cell _word_size _prev _next]. rewrite Hc, Z.eqb_refl.
  cbn [assert mbind option_bind]. cbv zeta. reorder_in HO (chain 0 ys x ++ (x, cx) :: chain x zs 0 ++ L).
  destruct (unlink_after h ys x zs cx c L HO Hy Hz) as (h1 & q & E1 & HO1). rewrite E1. cbn [mbind option_bind].
  destruct (unlink_before h1 ys x zs c cx q (Z.of_nat (length (ys ++ (x, c) :: zs))) L HO1 Hz) as (h2 & E2 & HO2). rewrite E2. cbn [mbind option_bind].
  unfold decrement_count. cbn [count]. replace (0 <=? _) with true by (symmetry; apply Z.leb_le; rewrite length_app; simpl; lia).
  cbn [assert mbind option_bind]. unfold list_set_count. cbn [head tail list_size count].
  assert (mkFL (first (ys ++ zs).*1 0) (List.last (ys ++ zs).*1 0) sz (Z.of_nat (length (ys ++ (x, c) :: zs)) - 1) = list_of sz (ys ++ zs)) as ->.
  { unfold list_of. f_equal. rewrite !length_app. simpl. lia. }
  assert ((Z.of_nat (length (ys ++ (x, c) :: zs)) - 1 =? 0) = (count (list_of sz (ys ++ zs)) =? 0)) as ->.
  { f_equal. unfold list_of. simpl. rewrite !length_app. simpl. lia. }
  assert (((Z.b2z (first (ys ++ zs).*1 0 =? 0) + Z.b2z (List.last (ys ++ zs).*1 0 =? 0) + Z.b2z (count (list_of sz (ys ++ zs)) =? 0)) mod 3 =? 0) = true) as ->.
  { destruct (ys ++ zs) as [|b bs]; [done |]. rewrite (proj2 (Z.eqb_neq _ 0) (first_not_null _ _ _ _ _ HO2 ltac:(done))).
    rewrite (proj2 (Z.eqb_neq _ 0) (last_not_null _ _ _ _ _ HO2 ltac:(done))). unfold list_of. cbn [count length].
    by rewrite (proj2 (Z.eqb_neq (Z.of_nat (S (length bs))) 0)) by lia. }
  cbn [assert mbind option_bind]. reorder_in HO2 ((x, cx) :: chain 0 (ys ++ zs) 0 ++ L).
  destruct (set_prev_spec _ _ _ 0 _ HO2 ltac:(done)) as (h3 & -> & HO3). cbn [mbind option_bind].
  destruct (set_next_spec _ _ _ 0 _ HO3 ltac:(done)) as (h4 & -> & HO4). cbn [mbind option_bind].
  exists h4, (with_next 0 (with_prev 0 cx)). reorder_in HO4 (chain 0 (ys ++ zs) 0 ++ (x, with_next 0 (with_prev 0 cx)) :: L).
  rewrite (ends_list _ _ _ HO4), (sizes_list _ _ _ HO4) by (apply Forall_app; by split). done.
Qed.

(** ** Taking from the front and adding to it *)

Lemma take_loop_spec h bs : forall b prev L n k fuel,
  owns h (chain prev (b :: bs) 0 ++ L) -> 0 <= n < 2 ^ 64 -> (length bs < fuel)%nat ->
  take_loop h b.1 n k fuel = Some (List.last (take (S (Z.to_nat n)) (b :: bs)).*1 0, k + Z.min n (Z.of_nat (length bs))).
Proof.
  induction bs as [|d bs IH]; intros b prev L n k [|fuel] HO Hn Hf; simpl in Hf; try lia; cbn [take_loop].
  - simpl in HO. apply owns_read in HO as [-> _]. cbn [mbind option_bind cell _next]. change (negb (0 =? 0)) with false. cbn [andb].
    simpl. rewrite take_nil. simpl. do 2 f_equal. lia.
  - pose proof (owns_read _ _ _ _ HO) as [-> _]. apply owns_cons_r in HO. pose proof (owns_read _ _ _ _ HO) as [_ Hd].
    cbn [mbind option_bind cell _next fmap list_fmap first]. rewrite (proj2 (Z.eqb_neq d.1 0)) by done. cbn [negb andb].
    destruct (Z.ltb_spec 0 n) as [Hp|Hp].
    + rewrite size_t_id, (IH d b.1 L (n - 1)) by (done || lia). replace (S (Z.to_nat n)) with (S (S (Z.to_nat (n - 1)))) by lia.
      do 2 f_equal. cbn [length]. lia.
    + replace (S (Z.to_nat n)) with 1%nat by lia. simpl. do 2 f_equal. lia.
Qed.

(** How many chunks a request for [n] takes: with [n] zero all of them. *)
Definition taken (n : Z) (bs : list chunk) : nat := if n =? 0 then length bs else Z.to_nat n.

Lemma take_spec h bs n L :
  owns h (chain 0 bs 0 ++ L) -> sized sz bs -> 0 <= n < 2 ^ 64 -> Z.of_nat (length bs) < 2 ^ 64 ->
  exists h', getFirstNChunksFromList h (list_of sz bs) (list_of sz []) n
      = Some (h', list_of sz (drop (taken n bs) bs), list_of sz (take (taken n bs) bs)) /\
    owns h' (chain 0 (drop (taken n bs) bs) 0 ++ chain 0 (take (taken n bs) bs) 0 ++ L).
Proof.
  intros HO Hs Hn Hlen. unfold getFirstNChunksFromList, list_set_head, list_set_count, list_of.
  cbn [head tail list_size count length fmap list_fmap first List.last]. change (Z.of_nat 0 =? 0) with true. cbn [assert mbind option_bind].
  destruct bs as [|b bs]; [by exists h; rewrite drop_nil, take_nil |]. set (j := taken n (b :: bs)).
  rewrite (proj2 (Z.leb_gt _ _)) by (cbn [length]; lia).
  rewrite (size_member _ _ _ _ _ _ _ HO Hs) by (done || apply first_in). cbn [mbind option_bind].
  assert (0 <= size_t (n - 1) < 2 ^ 64) as Hm by (unfold size_t, wrap; apply Z.mod_pos_bound; lia).
  pose proof (owns_size _ _ HO) as Hsz. simpl in Hsz. rewrite length_app in Hsz.
  assert (length (chain b.1 bs 0) = length bs) as El by (by rewrite <- (length_fmap fst), chain_addrs, length_fmap).
  pose proof (take_loop_spec h bs b 0 L (size_t (n - 1)) 1 (rounds h) HO Hm ltac:(unfold rounds; lia)) as ET.
  change b.1 with (first (b :: bs).*1 0) in ET. rewrite ET. clear ET. cbn [mbind option_bind].
  assert (take (S (Z.to_nat (size_t (n - 1)))) (b :: bs) = take j (b :: bs) /\ 1 + Z.min (size_t (n - 1)) (Z.of_nat (length bs)) = Z.of_nat (length (take j (b :: bs)))
          /\ (0 < j)%nat) as (-> & -> & Hj).
  { unfold j, taken. rewrite length_take. destruct (Z.eqb_spec n 0) as [->|Hn0].
    - change (size_t (0 - 1)) with (2 ^ 64 - 1). cbn [length] in Hlen |- *. split_and!; [| lia | lia]. rewrite firstn_all2, take_ge by (cbn [length]; lia). done.
    - rewrite size_t_id by lia. split_and!; [f_equal; lia | cbn [length]; lia | lia]. }
  set (A := take j (b :: bs)). set (B := drop j (b :: bs)).
  assert (b :: bs = A ++ B) as EAB by (symmetry; apply take_drop). assert (A <> []) as HA by (unfold A; destruct j; [lia | done]).
  rewrite EAB in HO, Hs. apply Forall_app in Hs as [HsA HsB]. rewrite chain_app in HO. pose proof HO as HO0.
  reorder_in HO0 (chain 0 A (first B.*1 0) ++ chain (List.last A.*1 0) B 0 ++ L). pose proof (last_not_null _ _ _ _ _ HO0 HA) as Hl.
  rewrite (proj2 (Z.eqb_neq _ 0)) by done. cbn [negb assert mbind option_bind].
  destruct (last_cell _ _ _ _ _ HO0 HA) as (c & -> & En). cbn [mbind option_bind]. rewrite En. cbv zeta.
  reorder_in HO (chain (List.last A.*1 0) B 0 ++ chain 0 A (first B.*1 0) ++ L).
  rewrite (size_member _ _ _ _ _ _ _ HO HsB) by (done || apply first_in). cbn [mbind option_bind head tail list_size count].
  replace (Z.of_nat (length (b :: bs)) - Z.of_nat (length A)) with (Z.of_nat (length B)) by (rewrite EAB, length_app; lia).
  assert (exists h1, (if first B.*1 0 =? 0
      then l ← list_set_tail h (mkFL (first B.*1 0) (List.last (b :: bs).*1 0) sz (Z.of_nat (length B))) 0; Some (h, l)
      else h ← set_prev h (first B.*1 0) 0; Some (h, mkFL (first B.*1 0) (List.last (b :: bs).*1 0) sz (Z.of_nat (length B))))
      = Some (h1, list_of sz B) /\ owns h1 (chain 0 B 0 ++ chain 0 A (first B.*1 0) ++ L)) as (h1 & -> & HO1).
  { rewrite EAB. clearbody B. destruct B as [|d B]; [by exists h |]. pose proof (first_not_null _ _ _ _ _ HO ltac:(done)) as Hf.
    rewrite (proj2 (Z.eqb_neq _ 0)) by done. destruct (relink_front _ _ 0 _ _ _ HO ltac:(done) ltac:(done)) as (h1 & -> & HO1). exists h1.
    split; [| done]. cbn [mbind option_bind]. unfold list_of. by rewrite fmap_app, List_last_app. }
  cbn [mbind option_bind]. reorder_in HO1 (chain 0 A (first B.*1 0) ++ chain 0 B 0 ++ L).
  destruct (relink_back _ _ 0 _ _ _ HO1 HA ltac:(done)) as (h2 & -> & HO2). cbn [mbind option_bind]. unfold list_set_tail.
  rewrite (size_member _ _ _ _ _ _ _ HO2 HsA) by (done || apply last_in). cbn [mbind option_bind]. exists h2. split.
  - do 3 f_equal. unfold A. by destruct j; [lia |].
  - eapply owns_proper; [| exact HO2]. solve_Permutation.
Qed.

Lemma prepend_spec h bs cs L :
  owns h (chain 0 bs 0 ++ chain 0 cs 0 ++ L) -> sized sz bs -> sized sz cs ->
  exists h', prepend h (list_of sz bs) (list_of sz cs) = Some (h', list_of sz (cs ++ bs), list_of sz []) /\ owns h' (chain 0 (cs ++ bs) 0 ++ L).
Proof.
  intros HO Hb Hc. unfold prepend, list_set_head, list_set_tail, list_set_count, list_of. cbn [head tail list_size count]. cbv zeta. destruct cs as [|e cs0]; [by exists h |]. set (cs := e :: cs0) in *.
  rewrite (proj2 (Z.leb_gt _ _)) by (unfold cs; cbn [length]; lia). assert (cs <> []) as Hcs by done. clearbody cs.
  pose proof HO as HOc. reorder_in HOc (chain 0 cs 0 ++ chain 0 bs 0 ++ L).
  destruct bs as [|b bs].
  - cbn [length Z.of_nat Z.eqb]. rewrite (size_member _ _ _ _ _ _ _ HOc Hc) by (done || apply first_in). cbn [mbind option_bind].
    rewrite (size_member _ _ _ _ _ _ _ HOc Hc) by (done || apply last_in). cbn [mbind option_bind]. exists h. rewrite app_nil_r. split; [done | exact HOc].
  - rewrite (proj2 (Z.eqb_neq _ 0)) by (cbn [length]; lia). destruct (last_cell _ _ _ _ _ HOc Hcs) as (c & -> & Ec).
    cbn [mbind option_bind]. rewrite Ec. cbn [mbind option_bind Z.eqb assert].
    assert (first (b :: bs).*1 0 <> List.last cs.*1 0) as Hne.
    { apply not_eq_sym, (owns_apart _ _ _ _ _ HOc).
      - rewrite chain_addrs. destruct (last_in cs) as [E|]; [| done]. by apply last_not_null in HOc.
      - simpl. by left. }
    destruct (relink_back _ _ (first (b :: bs).*1 0) _ _ _ HOc Hcs Hne) as (h1 & -> & HO1). cbn [mbind option_bind].
    reorder_in HO1 (chain 0 (b :: bs) 0 ++ chain 0 cs (first (b :: bs).*1 0) ++ L).
    destruct (relink_front _ _ (List.last cs.*1 0) _ _ _ HO1 ltac:(done) (not_eq_sym Hne)) as (h2 & -> & HO2). cbn [mbind option_bind].
    reorder_in HO2 (chain 0 cs (first (b :: bs).*1 0) ++ chain (List.last cs.*1 0) (b :: bs) 0 ++ L).
    rewrite (size_member _ _ _ _ _ _ _ HO2 Hc) by (done || apply first_in). cbn [mbind option_bind]. exists h2. split.
    + unfold list_of, list_set_count. cbn [head tail list_size count chunk_size_ok Z.eqb mbind option_bind]. do 3 f_equal.
      assert (first cs.*1 0 = first (cs ++ b :: bs).*1 0) as -> by (by destruct cs). rewrite fmap_app, List_last_app by done. f_equal.
      rewrite length_app. lia.
    + rewrite chain_app. eapply owns_proper; [| exact HO2]. solve_Permutation.
Qed.

End Lists.
End FreeListTheorems.
