(* ===== verification/FreeListHistory.v ===== *)
(** Two free lists over one memory against two sequences of chunks: what every sequence of
    requests to them does. *)
From S2P Require Import Prelude GlobalDefinitions FreeDictionary FreeDictCells FreeDictDelete FreeList FreeListTheorems.
Import GlobalDefinitions FreeDictionary FreeDictCells FreeDictDelete FreeList FreeListTheorems.

Module FreeListHistory.

(** ** Requests and their specification *)

Inductive list_request : Set :=
| AtHead (x : Z) | AtTail (x : Z) | Pop | Unlink (x : Z) | TakeFirst (n : Z) | PrependOther | Swap.

Record lists : Set := mkLists { lmem : memory; this : FreeList; other : FreeList }.

(** A request to the list [this]; the chunks of [TakeFirst] go to the other list. *)
Definition list_serve (W : lists) (q : list_request) : option (lists * Z) :=
  let '(mkLists h l o) := W in
  match q with
  | AtHead x => '(h, l) ← list_return_chunk_at_head h l x; Some (mkLists h l o, 0)
  | AtTail x => '(h, l) ← list_return_chunk_at_tail h l x; Some (mkLists h l o, 0)
  | Pop => '(h, l, fc) ← get_chunk_at_head h l; Some (mkLists h l o, fc)
  | Unlink x => '(h, l) ← list_remove_chunk h l x; Some (mkLists h l o, 0)
  | TakeFirst n => '(h, l, o) ← getFirstNChunksFromList h l o n; Some (mkLists h l o, 0)
  | PrependOther => '(h, l, o) ← prepend h l o; Some (mkLists h l o, 0)
  | Swap => Some (mkLists h o l, 0)
  end.

(** The chunks of the two lists, and those in none. *)
Record contents : Set := mkContents { mine : list Z; yours : list Z; loose : list Z }.

Definition without (x : Z) (xs : list Z) : list Z := filter (fun y => y <> x) xs.

Definition list_next (K : contents) (q : list_request) : contents :=
  let '(mkContents xs ys zs) := K in
  match q with
  | AtHead x => mkContents (x :: xs) ys (without x zs)
  | AtTail x => mkContents (xs ++ [x]) ys (without x zs)
  | Pop => match xs with [] => K | x :: xs => mkContents xs ys (x :: zs) end
  | Unlink x => mkContents (without x xs) ys (x :: zs)
  | TakeFirst n => let k := if n =? 0 then length xs else Z.to_nat n in mkContents (drop k xs) (take k xs) zs
  | PrependOther => mkContents (ys ++ xs) [] zs
  | Swap => mkContents ys xs zs
  end.

Definition list_answer (K : contents) (q : list_request) : Z := match q with Pop => first (mine K) 0 | _ => 0 end.

(** A list object and the links in the memory describe a sequence of chunks. *)
Definition describes (sz : Z) (h : memory) (l : FreeList) (xs : list Z) : Prop :=
  head l = first xs 0 /\ tail l = List.last xs 0 /\ list_size l = sz /\ count l = Z.of_nat (length xs) /\
  forall ys x zs, xs = ys ++ x :: zs ->
    exists c, h !! x = Some c /\ _prev c = List.last ys 0 /\ _next c = first zs 0 /\ _word_size c = sz.

Section History.
Context (sz : Z).

Definition list_legal (W : lists) (K : contents) (q : list_request) : Prop :=
  match q with
  | AtHead x | AtTail x => x ∈ loose K /\ forall c, lmem W !! x = Some c -> _word_size c = sz
  | Unlink x => x ∈ mine K
  | TakeFirst n => yours K = [] /\ 0 <= n < 2 ^ 64
  | Pop | PrependOther | Swap => True
  end.

Inductive list_reachable : lists -> contents -> Prop :=
| lists_start h : h !! 0 = None -> Z.of_nat (size h) < 2 ^ 63 ->
    list_reachable (mkLists h (mkFL 0 0 sz 0) (mkFL 0 0 sz 0)) (mkContents [] [] (map_to_list h).*1)
| lists_step W K q W' r : list_reachable W K -> list_legal W K q -> list_serve W q = Some (W', r) -> list_reachable W' (list_next K q).

(** ** The invariant *)

Definition lists_hold (W : lists) (K : contents) : Prop :=
  exists bs cs ls, owns (lmem W) (chain 0 bs 0 ++ chain 0 cs 0 ++ ls) /\ bs.*1 = mine K /\ cs.*1 = yours K /\ ls.*1 ≡ₚ loose K /\
    this W = list_of sz bs /\ other W = list_of sz cs /\ sized sz bs /\ sized sz cs /\
    Z.of_nat (length bs + length cs + length ls) < 2 ^ 63.

Lemma hold_start h : h !! 0 = None -> Z.of_nat (size h) < 2 ^ 63 ->
  lists_hold (mkLists h (mkFL 0 0 sz 0) (mkFL 0 0 sz 0)) (mkContents [] [] (map_to_list h).*1).
Proof.
  intros H0 Hs. exists [], [], (map_to_list h). split_and!; [| done.. | constructor | constructor | by rewrite length_map_to_list].
  split_and!; [done | apply NoDup_fst_map_to_list |]. intros p c Hp. by apply elem_of_map_to_list in Hp.
Qed.

Lemma hold_describes h bs L : owns h (chain 0 bs 0 ++ L) -> sized sz bs -> describes sz h (list_of sz bs) bs.*1.
Proof.
  intros HO Hs. split_and!; [done.. | by rewrite length_fmap |]. intros ys x zs E.
  assert (exists bs1 b bs2, bs = bs1 ++ b :: bs2 /\ ys = bs1.*1 /\ x = b.1 /\ zs = bs2.*1) as (bs1 & b & bs2 & -> & -> & -> & ->).
  { apply fmap_app_inv in E as (bs1 & bs2 & -> & E2 & ->). destruct bs2 as [|b bs2]; [done |]. simpl in E2. simplify_eq. by exists bs1, b, bs2. }
  rewrite chain_app in HO. simpl in HO. reorder ((b.1, cell (List.last bs1.*1 0) (first bs2.*1 0) b.2) :: chain 0 bs1 b.1 ++ chain b.1 bs2 0 ++ L).
  apply owns_read in HO as [-> _]. eexists. split_and!; [done.. |]. apply Forall_app in Hs as [_ Hs]. by apply Forall_cons in Hs as [? _].
Qed.

Lemma loose_cell h M ls zs x : owns h (M ++ ls) -> ls.*1 ≡ₚ zs -> x ∈ zs ->
  exists c ls', ls ≡ₚ (x, c) :: ls' /\ h !! x = Some c /\ ls'.*1 ≡ₚ without x zs.
Proof.
  intros HO E Hx. rewrite <- E in Hx. apply list_elem_of_fmap in Hx as ([x' c] & -> & Hin). apply elem_of_Permutation in Hin as (ls' & EP).
  exists c, ls'. split; [done |]. simpl. rewrite EP in HO. apply owns_app_r in HO. split; [by apply owns_read in HO as [? _] |].
  unfold without. rewrite <- E, EP. simpl. rewrite filter_cons_False by (by intros []).
  destruct HO as (_ & Hnd & _). simpl in Hnd. apply NoDup_cons in Hnd as [Hn _]. by rewrite filter_absent.
Qed.

Lemma linked_cell h bs L x : owns h (chain 0 bs 0 ++ L) -> x ∈ bs.*1 ->
  exists ys c zs, bs = ys ++ (x, c) :: zs /\ without x bs.*1 = (ys ++ zs).*1.
Proof.
  intros HO Hx. apply list_elem_of_fmap in Hx as ([x' c] & -> & Hin). apply list_elem_of_split in Hin as (ys & zs & ->).
  exists ys, c, zs. split; [done |]. destruct HO as (_ & Hnd & _). rewrite fmap_app, chain_addrs in Hnd. apply NoDup_app in Hnd as (Hnd & _).
  rewrite !fmap_app in Hnd |- *. simpl in Hnd |- *. apply NoDup_app in Hnd as (_ & Hd & Hz). apply NoDup_cons in Hz as [Hz _].
  rewrite fmap_app. apply filter_out; [| done]. intros Hy. by apply (Hd _ Hy); left.
Qed.

Lemma add_hold W K q x : lists_hold W K -> q = AtHead x \/ q = AtTail x -> list_legal W K q ->
  exists W', list_serve W q = Some (W', 0) /\ lists_hold W' (list_next K q).
Proof.
  destruct W as [h l o]. destruct K as [xs ys zs]. intros (bs & cs & ls & HO & Exs & Eys & E & El & Eo & Hb & Hc & Hlen) Hq HL. cbn [lmem this other mine yours loose] in *. subst l o xs ys.
  assert (x ∈ zs /\ forall c, h !! x = Some c -> _word_size c = sz) as [Hx Hsz] by (destruct Hq as [-> | ->]; exact HL).
  rewrite app_assoc in HO. destruct (loose_cell _ _ _ _ _ HO E Hx) as (c & ls' & EP & Ec & E'). specialize (Hsz c Ec).
  rewrite EP in HO. rewrite EP in Hlen. cbn [length] in Hlen. reorder (chain 0 bs 0 ++ (x, c) :: chain 0 cs 0 ++ ls').
  destruct Hq as [-> | ->]; cbn [list_serve list_next].
  - destruct (push_head_spec sz _ _ _ _ _ HO Hb Hsz) as (h' & -> & HO'). eexists. split; [done |].
    exists ((x, c) :: bs), cs, ls'. split_and!; try done; [constructor; done | cbn [length]; lia].
  - destruct (push_tail_spec sz _ _ _ _ _ HO Hb Hsz) as (h' & -> & HO'). eexists. split; [done |].
    exists (bs ++ [(x, c)]), cs, ls'. split_and!; try done; [by rewrite fmap_app | apply Forall_app; split; [done | by constructor] | rewrite length_app; cbn [length]; lia].
Qed.

Lemma remove_hold W K q : lists_hold W K -> q = Pop \/ (exists x, q = Unlink x) -> list_legal W K q ->
  exists W', list_serve W q = Some (W', list_answer K q) /\ lists_hold W' (list_next K q).
Proof.
  destruct W as [h l o]. destruct K as [xs ys zs]. intros HD Hq HL. pose proof HD as (bs & cs & ls & HO & Exs & Eys & E & El & Eo & Hb & Hc & Hlen).
  cbn [lmem this other mine yours loose] in *. subst l o xs ys.
  destruct Hq as [-> | [x ->]]; cbn [list_serve list_next list_answer mine].
  - destruct bs as [|[x c] bs]; [by eexists |]. destruct (pop_spec sz _ _ _ _ _ HO Hb) as (h' & c' & -> & _ & HO'). eexists. split; [done |].
    exists bs, cs, ((x, c') :: ls). apply Forall_cons in Hb as [_ Hb]. split_and!; try done; [| by simpl; rewrite E | cbn [length] in *; lia].
    eapply owns_proper; [| exact HO']. solve_Permutation.
  - cbn [list_legal mine] in HL. destruct (linked_cell _ _ _ _ HO HL) as (us & c & vs & -> & Ew). rewrite Ew.
    destruct (unlink_spec sz _ _ _ _ _ _ HO Hb) as (h' & c' & -> & _ & HO'). eexists. split; [done |].
    exists (us ++ vs), cs, ((x, c') :: ls). apply Forall_app in Hb as [Hu Hv]. apply Forall_cons in Hv as [_ Hv].
    split_and!; try done; [| by simpl; rewrite E | by apply Forall_app | rewrite !length_app in *; cbn [length] in *; lia].
    eapply owns_proper; [| exact HO']. solve_Permutation.
Qed.

Lemma both_hold W K q : lists_hold W K -> (exists n, q = TakeFirst n) \/ q = PrependOther \/ q = Swap -> list_legal W K q ->
  exists W', list_serve W q = Some (W', 0) /\ lists_hold W' (list_next K q).
Proof.
  destruct W as [h l o]. destruct K as [xs ys zs]. intros (bs & cs & ls & HO & Exs & Eys & E & El & Eo & Hb & Hc & Hlen) Hq HL.
  cbn [lmem this other mine yours loose] in *. subst l o xs ys.
  destruct Hq as [[n ->] | [-> | ->]]; cbn [list_serve list_next].
  - destruct HL as [Hcs Hn]. cbn [yours] in Hcs. apply fmap_nil_inv in Hcs as ->. cbn [chain app] in HO. rewrite length_fmap.
    destruct (take_spec sz _ _ n _ HO Hb Hn ltac:(cbn [length] in *; lia)) as (h' & -> & HO'). eexists. split; [done |].
    fold (taken n bs). exists (drop (taken n bs) bs), (take (taken n bs) bs), ls.
    split_and!; try done; [by rewrite fmap_drop | by rewrite fmap_take | by apply Forall_drop | by apply Forall_take |].
    rewrite length_drop, length_take. cbn [length] in Hlen. lia.
  - destruct (prepend_spec sz _ _ _ _ HO Hb Hc) as (h' & -> & HO'). eexists. split; [done |]. exists (cs ++ bs), [], ls.
    split_and!; try done; [by rewrite fmap_app | by apply Forall_app | constructor | rewrite length_app; cbn [length]; lia].
  - eexists. split; [done |]. exists cs, bs, ls. split_and!; try done; [| lia]. eapply owns_proper; [| exact HO]. simpl. solve_Permutation.
Qed.

Lemma list_serve_holds W K q : lists_hold W K -> list_legal W K q ->
  exists W', list_serve W q = Some (W', list_answer K q) /\ lists_hold W' (list_next K q).
Proof.
  intros HD HL. destruct q as [x|x| |x|n| |].
  - apply (add_hold _ _ _ x); auto.
  - apply (add_hold _ _ _ x); auto.
  - apply remove_hold; auto.
  - apply remove_hold; eauto.
  - apply both_hold; eauto.
  - apply both_hold; auto.
  - apply both_hold; auto.
Qed.

Lemma list_reachable_holds W K : list_reachable W K -> lists_hold W K.
Proof.
  induction 1 as [h H0 Hs|W K q W' r HR IH HL E]; [by apply hold_start |].
  destruct (list_serve_holds _ _ _ IH HL) as (W'' & E' & HD'). rewrite E in E'. by simplify_eq.
Qed.


End History.

Definition three_free : memory := {[ 800 := mkTC 10 7 7 7 empty_list; 1600 := mkTC 10 7 7 7 empty_list; 2400 := mkTC 10 7 7 7 empty_list ]}.


(** A request for no chunks takes all of them: the counter wraps around before it is compared,
    where the header says that the first [n] or [count] chunks move, whichever is smaller. *)
Theorem take_none_takes_all :
  let l := mkFL 800 1600 10 2 in
  exists h h', describes 10 h l [800; 1600] /\
    getFirstNChunksFromList h l (mkFL 0 0 10 0) 0 = Some (h', mkFL 0 0 10 0, l).
Proof.
  set (h := {[ 800 := mkTC 10 0 1600 0 empty_list; 1600 := mkTC 10 800 0 0 empty_list ]} : memory). exists h, h. split; [| by vm_compute].
  split_and!; [done.. |]. intros [|a [|b [|]]] x zs E; simplify_eq/=; eexists; split_and!; done.
Qed.

End FreeListHistory.
