(* ===== verification/Utf8.v ===== *)
(** Strings of the virtual machine (utilities/utf8.hpp, utilities/utf8.cpp): the
    classes [UTF8] and [UNICODE], which convert between Java characters and the
    modified UTF-8 of class files, and quote strings as ASCII.

    A pointer into a string is the list of the bytes from there on, each in
    [0, 256), the terminating zero included; reading past the list is [None].  A
    function that fills a buffer returns the bytes it writes, from the start of the
    buffer. *)
From S2P Require Import Prelude.

Module Utf8.

(** [(b & 0xC0) == 0x80]: a byte 10xxxxxx. *)
Definition is_continuation (b : Z) : bool := Z.land b 0xC0 =? 0x80.

(** ** UTF8 *)

Definition next (str : list Z) : option (Z * list Z) :=
  ch ← str !! 0%nat;
  let bad := Some (ch, drop 1 str) in
  let kind := Z.shiftr ch 4 in
  if (kind =? 0x8) || (kind =? 0x9) || (kind =? 0xA) || (kind =? 0xB) || (kind =? 0xF) then bad
  else if (kind =? 0xC) || (kind =? 0xD) then
    ch2 ← str !! 1%nat;
    if is_continuation ch2 then
      let high_five := u_char (Z.land ch 0x1F) in
      let low_six := u_char (Z.land ch2 0x3F) in
      Some (jchar (Z.shiftl high_five 6 + low_six), drop 2 str)
    else bad
  else if kind =? 0xE then
    ch2 ← str !! 1%nat;
    if is_continuation ch2 then
      ch3 ← str !! 2%nat;
      if is_continuation ch3 then
        let high_four := u_char (Z.land ch 0x0f) in
        let mid_six := u_char (Z.land ch2 0x3f) in
        let low_six := u_char (Z.land ch3 0x3f) in
        Some (jchar (Z.shiftl (Z.shiftl high_four 6 + mid_six) 6 + low_six), drop 3 str)
      else bad
    else bad
  else Some (jchar ch, drop 1 str).

(** The conjunction reads no byte after one that fails its test. *)
Fixpoint all_match (str : list Z) (tests : list (Z * Z)) {struct tests} : option bool :=
  match tests with
  | [] => Some true
  | (mask, value) :: tests =>
      match str with
      | [] => None
      | b :: str => if Z.land b mask =? value then all_match str tests else Some false
      end
  end.

Definition is_supplementary_character (str : list Z) : option bool :=
  all_match str [(0xFF, 0xED); (0xF0, 0xA0); (0xC0, 0x80); (0xFF, 0xED); (0xF0, 0xB0); (0xC0, 0x80)].

Definition get_supplementary_character (str : list Z) : option Z :=
  s1 ← str !! 1%nat; s2 ← str !! 2%nat; s4 ← str !! 4%nat; s5 ← str !! 5%nat;
  Some (jint (0x10000 + Z.shiftl (Z.land s1 0x0f) 16 + Z.shiftl (Z.land s2 0x3f) 10
              + Z.shiftl (Z.land s4 0x0f) 6 + Z.land s5 0x3f)).

Definition next_character (str : list Z) : option (Z * list Z) :=
  supplementary ← is_supplementary_character str;
  if (supplementary : bool) then
    value ← get_supplementary_character str; Some (value, drop 6 str)
  else next str.

(** [unicode_length(str, len)] *)
Fixpoint unicode_length_loop (str : list Z) (len : nat) (num_chars : Z) {struct len} : option Z :=
  match len with
  | O => Some num_chars
  | S len =>
      match str with
      | [] => None
      | b :: str =>
          unicode_length_loop str len (if is_continuation b then num_chars - 1 else num_chars)
      end
  end.
Definition unicode_length (str : list Z) (len : nat) : option Z :=
  unicode_length_loop str len (Z.of_nat len).

(** [unicode_length(str)] of a zero-terminated string *)
Fixpoint unicode_strlen_loop (str : list Z) (num_chars : Z) : option Z :=
  match str with
  | [] => None
  | b :: str =>
      if b =? 0 then Some num_chars
      else unicode_strlen_loop str (if negb (is_continuation b) then num_chars + 1 else num_chars)
  end.
Definition unicode_strlen (str : list Z) : option Z := unicode_strlen_loop str 0.

Definition utf8_write (ch : Z) : list Z :=
  if negb (ch =? 0) && (ch <=? 0x7f) then [u_char ch]
  else if ch <=? 0x7FF then
    let high_five := u_char (Z.shiftr ch 6) in
    let low_six := u_char (Z.land ch 0x3F) in
    [u_char (Z.lor high_five 0xC0); u_char (Z.lor low_six 0x80)]
  else
    let high_four := jbyte (Z.shiftr ch 12) in
    let mid_six := jbyte (Z.land (Z.shiftr ch 6) 0x3F) in
    let low_six := jbyte (Z.land ch 0x3f) in
    [u_char (Z.lor high_four 0xE0); u_char (Z.lor mid_six 0x80); u_char (Z.lor low_six 0x80)].

(** The two loops of [convert_to_unicode]: the characters written. *)
Fixpoint convert_loop (ptr : list Z) (count : nat) : option (list Z) :=
  match count with
  | O => Some []
  | S count => '(c, ptr) ← next ptr; cs ← convert_loop ptr count; Some (c :: cs)
  end.
Fixpoint convert_to_unicode (ptr : list Z) (unicode_length : nat) : option (list Z) :=
  match unicode_length with
  | O => Some []
  | S count =>
      ch ← ptr !! 0%nat;
      if 0x7F <? ch then convert_loop ptr (S count)
      else cs ← convert_to_unicode (drop 1 ptr) count; Some (ch :: cs)
  end.

(** A character that is printed as it is. *)
Definition is_printable (c : Z) : bool := (32 <=? c) && (c <? 127).

(** [sprintf(p, "\\u%04x", c)] *)
Definition hex_digit (d : Z) : Z := if d <? 10 then 48 + d else 87 + d.
Definition sprintf_u04x (c : Z) : list Z :=
  [92; 117; hex_digit (c / 4096 mod 16); hex_digit (c / 256 mod 16);
   hex_digit (c / 16 mod 16); hex_digit (c mod 16)].

(** [utf8_length] bounds the number of characters, and so the rounds of the loops
    that end when [ptr] reaches the end; [left] is [end - ptr]. *)
Fixpoint utf8_quoted_length_loop (fuel : nat) (ptr : list Z) (left result : Z) : option Z :=
  if 0 <? left then
    match fuel with
    | O => None
    | S fuel =>
        '(c, ptr') ← next ptr;
        utf8_quoted_length_loop fuel ptr' (left - Z.of_nat (length ptr - length ptr'))
          (if is_printable c then result + 1 else result + 6)
    end
  else Some result.
Definition utf8_quoted_ascii_length (utf8_str : list Z) (utf8_length : nat) : option Z :=
  utf8_quoted_length_loop utf8_length utf8_str (Z.of_nat utf8_length) 0.

(** One character of a quoted string: what is written, or [None] when the string
    is truncated here; [p] is the number of bytes written so far. *)
Definition quote (c p buflen : Z) : option (list Z) :=
  if is_printable c then if buflen <=? p + 1 then None else Some [c]
  else if buflen <=? p + 6 then None else Some (sprintf_u04x c).

Fixpoint utf8_as_quoted_loop (fuel : nat) (ptr : list Z) (left p buflen : Z)
    : option (list Z) :=
  if 0 <? left then
    match fuel with
    | O => None
    | S fuel =>
        '(c, ptr') ← next ptr;
        match quote c p buflen with
        | None => Some [0]
        | Some out =>
            written ← utf8_as_quoted_loop fuel ptr' (left - Z.of_nat (length ptr - length ptr'))
                        (p + Z.of_nat (length out)) buflen;
            Some (out ++ written)
        end
    end
  else Some [0].
(** [None] also when the assertion that the terminator fits fails. *)
Definition utf8_as_quoted_ascii (utf8_str : list Z) (utf8_length : nat) (buflen : Z)
    : option (list Z) :=
  written ← utf8_as_quoted_loop utf8_length utf8_str (Z.of_nat utf8_length) 0 buflen;
  if Z.of_nat (length written) - 1 <? buflen then Some written else None.

(** [from_quoted_ascii]: its two loops, each a number of rounds. *)
Fixpoint skip_plain (fuel : nat) (ptr : list Z) : option (list Z) :=
  match fuel with
  | O => None
  | S fuel =>
      match ptr with
      | [] => None
      | b :: _ =>
          if b =? 0 then Some ptr
          else let c := jbyte b in
               if (c <? 32) || (127 <=? c) then Some ptr else skip_plain fuel ptr
      end
  end.

Definition hex_value (c value : Z) : option Z :=
  if (48 <=? c) && (c <=? 57) then Some (jchar (Z.shiftl value 4 + c - 48))
  else if (97 <=? c) && (c <=? 102) then Some (jchar (Z.shiftl value 4 + 10 + c - 97))
  else if (65 <=? c) && (c <=? 70) then Some (jchar (Z.shiftl value 4 + 10 + c - 65))
  else None.

Fixpoint hex_digits (n : nat) (ptr : list Z) (value : Z) : option (Z * list Z) :=
  match n with
  | O => Some (value, ptr)
  | S n =>
      match ptr with
      | [] => None
      | c :: ptr => value ← hex_value c value; hex_digits n ptr value
      end
  end.

(** Stores to the buffer, when there is one, from index [length] on. *)
Fixpoint store (buffer : option (list Z)) (length : nat) (out : list Z)
    : option (option (list Z)) :=
  match buffer, out with
  | None, _ => Some None
  | _, [] => Some buffer
  | Some buf, b :: out =>
      if decide (length < List.length buf)%nat then store (Some (<[length := b]> buf)) (S length) out
      else None
  end.

(** One of the two rounds over the string; the first, without a buffer, only counts. *)
Fixpoint unquote (fuel : nat) (ptr : list Z) (length : nat) (buffer : option (list Z))
    : option (nat * option (list Z)) :=
  match fuel with
  | O => None
  | S fuel =>
      let emit ptr out :=
        buffer ← store buffer length out; unquote fuel ptr (length + List.length out) buffer in
      match ptr with
      | [] => None
      | b :: rest =>
          if b =? 0 then Some (length, buffer)
          else if negb (b =? 92) then emit ptr [b]
          else
            c ← rest !! 0%nat;
            if c =? 117 then
              '(value, ptr) ← hex_digits 4 (drop 1 rest) 0; emit ptr (utf8_write value)
            else if c =? 116 then emit (drop 1 rest) [9]
            else if c =? 110 then emit (drop 1 rest) [10]
            else if c =? 114 then emit (drop 1 rest) [13]
            else if c =? 102 then emit (drop 1 rest) [12]
            else None
      end
  end.

(** [fuel] bounds the rounds of each loop; [fresh] is what the allocated buffer holds. *)
Definition from_quoted_ascii (fuel : nat) (fresh : nat -> list Z) (quoted_ascii_str : list Z)
    : option (list Z) :=
  ptr ← skip_plain fuel quoted_ascii_str;
  b ← ptr !! 0%nat;
  if b =? 0 then Some quoted_ascii_str
  else
    let length := (List.length quoted_ascii_str - List.length ptr)%nat in
    '(length, _) ← unquote fuel ptr length None;
    '(length, buffer) ← unquote fuel quoted_ascii_str length (Some (fresh (length + 1)%nat));
    buffer ← store buffer length [0];
    buffer.

(** The index of the last [c], if any. *)
Fixpoint strrchr (base : list Z) (length : nat) (c : Z) : option (option nat) :=
  match length with
  | O => Some None
  | S length =>
      b ← base !! length;
      if jbyte b =? c then Some (Some length) else strrchr base length c
  end.

Fixpoint equal_loop (base1 base2 : list Z) (length1 : nat) {struct length1} : option bool :=
  match length1 with
  | O => Some true
  | S length1 =>
      match base1, base2 with
      | b1 :: base1, b2 :: base2 =>
          if negb (b1 =? b2) then Some false else equal_loop base1 base2 length1
      | _, _ => None
      end
  end.
Definition equal (base1 : list Z) (length1 : nat) (base2 : list Z) (length2 : nat) : option bool :=
  if negb (length1 =? length2)%nat then Some false else equal_loop base1 base2 length1.

(** ** UNICODE *)

Definition utf8_size (c : Z) : Z :=
  if (0x0001 <=? c) && (c <=? 0x007F) then 1 else if c <=? 0x07FF then 2 else 3.

Fixpoint utf8_length_loop (base : list Z) (result : Z) : Z :=
  match base with
  | [] => result
  | c :: base =>
      utf8_length_loop base
        (if (0x0001 <=? c) && (c <=? 0x007F) then result + 1
         else if c <=? 0x07FF then result + 2 else result + 3)
  end.
Definition utf8_length (base : list Z) : Z := utf8_length_loop base 0.

Fixpoint convert_to_utf8 (base : list Z) : list Z :=
  match base with
  | [] => [0]
  | c :: base => utf8_write c ++ convert_to_utf8 base
  end.

(** [as_utf8(base, length)]: [None] when the assertion on the predicted length fails. *)
Definition as_utf8 (base : list Z) : option (list Z) :=
  let utf8_len := utf8_length base in
  let result := convert_to_utf8 base in
  if Z.of_nat (length result) - 1 =? utf8_len then Some result else None.

(** [as_utf8(base, length, buf, buflen)] *)
Fixpoint as_utf8_loop (base : list Z) (p buflen : Z) : list Z :=
  match base with
  | [] => [0]
  | c :: base =>
      if buflen <=? p + utf8_size c then [0]
      else utf8_write c ++ as_utf8_loop base (p + Z.of_nat (length (utf8_write c))) buflen
  end.
Definition as_utf8_buf (base : list Z) (buflen : Z) : list Z := as_utf8_loop base 0 buflen.

Fixpoint quoted_length_loop (base : list Z) (result : Z) : Z :=
  match base with
  | [] => result
  | c :: base => quoted_length_loop base (if is_printable c then result + 1 else result + 6)
  end.
Definition quoted_ascii_length (base : list Z) : Z := quoted_length_loop base 0.

Fixpoint as_quoted_loop (base : list Z) (p buflen : Z) : list Z :=
  match base with
  | [] => [0]
  | c :: base =>
      match quote c p buflen with
      | None => [0]
      | Some out => out ++ as_quoted_loop base (p + Z.of_nat (length out)) buflen
      end
  end.
Definition as_quoted_ascii (base : list Z) (buflen : Z) : list Z := as_quoted_loop base 0 buflen.

(** ** The encoding *)

(** The byte sequences that stand for one character, in the forms that [next]
    accepts: a form may be longer than needed. *)
Inductive encodes : list Z -> Z -> Prop :=
  | encodes1 b : 0 < b < 128 -> encodes [b] b
  | encodes2 h l : 0 <= h < 32 -> 0 <= l < 64 -> encodes [192 + h; 128 + l] (h * 64 + l)
  | encodes3 h m l : 0 <= h < 16 -> 0 <= m < 64 -> 0 <= l < 64 ->
      encodes [224 + h; 128 + m; 128 + l] ((h * 64 + m) * 64 + l).

(** A string of such sequences and its characters. *)
Inductive decodes : list Z -> list Z -> Prop :=
  | decodes_nil : decodes [] []
  | decodes_cons e c s cs : encodes e c -> decodes s cs -> decodes (e ++ s) (c :: cs).

Lemma u_char_id b : 0 <= b < 256 -> u_char b = b.
Proof. intros. by apply wrap_small. Qed.

Lemma jchar_id c : 0 <= c < 65536 -> jchar c = c.
Proof. intros. by apply wrap_small. Qed.

Lemma jbyte_id b : 0 <= b < 128 -> jbyte b = b.
Proof. intros. apply swrap_small; unfold in_signed; lia. Qed.

Lemma kind_first h : 0 <= h < 128 -> Z.shiftr h 4 < 8.
Proof. intros. rewrite Z.shiftr_div_pow2 by lia. apply Z.div_lt_upper_bound; lia. Qed.

Lemma kind_pair h : 0 <= h < 32 -> Z.shiftr (192 + h) 4 = 12 + h / 16.
Proof.
  intros. rewrite Z.shiftr_div_pow2 by lia. change (2 ^ 4) with 16.
  replace (192 + h) with (12 * 16 + h) by lia. rewrite Z.div_add_l by lia. done.
Qed.

Lemma kind_triple h : 0 <= h < 16 -> Z.shiftr (224 + h) 4 = 14.
Proof.
  intros. rewrite Z.shiftr_div_pow2 by lia. change (2 ^ 4) with 16.
  replace (224 + h) with (14 * 16 + h) by lia. rewrite Z.div_add_l, Z.div_small by lia. done.
Qed.

Lemma continuation_tail l : 0 <= l < 64 ->
  is_continuation (128 + l) = true /\ Z.land (128 + l) 63 = l /\ Z.lor l 128 = 128 + l.
Proof.
  intros Hl. unfold is_continuation. rewrite Z.eqb_eq.
  split; [|split]; by_evaluation 64 l.
Qed.

Lemma head_bits h :
  (0 <= h < 32 -> Z.land (192 + h) 31 = h /\ Z.lor h 192 = 192 + h) /\
  (0 <= h < 16 -> Z.land (224 + h) 15 = h /\ Z.lor h 224 = 224 + h).
Proof.
  split; intros Hh; split; first [by_evaluation 32 h | by_evaluation 16 h].
Qed.

Lemma encodes_bounds e c : encodes e c -> 0 <= c < 65536 /\ Forall (fun b => 0 < b < 256) e.
Proof. intros []; split; try lia; repeat constructor; lia. Qed.

Lemma next_encodes e c rest : encodes e c -> next (e ++ rest) = Some (c, rest).
Proof.
  intros [b Hb|h l Hh Hl|h m l Hh Hm Hl]; unfold next; simpl.
  - pose proof (kind_first b ltac:(lia)).
    repeat (rewrite (proj2 (Z.eqb_neq _ _)) by lia; simpl).
    by rewrite jchar_id by lia.
  - destruct (head_bits h) as [[Hb _] _]; [done|].
    destruct (continuation_tail l Hl) as (Hc & Hm & _).
    rewrite kind_pair, Hc, Hb, Hm by done.
    assert (h / 16 = 0 \/ h / 16 = 1) as [->| ->] by dlia; simpl;
      rewrite Z.shiftl_mul_pow2, (u_char_id h), (u_char_id l), jchar_id by lia; done.
  - destruct (head_bits h) as [_ [Hb _]]; [done|].
    destruct (continuation_tail l Hl) as (Hc & Hml & _).
    destruct (continuation_tail m Hm) as (Hc' & Hmm & _).
    rewrite kind_triple, Hc, Hc', Hb, Hml, Hmm by done. simpl.
    by rewrite !Z.shiftl_mul_pow2, (u_char_id h), (u_char_id m), (u_char_id l), jchar_id by lia.
Qed.

Lemma encodes_pair c :
  0 <= c < 2048 ->
  encodes [u_char (Z.lor (u_char (c / 64)) 192); u_char (Z.lor (u_char (c mod 64)) 128)] c.
Proof.
  intros Hc. assert (0 <= c / 64 < 32 /\ 0 <= c mod 64 < 64) as [Hh Hl] by dlia.
  rewrite (u_char_id (c / 64)), (u_char_id (c mod 64)) by lia.
  destruct (head_bits (c / 64)) as [[_ ->] _]; [done|].
  destruct (continuation_tail _ Hl) as (_ & _ & ->).
  rewrite !u_char_id by lia. rewrite (Z.div_mod c 64) at 3 by lia. rewrite (Z.mul_comm 64).
  by constructor.
Qed.

Lemma encodes_triple c :
  0 <= c < 65536 ->
  encodes [u_char (Z.lor (jbyte (c / 4096)) 224); u_char (Z.lor (jbyte ((c / 64) mod 64)) 128);
           u_char (Z.lor (jbyte (c mod 64)) 128)] c.
Proof.
  intros Hc. assert (0 <= c / 4096 < 16 /\ 0 <= (c / 64) mod 64 < 64 /\ 0 <= c mod 64 < 64)
    as (Hh & Hm & Hl) by dlia.
  rewrite (jbyte_id (c / 4096)), (jbyte_id ((c / 64) mod 64)), (jbyte_id (c mod 64)) by lia.
  destruct (head_bits (c / 4096)) as [_ [_ ->]]; [done|].
  destruct (continuation_tail _ Hl) as (_ & _ & ->), (continuation_tail _ Hm) as (_ & _ & ->).
  rewrite !u_char_id by lia.
  replace c with ((c / 4096 * 64 + (c / 64) mod 64) * 64 + c mod 64) at 4 by dlia.
  by constructor.
Qed.

Lemma utf8_write_encodes c :
  0 <= c < 65536 -> encodes (utf8_write c) c /\ Z.of_nat (length (utf8_write c)) = utf8_size c.
Proof.
  intros Hc. unfold utf8_write, utf8_size.
  rewrite !(Z.land_ones _ 6), !Z.shiftr_div_pow2 by lia. change (2 ^ 6) with 64. change (2 ^ 12) with 4096.
  destruct (Z.leb_spec c 0x7f), (Z.leb_spec c 0x7ff), (Z.eqb_spec c 0), (Z.leb_spec 1 c); try lia; simpl.
  all: split; [| lia]; first [ apply encodes_pair; lia | apply encodes_triple; lia | idtac ].
  rewrite u_char_id by lia. constructor. lia.
Qed.

(** A sequence is one byte that is not a continuation, and continuations. *)
Lemma encodes_shape e c :
  encodes e c -> exists b tl, e = b :: tl /\ is_continuation b = false /\
    Forall (fun b => is_continuation b = true) tl.
Proof.
  assert (forall b, 0 <= b < 128 -> is_continuation b = false) as Hlow.
  { intros b Hb. rewrite <- negb_true_iff. revert b Hb. by apply below_forall. }
  assert (forall b, 0 <= b < 64 -> is_continuation (192 + b) = false) as Hhigh.
  { intros b Hb. rewrite <- negb_true_iff. revert b Hb.
    by apply (below_forall 64 (fun b => negb (is_continuation (192 + b)))). }
  intros [b Hb|h l Hh Hl|h m l Hh Hm Hl]; eexists _, _; (split; [reflexivity|]).
  - split; [apply Hlow; lia | constructor].
  - split; [apply Hhigh; lia |]. repeat constructor. by apply continuation_tail.
  - replace (224 + h) with (192 + (32 + h)) by lia.
    split; [apply Hhigh; lia |]. repeat constructor; by apply continuation_tail.
Qed.

Lemma unicode_length_loop_tail tl s len n :
  Forall (fun b => is_continuation b = true) tl ->
  unicode_length_loop (tl ++ s) (length tl + len) n =
    unicode_length_loop s len (n - Z.of_nat (length tl)).
Proof.
  intros Htl. revert n. induction Htl as [|b tl Hb _ IH]; intros n; simpl.
  - f_equal. lia.
  - rewrite Hb, IH. f_equal. lia.
Qed.

Lemma unicode_strlen_loop_tail tl s n :
  Forall (fun b => is_continuation b = true) tl ->
  unicode_strlen_loop (tl ++ s) n = unicode_strlen_loop s n.
Proof.
  induction 1 as [|b tl Hb _ IH]; simpl; [done|].
  rewrite Hb, <- IH. destruct (Z.eqb_spec b 0) as [->|]; [done | done].
Qed.

Lemma decodes_unicode_length s cs rest n :
  decodes s cs ->
  unicode_length_loop (s ++ rest) (length s) n =
    Some (n - Z.of_nat (length s) + Z.of_nat (length cs)) /\
  unicode_strlen_loop (s ++ 0 :: rest) n = Some (n + Z.of_nat (length cs)).
Proof.
  intros Hd. revert n. induction Hd as [|e c s cs He _ IH]; intros n.
  - simpl. split; f_equal; lia.
  - destruct (encodes_bounds e c He) as [_ Hb].
    destruct (encodes_shape e c He) as (b & tl & -> & Hnb & Htl). simpl.
    rewrite <- !app_assoc, Hnb, unicode_strlen_loop_tail, length_app, unicode_length_loop_tail by done.
    destruct (IH (n - Z.of_nat (length tl))) as [-> _], (IH (n + 1)) as [_ IH2].
    inversion Hb; subst. rewrite (proj2 (Z.eqb_neq b 0)) by lia. simpl. rewrite IH2.
    split; f_equal; lia.
Qed.

Lemma decodes_convert s cs rest :
  decodes s cs -> convert_loop (s ++ rest) (length cs) = Some cs /\
                  convert_to_unicode (s ++ rest) (length cs) = Some cs.
Proof.
  induction 1 as [|e c s cs He Hd [IH1 IH2]]; [done|].
  rewrite <- app_assoc.
  assert (convert_loop (e ++ s ++ rest) (length (c :: cs)) = Some (c :: cs)) as Hloop.
  { simpl. rewrite (next_encodes e c) by done. simpl. by rewrite IH1. }
  split; [done|]. inversion He; subst; simpl.
  - rewrite (proj2 (Z.ltb_ge 127 c)) by lia. by rewrite drop_0, IH2.
  - rewrite (proj2 (Z.ltb_lt 127 _)) by lia. exact Hloop.
  - rewrite (proj2 (Z.ltb_lt 127 _)) by lia. exact Hloop.
Qed.

(** The characters of a Java string. *)
Definition jchars (cs : list Z) : Prop := Forall (fun c => 0 <= c < 65536) cs.

Lemma convert_to_utf8_decodes cs :
  jchars cs -> exists s, convert_to_utf8 cs = s ++ [0] /\ decodes s cs /\
    Z.of_nat (length s) = utf8_length cs.
Proof.
  unfold utf8_length. intros Hcs.
  assert (forall n, exists s, convert_to_utf8 cs = s ++ [0] /\ decodes s cs /\
    n + Z.of_nat (length s) = utf8_length_loop cs n) as H; [| by apply (H 0)].
  induction Hcs as [|c cs Hc _ IH]; intros n.
  - exists []. split; [done|]. split; [constructor | simpl; lia].
  - destruct (utf8_write_encodes c Hc) as [He Hlen].
    destruct (IH (n + utf8_size c)) as (s & Hs & Hd & Hl). exists (utf8_write c ++ s).
    simpl. rewrite Hs, app_assoc. split; [done|]. split; [by constructor|].
    rewrite length_app. unfold utf8_size in *. repeat case_match; lia.
Qed.


(** ** Buffers *)

(** Writing characters one by one until one does not fit before the terminator. *)
Fixpoint fill (w : Z -> list Z) (cs : list Z) (p buflen : Z) : list Z :=
  match cs with
  | [] => [0]
  | c :: cs =>
      if buflen <=? p + Z.of_nat (length (w c)) then [0]
      else w c ++ fill w cs (p + Z.of_nat (length (w c))) buflen
  end.

(** What [fill] writes for the first [k] characters is all of them, and the next one
    did not fit. *)
Definition longest_prefix (w : Z -> list Z) (cs : list Z) (buflen : Z) (written : list Z) : Prop :=
  exists k, (k <= length cs)%nat /\ written = flat_map w (take k cs) ++ [0] /\
    Z.of_nat (length written) <= buflen /\
    ((k < length cs)%nat -> buflen <= Z.of_nat (length (flat_map w (take (S k) cs)))).

Lemma fill_spec w cs p buflen :
  0 <= p < buflen -> exists k, (k <= length cs)%nat /\
    fill w cs p buflen = flat_map w (take k cs) ++ [0] /\
    p + Z.of_nat (length (fill w cs p buflen)) <= buflen /\
    ((k < length cs)%nat -> buflen <= p + Z.of_nat (length (flat_map w (take (S k) cs)))).
Proof.
  revert p. induction cs as [|c cs IH]; intros p Hp; simpl.
  - exists O. simpl. split; [lia|]. split; [done|]. split; lia.
  - destruct (Z.leb_spec buflen (p + Z.of_nat (length (w c)))) as [Hfull|Hfits].
    + exists O. simpl. rewrite ?take_0; simpl; rewrite ?app_nil_r. split; [lia|]. split; [done|]. split; lia.
    + destruct (IH (p + Z.of_nat (length (w c)))) as (k & Hk & Heq & Hlen & Hmax); [lia|].
      exists (S k). simpl. rewrite Heq in *. rewrite <- app_assoc, !length_app in *.
      split; [lia|]. split; [done|]. split; [lia|]. intros Hlt.
      specialize (Hmax ltac:(lia)). simpl in Hmax. lia.
Qed.

Lemma fill_longest w cs buflen : 0 < buflen -> longest_prefix w cs buflen (fill w cs 0 buflen).
Proof. intros. destruct (fill_spec w cs 0 buflen) as (k & ?); [lia | by exists k]. Qed.

Lemma as_utf8_fill cs buflen : jchars cs -> as_utf8_buf cs buflen = fill utf8_write cs 0 buflen.
Proof.
  intros Hcs. unfold as_utf8_buf. generalize 0. induction Hcs as [|c cs Hc _ IH]; intros p; simpl.
  - done.
  - rewrite IH. destruct (utf8_write_encodes c Hc) as [_ ->]. done.
Qed.

(** A quoted character. *)
Definition quoted (c : Z) : list Z := if is_printable c then [c] else sprintf_u04x c.

Lemma quote_quoted c p buflen :
  quote c p buflen =
    if buflen <=? p + Z.of_nat (length (quoted c)) then None else Some (quoted c).
Proof. unfold quote, quoted. by destruct (is_printable c). Qed.

Lemma as_quoted_fill cs buflen : as_quoted_ascii cs buflen = fill quoted cs 0 buflen.
Proof.
  unfold as_quoted_ascii. generalize 0. induction cs as [|c cs IH]; intros p; simpl; [done|].
  rewrite quote_quoted. destruct (_ <=? _); [done | by rewrite IH].
Qed.

Lemma quoted_length_flat_map cs : quoted_ascii_length cs = Z.of_nat (length (flat_map quoted cs)).
Proof.
  unfold quoted_ascii_length.
  assert (forall n, quoted_length_loop cs n = n + Z.of_nat (length (flat_map quoted cs))) as H;
    [| by rewrite H].
  induction cs as [|c cs IH]; intros n; simpl; [lia|].
  rewrite IH, length_app. unfold quoted. case_match; simpl; lia.
Qed.

Lemma utf8_quoted_length_ok fuel s cs rest n :
  decodes s cs -> (length s <= fuel)%nat ->
  utf8_quoted_length_loop fuel (s ++ rest) (Z.of_nat (length s)) n = Some (quoted_length_loop cs n).
Proof.
  intros Hd. revert fuel n. induction Hd as [|e c s cs He _ IH]; intros fuel n Hf.
  - by destruct fuel.
  - assert (0 < length e)%nat by (destruct He; simpl; lia). rewrite length_app in *.
    destruct fuel as [|fuel]; [lia|]. cbn [utf8_quoted_length_loop].
    rewrite (proj2 (Z.ltb_lt _ _)), <- app_assoc, (next_encodes e c) by first [done | lia].
    cbn [mbind option_bind]. rewrite !length_app. 
    replace (Z.of_nat _ - _) with (Z.of_nat (length s)) by lia. apply IH. lia.
Qed.

Lemma utf8_as_quoted_ok fuel s cs rest p buflen :
  decodes s cs -> (length s <= fuel)%nat ->
  utf8_as_quoted_loop fuel (s ++ rest) (Z.of_nat (length s)) p buflen =
    Some (as_quoted_loop cs p buflen).
Proof.
  intros Hd. revert fuel p. induction Hd as [|e c s cs He _ IH]; intros fuel p Hf.
  - by destruct fuel.
  - assert (0 < length e)%nat by (destruct He; simpl; lia). rewrite length_app in *.
    destruct fuel as [|fuel]; [lia|]. cbn [utf8_as_quoted_loop].
    rewrite (proj2 (Z.ltb_lt _ _)), <- app_assoc, (next_encodes e c) by first [done | lia].
    cbn [mbind option_bind as_quoted_loop]. rewrite !length_app.
    destruct (quote c p buflen) as [out|]; [| done].
    replace (Z.of_nat _ - _) with (Z.of_nat (length s)) by lia. rewrite IH by lia. done.
Qed.

Lemma hex_value_digit d v : 0 <= d < 16 -> 0 <= v < 4096 ->
  hex_value (hex_digit d) v = Some (v * 16 + d).
Proof.
  intros Hd Hv. unfold hex_value, hex_digit. rewrite Z.shiftl_mul_pow2 by lia.
  destruct (Z.ltb_spec d 10).
  - rewrite (proj2 (Z.leb_le 48 _)), (proj2 (Z.leb_le _ 57)) by lia. simpl.
    rewrite jchar_id by lia. f_equal. lia.
  - rewrite (proj2 (Z.leb_gt _ 57)) by lia. rewrite andb_false_r.
    rewrite (proj2 (Z.leb_le 97 _)), (proj2 (Z.leb_le _ 102)) by lia. simpl.
    rewrite jchar_id by lia. f_equal. lia.
Qed.

Lemma sprintf_read_back c rest :
  0 <= c < 65536 -> hex_digits 4 (drop 2 (sprintf_u04x c) ++ rest) 0 = Some (c, rest).
Proof.
  intros Hc. unfold sprintf_u04x. simpl.
  rewrite hex_value_digit by dlia. simpl. rewrite hex_value_digit by dlia. simpl.
  rewrite hex_value_digit by dlia. simpl. rewrite hex_value_digit by dlia. simpl.
  do 2 f_equal. dlia.
Qed.

(** The conversions into a caller's buffer write the longest prefix of the string that
    fits with its terminator, cut between characters and never past the buffer: as
    UTF-8 and as quoted ASCII.  The quoted ASCII of a string is the same from its
    UTF-8 as from its characters, has the predicted length, and its escapes are read
    back by the decoder of [from_quoted_ascii]. *)
Theorem buffers_correct cs buflen s rest :
  jchars cs -> 0 < buflen -> decodes s cs ->
  longest_prefix utf8_write cs buflen (as_utf8_buf cs buflen) /\
  longest_prefix quoted cs buflen (as_quoted_ascii cs buflen) /\
  utf8_as_quoted_ascii (s ++ rest) (length s) buflen = Some (as_quoted_ascii cs buflen) /\
  quoted_ascii_length cs = Z.of_nat (length (flat_map quoted cs)) /\
  utf8_quoted_ascii_length (s ++ rest) (length s) = Some (quoted_ascii_length cs) /\
  forall c tl, c ∈ cs -> hex_digits 4 (drop 2 (sprintf_u04x c) ++ tl) 0 = Some (c, tl).
Proof.
  intros Hcs Hb Hd. rewrite as_utf8_fill, as_quoted_fill by done.
  split; [by apply fill_longest|]. split; [by apply fill_longest|].
  split.
  { unfold utf8_as_quoted_ascii. rewrite (utf8_as_quoted_ok _ s cs) by done. simpl.
    fold (as_quoted_ascii cs buflen). rewrite as_quoted_fill.
    destruct (fill_longest quoted cs buflen Hb) as (k & _ & _ & Hlen & _).
    rewrite (proj2 (Z.ltb_lt _ _)) by lia. done. }
  split; [apply quoted_length_flat_map|].
  split; [by apply utf8_quoted_length_ok|].
  intros c tl Hc. apply sprintf_read_back. by eapply Forall_forall in Hcs.
Qed.

(** ** Supplementary characters *)

Lemma utf8_write_triple c :
  0x800 <= c < 65536 -> utf8_write c = [224 + c / 4096; 128 + (c / 64) mod 64; 128 + c mod 64].
Proof.
  intros Hc. destruct (utf8_write_encodes c) as [He Hl]; [lia|]. unfold utf8_size in Hl.
  rewrite (proj2 (Z.leb_gt _ 127)), (proj2 (Z.leb_gt _ 2047)), andb_false_r in Hl by lia.
  revert Hc Hl. destruct He; simpl; intros; try lia. repeat f_equal; dlia.
Qed.

(** The two surrogates of a supplementary character. *)
Definition high_surrogate (cp : Z) : Z := 0xD800 + (cp - 0x10000) / 1024.
Definition low_surrogate (cp : Z) : Z := 0xDC00 + (cp - 0x10000) mod 1024.

Lemma surrogate_bytes x : 0 <= x < 16 ->
  Z.land (160 + x) 240 = 160 /\ Z.land (176 + x) 240 = 176 /\
  Z.land (160 + x) 15 = x /\ Z.land (176 + x) 15 = x.
Proof. intros. repeat split; by_evaluation 16 x. Qed.

Lemma high_surrogate_byte m : 0 <= m < 64 ->
  (Z.land (128 + m) 240 =? 160) = (32 <=? m) && (m <? 48).
Proof.
  intros Hm. apply Bool.eqb_prop. revert m Hm.
  by apply (below_forall 64 (fun m => Bool.eqb (Z.land (128 + m) 240 =? 160) ((32 <=? m) && (m <? 48)))).
Qed.

Lemma surrogates_written cp :
  0x10000 <= cp < 0x110000 ->
  let x := (cp - 0x10000) / 65536 in let y := ((cp - 0x10000) / 1024) mod 64 in
  let z := ((cp - 0x10000) / 64) mod 16 in let w := (cp - 0x10000) mod 64 in
  utf8_write (high_surrogate cp) ++ utf8_write (low_surrogate cp) =
    [0xED; 160 + x; 128 + y; 0xED; 176 + z; 128 + w] /\
  0 <= x < 16 /\ 0 <= y < 64 /\ 0 <= z < 16 /\ 0 <= w < 64 /\
  cp = 0x10000 + x * 65536 + y * 1024 + z * 64 + w.
Proof.
  intros Hcp x y z w. unfold high_surrogate, low_surrogate.
  rewrite !utf8_write_triple by dlia. unfold x, y, z, w. simpl.
  split; [repeat (apply (f_equal2 cons); [dlia |]); reflexivity | dlia].
Qed.

(** [next_character] reads a surrogate pair as the supplementary character it
    stands for, and any character that is not a high surrogate as [next] does. *)
Theorem next_character_correct :
  (forall cp rest, 0x10000 <= cp < 0x110000 ->
    next_character (utf8_write (high_surrogate cp) ++ utf8_write (low_surrogate cp) ++ rest) =
      Some (cp, rest)) /\
  (forall e c rest, encodes e c -> ~ (0xD800 <= c < 0xDC00) ->
    next_character (e ++ rest) = Some (c, rest)).
Proof.
  split.
  - intros cp rest Hcp. rewrite app_assoc.
    destruct (surrogates_written cp Hcp) as (-> & Hx & Hy & Hz & Hw & Heq).
    unfold next_character, is_supplementary_character, get_supplementary_character. simpl.
    destruct (surrogate_bytes _ Hx) as (-> & _ & -> & _).
    destruct (surrogate_bytes _ Hz) as (_ & -> & _ & ->).
    destruct (continuation_tail _ Hy) as (Hcy & -> & _).
    destruct (continuation_tail _ Hw) as (Hcw & -> & _).
    unfold is_continuation in *. rewrite Hcy, Hcw. simpl.
    rewrite !Z.shiftl_mul_pow2 by lia. unfold jint. rewrite swrap_small by (unfold in_signed; lia).
    rewrite drop_0. do 2 f_equal. lia.
  - intros e c rest He Hc. rewrite <- (next_encodes e c rest He).
    unfold next_character.
    assert (is_supplementary_character (e ++ rest) = Some false) as ->; [| done].
    unfold is_supplementary_character.
    destruct He as [b Hb|h l Hh Hl|h m l Hh Hm Hl]; simpl;
      change 255 with (Z.ones 8); rewrite Z.land_ones, Z.mod_small by lia;
      match goal with |- context [?x =? 237] => destruct (Z.eqb_spec x 237) end; try done; try lia.
    rewrite high_surrogate_byte by done.
    destruct (Z.leb_spec 32 m), (Z.ltb_spec m 48); simpl; try done. lia.
Qed.

(** ** Divergence *)

Lemma skip_plain_head fuel b s :
  skip_plain fuel (b :: s) = None \/ skip_plain fuel (b :: s) = Some (b :: s).
Proof. induction fuel as [|fuel IH]; simpl; [by left|]. repeat case_match; auto. Qed.

Lemma unquote_stuck fuel b s length buffer :
  b <> 0 -> b <> 92 -> unquote fuel (b :: s) length buffer = None.
Proof.
  intros H0 H92. revert length buffer. induction fuel as [|fuel IH]; intros length buffer; [done|].
  cbn [unquote]. rewrite (proj2 (Z.eqb_neq b 0)), (proj2 (Z.eqb_neq b 92)) by done. cbn [negb].
  destruct (store buffer length [b]); cbn [mbind option_bind]; [apply IH | done].
Qed.

(** C36.  [from_quoted_ascii] returns for no string but the empty one: neither of its loops
    advances over a character that is not an escape, so no number of rounds is
    enough. *)
Theorem from_quoted_ascii_diverges fuel fresh b s :
  0 <= b < 256 ->
  from_quoted_ascii fuel fresh (b :: s) = (if (b =? 0) && (0 <? fuel)%nat then Some (b :: s) else None).
Proof.
  intros Hb. unfold from_quoted_ascii. destruct fuel as [|fuel].
  { by rewrite andb_false_r. }
  destruct (Z.eqb_spec b 0) as [->|Hnz]; [done|].
  destruct (decide (b = 92)) as [->|H92].
  - assert (forall fuel, skip_plain fuel (92 :: s) = None) as ->; [| done].
    intros n. induction n; done.
  - destruct (skip_plain_head (S fuel) b s) as [->| ->]; [done|].
    cbn [mbind option_bind lookup list_lookup]. rewrite (proj2 (Z.eqb_neq b 0)) by done.
    by rewrite unquote_stuck.
Qed.



Lemma buffers_correct_witness :
  utf8_as_quoted_ascii [65; 195; 169; 66; 0] 4 9 = Some [65; 92; 117; 48; 48; 101; 57; 66; 0].
Proof.
  refine (proj1 (proj2 (proj2 (buffers_correct [65; 233; 66] 9 [65; 195; 169; 66] [0] _ _ _)))).
  - repeat constructor; lia.
  - lia.
  - apply (decodes_cons [65]); [constructor; lia|].
    apply (decodes_cons [195; 169]); [apply (encodes2 3 41); lia|].
    apply (decodes_cons [66]); [constructor; lia | constructor].
Defined.

Lemma from_quoted_ascii_diverges_witness :
  from_quoted_ascii 1000 (fun n => replicate n 0) [65; 0] = None.
Proof. apply (from_quoted_ascii_diverges 1000 _ 65 [0]). lia. Defined.

End Utf8.
