(* ===== verification/ClassFileParser.v ===== *)
(** The format checks of the class file parser (classfile/classFileParser.cpp): the
    legality of UTF-8 constants, of class, field and method names, of field and
    method signatures, and of class, field and method modifiers.

    Strings are as in [Utf8]: a pointer is the list of the bytes from there on.  A
    symbol is the list of its bytes, and its C string ends with a zero.  The two
    methods of java.lang.Character that the parser calls are parameters; [None] is
    an exception thrown by the call. *)
From S2P Require Import Prelude Utf8.
Import Utf8.

Module ClassFileParser.

(** What a check does: return, throw [ClassFormatError], or read outside its
    string. *)
Inductive result (A : Type) : Type :=
  | Ret (a : A)
  | ClassFormatError
  | Undefined.
Arguments Ret {A} a.
Arguments ClassFormatError {A}.
Arguments Undefined {A}.

Definition bind {A B} (r : result A) (k : A -> result B) : result B :=
  match r with Ret a => k a | ClassFormatError => ClassFormatError | Undefined => Undefined end.
Notation "x <- e ;; k" := (bind e (fun x => k)) (at level 100, e at next level, right associativity).

(** A read of memory. *)
Definition read {A} (o : option A) : result A :=
  match o with Some a => Ret a | None => Undefined end.

Definition JAVA_1_5_VERSION : Z := 49.
Definition JAVA_8_VERSION : Z := 52.

Inductive name_kind : Set := LegalClass | LegalField | LegalMethod.

(** [name->as_utf8_flexible_buffer(..)] *)
Definition as_C_string (name : list Z) : list Z := name ++ [0].

(** [vmSymbols::object_initializer_name()] and [class_initializer_name()]: <init>
    and <clinit>. *)
Definition object_initializer_name : list Z := [60; 105; 110; 105; 116; 62].
Definition class_initializer_name : list Z := [60; 99; 108; 105; 110; 105; 116; 62].

Section Parser.
(** The state of the parser the checks read. *)
Context (need_verify relax_verify : bool) (major_version : Z).
Context (isJavaIdentifierStart isJavaIdentifierPart : Z -> option bool).

(** ** UTF-8 constants *)

(** The loop over groups of four ASCII characters. *)
Fixpoint ascii_loop (count : nat) (s : list Z) : result (list Z) :=
  match count with
  | O => Ret s
  | S count =>
      match s with
      | b0 :: b1 :: b2 :: b3 :: rest =>
          let res := u_char (Z.lor b0 (Z.lor (b0 - 1) (Z.lor b1 (Z.lor (b1 - 1)
                       (Z.lor b2 (Z.lor (b2 - 1) (Z.lor b3 (b3 - 1)))))))) in
          if 128 <=? res then Ret s else ascii_loop count rest
      | _ => Undefined
      end
  end.

(** The loop over single characters; [s] holds the bytes from [i] to [length]. *)
Fixpoint utf8_loop (fuel : nat) (s : list Z) : result unit :=
  match s, fuel with
  | [], _ => Ret tt
  | _, O => Undefined
  | b :: rest, S fuel =>
      if b =? 0 then ClassFormatError
      else if b <? 128 then utf8_loop fuel rest
      else
        supplementary <- (if (5 <? length s)%nat then read (is_supplementary_character s)
                          else Ret false) ;;
        if (supplementary : bool) then utf8_loop fuel (drop 6 s)
        else
          let kind := Z.shiftr b 4 in
          if (kind =? 0x8) || (kind =? 0x9) || (kind =? 0xA) || (kind =? 0xB) || (kind =? 0xF)
          then ClassFormatError
          else if (kind =? 0xC) || (kind =? 0xD) then
            let c := jchar (Z.shiftl (Z.land b 0x1F) 6) in
            match rest with
            | b1 :: rest =>
                if is_continuation b1 then
                  let c := jchar (c + Z.land b1 0x3F) in
                  if (major_version <=? 47) || (c =? 0) || (0x80 <=? c) then utf8_loop fuel rest
                  else ClassFormatError
                else ClassFormatError
            | [] => ClassFormatError
            end
          else if kind =? 0xE then
            let c := jchar (Z.shiftl (Z.land b 0xF) 12) in
            match rest with
            | b1 :: b2 :: rest =>
                if is_continuation b1 && is_continuation b2 then
                  let c := jchar (c + (Z.shiftl (Z.land b1 0x3F) 6 + Z.land b2 0x3F)) in
                  if (major_version <=? 47) || (0x800 <=? c) then utf8_loop fuel rest
                  else ClassFormatError
                else ClassFormatError
            | _ => ClassFormatError
            end
          else utf8_loop fuel rest
  end.

Definition verify_legal_utf8 (buffer : list Z) : result unit :=
  s <- ascii_loop (length buffer / 4) buffer ;;
  utf8_loop (length s) s.

(** ** Names *)

(** [left] is [name + length - p]. *)
Fixpoint unqualified_loop (fuel : nat) (p : list Z) (left : Z) (type : name_kind) : result bool :=
  if left =? 0 then Ret true
  else
    match p, fuel with
    | [], _ | _, O => Undefined
    | ch :: rest, S fuel =>
        if ch <? 128 then
          if (ch =? 46 (* '.' *)) || (ch =? 59 (* ';' *)) || (ch =? 91 (* '[' *)) then Ret false
          else if negb (match type with LegalClass => true | _ => false end) && (ch =? 47 (* '/' *))
          then Ret false
          else if (match type with LegalMethod => true | _ => false end) &&
                  ((ch =? 60 (* '<' *)) || (ch =? 62 (* '>' *)))
          then Ret false
          else unqualified_loop fuel rest (left - 1) type
        else
          next <- read (next p) ;;
          unqualified_loop fuel (snd next) (left - Z.of_nat (length p - length (snd next))) type
    end.
Definition verify_unqualified_name (name : list Z) (length : Z) (type : name_kind) : result bool :=
  unqualified_loop (List.length name) name length type.

Definition is_letter (ch : Z) : bool :=
  ((97 <=? ch) && (ch <=? 122)) || ((65 <=? ch) && (ch <=? 90)) ||
  ((ch =? 95 (* '_' *)) || (ch =? 36 (* '$' *))).
Definition is_digit (ch : Z) : bool := (48 <=? ch) && (ch <=? 57).

(** The pointer past the name, or null. *)
Fixpoint field_name_loop (fuel : nat) (p : list Z) (left : Z) (slash_ok last_is_slash not_first_ch : bool)
    : result (option (list Z)) :=
  let stop := Ret (if not_first_ch then Some p else None) in
  if left =? 0 then stop
  else
    match p, fuel with
    | [], _ | _, O => Undefined
    | ch :: rest, S fuel =>
        if ch <? 128 then
          if is_letter ch || (not_first_ch && is_digit ch) then
            field_name_loop fuel rest (left - 1) slash_ok false true
          else if slash_ok && (ch =? 47) then
            if last_is_slash then Ret None
            else field_name_loop fuel rest (left - 1) slash_ok true true
          else stop
        else
          next <- read (next_character p) ;;
          let '(unicode_ch, tmp_p) := next in
          let go_on := field_name_loop fuel tmp_p (left - Z.of_nat (length p - length tmp_p))
                         slash_ok false true in
          match isJavaIdentifierStart unicode_ch with
          | None => Ret None
          | Some true => go_on
          | Some false =>
              if not_first_ch then
                match isJavaIdentifierPart unicode_ch with
                | None => Ret None
                | Some true => go_on
                | Some false => stop
                end
              else stop
          end
    end.
Definition skip_over_field_name (name : list Z) (slash_ok : bool) (length : Z)
    : result (option (list Z)) :=
  field_name_loop (List.length name) name length slash_ok false false.

(** ** Signatures *)

(** The loop over a class name in a descriptor: the pointer to the first [;], or to
    the end. *)
Fixpoint class_name_loop (signature : list Z) (length : Z) : result (list Z) :=
  if 0 <? length then
    match signature with
    | [] => Undefined
    | ch :: rest =>
        if negb (ch =? 59) then
          if ch =? 46 then ClassFormatError else class_name_loop rest (length - 1)
        else Ret signature
    end
  else Ret signature.

Definition is_base_type (ch : Z) : bool :=
  (ch =? 90) || (ch =? 66) || (ch =? 67) || (ch =? 83) || (ch =? 73) || (ch =? 70) ||
  (ch =? 74) || (ch =? 68).   (* Z B C S I F J D *)

Fixpoint field_signature_loop (signature : list Z) (void_ok : bool) (length array_dim : Z)
    : result (option (list Z)) :=
  if 0 <? length then
    match signature with
    | [] => Undefined
    | ch :: rest =>
        if (ch =? 86 (* 'V' *)) && negb void_ok then Ret None
        else if (ch =? 86) || is_base_type ch then Ret (Some rest)
        else if ch =? 76 (* 'L' *) then
          if major_version <? JAVA_1_5_VERSION then
            p <- skip_over_field_name rest true (length - 1) ;;
            match p with
            | Some p =>
                if (1 <? Z.of_nat (List.length signature - List.length p)) then
                  ch <- read (p !! 0%nat) ;; Ret (if ch =? 59 then Some (drop 1 p) else None)
                else Ret None
            | None => Ret None
            end
          else
            signature <- class_name_loop rest (length - 1) ;;
            ch <- read (signature !! 0%nat) ;;
            Ret (if ch =? 59 then Some (drop 1 signature) else None)
        else if ch =? 91 (* '[' *) then
          if 255 <? array_dim + 1 then ClassFormatError
          else field_signature_loop rest false (length - 1) (array_dim + 1)
        else Ret None
    end
  else Ret None.
Definition skip_over_field_signature (signature : list Z) (void_ok : bool) (length : Z)
    : result (option (list Z)) :=
  field_signature_loop signature void_ok length 0.

(** [p - bytes == length] *)
Definition reaches_end (bytes : list Z) (length : Z) (p : option (list Z)) : bool :=
  match p with
  | Some p => Z.of_nat (List.length bytes - List.length p) =? length
  | None => false
  end.

(** [if (!legal) throw] *)
Definition require_legal (legal : bool) : result unit :=
  if legal then Ret tt else ClassFormatError.

Definition verify_legal_class_name (name : list Z) : result unit :=
  if negb need_verify || relax_verify then Ret tt else
  let bytes := as_C_string name in
  let length := Z.of_nat (List.length name) in
  if 0 <? length then
    ch <- read (bytes !! 0%nat) ;;
    if ch =? 91 then
      p <- skip_over_field_signature bytes false length ;; require_legal (reaches_end bytes length p)
    else if major_version <? JAVA_1_5_VERSION then
      if negb (ch =? 60) then
        p <- skip_over_field_name bytes true length ;; require_legal (reaches_end bytes length p)
      else require_legal false
    else legal <- verify_unqualified_name bytes length LegalClass ;; require_legal legal
  else require_legal false.

Definition verify_legal_field_name (name : list Z) : result unit :=
  if negb need_verify || relax_verify then Ret tt else
  let bytes := as_C_string name in
  let length := Z.of_nat (List.length name) in
  if 0 <? length then
    if major_version <? JAVA_1_5_VERSION then
      ch <- read (bytes !! 0%nat) ;;
      if negb (ch =? 60) then
        p <- skip_over_field_name bytes false length ;; require_legal (reaches_end bytes length p)
      else require_legal false
    else legal <- verify_unqualified_name bytes length LegalField ;; require_legal legal
  else require_legal false.

Definition verify_legal_method_name (name : list Z) : result unit :=
  if negb need_verify || relax_verify then Ret tt else
  let bytes := as_C_string name in
  let length := Z.of_nat (List.length name) in
  if 0 <? length then
    ch <- read (bytes !! 0%nat) ;;
    if ch =? 60 then
      require_legal (bool_decide (name = object_initializer_name) ||
                     bool_decide (name = class_initializer_name))
    else if major_version <? JAVA_1_5_VERSION then
      p <- skip_over_field_name bytes false length ;; require_legal (reaches_end bytes length p)
    else legal <- verify_unqualified_name bytes length LegalMethod ;; require_legal legal
  else require_legal false.

Definition verify_legal_field_signature (name signature : list Z) : result unit :=
  if negb need_verify then Ret tt else
  let bytes := as_C_string signature in
  let length := Z.of_nat (List.length signature) in
  p <- skip_over_field_signature bytes false length ;;
  require_legal (reaches_end bytes length p).

(** The loop over the parameters: where it stops, the length left and the size. *)
Fixpoint parameters_loop (fuel : nat) (p : list Z) (length args_size : Z)
    : result (list Z * Z * Z) :=
  nextp <- skip_over_field_signature p false length ;;
  if 0 <? length then
    match nextp, fuel with
    | None, _ => Ret (p, length, args_size)
    | Some _, O => Undefined
    | Some nextp, S fuel =>
        ch <- read (p !! 0%nat) ;;
        let args_size := args_size + 1 in
        let args_size := if (ch =? 74) || (ch =? 68) then args_size + 1 else args_size in
        parameters_loop fuel nextp (length - Z.of_nat (List.length p - List.length nextp)) args_size
    end
  else Ret (p, length, args_size).

(** The number of parameter words, or -2 when nothing is verified. *)
Definition verify_legal_method_signature (name signature : list Z) : result Z :=
  if negb need_verify then Ret (-2) else
  let p := as_C_string signature in
  let length := Z.of_nat (List.length signature) in
  let illegal := ClassFormatError in
  if 0 <? length then
    ch <- read (p !! 0%nat) ;;
    if ch =? 40 (* '(' *) then
      stop <- parameters_loop (List.length signature) (drop 1 p) (length - 1) 0 ;;
      let '(p, length, args_size) := stop in
      if 0 <? length then
        ch <- read (p !! 0%nat) ;;
        if ch =? 41 (* ')' *) then
          let p := drop 1 p in
          let length := length - 1 in
          if match name with c :: _ => c =? 60 | [] => false end then
            if length =? 1 then
              ch <- read (p !! 0%nat) ;; if ch =? 86 then Ret args_size else illegal
            else illegal
          else
            nextp <- skip_over_field_signature p true length ;;
            if reaches_end p length nextp then Ret args_size else illegal
        else illegal
      else illegal
    else illegal
  else illegal.

(** ** Modifiers *)

Definition has_flag (flags mask : Z) : bool := negb (Z.land flags mask =? 0).

Definition has_illegal_visibility (flags : Z) : bool :=
  let is_public := has_flag flags 0x0001 in
  let is_protected := has_flag flags 0x0004 in
  let is_private := has_flag flags 0x0002 in
  (is_public && is_protected) || (is_public && is_private) || (is_protected && is_private).

Definition verify_legal_class_modifiers (flags : Z) : result unit :=
  if negb need_verify then Ret tt else
  let is_interface := has_flag flags 0x0200 in
  let is_abstract := has_flag flags 0x0400 in
  let is_final := has_flag flags 0x0010 in
  let is_super := has_flag flags 0x0020 in
  let is_enum := has_flag flags 0x4000 in
  let is_annotation := has_flag flags 0x2000 in
  let major_gte_15 := JAVA_1_5_VERSION <=? major_version in
  if (is_abstract && is_final) ||
     (is_interface && negb is_abstract) ||
     (is_interface && major_gte_15 && (is_super || is_enum)) ||
     (negb is_interface && major_gte_15 && is_annotation)
  then ClassFormatError else Ret tt.

Definition verify_legal_field_modifiers (flags : Z) (is_interface : bool) : result unit :=
  if negb need_verify then Ret tt else
  let is_public := has_flag flags 0x0001 in
  let is_protected := has_flag flags 0x0004 in
  let is_private := has_flag flags 0x0002 in
  let is_static := has_flag flags 0x0008 in
  let is_final := has_flag flags 0x0010 in
  let is_volatile := has_flag flags 0x0040 in
  let is_transient := has_flag flags 0x0080 in
  let is_enum := has_flag flags 0x4000 in
  let major_gte_15 := JAVA_1_5_VERSION <=? major_version in
  let is_illegal :=
    if is_interface then
      negb is_public || negb is_static || negb is_final || is_private ||
      is_protected || is_volatile || is_transient || (major_gte_15 && is_enum)
    else has_illegal_visibility flags || (is_final && is_volatile) in
  if is_illegal then ClassFormatError else Ret tt.

Definition verify_legal_method_modifiers (flags : Z) (is_interface : bool) (name : list Z)
    : result unit :=
  if negb need_verify then Ret tt else
  let is_public := has_flag flags 0x0001 in
  let is_private := has_flag flags 0x0002 in
  let is_static := has_flag flags 0x0008 in
  let is_final := has_flag flags 0x0010 in
  let is_native := has_flag flags 0x0100 in
  let is_abstract := has_flag flags 0x0400 in
  let is_bridge := has_flag flags 0x0040 in
  let is_strict := has_flag flags 0x0800 in
  let is_synchronized := has_flag flags 0x0020 in
  let is_protected := has_flag flags 0x0004 in
  let major_gte_15 := JAVA_1_5_VERSION <=? major_version in
  let major_gte_8 := JAVA_8_VERSION <=? major_version in
  let is_initializer := bool_decide (name = object_initializer_name) in
  let is_illegal :=
    if is_interface then
      if major_gte_8 then
        Bool.eqb is_public is_private ||
        (is_native || is_protected || is_final || is_synchronized) ||
        (is_abstract && (is_private || is_static || is_strict))
      else if major_gte_15 then
        negb is_public || is_static || is_final || is_synchronized ||
        is_native || negb is_abstract || is_strict
      else negb is_public || is_static || is_final || is_native || negb is_abstract
    else if is_initializer then
      is_static || is_final || is_synchronized || is_native ||
      is_abstract || (major_gte_15 && is_bridge)
    else
      (is_abstract &&
        (is_final || is_native || is_private || is_static ||
         (major_gte_15 && (is_synchronized || is_strict)))) ||
      has_illegal_visibility flags in
  if is_illegal then ClassFormatError else Ret tt.

End Parser.
End ClassFileParser.
