(* ===== verification/ClassFileTheorems.v ===== *)
(** Correctness of the format checks of [ClassFileParser]: the UTF-8 check accepts
    exactly the modified UTF-8 strings, the signature check exactly the grammar of
    method descriptors, the name checks exactly the names without forbidden
    characters, and the modifier checks exclude the combinations they name. *)
From S2P Require Import Prelude Utf8 ClassFileParser.
Import Utf8.
Import ClassFileParser.

Module ClassFileTheorems.

(** ** UTF-8 constants *)

(** From version 48 on a character must have its shortest form, but for 0, which has
    two bytes. *)
Definition shortest (major : Z) (e : list Z) (c : Z) : Prop :=
  47 < major ->
  (length e = 2%nat -> c = 0 \/ 0x80 <= c) /\ (length e = 3%nat -> 0x800 <= c).

Inductive legal_utf8 (major : Z) : list Z -> list Z -> Prop :=
  | legal_nil : legal_utf8 major [] []
  | legal_cons e c s cs : encodes e c -> shortest major e c -> legal_utf8 major s cs ->
      legal_utf8 major (e ++ s) (c :: cs).

Definition legal (major : Z) (s : list Z) : Prop := exists cs, legal_utf8 major s cs.

Definition is_byte (b : Z) : Prop := 0 <= b < 256.

Lemma legal_decodes major s cs : legal_utf8 major s cs -> decodes s cs.
Proof. induction 1; by constructor. Qed.

(** A string starts with the encoding of at most one character. *)
Lemma encodes_unique e1 c1 s1 e2 c2 s2 :
  encodes e1 c1 -> encodes e2 c2 -> e1 ++ s1 = e2 ++ s2 -> e1 = e2 /\ c1 = c2 /\ s1 = s2.
Proof. intros [] []; simpl; intros; simplify_eq; repeat split; try lia; repeat f_equal; lia. Qed.

Lemma legal_app major e c s :
  encodes e c -> shortest major e c -> legal major (e ++ s) <-> legal major s.
Proof.
  intros He Hs. split.
  - intros [cs H]. inversion H as [Hnil|e' c' s' cs' He' _ H' Heq].
    + destruct He; done.
    + destruct (encodes_unique e' c' s' e c s) as (_ & _ & ->); [done | done | done | by exists cs'].
  - intros [cs H]. exists (c :: cs). by constructor.
Qed.

(** What a legal string starts with. *)
Lemma legal_inv major b s :
  legal major (b :: s) ->
  exists e c s', encodes e c /\ shortest major e c /\ b :: s = e ++ s' /\ legal major s'.
Proof.
  intros [cs H]. inversion H as [|e c s' cs' He Hs H' Heq]; subst.
  exists e, c, s'. split; [done|]. split; [done|]. split; [done | by exists cs'].
Qed.

Lemma continuation_range b : is_byte b -> is_continuation b = (128 <=? b) && (b <? 192).
Proof.
  intros Hb. apply Bool.eqb_prop. revert b Hb.
  by apply (below_forall 256 (fun b => Bool.eqb (is_continuation b) ((128 <=? b) && (b <? 192)))).
Qed.

Lemma ascii_bits b :
  is_byte b -> Z.testbit b 7 = false -> Z.testbit (b - 1) 7 = false -> 0 < b < 128.
Proof.
  intros Hb H1 H2.
  pose proof (below_forall 256 (fun b => Z.testbit b 7 || Z.testbit (b - 1) 7 || ((0 <? b) && (b <? 128)))
    ltac:(vm_compute; reflexivity) b Hb) as H. cbv beta in H. rewrite H1, H2 in H. lia.
Qed.

Lemma small_char x : u_char x < 128 -> Z.testbit x 7 = false.
Proof.
  intros H. assert (Z.testbit (u_char x) 7 = Z.testbit x 7) as <- by (unfold u_char; by rewrite wrap_bits).
  apply (testbit_high 7); [| lia]. unfold in_unsigned, u_char in *. pose proof (wrap_range 8 x). 
  unfold in_unsigned in *. lia.
Qed.

Lemma ascii_loop_spec major count s :
  Forall is_byte s -> (4 * count <= length s)%nat ->
  exists s', ascii_loop count s = Ret s' /\ Forall is_byte s' /\ (legal major s <-> legal major s').
Proof.
  revert s. induction count as [|count IH]; intros s Hs Hlen; simpl; [by exists s|].
  destruct s as [|b0 [|b1 [|b2 [|b3 s]]]]; simpl in Hlen; try lia.
  destruct (Z.leb_spec 128 (u_char (Z.lor b0 (Z.lor (b0 - 1) (Z.lor b1 (Z.lor (b1 - 1)
    (Z.lor b2 (Z.lor (b2 - 1) (Z.lor b3 (b3 - 1)))))))))) as [_|Hsmall]; [by exists (b0 :: b1 :: b2 :: b3 :: s)|].
  rewrite !Forall_cons in Hs. destruct Hs as (H0 & H1 & H2 & H3 & Hs).
  destruct (IH s) as (s' & Hloop & Hb & Hiff); [done | lia |].
  exists s'. split; [done|]. split; [done|]. rewrite <- Hiff.
  apply small_char in Hsmall. rewrite !Z.lor_spec in Hsmall.
  assert (0 < b0 < 128 /\ 0 < b1 < 128 /\ 0 < b2 < 128 /\ 0 < b3 < 128) as (?&?&?&?).
  { rewrite !orb_false_iff in Hsmall. destruct Hsmall as (?&?&?&?&?&?&?&?). auto using ascii_bits. }
  assert (forall b, 0 < b < 128 -> forall s, legal major (b :: s) <-> legal major s) as Hascii.
  { intros b Hb0 s0. apply (legal_app major [b] b); [by constructor | intros _; split; done]. }
  by rewrite !Hascii.
Qed.

(** The outcome of a check decides whether a string is legal. *)
Definition verdict (major : Z) (r : result unit) (s : list Z) : Prop :=
  (r = Ret tt /\ legal major s) \/ (r = ClassFormatError /\ ~ legal major s).

Lemma verdict_app major r e c s :
  encodes e c -> shortest major e c -> verdict major r s -> verdict major r (e ++ s).
Proof. intros He Hs. unfold verdict. by rewrite (legal_app major e c s). Qed.

Lemma verdict_illegal major s : ~ legal major s -> verdict major ClassFormatError s.
Proof. by right. Qed.

(** The forms of a legal string that starts with a byte that is not ASCII. *)
Lemma legal_head major b s :
  legal major (b :: s) ->
  0 < b < 128 \/
  (192 <= b < 224 /\ exists l s', s = 128 + l :: s' /\ 0 <= l < 64 /\
     shortest major [b; 128 + l] ((b - 192) * 64 + l)) \/
  (224 <= b < 240 /\ exists m l s', s = 128 + m :: 128 + l :: s' /\ 0 <= m < 64 /\ 0 <= l < 64 /\
     shortest major [b; 128 + m; 128 + l] (((b - 224) * 64 + m) * 64 + l)).
Proof.
  intros (e & c & s' & He & Hs & Heq & _)%legal_inv.
  destruct He as [b' Hb|h l Hh Hl|h m l Hh Hm Hl]; simpl in Heq; injection Heq as -> ->.
  - by left.
  - right; left. split; [lia|]. exists l, s'. replace (192 + h - 192) with h by lia. done.
  - right; right. split; [lia|]. exists m, l, s'. replace (224 + h - 224) with h by lia. done.
Qed.

Lemma supplementary_bytes s :
  Forall is_byte s -> is_supplementary_character s = Some true ->
  exists x y z w s', s = 0xED :: 160 + x :: 128 + y :: 0xED :: 176 + z :: 128 + w :: s' /\
    0 <= x < 16 /\ 0 <= y < 64 /\ 0 <= z < 16 /\ 0 <= w < 64.
Proof.
  intros Hs. unfold is_supplementary_character.
  assert (forall b, is_byte b -> Z.land b 255 = b) as Hff.
  { intros b Hb. change 255 with (Z.ones 8). rewrite Z.land_ones by lia. by apply Z.mod_small. }
  assert (forall b, is_byte b -> (Z.land b 240 =? 16 * (b / 16)) = true) as Hf0.
  { by apply (below_forall 256 (fun b => Z.land b 240 =? 16 * (b / 16))). }
  do 6 (destruct s as [|? s]; [simpl; repeat case_match; done |]).
  rewrite !Forall_cons in Hs. destruct Hs as (H0 & H1 & H2 & H3 & H4 & H5 & _). simpl.
  rewrite !Hff by done.
  pose proof (Hf0 _ H1) as E1. pose proof (Hf0 _ H4) as E4. apply Z.eqb_eq in E1, E4.
  rewrite E1, E4.
  pose proof (continuation_range _ H2) as E2. pose proof (continuation_range _ H5) as E5.
  unfold is_continuation in E2, E5. rewrite E2, E5.
  repeat (case_match; [|done]). intros _.
  match goal with |- exists _ _ _ _ _, ?b0 :: ?b1 :: ?b2 :: ?b3 :: ?b4 :: ?b5 :: ?s' = _ /\ _ =>
    exists (b1 - 160), (b2 - 128), (b4 - 176), (b5 - 128), s' end.
  split; [repeat (apply (f_equal2 cons); [dlia|]); done | dlia].
Qed.

Lemma supplementary_total s : (6 <= length s)%nat -> is_Some (is_supplementary_character s).
Proof.
  intros Hs. do 6 (destruct s as [|? s]; [simpl in Hs; lia|]).
  unfold is_supplementary_character. simpl. repeat case_match; by eexists.
Qed.

Lemma byte_fields b :
  is_byte b -> Z.shiftr b 4 = b / 16 /\ Z.land b 0x1F = b mod 32 /\ Z.land b 0xF = b mod 16 /\
               Z.land b 0x3F = b mod 64.
Proof.
  intros Hb. rewrite Z.shiftr_div_pow2 by lia.
  change 0x1F with (Z.ones 5). change 0xF with (Z.ones 4). change 0x3F with (Z.ones 6).
  by rewrite !Z.land_ones by lia.
Qed.

(** The two multi-byte cases of the loop, given what it does with the rest. *)
Lemma pair_verdict major b s (k : list Z -> result unit) :
  192 <= b < 224 -> Forall is_byte s -> (forall s', (length s' < length s)%nat -> Forall is_byte s' ->
    verdict major (k s') s') ->
  verdict major
    (match s with
     | b1 :: rest =>
         if is_continuation b1 then
           if (major <=? 47) || (jchar (jchar (Z.shiftl (Z.land b 0x1F) 6) + Z.land b1 0x3F) =? 0) ||
              (0x80 <=? jchar (jchar (Z.shiftl (Z.land b 0x1F) 6) + Z.land b1 0x3F))
           then k rest else ClassFormatError
         else ClassFormatError
     | [] => ClassFormatError
     end) (b :: s).
Proof.
  intros Hb Hs Hk.
  destruct s as [|b1 s].
  { apply verdict_illegal. intros [?|[(_ & ? & ? & ? & _)|[? _]]]%legal_head; [lia | done | lia]. }
  apply Forall_cons in Hs as [H1 Hs]. rewrite continuation_range by done.
  destruct (Z.leb_spec 128 b1), (Z.ltb_spec b1 192); simpl;
    try (apply verdict_illegal;
         intros [?|[(_ & l & s' & Heq & ? & _)|[? _]]]%legal_head; [lia | injection Heq; lia | lia]).
  destruct (byte_fields b ltac:(unfold is_byte; lia)) as (_ & -> & _).
  destruct (byte_fields b1 H1) as (_ & _ & _ & ->).
  rewrite Z.shiftl_mul_pow2 by lia. rewrite (jchar_id (b mod 32 * 2 ^ 6)), jchar_id by dlia.
  assert (b mod 32 = b - 192 /\ b1 mod 64 = b1 - 128) as [-> ->] by dlia.
  assert (encodes [b; b1] ((b - 192) * 2 ^ 6 + (b1 - 128))) as He.
  { replace b with (192 + (b - 192)) at 1 by lia. replace b1 with (128 + (b1 - 128)) at 1 by lia.
    apply encodes2; lia. }
  destruct (_ || _) eqn:Hok.
  - apply (verdict_app major (k s) [b; b1] _ s He); [| apply Hk; [simpl; lia | done]].
    intros Hmaj. split; [intros _; lia | done].
  - apply verdict_illegal. intros [?|[(_ & l & s' & Heq & Hl & Hsh)|[? _]]]%legal_head; [lia | | lia].
    injection Heq as -> _. destruct (Hsh ltac:(lia)) as [Hsh' _]. specialize (Hsh' eq_refl). lia.
Qed.

Lemma triple_verdict major b s (k : list Z -> result unit) :
  224 <= b < 240 -> Forall is_byte s -> (forall s', (length s' < length s)%nat -> Forall is_byte s' ->
    verdict major (k s') s') ->
  verdict major
    (match s with
     | b1 :: b2 :: rest =>
         if is_continuation b1 && is_continuation b2 then
           if (major <=? 47) || (0x800 <=? jchar (jchar (Z.shiftl (Z.land b 0xF) 12) +
                (Z.shiftl (Z.land b1 0x3F) 6 + Z.land b2 0x3F)))
           then k rest else ClassFormatError
         else ClassFormatError
     | _ => ClassFormatError
     end) (b :: s).
Proof.
  intros Hb Hs Hk.
  destruct s as [|b1 [|b2 s]];
    try (apply verdict_illegal;
         intros [?|[[? _]|(_ & m & l & s' & Heq & _)]]%legal_head; [lia | lia | done]).
  rewrite !Forall_cons in Hs. destruct Hs as (H1 & H2 & Hs). rewrite !continuation_range by done.
  destruct (Z.leb_spec 128 b1), (Z.ltb_spec b1 192), (Z.leb_spec 128 b2), (Z.ltb_spec b2 192); simpl;
    try (apply verdict_illegal;
         intros [?|[[? _]|(_ & m & l & s' & Heq & ? & ? & _)]]%legal_head; [lia | lia | injection Heq; lia]).
  destruct (byte_fields b ltac:(unfold is_byte; lia)) as (_ & _ & -> & _).
  destruct (byte_fields b1 H1) as (_ & _ & _ & ->), (byte_fields b2 H2) as (_ & _ & _ & ->).
  rewrite !Z.shiftl_mul_pow2 by lia. rewrite (jchar_id (b mod 16 * 2 ^ 12)), jchar_id by dlia.
  assert (b mod 16 = b - 224 /\ b1 mod 64 = b1 - 128 /\ b2 mod 64 = b2 - 128) as (-> & -> & ->) by dlia.
  assert (encodes [b; b1; b2] (((b - 224) * 64 + (b1 - 128)) * 64 + (b2 - 128))) as He.
  { replace b with (224 + (b - 224)) at 1 by lia. replace b1 with (128 + (b1 - 128)) at 1 by lia.
    replace b2 with (128 + (b2 - 128)) at 1 by lia. apply encodes3; lia. }
  destruct (_ || _) eqn:Hok.
  - apply (verdict_app major (k s) [b; b1; b2] _ s He); [| apply Hk; [simpl; lia | done]].
    intros Hmaj. split; [done | intros _; lia].
  - apply verdict_illegal.
    intros [?|[[? _]|(_ & m & l & s' & Heq & Hm & Hl & Hsh)]]%legal_head; [lia | lia |].
    injection Heq as -> -> _. destruct (Hsh ltac:(lia)) as [_ Hsh']. specialize (Hsh' eq_refl). lia.
Qed.

Lemma utf8_loop_spec major fuel s :
  Forall is_byte s -> (length s <= fuel)%nat -> verdict major (utf8_loop major fuel s) s.
Proof.
  revert s. induction fuel as [|fuel IH]; intros [|b s] Hs Hlen; simpl in Hlen; try lia.
  1,2: left; split; [done | by exists []; constructor].
  assert (is_byte b /\ Forall is_byte s) as [Hb Hs'] by by apply Forall_cons.
  cbn [utf8_loop].
  destruct (Z.eqb_spec b 0) as [->|Hnz].
  { apply verdict_illegal. intros [?|[[? _]|[? _]]]%legal_head; lia. }
  unfold is_byte in Hb.
  destruct (Z.ltb_spec b 128) as [Hascii|Hhigh].
  { apply (verdict_app major _ [b] b); [constructor; lia | by intros _ | apply IH; [done | lia]]. }
  assert (exists r, (if (5 <? length (b :: s))%nat then read (is_supplementary_character (b :: s))
    else Ret false) = Ret r /\ (r = true -> is_supplementary_character (b :: s) = Some true)) as (r & -> & Hr).
  { destruct (Nat.ltb_spec 5 (length (b :: s))); [| by exists false].
    destruct (supplementary_total (b :: s)) as [r Hr]; [lia|]. exists r. rewrite Hr. split; [done|].
    by intros ->. }
  cbn [bind]. destruct r.
  - destruct (supplementary_bytes (b :: s)) as (x & y & z & w & s' & Heq & Hx & Hy & Hz & Hw);
      [done | by apply Hr |].
    rewrite Heq in *. cbn [drop].
    apply (verdict_app major _ [0xED; 160 + x; 128 + y] ((13 * 64 + (32 + x)) * 64 + y)).
    { replace (160 + x) with (128 + (32 + x)) by lia. apply (encodes3 13); lia. }
    { intros _. split; [done | intros _; lia]. }
    apply (verdict_app major _ [0xED; 176 + z; 128 + w] ((13 * 64 + (48 + z)) * 64 + w)).
    { replace (176 + z) with (128 + (48 + z)) by lia. apply (encodes3 13); lia. }
    { intros _. split; [done | intros _; lia]. }
    injection Heq as _ ->. rewrite !Forall_cons in Hs'. simpl in Hlen. apply IH; [tauto | lia].
  - destruct (byte_fields b ltac:(unfold is_byte; lia)) as (Hkind & _). rewrite Hkind.
    assert (forall s', (length s' < length s)%nat -> Forall is_byte s' ->
      verdict major (utf8_loop major fuel s') s') as Hk by (intros; apply IH; [done | lia]).
    assert (b / 16 = 8 \/ b / 16 = 9 \/ b / 16 = 10 \/ b / 16 = 11 \/ b / 16 = 15 \/
            192 <= b < 224 /\ (b / 16 = 12 \/ b / 16 = 13) \/ 224 <= b < 240 /\ b / 16 = 14) as Hcase by dlia.
    destruct Hcase as [E|[E|[E|[E|[E|[[Hr' [E|E]]|[Hr' E]]]]]]]; rewrite E; simpl;
      first [ by apply pair_verdict | by apply triple_verdict
            | apply verdict_illegal; intros [?|[[? _]|[? _]]]%legal_head; dlia ].
Qed.

(** C37.  The UTF-8 check terminates on every constant without reading past it, and accepts
    exactly the modified UTF-8: sequences of encoded characters, none of them a zero
    byte, and from class file version 48 on in their shortest forms.  Its loop over
    groups of four ASCII characters and its special case for surrogate pairs change
    nothing. *)
Theorem verify_legal_utf8_correct major buffer :
  Forall is_byte buffer ->
  (verify_legal_utf8 major buffer = Ret tt /\ exists cs, legal_utf8 major buffer cs) \/
  (verify_legal_utf8 major buffer = ClassFormatError /\ ~ exists cs, legal_utf8 major buffer cs).
Proof.
  intros Hb. unfold verify_legal_utf8.
  destruct (ascii_loop_spec major (length buffer / 4) buffer) as (s & -> & Hs & Hiff).
  { done. } { apply Nat.Div0.mul_div_le. }
  cbn [bind]. fold (legal major buffer).
  destruct (utf8_loop_spec major (length s) s) as [[-> ?]|[-> ?]]; [done | lia | left; tauto | right; tauto].
Qed.

(** ** Signatures *)

(** A field type with its number of array dimensions: a base type, L name ; or an
    array. *)
Inductive field_type : nat -> list Z -> Prop :=
  | base_type ch : is_base_type ch = true -> field_type 0 [ch]
  | class_type name : Forall (fun b => b <> 59 /\ b <> 46) name -> field_type 0 (76 :: name ++ [59])
  | array_type n t : field_type n t -> field_type (S n) (91 :: t).

Definition legal_type (t : list Z) : Prop := exists n, (n <= 255)%nat /\ field_type n t.

(** The words a parameter of this type takes. *)
Definition type_words (t : list Z) : Z :=
  if bool_decide (t = [74]) || bool_decide (t = [68]) then 2 else 1.

Definition returns (name r : list Z) : Prop :=
  r = [86] \/ (match name with c :: _ => c <> 60 | [] => True end /\ legal_type r).

(** (parameters)result, and the words of the parameters. *)
Definition method_descriptor (name signature : list Z) (words : Z) : Prop :=
  exists ts r, signature = 40 :: concat ts ++ 41 :: r /\ Forall legal_type ts /\ returns name r /\
    words = foldr (fun t n => type_words t + n) 0 ts.

Lemma field_type_nonempty n t : field_type n t -> (0 < length t)%nat.
Proof. destruct 1; simpl; lia. Qed.

Lemma class_name_complete name rest length :
  Forall (fun b => b <> 59 /\ b <> 46) name -> Z.of_nat (List.length name) < length ->
  class_name_loop (name ++ 59 :: rest) length = Ret (59 :: rest).
Proof.
  intros Hn. revert length. induction Hn as [|b name [Hb1 Hb2] _ IH]; intros len Hlen; simpl in *.
  - by rewrite (proj2 (Z.ltb_lt 0 len)) by lia.
  - rewrite (proj2 (Z.ltb_lt 0 len)), (proj2 (Z.eqb_neq b 59)), (proj2 (Z.eqb_neq b 46)) by lia.
    apply IH. lia.
Qed.

Lemma class_name_sound s length :
  Forall (fun b => b <> 0) s -> length = Z.of_nat (List.length s) ->
  class_name_loop (s ++ [0]) length = ClassFormatError \/
  exists name rest, s = name ++ rest /\ Forall (fun b => b <> 59 /\ b <> 46) name /\
    class_name_loop (s ++ [0]) length = Ret (rest ++ [0]) /\
    match rest with [] => True | b :: _ => b = 59 end.
Proof.
  intros Hs. revert length. induction Hs as [|b s Hb Hs IH]; intros len ->;
    cbn [app class_name_loop List.length].
  - right. by exists [], [].
  - rewrite (proj2 (Z.ltb_lt 0 _)) by lia.
    destruct (Z.eqb_spec b 59) as [->|H59]; simpl; [right; by exists [], (59 :: s)|].
    destruct (Z.eqb_spec b 46) as [->|H46]; [by left|].
    destruct (IH (Z.of_nat (S (List.length s)) - 1)) as [->|(name & rest & -> & Hn & -> & Hr)];
      [lia | by left |].
    right. exists (b :: name), rest. repeat split; try done. by constructor.
Qed.

Section Descriptors.
Context (major : Z) (start part : Z -> option bool).
Hypothesis major_gte_15 : 49 <= major.

#[local] Abbreviation skip := (field_signature_loop major start part).

Lemma base_type_cases ch : is_base_type ch = true ->
  ch = 90 \/ ch = 66 \/ ch = 67 \/ ch = 83 \/ ch = 73 \/ ch = 70 \/ ch = 74 \/ ch = 68.
Proof. unfold is_base_type. lia. Qed.

Lemma skip_complete n t rest void_ok length dim :
  field_type n t -> dim + Z.of_nat n <= 255 -> Z.of_nat (List.length t) <= length ->
  skip (t ++ rest) void_ok length dim = Ret (Some rest).
Proof.
  intros Ht. revert void_ok length dim.
  induction Ht as [ch Hch|name Hn|n t Ht IH]; intros void_ok len dim Hdim Hlen; simpl in *;
    rewrite (proj2 (Z.ltb_lt 0 len)) by lia.
  - apply base_type_cases in Hch. by repeat (destruct Hch as [->|Hch]); [..|rewrite Hch].
  - rewrite (proj2 (Z.ltb_ge major JAVA_1_5_VERSION)) by (unfold JAVA_1_5_VERSION; lia).
    rewrite length_app in Hlen. simpl in Hlen.
    rewrite <- app_assoc. cbn [app]. rewrite class_name_complete by first [done | lia]. done.
  - rewrite (proj2 (Z.ltb_ge 255 _)) by lia. apply IH; lia.
Qed.

(** On a string that ends with its zero, the check stops with a verdict. *)
Lemma skip_sound s void_ok dim :
  Forall (fun b => b <> 0) s -> 0 <= dim <= 255 ->
  let r := skip (s ++ [0]) void_ok (Z.of_nat (length s)) dim in
  r = ClassFormatError \/ r = Ret None \/
  exists t rest, s = t ++ rest /\ r = Ret (Some (rest ++ [0])) /\
    ((void_ok = true /\ t = [86]) \/ exists n, dim + Z.of_nat n <= 255 /\ field_type n t).
Proof.
  intros Hs. revert void_ok dim.
  induction Hs as [|ch s Hch Hs IH]; intros void_ok dim Hdim; cbn [app field_signature_loop List.length].
  - by right; left.
  - rewrite (proj2 (Z.ltb_lt 0 _)) by lia.
    destruct (Z.eqb_spec ch 86) as [->|HV].
    { destruct void_ok; simpl; [| by right; left]. right; right. exists [86], s. auto. }
    cbn [andb orb]. destruct (is_base_type ch) eqn:Hbase.
    { right; right. exists [ch], s. split; [done|]. split; [done|]. right. exists O.
      split; [lia | by constructor]. }
    destruct (Z.eqb_spec ch 76) as [->|HL].
    { rewrite (proj2 (Z.ltb_ge major JAVA_1_5_VERSION)) by (unfold JAVA_1_5_VERSION; lia).
      destruct (class_name_sound s (Z.of_nat (S (List.length s)) - 1)) as [->|(name & rest & -> & Hn & -> & Hr)];
        [done | lia | by left |].
      right. destruct rest as [|b rest]; [by left|]. subst b. right.
      exists (76 :: name ++ [59]), rest. split; [simpl; by rewrite <- app_assoc|]. split; [done|].
      right. exists O. split; [lia | by constructor]. }
    destruct (Z.eqb_spec ch 91) as [->|HA]; [| by right; left].
    destruct (Z.ltb_spec 255 (dim + 1)) as [|Hok]; [by left|].
    replace (Z.of_nat (S (length s)) - 1) with (Z.of_nat (length s)) by lia.
    destruct (IH false (dim + 1)) as [->|[->|(t & rest & -> & -> & [[? _]|(n & Hn & Ht)])]];
      [lia | by left | by right; left | done |].
    right; right. exists (91 :: t), rest. split; [done|]. split; [done|]. right. exists (S n).
    split; [lia | by constructor].
Qed.

#[local] Abbreviation parameters := (parameters_loop major start part).
#[local] Abbreviation words := (foldr (fun t n => type_words t + n) 0).

Lemma type_words_head n ch t :
  field_type n (ch :: t) -> type_words (ch :: t) = if (ch =? 74) || (ch =? 68) then 2 else 1.
Proof.
  unfold type_words. intros Ht. inversion Ht as [? Hch|name Hn|n' t' Ht']; subst; [| done | done].
  apply base_type_cases in Hch. by repeat (destruct Hch as [->|Hch]); [..|rewrite Hch].
Qed.

Lemma parameters_complete ts rest length n fuel :
  Forall legal_type ts -> Z.of_nat (List.length (concat ts)) < length -> (List.length ts <= fuel)%nat ->
  parameters fuel (concat ts ++ 41 :: rest) length n =
    Ret (41 :: rest, length - Z.of_nat (List.length (concat ts)), n + words ts).
Proof.
  intros Hts. revert length n fuel.
  induction Hts as [|t ts (d & Hd & Ht) _ IH]; intros len n fuel Hlen Hfuel.
  - destruct fuel; cbn -[Z.sub Z.add]; rewrite (proj2 (Z.ltb_lt 0 len)) by (simpl in Hlen; lia);
      cbn -[Z.sub Z.add]; do 3 f_equal; simpl; lia.
  - destruct fuel as [|fuel]; [simpl in Hfuel; lia|]. pose proof (field_type_nonempty d t Ht).
    cbn [concat] in *. rewrite length_app in Hlen. cbn [parameters_loop].
    unfold skip_over_field_signature. rewrite <- app_assoc, (skip_complete d) by first [done | lia].
    cbn [bind]. rewrite (proj2 (Z.ltb_lt 0 len)) by lia.
    destruct t as [|ch t]; [simpl in *; lia|]. cbn [app lookup list_lookup read bind].
    rewrite (app_comm_cons t), !length_app. cbn [foldr]. rewrite (type_words_head d ch t Ht), IH by (simpl in *; lia).
    do 2 f_equal; [f_equal; simpl; rewrite ?length_app; lia | case_match; lia].
Qed.

Lemma parameters_sound fuel s n :
  Forall (fun b => b <> 0) s -> (length s <= fuel)%nat ->
  parameters fuel (s ++ [0]) (Z.of_nat (length s)) n = ClassFormatError \/
  exists ts s', s = concat ts ++ s' /\ Forall legal_type ts /\
    parameters fuel (s ++ [0]) (Z.of_nat (length s)) n =
      Ret (s' ++ [0], Z.of_nat (length s'), n + words ts).
Proof.
  intros Hs Hfuel. revert s Hs n Hfuel. induction fuel as [|fuel IH]; intros s Hs n Hfuel.
  { destruct s; [| simpl in Hfuel; lia]. right. exists [], []. simpl. split; [done|]. split; [done|].
    do 2 f_equal. lia. }
  cbn [parameters_loop]. unfold skip_over_field_signature.
  destruct (skip_sound s false 0 Hs) as [->|[->|(t & rest & -> & -> & [[? _]|(d & Hd & Ht)])]];
    [lia | by left | | done |]; cbn [bind].
  { right. exists [], s. split; [done|]. split; [done|]. rewrite Z.add_0_r. by destruct (0 <? _). }
  pose proof (field_type_nonempty d t Ht). apply Forall_app in Hs as [_ Hs].
  destruct t as [|ch t]; [simpl in *; lia|]. rewrite length_app in *. simpl in Hfuel.
  rewrite (proj2 (Z.ltb_lt 0 _)) by (simpl; lia). cbn [app lookup list_lookup read bind].
  replace (Z.of_nat (_ + _) - _) with (Z.of_nat (length rest))
    by (simpl; rewrite !length_app; simpl; lia).
  destruct (IH rest Hs (if (ch =? 74) || (ch =? 68) then n + 1 + 1 else n + 1)) as [->|(ts & s' & -> & Hts & ->)];
    [lia | by left |].
  right. exists ((ch :: t) :: ts), s'. split; [simpl; by rewrite app_assoc|].
  split; [constructor; [exists d; split; [lia | done] | done]|].
  cbn [foldr]. rewrite (type_words_head d ch t Ht). do 2 f_equal. case_match; lia.
Qed.

#[local] Abbreviation verify := (verify_legal_method_signature true major start part).

Lemma descriptor_accepted name s w : method_descriptor name s w -> verify name s = Ret w.
Proof.
  intros (ts & r & -> & Hts & Hr & ->). unfold verify_legal_method_signature, as_C_string.
  cbn [negb]. rewrite (proj2 (Z.ltb_lt 0 _)) by (simpl; lia).
  cbn [app lookup list_lookup read bind Z.eqb Pos.eqb skipn].
  rewrite <- app_assoc. cbn [app List.length]. rewrite !length_app. cbn [List.length].
  assert (length ts <= length (concat ts))%nat.
  { clear -Hts. induction Hts as [|t ts (d & _ & Ht) _ IH]; simpl; [lia|].
    rewrite length_app. pose proof (field_type_nonempty d t Ht). lia. }
  rewrite drop_0, parameters_complete by first [done | lia]. cbn [bind].
  rewrite (proj2 (Z.ltb_lt 0 _)) by lia. cbn [app lookup list_lookup read bind Z.eqb Pos.eqb skipn].
  rewrite drop_0. replace (_ - 1) with (Z.of_nat (length r)) by lia.
  destruct Hr as [->|[Hname (d & Hd & Ht)]].
  - by destruct name as [|c name]; [| destruct (c =? 60)].
  - assert (match name with c :: _ => c =? 60 | [] => false end = false) as ->.
    { destruct name; [done|]. by apply Z.eqb_neq. }
    unfold skip_over_field_signature. rewrite (skip_complete d) by first [done | lia].
    cbn [bind reaches_end]. rewrite length_app, (proj2 (Z.eqb_eq _ _)); [done | simpl; lia].
Qed.

Lemma signature_sound name s :
  Forall (fun b => b <> 0) s ->
  verify name s = ClassFormatError \/ exists w, verify name s = Ret w /\ method_descriptor name s w.
Proof.
  intros Hs. unfold verify_legal_method_signature, as_C_string. cbn [negb].
  destruct s as [|ch s]; [by left|]. rewrite (proj2 (Z.ltb_lt 0 _)) by (simpl; lia).
  cbn [app lookup list_lookup read bind skipn]. rewrite drop_0.
  destruct (Z.eqb_spec ch 40) as [->|]; [| by left]. apply Forall_cons in Hs as [_ Hs].
  replace (Z.of_nat (length (40 :: s)) - 1) with (Z.of_nat (length s)) by (simpl; lia).
  destruct (parameters_sound (length (40 :: s)) s 0 Hs) as [->|(ts & s' & -> & Hts & ->)];
    [simpl; lia | by left |]. cbn [bind].
  destruct s' as [|ch s']; [by left|]. rewrite (proj2 (Z.ltb_lt 0 _)) by (simpl; lia).
  cbn [app lookup list_lookup read bind skipn]. rewrite drop_0.
  destruct (Z.eqb_spec ch 41) as [->|]; [| by left].
  replace (Z.of_nat (length (41 :: s')) - 1) with (Z.of_nat (length s')) by (simpl; lia).
  apply Forall_app in Hs as [_ [_ Hs]%Forall_cons].
  assert (returns name s' -> method_descriptor name (40 :: concat ts ++ 41 :: s') (words ts)) as Hmd
    by (intros; by exists ts, s').
  destruct (match name with c :: _ => c =? 60 | [] => false end) eqn:Hname.
  - destruct (Z.eqb_spec (Z.of_nat (length s')) 1) as [Hlen|]; [| by left].
    destruct s' as [|r [|? ?]]; simpl in Hlen; try lia. cbn [app lookup list_lookup read bind].
    destruct (Z.eqb_spec r 86) as [->|]; [right | by left]. eexists. split; [done|]. apply Hmd. by left.
  - unfold skip_over_field_signature.
    destruct (skip_sound s' true 0 Hs) as [->|[->|(t & rest & -> & -> & Ht)]];
      [lia | by left | by left |]. cbn [bind reaches_end].
    destruct (Z.eqb_spec (Z.of_nat (length ((t ++ rest) ++ [0]) - length (rest ++ [0])))
      (Z.of_nat (length (t ++ rest)))) as [Hlen|]; [| by left].
    assert (rest = []) as -> by (destruct rest; [done | rewrite !length_app in Hlen; simpl in Hlen; lia]).
    rewrite app_nil_r in *. right. eexists. split; [done|]. apply Hmd.
    destruct Ht as [[_ ->]|(n & Hn & Ht)]; [by left | right].
    split; [destruct name; [done | by apply Z.eqb_neq] | exists n; split; [lia | done]].
Qed.

End Descriptors.

(** C38.  From class file version 49 on the check of a method signature accepts exactly the
    method descriptors: field types between parentheses, each with at most 255
    dimensions, then a field type or V (only V for a method whose name starts with
    a less-than sign).  It returns the number of words of the parameters, and it
    terminates with a verdict on every string, never reading past its zero. *)
Theorem method_signature_correct major start part name signature :
  49 <= major -> Forall (fun b => b <> 0) signature ->
  let verify := verify_legal_method_signature true major start part name signature in
  (exists words, verify = Ret words /\ method_descriptor name signature words) \/
  (verify = ClassFormatError /\ forall words, ~ method_descriptor name signature words).
Proof.
  intros Hmaj Hs verify. unfold verify.
  destruct (signature_sound major start part Hmaj name signature Hs) as [Herr|Hok]; [right | by left].
  split; [done|]. intros w Hw. apply (descriptor_accepted major start part Hmaj) in Hw. by rewrite Hw in Herr.
Qed.

(** ** Names *)

(** The characters an unqualified name of this kind may contain. *)
Definition allowed (type : name_kind) (c : Z) : bool :=
  negb (bool_decide (c ∈ match type with
    | LegalClass => [46; 59; 91]           (* . ; [ *)
    | LegalField => [46; 59; 91; 47]       (* . ; [ / *)
    | LegalMethod => [46; 59; 91; 47; 60; 62] (* . ; [ / < > *)
    end)).

(** The Java identifiers in ASCII. *)
Definition java_identifier (s : list Z) : bool :=
  match s with
  | [] => false
  | c :: s => is_letter c && forallb (fun c => is_letter c || is_digit c) s
  end.

Lemma allowed_high type c : 128 <= c -> allowed type c = true.
Proof.
  intros Hc. unfold allowed. rewrite bool_decide_eq_false_2; [done|].
  destruct type; rewrite !elem_of_cons, elem_of_nil; lia.
Qed.

Lemma allowed_ascii type c :
  allowed type c =
    negb ((c =? 46) || (c =? 59) || (c =? 91)) &&
    negb (negb (match type with LegalClass => true | _ => false end) && (c =? 47)) &&
    negb ((match type with LegalMethod => true | _ => false end) && ((c =? 60) || (c =? 62))).
Proof.
  unfold allowed.
  destruct type; (case_bool_decide as H; rewrite !elem_of_cons, elem_of_nil in H; lia).
Qed.

Lemma unqualified_loop_spec major type s cs rest fuel :
  49 <= major -> legal_utf8 major s cs -> (length s <= fuel)%nat ->
  unqualified_loop fuel (s ++ rest) (Z.of_nat (length s)) type = Ret (forallb (allowed type) cs).
Proof.
  intros Hmaj Hs. revert fuel. induction Hs as [|e c s cs He Hsh _ IH]; intros fuel Hfuel.
  { by destruct fuel. }
  assert (0 < length e)%nat by (destruct He; simpl; lia). rewrite length_app in *.
  destruct fuel as [|fuel]; [lia|]. cbn [unqualified_loop forallb].
  rewrite (proj2 (Z.eqb_neq _ 0)) by lia.
  destruct (decide (length e = 1%nat)) as [Hone|Hmore].
  - destruct He as [b Hb| |]; [| done | done]. cbn [app].
    rewrite (proj2 (Z.ltb_lt b 128)), allowed_ascii by lia.
    destruct ((b =? 46) || (b =? 59) || (b =? 91)), (negb _ && (b =? 47)),
      (_ && ((b =? 60) || (b =? 62))); try done. simpl.
    rewrite <- (IH fuel) by (simpl in Hfuel; lia). f_equal. lia.
  - assert (128 <= c \/ c = 0) as Hc.
    { destruct (Hsh ltac:(lia)). destruct He; simpl in *; lia. }
    assert (exists b tl, e = b :: tl /\ 128 <= b) as (b & tl & -> & Hb).
    { destruct He; [done | eexists _, _; split; [done | lia] | eexists _, _; split; [done | lia]]. }
    rewrite <- app_assoc. cbn [app]. rewrite (proj2 (Z.ltb_ge b 128)) by lia.
    change (b :: tl ++ s ++ rest) with ((b :: tl) ++ s ++ rest).
    rewrite (next_encodes _ c) by done. cbn [read bind snd]. rewrite !length_app.
    replace (Z.of_nat _ - _) with (Z.of_nat (length s)) by (simpl in *; lia).
    rewrite IH by (simpl in *; lia). f_equal.
    destruct Hc as [Hc| ->]; [by rewrite allowed_high|]. by destruct type.
Qed.

Lemma field_name_ascii start part s fuel rest last_is_slash :
  Forall (fun b => 0 < b < 128) s -> (length s <= fuel)%nat ->
  exists p, field_name_loop start part fuel (s ++ rest) (Z.of_nat (length s)) false last_is_slash true =
    Ret (Some p) /\
    (length rest <= length p)%nat /\
    ((length p = length rest) <-> forallb (fun c => is_letter c || is_digit c) s = true).
Proof.
  intros Hs. revert fuel last_is_slash. induction Hs as [|c s Hc Hs IH]; intros fuel ls Hfuel.
  { exists rest. by destruct fuel. }
  destruct fuel as [|fuel]; [simpl in Hfuel; lia|]. cbn [app field_name_loop].
  rewrite (proj2 (Z.eqb_neq _ 0)), (proj2 (Z.ltb_lt c 128)) by (simpl; lia). cbn [andb forallb].
  destruct (is_letter c || is_digit c); simpl.
  - replace (Z.of_nat (S (length s)) - 1) with (Z.of_nat (length s)) by lia. apply IH. simpl in Hfuel. lia.
  - eexists. split; [done|]. simpl. rewrite length_app. split; [lia|]. split; [lia | done].
Qed.

Lemma field_name_identifier start part s :
  Forall (fun b => 0 < b < 128) s -> s <> [] ->
  exists p, skip_over_field_name start part (s ++ [0]) false (Z.of_nat (length s)) = Ret p /\
    reaches_end (s ++ [0]) (Z.of_nat (length s)) p = java_identifier s.
Proof.
  intros Hs Hne. destruct Hs as [|c s Hc Hs]; [done|]. unfold skip_over_field_name.
  cbn [app List.length field_name_loop].
  rewrite (proj2 (Z.eqb_neq _ 0)), (proj2 (Z.ltb_lt c 128)) by lia.
  cbn [andb java_identifier]. rewrite orb_false_r. destruct (is_letter c); [| by exists None].
  replace (Z.of_nat (S (length s)) - 1) with (Z.of_nat (length s)) by lia.
  destruct (field_name_ascii start part s (length (s ++ [0])) [0] false Hs) as (p & -> & Hle & Hp).
  { rewrite length_app. lia. }
  exists (Some p). split; [done|]. cbn [reaches_end andb]. simpl in *. rewrite length_app. simpl.
  destruct (forallb _ s) eqn:Hall.
  - apply Z.eqb_eq. destruct Hp as [_ Hp]. rewrite (Hp eq_refl). simpl. lia.
  - apply Z.eqb_neq. intros Heq. destruct Hp as [Hp _]. 
    destruct (decide (length p = 1%nat)) as [E|E]; [by specialize (Hp E) | lia].
Qed.

(** The checks of names that are legal UTF-8.  From version 49 on a field name is
    legal when it is not empty and contains none of the characters . ; [ /, a method
    name also no angle bracket unless it is <init> or <clinit>, and a class name that
    is not an array may contain slashes.  Before version 49 an ASCII field name is
    legal exactly when it is a Java identifier. *)
Theorem legal_names_correct major start part s cs :
  legal_utf8 major s cs ->
  (49 <= major ->
    verify_legal_field_name true false major start part s =
      require_legal (bool_decide (s <> []) && forallb (allowed LegalField) cs) /\
    verify_legal_method_name true false major start part s =
      require_legal (match s with
        | [] => false
        | 60 :: _ => bool_decide (s = object_initializer_name) || bool_decide (s = class_initializer_name)
        | _ => forallb (allowed LegalMethod) cs end) /\
    (hd 0 s <> 91 ->
      verify_legal_class_name true false major start part s =
        require_legal (bool_decide (s <> []) && forallb (allowed LegalClass) cs))) /\
  (major < 49 -> Forall (fun b => b < 128) s ->
    verify_legal_field_name true false major start part s = require_legal (java_identifier s)).
Proof.
  intros Hs. unfold verify_legal_field_name, verify_legal_method_name, verify_legal_class_name.
  cbn [negb orb]. unfold as_C_string. split.
  - intros Hmaj. rewrite (proj2 (Z.ltb_ge major JAVA_1_5_VERSION)) by (unfold JAVA_1_5_VERSION; lia).
    unfold verify_unqualified_name.
    assert (forall type, unqualified_loop (length (s ++ [0])) (s ++ [0]) (Z.of_nat (length s)) type =
      Ret (forallb (allowed type) cs)) as Hloop.
    { intros type. apply (unqualified_loop_spec major); [done | done | rewrite length_app; lia]. }
    rewrite !Hloop. destruct s as [|b s]; [done|].
    rewrite !(proj2 (Z.ltb_lt 0 _)) by (simpl; lia). cbn [app lookup list_lookup read bind].
    split; [done|]. split.
    + destruct (Z.eqb_spec b 60) as [->|Hb]; [done|].
      destruct b as [|p|p]; try done.
      repeat (destruct p as [p|p|]; try done).
    + intros Hb. cbn [hd] in Hb. rewrite (proj2 (Z.eqb_neq b 91)) by done. done.
  - intros Hmaj Hascii. rewrite (proj2 (Z.ltb_lt major JAVA_1_5_VERSION)) by (unfold JAVA_1_5_VERSION; lia).
    destruct s as [|b s]; [done|]. rewrite (proj2 (Z.ltb_lt 0 _)) by (simpl; lia).
    destruct (field_name_identifier start part (b :: s)) as (p & Hp & Hend); [| done |].
    { apply legal_decodes in Hs. clear -Hs Hascii. apply Forall_and. split; [| done].
      clear Hascii. induction Hs as [|e c s' cs He _ IH]; [done|]. apply Forall_app. split; [| done].
      apply encodes_bounds in He as [_ He]. eapply Forall_impl; [exact He | simpl; lia]. }
    change (((b :: s) ++ [0]) !! 0%nat) with (Some b). cbn [read bind]. rewrite Hp. cbn [bind].
    rewrite Hend.
    destruct (Z.eqb_spec b 60) as [->|]; done.
Qed.

(** ** Modifiers *)

(** Case analysis on the flags of an accepted combination. *)
Ltac flag_cases H :=
  repeat match type of H with
    | context [has_flag ?flags ?k] => destruct (has_flag flags k) eqn:?; simpl in H; try discriminate H
    end.

(** At most one of public, protected and private. *)
Definition one_visibility (flags : Z) : Prop :=
  (has_flag flags 1 = true -> has_flag flags 4 = false /\ has_flag flags 2 = false) /\
  (has_flag flags 4 = true -> has_flag flags 2 = false).

Lemma visibility_legal flags : has_illegal_visibility flags = false <-> one_visibility flags.
Proof.
  unfold has_illegal_visibility, one_visibility.
  destruct (has_flag flags 1), (has_flag flags 4), (has_flag flags 2); simpl; naive_solver.
Qed.

(** Every combination of modifiers that the checks accept satisfies the rules of the
    Java Virtual Machine for it: a class is not both abstract and final, an interface
    is abstract; a field of an interface is public, static and final and no other
    field is both final and volatile; an abstract method is not final, native,
    private or static; a method of an interface is public and abstract, or from
    version 52 on public or private but not both, and never final or native; and
    fields and methods that are not constructors have at most one visibility. *)
Theorem modifiers_correct major flags name :
  (verify_legal_class_modifiers true major flags = Ret tt ->
    (has_flag flags 0x400 && has_flag flags 0x10 = false) /\
    (has_flag flags 0x200 = true -> has_flag flags 0x400 = true)) /\
  (forall is_interface, verify_legal_field_modifiers true major flags is_interface = Ret tt ->
    one_visibility flags /\ has_flag flags 0x10 && has_flag flags 0x40 = false /\
    (is_interface = true ->
      has_flag flags 1 = true /\ has_flag flags 8 = true /\ has_flag flags 0x10 = true)) /\
  (forall is_interface, verify_legal_method_modifiers true major flags is_interface name = Ret tt ->
    (has_flag flags 0x400 = true -> has_flag flags 0x10 = false /\ has_flag flags 0x100 = false /\
      has_flag flags 8 = false /\ (is_interface = false \/ 52 <= major -> has_flag flags 2 = false)) /\
    (is_interface = true -> has_flag flags 0x10 = false /\ has_flag flags 0x100 = false /\
      (major < 52 -> has_flag flags 1 = true /\ has_flag flags 0x400 = true) /\
      (52 <= major -> has_flag flags 1 = negb (has_flag flags 2) /\ one_visibility flags)) /\
    (is_interface = false -> name <> object_initializer_name -> one_visibility flags)).
Proof.
  unfold verify_legal_class_modifiers, verify_legal_field_modifiers, verify_legal_method_modifiers,
    JAVA_1_5_VERSION, JAVA_8_VERSION. cbn [negb].
  split; [| split].
  - destruct (_ || _) eqn:H; [done|]. intros _. flag_cases H; done.
  - intros is_interface. destruct (if is_interface then _ else _) eqn:H; [done|]. intros _.
    rewrite <- visibility_legal. unfold has_illegal_visibility in *.
    destruct is_interface; flag_cases H; done.
  - intros is_interface. destruct (if is_interface then _ else _) eqn:H; [done|]. intros _.
    rewrite <- !visibility_legal. unfold has_illegal_visibility in *.
    destruct is_interface; [destruct (Z.leb_spec 52 major); [| destruct (49 <=? major)] |
      case_bool_decide; [| destruct (49 <=? major)]]; flag_cases H; simpl; naive_solver lia.
Qed.

(** Nothing checks the visibility of constructors, nor of interface methods before
    version 52: public and private together are accepted. *)
Theorem visibility_unchecked major :
  verify_legal_method_modifiers true major 0x3 false object_initializer_name = Ret tt /\
  (major < 52 -> verify_legal_method_modifiers true major 0x403 true [109] = Ret tt).
Proof.
  unfold verify_legal_method_modifiers, JAVA_1_5_VERSION, JAVA_8_VERSION. split.
  - cbn -[Z.leb]. by rewrite andb_false_r.
  - intros Hmaj. cbn -[Z.leb]. rewrite (proj2 (Z.leb_gt 52 major)) by done. by destruct (49 <=? major).
Qed.

Lemma verify_legal_utf8_correct_witness :
  verify_legal_utf8 52 [77; 195; 169; 0xED; 0xA0; 0x80; 0xED; 0xB0; 0x80] = Ret tt /\
  exists cs, legal_utf8 52 [77; 195; 169; 0xED; 0xA0; 0x80; 0xED; 0xB0; 0x80] cs.
Proof.
  destruct (verify_legal_utf8_correct 52 [77; 195; 169; 0xED; 0xA0; 0x80; 0xED; 0xB0; 0x80]) as [H|[H _]];
    [repeat constructor; lia | exact H | vm_compute in H; discriminate H].
Defined.

(** The signature (J[Lx;)V has three words of parameters. *)
Lemma method_signature_correct_witness :
  exists words, verify_legal_method_signature true 52 (fun _ => Some true) (fun _ => Some true)
      [102] [40; 74; 91; 76; 120; 59; 41; 86] = Ret words /\
    method_descriptor [102] [40; 74; 91; 76; 120; 59; 41; 86] words.
Proof.
  destruct (method_signature_correct 52 (fun _ => Some true) (fun _ => Some true)
    [102] [40; 74; 91; 76; 120; 59; 41; 86]) as [H|[H _]];
    [lia | repeat constructor; lia | exact H | vm_compute in H; discriminate H].
Defined.

Lemma legal_names_correct_witness :
  verify_legal_field_name true false 52 (fun _ => None) (fun _ => None) [97; 195; 169] = Ret tt.
Proof.
  refine (proj1 (proj1 (legal_names_correct 52 _ _ [97; 195; 169] [97; 233] _) _)); [| lia].
  apply (legal_cons 52 [97]); [constructor; lia | intros _; split; done |].
  apply (legal_cons 52 [195; 169] 233 []); [apply (encodes2 3 41); lia | intros _; split; [lia | done] |].
  constructor.
Defined.

Lemma modifiers_correct_witness :
  has_flag 0x401 0x10 = false /\ has_flag 0x401 0x100 = false.
Proof.
  destruct (proj1 (proj2 (proj2 (modifiers_correct 52 0x401 [109])) true eq_refl) eq_refl) as (H1 & H2 & _).
  exact (conj H1 H2).
Defined.

End ClassFileTheorems.
