(* ===== verification/TaskQueue.v ===== *)
(** The work-stealing queue of the parallel collectors (utilities/taskqueue.hpp,
    taskqueue.cpp): [TaskQueueSuper], [GenericTaskQueue], [OverflowTaskQueue] and the
    random choice of a victim.

    One owner thread pushes and pops at the bottom of the queue, and any number of
    other threads steal from its top, with no lock.  Each method is a sequence of
    atomic accesses to the shared fields; a program counter says which access is
    next and holds the values of the local variables, and [owner_step] and
    [thief_step] perform it.  An execution interleaves the steps of all threads in
    any order; memory is sequentially consistent, which is what the fences of the
    code establish for the accesses that need it.  The array is a function from
    indices to elements. *)
From S2P Require Import Prelude.

Module TaskQueue.

Section Queue.
(** The template parameters: the element type and the size of the array. *)
Context {E : Type} (N : Z).

(** ** TaskQueueSuper *)

Definition MOD_N_MASK : Z := N - 1.

Definition increment_index (ind : Z) : Z := Z.land (wrap 32 (ind + 1)) MOD_N_MASK.
Definition decrement_index (ind : Z) : Z := Z.land (wrap 32 (ind - 1)) MOD_N_MASK.
Definition dirty_size (bot top : Z) : Z := Z.land (wrap 32 (bot - top)) MOD_N_MASK.
Definition size (bot top : Z) : Z :=
  let sz := dirty_size bot top in if sz =? N - 1 then 0 else sz.
Definition max_elems : Z := N - 2.

(** The two halves of the word that is compared and swapped. *)
Record Age : Set := mkAge { _top : Z; _tag : Z }.

Definition increment (age : Age) : Age :=
  let top := increment_index (_top age) in
  mkAge top (if top =? 0 then wrap 32 (_tag age + 1) else _tag age).

Definition age_eqb (a b : Age) : bool := (_top a =? _top b) && (_tag a =? _tag b).

Record TaskQueue : Type := mkTaskQueue { _bottom : Z; _age : Age; _elems : Z -> E }.

Definition set_bottom (q : TaskQueue) (b : Z) : TaskQueue := mkTaskQueue b (_age q) (_elems q).
Definition set_age (q : TaskQueue) (a : Age) : TaskQueue := mkTaskQueue (_bottom q) a (_elems q).
Definition set_elem (q : TaskQueue) (i : Z) (t : E) : TaskQueue :=
  mkTaskQueue (_bottom q) (_age q) (fun j => if j =? i then t else _elems q j).

Definition peek (q : TaskQueue) : bool := negb (_bottom q =? _top (_age q)).
Definition is_empty (q : TaskQueue) : bool := size (_bottom q) (_top (_age q)) =? 0.
Definition set_empty (q : TaskQueue) : TaskQueue := mkTaskQueue 0 (mkAge 0 0) (_elems q).

(** [Age::cmpxchg]: the value found, and the queue after it. *)
Definition age_cmpxchg (q : TaskQueue) (new_age old_age : Age) : Age * TaskQueue :=
  (_age q, if age_eqb (_age q) old_age then set_age q new_age else q).

(** ** GenericTaskQueue *)

(** What the owner's last call returned. *)
Inductive returned : Type :=
  | Nothing
  | Pushed (ok : bool)
  | Popped (t : option E).

(** Where the owner is: between calls, or before the access named. *)
Inductive owner_pc : Type :=
  | Idle (r : returned)
  | PushReadBottom (t : E)
  | PushReadTop (t : E) (localBot : Z)
  | PushSlowReadBottom (t : E)
  | PushWriteElem (t : E) (localBot : Z)
  | PushWriteBottom (t : E) (localBot : Z)
  | PopReadBottom
  | PopReadTop (localBot : Z)
  | PopWriteBottom (localBot : Z)
  | PopReadElem (localBot : Z)
  | PopReadTop2 (localBot : Z) (t : E)
  | PopReadAge (localBot : Z) (t : E)
  | PopCas (localBot : Z) (t : E) (oldAge : Age)
  | PopCheckWon (localBot : Z) (t : E)
  | PopWriteAge (localBot : Z) (oldAge : Age)
  | PopCheckLost (localBot : Z)
  | OwnerFailed.

Inductive thief_pc : Type :=
  | StealIdle (r : option E)
  | StealReadAge
  | StealReadBottom (oldAge : Age)
  | StealReadElem (oldAge : Age) (localBot : Z)
  | StealCas (oldAge : Age) (localBot : Z) (t : E)
  | ThiefFailed.

(** What a step does to the queue seen as a sequence of tasks. *)
Inductive event : Type :=
  | Silent
  | EvPush (t : E)
  | EvFull
  | EvPop (t : E)
  | EvEmpty
  | EvSteal (t : E).

(** [push_slow] from its call to its first access. *)
Definition push_slow (q : TaskQueue) (t : E) (dirty_n_elems : Z)
    : option (TaskQueue * owner_pc * event) :=
  if dirty_n_elems =? N - 1 then Some (q, PushSlowReadBottom t, Silent)
  else Some (q, Idle (Pushed false), EvFull).

(** [pop_local_slow], one access at a time; its argument [oldAge] is read by the call. *)
Definition pop_local_slow (q : TaskQueue) (pc : owner_pc) : option (TaskQueue * owner_pc * event) :=
  match pc with
  | PopReadAge localBot t =>
      let oldAge := _age q in
      if localBot =? _top oldAge then Some (q, PopCas localBot t oldAge, Silent)
      else Some (q, PopWriteAge localBot oldAge, Silent)
  | PopCas localBot t oldAge =>
      let newAge := mkAge localBot (wrap 32 (_tag oldAge + 1)) in
      let '(tempAge, q) := age_cmpxchg q newAge oldAge in
      if age_eqb tempAge oldAge then Some (q, PopCheckWon localBot t, EvPop t)
      else Some (q, PopWriteAge localBot oldAge, Silent)
  | PopCheckWon localBot t =>
      if dirty_size localBot (_top (_age q)) =? N - 1 then Some (q, OwnerFailed, Silent)
      else Some (q, Idle (Popped (Some t)), Silent)
  | PopWriteAge localBot oldAge =>
      Some (set_age q (mkAge localBot (wrap 32 (_tag oldAge + 1))), PopCheckLost localBot, EvEmpty)
  | PopCheckLost localBot =>
      if dirty_size localBot (_top (_age q)) =? N - 1 then Some (q, OwnerFailed, Silent)
      else Some (q, Idle (Popped None), Silent)
  | _ => None
  end.

(** [push] and [pop_local] with the slow paths they call, one access at a time. *)
Definition owner_step (q : TaskQueue) (pc : owner_pc) : option (TaskQueue * owner_pc * event) :=
  match pc with
  | Idle _ | OwnerFailed => None
  | PushReadBottom t =>
      let localBot := _bottom q in
      if negb (localBot <? N) then Some (q, OwnerFailed, Silent)
      else Some (q, PushReadTop t localBot, Silent)
  | PushReadTop t localBot =>
      let dirty_n_elems := dirty_size localBot (_top (_age q)) in
      if negb (dirty_n_elems <? N) then Some (q, OwnerFailed, Silent)
      else if dirty_n_elems <? max_elems then Some (q, PushWriteElem t localBot, Silent)
      else push_slow q t dirty_n_elems
  | PushSlowReadBottom t => Some (q, PushWriteElem t (_bottom q), Silent)
  | PushWriteElem t localBot => Some (set_elem q localBot t, PushWriteBottom t localBot, Silent)
  | PushWriteBottom t localBot =>
      Some (set_bottom q (increment_index localBot), Idle (Pushed true), EvPush t)
  | PopReadBottom => Some (q, PopReadTop (_bottom q), Silent)
  | PopReadTop localBot =>
      let dirty_n_elems := dirty_size localBot (_top (_age q)) in
      if dirty_n_elems =? N - 1 then Some (q, OwnerFailed, Silent)
      else if dirty_n_elems =? 0 then Some (q, Idle (Popped None), EvEmpty)
      else Some (q, PopWriteBottom (decrement_index localBot), Silent)
  | PopWriteBottom localBot => Some (set_bottom q localBot, PopReadElem localBot, Silent)
  | PopReadElem localBot => Some (q, PopReadTop2 localBot (_elems q localBot), Silent)
  | PopReadTop2 localBot t =>
      let tp := _top (_age q) in
      if 0 <? size localBot tp then
        if dirty_size localBot tp =? N - 1 then Some (q, OwnerFailed, Silent)
        else Some (q, Idle (Popped (Some t)), EvPop t)
      else Some (q, PopReadAge localBot t, Silent)
  | PopReadAge _ _ | PopCas _ _ _ | PopCheckWon _ _ | PopWriteAge _ _ | PopCheckLost _ =>
      pop_local_slow q pc
  end.

(** [pop_global], one access at a time. *)
Definition thief_step (q : TaskQueue) (pc : thief_pc) : option (TaskQueue * thief_pc * event) :=
  match pc with
  | StealIdle _ | ThiefFailed => None
  | StealReadAge => Some (q, StealReadBottom (_age q), Silent)
  | StealReadBottom oldAge =>
      let localBot := _bottom q in
      let n_elems := size localBot (_top oldAge) in
      if n_elems =? 0 then Some (q, StealIdle None, Silent)
      else Some (q, StealReadElem oldAge localBot, Silent)
  | StealReadElem oldAge localBot =>
      Some (q, StealCas oldAge localBot (_elems q (_top oldAge)), Silent)
  | StealCas oldAge localBot t =>
      let newAge := increment oldAge in
      let '(resAge, q) := age_cmpxchg q newAge oldAge in
      if dirty_size localBot (_top newAge) =? N - 1 then Some (q, ThiefFailed, Silent)
      else if age_eqb resAge oldAge then Some (q, StealIdle (Some t), EvSteal t)
      else Some (q, StealIdle None, Silent)
  end.

(** The owner, the thieves, and their steps in any order; a thread that is between
    calls may start any of its calls. *)
Record system : Type := mkSystem { queue : TaskQueue; owner : owner_pc; thieves : list thief_pc }.

Inductive step : system -> event -> system -> Prop :=
  | call_push q r ths t : step (mkSystem q (Idle r) ths) Silent (mkSystem q (PushReadBottom t) ths)
  | call_pop_local q r ths : step (mkSystem q (Idle r) ths) Silent (mkSystem q PopReadBottom ths)
  | call_pop_global q o ths i r : ths !! i = Some (StealIdle r) ->
      step (mkSystem q o ths) Silent (mkSystem q o (<[i := StealReadAge]> ths))
  | step_owner q o ths q' o' ev : owner_step q o = Some (q', o', ev) ->
      step (mkSystem q o ths) ev (mkSystem q' o' ths)
  | step_thief q o ths i th q' th' ev :
      ths !! i = Some th -> thief_step q th = Some (q', th', ev) ->
      step (mkSystem q o ths) ev (mkSystem q' o (<[i := th']> ths)).

(** An execution of [n] steps and what happened in it, in order. *)
Inductive execution : nat -> system -> list event -> system -> Prop :=
  | execution_nil s : execution 0 s [] s
  | execution_snoc n s evs s' ev s'' :
      execution n s evs s' -> step s' ev s'' -> execution (S n) s (evs ++ [ev]) s''.

(** A queue after [initialize], and threads that have not called anything. *)
Definition initial (elems : Z -> E) (threads : nat) : system :=
  mkSystem (mkTaskQueue 0 (mkAge 0 0) elems) (Idle Nothing) (replicate threads (StealIdle None)).

(** ** OverflowTaskQueue *)

(** The overflow stack is private to the owner; [pushed] is what the queue's own
    [push] returned. *)
Definition overflow_push (overflow : list E) (t : E) (pushed : bool) : bool * list E :=
  (true, if negb pushed then t :: overflow else overflow).
Definition pop_overflow (overflow : list E) : option E * list E :=
  match overflow with [] => (None, []) | t :: rest => (Some t, rest) end.

End Queue.

Arguments push_slow {E} N q t dirty_n_elems /.
Arguments pop_local_slow {E} N q !pc /.

Arguments returned : clear implicits.
Arguments owner_pc : clear implicits.
Arguments thief_pc : clear implicits.
Arguments event : clear implicits.
Arguments system : clear implicits.
Arguments TaskQueue : clear implicits.

(** ** The choice of a victim *)

(** The quotient and remainder of C truncate. *)
Definition randomParkAndMiller (seed : Z) : Z :=
  let a := 16807 in let m := 2147483647 in let q := 127773 in let r := 2836 in
  let hi := Z.quot seed q in
  let lo := Z.rem seed q in
  let test := jint (jint (a * lo) - jint (r * hi)) in
  if 0 <? test then test else jint (test + m).

End TaskQueue.
