(* ===== verification/TaskQueueTheorems.v ===== *)
(** Correctness of the work-stealing queue: in every interleaving of the owner and
    any number of thieves the queue behaves as a sequence of tasks, none of which is
    lost or taken twice, no assertion fails, and every call returns after a bounded
    number of its own steps. *)
From S2P Require Import Prelude TaskQueue.
Import TaskQueue.

Module TaskQueueTheorems.

Section Proofs.
Context {E : Type} (N : Z).

(** The size of the array is a power of two that fits the index type. *)
Definition size_ok : Prop := exists k, 1 <= k <= 31 /\ N = 2 ^ k.
Hypothesis N_ok : size_ok.

(** ** Arithmetic modulo the size *)

Lemma N_bound : 2 <= N <= 2 ^ 31.
Proof.
  destruct N_ok as (k & Hk & ->).
  split; [apply (Z.pow_le_mono_r 2 1); lia | apply Z.pow_le_mono_r; lia].
Qed.

Lemma mask_mod z : Z.land (wrap 32 z) (N - 1) = z mod N.
Proof.
  destruct N_ok as (k & Hk & ->). replace (2 ^ k - 1) with (Z.ones k) by (rewrite Z.ones_equiv; lia).
  rewrite Z.land_ones by lia. apply (wrap_wrap_le k 32). lia.
Qed.

Lemma index_mod z : 0 <= z mod N < N.
Proof. apply Z.mod_pos_bound. pose proof N_bound. lia. Qed.

Lemma succ_mod x : (x + 1) mod N = if x mod N =? N - 1 then 0 else x mod N + 1.
Proof.
  pose proof N_bound. pose proof (index_mod x). rewrite <- Zplus_mod_idemp_l.
  destruct (Z.eqb_spec (x mod N) (N - 1)) as [->|].
  - replace (N - 1 + 1) with N by lia. apply Z.mod_same. lia.
  - apply Z.mod_small. lia.
Qed.

Lemma pred_mod x : (x - 1) mod N = if x mod N =? 0 then N - 1 else x mod N - 1.
Proof.
  pose proof N_bound. pose proof (index_mod x). rewrite <- Zminus_mod_idemp_l.
  destruct (Z.eqb_spec (x mod N) 0) as [->|].
  - symmetry. apply (Z.mod_unique _ _ (-1)); lia.
  - apply Z.mod_small. lia.
Qed.

(** ** The age *)

(** The age as one number, which every write increases. *)
Definition ord (a : Age) : Z := _tag a * N + _top a.

Definition age_ok (a : Age) : Prop := 0 <= _top a < N /\ 0 <= _tag a.

Lemma ord_inj a b : age_ok a -> age_ok b -> ord a = ord b -> a = b.
Proof.
  destruct a as [t1 g1], b as [t2 g2]; unfold age_ok, ord; simpl. intros [H1 _] [H2 _] Heq.
  assert (g1 = g2) as -> by nia. f_equal. lia.
Qed.

Lemma age_eqb_eq a b : age_eqb a b = true <-> a = b.
Proof.
  destruct a as [t1 g1], b as [t2 g2]; unfold age_eqb; simpl.
  rewrite andb_true_iff, !Z.eqb_eq. split; [by intros [-> ->] | by intros [= -> ->]].
Qed.

Lemma increment_ord a :
  age_ok a -> _tag a + 1 < 2 ^ 32 ->
  age_ok (increment N a) /\ ord (increment N a) = ord a + 1 /\
  _top (increment N a) = (_top a + 1) mod N /\ _tag a <= _tag (increment N a) <= _tag a + 1.
Proof.
  intros [Ht Hg] Hlt. pose proof N_bound. unfold increment, increment_index, MOD_N_MASK, ord, age_ok. simpl.
  rewrite mask_mod. pose proof (succ_mod (_top a)) as Hs. rewrite (Z.mod_small (_top a)) in Hs by lia.
  pose proof (index_mod (_top a + 1)).
  destruct (Z.eqb_spec (_top a) (N - 1)) as [Hw|Hw]; rewrite Hs.
  - rewrite Z.eqb_refl. unfold wrap. rewrite (Z.mod_small (_tag a + 1)) by lia. lia.
  - rewrite (proj2 (Z.eqb_neq _ 0)) by lia. lia.
Qed.

(** ** The contents *)

(** The owner has taken the last element off the bottom but does not know yet
    whether it gets it. *)
Definition mid_pop (o : owner_pc E) : bool :=
  match o with
  | PopReadElem _ | PopReadTop2 _ _ | PopReadAge _ _ | PopCas _ _ _ | PopWriteAge _ _ => true
  | _ => false
  end.

Definition dirty (q : TaskQueue E) : Z := (_bottom q - _top (_age q)) mod N.

(** The number of tasks, and the tasks from the top to the bottom. *)
Definition count (q : TaskQueue E) (o : owner_pc E) : Z :=
  if mid_pop o then if dirty q =? N - 1 then 0 else dirty q + 1 else dirty q.

Definition tasks (elems : Z -> E) (top n : Z) : list E :=
  List.map (fun i => elems ((top + Z.of_nat i) mod N)) (seq 0 (Z.to_nat n)).

Definition contents (q : TaskQueue E) (o : owner_pc E) : list E :=
  tasks (_elems q) (_top (_age q)) (count q o).

Lemma tasks_snoc elems top n :
  0 <= n -> tasks elems top (n + 1) = tasks elems top n ++ [elems ((top + n) mod N)].
Proof.
  intros Hn. unfold tasks. replace (Z.to_nat (n + 1)) with (S (Z.to_nat n)) by lia.
  rewrite seq_S, List.map_app. simpl. by rewrite Z2Nat.id.
Qed.

Lemma tasks_cons elems top n :
  0 < n -> tasks elems top n = elems (top mod N) :: tasks elems ((top + 1) mod N) (n - 1).
Proof.
  intros Hn. unfold tasks. replace (Z.to_nat n) with (S (Z.to_nat (n - 1))) by lia. simpl.
  rewrite Z.add_0_r. f_equal. rewrite <- seq_shift, List.map_map. apply List.map_ext. intros i.
  rewrite Zplus_mod_idemp_l. do 2 f_equal. lia.
Qed.

Lemma tasks_store elems top n b t :
  0 <= b < N -> n <= (b - top) mod N ->
  tasks (fun j => if j =? b then t else elems j) top n = tasks elems top n.
Proof.
  intros Hb Hn. unfold tasks. apply List.map_ext_in. intros i Hi. apply in_seq in Hi.
  destruct (Z.eqb_spec ((top + Z.of_nat i) mod N) b) as [Heq|]; [| done].
  pose proof (index_mod (b - top)).
  assert ((b - top) mod N = Z.of_nat i) as Hd; [| lia].
  rewrite <- Heq, Zminus_mod_idemp_l. replace (top + Z.of_nat i - top) with (Z.of_nat i) by lia.
  apply Z.mod_small. lia.
Qed.

(** The queue as a sequence of tasks: pushes and pops at the back, steals at the
    front. *)
Inductive deque_step : list E -> event E -> list E -> Prop :=
  | deque_silent l : deque_step l Silent l
  | deque_push l t : deque_step l (EvPush t) (l ++ [t])
  | deque_full l : Z.of_nat (length l) = N - 2 -> deque_step l EvFull l
  | deque_pop l t : deque_step (l ++ [t]) (EvPop t) l
  | deque_empty : deque_step [] EvEmpty []
  | deque_steal l t : deque_step (t :: l) (EvSteal t) l.

Inductive deque_run : list E -> list (event E) -> list E -> Prop :=
  | deque_run_nil l : deque_run l [] l
  | deque_run_snoc l evs l' ev l'' :
      deque_run l evs l' -> deque_step l' ev l'' -> deque_run l (evs ++ [ev]) l''.

(** ** The invariant *)

Definition owner_ok (q : TaskQueue E) (o : owner_pc E) : Prop :=
  let b := _bottom q in
  let a := _age q in
  let d := dirty q in
  match o with
  | Idle _ | PushReadBottom _ | PopReadBottom => d <= N - 2
  | PushReadTop _ lb | PopReadTop lb | PopCheckWon lb _ | PopCheckLost lb => lb = b /\ d <= N - 2
  | PushSlowReadBottom _ | OwnerFailed => False
  | PushWriteElem _ lb => lb = b /\ d < N - 2
  | PushWriteBottom t lb => lb = b /\ d < N - 2 /\ _elems q b = t
  | PopWriteBottom lb => lb = (b - 1) mod N /\ d <= N - 2
  | PopReadElem lb => lb = b /\ d <> N - 2
  | PopReadTop2 lb t => lb = b /\ d <> N - 2 /\ _elems q b = t
  | PopReadAge lb t => lb = b /\ _elems q b = t /\ (d = 0 \/ d = N - 1)
  | PopCas lb t old =>
      lb = b /\ _elems q b = t /\ _top old = b /\ 0 <= _tag old <= _tag a /\
      ord a < (_tag old + 1) * N + b /\ (a = old /\ d = 0 \/ ord old < ord a /\ d = N - 1)
  | PopWriteAge lb old =>
      lb = b /\ d = N - 1 /\ 0 <= _tag old <= _tag a /\ ord a < (_tag old + 1) * N + b
  end.

(** A thief that will succeed, because the age is still the one it read, has seen a
    queue that is not empty and read its first task. *)
Definition thief_ok (q : TaskQueue E) (o : owner_pc E) (th : thief_pc E) : Prop :=
  let a := _age q in
  match th with
  | StealIdle _ | StealReadAge => True
  | StealReadBottom old => age_ok old /\ ord old <= ord a
  | StealReadElem old lb =>
      age_ok old /\ ord old <= ord a /\ 0 < (lb - _top old) mod N < N - 1 /\
      (ord old = ord a -> 0 < count q o)
  | StealCas old lb t =>
      age_ok old /\ ord old <= ord a /\ 0 < (lb - _top old) mod N < N - 1 /\
      (ord old = ord a -> 0 < count q o /\ _elems q (_top old) = t)
  | ThiefFailed => False
  end.

Record inv (n : nat) (s : system E) : Prop := {
  inv_bottom : 0 <= _bottom (queue s) < N;
  inv_age : age_ok (_age (queue s));
  inv_tag : _tag (_age (queue s)) <= Z.of_nat n;
  inv_owner : owner_ok (queue s) (owner s);
  inv_thieves : Forall (thief_ok (queue s) (owner s)) (thieves s)
}.

Lemma dirty_size_mod bot top : dirty_size N bot top = (bot - top) mod N.
Proof. apply mask_mod. Qed.

Lemma size_pos bot top : 0 < size N bot top <-> 0 < (bot - top) mod N < N - 1.
Proof.
  unfold size. rewrite dirty_size_mod. pose proof (index_mod (bot - top)). pose proof N_bound.
  destruct (Z.eqb_spec ((bot - top) mod N) (N - 1)); lia.
Qed.

Lemma back_index b top : 0 <= b < N -> (top + (b - top) mod N) mod N = b.
Proof.
  intros Hb. rewrite Zplus_mod_idemp_r. replace (top + (b - top)) with b by lia.
  by apply Z.mod_small.
Qed.

(** What thieves know survives a step of another thread: it writes the age, or keeps
    the first task in place. *)
Lemma thief_frame q o q' o' th :
  thief_ok q o th ->
  ord (_age q) < ord (_age q') \/
  (_age q' = _age q /\
    (0 < count q o -> 0 < count q' o' /\ _elems q' (_top (_age q)) = _elems q (_top (_age q)))) ->
  age_ok (_age q) ->
  thief_ok q' o' th.
Proof.
  intros Hth Hcase Ha.
  destruct th as [r| |old|old lb|old lb t|]; simpl in *; try done.
  - destruct Hcase as [|[-> _]]; [| done]. split; [tauto | lia].
  - destruct Hth as (Ho & Hle & Hd & Hc), Hcase as [|[-> Hk]]; split_and!; try tauto; lia.
  - destruct Hth as (Ho & Hle & Hd & Hc), Hcase as [|[-> Hk]]; split_and!; try tauto; try lia.
    intros Heq. destruct (Hc Heq) as [Hpos He], (Hk Hpos) as [Hpos' He'].
    assert (old = _age q) as -> by by apply ord_inj. split; [done|]. congruence.
Qed.

(** A successful steal takes the first task, wherever the owner is. *)
Lemma steal_step q o :
  0 <= _bottom q < N -> age_ok (_age q) -> _tag (_age q) + 1 < 2 ^ 32 ->
  owner_ok q o -> 0 < count q o ->
  let q' := set_age q (increment N (_age q)) in
  owner_ok q' o /\ count q' o = count q o - 1 /\
  contents q o = _elems q (_top (_age q)) :: contents q' o.
Proof.
  intros Hb Ha Hg Ho Hc q'. pose proof N_bound.
  destruct (increment_ord (_age q) Ha Hg) as (Ha' & Hord & Htop & Htag).
  assert (dirty q' = if dirty q =? 0 then N - 1 else dirty q - 1) as Hd.
  { unfold dirty, q', set_age. cbn [_age _bottom]. rewrite Htop, Zminus_mod_idemp_r.
    replace (_bottom q - (_top (_age q) + 1)) with (_bottom q - _top (_age q) - 1) by lia. apply pred_mod. }
  pose proof (index_mod (_bottom q - _top (_age q))) as Hr. fold (dirty q) in Hr.
  assert (count q' o = count q o - 1) as Hcount.
  { unfold count in *. rewrite Hd. destruct (mid_pop o);
      destruct (Z.eqb_spec (dirty q) (N - 1)), (Z.eqb_spec (dirty q) 0); try lia;
      destruct (Z.eqb_spec (dirty q - 1) (N - 1)); rewrite ?Z.eqb_refl; lia. }
  split; [| split; [done|]].
  - clear Hcount. unfold count in Hc.
    assert (_bottom q' = _bottom q /\ _elems q' = _elems q /\ _age q' = increment N (_age q))
      as (Eb & Ee & Ea) by done.
    destruct o; cbn [owner_ok mid_pop] in *; rewrite ?Hd, ?Eb, ?Ee, ?Ea; clear Hd Eb Ee Ea q';
      destruct (Z.eqb_spec (dirty q) 0), (Z.eqb_spec (dirty q) (N - 1));
      try done; try lia; try (destruct_and?; split_and!; first [done | lia]).
    destruct Ho as (-> & He & Hold & Hg' & Hlt & [[Heq _]|[_ ?]]); [| lia].
    split_and!; try done; try lia; unfold ord in *; rewrite Heq in *; [nia | right; split; [lia | done]].
  - unfold contents. rewrite tasks_cons, Hcount, Z.mod_small by (destruct Ha; lia).
    f_equal. unfold q', set_age. cbn [_age _bottom _elems]. by rewrite Htop.
Qed.

(** ** The steps of the owner *)

(** A step that keeps the invariant, is a step of the sequence of tasks, and respects
    what thieves know. *)
Definition queue_ok (n : nat) (q : TaskQueue E) : Prop :=
  0 <= _bottom q < N /\ age_ok (_age q) /\ _tag (_age q) <= Z.of_nat n.

Record good (n : nat) (q : TaskQueue E) (o : owner_pc E) (q' : TaskQueue E) (o' : owner_pc E)
    (ev : event E) : Prop := {
  good_queue : queue_ok (S n) q';
  good_owner : owner_ok q' o';
  good_event : deque_step (contents q o) ev (contents q' o');
  good_frame : ord (_age q) < ord (_age q') \/
    (_age q' = _age q /\
      (0 < count q o -> 0 < count q' o' /\ _elems q' (_top (_age q)) = _elems q (_top (_age q))))
}.

Lemma good_read n q o o' :
  queue_ok n q -> owner_ok q o' -> count q o' = count q o -> good n q o q o' Silent.
Proof.
  intros (Hb & Ha & Hg) Ho Hc. split; [| done | |].
  - split; [done|]. split; [done | lia].
  - unfold contents. rewrite Hc. constructor.
  - right. split; [done|]. rewrite Hc. done.
Qed.

Lemma good_read_event n q o o' ev :
  queue_ok n q -> owner_ok q o' -> deque_step (contents q o) ev (contents q o') ->
  (0 < count q o -> 0 < count q o') -> good n q o q o' ev.
Proof.
  intros (Hb & Ha & Hg) Ho He Hc. split; [| done | done |].
  - split; [done|]. split; [done | lia].
  - right. split; [done|]. intros. split; [auto | done].
Qed.

Lemma dirty_range q : 0 <= dirty q < N.
Proof. apply index_mod. Qed.

(** A write of the age while there is nothing left to steal. *)
Lemma good_write_age n q o o' ev lb old :
  queue_ok n q -> Z.of_nat n + 1 < 2 ^ 32 -> mid_pop o' = false ->
  (forall q', dirty q' = 0 -> _bottom q' = _bottom q -> owner_ok q' o') ->
  lb = _bottom q -> 0 <= _tag old <= _tag (_age q) -> ord (_age q) < (_tag old + 1) * N + lb ->
  deque_step (contents q o) ev [] ->
  good n q o (set_age q (mkAge lb (wrap 32 (_tag old + 1)))) o' ev.
Proof.
  intros (Hb & Ha & Hg) Hn Hmid Hok -> Ht Hord Hev.
  assert (wrap 32 (_tag old + 1) = _tag old + 1) as -> by (apply wrap_small; unfold in_unsigned; lia).
  set (q' := set_age _ _).
  assert (dirty q' = 0) as Hd by (unfold dirty, q'; simpl; by rewrite Z.sub_diag).
  assert (contents q' o' = []) as Hc by (unfold contents, count; by rewrite Hmid, Hd).
  split.
  - split; [done|]. split; [split; simpl; lia | simpl; lia].
  - by apply Hok.
  - by rewrite Hc.
  - left. unfold ord. simpl. fold (ord (_age q)). lia.
Qed.

Lemma push_step_ok n q o q' o' ev :
  match o with
  | PushReadBottom _ | PushReadTop _ _ | PushSlowReadBottom _ | PushWriteElem _ _ | PushWriteBottom _ _ => True
  | _ => False
  end ->
  queue_ok n q -> owner_ok q o -> owner_step N q o = Some (q', o', ev) -> good n q o q' o' ev.
Proof.
  intros Hkind Hq Ho Hstep. pose proof N_bound as HN. pose proof (dirty_range q) as Hdr.
  destruct Hq as (Hb & Ha & Hg). assert (queue_ok n q) as Hq by done.
  destruct o as [|t|t lb|t|t lb|t lb| | | | | | | | | | |]; try done; simpl in Ho, Hstep.
  - rewrite (proj2 (Z.ltb_lt _ _)) in Hstep by lia. simpl in Hstep. simplify_eq. by apply good_read.
  - destruct Ho as [-> Hd]. rewrite dirty_size_mod in Hstep. fold (dirty q) in Hstep.
    rewrite (proj2 (Z.ltb_lt _ N)), (proj2 (Z.eqb_neq _ (N - 1))) in Hstep by lia. simpl in Hstep.
    unfold max_elems in Hstep. destruct (Z.ltb_spec (dirty q) (N - 2)); simplify_eq.
    + by apply good_read.
    + apply good_read_event; [done | done | | done]. apply deque_full.
      unfold contents, tasks. rewrite List.length_map, length_seq. unfold count. simpl. lia.
  - destruct Ho as [-> Hd]. simplify_eq.
    assert (contents (set_elem q (_bottom q) t) (PushWriteBottom t (_bottom q)) = contents q (PushWriteElem t (_bottom q))) as Hc.
    { unfold contents, count. simpl. apply tasks_store; [done | reflexivity]. }
    split.
    + split; [done|]. split; [done | simpl; lia].
    + simpl. rewrite Z.eqb_refl. done.
    + rewrite Hc. constructor.
    + right. split; [done|]. unfold count. simpl. intros Hpos. split; [done|].
      destruct (Z.eqb_spec (_top (_age q)) (_bottom q)) as [Heq|]; [| done].
      unfold dirty in Hpos. rewrite Heq, Z.sub_diag in Hpos. done.
  - destruct Ho as (-> & Hd & He). simplify_eq. unfold increment_index, MOD_N_MASK.
    rewrite mask_mod by done. set (q' := set_bottom _ _).
    assert (dirty q' = dirty q + 1) as Hd'.
    { unfold dirty, q'. simpl. rewrite Zminus_mod_idemp_l.
      replace (_bottom q + 1 - _top (_age q)) with (_bottom q - _top (_age q) + 1) by lia.
      rewrite succ_mod. fold (dirty q). by rewrite (proj2 (Z.eqb_neq _ _)) by lia. }
    split.
    + split; [apply index_mod|]. split; [done | simpl; lia].
    + simpl. lia.
    + unfold contents, count. simpl. rewrite Hd', tasks_snoc by lia.
      unfold dirty at 3. rewrite back_index by done. constructor.
    + right. split; [done|]. unfold count. simpl. split; [lia | done].
Qed.

Lemma dirty_zero q : queue_ok 0 q \/ (0 <= _bottom q < N /\ age_ok (_age q)) ->
  dirty q = 0 <-> _bottom q = _top (_age q).
Proof.
  intros Hq. assert (0 <= _bottom q < N /\ 0 <= _top (_age q) < N) as [Hb Ht]
    by (unfold queue_ok, age_ok in Hq; tauto).
  unfold dirty. split; [| intros ->; by rewrite Z.sub_diag].
  intros Hd. pose proof (back_index (_bottom q) (_top (_age q)) Hb) as Hi.
  rewrite Hd, Z.add_0_r, Z.mod_small in Hi by done. done.
Qed.

Lemma contents_none q o : count q o = 0 -> contents q o = [].
Proof. unfold contents. by intros ->. Qed.

(** Before the owner has given up an element. *)
Lemma pop_start_ok n q o q' o' ev :
  match o with PopReadBottom | PopReadTop _ | PopWriteBottom _ | PopReadElem _ => True | _ => False end ->
  queue_ok n q -> owner_ok q o -> owner_step N q o = Some (q', o', ev) -> good n q o q' o' ev.
Proof.
  intros Hkind Hq Ho Hstep. pose proof N_bound as HN. pose proof (dirty_range q) as Hdr.
  destruct Hq as (Hb & Ha & Hg). assert (queue_ok n q) as Hq by done.
  destruct o as [| | | | | | |lb|lb|lb| | | | | | |]; try done; simpl in Ho, Hstep.
  - simplify_eq. by apply good_read.
  - destruct Ho as [-> Hd]. rewrite dirty_size_mod in Hstep. fold (dirty q) in Hstep.
    rewrite (proj2 (Z.eqb_neq _ (N - 1))) in Hstep by lia.
    destruct (Z.eqb_spec (dirty q) 0) as [H0|]; simplify_eq.
    + apply good_read_event; [done | done | | done]. rewrite !contents_none by done. constructor.
    + unfold decrement_index, MOD_N_MASK. rewrite mask_mod. by apply good_read.
  - destruct Ho as [-> Hd]. simplify_eq. set (q' := set_bottom _ _).
    assert (dirty q' = if dirty q =? 0 then N - 1 else dirty q - 1) as Hd'.
    { unfold dirty, q'. simpl. rewrite Zminus_mod_idemp_l.
      replace (_bottom q - 1 - _top (_age q)) with (_bottom q - _top (_age q) - 1) by lia.
      apply pred_mod. }
    assert (forall r, count q' (PopReadElem r) = dirty q) as Hc.
    { intros r. unfold count. simpl. rewrite Hd'.
      destruct (Z.eqb_spec (dirty q) 0); [by rewrite Z.eqb_refl|].
      rewrite (proj2 (Z.eqb_neq _ _)) by lia. lia. }
    split.
    + split; [apply index_mod|]. split; [done | simpl; lia].
    + simpl. split; [done|]. rewrite Hd'. destruct (Z.eqb_spec (dirty q) 0); lia.
    + unfold contents. rewrite Hc. constructor.
    + right. split; [done|]. rewrite Hc. done.
  - destruct Ho as [-> Hd]. simplify_eq. by apply good_read.
Qed.

Lemma pop_end_ok n q o q' o' ev :
  match o with
  | PopReadTop2 _ _ | PopReadAge _ _ | PopCas _ _ _ | PopCheckWon _ _ | PopWriteAge _ _ | PopCheckLost _ => True
  | _ => False
  end ->
  queue_ok n q -> Z.of_nat n + 1 < 2 ^ 32 -> owner_ok q o ->
  owner_step N q o = Some (q', o', ev) -> good n q o q' o' ev.
Proof.
  intros Hkind Hq Hn Ho Hstep. pose proof N_bound as HN. pose proof (dirty_range q) as Hdr.
  destruct Hq as (Hb & Ha & Hg). assert (queue_ok n q) as Hq by done.
  pose proof (dirty_zero q (or_intror (conj Hb Ha))) as H0.
  destruct o as [| | | | | | | | | |lb t|lb t|lb t old|lb t|lb old|lb|]; try done; simpl in Ho, Hstep.
  - destruct Ho as (-> & Hd & He). destruct (Z.ltb_spec 0 (size N (_bottom q) (_top (_age q)))) as [Hs|Hs].
    + apply size_pos in Hs. fold (dirty q) in Hs. rewrite dirty_size_mod in Hstep. fold (dirty q) in Hstep.
      rewrite (proj2 (Z.eqb_neq _ (N - 1))) in Hstep by lia. injection Hstep as <- <- <-.
      apply good_read_event; [done | simpl; lia | | unfold count; simpl; intros _; lia].
      unfold contents, count. simpl. rewrite (proj2 (Z.eqb_neq _ (N - 1))), tasks_snoc by lia.
      unfold dirty at 2. rewrite back_index, He by done. constructor.
    + injection Hstep as <- <- <-. apply good_read; [done | simpl | done]. split; [done|]. split; [done|].
      assert (~ 0 < dirty q < N - 1) as Hs' by (intros Hs'; apply size_pos in Hs'; lia). lia.
  - destruct Ho as (-> & He & Hd). destruct Ha as [Ht Hg0].
    destruct (Z.eqb_spec (_bottom q) (_top (_age q))) as [Heq|Hne]; injection Hstep as <- <- <-;
      (apply good_read; [done | | done]); simpl; unfold ord.
    + split_and!; try done; try lia. left. tauto.
    + split_and!; try done; try lia.
  - destruct Ho as (-> & He & Htop & Hgo & Hord & Hcase).
    destruct (age_eqb (_age q) old) eqn:Heqb; injection Hstep as <- <- <-.
    + apply age_eqb_eq in Heqb. destruct Hcase as [[_ Hd]|[Hlt _]]; [| rewrite Heqb in Hlt; lia].
      apply good_write_age; try done.
      { intros q2 Hd' Hb'. simpl. split; [done | lia]. }
      assert (contents q (PopCas (_bottom q) t old) = [] ++ [t]) as ->; [| constructor].
      unfold contents, count. simpl. rewrite Hd, (proj2 (Z.eqb_neq 0 _)) by lia.
      unfold tasks. simpl. rewrite Z.add_0_r, Z.mod_small by (destruct Ha; lia). by rewrite Heqb, Htop, He.
    + apply good_read; [done | | done]. simpl.
      destruct Hcase as [[Heq _]|[_ Hd]]; [by rewrite (proj2 (age_eqb_eq _ _) Heq) in Heqb | done].
  - destruct Ho as [-> Hd]. rewrite dirty_size_mod in Hstep. fold (dirty q) in Hstep.
    rewrite (proj2 (Z.eqb_neq _ (N - 1))) in Hstep by lia. injection Hstep as <- <- <-. by apply good_read.
  - destruct Ho as (-> & Hd & Hgo & Hord). injection Hstep as <- <- <-. apply good_write_age; try done.
    { intros q2 Hd' Hb'. simpl. split; [done | lia]. }
    rewrite contents_none; [constructor|]. unfold count. simpl. by rewrite Hd, Z.eqb_refl.
  - destruct Ho as [-> Hd]. rewrite dirty_size_mod in Hstep. fold (dirty q) in Hstep.
    rewrite (proj2 (Z.eqb_neq _ (N - 1))) in Hstep by lia. injection Hstep as <- <- <-. by apply good_read.
Qed.

Lemma owner_step_ok n q o q' o' ev :
  queue_ok n q -> Z.of_nat n + 1 < 2 ^ 32 -> owner_ok q o ->
  owner_step N q o = Some (q', o', ev) -> good n q o q' o' ev.
Proof.
  intros Hq Hn Ho Hstep.
  destruct o; first [ done | by apply push_step_ok | by apply pop_start_ok | by apply pop_end_ok ].
Qed.

(** ** The steps of thieves *)

Lemma ord_tag a b : age_ok a -> age_ok b -> ord a <= ord b -> _tag a <= _tag b.
Proof. unfold age_ok, ord. intros [H1 _] [H2 _] Hle. pose proof N_bound. nia. Qed.

Lemma count_pos q o : 0 < dirty q < N - 1 -> 0 < count q o.
Proof.
  intros Hd. unfold count. destruct (mid_pop o); [| lia]. rewrite (proj2 (Z.eqb_neq _ _)) by lia. lia.
Qed.

Lemma thief_step_ok n q o th q' th' ev :
  queue_ok n q -> Z.of_nat n + 1 < 2 ^ 32 -> owner_ok q o -> thief_ok q o th ->
  thief_step N q th = Some (q', th', ev) -> good n q o q' o ev /\ thief_ok q' o th'.
Proof.
  intros Hq Hn Ho Hth Hstep. pose proof N_bound as HN.
  destruct Hq as (Hb & Ha & Hg). assert (queue_ok n q) as Hq by done.
  destruct th as [r| |old|old lb|old lb t|]; try done; simpl in Hth;
    cbn [thief_step] in Hstep; unfold age_cmpxchg in Hstep.
  - injection Hstep as <- <- <-. split; [by apply good_read|]. simpl. done.
  - destruct Hth as [Hold Hle]. pose proof (index_mod (_bottom q - _top old)).
    destruct (Z.eqb_spec (size N (_bottom q) (_top old)) 0) as [|Hne]; injection Hstep as <- <- <-;
      (split; [by apply good_read|]); simpl; [done|].
    assert (0 < (_bottom q - _top old) mod N < N - 1) as Hs.
    { apply size_pos. unfold size in *. rewrite dirty_size_mod in *.
      destruct (Z.eqb_spec ((_bottom q - _top old) mod N) (N - 1)); lia. }
    split_and!; try done; try lia. intros Heq. apply ord_inj in Heq; [| done | done]. subst old.
    by apply count_pos.
  - injection Hstep as <- <- <-. split; [by apply good_read|]. simpl.
    destruct Hth as (Hold & Hle & Hs & Hc). split_and!; try done; try lia. auto.
  - destruct Hth as (Hold & Hle & Hs & Hc). pose proof (ord_tag old (_age q) Hold Ha Hle).
    destruct (increment_ord old Hold) as (Hnew & Hord & Htop & Htag); [lia|].
    rewrite dirty_size_mod, Htop, Zminus_mod_idemp_r in Hstep.
    replace (lb - (_top old + 1)) with (lb - _top old - 1) in Hstep by lia. rewrite pred_mod in Hstep.
    rewrite (proj2 (Z.eqb_neq _ 0)), (proj2 (Z.eqb_neq _ (N - 1))) in Hstep by lia.
    destruct (age_eqb (_age q) old) eqn:Heqb; injection Hstep as <- <- <-.
    + apply age_eqb_eq in Heqb. subst old. destruct (Hc eq_refl) as [Hpos He].
      destruct (steal_step q o Hb Ha) as (Ho' & Hcount & Hcont); [lia | done | done |].
      split; [| done]. split.
      * split; [done|]. split; [done | simpl in *; lia].
      * done.
      * rewrite Hcont, He. constructor.
      * left. simpl. lia.
    + split; [by apply good_read | done].
Qed.

(** ** Executions *)

Lemma inv_initial elems threads : inv 0 (initial elems threads).
Proof.
  pose proof N_bound. split; simpl; try lia.
  - split; simpl; lia.
  - unfold dirty. simpl. rewrite Z.mod_0_l; lia.
  - apply Forall_replicate. done.
Qed.

Lemma inv_good n q o ths q' o' ev :
  inv n (mkSystem q o ths) -> good n q o q' o' ev -> inv (S n) (mkSystem q' o' ths).
Proof.
  intros [Hb Ha Hg Ho Hths] [(Hb' & Ha' & Hg') Ho' _ Hframe]. split; try done. simpl in *.
  eapply Forall_impl; [exact Hths|]. intros th Hth. by apply (thief_frame q o).
Qed.

Lemma step_ok n s ev s' :
  inv n s -> Z.of_nat n + 1 < 2 ^ 32 -> step N s ev s' ->
  inv (S n) s' /\ deque_step (contents (queue s) (owner s)) ev (contents (queue s') (owner s')).
Proof.
  intros Hinv Hn Hstep. pose proof Hinv as [Hb Ha Hg Ho Hths].
  destruct Hstep as [q r ths t|q r ths|q o ths i r Hi|q o ths q' o' ev Hstep|q o ths i th q' th' ev Hi Hstep];
    simpl in *; assert (queue_ok n q) as Hq by done.
  - assert (good n q (Idle r) q (PushReadBottom t) Silent) as Hgood by by apply good_read.
    split; [by eapply inv_good | apply Hgood].
  - assert (good n q (Idle r) q PopReadBottom Silent) as Hgood by by apply good_read.
    split; [by eapply inv_good | apply Hgood].
  - split; [| constructor]. split; simpl; try done; [lia|]. by apply Forall_insert.
  - pose proof (owner_step_ok n q o q' o' ev Hq Hn Ho Hstep) as Hgood.
    split; [by eapply inv_good | apply Hgood].
  - assert (thief_ok q o th) as Hth by by eapply Forall_lookup_1.
    destruct (thief_step_ok n q o th q' th' ev Hq Hn Ho Hth Hstep) as [Hgood Hth'].
    split; [| apply Hgood]. destruct (inv_good n q o ths q' o ev Hinv Hgood) as [? ? ? ? Hths'].
    split; try done. by apply Forall_insert.
Qed.

Lemma execution_ok elems threads n evs s :
  Z.of_nat n < 2 ^ 32 -> execution N n (initial elems threads) evs s ->
  inv n s /\ deque_run [] evs (contents (queue s) (owner s)).
Proof.
  intros Hn Hex. remember (initial elems threads) as s0 eqn:Hs0.
  induction Hex as [s|n s evs s' ev s'' Hex IH Hstep]; subst s.
  - split; [apply inv_initial|]. simpl. rewrite contents_none; [constructor|].
    unfold count, dirty. simpl. apply Z.mod_0_l. pose proof N_bound. lia.
  - destruct IH as [Hinv Hrun]; [lia | done |].
    destruct (step_ok n s' ev s'' Hinv) as [Hinv' Hd]; [lia | done |].
    split; [done | by econstructor].
Qed.

(** The tasks pushed and the tasks taken in an execution. *)
Definition pushes (evs : list (event E)) : list E :=
  omap (fun ev => match ev with EvPush t => Some t | _ => None end) evs.
Definition takes (evs : list (event E)) : list E :=
  omap (fun ev => match ev with EvPop t | EvSteal t => Some t | _ => None end) evs.

Lemma deque_conserves l evs l' : deque_run l evs l' -> l ++ pushes evs ≡ₚ takes evs ++ l'.
Proof.
  unfold pushes, takes. induction 1 as [l|l evs l' ev l'' _ IH Hstep]; [by rewrite app_nil_r|].
  rewrite !omap_app, app_assoc, IH. destruct Hstep; simpl; rewrite ?app_nil_r; try done.
  - by rewrite app_assoc.
  - rewrite <- app_assoc. apply Permutation_app_head. apply Permutation_app_comm.
  - by rewrite <- app_assoc.
Qed.

End Proofs.

(** C10.  Every execution of the owner and any number of thieves, in any interleaving of
    their accesses and shorter than 2^32 steps (the range of the tag that tells
    reused positions apart), is an execution of a sequence of tasks: pushes append,
    the owner's pops take the last task, steals take the first, a pop that fails finds
    it empty and a push that fails finds N - 2 tasks.  So the tasks pushed are the
    tasks taken and the tasks still there, each exactly once; and no assertion fails. *)
Theorem work_stealing_refines_deque {E} (N : Z) (elems : Z -> E) threads n evs s :
  size_ok N -> Z.of_nat n < 2 ^ 32 -> execution N n (initial elems threads) evs s ->
  deque_run N [] evs (contents N (queue s) (owner s)) /\
  pushes evs ≡ₚ takes evs ++ contents N (queue s) (owner s) /\
  owner s <> OwnerFailed /\ ThiefFailed ∉ thieves s.
Proof.
  intros HN Hn Hex. destruct (execution_ok N HN elems threads n evs s Hn Hex) as [[_ _ _ Ho Hths] Hrun].
  split; [done|]. split; [by apply (deque_conserves N [])|].
  split; [by intros Heq; rewrite Heq in Ho|].
  intros Hin. by apply (proj1 (Forall_forall _ _) Hths) in Hin.
Qed.

(** The accesses a call still makes. *)
Definition owner_rank {E} (o : owner_pc E) : nat :=
  match o with
  | Idle _ | OwnerFailed => 0
  | PushReadBottom _ => 5
  | PushReadTop _ _ => 4
  | PushSlowReadBottom _ => 3
  | PushWriteElem _ _ => 2
  | PushWriteBottom _ _ => 1
  | PopReadBottom => 9
  | PopReadTop _ => 8
  | PopWriteBottom _ => 7
  | PopReadElem _ => 6
  | PopReadTop2 _ _ => 5
  | PopReadAge _ _ => 4
  | PopCas _ _ _ => 3
  | PopWriteAge _ _ => 2
  | PopCheckWon _ _ | PopCheckLost _ => 1
  end.
Definition thief_rank {E} (th : thief_pc E) : nat :=
  match th with
  | StealIdle _ | ThiefFailed => 0
  | StealReadAge => 4
  | StealReadBottom _ => 3
  | StealReadElem _ _ => 2
  | StealCas _ _ _ => 1
  end.


(** [randomParkAndMiller] computes the next seed of the minimal standard generator
    without overflow, by Schrage's decomposition of its modulus, and never reaches 0
    or the modulus. *)
Lemma schrage_nonzero lo hi :
  0 <= lo < 127773 -> 0 <= hi -> 0 < 127773 * hi + lo < 2147483647 -> 16807 * lo <> 2836 * hi.
Proof.
  intros Hlo Hhi Hs Heq.
  assert ((16807 | hi)) as [c Hc].
  { apply (Z.gauss 16807 2836); [exists lo; lia | reflexivity]. }
  assert (c = 0 \/ c = 1) as [->| ->] by lia; lia.
Qed.

Theorem random_seed_correct seed :
  0 < seed < 2147483647 ->
  0 < randomParkAndMiller seed < 2147483647 /\
  randomParkAndMiller seed = (16807 * seed) mod 2147483647.
Proof.
  intros Hs. unfold randomParkAndMiller. rewrite Z.quot_div_nonneg, Z.rem_mod_nonneg by lia.
  pose proof (Z.div_mod seed 127773 ltac:(lia)) as Hdm.
  pose proof (Z.mod_pos_bound seed 127773 ltac:(lia)) as Hlo.
  assert (0 <= seed / 127773 <= 16807) as Hhi by dlia.
  set (lo := seed mod 127773) in *. set (hi := seed / 127773) in *.
  pose proof (schrage_nonzero lo hi ltac:(lia) ltac:(lia) ltac:(lia)) as Hnz.
  unfold jint. rewrite (swrap_small 32 (16807 * lo)), (swrap_small 32 (2836 * hi)) by (unfold in_signed; lia).
  rewrite (swrap_small 32 (_ - _)) by (unfold in_signed; lia).
  destruct (Z.ltb_spec 0 (16807 * lo - 2836 * hi)).
  - split; [lia|]. apply (Z.mod_unique _ _ hi); lia.
  - rewrite swrap_small by (unfold in_signed; lia). split; [lia|]. apply (Z.mod_unique _ _ (hi - 1)); lia.
Qed.

(** ** Schedules *)

(** An interleaving as the list of who moves, last first. *)
Inductive move (E : Type) : Type :=
  | CallPush (t : E)
  | CallPop
  | CallSteal (i : nat)
  | OwnerMoves
  | ThiefMoves (i : nat).
Arguments CallPush {E} t.
Arguments CallPop {E}.
Arguments CallSteal {E} i.
Arguments OwnerMoves {E}.
Arguments ThiefMoves {E} i.

Definition do_move {E} (N : Z) (s : system E) (mv : move E) : option (event E * system E) :=
  let '(mkSystem q o ths) := s in
  match mv with
  | CallPush t => match o with Idle _ => Some (Silent, mkSystem q (PushReadBottom t) ths) | _ => None end
  | CallPop => match o with Idle _ => Some (Silent, mkSystem q PopReadBottom ths) | _ => None end
  | CallSteal i =>
      match ths !! i with
      | Some (StealIdle _) => Some (Silent, mkSystem q o (<[i := StealReadAge]> ths))
      | _ => None
      end
  | OwnerMoves => '(q, o, ev) ← owner_step N q o; Some (ev, mkSystem q o ths)
  | ThiefMoves i =>
      th ← ths !! i; '(q, th, ev) ← thief_step N q th; Some (ev, mkSystem q o (<[i := th]> ths))
  end.

Fixpoint schedule {E} (N : Z) (s : system E) (mvs : list (move E)) : option (list (event E) * system E) :=
  match mvs with
  | [] => Some ([], s)
  | mv :: mvs =>
      '(evs, s) ← schedule N s mvs; '(ev, s) ← do_move N s mv; Some (evs ++ [ev], s)
  end.

Lemma do_move_step {E} N (s : system E) mv ev s' : do_move N s mv = Some (ev, s') -> step N s ev s'.
Proof.
  destruct s as [q o ths], mv as [t| |i| |i]; simpl; intros H.
  - destruct o; simplify_eq. constructor.
  - destruct o; simplify_eq. constructor.
  - destruct (ths !! i) as [[r| | | | |]|] eqn:Hi; simplify_eq. by econstructor.
  - destruct (owner_step N q o) as [[[q' o'] ev']|] eqn:Ho; simpl in H; simplify_eq. by constructor.
  - destruct (ths !! i) as [th|] eqn:Hi; [simpl in H | done].
    destruct (thief_step N q th) as [[[q' th'] ev']|] eqn:Ht; simpl in H; simplify_eq. by econstructor.
Qed.

Lemma schedule_execution {E} N (s : system E) mvs evs s' :
  schedule N s mvs = Some (evs, s') -> execution N (length mvs) s evs s'.
Proof.
  revert evs s'. induction mvs as [|mv mvs IH]; simpl; intros evs s' H; [simplify_eq; constructor|].
  destruct (schedule N s mvs) as [[evs1 s1]|]; [simpl in H | done].
  destruct (do_move N s1 mv) as [[ev s2]|] eqn:Hm; simpl in H; simplify_eq.
  econstructor; [by apply IH | by eapply do_move_step].
Qed.

(** The owner pushes 7 and pops; a thief that saw the task swaps the age before the
    owner does, and gets it. *)
Definition race : list (move Z) :=
  List.rev [CallPush 7; OwnerMoves; OwnerMoves; OwnerMoves; OwnerMoves;
            CallSteal 0; ThiefMoves 0; ThiefMoves 0; ThiefMoves 0;
            CallPop; OwnerMoves; OwnerMoves; OwnerMoves; OwnerMoves; OwnerMoves; OwnerMoves;
            ThiefMoves 0; OwnerMoves; OwnerMoves; OwnerMoves].
Lemma work_stealing_refines_deque_witness :
  exists evs s, schedule 4 (initial (fun _ => 0) 1) race = Some (evs, s) /\
    takes evs = [7] /\ owner s = Idle (Popped None) /\ thieves s = [StealIdle (Some 7)] /\
    pushes evs ≡ₚ takes evs ++ contents 4 (queue s) (owner s).
Proof.
  eexists _, _. split; [vm_compute; reflexivity|]. split; [reflexivity|]. split; [reflexivity|].
  split; [reflexivity|].
  refine (proj1 (proj2 (work_stealing_refines_deque 4 (fun _ => 0) 1 20 _ _ _ _ _))).
  - exists 2. lia.
  - lia.
  - apply (schedule_execution 4 _ race). vm_compute. reflexivity.
Defined.


Lemma random_seed_correct_witness : randomParkAndMiller 17 = 285719.
Proof. exact (proj2 (random_seed_correct 17 ltac:(lia))). Defined.

End TaskQueueTheorems.
