(* ===== verification/SeedPeriod.v ===== *)
(** The period of the random number generator of the task queues
    ([randomParkAndMiller] of utilities/taskqueue.cpp): from every legal seed it visits
    every other one, so a loop that draws until it sees an acceptable value ends. *)
From Stdlib Require Import Znumtheory Zpow_facts.
From S2P Require Import Prelude TaskQueue TaskQueueTheorems.
Import TaskQueue TaskQueueTheorems.

Module SeedPeriod.

(** ** Primality by trial division *)

Definition no_divisor (p d : Z) : bool := (d <=? 1) || negb (p mod d =? 0).

Fixpoint no_divisors (n : nat) (p d : Z) : bool :=
  match n with
  | O => true
  | S n => no_divisor p d && no_divisors n p (d + 1)
  end.

Lemma no_divisors_spec n p d d' :
  no_divisors n p d = true -> d <= d' < d + Z.of_nat n -> no_divisor p d' = true.
Proof.
  revert d. induction n as [|n IH]; simpl; intros d H Hd'; [lia|].
  apply andb_true_iff in H as [Hd H]. destruct (Z.eq_dec d' d) as [->|Hne]; [done|].
  apply (IH (d + 1)); [done | lia].
Qed.

Lemma prime_by_trial p r :
  0 < r -> 1 < p < r * r -> no_divisors (Z.to_nat r) p 0 = true -> Z.prime p.
Proof.
  intros Hr Hp Hall.
  assert (forall d, 1 < d < r -> ~ (d | p)) as Hsmall.
  { intros d Hd Hdiv. apply Z.mod_divide in Hdiv; [| lia].
    pose proof (no_divisors_spec _ _ _ d Hall ltac:(lia)) as Hno. unfold no_divisor in Hno.
    rewrite Hdiv in Hno. destruct (Z.leb_spec d 1); [lia | done]. }
  split; [lia|]. intros d Hd Hdiv.
  destruct (Z.lt_ge_cases d r); [apply (Hsmall d); [lia | done]|].
  destruct Hdiv as [c Hc]. apply (Hsmall c); [nia | exists d; lia].
Qed.

Ltac trial_prime r := apply (prime_by_trial _ r); [lia | lia | vm_compute; reflexivity].

(** The modulus and the multiplier. *)
#[local] Abbreviation m := 2147483647.
#[local] Abbreviation a := 16807.

Lemma prime_m : Z.prime m.
Proof. trial_prime 46341. Qed.

(** ** The order of the multiplier *)

Lemma pow_one_mul x k : 0 <= x -> 0 <= k -> a ^ x mod m = 1 -> a ^ (x * k) mod m = 1.
Proof.
  intros Hx Hk H1. rewrite Z.pow_mul_r, Zpower_mod, H1 by lia. by rewrite Z.pow_1_l.
Qed.

Lemma pow_one_gcd x y :
  0 <= x -> 0 <= y -> a ^ x mod m = 1 -> a ^ y mod m = 1 -> a ^ Z.gcd x y mod m = 1.
Proof.
  intros Hx. revert y. induction x as [x IH] using (well_founded_induction (Z.lt_wf 0)).
  intros y Hy H1 H2. destruct (Z.eq_dec x 0) as [->|Hne].
  { by rewrite Z.gcd_0_l, Z.abs_eq. }
  pose proof (Z.mod_pos_bound y x ltac:(lia)).
  rewrite <- Z.gcd_mod, Z.gcd_comm by lia. rewrite Z.gcd_comm. apply IH; [lia | lia | lia | | done].
  rewrite (Z.div_mod y x) in H2 by lia.
  rewrite Z.pow_add_r, Zmult_mod, pow_one_mul, Z.mul_1_l, Zmod_mod in H2
    by (lia || (apply Z.div_pos; lia) || (apply Z.mul_nonneg_nonneg; [lia | apply Z.div_pos; lia]) || done).
  done.
Qed.

(** The primes that divide [m - 1]; the power of [a] to each of the quotients. *)
Definition factors : list Z := [2; 3; 3; 7; 11; 31; 151; 331].

Lemma factors_prime : Forall Z.prime factors.
Proof.
  unfold factors. rewrite !Forall_cons.
  split_and!; [trial_prime 2 | trial_prime 2 | trial_prime 2 | trial_prime 3 | trial_prime 4
    | trial_prime 6 | trial_prime 13 | trial_prime 19 | done].
Qed.

Lemma factors_order p : p ∈ factors -> a ^ ((m - 1) / p) mod m <> 1.
Proof.
  intros Hin. rewrite <- Zpow_mod_correct by lia. apply Z.eqb_neq.
  assert (forallb (fun p => negb (Zpow_mod a ((m - 1) / p) m =? 1)) factors = true) as Hall
    by (vm_compute; reflexivity).
  rewrite forallb_forall in Hall. by apply negb_true_iff, Hall, list_elem_of_In.
Qed.

Lemma common_factor ps c : Forall Z.prime ps -> c <> 1 -> 0 < c -> (c | foldr Z.mul 1 ps) ->
  exists p, p ∈ ps /\ (p | c).
Proof.
  intros Hps Hc Hpos. induction Hps as [|p ps Hp _ IH]; simpl; intros Hdiv.
  - apply Z.divide_1_r_nonneg in Hdiv; lia.
  - destruct (decide (c mod p = 0)) as [Hpc|Hpc].
    { exists p. split; [left | apply Z.mod_divide; [destruct Hp; lia | done]]. }
    destruct IH as (p' & Hin & Hp'); [| exists p'; split; [by right | done]].
    apply (Z.gauss c p); [done|]. rewrite Z.gcd_comm. apply Z.coprime_prime_l; [done|].
    intros Hdiv'. apply Hpc, Z.mod_divide; [destruct Hp; lia | done].
Qed.

Lemma fermat_a : a ^ (m - 1) mod m = 1.
Proof. rewrite <- Zpow_mod_correct by lia. vm_compute. reflexivity. Qed.

Lemma order_of_a d : 0 < d < m - 1 -> a ^ d mod m <> 1.
Proof.
  intros Hd H1.
  pose proof (pow_one_gcd d (m - 1) ltac:(lia) ltac:(lia) H1 fermat_a) as Hg.
  pose proof (Z.gcd_divide_l d (m - 1)) as Hgd. pose proof (Z.gcd_divide_r d (m - 1)) as [c Hc].
  apply Z.divide_pos_le in Hgd; [| lia]. pose proof (Z.gcd_nonneg d (m - 1)).
  set (g := Z.gcd d (m - 1)) in *.
  destruct (common_factor factors c factors_prime) as (p & Hin & [e He]); [nia | nia | exists g; simpl in *; lia |].
  apply (factors_order p Hin).
  assert (0 < p) as Hp. { pose proof (proj1 (Forall_forall _ _) factors_prime p Hin) as [? _]. lia. }
  rewrite Hc, He. replace (e * p * g) with (g * e * p) by lia. rewrite Z.div_mul by lia.
  apply pow_one_mul; [done | nia | done].
Qed.

(** ** The orbit of a seed *)

Definition nth_seed (j : nat) (s : Z) : Z := Nat.iter j randomParkAndMiller s.

Lemma nth_seed_range j s : 0 < s < m -> 0 < nth_seed j s < m.
Proof. intros Hs. induction j as [|j IH]; [done|]. by apply random_seed_correct. Qed.

Lemma nth_seed_pow j s : 0 < s < m -> nth_seed j s = (a ^ Z.of_nat j * s) mod m.
Proof.
  intros Hs. induction j as [|j IH]; [simpl; rewrite Z.mul_1_l, Z.mod_small by lia; done|].
  change (nth_seed (S j) s) with (randomParkAndMiller (nth_seed j s)).
  rewrite (proj2 (random_seed_correct _ (nth_seed_range j s Hs))), IH, Zmult_mod_idemp_r.
  rewrite Nat2Z.inj_succ, Z.pow_succ_r by lia. f_equal. lia.
Qed.

Lemma nth_seed_return d s : 0 < s < m -> (0 < d)%nat -> Z.of_nat d < m - 1 -> nth_seed d s <> s.
Proof.
  intros Hs Hd Hm Heq. rewrite nth_seed_pow in Heq by done.
  apply (order_of_a (Z.of_nat d)); [lia|].
  assert ((m | (a ^ Z.of_nat d - 1) * s)) as Hdiv.
  { apply Z.mod_divide; [lia|]. rewrite Z.mul_sub_distr_r, Z.mul_1_l, Zminus_mod, Heq.
    rewrite (Z.mod_small s) by lia. by rewrite Z.sub_diag. }
  apply Z.divide_prime_mul in Hdiv; [| exact prime_m]. destruct Hdiv as [[k Hk]|[k Hk]]; [| lia].
  replace (a ^ Z.of_nat d) with (1 + k * m) by lia. by rewrite Z.mod_add by lia.
Qed.

Lemma nth_seed_add i j s : nth_seed (i + j) s = nth_seed i (nth_seed j s).
Proof. apply Nat.iter_add. Qed.

(** An injection of [0, K) into [1, K] reaches every value. *)
Lemma injection_onto (f : nat -> Z) (K : nat) :
  (forall i, (i < K)%nat -> 1 <= f i <= Z.of_nat K) ->
  (forall i j, (i < j < K)%nat -> f i <> f j) ->
  forall t, 1 <= t <= Z.of_nat K -> exists i, (i < K)%nat /\ f i = t.
Proof.
  intros Hrange Hinj t Ht.
  assert (List.NoDup (map f (seq 0 K))) as Hnodup.
  { apply Finite.Injective_map_NoDup_in; [| apply seq_NoDup].
    intros i j Hi Hj Heq. apply in_seq in Hi, Hj.
    destruct (Nat.lt_trichotomy i j) as [Hlt|[?|Hlt]]; [| done |].
    - by destruct (Hinj i j ltac:(lia)).
    - by destruct (Hinj j i ltac:(lia)). }
  assert (incl (map Z.of_nat (seq 1 K)) (map f (seq 0 K))) as Hincl.
  { apply (NoDup_length_incl Hnodup); [by rewrite !length_map, !length_seq|].
    intros z (i & <- & Hi)%in_map_iff. apply in_seq in Hi. pose proof (Hrange i ltac:(lia)).
    apply in_map_iff. exists (Z.to_nat (f i)). split; [lia|]. apply in_seq. lia. }
  assert (In t (map Z.of_nat (seq 1 K))) as Hin.
  { apply in_map_iff. exists (Z.to_nat t). split; [lia|]. apply in_seq. lia. }
  apply Hincl, in_map_iff in Hin as (i & Hi & Hin).
  apply in_seq in Hin. exists i. split; [lia | done].
Qed.

Lemma full_period s t :
  0 < s < m -> 0 < t < m -> exists j, Z.of_nat j < m - 1 /\ nth_seed j s = t.
Proof.
  intros Hs Ht. assert (exists K, Z.of_nat K = m - 1) as [K HK] by (exists (Z.to_nat (m - 1)); apply Z2Nat.id; lia).
  destruct (injection_onto (fun j => nth_seed j s) K) with (t := t) as (j & Hj & Heq); [| | lia |].
  - intros i _. pose proof (nth_seed_range i s Hs). lia.
  - intros i j Hij Heq. apply (nth_seed_return (j - i) (nth_seed i s)); [by apply nth_seed_range | lia | lia |].
    rewrite <- nth_seed_add. replace (j - i + i)%nat with j by lia. done.
  - exists j. split; [lia | done].
Qed.

End SeedPeriod.
