(* ===== verification/TaskTerminator.v ===== *)
(** Stealing and termination of parallel collector threads (utilities/taskqueue.hpp,
    taskqueue.cpp): [GenericTaskQueueSet], which chooses the queue to steal from, and
    [ParallelTaskTerminator], with which threads agree that no work is left. *)
From S2P Require Import Prelude GlobalDefinitions TaskQueue TaskQueueTheorems SeedPeriod.
Import GlobalDefinitions TaskQueue TaskQueueTheorems SeedPeriod.

Module TaskTerminator.

(** ** GenericTaskQueueSet *)

Section QueueSet.
(** The set: the number of queues, the sizes they report, and the [pop_global] of
    each on a state [S]. *)
Context {E S : Type} (_n : Z) (queue_size : S -> Z -> Z) (pop_global : S -> Z -> option E * S).

(** [while (k is excluded) k = randomParkAndMiller(seed) % _n] *)
Fixpoint random_queue (fuel : nat) (seed : Z) (excluded : list Z) : option (Z * Z) :=
  match fuel with
  | O => None
  | Datatypes.S fuel =>
      let seed := randomParkAndMiller seed in
      let k := wrap 32 seed mod _n in
      if bool_decide (k ∈ excluded) then random_queue fuel seed excluded else Some (k, seed)
  end.

(** The task stolen, the seed and the state after it; [None] when the assertion fails
    or the random choice has not ended after [fuel] rounds. *)
Definition steal_best_of_2 (fuel : nat) (s : S) (queue_num seed : Z)
    : option (option E * Z * S) :=
  if 2 <? _n then
    '(k1, seed) ← random_queue fuel seed [queue_num];
    '(k2, seed) ← random_queue fuel seed [queue_num; k1];
    let sz1 := queue_size s k1 in
    let sz2 := queue_size s k2 in
    let k := if sz1 <? sz2 then k2 else k1 in
    let '(t, s) := pop_global s k in Some (t, seed, s)
  else if _n =? 2 then
    let k := (queue_num + 1) mod 2 in
    let '(t, s) := pop_global s k in Some (t, seed, s)
  else if _n =? 1 then Some (None, seed, s)
  else None.

Fixpoint steal_loop (rounds fuel : nat) (s : S) (queue_num seed : Z) : option (option E * Z * S) :=
  match rounds with
  | O => Some (None, seed, s)
  | Datatypes.S rounds =>
      '(t, seed, s) ← steal_best_of_2 fuel s queue_num seed;
      match t with
      | Some _ => Some (t, seed, s)
      | None => steal_loop rounds fuel s queue_num seed
      end
  end.
Definition steal (fuel : nat) (s : S) (queue_num seed : Z) : option (option E * Z * S) :=
  steal_loop (Z.to_nat (wrap 32 (2 * _n))) fuel s queue_num seed.

(** [peek]: whether some queue of the set has a task. *)
Definition peek_set (peek : S -> Z -> bool) (s : S) : bool :=
  match for_until (Z.to_nat _n) 0 (fun j => if peek s j then Some true else None) with
  | Some r => r
  | None => false
  end.

End QueueSet.

(** ** ParallelTaskTerminator *)

(** How a thread waits: what it does in this round. *)
Inductive wait : Set := Yield | Spin (rounds : Z) | Sleep.

(** The local counters of [offer_termination]. *)
Record counters : Set := mkCounters {
  yield_count : Z; hard_spin_count : Z; hard_spin_limit : Z; hard_spin_start : Z }.

Section Waiting.
(** The flags WorkStealingHardSpins, WorkStealingSpinToYieldRatio and
    WorkStealingYieldsBeforeSleep. *)
Context (HardSpins SpinToYieldRatio YieldsBeforeSleep : Z).

Definition initial_counters : counters :=
  let limit := if 0 <? SpinToYieldRatio
               then MAX2 (wrap 32 (Z.shiftr HardSpins SpinToYieldRatio)) 1 else wrap 32 HardSpins in
  mkCounters 0 0 limit limit.

Definition wait_round (c : counters) : wait * counters :=
  if yield_count c <=? YieldsBeforeSleep then
    let yields := wrap 32 (yield_count c + 1) in
    if SpinToYieldRatio <? hard_spin_count c then
      (Yield, mkCounters yields 0 (hard_spin_start c) (hard_spin_start c))
    else
      let limit := MIN2 (wrap 32 (2 * hard_spin_limit c)) (wrap 32 HardSpins) in
      (Spin limit, mkCounters yields (wrap 32 (hard_spin_count c + 1)) limit (hard_spin_start c))
  else (Sleep, mkCounters 0 (hard_spin_count c) (hard_spin_limit c) (hard_spin_start c)).

Fixpoint waits (n : nat) (c : counters) : list wait * counters :=
  match n with
  | O => ([], c)
  | S n => let '(w, c) := wait_round c in let '(ws, c) := waits n c in (w :: ws, c)
  end.

End Waiting.

(** Where a thread is: outside [offer_termination]; past its first assertion; at the
    head of the loop; past the assertion there; waiting and looking for work; about to
    take its offer back; before the last assertion; or returned with [true]. *)
Inductive thread : Set :=
  | Working | Offering | AtLoop | Checking | Looking | Withdrawing | Withdrawn | Terminated | Failed.

Section Terminator.
Context (_n_threads : Z).

(** One access to [_offered_termination] or to the queue set by a thread; [work] is
    what [peek_in_queue_set] or [should_exit_termination] answers.  [None] after the
    end. *)
Definition offer_step (offered : Z) (work : bool) (t : thread) : option (Z * thread) :=
  match t with
  | Working =>
      if negb (0 <? _n_threads) || negb (offered <? _n_threads) then Some (offered, Failed)
      else Some (offered, Offering)
  | Offering => Some (jint (offered + 1), AtLoop)
  | AtLoop =>
      if negb (offered <=? _n_threads) then Some (offered, Failed) else Some (offered, Checking)
  | Checking =>
      if offered =? _n_threads then Some (offered, Terminated) else Some (offered, Looking)
  | Looking => Some (offered, if work then Withdrawing else AtLoop)
  | Withdrawing => Some (jint (offered - 1), Withdrawn)
  | Withdrawn =>
      if negb (offered <? _n_threads) then Some (offered, Failed) else Some (offered, Working)
  | Terminated | Failed => None
  end.

Inductive terminator_step : Z * list thread -> Z * list thread -> Prop :=
  | one_thread offered ts i t work offered' t' :
      ts !! i = Some t -> offer_step offered work t = Some (offered', t') ->
      terminator_step (offered, ts) (offered', <[i := t']> ts).

(** [reset_for_reuse]: [None] when the assertion fails. *)
Definition reset_for_reuse (offered : Z) : option Z :=
  if negb (offered =? 0) then if offered =? _n_threads then Some 0 else None else Some offered.

End Terminator.

(** ** Properties *)

Lemma random_queue_range n fuel seed excluded k seed' :
  0 < n -> random_queue n fuel seed excluded = Some (k, seed') -> 0 <= k < n /\ k ∉ excluded.
Proof.
  intros Hn. revert seed. induction fuel as [|fuel IH]; intros seed; simpl; [done|].
  case_bool_decide; [apply IH | intros [= <- <-]]. split; [by apply Z.mod_pos_bound | done].
Qed.

Lemma random_queue_finds n j fuel seed excluded :
  wrap 32 (nth_seed j (randomParkAndMiller seed)) mod n ∉ excluded -> (j < fuel)%nat ->
  exists k seed', random_queue n fuel seed excluded = Some (k, seed').
Proof.
  revert fuel seed. induction j as [|j IH]; intros [|fuel] seed Hj Hf; try lia; simpl;
    (case_bool_decide as Hk; [| by eauto]).
  - by destruct Hj.
  - apply IH; [| lia]. unfold nth_seed in Hj. by rewrite Nat.iter_succ_r in Hj.
Qed.

Lemma random_queue_seed n fuel seed excluded k seed' :
  0 < seed < 2147483647 -> random_queue n fuel seed excluded = Some (k, seed') -> 0 < seed' < 2147483647.
Proof.
  revert seed. induction fuel as [|fuel IH]; intros seed Hs; simpl; [done|].
  pose proof (proj1 (random_seed_correct seed Hs)).
  case_bool_decide; [by apply IH | by intros [= <- <-]].
Qed.

(** The loop that draws a queue other than two given ones ends. *)
Lemma random_queue_ends n fuel seed x y :
  2 < n -> 0 < seed < 2147483647 -> 2147483646 <= Z.of_nat fuel ->
  exists k seed', random_queue n fuel seed [x; y] = Some (k, seed').
Proof.
  intros Hn Hs Hf.
  assert (exists t, 0 < t < 2147483647 /\ wrap 32 t mod n ∉ [x; y]) as (t & Ht & Hnot).
  { assert (forall t, 0 < t < 4 -> wrap 32 t = t) as Hw by (intros; apply wrap_small; unfold in_unsigned; lia).
    assert (3 mod n = 0 \/ 3 mod n = 3) as H3.
    { destruct (Z.eq_dec n 3) as [->|]; [by left | right; apply Z.mod_small; lia]. }
    destruct (decide (x = 1 \/ y = 1)); [destruct (decide (x = 2 \/ y = 2));
      [exists 3 | exists 2] | exists 1]; (split; [lia|]);
      rewrite Hw, !not_elem_of_cons by lia; rewrite ?(Z.mod_small 1), ?(Z.mod_small 2) by lia;
      (split; [lia | split; [lia | apply not_elem_of_nil]]). }
  destruct (full_period (randomParkAndMiller seed) t) as (j & Hj & Heq); [by apply random_seed_correct | done |].
  apply (random_queue_finds n j); [by rewrite Heq | lia].
Qed.

Lemma random_queue_one n fuel seed x : random_queue n fuel seed [x] = random_queue n fuel seed [x; x].
Proof.
  revert seed. induction fuel as [|fuel IH]; intros seed; simpl; [done|]. rewrite IH.
  rewrite (bool_decide_ext (_ ∈ [x]) (wrap 32 (randomParkAndMiller seed) mod n ∈ [x; x])); [done|].
  rewrite !elem_of_cons. tauto.
Qed.

(** Which queue a try steals from. *)
Definition victim {S} (n : Z) (queue_size : S -> Z -> Z) (s : S) (queue_num k : Z) : Prop :=
  0 <= k < n /\ k <> queue_num /\
  (2 < n -> exists k', 0 <= k' < n /\ k' <> queue_num /\ k' <> k /\ queue_size s k' <= queue_size s k).

Lemma steal_best_of_2_spec {E S} n (queue_size : S -> Z -> Z) (pop_global : S -> Z -> option E * S)
    fuel s queue_num seed :
  1 < n -> 0 <= queue_num < n -> 0 < seed < 2147483647 -> 2147483646 <= Z.of_nat fuel ->
  exists k seed', victim n queue_size s queue_num k /\ 0 < seed' < 2147483647 /\
    steal_best_of_2 n queue_size pop_global fuel s queue_num seed
    = Some ((pop_global s k).1, seed', (pop_global s k).2).
Proof.
  intros Hn Hq Hseed Hfuel. unfold steal_best_of_2, victim. destruct (Z.ltb_spec 2 n) as [H2|H2].
  - rewrite random_queue_one.
    destruct (random_queue_ends n fuel seed queue_num queue_num) as (k1 & seed1 & H1); [lia | lia | lia |].
    pose proof (random_queue_seed _ _ _ _ _ _ Hseed H1) as Hseed1. rewrite H1. simpl.
    destruct (random_queue_ends n fuel seed1 queue_num k1) as (k2 & seed2 & H2'); [lia | lia | lia |].
    pose proof (random_queue_seed _ _ _ _ _ _ Hseed1 H2') as Hseed2. rewrite H2'. simpl.
    apply random_queue_range in H1, H2'; try lia. rewrite !not_elem_of_cons in *.
    exists (if queue_size s k1 <? queue_size s k2 then k2 else k1), seed2.
    destruct (pop_global _ _) as [t0 s0].
    split; [| split; [done | done]].
    destruct (Z.ltb_spec (queue_size s k1) (queue_size s k2)).
    + split; [lia|]. split; [tauto|]. intros _. exists k1. intuition lia.
    + split; [lia|]. split; [tauto|]. intros _. exists k2. intuition lia.
  - assert (n = 2) as -> by lia. simpl. exists ((queue_num + 1) mod 2), seed.
    destruct (pop_global s ((queue_num + 1) mod 2)) as [t0 s0].
    split; [| split; done]. split; [by apply Z.mod_pos_bound|]. split; [| lia].
    assert (queue_num = 0 \/ queue_num = 1) as [->| ->] by lia; done.
Qed.

(** What a thief sees of [r] tries: each takes the next task of an admissible victim;
    the first that finds one ends them. *)
Inductive tries {E S} (n : Z) (queue_size : S -> Z -> Z) (pop_global : S -> Z -> option E * S)
    (queue_num : Z) : nat -> S -> option E -> S -> Prop :=
  | no_tries s : tries n queue_size pop_global queue_num 0 s None s
  | found r s k t s' : victim n queue_size s queue_num k -> pop_global s k = (Some t, s') ->
      tries n queue_size pop_global queue_num (Datatypes.S r) s (Some t) s'
  | missed r s k s' t s'' : victim n queue_size s queue_num k -> pop_global s k = (None, s') ->
      tries n queue_size pop_global queue_num r s' t s'' ->
      tries n queue_size pop_global queue_num (Datatypes.S r) s t s''.

(** A steal always ends, from every legal seed, and tries at most twice as many
    times as there are queues: each try takes from a queue of the set other than the
    thief's own, of two different sampled queues the one that reports more tasks, and
    the first task found is returned. *)
Theorem steal_victim {E S} n (queue_size : S -> Z -> Z) (pop_global : S -> Z -> option E * S)
    fuel s queue_num seed :
  1 < n -> 0 <= queue_num < n -> 0 < seed < 2147483647 -> 2147483646 <= Z.of_nat fuel ->
  exists t seed' s', steal n queue_size pop_global fuel s queue_num seed = Some (t, seed', s') /\
    0 < seed' < 2147483647 /\
    tries n queue_size pop_global queue_num (Z.to_nat (wrap 32 (2 * n))) s t s'.
Proof.
  intros Hn Hq Hseed Hfuel. unfold steal. generalize (Z.to_nat (wrap 32 (2 * n))) as rounds.
  intros rounds. revert s seed Hseed. induction rounds as [|r IH]; intros s seed Hseed.
  - exists None, seed, s. split; [done|]. split; [done | constructor].
  - destruct (steal_best_of_2_spec n queue_size pop_global fuel s queue_num seed Hn Hq Hseed Hfuel)
      as (k & seed1 & Hk & Hseed1 & Hone).
    cbn [steal_loop]. rewrite Hone. cbn [mbind option_bind].
    destruct (pop_global s k) as [[t|] s1] eqn:Hpop; cbn [fst snd].
    + exists (Some t), seed1, s1. split; [done|]. split; [done | by eapply found].
    + destruct (IH s1 seed1 Hseed1) as (t & seed2 & s2 & Hrest & Hseed2 & Htries).
      exists t, seed2, s2. split; [done|]. split; [done | by eapply missed].
Qed.

(** A thread counted in [_offered_termination]. *)
Definition is_offering (t : thread) : bool :=
  match t with Working | Offering | Withdrawn | Failed => false | _ => true end.
Definition offering (ts : list thread) : Z := Z.of_nat (length (List.filter is_offering ts)).

Lemma offering_insert ts i t t' :
  ts !! i = Some t ->
  offering (<[i := t']> ts) = offering ts - Z.b2z (is_offering t) + Z.b2z (is_offering t').
Proof.
  unfold offering. revert i. induction ts as [|t0 ts IH]; intros [|i]; simpl; try done.
  - intros [= ->]. destruct (is_offering t), (is_offering t'); simpl; lia.
  - intros Hi. specialize (IH i Hi). destruct (is_offering t0); simpl; lia.
Qed.

Lemma offering_bound ts : 0 <= offering ts <= Z.of_nat (length ts).
Proof. unfold offering. induction ts as [|t ts IH]; simpl; [lia|]. destruct (is_offering t); simpl; lia. Qed.

Lemma offering_all ts : offering ts = Z.of_nat (length ts) <-> Forall (fun t => is_offering t = true) ts.
Proof.
  unfold offering. induction ts as [|t ts IH]; simpl; [split; done|].
  pose proof (offering_bound ts) as Hb. unfold offering in Hb. rewrite Forall_cons, <- IH.
  destruct (is_offering t); simpl; split; intros; try lia; destruct_and?; done.
Qed.

(** The invariant of the protocol. *)
Definition terminator_inv (n : Z) (s : Z * list thread) : Prop :=
  s.1 = offering s.2 /\ Z.of_nat (length s.2) = n /\ Failed ∉ s.2.

(** A thread that has not offered leaves room in the count, one that has is in it. *)
Lemma offering_room ts i t :
  ts !! i = Some t ->
  if is_offering t then 1 <= offering ts else offering ts < Z.of_nat (length ts).
Proof.
  intros Hi. pose proof (offering_insert ts i t Working Hi) as Hout.
  pose proof (offering_insert ts i t Checking Hi) as Hin.
  pose proof (offering_bound (<[i := Working]> ts)). pose proof (offering_bound (<[i := Checking]> ts)).
  rewrite length_insert in *. destruct (is_offering t); simpl in *; lia.
Qed.

Lemma offer_step_ok n offered ts i t work offered' t' :
  0 < n < 2 ^ 31 -> terminator_inv n (offered, ts) -> ts !! i = Some t ->
  offer_step n offered work t = Some (offered', t') ->
  offered' = offering (<[i := t']> ts) /\ t' <> Failed.
Proof.
  intros Hn (Hoff & Hlen & Hok) Hi Hstep. simpl in *.
  pose proof (offering_insert ts i t t' Hi) as Hins. pose proof (offering_bound ts) as Hb.
  pose proof (offering_room ts i t Hi) as Hroom.
  assert ((offered < n -> jint (offered + 1) = offered + 1) /\ (1 <= offered -> jint (offered - 1) = offered - 1)) as [Hinc Hdec].
  { unfold jint. split; intros; apply swrap_small; unfold in_signed; lia. }
  destruct t; simpl in Hroom, Hstep, Hins; try done.
  - rewrite (proj2 (Z.ltb_lt 0 n)), (proj2 (Z.ltb_lt offered n)) in Hstep by lia.
    simpl in Hstep. simplify_eq. simpl in *. split; [lia | done].
  - rewrite Hinc in Hstep by lia. simplify_eq. simpl in *. split; [lia | done].
  - rewrite (proj2 (Z.leb_le offered n)) in Hstep by lia. simpl in Hstep.
    simplify_eq. simpl in *. split; [lia | done].
  - destruct (offered =? n); simplify_eq; simpl in *; (split; [lia | done]).
  - destruct work; simplify_eq; simpl in *; (split; [lia | done]).
  - rewrite Hdec in Hstep by lia. simplify_eq. simpl in *. split; [lia | done].
  - rewrite (proj2 (Z.ltb_lt offered n)) in Hstep by lia. simpl in Hstep.
    simplify_eq. simpl in *. split; [lia | done].
Qed.

Lemma terminator_step_inv n s s' :
  0 < n < 2 ^ 31 -> terminator_inv n s -> terminator_step n s s' -> terminator_inv n s'.
Proof.
  intros Hn Hinv Hstep. destruct Hstep as [offered ts i t work offered' t' Hi Hstep].
  destruct (offer_step_ok n offered ts i t work offered' t' Hn Hinv Hi Hstep) as [Heq Ht'].
  destruct Hinv as (_ & Hlen & Hok). split; [done|]. split; [by simpl; rewrite length_insert|].
  intros Hin. apply list_elem_of_lookup in Hin as [j Hj]. simpl in Hj.
  rewrite list_lookup_insert_Some in Hj. destruct Hj as [(_ & Hj & _)|[_ Hj]]; [done|].
  apply Hok. by eapply list_elem_of_lookup_2.
Qed.

(** C17.  Agreement on termination.  In every interleaving of the threads, with any answers
    to the question whether there is work, the count is the number of threads inside
    [offer_termination] or past it; no assertion fails; a thread is told that all have
    terminated only when every thread has made its offer; and when all threads have
    returned the terminator can be reset. *)
Theorem termination_agreed n offered ts :
  (0 < n)%nat -> Z.of_nat n < 2 ^ 31 ->
  rtc (terminator_step (Z.of_nat n)) (0, replicate n Working) (offered, ts) ->
  offered = offering ts /\ 0 <= offered <= Z.of_nat n /\ (Failed ∉ ts) /\
  (forall i work offered', ts !! i = Some Checking ->
    offer_step (Z.of_nat n) offered work Checking = Some (offered', Terminated) ->
    Forall (fun t => is_offering t = true) ts) /\
  (Forall (fun t => t = Terminated) ts \/ Forall (fun t => t = Working) ts ->
    reset_for_reuse (Z.of_nat n) offered = Some 0).
Proof.
  intros Hn Hmax Hsteps.
  assert (terminator_inv (Z.of_nat n) (offered, ts)) as (Hoff & Hlen & Hok).
  { eapply (rtc_ind_r (fun s => terminator_inv (Z.of_nat n) s)); [| | exact Hsteps].
    - repeat split; simpl.
      + clear. induction n as [|n IH]; done.
      + by rewrite length_replicate.
      + intros Hin%elem_of_replicate. destruct Hin as [? _]. done.
    - intros s s' _ Hstep Hinv. eapply terminator_step_inv; [lia | done | done]. }
  simpl in *. pose proof (offering_bound ts). split; [done|]. split; [lia|]. split; [done|]. split.
  - intros i work offered' Hi. simpl. destruct (Z.eqb_spec offered (Z.of_nat n)); [| done]. intros _. apply offering_all. lia.
  - unfold reset_for_reuse. intros [Hall|Hall].
    + assert (offering ts = Z.of_nat (length ts)) as Heq.
      { apply offering_all. eapply Forall_impl; [exact Hall|]. by intros t ->. }
      rewrite (proj2 (Z.eqb_neq offered 0)), (proj2 (Z.eqb_eq offered (Z.of_nat n))) by lia. done.
    + assert (offering ts = 0) as Heq.
      { unfold offering. clear -Hall. induction Hall as [|t ts -> _ IH]; done. }
      rewrite Hoff, Heq. done.
Qed.

(** Waiting threads spin at most HardSpins rounds at a time, yield after at most
    SpinToYieldRatio + 1 spins, and sleep after at most YieldsBeforeSleep + 1 rounds
    without sleeping. *)
Definition counters_ok (HardSpins SpinToYieldRatio YieldsBeforeSleep : Z) (c : counters) : Prop :=
  0 <= yield_count c <= YieldsBeforeSleep + 1 /\ 0 <= hard_spin_count c <= SpinToYieldRatio + 1 /\
  0 <= hard_spin_limit c < 2 ^ 31 /\ 0 <= hard_spin_start c < 2 ^ 31.

Theorem waiting_bounded HardSpins Ratio Yields n ws c :
  0 <= HardSpins < 2 ^ 31 -> 0 <= Ratio < 32 -> 0 <= Yields < 2 ^ 32 - 1 ->
  waits HardSpins Ratio Yields n (initial_counters HardSpins Ratio) = (ws, c) ->
  counters_ok HardSpins Ratio Yields c /\ Forall (fun w => match w with Spin r => 0 <= r <= HardSpins | _ => True end) ws.
Proof.
  intros Hh Hr Hy Hw.
  assert (counters_ok HardSpins Ratio Yields (initial_counters HardSpins Ratio)) as Hc.
  { unfold counters_ok, initial_counters. simpl. rewrite Z.shiftr_div_pow2, MAX2_max by lia.
    assert (0 <= HardSpins / 2 ^ Ratio <= HardSpins).
    { split; [apply Z.div_pos; [lia | apply Z.pow_pos_nonneg; lia]|].
      apply Z.div_le_upper_bound; [apply Z.pow_pos_nonneg; lia|].
      pose proof (Z.pow_pos_nonneg 2 Ratio ltac:(lia) ltac:(lia)). nia. }
    rewrite !wrap_small by (unfold in_unsigned; lia). destruct (0 <? Ratio); lia. }
  revert ws c Hw Hc. generalize (initial_counters HardSpins Ratio).
  induction n as [|n IH]; intros c0 ws c Hw Hc; simpl in Hw; [by simplify_eq|].
  destruct (wait_round HardSpins Ratio Yields c0) as [w c1] eqn:Hround.
  destruct (waits HardSpins Ratio Yields n c1) as [ws' c'] eqn:Hrest. simplify_eq.
  enough (counters_ok HardSpins Ratio Yields c1 /\ match w with Spin r => 0 <= r <= HardSpins | _ => True end) as [Hc1 Hw].
  { destruct (IH c1 ws' c Hrest Hc1). split; [done | by constructor]. }
  clear IH Hrest. unfold counters_ok, wait_round in *. rewrite MIN2_min in Hround.
  rewrite (wrap_small 32 HardSpins), (wrap_small 32 (2 * _)) in Hround by (unfold in_unsigned; lia).
  destruct (Z.leb_spec (yield_count c0) Yields), (Z.ltb_spec Ratio (hard_spin_count c0));
    simplify_eq; simpl; rewrite ?wrap_small by (unfold in_unsigned; lia); lia.
Qed.

(** Two threads: the first offers and looks for work before the second has offered,
    finds none, checks again and terminates. *)
Ltac thread_moves i t w o t' := eapply rtc_l; [apply (one_thread 2 _ _ i t w o t'); reflexivity|]; simpl.
Lemma termination_agreed_witness :
  exists ts, rtc (terminator_step 2) (0, replicate 2 Working) (2, ts) /\ ts !! 0%nat = Some Terminated /\
    2 = offering ts.
Proof.
  assert (rtc (terminator_step 2) (0, replicate 2 Working) (2, [Terminated; AtLoop])) as Hsteps.
  { thread_moves 0%nat Working true 0 Offering. thread_moves 0%nat Offering true 1 AtLoop.
    thread_moves 0%nat AtLoop true 1 Checking. thread_moves 0%nat Checking true 1 Looking.
    thread_moves 1%nat Working true 1 Offering. thread_moves 1%nat Offering true 2 AtLoop.
    thread_moves 0%nat Looking false 2 AtLoop. thread_moves 0%nat AtLoop true 2 Checking.
    thread_moves 0%nat Checking true 2 Terminated. apply rtc_refl. }
  exists [Terminated; AtLoop]. split; [exact Hsteps|]. split; [reflexivity|].
  exact (proj1 (termination_agreed 2 2 [Terminated; AtLoop] ltac:(lia) ltac:(lia) Hsteps)).
Defined.

(** Three queues of which the third is the only one with a task. *)
Definition one_task (s : bool) (k : Z) : option Z * bool :=
  if s && (k =? 2) then (Some 7, false) else (None, s).
Lemma steal_victim_witness :
  exists t seed s', steal 3 (fun s k => if s && (k =? 2) then 1 else 0) one_task (Z.to_nat 2147483646)
    true 0 17 = Some (t, seed, s') /\
  tries 3 (fun (s : bool) k => if s && (k =? 2) then 1 else 0) one_task 0 6 true t s'.
Proof.
  destruct (steal_victim 3 (fun s k => if s && (k =? 2) then 1 else 0) one_task (Z.to_nat 2147483646) true 0 17)
    as (t & seed & s' & Hsteal & _ & Htries); [lia | lia | lia | by rewrite Z2Nat.id |].
  exists t, seed, s'. split; [exact Hsteal | exact Htries].
Defined.

End TaskTerminator.
