(* ===== verification/Pack200.v ===== *)
(** The bit transforms [code/compressedStream.cpp] applies before coding a
    value: the SIGNED5 sign encoding and the bit reversal of float patterns. *)
From S2P Require Import Prelude.

Module Pack200.

Definition encode_sign (value : Z) : Z :=
  juint (Z.lxor (jint (Z.shiftl value 1)) (Z.shiftr value 31)).

Definition decode_sign (value : Z) : Z :=
  jint (Z.lxor (Z.shiftr value 1) (juint (- (jint (Z.land value 1))))).

Definition reverse_int (i : Z) : Z :=
  let i := Z.lor (juint (Z.shiftl (Z.land i 0x55555555) 1)) (Z.land (Z.shiftr i 1) 0x55555555) in
  let i := Z.lor (juint (Z.shiftl (Z.land i 0x33333333) 2)) (Z.land (Z.shiftr i 2) 0x33333333) in
  let i := Z.lor (juint (Z.shiftl (Z.land i 0x0f0f0f0f) 4)) (Z.land (Z.shiftr i 4) 0x0f0f0f0f) in
  let i := Z.lor (Z.lor (Z.lor (juint (Z.shiftl i 24))
                               (juint (Z.shiftl (Z.land i 0xff00) 8)))
                        (Z.land (Z.shiftr i 8) 0xff00))
                 (Z.shiftr i 24) in
  i.

(** ** The sign and bit-reversal transforms *)

Lemma encode_sign_spec v :
  in_signed 32 v -> encode_sign v = if v <? 0 then -2 * v - 1 else 2 * v.
Proof.
  intros Hv. unfold in_signed in Hv. change (32 - 1) with 31 in Hv.
  unfold encode_sign, juint, jint.
  rewrite Z.shiftl_mul_pow2, Z.shiftr_div_pow2 by lia.
  destruct (Z.ltb_spec v 0) as [Hneg|Hpos].
  - replace (v / 2 ^ 31) with (-1)
      by (apply (Z.div_unique _ _ _ (v + 2 ^ 31)); lia).
    rewrite Z.lxor_m1_r. unfold Z.lnot.
    rewrite <- (wrap_small 32 (-2 * v - 1)) by (unfold in_unsigned; lia).
    rewrite <- Z.sub_1_r.
    replace (- swrap 32 (v * 2 ^ 1) - 1) with (-1 - swrap 32 (v * 2 ^ 1)) by lia.
    unfold wrap. rewrite Zminus_mod. fold (wrap 32 (swrap 32 (v * 2 ^ 1))).
    rewrite wrap_swrap by lia. unfold wrap. rewrite <- Zminus_mod. f_equal. lia.
  - rewrite Z.div_small by lia. rewrite Z.lxor_0_r, wrap_swrap by lia.
    rewrite wrap_small; unfold in_unsigned; lia.
Qed.

Lemma encode_sign_range v : in_unsigned 32 (encode_sign v).
Proof. apply wrap_range. lia. Qed.

Lemma decode_sign_spec u :
  in_unsigned 32 u -> decode_sign u = if Z.odd u then - (u / 2) - 1 else u / 2.
Proof.
  intros Hu. unfold in_unsigned in Hu. unfold decode_sign, jint, juint.
  replace (Z.land u 1) with (Z.b2z (Z.odd u)).
  2: { change 1 with (Z.ones 1) at 1. rewrite Z.land_ones by lia.
       rewrite Zmod_odd. by destruct (Z.odd u). }
  rewrite Z.shiftr_div_pow2 by lia. change (2 ^ 1) with 2.
  assert (0 <= u / 2 < 2 ^ 31) as Hh.
  { split; [apply Z.div_pos; lia | apply Z.div_lt_upper_bound; lia]. }
  destruct (Z.odd u); simpl Z.b2z.
  - change (wrap 32 (- swrap 32 1)) with (Z.ones 32).
    assert (Z.lxor (u / 2) (Z.ones 32) = 2 ^ 32 - 1 - u / 2) as ->.
    { replace (2 ^ 32 - 1 - u / 2) with (Z.ones 32 - u / 2)
        by (rewrite Z.ones_equiv; lia).
      rewrite Z.sub_nocarry_ldiff.
      - bitwise i. rewrite Z.ldiff_spec.
        destruct (Z.lt_ge_cases i 32).
        + rewrite Z.ones_spec_low by lia. by destruct (Z.testbit (u / 2) i).
        + rewrite Z.ones_spec_high by lia.
          rewrite (testbit_high 31) by (done || lia). done.
      - bitwise i. rewrite Z.ldiff_spec.
        destruct (Z.lt_ge_cases i 32).
        + rewrite Z.ones_spec_low by lia. by rewrite andb_false_r.
        + rewrite (testbit_high 31) by (done || lia). done. }
    rewrite (swrap_wrap_eq 32 _ (- (u / 2) - 1)); [| lia |].
    + apply swrap_small; [lia | unfold in_signed; change (32 - 1) with 31; lia].
    + apply wrap_eq. replace (_ - _) with (2 ^ 32) by lia. reflexivity.
  - change (wrap 32 (- swrap 32 0)) with 0. rewrite Z.lxor_0_r.
    apply swrap_small; [lia | unfold in_signed; change (32 - 1) with 31; lia].
Qed.

Lemma decode_encode_sign v : in_signed 32 v -> decode_sign (encode_sign v) = v.
Proof.
  intros Hv. rewrite decode_sign_spec by apply encode_sign_range.
  rewrite encode_sign_spec by done. destruct (Z.ltb_spec v 0).
  - replace (-2 * v - 1) with (1 + 2 * (- v - 1)) by lia.
    rewrite Z.odd_add_mul_2. simpl.
    rewrite (Z.mul_comm 2), Z.div_add by lia. change (1 / 2) with 0. lia.
  - rewrite Z.odd_mul. simpl. rewrite Z.mul_comm, Z.div_mul by lia. done.
Qed.

(** One round of [reverse_int] swaps neighbouring groups of [s] bits. *)
Definition swap_groups (mask s i : Z) : Z :=
  Z.lor (juint (Z.shiftl (Z.land i mask) s)) (Z.land (Z.shiftr i s) mask).

Definition swap_bytes (i : Z) : Z :=
  Z.lor (Z.lor (Z.lor (juint (Z.shiftl i 24)) (juint (Z.shiftl (Z.land i 0xff00) 8)))
               (Z.land (Z.shiftr i 8) 0xff00))
        (Z.shiftr i 24).

Lemma nat_of_bit k : 0 <= k < 32 -> exists n, (n < 32)%nat /\ k = Z.of_nat n.
Proof. intros. exists (Z.to_nat k). lia. Qed.

Ltac bit_cases k Hk :=
  apply nat_of_bit in Hk as (n & Hn & ->); unfold swap_groups, swap_bytes, juint;
  nat_cases n ltac:(bit_eval; reflexivity).

Lemma swap_groups_1 i k : 0 <= k < 32 ->
  Z.testbit (swap_groups 0x55555555 1 i) k = Z.testbit i (Z.lxor k 1).
Proof. intros Hk. bit_cases k Hk. Qed.

Lemma swap_groups_2 i k : 0 <= k < 32 ->
  Z.testbit (swap_groups 0x33333333 2 i) k = Z.testbit i (Z.lxor k 2).
Proof. intros Hk. bit_cases k Hk. Qed.

Lemma swap_groups_4 i k : 0 <= k < 32 ->
  Z.testbit (swap_groups 0x0f0f0f0f 4 i) k = Z.testbit i (Z.lxor k 4).
Proof. intros Hk. bit_cases k Hk. Qed.

Lemma swap_bytes_bits i k : in_unsigned 32 i -> 0 <= k < 32 ->
  Z.testbit (swap_bytes i) k = Z.testbit i (Z.lxor k 24).
Proof.
  intros Hi Hk. assert (forall m, 32 <= m -> Z.testbit i m = false) as Hh.
  { intros m Hm. by apply (testbit_high 32); [| lia]. }
  apply nat_of_bit in Hk as (n & Hn & ->). unfold swap_bytes, juint.
  nat_cases n ltac:(bit_eval;
    repeat match goal with |- context [Z.testbit i ?m] => rewrite (Hh m) by lia end;
    autorewrite with bools; reflexivity).
Qed.

Lemma swap_groups_range mask s i :
  in_unsigned 32 mask -> in_unsigned 32 (swap_groups mask s i).
Proof.
  intros Hm. unfold swap_groups, juint. apply unsigned_of_bits; [lia | |].
  - apply Z.lor_nonneg. split; [apply (wrap_range 32); lia |].
    apply Z.land_nonneg. right. apply Hm.
  - intros k Hk. rewrite Z.lor_spec, Z.land_spec, wrap_bits by lia.
    rewrite (testbit_high 32 mask) by (done || lia).
    destruct (Z.ltb_spec k 32); [lia |]. by rewrite andb_false_r.
Qed.

Lemma reverse_int_swaps u :
  reverse_int u =
    swap_bytes (swap_groups 0x0f0f0f0f 4 (swap_groups 0x33333333 2
      (swap_groups 0x55555555 1 u))).
Proof. reflexivity. Qed.

Lemma reverse_int_bits u k :
  0 <= k < 32 -> Z.testbit (reverse_int u) k = Z.testbit u (31 - k).
Proof.
  intros Hk. rewrite reverse_int_swaps, swap_bytes_bits;
    [| by apply swap_groups_range | done].
  apply nat_of_bit in Hk as (n & Hn & ->).
  nat_cases n ltac:(rewrite swap_groups_4, swap_groups_2, swap_groups_1
                      by (vm_compute; split; congruence); reflexivity).
Qed.

Lemma reverse_int_range u : in_unsigned 32 (reverse_int u).
Proof.
  rewrite reverse_int_swaps. set (i := swap_groups 0x0f0f0f0f _ _).
  assert (in_unsigned 32 i) as Hi by by apply swap_groups_range.
  unfold swap_bytes, juint. apply unsigned_of_bits; [lia | |].
  - rewrite !Z.lor_nonneg, Z.land_nonneg, !Z.shiftr_nonneg.
    repeat split; try (apply (wrap_range 32); lia); [right; lia | apply Hi].
  - intros k Hk. rewrite !Z.lor_spec, !wrap_bits, Z.land_spec, !Z.shiftr_spec by lia.
    rewrite !(testbit_high 32 i), (testbit_high 32 0xff00) by (done || lia).
    destruct (Z.ltb_spec k 32); [lia |]. by rewrite andb_false_r.
Qed.

Lemma reverse_int_involutive u : in_unsigned 32 u -> reverse_int (reverse_int u) = u.
Proof.
  intros Hu. apply Z.bits_inj'. intros k Hk.
  destruct (Z.lt_ge_cases k 32).
  - rewrite !reverse_int_bits by lia. f_equal. lia.
  - rewrite (testbit_high 32 u), (testbit_high 32 (reverse_int _))
      by (done || lia || apply reverse_int_range). done.
Qed.

End Pack200.
