(* ===== verification/CompressedStream.v ===== *)
(** The UNSIGNED5/SIGNED5 byte streams of [code/compressedStream.hpp] and
    [code/compressedStream.cpp], in which the compilers file debugging
    information. *)
From S2P Require Import Prelude GlobalDefinitions Pack200.
Import GlobalDefinitions Pack200.

Module CompressedStream.

Definition lg_H : Z := 6.
Definition H : Z := Z.shiftl 1 lg_H.
Definition L : Z := Z.shiftl 1 8 - H.
Definition MAX_i : Z := 4.

(** [u_char* _buffer; int _position].  A cell of the buffer is [None] until it
    has been stored to. *)
Record CompressedStream : Set := mkStream {
  _buffer : list (option Z);
  _position : Z
}.

Record CompressedWriteStream : Set := mkWriteStream {
  _stream : CompressedStream;
  _size : Z
}.

Definition set_position (s : CompressedStream) (position : Z) : CompressedStream :=
  mkStream (_buffer s) position.

(** ** Reading; [None] is a read outside the initialised part of the buffer *)

Definition byte_at (s : CompressedStream) (i : Z) : option Z :=
  if 0 <=? i then mjoin (_buffer s !! Z.to_nat i) else None.

Definition read (s : CompressedStream) : option (Z * CompressedStream) :=
  b ← byte_at s (_position s);
  Some (b, set_position s (_position s + 1)).

(** The loop over [b[1]...b[4]]; it stops at [i == MAX_i], so 4 rounds are enough. *)
Fixpoint read_int_mb_loop (fuel : nat) (s : CompressedStream) (pos i lg_H_i sum : Z) :
    option (Z * CompressedStream) :=
  match fuel with
  | O => None
  | S fuel =>
      let i := i + 1 in
      b_i ← byte_at s (pos + i);
      let sum := jint (sum + jint (Z.shiftl b_i lg_H_i)) in
      if (b_i <? L) || (i =? MAX_i)
      then Some (sum, set_position s (pos + i + 1))
      else read_int_mb_loop fuel s pos i (lg_H_i + lg_H) sum
  end.

Definition read_int_mb (s : CompressedStream) (b0 : Z) : option (Z * CompressedStream) :=
  let pos := _position s - 1 in
  read_int_mb_loop 4 s pos 0 lg_H b0.

Definition read_int (s : CompressedStream) : option (Z * CompressedStream) :=
  '(b0, s) ← read s;
  if b0 <? L then Some (b0, s) else read_int_mb s b0.

Definition read_bool (s : CompressedStream) : option (Z * CompressedStream) :=
  '(b, s) ← read s; Some (u_char b, s).
Definition read_byte (s : CompressedStream) : option (Z * CompressedStream) :=
  '(b, s) ← read s; Some (jbyte b, s).
Definition read_char (s : CompressedStream) : option (Z * CompressedStream) :=
  '(v, s) ← read_int s; Some (jchar v, s).
Definition read_signed_int (s : CompressedStream) : option (Z * CompressedStream) :=
  '(v, s) ← read_int s; Some (decode_sign (juint v), s).
Definition read_short (s : CompressedStream) : option (Z * CompressedStream) :=
  '(v, s) ← read_signed_int s; Some (jshort v, s).

(** [jfloat_cast] and [jdouble_cast] reinterpret bits: a float is its 32-bit
    pattern and a double its 64-bit pattern, both as signed integers. *)
Definition read_float (s : CompressedStream) : option (Z * CompressedStream) :=
  '(rf, s) ← read_int s;
  let f := jint (reverse_int (juint rf)) in
  Some (f, s).
Definition read_double (s : CompressedStream) : option (Z * CompressedStream) :=
  '(rh, s) ← read_int s;
  '(rl, s) ← read_int s;
  let h := jint (reverse_int (juint rh)) in
  let l := jint (reverse_int (juint rl)) in
  Some (jlong_from h l, s).
Definition read_long (s : CompressedStream) : option (Z * CompressedStream) :=
  '(low, s) ← read_signed_int s;
  '(high, s) ← read_signed_int s;
  Some (jlong_from high low, s).

(** ** Writing; [None] is a store outside the buffer or an [int] overflow of the
    buffer size *)

Definition new_write_stream (initial_size : Z) : CompressedWriteStream :=
  mkWriteStream (mkStream (replicate (Z.to_nat initial_size) None) 0) initial_size.

Definition position (s : CompressedWriteStream) : Z := _position (_stream s).
Definition full (s : CompressedWriteStream) : bool := _size s <=? position s.

Definition store (s : CompressedWriteStream) (b : Z) : option CompressedWriteStream :=
  if (0 <=? position s) && (Z.to_nat (position s) <? length (_buffer (_stream s)))%nat
  then Some (mkWriteStream
               (mkStream (<[Z.to_nat (position s) := Some b]> (_buffer (_stream s)))
                         (position s + 1))
               (_size s))
  else None.

Definition grow (s : CompressedWriteStream) : option CompressedWriteStream :=
  if _size s * 2 <? 2 ^ 31 then
    let n := Z.to_nat (position s) in
    let new_buffer := take n (_buffer (_stream s))
                        ++ replicate (Z.to_nat (_size s * 2) - n) None in
    Some (mkWriteStream (mkStream new_buffer (position s)) (_size s * 2))
  else None.

Definition write (s : CompressedWriteStream) (b : Z) : option CompressedWriteStream :=
  s ← (if full s then grow s else Some s);
  store s b.

(** The loop of [write_int_mb]; it stops at [i == MAX_i], so 5 rounds are enough. *)
Fixpoint write_int_mb_loop (fuel : nat) (s : CompressedWriteStream) (i sum : Z) :
    option CompressedWriteStream :=
  match fuel with
  | O => None
  | S fuel =>
      if (sum <? L) || (i =? MAX_i) then write s (u_char sum)
      else
        let sum := juint (sum - L) in
        let b_i := L + sum mod H in
        let sum := Z.shiftr sum lg_H in
        s ← write s (u_char b_i);
        write_int_mb_loop fuel s (i + 1) sum
  end.

Definition write_int_mb (s : CompressedWriteStream) (value : Z) : option CompressedWriteStream :=
  write_int_mb_loop 5 s 0 (juint value).

Definition write_int (s : CompressedWriteStream) (value : Z) : option CompressedWriteStream :=
  if (juint value <? L) && negb (full s) then store s (u_char value)
  else write_int_mb s value.

Definition write_bool (s : CompressedWriteStream) (value : Z) := write s (u_char value).
Definition write_byte (s : CompressedWriteStream) (value : Z) := write s (u_char value).
Definition write_char (s : CompressedWriteStream) (value : Z) := write_int s value.
Definition write_signed_int (s : CompressedWriteStream) (value : Z) :=
  write_int s (jint (encode_sign value)).
Definition write_short (s : CompressedWriteStream) (value : Z) := write_signed_int s value.
Definition write_float (s : CompressedWriteStream) (value : Z) :=
  let f := juint value in
  let rf := reverse_int f in
  write_int s (jint rf).
Definition write_double (s : CompressedWriteStream) (value : Z) :=
  let h := juint (high value) in
  let l := juint (low value) in
  let rh := reverse_int h in
  let rl := reverse_int l in
  s ← write_int s (jint rh);
  write_int s (jint rl).
Definition write_long (s : CompressedWriteStream) (value : Z) :=
  s ← write_signed_int s (low value);
  write_signed_int s (high value).

(** * Correctness *)

Arguments read_int_mb_loop : simpl never.
Arguments write_int_mb_loop : simpl never.

(** ** The byte-level specification of UNSIGNED5

    [n] bounds the number of high codes; the encoder uses [n = MAX_i]. *)
Fixpoint unsigned5 (n : nat) (v : Z) : list Z :=
  match n with
  | O => [v]
  | S n => if v <? L then [v] else L + (v - L) mod H :: unsigned5 n ((v - L) / H)
  end.

Lemma unsigned5_length n v : (1 <= length (unsigned5 n v) <= S n)%nat.
Proof.
  revert v. induction n as [|n IH]; intros v; simpl; [lia |].
  destruct (v <? L); simpl; [lia |]. specialize (IH ((v - L) / H)). lia.
Qed.

(** Streams that can be written to. *)
Record wf (s : CompressedWriteStream) : Prop := {
  wf_size : 0 < _size s < 2 ^ 31;
  wf_position : 0 <= position s <= _size s;
  wf_buffer : Z.of_nat (length (_buffer (_stream s))) = _size s
}.

(** What has been written so far. *)
Definition contents (s : CompressedWriteStream) : list (option Z) :=
  take (Z.to_nat (position s)) (_buffer (_stream s)).

(** [s'] is [s] with the bytes [bs] appended. *)
Record appended (s : CompressedWriteStream) (bs : list Z) (s' : CompressedWriteStream) : Prop := {
  appended_wf : wf s';
  appended_position : position s' = position s + Z.of_nat (length bs);
  appended_contents : contents s' = contents s ++ (Some <$> bs)
}.

Lemma appended_trans s bs s' bs' s'' :
  appended s bs s' -> appended s' bs' s'' -> appended s (bs ++ bs') s''.
Proof.
  intros [_ Hp Hc] [Hw' Hp' Hc']. split; [done | |].
  - rewrite length_app. lia.
  - by rewrite Hc', Hc, fmap_app, app_assoc.
Qed.

Lemma store_ok s b :
  wf s -> full s = false -> exists s', store s b = Some s' /\ appended s [b] s'.
Proof.
  intros [Hs Hp Hb] Hf. unfold full in Hf. apply Z.leb_gt in Hf.
  unfold store. rewrite (proj2 (Z.leb_le _ _)) by lia.
  rewrite (proj2 (Nat.ltb_lt _ _)) by lia. eexists. split; [done |].
  split; [split | |]; unfold position, contents in *; simpl in *.
  - done.
  - lia.
  - rewrite length_insert. done.
  - done.
  - unfold position; simpl. rewrite Z2Nat.inj_add, Nat.add_1_r by lia.
    rewrite (take_S_r _ _ (Some b)) by (rewrite list_lookup_insert_eq; [done | lia]).
    by rewrite take_insert_ge by lia.
Qed.

Lemma grow_ok s :
  wf s -> full s = true -> position s < 2 ^ 30 ->
  exists s', grow s = Some s' /\ appended s [] s' /\ full s' = false.
Proof.
  intros [Hs Hp Hb] Hf Hr. unfold full in Hf. apply Z.leb_le in Hf.
  unfold grow. rewrite (proj2 (Z.ltb_lt _ _)) by lia. eexists. split; [done |].
  unfold full, position, contents in *; simpl in *. split; [split; [split | |] |];
    unfold contents, position in *; simpl in *.
  - lia.
  - lia.
  - rewrite length_app, length_take, length_replicate. lia.
  - lia.
  - rewrite app_nil_r, take_app_le, take_take, Nat.min_id; [done |].
    rewrite length_take. lia.
  - apply Z.leb_gt. lia.
Qed.

Lemma write_ok s b :
  wf s -> position s < 2 ^ 30 -> exists s', write s b = Some s' /\ appended s [b] s'.
Proof.
  intros Hw Hr. unfold write. destruct (full s) eqn:Hf.
  - destruct (grow_ok s Hw Hf Hr) as (s1 & -> & Ha & Hf1). simpl.
    destruct (store_ok s1 b (appended_wf _ _ _ Ha) Hf1) as (s2 & -> & Ha2).
    exists s2. split; [done |]. by apply (appended_trans s [] s1).
  - by apply store_ok.
Qed.

Lemma write_int_mb_loop_S fuel s i sum :
  write_int_mb_loop (S fuel) s i sum =
    if (sum <? L) || (i =? MAX_i) then write s (u_char sum)
    else s ← write s (u_char (L + juint (sum - L) mod H));
         write_int_mb_loop fuel s (i + 1) (Z.shiftr (juint (sum - L)) lg_H).
Proof. reflexivity. Qed.

(** The multi-byte loop stores exactly the UNSIGNED5 coding. *)
Lemma write_int_mb_loop_ok n s i sum :
  i = MAX_i - Z.of_nat n -> wf s -> position s + Z.of_nat (S n) <= 2 ^ 30 ->
  0 <= sum < 64 ^ Z.of_nat n * 256 -> sum < 2 ^ 32 ->
  exists s', write_int_mb_loop (S n) s i sum = Some s' /\ appended s (unsigned5 n sum) s'.
Proof.
  change L with 192. revert s i sum.
  induction n as [|n IH]; intros s i sum Hi Hw Hr Hs Hs32.
  - rewrite write_int_mb_loop_S. simpl unsigned5. replace (i =? MAX_i) with true by (symmetry; apply Z.eqb_eq; lia).
    rewrite orb_true_r. unfold u_char. rewrite wrap_small by (unfold in_unsigned; lia).
    apply write_ok; [done | lia].
  - rewrite write_int_mb_loop_S. simpl unsigned5. change L with 192.
    destruct (Z.ltb_spec sum 192) as [Hlow|Hhigh]; simpl orb; cbv iota.
    + unfold u_char. rewrite wrap_small by (unfold in_unsigned; lia).
      apply write_ok; [done | lia].
    + replace (i =? MAX_i) with false by (symmetry; apply Z.eqb_neq; lia).
      unfold u_char, juint. change H with 64 in *.
      pose proof (Z.mod_pos_bound (sum - 192) 64 ltac:(lia)).
      rewrite (wrap_small 32), (wrap_small 8) by (unfold in_unsigned; lia).
      destruct (write_ok s (192 + (sum - 192) mod 64)) as (s1 & -> & Ha); [done | lia |].
      simpl mbind. rewrite Z.shiftr_div_pow2 by done. change (2 ^ lg_H) with 64.
      destruct Ha as [Hw1 Hp1 Hc1] eqn:EA. simpl in Hp1.
      destruct (IH s1 (i + 1) ((sum - 192) / 64)) as (s2 & HE & Ha2); [lia | done | lia | | |].
      * replace (Z.of_nat (S n)) with (Z.of_nat n + 1) in Hs by lia.
        rewrite Z.pow_add_r in Hs by lia.
        split; [apply Z.div_pos; lia | apply Z.div_lt_upper_bound; lia].
      * apply Z.div_lt_upper_bound; lia.
      * exists s2. split; [exact HE |].
        apply (appended_trans s [192 + (sum - 192) mod 64] s1); done.
Qed.

Definition encode_int (v : Z) : list Z := unsigned5 4 (juint v).

Lemma write_int_ok s v :
  wf s -> position s + 5 <= 2 ^ 30 ->
  exists s', write_int s v = Some s' /\ appended s (encode_int v) s'.
Proof.
  intros Hw Hr. unfold write_int, encode_int.
  pose proof (wrap_range 32 v ltac:(lia)) as Hv. fold (juint v) in Hv. unfold in_unsigned in Hv.
  destruct (juint v <? L) eqn:Hlow, (full s) eqn:Hf; simpl andb; cbv iota.
  2: { unfold unsigned5. rewrite Hlow. apply Z.ltb_lt in Hlow. change L with 192 in Hlow.
       replace (u_char v) with (juint v); [by apply store_ok |].
       unfold u_char. rewrite <- (wrap_wrap_le 8 32) by lia.
       symmetry. apply wrap_small. unfold in_unsigned. fold (juint v). lia. }
  all: apply (write_int_mb_loop_ok 4); unfold MAX_i; try lia; done.
Qed.

(** ** Reading back *)

(** The bytes [bs] are the next ones of [s]. *)
Definition available (s : CompressedStream) (bs : list Z) : Prop :=
  0 <= _position s /\
  exists rest, drop (Z.to_nat (_position s)) (_buffer s) = (Some <$> bs) ++ rest.

Definition advance (s : CompressedStream) (bs : list Z) : CompressedStream :=
  set_position s (_position s + Z.of_nat (length bs)).

Lemma available_byte s bs k b :
  available s bs -> bs !! k = Some b -> byte_at s (_position s + Z.of_nat k) = Some b.
Proof.
  intros [Hp [rest Hd]] Hk. unfold byte_at.
  rewrite (proj2 (Z.leb_le _ _)) by lia.
  rewrite Z2Nat.inj_add, Nat2Z.id, <- lookup_drop, Hd by lia.
  rewrite lookup_app_l by (rewrite length_fmap; by eapply lookup_lt_Some).
  by rewrite list_lookup_fmap, Hk.
Qed.

Lemma available_app_l s bs bs' : available s (bs ++ bs') -> available s bs.
Proof.
  intros [Hp [rest Hd]]. split; [done |]. exists ((Some <$> bs') ++ rest).
  by rewrite Hd, fmap_app, app_assoc.
Qed.

Lemma available_app_r s bs bs' : available s (bs ++ bs') -> available (advance s bs) bs'.
Proof.
  intros [Hp [rest Hd]]. unfold advance, available. simpl. split; [lia |]. exists rest.
  rewrite Z2Nat.inj_add, Nat2Z.id, <- drop_drop, Hd, fmap_app by lia.
  rewrite <- app_assoc. apply drop_app_length'. by rewrite length_fmap.
Qed.

Lemma advance_app s bs bs' : advance (advance s bs) bs' = advance s (bs ++ bs').
Proof. unfold advance, set_position. simpl. f_equal. rewrite length_app. lia. Qed.

Lemma read_ok s b bs : available s (b :: bs) -> read s = Some (b, advance s [b]).
Proof.
  intros Ha. unfold read.
  replace (_position s) with (_position s + Z.of_nat 0) at 1 by lia.
  by rewrite (available_byte s (b :: bs) 0 b).
Qed.

Lemma read_int_mb_loop_S fuel s pos i lg_H_i sum :
  read_int_mb_loop (S fuel) s pos i lg_H_i sum =
    b_i ← byte_at s (pos + (i + 1));
    if (b_i <? L) || (i + 1 =? MAX_i)
    then Some (jint (sum + jint (Z.shiftl b_i lg_H_i)), set_position s (pos + (i + 1) + 1))
    else read_int_mb_loop fuel s pos (i + 1) (lg_H_i + lg_H)
           (jint (sum + jint (Z.shiftl b_i lg_H_i))).
Proof. reflexivity. Qed.

Lemma read_int_mb_loop_ok n s pos i lg sum v :
  i + 1 = MAX_i - Z.of_nat n -> 0 <= lg -> 0 <= v ->
  (forall k b, unsigned5 n v !! k = Some b -> byte_at s (pos + (i + 1) + Z.of_nat k) = Some b) ->
  read_int_mb_loop (S n) s pos i lg sum =
    Some (jint (sum + v * 2 ^ lg),
          set_position s (pos + (i + 1) + Z.of_nat (length (unsigned5 n v)))).
Proof.
  revert i lg sum v. induction n as [|n IH]; intros i lg sum v Hi Hlg Hv Hb;
    rewrite read_int_mb_loop_S; unfold jint.
  - pose proof (Hb O v eq_refl) as Hb0. rewrite Z.add_0_r in Hb0. rewrite Hb0. simpl mbind.
    rewrite (proj2 (Z.eqb_eq (i + 1) MAX_i)) by lia. rewrite orb_true_r.
    by rewrite swrap_add_r, Z.shiftl_mul_pow2 by lia.
  - simpl unsigned5 in *. destruct (v <? L) eqn:Hlow.
    + pose proof (Hb O v eq_refl) as Hb0. rewrite Z.add_0_r in Hb0. rewrite Hb0. simpl mbind.
      rewrite Hlow. simpl. by rewrite swrap_add_r, Z.shiftl_mul_pow2 by lia.
    + pose proof (Hb O _ eq_refl) as Hb0. rewrite Z.add_0_r in Hb0. rewrite Hb0. simpl mbind.
      apply Z.ltb_ge in Hlow. pose proof (Z.mod_pos_bound (v - L) H ltac:(done)) as Hm.
      rewrite (proj2 (Z.ltb_ge _ L)), (proj2 (Z.eqb_neq _ _)) by lia. simpl orb. cbv iota.
      rewrite (IH (i + 1) (lg + lg_H) _ ((v - L) / H)).
      * f_equal. f_equal; [| f_equal; simpl length; lia].
        unfold jint. rewrite swrap_add_r, swrap_add_l by lia. f_equal.
        rewrite Z.shiftl_mul_pow2, Z.pow_add_r by (done || lia). change (2 ^ lg_H) with H.
        pose proof (Z.div_mod (v - L) H ltac:(done)) as Hdm.
        replace v with (L + (v - L)) at 3 by lia. rewrite Hdm at 3. ring.
      * lia.
      * unfold lg_H. lia.
      * apply Z.div_pos; [lia | done].
      * intros k b Hk. specialize (Hb (S k) b Hk). rewrite <- Hb. f_equal. lia.
Qed.

Lemma read_int_ok s v bs :
  in_signed 32 v -> available s (encode_int v ++ bs) ->
  read_int s = Some (v, advance s (encode_int v)).
Proof.
  intros Hv Ha%available_app_l. unfold read_int, encode_int in *.
  pose proof (wrap_range 32 v ltac:(lia)) as Hu. fold (juint v) in Hu. unfold in_unsigned in Hu.
  assert (jint (juint v) = v) as Hvv.
  { unfold jint, juint. by rewrite swrap_wrap, swrap_small. }
  simpl unsigned5 in *. destruct (juint v <? L) eqn:Hlow.
  - rewrite (read_ok s (juint v) [] Ha). simpl. rewrite Hlow. do 2 f_equal.
    rewrite <- Hvv at 2. symmetry. apply swrap_small; [lia |].
    apply Z.ltb_lt in Hlow. change L with 192 in Hlow. unfold in_signed. lia.
  - rewrite (read_ok s _ _ Ha). simpl mbind.
    apply Z.ltb_ge in Hlow. pose proof (Z.mod_pos_bound (juint v - L) H ltac:(done)) as Hm.
    rewrite (proj2 (Z.ltb_ge _ L)) by lia. unfold read_int_mb.
    rewrite (read_int_mb_loop_ok 3 _ _ _ _ _ ((juint v - L) / H)).
    + f_equal. f_equal.
      * change (2 ^ lg_H) with H. rewrite <- Hvv at 3. f_equal.
        pose proof (Z.div_mod (juint v - L) H ltac:(done)) as Hdm. lia.
      * unfold advance, set_position. simpl. f_equal. simpl. lia.
    + reflexivity.
    + done.
    + apply Z.div_pos; [lia | done].
    + intros k b Hk. pose proof (available_byte s _ (S k) b Ha Hk) as Hb.
      rewrite <- Hb. change (byte_at (advance s ?x) ?y) with (byte_at s y).
      f_equal. simpl. lia.
Qed.

(** ** The typed accessors

    What a writer of a type of value promises to its reader: on a valid value the
    writer succeeds and appends the coding of the value, and the reader, standing
    before that coding, returns the value and moves past the coding. *)
Class Codec (valid : Z -> Prop) (coding : Z -> list Z)
    (write : CompressedWriteStream -> Z -> option CompressedWriteStream)
    (read : CompressedStream -> option (Z * CompressedStream)) : Prop := {
  codec_short : forall v, (length (coding v) <= 10)%nat;
  codec_write : forall s v, wf s -> valid v ->
    position s + Z.of_nat (length (coding v)) + 10 <= 2 ^ 30 ->
    exists s', write s v = Some s' /\ appended s (coding v) s';
  codec_read : forall s v bs, valid v -> available s (coding v ++ bs) ->
    read s = Some (v, advance s (coding v))
}.

(** A writer that converts with [f] and a reader that converts back with [g]. *)
Lemma codec_map valid valid' f g coding write read write' read' :
  Codec valid coding write read ->
  (forall v, valid' v -> valid (f v) /\ g (f v) = v) ->
  (forall s v, write' s v = write s (f v)) ->
  (forall s, read' s = '(v, s) ← read s; Some (g v, s)) ->
  Codec valid' (fun v => coding (f v)) write' read'.
Proof.
  intros C Hf Hw Hr. split.
  - intros v. apply C.
  - intros s v Hs Hv Hp. rewrite Hw. apply C; [done | by apply Hf | done].
  - intros s v bs Hv Ha. destruct (Hf v Hv) as [Hv' Hg].
    rewrite Hr, (codec_read s (f v) bs Hv' Ha). simpl. by rewrite Hg.
Qed.

(** Two values in a row. *)
Lemma codec_pair valid valid' f1 f2 g coding write read write' read' :
  Codec valid coding write read ->
  (forall v, length (coding v) <= 5)%nat ->
  (forall v, valid' v -> valid (f1 v) /\ valid (f2 v) /\ g (f1 v) (f2 v) = v) ->
  (forall s v, write' s v = s ← write s (f1 v); write s (f2 v)) ->
  (forall s, read' s = '(v1, s) ← read s; '(v2, s) ← read s; Some (g v1 v2, s)) ->
  Codec valid' (fun v => coding (f1 v) ++ coding (f2 v)) write' read'.
Proof.
  intros C Hl Hf Hw Hr. split.
  - intros v. rewrite length_app. pose proof (Hl (f1 v)). pose proof (Hl (f2 v)). lia.
  - intros s v Hs Hv Hp. rewrite Hw. destruct (Hf v Hv) as (Hv1 & Hv2 & _).
    rewrite length_app in Hp.
    destruct (codec_write s (f1 v) Hs Hv1) as (s1 & -> & Ha1); [lia |]. simpl.
    destruct (codec_write s1 (f2 v) (appended_wf _ _ _ Ha1) Hv2) as (s2 & -> & Ha2).
    { rewrite (appended_position _ _ _ Ha1). lia. }
    exists s2. split; [done |]. by eapply appended_trans.
  - intros s v bs Hv Ha. destruct (Hf v Hv) as (Hv1 & Hv2 & Hg).
    rewrite <- app_assoc in Ha.
    rewrite Hr, (codec_read s (f1 v) _ Hv1 Ha). simpl.
    rewrite (codec_read _ (f2 v) bs Hv2 (available_app_r _ _ _ Ha)). simpl.
    by rewrite Hg, advance_app.
Qed.

#[export] Instance codec_int : Codec (in_signed 32) encode_int write_int read_int.
Proof.
  split.
  - intros v. pose proof (unsigned5_length 4 (juint v)). unfold encode_int. lia.
  - intros s v Hs _ Hp. apply write_int_ok; [done | lia].
  - intros s v bs. apply read_int_ok.
Qed.

#[export] Instance codec_bool :
  Codec (in_unsigned 8) (fun v => [u_char v]) write_bool read_bool.
Proof.
  split; simpl.
  - lia.
  - intros s v Hs _ Hp. apply write_ok; [done | lia].
  - intros s v bs Hv Ha. unfold read_bool. rewrite (read_ok _ _ _ Ha). simpl.
    unfold u_char. by rewrite !(wrap_small 8 v).
Qed.

#[export] Instance codec_byte :
  Codec (in_signed 8) (fun v => [u_char v]) write_byte read_byte.
Proof.
  split; simpl.
  - lia.
  - intros s v Hs _ Hp. apply write_ok; [done | lia].
  - intros s v bs Hv Ha. unfold read_byte. rewrite (read_ok _ _ _ Ha). simpl.
    unfold u_char, jbyte. by rewrite swrap_wrap, swrap_small.
Qed.

Lemma jint_range v : in_signed 32 (jint v).
Proof. apply swrap_range. lia. Qed.

#[export] Instance codec_signed_int :
  Codec (in_signed 32) (fun v => encode_int (jint (encode_sign v)))
    write_signed_int read_signed_int.
Proof.
  eapply (codec_map _ _ (fun v => jint (encode_sign v)) (fun u => decode_sign (juint u)));
    [apply codec_int | | done | done].
  intros v Hv. split; [apply jint_range |].
  unfold jint, juint. rewrite wrap_swrap, wrap_small by (lia || apply encode_sign_range).
  by apply decode_encode_sign.
Qed.

#[export] Instance codec_char :
  Codec (in_unsigned 16) (fun v => encode_int v) write_char read_char.
Proof.
  eapply (codec_map _ _ (fun v => v) jchar); [apply codec_int | | done | done].
  intros v Hv. split; [| by apply wrap_small].
  unfold in_signed, in_unsigned in *. change (32 - 1) with 31. lia.
Qed.

#[export] Instance codec_short_int :
  Codec (in_signed 16) (fun v => encode_int (jint (encode_sign v))) write_short read_short.
Proof.
  eapply (codec_map _ _ (fun v => v) jshort _ _ _ _ _ codec_signed_int); [| done | done].
  intros v Hv. split; [| by apply swrap_small].
  unfold in_signed in *. change (32 - 1) with 31. change (16 - 1) with 15 in Hv. lia.
Qed.

Lemma reverse_int_bits_back v :
  in_signed 32 v -> jint (reverse_int (juint (jint (reverse_int (juint v))))) = v.
Proof.
  intros Hv. unfold jint at 2, juint at 1. rewrite wrap_swrap by lia.
  rewrite wrap_small by apply reverse_int_range.
  rewrite reverse_int_involutive by (apply wrap_range; lia).
  unfold jint, juint. by rewrite swrap_wrap, swrap_small.
Qed.

#[export] Instance codec_float :
  Codec (in_signed 32) (fun v => encode_int (jint (reverse_int (juint v))))
    write_float read_float.
Proof.
  eapply (codec_map _ _ (fun v => jint (reverse_int (juint v)))
            (fun u => jint (reverse_int (juint u)))); [apply codec_int | | done | done].
  intros v Hv. split; [apply jint_range | by apply reverse_int_bits_back].
Qed.

Lemma encode_int_length v : (length (encode_int v) <= 5)%nat.
Proof. pose proof (unsigned5_length 4 (juint v)). unfold encode_int. lia. Qed.

#[export] Instance codec_double :
  Codec (in_signed 64)
    (fun v => encode_int (jint (reverse_int (juint (high v))))
                ++ encode_int (jint (reverse_int (juint (low v)))))
    write_double read_double.
Proof.
  eapply (codec_pair _ _ (fun v => jint (reverse_int (juint (high v))))
            (fun v => jint (reverse_int (juint (low v))))
            (fun rh rl => jlong_from (jint (reverse_int (juint rh)))
                                     (jint (reverse_int (juint rl)))));
    [apply codec_int | apply encode_int_length | | done | done].
  intros v Hv. split; [| split]; [apply jint_range | apply jint_range |].
  rewrite !reverse_int_bits_back by apply jint_range. by apply jlong_from_high_low.
Qed.

#[export] Instance codec_long :
  Codec (in_signed 64)
    (fun v => encode_int (jint (encode_sign (low v)))
                ++ encode_int (jint (encode_sign (high v))))
    write_long read_long.
Proof.
  eapply (codec_pair _ _ low high (fun l h => jlong_from h l) _ _ _ _ _ codec_signed_int);
    [intros v; apply encode_int_length | | done | done].
  intros v Hv. split; [apply jint_range | split; [apply jint_range |]].
  by apply jlong_from_high_low.
Qed.

(** ** Whole streams *)

Inductive kind : Set :=
| KBool | KByte | KChar | KShort | KInt | KSignedInt | KFloat | KDouble | KLong.

Definition valid_value (k : kind) : Z -> Prop :=
  match k with
  | KBool => in_unsigned 8 | KByte => in_signed 8 | KChar => in_unsigned 16
  | KShort => in_signed 16 | KInt | KSignedInt | KFloat => in_signed 32
  | KDouble | KLong => in_signed 64
  end.

Definition write_value (k : kind) : CompressedWriteStream -> Z -> option CompressedWriteStream :=
  match k with
  | KBool => write_bool | KByte => write_byte | KChar => write_char | KShort => write_short
  | KInt => write_int | KSignedInt => write_signed_int | KFloat => write_float
  | KDouble => write_double | KLong => write_long
  end.

Definition read_value (k : kind) : CompressedStream -> option (Z * CompressedStream) :=
  match k with
  | KBool => read_bool | KByte => read_byte | KChar => read_char | KShort => read_short
  | KInt => read_int | KSignedInt => read_signed_int | KFloat => read_float
  | KDouble => read_double | KLong => read_long
  end.

Fixpoint write_all (s : CompressedWriteStream) (items : list (kind * Z)) :
    option CompressedWriteStream :=
  match items with
  | [] => Some s
  | (k, v) :: items => s ← write_value k s v; write_all s items
  end.

Fixpoint read_all (s : CompressedStream) (kinds : list kind) :
    option (list Z * CompressedStream) :=
  match kinds with
  | [] => Some ([], s)
  | k :: kinds =>
      '(v, s) ← read_value k s;
      '(vs, s) ← read_all s kinds;
      Some (v :: vs, s)
  end.

Lemma codec_value k : exists coding, Codec (valid_value k) coding (write_value k) (read_value k).
Proof. destruct k; eexists; apply _. Qed.

Lemma write_all_ok items : forall s,
  wf s -> Forall (fun kv => valid_value kv.1 kv.2) items ->
  position s + 10 * Z.of_nat (length items) + 10 <= 2 ^ 30 ->
  exists s' bs, write_all s items = Some s' /\ appended s bs s' /\
    forall r rest, available r (bs ++ rest) ->
      read_all r items.*1 = Some (items.*2, advance r bs).
Proof.
  induction items as [|[k v] items IH]; intros s Hs Hv Hp.
  - exists s, []. split; [done |]. split.
    + split; [done | simpl; lia | by rewrite app_nil_r].
    + intros r rest _. simpl. unfold advance. rewrite Z.add_0_r. by destruct r.
  - apply Forall_cons in Hv as [Hv Hvs]. simpl length in Hp. simpl in Hv.
    destruct (codec_value k) as [coding C]. pose proof (codec_short v) as Hl.
    cbn [write_all]. destruct (codec_write s v Hs Hv) as (s1 & -> & Ha1); [lia |].
    cbn [mbind option_bind]. pose proof (appended_position _ _ _ Ha1).
    destruct (IH s1 (appended_wf _ _ _ Ha1) Hvs) as (s2 & bs & -> & Ha2 & Hr); [lia |].
    exists s2, (coding v ++ bs). split; [done |]. split; [by eapply appended_trans |].
    intros r rest Ha. rewrite <- app_assoc in Ha.
    rewrite !fmap_cons. cbn [read_all fst snd].
    rewrite (codec_read r v _ Hv Ha). cbn [mbind option_bind].
    rewrite (Hr _ rest (available_app_r _ _ _ Ha)). cbn [mbind option_bind].
    by rewrite advance_app.
Qed.

Lemma new_write_stream_wf n : 0 < n < 2 ^ 31 -> wf (new_write_stream n).
Proof.
  intros Hn. split; unfold position; simpl; [lia | lia |].
  rewrite length_replicate. lia.
Qed.

(** C24.  Round trip of a whole stream: any sequence of valid values of the nine
    kinds can be written to a fresh stream of any positive initial size (the
    buffer growing as needed), and reading the buffer back with the same sequence
    of kinds returns exactly those values and ends at the position where writing
    ended. *)
Theorem stream_roundtrip initial_size items :
  0 < initial_size < 2 ^ 31 ->
  Forall (fun kv => valid_value kv.1 kv.2) items ->
  10 * Z.of_nat (length items) + 10 <= 2 ^ 30 ->
  exists s, write_all (new_write_stream initial_size) items = Some s /\
    read_all (mkStream (_buffer (_stream s)) 0) items.*1 =
      Some (items.*2, mkStream (_buffer (_stream s)) (position s)).
Proof.
  intros Hn Hv Hl.
  destruct (write_all_ok items (new_write_stream initial_size)) as (s & bs & Hw & Ha & Hr);
    [by apply new_write_stream_wf | done | done |].
  exists s. split; [done |]. destruct Ha as [_ Hp Hc].
  change (position (new_write_stream initial_size)) with 0 in Hp.
  change (contents (new_write_stream initial_size)) with (@nil (option Z)) in Hc.
  rewrite (Hr _ []).
  - unfold advance, set_position. simpl. by rewrite Hp.
  - rewrite app_nil_r. split; [done |]. simpl. rewrite drop_0.
    exists (drop (Z.to_nat (position s)) (_buffer (_stream s))).
    rewrite <- (take_drop (Z.to_nat (position s)) (_buffer (_stream s))) at 1.
    f_equal. exact Hc.
Qed.

Lemma stream_roundtrip_witness :
  exists s, write_all (new_write_stream 1)
              [(KInt, -1); (KSignedInt, -1000); (KDouble, 4607182418800017408); (KBool, 1)] = Some s /\
    read_all (mkStream (_buffer (_stream s)) 0) [KInt; KSignedInt; KDouble; KBool] =
      Some ([-1; -1000; 4607182418800017408; 1], mkStream (_buffer (_stream s)) (position s)).
Proof.
  apply (stream_roundtrip 1
    [(KInt, -1); (KSignedInt, -1000); (KDouble, 4607182418800017408); (KBool, 1)]);
    [lia | repeat constructor; vm_compute; congruence | simpl; lia].
Defined.

(** ** Canonicity of the coding *)

(** The grammar of the comment above [read_int_mb]: at most [n] high bytes before
    the last one, which is a low byte unless all [n] high bytes are there. *)
Fixpoint is_coding (n : nat) (bs : list Z) {struct bs} : bool :=
  match bs with
  | [] => false
  | [b] => (0 <=? b) && (b <? 256) && ((b <? L) || (n =? 0)%nat)
  | b :: bs =>
      match n with
      | O => false
      | S n => (L <=? b) && (b <? 256) && is_coding n bs
      end
  end.

Fixpoint coding_value (bs : list Z) : Z :=
  match bs with [] => 0 | b :: bs => b + H * coding_value bs end.

Lemma coding_value_nonneg n bs : is_coding n bs = true -> 0 <= coding_value bs.
Proof.
  revert n. induction bs as [|b [|b' bs] IH]; intros n Hc; [done | |].
  - simpl in *. change H with 64. lia.
  - destruct n; [done |].
    change ((L <=? b) && (b <? 256) && is_coding n (b' :: bs) = true) in Hc.
    apply andb_prop in Hc as [Hb Hc].
    specialize (IH n Hc). change L with 192 in Hb.
    change (coding_value (b :: b' :: bs)) with (b + 64 * coding_value (b' :: bs)). lia.
Qed.

Lemma unsigned5_canonical n bs :
  is_coding n bs = true -> unsigned5 n (coding_value bs) = bs.
Proof.
  revert n. induction bs as [|b [|b' bs] IH]; intros n Hc; [done | |].
  - simpl in *. change H with 64. change L with 192 in *. rewrite Z.add_0_r.
    destruct n; simpl in *; [done |]. change L with 192. by replace (b <? 192) with true by lia.
  - destruct n; [done |].
    change ((L <=? b) && (b <? 256) && is_coding n (b' :: bs) = true) in Hc.
    apply andb_prop in Hc as [Hb Hc].
    pose proof (coding_value_nonneg _ _ Hc) as Hv. specialize (IH n Hc).
    change (coding_value (b :: b' :: bs)) with (b + H * coding_value (b' :: bs)).
    set (v := coding_value (b' :: bs)) in *. simpl. change L with 192 in *. change H with 64.
    replace (b + 64 * v <? 192) with false by lia.
    replace (b + 64 * v - 192) with ((b - 192) + v * 64) by lia.
    rewrite Z.mod_add, Z.mod_small, Z.div_add, Z.div_small, Z.add_0_l, IH by lia.
    f_equal. lia.
Qed.

(** The coding is one-to-one: a byte string of the UNSIGNED5 grammar whose
    value fits 32 bits is read by [read_int], consuming exactly those bytes, as a
    value that [write_int] codes as the same byte string. *)
Theorem read_int_canonical s bs :
  is_coding 4 bs = true -> coding_value bs < 2 ^ 32 -> available s bs ->
  read_int s = Some (jint (coding_value bs), advance s bs) /\
  forall w, wf w -> position w + 5 <= 2 ^ 30 ->
    exists w', write_int w (jint (coding_value bs)) = Some w' /\ appended w bs w'.
Proof.
  intros Hc Hv Ha. pose proof (coding_value_nonneg _ _ Hc) as H0.
  assert (encode_int (jint (coding_value bs)) = bs) as He.
  { unfold encode_int, juint, jint. rewrite wrap_swrap, wrap_small by (lia || done).
    by apply unsigned5_canonical. }
  rewrite <- He in Ha at 1. rewrite <- (app_nil_r (encode_int _)) in Ha.
  split.
  - rewrite (read_int_ok s _ _ (jint_range _) Ha). by rewrite He.
  - intros w Hw Hp. destruct (write_int_ok w (jint (coding_value bs)) Hw Hp) as (w' & Hw' & Hap).
    exists w'. rewrite He in Hap. done.
Qed.

Lemma read_int_canonical_witness :
  read_int (mkStream [Some 255; Some 200; Some 5] 0) =
    Some (jint (coding_value [255; 200; 5]), advance (mkStream [Some 255; Some 200; Some 5] 0) [255; 200; 5]).
Proof.
  apply (read_int_canonical (mkStream [Some 255; Some 200; Some 5] 0) [255; 200; 5]);
    [reflexivity | reflexivity | split; [done | exists []; reflexivity]].
Defined.

(** Beyond 32 bits the coding is not one-to-one: the longest string of high codes
    reads as a value that is coded in another way. *)
Example read_int_overflow :
  option_map (fun r => encode_int r.1) (read_int (mkStream (replicate 5 (Some 255)) 0))
    = Some [255; 255; 255; 191].
Proof. vm_compute. reflexivity. Qed.

End CompressedStream.
