(* ===== verification/IdealType.v ===== *)
(** The integer types of the C2 compiler (opto/type.cpp, type.hpp): [TypeInt] and
    [TypeLong], which the optimiser gives to the nodes of its graph.

    A type is a range of values with a count of how often it was widened.  The two
    classes have the same code at two widths, so an operation is one definition with
    the width as an argument and the two instances of it.  The families of types of
    values that are not integers are not modelled: [TOP] (no value), [BOTTOM] (any
    value) and the two integer families are all the types an integer node can have. *)
From S2P Require Import Prelude GlobalDefinitions.
Import GlobalDefinitions.

Module IdealType.

Inductive kind : Set := KInt | KLong.
#[global] Instance kind_eq_dec : EqDecision kind.
Proof. solve_decision. Defined.

Definition bits (k : kind) : Z := match k with KInt => 32 | KLong => 64 end.
Definition min_j (k : kind) : Z := - 2 ^ (bits k - 1).
Definition max_j (k : kind) : Z := 2 ^ (bits k - 1) - 1.
Definition max_ju (k : kind) : Z := 2 ^ bits k - 1.

Definition WidenMin : Z := 0.
Definition WidenMax : Z := 3.
Definition SMALLINT : Z := 3.

Record range : Set := mkRange { _lo : Z; _hi : Z; _widen : Z }.
#[global] Instance range_eq_dec : EqDecision range.
Proof. solve_decision. Defined.

Inductive Type_ : Set :=
  | TOP
  | BOTTOM
  | Num (k : kind) (r : range).
#[global] Instance Type_eq_dec : EqDecision Type_.
Proof. solve_decision. Defined.

(** ** Construction *)

Definition normalize_widen (k : kind) (lo hi w : Z) : Z :=
  if lo <=? hi then
    let w := if wrap (bits k) (hi - lo) <=? SMALLINT then WidenMin else w in
    if max_ju k <=? wrap (bits k) (hi - lo) then WidenMax else w
  else
    let w := if wrap (bits k) (lo - hi) <=? SMALLINT then WidenMin else w in
    if max_ju k <=? wrap (bits k) (lo - hi) then WidenMin else w.

Definition make (k : kind) (lo hi w : Z) : range := mkRange lo hi (normalize_widen k lo hi w).
Definition make_con (lo : Z) : range := mkRange lo lo WidenMin.

Definition full (k : kind) : range := make k (min_j k) (max_j k) WidenMax.

Definition is_con (r : range) : bool := _lo r =? _hi r.
Definition get_con (r : range) : Z := _lo r.
Definition singleton_range (r : range) : bool := _hi r <=? _lo r.
Definition empty_range (r : range) : bool := _hi r <? _lo r.

Definition singleton (t : Type_) : bool :=
  match t with TOP => true | BOTTOM => false | Num _ r => singleton_range r end.
Definition empty (t : Type_) : bool :=
  match t with TOP => true | BOTTOM => false | Num _ r => empty_range r end.

(** [isa_int] and [isa_long]; [is_int] and [is_long] assert the same. *)
Definition isa (k : kind) (t : Type_) : option range :=
  match t with Num k' r => if decide (k = k') then Some r else None | _ => None end.

(** ** The lattice *)

Definition xmeet_range (k : kind) (s r : range) : range :=
  make k (MIN2 (_lo s) (_lo r)) (MAX2 (_hi s) (_hi r)) (MAX2 (_widen s) (_widen r)).

Definition xmeet_num (k : kind) (s : range) (t : Type_) : Type_ :=
  if decide (Num k s = t) then t else
  match t with
  | BOTTOM => BOTTOM
  | TOP => Num k s
  | Num k' r => if decide (k = k') then Num k (xmeet_range k s r) else BOTTOM
  end.

Definition xmeet (s t : Type_) : Type_ :=
  if decide (s = t) then s else
  match s with
  | TOP => t
  | BOTTOM => BOTTOM
  | Num k r => xmeet_num k r t
  end.

Definition xdual_range (k : kind) (r : range) : range :=
  mkRange (_hi r) (_lo r) (normalize_widen k (_hi r) (_lo r) (WidenMax - _widen r)).

Definition xdual (t : Type_) : Type_ :=
  match t with TOP => BOTTOM | BOTTOM => TOP | Num k r => Num k (xdual_range k r) end.

Definition higher_equal (s t : Type_) : bool := bool_decide (xmeet s t = t).

Definition join (s t : Type_) : Type_ := xdual (xmeet (xdual s) (xdual t)).

Definition filter_range (k : kind) (r : range) (kills : Type_) : Type_ :=
  match isa k (join (Num k r) kills) with
  | None => TOP
  | Some ft =>
      if empty_range ft then TOP
      else if _widen ft <? _widen r then Num k (make k (_lo ft) (_hi ft) (_widen r))
      else Num k ft
  end.

(** ** Widening and narrowing *)

(** [push] is the bound the upper end is widened to, given the limit and the end. *)
Definition widen_range (k : kind) (push : Z -> Z -> Z) (r : range) (old limit : Type_) : Type_ :=
  match isa k old with
  | None => Num k r
  | Some ot =>
      if (_lo r =? _lo ot) && (_hi r =? _hi ot) then old
      else if (_lo r <=? _lo ot) && (_hi ot <=? _hi r) then
        if _widen ot <? _widen r then Num k r
        else if _lo ot =? _hi ot then Num k r
        else if _widen r =? WidenMax then
          let '(mn, mx) := match isa k limit with
                           | Some l => (_lo l, _hi l)
                           | None => (min_j k, max_j k)
                           end in
          if (mn <? _lo r) && (_hi r <? mx) then
            if (0 <=? _lo r) || (wrap (bits k) (mx - _hi r) <=? wrap (bits k) (_lo r - mn))
            then Num k (make k (_lo r) (push mx (_hi r)) WidenMax)
            else Num k (make k mn (_hi r) WidenMax)
          else Num k (full k)
        else Num k (make k (_lo r) (_hi r) (_widen r + 1))
      else if (_lo ot <=? _lo r) && (_hi r <=? _hi ot) then old
      else Num k (full k)
  end.

Definition TypeInt_widen : range -> Type_ -> Type_ -> Type_ := widen_range KInt (fun mx _ => mx).
Definition push_long (mx hi : Z) : Z :=
  if (max_ju KInt <=? mx) && (hi <? max_ju KInt) then max_ju KInt else mx.
Definition TypeLong_widen : range -> Type_ -> Type_ -> Type_ := widen_range KLong push_long.

(** [old] is [None] for a null pointer. *)
Definition narrow_range (k : kind) (r : range) (old : option Type_) : Type_ :=
  if _hi r <=? _lo r then Num k r else
  match old with
  | None => Num k r
  | Some old =>
      match isa k old with
      | None => Num k r
      | Some ot =>
          let olo := _lo ot in
          let ohi := _hi ot in
          if (_lo r =? olo) && (_hi r =? ohi) then old
          else if (olo =? min_j k) && (ohi =? max_j k) then Num k r
          else if (_lo r <? olo) || (ohi <? _hi r) then Num k r
          else
            let nrange := wrap (bits k) (_hi r - _lo r) in
            let orange := wrap (bits k) (ohi - olo) in
            if (nrange <? max_ju k - 1) && (Z.shiftr orange 1 + SMALLINT * 2 <? nrange)
            then old else Num k r
      end
  end.

(** ** Convenience types *)

Definition con_type (k : kind) (z : Z) : Type_ := Num k (make_con z).
Definition ZERO (k : kind) : Type_ := con_type k 0.
Definition ONE (k : kind) : Type_ := con_type k 1.
Definition MINUS_1 (k : kind) : Type_ := con_type k (-1).
Definition FULL (k : kind) : Type_ := Num k (full k).
Definition POS (k : kind) : Type_ := Num k (make k 0 (max_j k) WidenMin).
Definition SYMINT : Type_ := Num KInt (make KInt (- max_j KInt) (max_j KInt) WidenMin).
Definition LONG_INT : range := make KLong (min_j KInt) (max_j KInt) WidenMin.
Definition BOOL : Type_ := Num KInt (make KInt 0 1 WidenMin).
Definition CC : Type_ := Num KInt (make KInt (-1) 1 WidenMin).
Definition CC_LT : Type_ := Num KInt (make KInt (-1) (-1) WidenMin).
Definition CC_GT : Type_ := Num KInt (make KInt 1 1 WidenMin).
Definition CC_EQ : Type_ := Num KInt (make KInt 0 0 WidenMin).
Definition CC_LE : Type_ := Num KInt (make KInt (-1) 0 WidenMin).
Definition CC_GE : Type_ := Num KInt (make KInt 0 1 WidenMin).

(** ** The methods of TypeLong *)

(** The definitions above are the methods of TypeInt at [KInt]. *)
Definition normalize_long_widen : Z -> Z -> Z -> Z := normalize_widen KLong.
Definition TypeLong_make : Z -> Z -> Z -> range := make KLong.
Definition TypeLong_xmeet : range -> Type_ -> Type_ := xmeet_num KLong.
Definition TypeLong_xdual : range -> range := xdual_range KLong.
Definition TypeLong_filter : range -> Type_ -> Type_ := filter_range KLong.
Definition TypeLong_narrow : range -> option Type_ -> Type_ := narrow_range KLong.

(** ** Meaning *)

(** The values of a type, as values of a node of kind [k]. *)
Definition has_type (k : kind) (v : Z) (t : Type_) : Prop :=
  match t with
  | TOP => False
  | BOTTOM => True
  | Num k' r => k = k' /\ _lo r <= v <= _hi r
  end.

(** Bounds of the width and a normalised count, as every construction gives. *)
Definition range_wf (k : kind) (r : range) : Prop :=
  min_j k <= _lo r <= max_j k /\ min_j k <= _hi r <= max_j k /\
  WidenMin <= _widen r <= WidenMax /\ normalize_widen k (_lo r) (_hi r) (_widen r) = _widen r.
Definition type_wf (t : Type_) : Prop := match t with Num k r => range_wf k r | _ => True end.

End IdealType.
