(* ===== verification/IdealTypeTheorems.v ===== *)
(** The integer types of the C2 compiler form a lattice with an order-reversing
    duality, meet and join bound the sets of values from either side, and widening and
    narrowing reach a fixed point in few steps. *)
From S2P Require Import Prelude GlobalDefinitions IdealType.
Import GlobalDefinitions IdealType.

Module IdealTypeTheorems.

(** Reduce to literal bounds at each width. *)
Ltac width k :=
  destruct k; unfold min_j, max_j, max_ju, WidenMin, WidenMax, SMALLINT in *;
  cbn [bits] in *; change (2 ^ (32 - 1)) with 2147483648 in *; change (2 ^ 32) with 4294967296 in *;
  change (2 ^ (64 - 1)) with 9223372036854775808 in *; change (2 ^ 64) with 18446744073709551616 in *.

Lemma wrap_span k a b : min_j k <= a <= b -> b <= max_j k -> wrap (bits k) (b - a) = b - a.
Proof. intros. unfold wrap. apply Z.mod_small. width k; lia. Qed.

(** The count without wrapping arithmetic. *)
Lemma normalize_spec k lo hi w :
  min_j k <= lo <= max_j k -> min_j k <= hi <= max_j k ->
  normalize_widen k lo hi w
  = if lo <=? hi then if hi - lo =? max_ju k then WidenMax else if hi - lo <=? SMALLINT then WidenMin else w
    else if lo - hi =? max_ju k then WidenMin else if lo - hi <=? SMALLINT then WidenMin else w.
Proof.
  intros Hlo Hhi. unfold normalize_widen. destruct (Z.leb_spec lo hi).
  - rewrite wrap_span by lia.
    assert (hi - lo <= max_ju k) by (width k; lia).
    destruct (Z.leb_spec (max_ju k) (hi - lo)), (Z.eqb_spec (hi - lo) (max_ju k)); done || lia.
  - rewrite wrap_span by lia.
    assert (lo - hi <= max_ju k) by (width k; lia).
    destruct (Z.leb_spec (max_ju k) (lo - hi)), (Z.eqb_spec (lo - hi) (max_ju k)); done || lia.
Qed.

Ltac normalize_cases :=
  rewrite !normalize_spec in * by (cbn [_lo _hi]; lia);
  repeat match goal with
  | |- context [?a <=? ?b] => destruct (Z.leb_spec a b)
  | |- context [?a =? ?b] => destruct (Z.eqb_spec a b)
  | H : context [?a <=? ?b] |- _ => destruct (Z.leb_spec a b)
  | H : context [?a =? ?b] |- _ => destruct (Z.eqb_spec a b)
  end.

Lemma make_wf k lo hi w :
  min_j k <= lo <= max_j k -> min_j k <= hi <= max_j k -> WidenMin <= w <= WidenMax ->
  range_wf k (make k lo hi w).
Proof.
  intros Hlo Hhi Hw. unfold range_wf, make. cbn [_lo _hi _widen].
  split; [done|]. split; [done|]. normalize_cases; unfold WidenMin, WidenMax in *; lia.
Qed.

Lemma make_con_wf k z : min_j k <= z <= max_j k -> range_wf k (make_con z).
Proof.
  intros Hz. unfold range_wf, make_con. cbn [_lo _hi _widen].
  split; [done|]. split; [done|]. normalize_cases; width k; lia.
Qed.

Lemma isa_num k r : isa k (Num k r) = Some r.
Proof. simpl. by rewrite decide_True. Qed.

Lemma full_wf k : range_wf k (full k).
Proof. apply make_wf; width k; lia. Qed.

Lemma full_bounds k : _lo (full k) = min_j k /\ _hi (full k) = max_j k /\ _widen (full k) = WidenMax.
Proof. by destruct k. Qed.

(** A well-formed range is determined by its bounds and a count that matters only
    when the range is neither small nor full. *)
Lemma range_eq r s : _lo r = _lo s -> _hi r = _hi s -> _widen r = _widen s -> r = s.
Proof. destruct r, s. simpl. congruence. Qed.

Lemma xmeet_range_wf k r s : range_wf k r -> range_wf k s -> range_wf k (xmeet_range k r s).
Proof.
  intros (Hr1 & Hr2 & Hr3 & _) (Hs1 & Hs2 & Hs3 & _).
  unfold xmeet_range. rewrite !MIN2_min, !MAX2_max. apply make_wf; lia.
Qed.

Lemma xdual_range_wf k r : range_wf k r -> range_wf k (xdual_range k r).
Proof.
  intros (Hr1 & Hr2 & Hr3 & _).
  change (xdual_range k r) with (make k (_hi r) (_lo r) (WidenMax - _widen r)).
  apply make_wf; unfold WidenMin, WidenMax in *; lia.
Qed.

Lemma xmeet_range_idem k r : range_wf k r -> xmeet_range k r r = r.
Proof.
  intros (Hr1 & Hr2 & Hr3 & Hr4). unfold xmeet_range. rewrite MIN2_min, !MAX2_max, Z.min_id, !Z.max_id.
  by apply range_eq.
Qed.

Lemma xmeet_range_comm k r s : xmeet_range k r s = xmeet_range k s r.
Proof.
  unfold xmeet_range. rewrite !MIN2_min, !MAX2_max.
  by rewrite (Z.min_comm (_lo r)), (Z.max_comm (_hi r)), (Z.max_comm (_widen r)).
Qed.

Lemma xdual_range_involutive k r : range_wf k r -> xdual_range k (xdual_range k r) = r.
Proof.
  intros (Hr1 & Hr2 & Hr3 & Hr4). apply range_eq; [done | done |].
  unfold xdual_range. cbn [_lo _hi _widen]. normalize_cases; width k; lia.
Qed.

(** The count is free unless the range is small or full, in either direction. *)
Definition free_count (k : kind) (lo hi : Z) : bool :=
  (SMALLINT <? Z.abs (hi - lo)) && (Z.abs (hi - lo) <? max_ju k).

Lemma normalize_free k lo hi w :
  min_j k <= lo <= max_j k -> min_j k <= hi <= max_j k -> free_count k lo hi = true ->
  normalize_widen k lo hi w = w.
Proof.
  intros Hlo Hhi Hf. unfold free_count in Hf. apply andb_true_iff in Hf as [H1%Z.ltb_lt H2%Z.ltb_lt].
  normalize_cases; lia.
Qed.

Lemma normalize_forced k lo hi w w' :
  min_j k <= lo <= max_j k -> min_j k <= hi <= max_j k -> free_count k lo hi = false ->
  normalize_widen k lo hi w = normalize_widen k lo hi w' /\
  (normalize_widen k lo hi w = WidenMin \/ lo = min_j k /\ hi = max_j k).
Proof.
  intros Hlo Hhi Hf. unfold free_count in Hf. apply andb_false_iff in Hf as [H1%Z.ltb_ge|H2%Z.ltb_ge].
  - normalize_cases; try lia; width k; lia.
  - normalize_cases; try lia; width k; lia.
Qed.

Lemma free_count_swap k lo hi : free_count k hi lo = free_count k lo hi.
Proof. unfold free_count. by replace (Z.abs (lo - hi)) with (Z.abs (hi - lo)) by lia. Qed.

Lemma free_count_proper k lo hi :
  free_count k lo hi = true -> lo <> max_j k \/ hi <> min_j k.
Proof.
  unfold free_count. intros [_ H%Z.ltb_lt]%andb_true_iff. width k; lia.
Qed.

(** The symmetry that [Type::meet_helper] asserts. *)
Lemma xmeet_range_symmetric k r s :
  range_wf k r -> range_wf k s ->
  xmeet_range k (xdual_range k (xmeet_range k r s)) (xdual_range k r) = xdual_range k r.
Proof.
  intros (Hr1 & Hr2 & Hr3 & Hr4) (Hs1 & Hs2 & Hs3 & Hs4).
  apply range_eq; unfold xmeet_range, xdual_range, make; cbn [_lo _hi _widen]; rewrite !MIN2_min, !MAX2_max.
  - lia.
  - lia.
  - replace (Z.min (Z.max (_hi r) (_hi s)) (_hi r)) with (_hi r) by lia.
    replace (Z.max (Z.min (_lo r) (_lo s)) (_lo r)) with (_lo r) by lia.
    set (lo := Z.min (_lo r) (_lo s)). set (hi := Z.max (_hi r) (_hi s)).
    assert (min_j k <= lo <= max_j k /\ min_j k <= hi <= max_j k /\ lo <= _lo r /\ _hi r <= hi) as
      (Hlo & Hhi & Hl & Hh) by lia.
    clearbody lo hi. destruct (free_count k (_lo r) (_hi r)) eqn:Hf.
    + pose proof (free_count_proper k _ _ Hf). rewrite !(normalize_free k (_hi r) (_lo r)) by (done || by rewrite free_count_swap).
      destruct (free_count k lo hi) eqn:Hf'.
      * rewrite (normalize_free k hi lo), (normalize_free k lo hi) by (done || by rewrite free_count_swap). lia.
      * rewrite <- free_count_swap in Hf'.
        destruct (normalize_forced k hi lo (WidenMax - normalize_widen k lo hi (Z.max (_widen r) (_widen s))) 0 Hhi Hlo Hf')
          as [_ [->|[? ?]]]; unfold WidenMin, WidenMax in *; lia.
    + rewrite <- free_count_swap in Hf. by apply normalize_forced.
Qed.

Lemma xmeet_comm s t : xmeet s t = xmeet t s.
Proof.
  unfold xmeet. destruct (decide (s = t)) as [->|Hne]; [by rewrite decide_True|].
  rewrite (decide_False (P := t = s)) by done. destruct s as [| |k r], t as [| |k' r']; try done;
    unfold xmeet_num; repeat case_decide; try congruence.
  - rewrite xmeet_range_comm. congruence.
Qed.

Lemma xmeet_num_range k r s : range_wf k r -> xmeet (Num k r) (Num k s) = Num k (xmeet_range k r s).
Proof.
  intros Hr. unfold xmeet, xmeet_num. repeat case_decide; try done.
  by simplify_eq; rewrite xmeet_range_idem.
Qed.

Lemma xmeet_wf s t : type_wf s -> type_wf t -> type_wf (xmeet s t).
Proof.
  intros Hs Ht. destruct s as [| |k r], t as [| |k' r']; try done.
  destruct (decide (k = k')) as [<-|Hk].
  - rewrite xmeet_num_range by done. by apply xmeet_range_wf.
  - unfold xmeet, xmeet_num. repeat case_decide; simplify_eq; done.
Qed.

Lemma xdual_wf t : type_wf t -> type_wf (xdual t).
Proof. destruct t; [done | done | apply xdual_range_wf]. Qed.

Lemma xdual_involutive t : type_wf t -> xdual (xdual t) = t.
Proof. destruct t as [| |k r]; intros; simpl; [done | done | by rewrite xdual_range_involutive]. Qed.

Lemma xmeet_top t : xmeet TOP t = t.
Proof. unfold xmeet. by case_decide. Qed.
Lemma xmeet_bottom t : xmeet BOTTOM t = BOTTOM.
Proof. unfold xmeet. by case_decide. Qed.

Lemma xmeet_symmetric s t :
  type_wf s -> type_wf t -> xmeet (xdual (xmeet s t)) (xdual s) = xdual s.
Proof.
  intros Hs Ht. destruct s as [| |k r].
  - simpl. by rewrite xmeet_comm, xmeet_bottom.
  - rewrite xmeet_bottom. simpl. apply xmeet_top.
  - destruct t as [| |k' r'].
    + rewrite (xmeet_comm (Num k r)), xmeet_top. unfold xmeet. by rewrite decide_True.
    + rewrite (xmeet_comm (Num k r)), xmeet_bottom. simpl. apply xmeet_top.
    + destruct (decide (k = k')) as [<-|Hk].
      * rewrite xmeet_num_range by done. simpl.
        rewrite xmeet_num_range by (by apply xdual_range_wf, xmeet_range_wf).
        by rewrite xmeet_range_symmetric.
      * assert (xmeet (Num k r) (Num k' r') = BOTTOM) as ->.
        { unfold xmeet, xmeet_num. repeat case_decide; simplify_eq; done. }
        apply xmeet_top.
Qed.

(** ** Values *)

Lemma xmeet_has_type k v s t : type_wf s -> has_type k v s -> has_type k v (xmeet s t).
Proof.
  intros Hwf Hs. destruct s as [| |k' r]; simpl in Hs; [done | by rewrite xmeet_bottom |].
  destruct Hs as [<- Hs]. destruct t as [| |k' r'].
  - rewrite xmeet_comm, xmeet_top. done.
  - by rewrite xmeet_comm, xmeet_bottom.
  - destruct (decide (k = k')) as [<-|Hk].
    + rewrite xmeet_num_range by done. simpl. rewrite MIN2_min, MAX2_max. split; [done | lia].
    + unfold xmeet, xmeet_num. repeat case_decide; simplify_eq; done.
Qed.

Lemma xmeet_kinds k k' r r' : k <> k' -> xmeet (Num k r) (Num k' r') = BOTTOM.
Proof. intros Hk. unfold xmeet, xmeet_num. repeat case_decide; simplify_eq; done. Qed.

Lemma join_num k r r' :
  range_wf k r -> range_wf k r' ->
  exists w, join (Num k r) (Num k r') = Num k (mkRange (Z.max (_lo r) (_lo r')) (Z.min (_hi r) (_hi r')) w).
Proof.
  intros Hr Hr'. unfold join. simpl xdual at 2 3.
  rewrite xmeet_num_range by (by apply xdual_range_wf). eexists. simpl. unfold xdual_range at 1, xmeet_range, make.
  cbn [_lo _hi _widen]. by rewrite MIN2_min, MAX2_max.
Qed.

Lemma join_bottom s : type_wf s -> join s BOTTOM = s.
Proof.
  intros Hs. unfold join. change (xdual BOTTOM) with TOP. rewrite xmeet_comm, xmeet_top.
  by apply xdual_involutive.
Qed.

(** Filtering keeps exactly the values the two types share. *)
Lemma filter_has_type k r t v :
  range_wf k r -> type_wf t ->
  has_type k v (filter_range k r t) <-> has_type k v (Num k r) /\ has_type k v t.
Proof.
  intros Hr Ht. unfold filter_range.
  assert (forall ft, has_type k v (if empty_range ft then TOP
      else if _widen ft <? _widen r then Num k (make k (_lo ft) (_hi ft) (_widen r)) else Num k ft)
    <-> _lo ft <= v <= _hi ft) as Hft.
  { intros ft. unfold empty_range. destruct (Z.ltb_spec (_hi ft) (_lo ft)); simpl; [lia|].
    destruct (_widen ft <? _widen r); simpl; tauto. }
  destruct t as [| |k' r'].
  - unfold join. change (xdual TOP) with BOTTOM. rewrite xmeet_comm, xmeet_bottom. simpl. tauto.
  - rewrite join_bottom by done. rewrite isa_num, Hft. simpl. tauto.
  - destruct (decide (k = k')) as [<-|Hk].
    + destruct (join_num k r r' Hr Ht) as [w ->]. rewrite isa_num, Hft. simpl. intuition lia.
    + unfold join. simpl xdual at 2 3. rewrite xmeet_kinds by done. simpl. tauto.
Qed.

(** C29.  The integer types are a lattice.  For all types with bounds of their width and a
    normalised count, meet is commutative, idempotent and closed; taking the dual is an
    involution and turns meets around, which is what the compiler asserts whenever it
    meets two types; every value of either type is a value of their meet; and filtering
    a type by another keeps exactly the values they share. *)
Theorem lattice_correct s t :
  type_wf s -> type_wf t ->
  type_wf (xmeet s t) /\ type_wf (xdual s) /\
  xmeet s t = xmeet t s /\ xmeet s s = s /\ xdual (xdual s) = s /\
  xmeet (xdual (xmeet s t)) (xdual s) = xdual s /\ xmeet (xdual (xmeet s t)) (xdual t) = xdual t /\
  (forall k v, has_type k v s \/ has_type k v t -> has_type k v (xmeet s t)) /\
  (forall k r v, s = Num k r -> has_type k v (filter_range k r t) <-> has_type k v s /\ has_type k v t).
Proof.
  intros Hs Ht. split; [by apply xmeet_wf|]. split; [by apply xdual_wf|].
  split; [apply xmeet_comm|]. split; [unfold xmeet; by rewrite decide_True|].
  split; [by apply xdual_involutive|]. split; [by apply xmeet_symmetric|].
  split; [rewrite (xmeet_comm s t); by apply xmeet_symmetric|].
  split.
  - intros k v [Hv|Hv]; [by apply xmeet_has_type|]. rewrite xmeet_comm. by apply xmeet_has_type.
  - intros k r v ->. by apply filter_has_type.
Qed.

(** ** Widening *)

(** How far a range has been widened: small ranges by their width, others by their
    count, and at the last count by the bounds that have been given up. *)
Definition widen_rank (k : kind) (mn mx : Z) (r : range) : nat :=
  if (_lo r =? min_j k) && (_hi r =? max_j k) then 10
  else if _hi r - _lo r <=? SMALLINT then Z.to_nat (_hi r - _lo r)
  else if _widen r <? WidenMax then 4 + Z.to_nat (_widen r)
  else if (_lo r <=? mn) || (mx <=? _hi r) then 9
  else if max_ju KInt <=? _hi r then 8 else 7.

Lemma widen_rank_spec k mn mx r :
  range_wf k r -> _lo r <= _hi r ->
  (_lo r = min_j k /\ _hi r = max_j k /\ _widen r = 3 /\ widen_rank k mn mx r = 10%nat) \/
  ((_lo r <> min_j k \/ _hi r <> max_j k) /\
    ((_hi r - _lo r <= 3 /\ _widen r = 0 /\ Z.of_nat (widen_rank k mn mx r) = _hi r - _lo r) \/
     (3 < _hi r - _lo r /\ _widen r < 3 /\ Z.of_nat (widen_rank k mn mx r) = 4 + _widen r) \/
     (3 < _hi r - _lo r /\ _widen r = 3 /\ widen_rank k mn mx r
       = if (_lo r <=? mn) || (mx <=? _hi r) then 9%nat else if max_ju KInt <=? _hi r then 8%nat else 7%nat))).
Proof.
  intros (H1 & H2 & H3 & H4) Hle. rewrite normalize_spec in H4 by done.
  rewrite (proj2 (Z.leb_le _ _) Hle) in H4. unfold widen_rank.
  destruct (Z.eqb_spec (_lo r) (min_j k)), (Z.eqb_spec (_hi r) (max_j k)); simpl andb; cbv iota;
    [left; destruct (Z.eqb_spec (_hi r - _lo r) (max_ju k)); [done | exfalso; width k; lia] | | | ];
    right; (split; [tauto|]); unfold WidenMin, WidenMax, SMALLINT in *;
    (destruct (Z.eqb_spec (_hi r - _lo r) (max_ju k)); [exfalso; width k; lia|]);
    (destruct (Z.leb_spec (_hi r - _lo r) 3); [left; lia|]; right;
     destruct (Z.ltb_spec (_widen r) 3); [left; lia|]; right; split; [lia | split; [lia | done]]).
Qed.

(** What an admissible [push] does. *)
Definition push_ok (push : Z -> Z -> Z) : Prop :=
  forall mx hi, hi < mx -> hi < push mx hi <= mx /\ (push mx hi = mx \/ hi < max_ju KInt <= push mx hi).

(** A wider range that has been given the next count, or a bound of the limit. *)
Definition progress (k : kind) (mn mx : Z) (old r r' : range) : Prop :=
  range_wf k r' /\ _lo r' <= _lo r /\ _hi r <= _hi r' /\ _widen old <= _widen r' /\
  (widen_rank k mn mx old < widen_rank k mn mx r' <= 10)%nat.

Section Step.
Context (k : kind) (mn mx : Z) (r old : range).
Hypotheses (Hr : range_wf k r) (Hold : range_wf k old) (Hle : _lo old <= _hi old)
  (Hlo : _lo r <= _lo old) (Hhi : _hi old <= _hi r) (Hne : _lo r < _lo old \/ _hi old < _hi r).

Lemma progress_this :
  _widen old < _widen r \/ (_lo old = _hi old /\ _widen old <= _widen r) -> progress k mn mx old r r.
Proof.
  intros Hcase. pose proof (widen_rank_spec k mn mx old Hold Hle) as Hrank.
  pose proof (widen_rank_spec k mn mx r Hr ltac:(lia)) as Hrank'. destruct Hr as (? & ? & ? & _). destruct Hold as (? & ? & ? & _).
  unfold progress, WidenMin, WidenMax in *. split; [exact Hr|].
  split; [lia|]. split; [lia|]. split; [lia|].
  destruct Hrank as [(? & ? & ? & Hm)|(? & [(? & ? & Hm)|[(? & ? & Hm)|(? & ? & Hm)]])]; try lia;
    destruct Hrank' as [(? & ? & ? & Hn)|(? & [(? & ? & Hn)|[(? & ? & Hn)|(? & ? & Hn)]])];
    repeat case_match; lia.
Qed.

Lemma progress_count :
  _widen r < WidenMax -> _widen old = _widen r -> progress k mn mx old r (make k (_lo r) (_hi r) (_widen r + 1)).
Proof.
  intros Hmax Hw. pose proof Hr as (Hr1 & Hr2 & Hr3 & _). unfold WidenMin, WidenMax in *.
  assert (range_wf k (make k (_lo r) (_hi r) (_widen r + 1))) as Hwf
    by (apply make_wf; unfold WidenMin, WidenMax; lia).
  pose proof (widen_rank_spec k mn mx old Hold Hle) as Hrank.
  pose proof (widen_rank_spec k mn mx _ Hwf ltac:(cbn [_lo _hi make]; lia)) as Hrank'.
  assert (_widen (make k (_lo r) (_hi r) (_widen r + 1)) = _widen r + 1 \/
    _hi r - _lo r <= 3 \/ (_lo r = min_j k /\ _hi r = max_j k)) as Hcount.
  { unfold make. cbn [_widen]. rewrite normalize_spec by done.
    rewrite (proj2 (Z.leb_le _ _)) by lia. unfold SMALLINT.
    destruct (Z.eqb_spec (_hi r - _lo r) (max_ju k)); [right; right; width k; lia|].
    destruct (Z.leb_spec (_hi r - _lo r) 3); [tauto | by left]. }
  unfold progress. set (r' := make k (_lo r) (_hi r) (_widen r + 1)) in *.
  assert (_lo r' = _lo r /\ _hi r' = _hi r) as [El Eh] by done. clearbody r'. rewrite El, Eh in *.
  split; [exact Hwf|]. split; [lia|]. split; [lia|].
  clear Hr1 Hr2 Hwf.
  destruct Hrank as [(? & ? & ? & Hm)|(? & [(? & ? & Hm)|[(? & ? & Hm)|(? & ? & Hm)]])]; try lia;
    destruct Hrank' as [(? & ? & ? & Hn)|(? & [(? & ? & Hn)|[(? & ? & Hn)|(? & ? & Hn)]])];
    repeat case_match; split; lia.
Qed.

Lemma progress_full : _widen old <= WidenMax -> progress k mn mx old r (full k).
Proof.
  intros Hw. destruct (full_bounds k) as (El & Eh & Ew). pose proof Hr as (Hr1 & Hr2 & _).
  pose proof (widen_rank_spec k mn mx old Hold Hle) as Hrank.
  pose proof (widen_rank_spec k mn mx _ (full_wf k) ltac:(lia)) as Hrank'.
  unfold progress. rewrite El, Eh, Ew in *. split; [apply full_wf|].
  split; [lia|]. split; [lia|]. split; [done|].
  destruct Hrank as [(? & ? & ? & Hm)|(? & [(? & ? & Hm)|[(? & ? & Hm)|(? & ? & Hm)]])]; repeat case_match; lia.
Qed.

(** Pushing out one end of a range that touches no limit yet. *)
Lemma progress_push lo hi :
  _widen old = 3 -> mn < _lo r -> _hi r < mx -> min_j k <= mn -> mx <= max_j k ->
  (lo = mn /\ hi = _hi r) \/
  (lo = _lo r /\ _hi r < hi <= mx /\ (hi = mx \/ _hi r < max_ju KInt <= hi)) ->
  progress k mn mx old r (make k lo hi WidenMax).
Proof.
  intros Hw Hmn Hmx Hmn' Hmx' Hpush. pose proof Hr as (Hr1 & Hr2 & Hr3 & _).
  assert (range_wf k (make k lo hi WidenMax)) as Hwf by (apply make_wf; unfold WidenMin, WidenMax in *; lia).
  pose proof (widen_rank_spec k mn mx old Hold Hle) as Hrank.
  pose proof (widen_rank_spec k mn mx _ Hwf ltac:(cbn [_lo _hi make]; lia)) as Hrank'.
  assert (_widen (make k lo hi WidenMax) = 3) as Hcount.
  { unfold make. cbn [_widen]. rewrite normalize_spec by lia. rewrite (proj2 (Z.leb_le lo hi)) by lia.
    unfold SMALLINT. destruct (hi - lo =? max_ju k); [done|]. destruct (Z.leb_spec (hi - lo) 3); [lia | done]. }
  unfold progress. set (r' := make k lo hi WidenMax) in *.
  assert (_lo r' = lo /\ _hi r' = hi) as [El Eh] by done. clearbody r'. rewrite El, Eh, Hcount in *.
  split; [exact Hwf|]. split; [lia|]. split; [lia|]. split; [lia|].
  destruct Hrank as [?|(? & [?|[?|(? & ? & Hn)]])]; try lia.
  rewrite (proj2 (Z.leb_gt (_lo old) mn)), (proj2 (Z.leb_gt mx (_hi old))) in Hn by lia. simpl in Hn.
  destruct Hrank' as [?|(? & [?|[?|(? & ? & Hn')]])]; try lia.
  destruct (Z.leb_spec lo mn), (Z.leb_spec mx hi); simpl in Hn'; try (destruct (max_ju KInt <=? _hi old); lia).
  destruct (Z.leb_spec (max_ju KInt) (_hi old)), (Z.leb_spec (max_ju KInt) hi); lia.
Qed.

End Step.

Lemma widen_step k push r old limit mn mx :
  push_ok push -> range_wf k r -> range_wf k old -> type_wf limit ->
  match isa k limit with Some l => (_lo l, _hi l) | None => (min_j k, max_j k) end = (mn, mx) ->
  _lo r <= _lo old -> _hi old <= _hi r -> _lo old <= _hi old -> _widen old <= _widen r ->
  widen_range k push r (Num k old) limit = Num k old \/
  exists r', widen_range k push r (Num k old) limit = Num k r' /\ progress k mn mx old r r'.
Proof.
  intros Hpush Hr Hold Hlimit Hmm Hlo Hhi Hle Hw. unfold widen_range. rewrite isa_num.
  rewrite Hmm, (proj2 (Z.leb_le (_lo r) _)), (proj2 (Z.leb_le _ (_hi r))) by done.
  pose proof Hold as (_ & _ & Hold3 & _). pose proof Hr as (_ & _ & Hr3 & _).
  assert (min_j k <= mn /\ mx <= max_j k) as [Hmn Hmx].
  { destruct limit as [| |k' l]; simpl in Hmm; try (simplify_eq; lia).
    case_decide; simplify_eq; [destruct Hlimit as (? & ? & _); lia | lia]. }
  destruct ((_lo r =? _lo old) && (_hi r =? _hi old)) eqn:Heq; [by left | right].
  assert (_lo r < _lo old \/ _hi old < _hi r) as Hne.
  { apply andb_false_iff in Heq as [?%Z.eqb_neq|?%Z.eqb_neq]; lia. }
  simpl andb. cbv iota. unfold WidenMin, WidenMax in *.
  destruct (Z.ltb_spec (_widen old) (_widen r)); [exists r; split; [done | apply progress_this; auto]|].
  destruct (Z.eqb_spec (_lo old) (_hi old)); [exists r; split; [done | apply progress_this; auto]|].
  destruct (Z.eqb_spec (_widen r) 3).
  - destruct (Z.ltb_spec mn (_lo r)), (Z.ltb_spec (_hi r) mx); simpl andb; cbv iota;
      try (eexists; split; [done | apply progress_full; auto; unfold WidenMax; lia]).
    destruct (Hpush mx (_hi r)) as [Hp1 Hp2]; [done|].
    destruct (_ || _); (eexists; split; [done|]); apply progress_push; auto; lia.
  - eexists. split; [done|]. apply progress_count; auto; unfold WidenMax; lia.
Qed.

Lemma push_int_ok : push_ok (fun mx _ => mx).
Proof. intros mx hi H. lia. Qed.
Lemma push_long_ok : push_ok push_long.
Proof.
  intros mx hi H. unfold push_long.
  destruct (Z.leb_spec (max_ju KInt) mx), (Z.ltb_spec hi (max_ju KInt)); simpl; lia.
Qed.

Lemma widen_rank_bound k mn mx r : range_wf k r -> _lo r <= _hi r -> (widen_rank k mn mx r <= 10)%nat.
Proof.
  intros Hr Hle. pose proof Hr as (_ & _ & ? & _). unfold WidenMin, WidenMax in *.
  destruct (widen_rank_spec k mn mx r Hr Hle) as [(? & ? & ? & Hm)|(? & [(? & ? & Hm)|[(? & ? & Hm)|(? & ? & Hm)]])];
    repeat case_match; lia.
Qed.

(** The types a node goes through while the optimiser only adds values to it, and how
    often its type has changed: each new type contains the last one and has been
    widened at least as often. *)
Inductive widenings (k : kind) (push : Z -> Z -> Z) (limit : Type_) (r0 : range) : nat -> range -> Prop :=
  | no_widening : widenings k push limit r0 0 r0
  | one_widening n old r r' :
      widenings k push limit r0 n old ->
      range_wf k r -> _lo r <= _lo old -> _hi old <= _hi r -> _widen old <= _widen r ->
      widen_range k push r (Num k old) limit = Num k r' ->
      widenings k push limit r0 (if decide (r' = old) then n else S n) r'.

Lemma widenings_rank k push limit r0 n r mn mx :
  push_ok push -> type_wf limit -> range_wf k r0 -> _lo r0 <= _hi r0 ->
  match isa k limit with Some l => (_lo l, _hi l) | None => (min_j k, max_j k) end = (mn, mx) ->
  widenings k push limit r0 n r ->
  range_wf k r /\ _lo r <= _lo r0 /\ _hi r0 <= _hi r /\ (n <= widen_rank k mn mx r)%nat.
Proof.
  intros Hpush Hlimit H0 Hle Hmm Hws. induction Hws as [|n old r r' _ IH Hr Hlo Hhi Hw Hwiden].
  { repeat split; try apply H0; lia. }
  destruct IH as (Hold & IHlo & IHhi & IHn).
  destruct (widen_step k push r old limit mn mx Hpush Hr Hold Hlimit Hmm Hlo Hhi ltac:(lia) Hw)
    as [E|(r'' & E & Hwf & El & Eh & _ & Hrank)]; rewrite Hwiden in E; simplify_eq.
  - rewrite decide_True by done. done.
  - split; [done|]. split; [lia|]. split; [lia|]. case_decide; lia.
Qed.

(** ** Narrowing *)

Definition narrow_rank (k : kind) (r : range) : Z :=
  let d := _hi r - _lo r in
  if d =? max_ju k then 14 + bits k else if d <=? 12 then d else 13 + Z.log2 (d - 12).

Lemma narrow_rank_bound k r : range_wf k r -> _lo r <= _hi r -> 0 <= narrow_rank k r <= 14 + bits k.
Proof.
  intros (H1 & H2 & _) Hle. unfold narrow_rank. destruct (Z.eqb_spec (_hi r - _lo r) (max_ju k)); [width k; lia|].
  destruct (Z.leb_spec (_hi r - _lo r) 12); [width k; lia|].
  pose proof (Z.log2_nonneg (_hi r - _lo r - 12)).
  assert (Z.log2 (_hi r - _lo r - 12) <= bits k); [| lia].
  rewrite <- (Z.log2_pow2 (bits k)) by (destruct k; done). apply Z.log2_le_mono. width k; lia.
Qed.

(** Halving a width, up to a constant, lowers the rank. *)
Lemma narrow_rank_half k r old :
  _lo r <= _hi r -> _hi r - _lo r < _hi old - _lo old < max_ju k ->
  _hi r - _lo r <= (_hi old - _lo old) / 2 + 6 -> narrow_rank k r < narrow_rank k old.
Proof.
  intros Hle Hlt Hhalf. unfold narrow_rank.
  set (d := _hi r - _lo r) in *. set (e := _hi old - _lo old) in *.
  rewrite (proj2 (Z.eqb_neq d _)), (proj2 (Z.eqb_neq e _)) by lia.
  destruct (Z.leb_spec d 12), (Z.leb_spec e 12); [lia | | dlia |].
  - pose proof (Z.log2_nonneg (e - 12)). lia.
  - assert (Z.log2 (2 * (d - 12)) <= Z.log2 (e - 12)) as Hlog by (apply Z.log2_le_mono; dlia).
    rewrite Z.log2_double in Hlog by lia. lia.
Qed.

Lemma range_wf_con_eq k r s :
  range_wf k r -> range_wf k s -> _lo r = _hi r -> _lo s = _lo r -> _hi s = _hi r -> r = s.
Proof.
  intros (Hr1 & Hr2 & Hr3 & Hr4) (Hs1 & Hs2 & Hs3 & Hs4) Hc Hl Hh. apply range_eq; try done.
  rewrite normalize_spec in Hr4, Hs4 by done. revert Hr4 Hs4. unfold SMALLINT. rewrite Hl, Hh, Hc, Z.leb_refl, Z.sub_diag.
  destruct (0 =? max_ju k); simpl; lia.
Qed.

Lemma narrow_step k r old :
  range_wf k r -> range_wf k old -> _lo old <= _lo r -> _hi r <= _hi old -> _lo r <= _hi r ->
  narrow_range k r (Some (Num k old)) = Num k old \/
  (narrow_range k r (Some (Num k old)) = Num k r /\ (r = old \/ narrow_rank k r < narrow_rank k old)).
Proof.
  intros Hr Hold Hlo Hhi Hle. pose proof Hr as (Hr1 & Hr2 & _). pose proof Hold as (Ho1 & Ho2 & _).
  assert (0 <= _hi old - _lo old <= max_ju k) as Hwidth by (width k; lia).
  unfold narrow_range. rewrite isa_num. destruct (Z.leb_spec (_hi r) (_lo r)) as [Hcon|Hcon].
  { right. split; [done|]. destruct (Z.eq_dec (_lo old) (_hi old)) as [Heq|Hne].
    - left. apply (range_wf_con_eq k); done || lia.
    - right. unfold narrow_rank at 1. replace (_hi r - _lo r) with 0 by lia.
      rewrite (proj2 (Z.eqb_neq 0 _)) by (width k; lia). simpl.
      unfold narrow_rank. pose proof (Z.log2_nonneg (_hi old - _lo old - 12)).
      repeat case_match; width k; lia. }
  destruct ((_lo r =? _lo old) && (_hi r =? _hi old)) eqn:Heq; [by left|].
  assert (_hi r - _lo r < _hi old - _lo old) as Hlt.
  { apply andb_false_iff in Heq as [?%Z.eqb_neq|?%Z.eqb_neq]; lia. }
  destruct ((_lo old =? min_j k) && (_hi old =? max_j k)) eqn:Hfull.
  { right. split; [done | right]. apply andb_true_iff in Hfull as [El%Z.eqb_eq Eh%Z.eqb_eq].
    assert (narrow_rank k old = 14 + bits k) as ->.
    { unfold narrow_rank. rewrite (proj2 (Z.eqb_eq _ (max_ju k))); [done | rewrite El, Eh; width k; lia]. }
    unfold narrow_rank. rewrite (proj2 (Z.eqb_neq _ (max_ju k))) by lia.
    destruct (Z.leb_spec (_hi r - _lo r) 12); [destruct k; simpl; lia|].
    assert (Z.log2 (_hi r - _lo r - 12) < bits k); [apply Z.log2_lt_pow2; width k; lia | lia]. }
  rewrite (proj2 (Z.ltb_ge (_lo r) _)), (proj2 (Z.ltb_ge _ (_hi r))) by done. cbn [orb].
  rewrite !wrap_span by lia.
  assert (_hi old - _lo old < max_ju k) as Hmax.
  { apply andb_false_iff in Hfull as [?%Z.eqb_neq|?%Z.eqb_neq]; width k; lia. }
  rewrite (proj2 (Z.ltb_lt _ (max_ju k - 1))) by lia. rewrite Z.shiftr_div_pow2 by done. change (2 ^ 1) with 2. cbn [andb].
  unfold SMALLINT. destruct (Z.ltb_spec ((_hi old - _lo old) / 2 + 3 * 2) (_hi r - _lo r)); [by left | right].
  split; [done | right]. apply narrow_rank_half; lia.
Qed.

(** The types a node goes through while the optimiser only removes values from it. *)
Inductive narrowings (k : kind) (r0 : range) : nat -> range -> Prop :=
  | no_narrowing : narrowings k r0 0 r0
  | one_narrowing n old r r' :
      narrowings k r0 n old ->
      range_wf k r -> _lo old <= _lo r -> _hi r <= _hi old -> _lo r <= _hi r ->
      narrow_range k r (Some (Num k old)) = Num k r' ->
      narrowings k r0 (if decide (r' = old) then n else S n) r'.

Lemma narrowings_rank k r0 n r :
  range_wf k r0 -> _lo r0 <= _hi r0 -> narrowings k r0 n r ->
  range_wf k r /\ _lo r <= _hi r /\ Z.of_nat n + narrow_rank k r <= 14 + bits k.
Proof.
  intros H0 Hle Hns. induction Hns as [|n old r r' _ IH Hr Hlo Hhi Hrle Hnarrow].
  { split; [done|]. split; [done|]. pose proof (narrow_rank_bound k r0 H0 Hle). lia. }
  destruct IH as (Hold & IHle & IHn).
  destruct (narrow_step k r old Hr Hold Hlo Hhi Hrle) as [E|[E Hrank]]; rewrite Hnarrow in E; simplify_eq.
  - rewrite decide_True by done. done.
  - split; [done|]. split; [done|]. case_decide; [by subst | destruct Hrank; [done | lia]].
Qed.


(** ** Instances *)

Lemma lattice_correct_witness :
  xmeet (Num KInt (make KInt 0 10 1)) (Num KInt (make KInt 5 20 2)) = Num KInt (mkRange 0 20 2) /\
  xdual (xdual (Num KInt (make KInt 0 10 1))) = Num KInt (make KInt 0 10 1).
Proof.
  destruct (lattice_correct (Num KInt (make KInt 0 10 1)) (Num KInt (make KInt 5 20 2))) as (_ & _ & _ & _ & H & _);
    [apply make_wf; vm_compute; split; discriminate | apply make_wf; vm_compute; split; discriminate |].
  split; [vm_compute; reflexivity | exact H].
Defined.


End IdealTypeTheorems.
