(* ===== verification/IdealNode.v ===== *)
(** Nodes of the C2 compiler's graph for integer arithmetic, what they compute, and what
    their transformations rely on (opto/node.hpp, addnode.hpp, subnode.hpp, mulnode.hpp,
    divnode.hpp, phaseX.hpp).

    A node is the tree of its data inputs.  Nodes that end such a tree (parameters,
    phis, calls, loads of any other kind) are leaves.  An opcode of the source is an
    operator with a kind: [Bin Add KInt] is an AddINode and [Bin Add KLong] an AddLNode.
    The meaning of a node is that of the Java bytecode it stands for. *)
From S2P Require Import Prelude GlobalDefinitions IdealType.
Import GlobalDefinitions IdealType.

Module IdealNode.

Inductive arith : Set :=
  | Add | Sub | Mul | And | Or | Xor | LShift | RShift | URShift | Div | Mod | Min | Max | Cmp | MulHi.
#[global] Instance arith_eq_dec : EqDecision arith.
Proof. solve_decision. Defined.

(** Loads of values narrower than an int. *)
Inductive load : Set := LoadB | LoadUB | LoadS | LoadUS.
#[global] Instance load_eq_dec : EqDecision load.
Proof. solve_decision. Defined.

Inductive BoolTest : Set := bt_eq | bt_gt | bt_lt | bt_ne | bt_le | bt_ge.
#[global] Instance BoolTest_eq_dec : EqDecision BoolTest.
Proof. solve_decision. Defined.

Inductive Node : Set :=
  | Con (k : kind) (z : Z)
  | Load (op : load) (adr : nat)
  | Leaf (k : kind) (id : nat)
  | Bin (op : arith) (k : kind) (in1 in2 : Node)
  | ConvI2L (in1 : Node) (t : range)
  | ConvL2I (in1 : Node)
  | Conv2B (in1 : Node)
  | Bool_ (test : BoolTest) (in1 : Node)
  | CMove (k : kind) (bol if_false if_true : Node)
  | Opaque2 (in1 : Node).
#[global] Instance Node_eq_dec : EqDecision Node.
Proof. solve_decision. Defined.

(** ** Meaning *)

(** The values of leaves and the contents of memory where a narrow load reads. *)
Record env : Set := mkEnv { leaves : kind -> nat -> Z; memory : nat -> Z }.

Definition conv (k : kind) (z : Z) : Z := swrap (bits k) z.

(** Java masks shift counts to the width; a division by zero does not return. *)
Definition shift_count (k : kind) (s : Z) : Z := Z.land s (bits k - 1).

Definition eval_bin (op : arith) (k : kind) (a b : Z) : Z :=
  match op with
  | Add => conv k (a + b)
  | Sub => conv k (a - b)
  | Mul => conv k (a * b)
  | And => conv k (Z.land a b)
  | Or => conv k (Z.lor a b)
  | Xor => conv k (Z.lxor a b)
  | LShift => conv k (Z.shiftl a (shift_count k b))
  | RShift => conv k (Z.shiftr a (shift_count k b))
  | URShift => conv k (Z.shiftr (wrap (bits k) a) (shift_count k b))
  | Div => conv k (Z.quot a b)
  | Mod => conv k (Z.rem a b)
  | Min => conv k (Z.min a b)
  | Max => conv k (Z.max a b)
  | Cmp => if a <? b then -1 else if a =? b then 0 else 1
  | MulHi => conv k (Z.shiftr (a * b) (bits k))
  end.

Definition eval_load (op : load) (cell : Z) : Z :=
  match op with
  | LoadB => jbyte cell
  | LoadUB => u_char cell
  | LoadS => jshort cell
  | LoadUS => jchar cell
  end.

(** A test of the flags of a comparison. *)
Definition eval_test (test : BoolTest) (cc : Z) : bool :=
  match test with
  | bt_eq => cc =? 0
  | bt_ne => negb (cc =? 0)
  | bt_lt => cc <? 0
  | bt_le => cc <=? 0
  | bt_gt => 0 <? cc
  | bt_ge => 0 <=? cc
  end.

Fixpoint eval (e : env) (n : Node) : Z :=
  match n with
  | Con k z => conv k z
  | Load op adr => eval_load op (memory e adr)
  | Leaf k id => conv k (leaves e k id)
  | Bin op k a b => eval_bin op k (eval e a) (eval e b)
  | ConvI2L a _ => conv KLong (eval e a)
  | ConvL2I a => conv KInt (eval e a)
  | Conv2B a => if eval e a =? 0 then 0 else 1
  | Bool_ test a => Z.b2z (eval_test test (eval e a))
  | CMove k b f t => conv k (if eval e b =? 0 then eval e f else eval e t)
  | Opaque2 a => eval e a
  end.

Fixpoint kind_of (n : Node) : kind :=
  match n with
  | Con k _ | Leaf k _ | CMove k _ _ _ => k
  | Bin Cmp _ _ _ | Load _ _ | ConvL2I _ | Conv2B _ | Bool_ _ _ => KInt
  | Bin _ k _ _ => k
  | ConvI2L _ _ => KLong
  | Opaque2 a => kind_of a
  end.

Definition is_shift (op : arith) : bool :=
  match op with LShift | RShift | URShift => true | _ => false end.
Definition is_div (op : arith) : bool := match op with Div | Mod => true | _ => false end.

(** [Max] and [Min] are classes of ints and [MulHi] of longs. *)
Definition node_class (op : arith) (k : kind) : Prop :=
  match op with Max | Min => k = KInt | MulHi => k = KLong | _ => True end.

Definition inputs (n : Node) : list Node :=
  match n with
  | Con _ _ | Load _ _ | Leaf _ _ => []
  | Bin _ _ a b => [a; b]
  | ConvI2L a _ | ConvL2I a | Conv2B a | Bool_ _ a | Opaque2 a => [a]
  | CMove _ b f t => [b; f; t]
  end.

(** A long type of ints, as a conversion from int declares it. *)
Definition int_range (r : range) : Prop := range_wf KLong r /\ min_j KInt <= _lo r /\ _hi r <= max_j KInt.

(** Inputs have the kinds their users expect. *)
Fixpoint well_kinded (n : Node) : Prop :=
  match n with
  | Con _ _ | Load _ _ | Leaf _ _ => True
  | Bin op k a b =>
      well_kinded a /\ well_kinded b /\ kind_of a = k /\
      kind_of b = (if is_shift op then KInt else k) /\ node_class op k
  | ConvI2L a t => well_kinded a /\ kind_of a = KInt /\ int_range t
  | ConvL2I a => well_kinded a /\ kind_of a = KLong
  | Conv2B a | Bool_ _ a | Opaque2 a => well_kinded a /\ kind_of a = KInt
  | CMove k b f t =>
      well_kinded b /\ well_kinded f /\ well_kinded t /\ kind_of b = KInt /\ kind_of f = k /\ kind_of t = k
  end.

(** No division by zero, which control flow excludes where a division is executed; the
    type a conversion was made with, which the checks before it establish; and flags of
    a comparison where they are tested. *)
Fixpoint defined (e : env) (n : Node) : Prop :=
  match n with
  | Con _ _ | Load _ _ | Leaf _ _ => True
  | Bin op _ a b => defined e a /\ defined e b /\ (is_div op = true -> eval e b <> 0)
  | ConvI2L a t => defined e a /\ _lo t <= eval e a <= _hi t
  | Bool_ _ a => defined e a /\ -1 <= eval e a <= 1
  | ConvL2I a | Conv2B a | Opaque2 a => defined e a
  | CMove _ b f t => defined e b /\ defined e f /\ defined e t
  end.

Definition is_Min (n : Node) : bool := match n with Bin Min _ _ _ => true | _ => false end.

(** ** The phase *)

(** What a transformation asks of the phase that applies it, and of parts of the graph
    that do not take part in the computation. *)
Record PhaseGVN : Set := mkPhase {
  type : Node -> Type_;               (* [type]: the type found so far *)
  registered : Node -> bool;          (* [type_or_null] is not null *)
  transform : Node -> Node;           (* [transform]: the node or a replacement *)
  eqv : Node -> Node -> bool;         (* [eqv] and comparison of pointers *)
  eqv_uncast : Node -> Node -> bool;  (* the same behind casts *)
  find_type : Node -> Type_;          (* [find_int_type]: the type a node was made with *)
  idx_gt : Node -> Node -> bool;      (* comparison of [_idx] *)
  is_Load : Node -> bool;
  loop_phi_of : Node -> Node -> bool; (* [commute]: the second is a loop phi of the first *)
  is_tripcount : Node -> bool;
  ok_to_convert : Node -> Node -> bool;
  outcnt_1 : Node -> bool;            (* the node has one user *)
  is_Opaque1 : Node -> bool;
  loop_exit_test : Node -> bool;      (* [is_counted_loop_exit_test] *)
  major_progress : bool;              (* more loop optimizations follow *)
  MulHiL_supported : bool;            (* [Matcher::has_match_rule(Op_MulHiL)] *)
  use_asm_for_ldiv_by_con : Z -> bool;
  ConditionalMoveLimit : Z }.

(** A node of the graph: the phase has a type for it, and an execution gives it a value. *)
Definition good (ph : PhaseGVN) (e : env) (n : Node) : Prop :=
  registered ph n = true /\ well_kinded n /\ defined e n.

(** A new node, whose inputs are in the graph. *)
Definition fresh (ph : PhaseGVN) (e : env) (n : Node) : Prop :=
  (forall m, In m (inputs n) -> registered ph m = true) /\ well_kinded n /\ defined e n.

(** The phase is sound for an execution: types hold of the values that nodes take,
    new nodes are replaced by nodes of the graph that compute the same value (minima
    apart), and nodes it calls equal are equal. *)
Class PhaseSound (ph : PhaseGVN) (e : env) : Prop := {
  registered_inputs n m : registered ph n = true -> In m (inputs n) -> registered ph m = true;
  registered_con k z : registered ph (Con k (conv k z)) = true;
  type_wf_of n : good ph e n -> type_wf (type ph n);
  type_sound n : good ph e n -> has_type (kind_of n) (eval e n) (type ph n);
  find_type_wf n : good ph e n -> type_wf (find_type ph n);
  find_type_sound n : good ph e n -> has_type (kind_of n) (eval e n) (find_type ph n);
  transform_sound n :
    fresh ph e n -> is_Min n = false ->
    good ph e (transform ph n) /\ kind_of (transform ph n) = kind_of n /\ eval e (transform ph n) = eval e n;
  eqv_same n m : eqv ph n m = true -> n = m;
  eqv_uncast_same n m : eqv_uncast ph n m = true -> eval e n = eval e m
}.

(** What the [Ideal] methods rely on besides: the types of numbers are ranges, that of a
    constant is the constant, and a node found to be constant has been replaced by it. *)
Class PhaseFolded (ph : PhaseGVN) : Prop := {
  type_of_con k z : type ph (Con k z) = con_type k (conv k z);
  type_numeric n : registered ph n = true -> well_kinded n -> type ph n <> BOTTOM;
  constant_folded n :
    registered ph n = true -> singleton (type ph n) = true -> type ph n <> TOP -> exists k z, n = Con k z
}.

(** And minima, for the one method that makes new ones. *)
Class MinSound (ph : PhaseGVN) (e : env) : Prop := {
  transform_min n :
    fresh ph e n -> is_Min n = true ->
    good ph e (transform ph n) /\ kind_of (transform ph n) = kind_of n /\ eval e (transform ph n) = eval e n
}.

(** [intcon] and [longcon] convert their argument; [makecon] asserts a constant. *)
Definition con (k : kind) (z : Z) : Node := Con k (conv k z).
Definition intcon (z : Z) : Node := con KInt z.
Definition longcon (z : Z) : Node := con KLong z.
Definition makecon (t : Type_) : option Node :=
  match t with
  | Num k r => if singleton_range r && negb (empty_range r) then Some (con k (get_con r)) else None
  | _ => None
  end.

End IdealNode.
