(* ===== verification/IdealValue.v ===== *)
(** The types the C2 compiler computes for integer arithmetic: the [Value] methods of the
    nodes for sums, differences, comparisons, products, masks, shifts, quotients and
    remainders (opto/addnode.cpp, subnode.cpp, mulnode.cpp, divnode.cpp), with the ring
    operations on ranges they dispatch to.

    The classes for int and long have the same code at two widths where a definition
    here has a kind as its argument.  [None] is a failed assertion, among them those of
    [is_int] and [is_long].  Signed overflow in the bounds wraps. *)
From S2P Require Import Prelude GlobalDefinitions IdealType IdealNode.
Import GlobalDefinitions IdealType IdealNode.

Module IdealValue.

(** A failed assertion ends the computation. *)
Notation "'assert!' b ; k" := (if b then k else None) (at level 10, b at level 100, k at level 200).

Definition is_type (t u : Type_) : bool := bool_decide (t = u).
Definition max_widen (r0 r1 : range) : Z := MAX2 (_widen r0) (_widen r1).

(** ** AddNode and its subclasses *)

Definition AddNode_add_ring (k : kind) (r0 r1 : range) : Type_ :=
  let lo := conv k (_lo r0 + _lo r1) in
  let hi := conv k (_hi r0 + _hi r1) in
  let '(lo, hi) :=
    if negb (is_con r0 && is_con r1) then
      let '(lo, hi) := if (Z.land (_lo r0) (_lo r1) <? 0) && (0 <=? lo)
                       then (min_j k, max_j k) else (lo, hi) in
      let '(lo, hi) := if (Z.lnot (Z.lor (_hi r0) (_hi r1)) <? 0) && (hi <? 0)
                       then (min_j k, max_j k) else (lo, hi) in
      if hi <? lo then (min_j k, max_j k) else (lo, hi)
    else (lo, hi) in
  Num k (make k lo hi (max_widen r0 r1)).

Definition OrINode_add_ring (r0 r1 : range) : Type_ :=
  let t0 := Num KInt r0 in
  let t1 := Num KInt r1 in
  let rest :=
    if negb (is_con r0) || negb (is_con r1) then FULL KInt
    else con_type KInt (Z.lor (get_con r0) (get_con r1)) in
  if is_type t0 BOOL then
    if is_type t1 (ONE KInt) then ONE KInt
    else if is_type t1 BOOL then BOOL else rest
  else if is_type t0 (ONE KInt) then
    if is_type t1 BOOL then ONE KInt else rest
  else rest.

Definition OrLNode_add_ring (r0 r1 : range) : Type_ :=
  if negb (is_con r0) || negb (is_con r1) then FULL KLong
  else con_type KLong (Z.lor (get_con r0) (get_con r1)).

Definition XorINode_add_ring (r0 r1 : range) : Type_ :=
  let t0 := Num KInt r0 in
  let t1 := Num KInt r1 in
  if is_type t0 BOOL && (is_type t1 (ONE KInt) || is_type t1 BOOL) then BOOL
  else if negb (is_con r0) || negb (is_con r1) then FULL KInt
  else con_type KInt (Z.lxor (get_con r0) (get_con r1)).

Definition XorLNode_add_ring (r0 r1 : range) : Type_ :=
  if negb (is_con r0) || negb (is_con r1) then FULL KLong
  else con_type KLong (Z.lxor (get_con r0) (get_con r1)).

Definition MaxINode_add_ring (r0 r1 : range) : Type_ :=
  Num KInt (make KInt (MAX2 (_lo r0) (_lo r1)) (MAX2 (_hi r0) (_hi r1)) (max_widen r0 r1)).
Definition MinINode_add_ring (r0 r1 : range) : Type_ :=
  Num KInt (make KInt (MIN2 (_lo r0) (_lo r1)) (MIN2 (_hi r0) (_hi r1)) (max_widen r0 r1)).

(** The virtual methods of AddNode; only the classes named have them. *)
Definition add_ring (op : arith) (k : kind) (t0 t1 : Type_) : option Type_ :=
  r0 ← isa k t0;
  r1 ← isa k t1;
  match op, k with
  | Add, _ => Some (AddNode_add_ring k r0 r1)
  | Or, KInt => Some (OrINode_add_ring r0 r1)
  | Or, KLong => Some (OrLNode_add_ring r0 r1)
  | Xor, KInt => Some (XorINode_add_ring r0 r1)
  | Xor, KLong => Some (XorLNode_add_ring r0 r1)
  | Max, KInt => Some (MaxINode_add_ring r0 r1)
  | Min, KInt => Some (MinINode_add_ring r0 r1)
  | _, _ => None
  end.
Definition add_id (op : arith) (k : kind) : Type_ :=
  match op with
  | Max => con_type k (min_j k)
  | Min => con_type k (max_j k)
  | _ => ZERO k
  end.

Definition add_of_identity (op : arith) (k : kind) (t1 t2 : Type_) : option Type_ :=
  let zero := add_id op k in
  if higher_equal t1 zero then Some t2
  else if higher_equal t2 zero then Some t1
  else None.

Definition AddNode_Value (ph : PhaseGVN) (op : arith) (k : kind) (in1 in2 : Node) : option Type_ :=
  let t1 := type ph in1 in
  let t2 := type ph in2 in
  if is_type t1 TOP then Some TOP else
  if is_type t2 TOP then Some TOP else
  let bot := FULL k in
  if is_type t1 bot || is_type t2 bot || is_type t1 BOTTOM || is_type t2 BOTTOM then Some bot else
  match add_of_identity op k t1 t2 with
  | Some tadd => Some tadd
  | None => add_ring op k t1 t2
  end.

(** ** SubNode and its subclasses *)

Definition SubNode_sub (k : kind) (r0 r1 : range) : Type_ :=
  let lo := conv k (_lo r0 - _hi r1) in
  let hi := conv k (_hi r0 - _lo r1) in
  if ((0 <=? Z.lxor (_lo r0) (_hi r1)) || (0 <=? Z.lxor (_lo r0) lo)) &&
     ((0 <=? Z.lxor (_hi r0) (_lo r1)) || (0 <=? Z.lxor (_hi r0) hi))
  then Num k (make k lo hi (max_widen r0 r1))
  else FULL k.

Definition CmpNode_sub (r0 r1 : range) : option Type_ :=
  if _hi r0 <? _lo r1 then Some CC_LT
  else if _hi r1 <? _lo r0 then Some CC_GT
  else if is_con r0 && is_con r1 then assert! get_con r0 =? get_con r1; Some CC_EQ
  else if _hi r0 =? _lo r1 then Some CC_LE
  else if _lo r0 =? _hi r1 then Some CC_GE
  else Some CC.

Definition sub (op : arith) (k : kind) (t1 t2 : Type_) : option Type_ :=
  r0 ← isa k t1;
  r1 ← isa k t2;
  match op with
  | Sub => Some (SubNode_sub k r0 r1)
  | Cmp => CmpNode_sub r0 r1
  | _ => None
  end.
Definition sub_bottom_type (op : arith) (k : kind) : Type_ := match op with Cmp => CC | _ => FULL k end.
Definition sub_add_id (op : arith) (k : kind) : Type_ := match op with Cmp => ZERO KInt | _ => ZERO k end.

(** [None] is the null result here. *)
Definition Value_common (ph : PhaseGVN) (op : arith) (k : kind) (in1 in2 : Node) : option Type_ :=
  let t1 := type ph in1 in
  if is_type t1 TOP then Some TOP else
  let t2 := type ph in2 in
  if is_type t2 TOP then Some TOP else
  if eqv_uncast ph in1 in2 then Some (sub_add_id op k) else
  if is_type t1 BOTTOM || is_type t2 BOTTOM then Some (sub_bottom_type op k) else None.

Definition SubNode_Value (ph : PhaseGVN) (op : arith) (k : kind) (in1 in2 : Node) : option Type_ :=
  match Value_common ph op k in1 in2 with
  | Some t => Some t
  | None => sub op k (type ph in1) (type ph in2)
  end.

(** ** MulNode and its subclasses *)

(** [(double) z] for an integer, and so the product of two such doubles after rounding:
    to nearest with 53 bits, ties to even. *)
Definition to_double (z : Z) : Z :=
  let a := Z.abs z in
  if a <? 2 ^ 53 then z else
  let e := Z.log2 a - 52 in
  let q := a / 2 ^ e in
  let rest := a mod 2 ^ e in
  let q := if (2 ^ (e - 1) <? rest) || ((rest =? 2 ^ (e - 1)) && Z.odd q) then q + 1 else q in
  Z.sgn z * (q * 2 ^ e).

Definition MulNode_mul_ring (k : kind) (r0 r1 : range) : Type_ :=
  let lo0 := _lo r0 in let a := to_double lo0 in
  let hi0 := _hi r0 in let b := to_double hi0 in
  let lo1 := _lo r1 in let c := to_double lo1 in
  let hi1 := _hi r1 in let d := to_double hi1 in
  let A := conv k (lo0 * lo1) in
  if negb (to_double A =? to_double (a * c)) then FULL k else
  let B := conv k (lo0 * hi1) in
  if negb (to_double B =? to_double (a * d)) then FULL k else
  let C := conv k (hi0 * lo1) in
  if negb (to_double C =? to_double (b * c)) then FULL k else
  let D := conv k (hi0 * hi1) in
  if negb (to_double D =? to_double (b * d)) then FULL k else
  let '(lo0, hi0) := if A <? B then (A, B) else (B, A) in
  let '(lo0, hi0) :=
    if C <? D then (if C <? lo0 then C else lo0, if hi0 <? D then D else hi0)
    else (if D <? lo0 then D else lo0, if hi0 <? C then C else hi0) in
  Num k (make k lo0 hi0 (max_widen r0 r1)).

Definition AndINode_mul_ring (r0 r1 : range) : Type_ :=
  let widen := max_widen r0 r1 in
  if negb (is_con r0) && negb (is_con r1) then FULL KInt
  else if is_con r0 && is_con r1 then con_type KInt (Z.land (get_con r0) (get_con r1))
  else if is_con r0 && (0 <? get_con r0) then Num KInt (make KInt 0 (get_con r0) widen)
  else if is_con r1 && (0 <? get_con r1) then Num KInt (make KInt 0 (get_con r1) widen)
  else if is_type (Num KInt r0) BOOL || is_type (Num KInt r1) BOOL then BOOL
  else FULL KInt.

Definition AndLNode_mul_ring (r0 r1 : range) : Type_ :=
  let widen := max_widen r0 r1 in
  if negb (is_con r0) && negb (is_con r1) then FULL KLong
  else if is_con r0 && is_con r1 then con_type KLong (Z.land (get_con r0) (get_con r1))
  else if is_con r0 && (0 <? get_con r0) then Num KLong (make KLong 0 (get_con r0) widen)
  else if is_con r1 && (0 <? get_con r1) then Num KLong (make KLong 0 (get_con r1) widen)
  else FULL KLong.

Definition mul_ring (op : arith) (k : kind) (t0 t1 : Type_) : option Type_ :=
  r0 ← isa k t0;
  r1 ← isa k t1;
  match op, k with
  | Mul, _ => Some (MulNode_mul_ring k r0 r1)
  | And, KInt => Some (AndINode_mul_ring r0 r1)
  | And, KLong => Some (AndLNode_mul_ring r0 r1)
  | _, _ => None
  end.
Definition mul_id (op : arith) (k : kind) : Type_ := match op with And => MINUS_1 k | _ => ONE k end.

Definition MulNode_Value (ph : PhaseGVN) (op : arith) (k : kind) (in1 in2 : Node) : option Type_ :=
  let t1 := type ph in1 in
  let t2 := type ph in2 in
  if is_type t1 TOP then Some TOP else
  if is_type t2 TOP then Some TOP else
  let zero := ZERO k in
  if higher_equal t1 zero then Some zero else
  if higher_equal t2 zero then Some zero else
  if is_type t1 BOTTOM || is_type t2 BOTTOM then Some (FULL k) else
  mul_ring op k t1 t2.

Definition MulHiLNode_Value (ph : PhaseGVN) (in1 in2 : Node) : option Type_ :=
  let t1 := type ph in1 in
  let t2 := type ph in2 in
  if is_type t1 TOP then Some TOP else
  if is_type t2 TOP then Some TOP else
  let bot := FULL KLong in
  if is_type t1 bot || is_type t2 bot || is_type t1 BOTTOM || is_type t2 BOTTOM then Some bot else
  Some (FULL KLong).

(** ** Shifts; the count is an int *)

Definition LShiftNode_Value (ph : PhaseGVN) (k : kind) (in1 in2 : Node) : option Type_ :=
  let t1 := type ph in1 in
  let t2 := type ph in2 in
  if is_type t1 TOP then Some TOP else
  if is_type t2 TOP then Some TOP else
  if is_type t1 (ZERO k) then Some (ZERO k) else
  if is_type t2 (ZERO KInt) then Some t1 else
  if is_type t1 (FULL k) || is_type t2 (FULL KInt) || is_type t1 BOTTOM || is_type t2 BOTTOM then Some (FULL k) else
  r1 ← isa k t1;
  r2 ← isa KInt t2;
  if negb (is_con r2) then Some (FULL k) else
  let shift := shift_count k (get_con r2) in
  if shift =? 0 then Some t1 else
  let shl z := conv k (Z.shiftl z shift) in
  if negb (is_con r1) then
    let lo := _lo r1 in
    let hi := _hi r1 in
    if (Z.shiftr (shl lo) shift =? lo) && (Z.shiftr (shl hi) shift =? hi)
    then Some (Num k (make k (shl lo) (shl hi) (max_widen r1 r2)))
    else Some (FULL k)
  else Some (con_type k (shl (get_con r1))).

(** The common beginning of the two right shifts. *)
Definition shift_guards (k : kind) (t1 t2 : Type_) : option Type_ :=
  if is_type t1 TOP then Some TOP else
  if is_type t2 TOP then Some TOP else
  if is_type t1 (ZERO k) then Some (ZERO k) else
  if is_type t2 (ZERO KInt) then Some t1 else
  if is_type t1 BOTTOM || is_type t2 BOTTOM then Some (FULL k) else
  if is_type t2 (FULL KInt) then Some (FULL k) else None.

(** The assertions on the result: valid bounds, and the sign-capture idiom with the
    type [neg] for negative numbers. *)
Definition shift_asserts (k : kind) (r1 : range) (shift lo hi : Z) (t neg : Type_) : bool :=
  (lo <=? hi) &&
  (negb (shift =? bits k - 1) ||
   ((negb (0 <=? _lo r1) || is_type t (ZERO k)) && (negb (_hi r1 <? 0) || is_type t neg))).

Definition RShiftNode_Value (ph : PhaseGVN) (k : kind) (in1 in2 : Node) : option Type_ :=
  let t1 := type ph in1 in
  let t2 := type ph in2 in
  match shift_guards k t1 t2 with
  | Some t => Some t
  | None =>
      r1 ← isa k t1;
      r2 ← isa KInt t2;
      if is_con r2 then
        let shift := shift_count k (get_con r2) in
        if shift =? 0 then Some t1 else
        let lo := Z.shiftr (_lo r1) shift in
        let hi := Z.shiftr (_hi r1) shift in
        let ti := Num k (make k lo hi (max_widen r1 r2)) in
        assert! shift_asserts k r1 shift lo hi ti (MINUS_1 k);
        Some ti
      else Some (FULL k)
  end.

Definition URShiftNode_Value (ph : PhaseGVN) (k : kind) (in1 in2 : Node) : option Type_ :=
  let t1 := type ph in1 in
  let t2 := type ph in2 in
  match shift_guards k t1 t2 with
  | Some t => Some t
  | None =>
      r1 ← isa k t1;
      r2 ← isa KInt t2;
      if is_con r2 then
        let shift := shift_count k (get_con r2) in
        if shift =? 0 then Some t1 else
        let ushr z := conv k (Z.shiftr (wrap (bits k) z) shift) in
        let lo := ushr (_lo r1) in
        let hi := ushr (_hi r1) in
        let '(lo, hi) :=
          if (0 <=? _hi r1) && (_lo r1 <? 0) then
            let neg_lo := lo in
            let neg_hi := ushr (-1) in
            let pos_lo := ushr 0 in
            let pos_hi := hi in
            (MIN2 neg_lo pos_lo, MAX2 neg_hi pos_hi)
          else (lo, hi) in
        let ti := Num k (make k lo hi (max_widen r1 r2)) in
        assert! shift_asserts k r1 shift lo hi ti (ONE k);
        Some ti
      else Some (FULL k)
  end.

(** ** Quotients and remainders; C++ truncates as Java does *)

Definition DivNode_Value (ph : PhaseGVN) (k : kind) (in1 in2 : Node) : option Type_ :=
  let t1 := type ph in1 in
  let t2 := type ph in2 in
  if is_type t1 TOP then Some TOP else
  if is_type t2 TOP then Some TOP else
  if eqv ph in1 in2 then Some (ONE k) else
  let bot := FULL k in
  if is_type t1 bot || is_type t2 bot || is_type t1 BOTTOM || is_type t2 BOTTOM then Some bot else
  i1 ← isa k t1;
  i2 ← isa k t2;
  let widen := max_widen i1 i2 in
  if is_con i2 && negb (get_con i2 =? 0) then
    let d := get_con i2 in
    let '(lo, hi) :=
      if 0 <=? d then (Z.quot (_lo i1) d, Z.quot (_hi i1) d)
      else if (d =? -1) && (_lo i1 =? min_j k)
      then (min_j k, if _hi i1 =? min_j k then min_j k else max_j k)
      else (Z.quot (_hi i1) d, Z.quot (_lo i1) d) in
    Some (Num k (make k lo hi widen))
  else if is_con i1 then
    let d := get_con i1 in
    if d <? 0 then
      if d =? min_j k then Some (Num k (make k (min_j k) (Z.quot (max_j k) 2 + 1) widen))
      else Some (Num k (make k d (- d) widen))
    else Some (Num k (make k (- d) d widen))
  else Some (FULL k).

Definition ModNode_Value (ph : PhaseGVN) (k : kind) (in1 in2 : Node) : option Type_ :=
  let t1 := type ph in1 in
  let t2 := type ph in2 in
  if is_type t1 TOP then Some TOP else
  if is_type t2 TOP then Some TOP else
  if is_type t1 (ZERO k) then Some (ZERO k) else
  if eqv ph in1 in2 then Some (ZERO k) else
  let bot := FULL k in
  if is_type t1 bot || is_type t2 bot || is_type t1 BOTTOM || is_type t2 BOTTOM then Some bot else
  i1 ← isa k t1;
  i2 ← isa k t2;
  if negb (is_con i1) || negb (is_con i2) then
    if (0 <=? _lo i1) && (0 <=? _lo i2) then Some (POS k) else Some (FULL k)
  else if get_con i2 =? 0 then Some (POS k)
  else if (get_con i1 =? min_j k) && (get_con i2 =? -1) then Some (ZERO k)
  else Some (con_type k (Z.rem (get_con i1) (get_con i2))).

(** ** The methods for longs *)

(** The definitions above are the methods for ints at [KInt]. *)
Definition AddLNode_add_ring : range -> range -> Type_ := AddNode_add_ring KLong.
Definition SubLNode_sub : range -> range -> Type_ := SubNode_sub KLong.
Definition CmpLNode_sub : range -> range -> option Type_ := CmpNode_sub.
Definition MulLNode_mul_ring : range -> range -> Type_ := MulNode_mul_ring KLong.
Definition LShiftLNode_Value (ph : PhaseGVN) : Node -> Node -> option Type_ := LShiftNode_Value ph KLong.
Definition RShiftLNode_Value (ph : PhaseGVN) : Node -> Node -> option Type_ := RShiftNode_Value ph KLong.
Definition URShiftLNode_Value (ph : PhaseGVN) : Node -> Node -> option Type_ := URShiftNode_Value ph KLong.
Definition DivLNode_Value (ph : PhaseGVN) : Node -> Node -> option Type_ := DivNode_Value ph KLong.
Definition ModLNode_Value (ph : PhaseGVN) : Node -> Node -> option Type_ := ModNode_Value ph KLong.

(** ** The virtual call *)

(** [Max] and [Min] are classes of ints and [MulHi] of longs. *)
Definition Value (ph : PhaseGVN) (op : arith) (k : kind) (in1 in2 : Node) : option Type_ :=
  match op with
  | Add | Or | Xor | Max | Min => AddNode_Value ph op k in1 in2
  | Sub | Cmp => SubNode_Value ph op k in1 in2
  | Mul | And => MulNode_Value ph op k in1 in2
  | MulHi => MulHiLNode_Value ph in1 in2
  | LShift => LShiftNode_Value ph k in1 in2
  | RShift => RShiftNode_Value ph k in1 in2
  | URShift => URShiftNode_Value ph k in1 in2
  | Div => DivNode_Value ph k in1 in2
  | Mod => ModNode_Value ph k in1 in2
  end.

End IdealValue.
