(* ===== verification/IdealRings.v ===== *)
(** The ring operations on ranges are sound: sums, differences, comparisons, products and
    masks of the values of two ranges are values of the range computed for them. *)
From S2P Require Import Prelude GlobalDefinitions IdealType IdealTypeTheorems IdealNode IdealValue.
Import GlobalDefinitions IdealType IdealTypeTheorems IdealNode IdealValue.

Module IdealRings.

(** ** Conversions *)

Lemma bits_pos k : 0 < bits k.
Proof. by destruct k. Qed.

Lemma conv_range k z : min_j k <= conv k z <= max_j k.
Proof.
  pose proof (swrap_range (bits k) z (bits_pos k)) as H. unfold in_signed in H. unfold conv, min_j, max_j. lia.
Qed.

Lemma conv_small k z : min_j k <= z <= max_j k -> conv k z = z.
Proof.
  intros Hz. apply swrap_small; [apply bits_pos|]. unfold in_signed, min_j, max_j in *. lia.
Qed.

Lemma conv_conv k z : conv k (conv k z) = conv k z.
Proof. apply conv_small, conv_range. Qed.

(** A conversion changes a number by a multiple of the modulus. *)
Lemma conv_mod k z : exists q, conv k z = z + q * 2 ^ bits k.
Proof.
  exists (- ((z + 2 ^ (bits k - 1)) / 2 ^ bits k)). unfold conv, swrap.
  rewrite Z.mod_eq by (pose proof (pow2_pos (bits k)); pose proof (bits_pos k); lia). lia.
Qed.

Lemma conv_unique k z c q : min_j k <= c <= max_j k -> c = z + q * 2 ^ bits k -> conv k z = c.
Proof.
  intros Hc Heq. destruct (conv_mod k z) as [q' Hq']. pose proof (conv_range k z).
  assert (q = q') by (width k; lia). lia.
Qed.

Lemma eval_range e n : min_j (kind_of n) <= eval e n <= max_j (kind_of n).
Proof.
  induction n as [k z|op adr|k id|op k a IHa b IHb|a IHa t|a IHa|a IHa|t a IHa|k b IHb f IHf t IHt|a IHa]; cbn [eval kind_of].
  - apply conv_range.
  - assert (forall w z, 0 < w <= 16 -> min_j KInt <= swrap w z <= max_j KInt) as Hs.
    { intros w z Hw. pose proof (swrap_range w z ltac:(lia)) as H. unfold in_signed in H.
      assert (2 ^ (w - 1) <= 2 ^ 15) by (apply Z.pow_le_mono_r; lia). unfold min_j, max_j. simpl bits. lia. }
    assert (forall w z, 0 <= w <= 16 -> min_j KInt <= wrap w z <= max_j KInt) as Hw.
    { intros w z Hw. pose proof (wrap_range w z ltac:(lia)) as H. unfold in_unsigned in H.
      assert (2 ^ w <= 2 ^ 16) by (apply Z.pow_le_mono_r; lia). unfold min_j, max_j. simpl bits. lia. }
    destruct op; simpl; [apply Hs | apply Hw | apply Hs | apply Hw]; lia.
  - apply conv_range.
  - destruct op; cbn [eval_bin]; try apply conv_range. unfold min_j, max_j. simpl bits. repeat case_match; lia.
  - apply conv_range.
  - apply conv_range.
  - unfold min_j, max_j. simpl bits. case_match; lia.
  - unfold min_j, max_j. simpl bits. destruct (eval_test _ _); simpl; lia.
  - apply conv_range.
  - done.
Qed.

(** An int is the same number as a long. *)
Lemma eval_I2L e x t : kind_of x = KInt -> eval e (ConvI2L x t) = eval e x.
Proof.
  intros Hk. pose proof (eval_range e x) as Hr. rewrite Hk in Hr. simpl. apply conv_small.
  change (-2147483648 <= eval e x <= 2147483647) in Hr.
  change (-9223372036854775808 <= eval e x <= 9223372036854775807). lia.
Qed.

(** ** Types and their values *)

(** A type that says something true of a value. *)
Definition sound (k : kind) (v : Z) (t : Type_) : Prop := type_wf t /\ has_type k v t.

Lemma sound_num k v lo hi w :
  min_j k <= lo -> lo <= v <= hi -> hi <= max_j k -> WidenMin <= w <= WidenMax ->
  sound k v (Num k (make k lo hi w)).
Proof. intros. split; [apply make_wf; lia | split; [done | cbn [_lo _hi make]; lia]]. Qed.

Lemma sound_con k v : min_j k <= v <= max_j k -> sound k v (con_type k v).
Proof. intros. split; [by apply make_con_wf | split; [done | cbn; lia]]. Qed.

Lemma sound_full k v : min_j k <= v <= max_j k -> sound k v (FULL k).
Proof.
  intros Hv. split; [apply full_wf|]. destruct (full_bounds k) as (El & Eh & _).
  split; [done | rewrite El, Eh; done].
Qed.

Lemma is_type_true t u : is_type t u = true -> t = u.
Proof. apply bool_decide_eq_true_1. Qed.

Lemma sound_isa k v t :
  sound k v t -> is_type t BOTTOM = false ->
  exists r, t = Num k r /\ isa k t = Some r /\ range_wf k r /\ _lo r <= v <= _hi r.
Proof.
  intros [Hwf Hv] Hb. destruct t as [| |k' r]; [done | done |]. destruct Hv as [<- Hv].
  exists r. rewrite isa_num. done.
Qed.

Lemma higher_equal_con k v t c :
  sound k v t -> higher_equal t (con_type k c) = true -> min_j k <= c <= max_j k -> v = c.
Proof.
  intros [Hwf Hv] Hhe%bool_decide_eq_true_1 Hc.
  destruct t as [| |k' r]; [done | by rewrite xmeet_bottom in Hhe |]. destruct Hv as [<- Hv].
  unfold con_type in Hhe. rewrite xmeet_num_range in Hhe by done.
  unfold xmeet_range, make, make_con in Hhe. cbn [_lo _hi _widen] in Hhe. rewrite MIN2_min, MAX2_max in Hhe.
  injection Hhe as Hlo Hhi _. lia.
Qed.

Lemma is_type_con k v c : sound k v (con_type k c) -> v = c.
Proof. intros [_ [_ H]]. cbn in H. lia. Qed.

Lemma max_widen_ok k k' r0 r1 : range_wf k r0 -> range_wf k' r1 -> WidenMin <= max_widen r0 r1 <= WidenMax.
Proof. intros (_ & _ & H0 & _) (_ & _ & H1 & _). unfold max_widen. rewrite MAX2_max. lia. Qed.

Lemma con_value r v : is_con r = true -> _lo r <= v <= _hi r -> v = get_con r.
Proof. unfold is_con, get_con. rewrite Z.eqb_eq. lia. Qed.

(** A type that was compared with [BOOL] and found equal. *)
Lemma bool_value r v : is_type (Num KInt r) BOOL = true -> _lo r <= v <= _hi r -> v = 0 \/ v = 1.
Proof. intros [= ->]%is_type_true. cbn. lia. Qed.
Lemma one_value r v : is_type (Num KInt r) (ONE KInt) = true -> _lo r <= v <= _hi r -> v = 1.
Proof. intros [= ->]%is_type_true. cbn. lia. Qed.

(** ** Signs of bit operations *)

Lemma land_sign a b : (Z.land a b <? 0) = (a <? 0) && (b <? 0).
Proof.
  apply eq_bool_prop_intro. rewrite andb_True, !Is_true_true, !Z.ltb_lt. apply Z.land_neg.
Qed.
Lemma lnot_lor_sign a b : (Z.lnot (Z.lor a b) <? 0) = (0 <=? a) && (0 <=? b).
Proof.
  apply eq_bool_prop_intro. rewrite andb_True, !Is_true_true, Z.ltb_lt, !Z.leb_le, <- Z.lor_nonneg.
  unfold Z.lnot. lia.
Qed.
Lemma lxor_sign a b : (0 <=? Z.lxor a b) = Bool.eqb (0 <=? a) (0 <=? b).
Proof.
  apply eq_bool_prop_intro. rewrite !Is_true_true, Z.leb_le, Z.lxor_nonneg, eqb_true_iff.
  destruct (Z.leb_spec 0 a), (Z.leb_spec 0 b); intuition (congruence || lia).
Qed.

(** ** The rings *)

Section Rings.
Context (k : kind) (r0 r1 : range) (a b : Z).
Hypotheses (H0 : range_wf k r0) (H1 : range_wf k r1)
  (Ha : _lo r0 <= a <= _hi r0) (Hb : _lo r1 <= b <= _hi r1).

Lemma add_ring_sound : sound k (conv k (a + b)) (AddNode_add_ring k r0 r1).
Proof.
  pose proof (max_widen_ok k k r0 r1 H0 H1) as Hw. unfold AddNode_add_ring.
  destruct H0 as (L0 & U0 & _), H1 as (L1 & U1 & _).
  destruct (is_con r0 && is_con r1) eqn:Hcon; cbn [negb].
  { apply andb_true_iff in Hcon as [C0 C1]. rewrite (con_value r0 a), (con_value r1 b) by done.
    unfold is_con in C0, C1. rewrite Z.eqb_eq in C0, C1. rewrite <- C0, <- C1.
    pose proof (conv_range k (_lo r0 + _lo r1)). apply sound_num; unfold get_con; lia. }
  clear Hcon. pose proof (conv_range k (a + b)).
  destruct (conv_mod k (_lo r0 + _lo r1)) as [ql Hl]. pose proof (conv_range k (_lo r0 + _lo r1)).
  destruct (conv_mod k (_hi r0 + _hi r1)) as [qh Hh]. pose proof (conv_range k (_hi r0 + _hi r1)).
  set (lo := conv k (_lo r0 + _lo r1)) in *. set (hi := conv k (_hi r0 + _hi r1)) in *.
  rewrite land_sign, lnot_lor_sign.
  assert (_lo r0 + _lo r1 < min_j k -> _lo r0 < 0 /\ _lo r1 < 0 /\ 0 <= lo) as Hunder by (width k; lia).
  assert (max_j k < _hi r0 + _hi r1 -> 0 <= _hi r0 /\ 0 <= _hi r1 /\ hi < 0) as Hover by (width k; lia).
  assert (sound k (conv k (a + b)) (Num k (make k (min_j k) (max_j k) (max_widen r0 r1)))) as Hall
    by (apply sound_num; lia).
  assert (min_j k <= _lo r0 + _lo r1 -> _hi r0 + _hi r1 <= max_j k ->
    sound k (conv k (a + b)) (Num k (make k lo hi (max_widen r0 r1)))) as Hexact.
  { intros HL HH. rewrite (conv_small k (a + b)) by lia. unfold lo, hi.
    rewrite !conv_small by lia. apply sound_num; lia. }
  assert (0 <= max_j k /\ min_j k <= 0) as [? ?] by (width k; lia).
  destruct (Z.ltb_spec (_lo r0) 0), (Z.ltb_spec (_lo r1) 0), (Z.leb_spec 0 lo); cbn [andb];
    destruct (Z.leb_spec 0 (_hi r0)), (Z.leb_spec 0 (_hi r1)), (Z.ltb_spec hi 0); cbn [andb];
    repeat case_match; simplify_eq; try done; apply Hexact; lia.
Qed.

Lemma sub_sound : sound k (conv k (a - b)) (SubNode_sub k r0 r1).
Proof.
  pose proof (max_widen_ok k k r0 r1 H0 H1) as Hw. unfold SubNode_sub. rewrite !lxor_sign.
  destruct H0 as (L0 & U0 & _), H1 as (L1 & U1 & _). pose proof (conv_range k (a - b)).
  destruct (conv_mod k (_lo r0 - _hi r1)) as [ql Hl]. pose proof (conv_range k (_lo r0 - _hi r1)).
  destruct (conv_mod k (_hi r0 - _lo r1)) as [qh Hh]. pose proof (conv_range k (_hi r0 - _lo r1)).
  set (lo := conv k (_lo r0 - _hi r1)) in *. set (hi := conv k (_hi r0 - _lo r1)) in *.
  destruct (_ && _) eqn:Htest; [| by apply sound_full].
  apply andb_true_iff in Htest as [Hlo Hhi]. rewrite orb_true_iff, !eqb_true_iff in Hlo, Hhi.
  assert (min_j k <= _lo r0 - _hi r1 <= max_j k) as HL.
  { destruct (Z.leb_spec 0 (_lo r0)), (Z.leb_spec 0 (_hi r1)), (Z.leb_spec 0 lo); width k; try lia; destruct Hlo; congruence. }
  assert (min_j k <= _hi r0 - _lo r1 <= max_j k) as HH.
  { destruct (Z.leb_spec 0 (_hi r0)), (Z.leb_spec 0 (_lo r1)), (Z.leb_spec 0 hi); width k; try lia; destruct Hhi; congruence. }
  rewrite (conv_small k (a - b)) by lia. unfold lo, hi. rewrite !conv_small by lia. apply sound_num; lia.
Qed.

End Rings.

(** Bit operations on numbers of a width stay in it. *)
Lemma sign_bits w z : 0 < w -> in_signed w z <-> (forall i, w - 1 <= i -> Z.testbit z i = (z <? 0)).
Proof.
  intros Hw. unfold in_signed. split.
  - intros Hz i Hi. destruct (Z.ltb_spec z 0).
    + rewrite <- (Z.lnot_involutive z), Z.lnot_spec by lia.
      rewrite (testbit_high (w - 1)); [done | unfold in_unsigned, Z.lnot; lia | lia].
    + apply (testbit_high (w - 1)); [unfold in_unsigned; lia | lia].
  - intros Hb. destruct (Z.ltb_spec z 0) as [Hz|Hz].
    + assert (in_unsigned (w - 1) (Z.lnot z)) as H.
      { apply unsigned_of_bits; [lia | unfold Z.lnot; lia |]. intros i Hi.
        rewrite Z.lnot_spec by lia. by rewrite Hb. }
      unfold in_unsigned, Z.lnot in H. lia.
    + pose proof (unsigned_of_bits (w - 1) z ltac:(lia) ltac:(lia) Hb) as H. unfold in_unsigned in H. lia.
Qed.

Lemma range_signed k z : min_j k <= z <= max_j k <-> in_signed (bits k) z.
Proof. unfold in_signed, min_j, max_j. lia. Qed.

Lemma bitop_range k (f : Z -> Z -> Z) (g : bool -> bool -> bool) x y :
  (forall x y i, 0 <= i -> Z.testbit (f x y) i = g (Z.testbit x i) (Z.testbit y i)) ->
  (f x y <? 0) = g (x <? 0) (y <? 0) ->
  min_j k <= x <= max_j k -> min_j k <= y <= max_j k -> min_j k <= f x y <= max_j k.
Proof.
  rewrite !range_signed. pose proof (bits_pos k) as Hk. intros Hf Hsign Hx Hy.
  apply sign_bits; [done|]. intros i Hi. rewrite Hf by lia.
  rewrite (proj1 (sign_bits _ _ Hk) Hx), (proj1 (sign_bits _ _ Hk) Hy) by done. done.
Qed.

Lemma lor_sign x y : (Z.lor x y <? 0) = (x <? 0) || (y <? 0).
Proof.
  apply eq_bool_prop_intro. rewrite orb_True, !Is_true_true, !Z.ltb_lt.
  pose proof (Z.lor_nonneg x y). lia.
Qed.
Lemma lxor_sign_xor x y : (Z.lxor x y <? 0) = xorb (x <? 0) (y <? 0).
Proof.
  pose proof (lxor_sign x y) as H. rewrite !Z.leb_antisym in H.
  destruct (Z.lxor x y <? 0), (x <? 0), (y <? 0); done.
Qed.

Lemma land_conv k x y : min_j k <= x <= max_j k -> min_j k <= y <= max_j k -> conv k (Z.land x y) = Z.land x y.
Proof. intros. apply conv_small, (bitop_range k Z.land andb); auto using land_sign, Z.land_spec. Qed.
Lemma lor_conv k x y : min_j k <= x <= max_j k -> min_j k <= y <= max_j k -> conv k (Z.lor x y) = Z.lor x y.
Proof. intros. apply conv_small, (bitop_range k Z.lor orb); auto using lor_sign, Z.lor_spec. Qed.
Lemma lxor_conv k x y : min_j k <= x <= max_j k -> min_j k <= y <= max_j k -> conv k (Z.lxor x y) = Z.lxor x y.
Proof. intros. apply conv_small, (bitop_range k Z.lxor xorb); auto using lxor_sign_xor, Z.lxor_spec. Qed.

Section BitRings.
Context (k : kind) (r0 r1 : range) (a b : Z).
Hypotheses (H0 : range_wf k r0) (H1 : range_wf k r1)
  (Ha : _lo r0 <= a <= _hi r0) (Hb : _lo r1 <= b <= _hi r1).

Lemma both_constants (f : Z -> Z -> Z) :
  sound k (conv k (f a b)) (if negb (is_con r0) || negb (is_con r1) then FULL k
    else con_type k (conv k (f (get_con r0) (get_con r1)))).
Proof.
  destruct (is_con r0) eqn:C0, (is_con r1) eqn:C1; simpl; try (apply sound_full, conv_range).
  rewrite <- (con_value r0 a), <- (con_value r1 b) by done. apply sound_con, conv_range.
Qed.
End BitRings.

Lemma con_range k r : range_wf k r -> min_j k <= get_con r <= max_j k.
Proof. by intros (H & _). Qed.

Lemma or_int_sound r0 r1 a b :
  range_wf KInt r0 -> range_wf KInt r1 -> _lo r0 <= a <= _hi r0 -> _lo r1 <= b <= _hi r1 ->
  sound KInt (conv KInt (Z.lor a b)) (OrINode_add_ring r0 r1).
Proof.
  intros H0 H1 Ha Hb. unfold OrINode_add_ring.
  pose proof (both_constants KInt r0 r1 a b Ha Hb Z.lor) as Hcon.
  rewrite (lor_conv KInt (get_con r0)) in Hcon by (by apply con_range).
  destruct (is_type (Num KInt r0) BOOL) eqn:B0.
  - destruct (is_type (Num KInt r1) (ONE KInt)) eqn:O1; [| destruct (is_type (Num KInt r1) BOOL) eqn:B1; [| exact Hcon]].
    + rewrite (one_value r1 b) by done. destruct (bool_value r0 a B0 Ha) as [-> | ->]; by apply sound_con.
    + destruct (bool_value r0 a B0 Ha) as [-> | ->], (bool_value r1 b B1 Hb) as [-> | ->]; by apply sound_num.
  - destruct (is_type (Num KInt r0) (ONE KInt)) eqn:O0; [| exact Hcon].
    destruct (is_type (Num KInt r1) BOOL) eqn:B1; [| exact Hcon].
    rewrite (one_value r0 a) by done. destruct (bool_value r1 b B1 Hb) as [-> | ->]; by apply sound_con.
Qed.

Lemma or_long_sound r0 r1 a b :
  range_wf KLong r0 -> range_wf KLong r1 -> _lo r0 <= a <= _hi r0 -> _lo r1 <= b <= _hi r1 ->
  sound KLong (conv KLong (Z.lor a b)) (OrLNode_add_ring r0 r1).
Proof.
  intros H0 H1 Ha Hb. pose proof (both_constants KLong r0 r1 a b Ha Hb Z.lor) as Hcon.
  by rewrite (lor_conv KLong (get_con r0)) in Hcon by (by apply con_range).
Qed.

Lemma xor_int_sound r0 r1 a b :
  range_wf KInt r0 -> range_wf KInt r1 -> _lo r0 <= a <= _hi r0 -> _lo r1 <= b <= _hi r1 ->
  sound KInt (conv KInt (Z.lxor a b)) (XorINode_add_ring r0 r1).
Proof.
  intros H0 H1 Ha Hb. unfold XorINode_add_ring.
  pose proof (both_constants KInt r0 r1 a b Ha Hb Z.lxor) as Hcon.
  rewrite (lxor_conv KInt (get_con r0)) in Hcon by (by apply con_range).
  destruct (is_type (Num KInt r0) BOOL) eqn:B0; simpl; [| exact Hcon].
  destruct (is_type (Num KInt r1) (ONE KInt)) eqn:O1; simpl;
    [| destruct (is_type (Num KInt r1) BOOL) eqn:B1; simpl; [| exact Hcon]].
  - rewrite (one_value r1 b) by done. destruct (bool_value r0 a B0 Ha) as [-> | ->]; by apply sound_num.
  - destruct (bool_value r0 a B0 Ha) as [-> | ->], (bool_value r1 b B1 Hb) as [-> | ->]; by apply sound_num.
Qed.

Lemma xor_long_sound r0 r1 a b :
  range_wf KLong r0 -> range_wf KLong r1 -> _lo r0 <= a <= _hi r0 -> _lo r1 <= b <= _hi r1 ->
  sound KLong (conv KLong (Z.lxor a b)) (XorLNode_add_ring r0 r1).
Proof.
  intros H0 H1 Ha Hb. pose proof (both_constants KLong r0 r1 a b Ha Hb Z.lxor) as Hcon.
  by rewrite (lxor_conv KLong (get_con r0)) in Hcon by (by apply con_range).
Qed.

Lemma max_min_sound r0 r1 a b :
  range_wf KInt r0 -> range_wf KInt r1 -> _lo r0 <= a <= _hi r0 -> _lo r1 <= b <= _hi r1 ->
  sound KInt (conv KInt (Z.max a b)) (MaxINode_add_ring r0 r1) /\
  sound KInt (conv KInt (Z.min a b)) (MinINode_add_ring r0 r1).
Proof.
  intros H0 H1 Ha Hb. pose proof (max_widen_ok KInt KInt r0 r1 H0 H1).
  destruct H0 as (L0 & U0 & _), H1 as (L1 & U1 & _). unfold MaxINode_add_ring, MinINode_add_ring.
  rewrite !MAX2_max, !MIN2_min, !conv_small by lia. split; apply sound_num; lia.
Qed.

Lemma land_pos a c : 0 <= c -> 0 <= Z.land a c <= c.
Proof.
  intros Hc. split; [apply Z.land_nonneg; by right|].
  apply Z.ldiff_le; [done|]. bitwise i. rewrite Z.ldiff_spec, Z.land_spec.
  destruct (Z.testbit a i), (Z.testbit c i); done.
Qed.

(** The common part of the masks. *)
Lemma and_con_sound k r0 r1 a b rest :
  range_wf k r0 -> range_wf k r1 -> _lo r0 <= a <= _hi r0 -> _lo r1 <= b <= _hi r1 ->
  sound k (conv k (Z.land a b)) rest ->
  sound k (conv k (Z.land a b))
    (if negb (is_con r0) && negb (is_con r1) then FULL k
     else if is_con r0 && is_con r1 then con_type k (Z.land (get_con r0) (get_con r1))
     else if is_con r0 && (0 <? get_con r0) then Num k (make k 0 (get_con r0) (max_widen r0 r1))
     else if is_con r1 && (0 <? get_con r1) then Num k (make k 0 (get_con r1) (max_widen r0 r1))
     else rest).
Proof.
  intros H0 H1 Ha Hb Hrest. pose proof (max_widen_ok k k r0 r1 H0 H1).
  pose proof (con_range k r0 H0). pose proof (con_range k r1 H1).
  assert (min_j k <= 0) by (width k; lia).
  pose proof H0 as (L0 & U0 & _). pose proof H1 as (L1 & U1 & _).
  destruct (is_con r0) eqn:C0, (is_con r1) eqn:C1; simpl.
  - rewrite <- (con_value r0 a), <- (con_value r1 b) by done. rewrite land_conv by lia.
    apply sound_con. apply (bitop_range k Z.land andb); auto using land_sign, Z.land_spec; lia.
  - destruct (Z.ltb_spec 0 (get_con r0)); [| exact Hrest].
    rewrite <- (con_value r0 a C0 Ha) in *. rewrite Z.land_comm, land_conv by lia.
    pose proof (land_pos b a ltac:(lia)). apply sound_num; lia.
  - destruct (Z.ltb_spec 0 (get_con r1)); [| exact Hrest].
    rewrite <- (con_value r1 b C1 Hb) in *. rewrite land_conv by lia.
    pose proof (land_pos a b ltac:(lia)). apply sound_num; lia.
  - apply sound_full, conv_range.
Qed.

Lemma and_int_sound r0 r1 a b :
  range_wf KInt r0 -> range_wf KInt r1 -> _lo r0 <= a <= _hi r0 -> _lo r1 <= b <= _hi r1 ->
  sound KInt (conv KInt (Z.land a b)) (AndINode_mul_ring r0 r1).
Proof.
  intros H0 H1 Ha Hb. apply and_con_sound; try done.
  pose proof H0 as (L0 & U0 & _). pose proof H1 as (L1 & U1 & _).
  destruct (is_type (Num KInt r0) BOOL) eqn:B0; simpl; [| destruct (is_type (Num KInt r1) BOOL) eqn:B1; simpl].
  - rewrite land_conv, Z.land_comm by lia. pose proof (land_pos b a).
    pose proof (bool_value r0 a B0 Ha). apply sound_num; unfold WidenMin, WidenMax, min_j, max_j; simpl bits; lia.
  - rewrite land_conv by lia. pose proof (land_pos a b).
    pose proof (bool_value r1 b B1 Hb). apply sound_num; unfold WidenMin, WidenMax, min_j, max_j; simpl bits; lia.
  - apply sound_full, conv_range.
Qed.

Lemma and_long_sound r0 r1 a b :
  range_wf KLong r0 -> range_wf KLong r1 -> _lo r0 <= a <= _hi r0 -> _lo r1 <= b <= _hi r1 ->
  sound KLong (conv KLong (Z.land a b)) (AndLNode_mul_ring r0 r1).
Proof. intros H0 H1 Ha Hb. apply and_con_sound; try done. apply sound_full, conv_range. Qed.

Lemma cmp_sound r0 r1 a b :
  _lo r0 <= a <= _hi r0 -> _lo r1 <= b <= _hi r1 ->
  exists t, CmpNode_sub r0 r1 = Some t /\ sound KInt (if a <? b then -1 else if a =? b then 0 else 1) t.
Proof.
  intros Ha Hb. unfold CmpNode_sub, is_con, get_con.
  assert (forall lo hi v, -1 <= lo -> lo <= v <= hi -> hi <= 1 ->
    sound KInt v (Num KInt (make KInt lo hi WidenMin))) as Hcc.
  { intros. apply sound_num; unfold WidenMin, WidenMax, min_j, max_j; simpl bits; lia. }
  repeat match goal with |- context [?x <? ?y] => destruct (Z.ltb_spec x y); try lia end;
  repeat match goal with |- context [?x =? ?y] => destruct (Z.eqb_spec x y); try lia end;
  simpl; try lia; eexists; (split; [done | apply Hcc; lia]).
Qed.

(** ** Products, checked in floating point *)

(** Rounding changes a number by at most one part in 2^53. *)
Lemma to_double_close z : 2 ^ 53 * Z.abs (to_double z - z) <= Z.abs z.
Proof.
  unfold to_double. destruct (Z.ltb_spec (Z.abs z) (2 ^ 53)); [rewrite Z.sub_diag; simpl; lia|].
  set (a := Z.abs z) in *. assert (0 < a) as Ha by lia.
  pose proof (Z.log2_spec a Ha) as [Hlog _].
  assert (53 <= Z.log2 a) as H53 by (rewrite <- (Z.log2_pow2 53) by lia; by apply Z.log2_le_mono).
  set (e := Z.log2 a - 52) in *. assert (2 ^ Z.log2 a = 2 ^ 53 * 2 ^ (e - 1)) as Hpow
    by (rewrite <- Z.pow_add_r by lia; f_equal; lia).
  assert (2 ^ e = 2 * 2 ^ (e - 1)) as He by (rewrite <- Z.pow_succ_r by lia; f_equal; lia).
  pose proof (Z.pow_pos_nonneg 2 (e - 1) ltac:(lia) ltac:(lia)) as Hpos.
  pose proof (Z.div_mod a (2 ^ e) ltac:(lia)) as Hdm. pose proof (Z.mod_pos_bound a (2 ^ e) ltac:(lia)) as Hmod.
  set (q := a / 2 ^ e) in *. set (rest := a mod 2 ^ e) in *. set (h := 2 ^ (e - 1)) in *.
  assert (forall q', Z.abs (q' * 2 ^ e - a) <= h -> 2 ^ 53 * Z.abs (Z.sgn z * (q' * 2 ^ e) - z) <= a) as Hcl.
  { intros q' Hq'. replace z with (Z.sgn z * a) at 2 by (unfold a; apply Z.sgn_abs || (rewrite Z.mul_comm; apply Z.abs_sgn)).
    rewrite <- Z.mul_sub_distr_l, Z.abs_mul. assert (Z.abs (Z.sgn z) = 1) as -> by lia. lia. }
  clearbody q rest h e.
  destruct (Z.ltb_spec h rest); simpl orb; cbv iota; [apply Hcl; lia|].
  destruct (Z.eqb_spec rest h); simpl andb; [destruct (Z.odd q) |]; cbv iota; apply Hcl; lia.
Qed.

(** What relative errors of one part in [M] do to a product, and to a chain of numbers
    each close to the next. *)
Lemma product_error M x y dx dy :
  1 <= M -> M * Z.abs (dx - x) <= Z.abs x -> M * Z.abs (dy - y) <= Z.abs y ->
  M * Z.abs (dx * dy - x * y) <= 3 * Z.abs (x * y).
Proof.
  intros HM Hx Hy.
  assert (Z.abs (dx * dy - x * y)
    <= Z.abs (dx - x) * Z.abs (dy - y) + Z.abs (dx - x) * Z.abs y + Z.abs x * Z.abs (dy - y)) as Htri.
  { rewrite <- !Z.abs_mul. replace (dx * dy - x * y) with ((dx - x) * (dy - y) + (dx - x) * y + x * (dy - y)) by ring.
    etransitivity; [apply Z.abs_triangle|]. apply Z.add_le_mono_r. apply Z.abs_triangle. }
  rewrite (Z.abs_mul x y). revert Hx Hy Htri.
  generalize (Z.abs_nonneg (dx - x)), (Z.abs_nonneg (dy - y)), (Z.abs_nonneg x), (Z.abs_nonneg y).
  generalize (Z.abs (dx - x)) as u, (Z.abs (dy - y)) as v, (Z.abs x) as X, (Z.abs y) as Y, (Z.abs (dx * dy - x * y)) as w.
  intros u v X Y w Hu Hv HX HY Hx Hy Htri.
  assert (M * u * Y <= X * Y) by (by apply Z.mul_le_mono_nonneg_r).
  assert (M * v * X <= Y * X) by (by apply Z.mul_le_mono_nonneg_r).
  assert (v <= Y) by nia. assert (M * u * v <= X * Y) by (apply Z.mul_le_mono_nonneg; lia). nia.
Qed.

Lemma product_distance M A P p dp :
  100 <= M -> M * Z.abs (dp - A) <= Z.abs A -> M * Z.abs (dp - p) <= Z.abs p ->
  M * Z.abs (p - P) <= 3 * Z.abs P -> M * Z.abs (A - P) <= 29 * Z.abs A.
Proof.
  intros HM C1 C2 C3.
  assert (Z.abs dp <= Z.abs A + Z.abs (dp - A)) as T1 by lia.
  assert (Z.abs p <= Z.abs dp + Z.abs (dp - p)) as T2 by lia.
  assert (Z.abs P <= Z.abs p + Z.abs (p - P)) as T3 by lia.
  assert (Z.abs (A - P) <= Z.abs (dp - A) + Z.abs (dp - p) + Z.abs (p - P)) as T4 by lia.
  revert C1 C2 C3 T1 T2 T3 T4.
  generalize (Z.abs_nonneg (dp - A)), (Z.abs_nonneg (dp - p)), (Z.abs_nonneg (p - P)), (Z.abs_nonneg A), (Z.abs_nonneg p),
    (Z.abs_nonneg P).
  generalize (Z.abs (A - P)), (Z.abs (dp - A)), (Z.abs (dp - p)), (Z.abs (p - P)), (Z.abs A), (Z.abs p), (Z.abs P), (Z.abs dp).
  intros ap da dpp pp a1 p1 P1 d1 N1 N2 N3 N4 N5 N6 C1 C2 C3 T1 T2 T3 T4.
  assert (2 * da <= a1) by nia. assert (2 * dpp <= p1) by nia. assert (8 * pp <= P1) by nia.
  assert (p1 <= 4 * a1) by lia. assert (P1 <= 8 * a1) by lia. nia.
Qed.

(** The check that a product did not overflow is right, although neither the factors nor
    the product need be exact. *)
Lemma double_check_exact k x y :
  to_double (conv k (x * y)) = to_double (to_double x * to_double y) -> conv k (x * y) = x * y.
Proof.
  intros Heq. destruct (conv_mod k (x * y)) as [q Hq]. pose proof (conv_range k (x * y)) as HA.
  pose proof (to_double_close (conv k (x * y))) as C1. rewrite Heq in C1.
  pose proof (to_double_close (to_double x * to_double y)) as C2.
  pose proof (product_error (2 ^ 53) x y _ _ ltac:(done) (to_double_close x) (to_double_close y)) as C5.
  pose proof (product_distance (2 ^ 53) _ _ _ _ ltac:(done) C1 C2 C5) as Hfar. clear C1 C2 C5 Heq.
  generalize dependent (conv k (x * y)). intros A Hq HA Hfar. generalize dependent (x * y). intros P Hq Hfar.
  assert (Z.abs (A - P) < 2 ^ bits k) as Hlt.
  { assert (Z.abs A <= 2 ^ (bits k - 1)) as HA' by (clear - HA; width k; lia).
    revert HA' Hfar. clear. generalize (Z.abs A) as a1, (Z.abs (A - P)) as d1. intros a1 d1.
    change (2 ^ 53) with 9007199254740992. width k; lia. }
  assert (0 < 2 ^ bits k) as HW by (clear; destruct k; done).
  clear HA Hfar. generalize dependent (2 ^ bits k). intros W Hq Hlt HW.
  replace (A - P) with (q * W) in Hlt by lia. rewrite Z.abs_mul, (Z.abs_eq W) in Hlt by lia.
  assert (Z.abs q < 1) by nia. assert (q = 0) by lia. subst. lia.
Qed.

Lemma product_corners a b c d x y :
  a <= x <= b -> c <= y <= d ->
  Z.min (Z.min (a * c) (a * d)) (Z.min (b * c) (b * d)) <= x * y
  <= Z.max (Z.max (a * c) (a * d)) (Z.max (b * c) (b * d)).
Proof.
  intros Hx Hy.
  assert (Z.min (a * y) (b * y) <= x * y <= Z.max (a * y) (b * y)) by (destruct (Z.le_ge_cases 0 y); nia).
  assert (Z.min (a * c) (a * d) <= a * y <= Z.max (a * c) (a * d)) by (destruct (Z.le_ge_cases 0 a); nia).
  assert (Z.min (b * c) (b * d) <= b * y <= Z.max (b * c) (b * d)) by (destruct (Z.le_ge_cases 0 b); nia).
  lia.
Qed.

Lemma mul_sound k r0 r1 a b :
  range_wf k r0 -> range_wf k r1 -> _lo r0 <= a <= _hi r0 -> _lo r1 <= b <= _hi r1 ->
  sound k (conv k (a * b)) (MulNode_mul_ring k r0 r1).
Proof.
  intros H0 H1 Ha Hb. pose proof (max_widen_ok k k r0 r1 H0 H1).
  destruct H0 as (L0 & U0 & _), H1 as (L1 & U1 & _). unfold MulNode_mul_ring.
  pose proof (sound_full k _ (conv_range k (a * b))) as Hfull.
  pose proof (product_corners _ _ _ _ a b Ha Hb) as Hcorners.
  repeat match goal with
  | |- context [to_double (conv k (?x * ?y)) =? to_double (to_double ?x * to_double ?y)] =>
      let Heq := fresh "Heq" in
      destruct (Z.eqb_spec (to_double (conv k (x * y))) (to_double (to_double x * to_double y))) as [Heq|]; simpl;
      [apply double_check_exact in Heq | exact Hfull]
  end.
  pose proof (conv_range k (_lo r0 * _lo r1)). pose proof (conv_range k (_lo r0 * _hi r1)).
  pose proof (conv_range k (_hi r0 * _lo r1)). pose proof (conv_range k (_hi r0 * _hi r1)).
  repeat match goal with H : conv k (_ * _) = _ |- _ => rewrite H in *; clear H end.
  rewrite (conv_small k (a * b)) by lia.
  destruct (Z.ltb_spec (_lo r0 * _lo r1) (_lo r0 * _hi r1)), (Z.ltb_spec (_hi r0 * _lo r1) (_hi r0 * _hi r1));
    repeat match goal with |- context [?x <? ?y] => destruct (Z.ltb_spec x y) end; apply sound_num; lia.
Qed.

End IdealRings.
