(* ===== verification/IdealValueTheorems.v ===== *)
(** The types computed for integer nodes are sound: they hold of every value the node can
    take, for every operator, and no assertion fails on the way. *)
From S2P Require Import Prelude GlobalDefinitions IdealType IdealTypeTheorems IdealNode IdealValue IdealRings.
Import GlobalDefinitions IdealType IdealTypeTheorems IdealNode IdealValue IdealRings.

Module IdealValueTheorems.

(** ** Shifts *)

Lemma shift_count_range k s : 0 <= shift_count k s < bits k.
Proof.
  unfold shift_count. destruct k; simpl bits.
  - change (32 - 1) with (Z.ones 5). rewrite Z.land_ones by done. apply Z.mod_pos_bound. done.
  - change (64 - 1) with (Z.ones 6). rewrite Z.land_ones by done. apply Z.mod_pos_bound. done.
Qed.

(** A number that survives shifting left and back did not lose bits. *)
Lemma shl_exact k z s :
  0 <= s < bits k -> Z.shiftr (conv k (Z.shiftl z s)) s = z -> conv k (Z.shiftl z s) = z * 2 ^ s.
Proof.
  intros Hs. rewrite Z.shiftl_mul_pow2 by lia. intros Hback. destruct (conv_mod k (z * 2 ^ s)) as [q Hq].
  rewrite Z.shiftr_div_pow2 in Hback by lia.
  replace (2 ^ bits k) with (2 ^ (bits k - s) * 2 ^ s) in Hq by (rewrite <- Z.pow_add_r by lia; f_equal; lia).
  replace (z * 2 ^ s + q * (2 ^ (bits k - s) * 2 ^ s)) with ((z + q * 2 ^ (bits k - s)) * 2 ^ s) in Hq by ring.
  rewrite Hq in Hback |- *. rewrite Z.div_mul in Hback by (pose proof (pow2_pos s); lia). by rewrite Hback.
Qed.

Lemma lshift_sound k r1 v s w :
  range_wf k r1 -> _lo r1 <= v <= _hi r1 -> 0 <= s < bits k -> WidenMin <= w <= WidenMax ->
  sound k (conv k (Z.shiftl v s))
    (if negb (is_con r1) then
       if (Z.shiftr (conv k (Z.shiftl (_lo r1) s)) s =? _lo r1) && (Z.shiftr (conv k (Z.shiftl (_hi r1) s)) s =? _hi r1)
       then Num k (make k (conv k (Z.shiftl (_lo r1) s)) (conv k (Z.shiftl (_hi r1) s)) w)
       else FULL k
     else con_type k (conv k (Z.shiftl (get_con r1) s))).
Proof.
  intros H1 Hv Hs Hw. pose proof (conv_range k (Z.shiftl v s)).
  destruct (is_con r1) eqn:Hcon; cbn [negb].
  { rewrite <- (con_value r1 v) by done. by apply sound_con. }
  destruct (_ && _) eqn:Hback; [| by apply sound_full].
  apply andb_true_iff in Hback as [El%Z.eqb_eq Eh%Z.eqb_eq]. apply shl_exact in El, Eh; try done.
  pose proof (conv_range k (Z.shiftl (_lo r1) s)). pose proof (conv_range k (Z.shiftl (_hi r1) s)).
  pose proof (pow2_pos s ltac:(lia)). rewrite El, Eh in *.
  assert (_lo r1 * 2 ^ s <= v * 2 ^ s <= _hi r1 * 2 ^ s) by nia.
  rewrite (conv_small k (Z.shiftl v s)); rewrite Z.shiftl_mul_pow2 by lia; [apply sound_num; lia | lia].
Qed.

Lemma shiftr_mono a b s : 0 <= s -> a <= b -> Z.shiftr a s <= Z.shiftr b s.
Proof. intros. rewrite !Z.shiftr_div_pow2 by done. apply Z.div_le_mono; [by apply pow2_pos | done]. Qed.

Lemma shiftr_range k z s : 0 <= s -> min_j k <= z <= max_j k -> min_j k <= Z.shiftr z s <= max_j k.
Proof.
  intros Hs Hz. pose proof (pow2_pos s Hs). rewrite Z.shiftr_div_pow2 by done.
  assert (min_j k <= 0 <= max_j k) by (clear; width k; lia).
  split; [apply Z.div_le_lower_bound; nia | apply Z.div_le_upper_bound; nia].
Qed.

(** Shifting out all bits but the sign. *)
Lemma shiftr_sign k z : min_j k <= z <= max_j k -> Z.shiftr z (bits k - 1) = if z <? 0 then -1 else 0.
Proof.
  intros Hz. pose proof (bits_pos k). rewrite Z.shiftr_div_pow2 by lia. destruct (Z.ltb_spec z 0).
  - symmetry. apply (Z.div_unique _ _ _ (z + 2 ^ (bits k - 1))); unfold min_j, max_j in Hz; lia.
  - apply Z.div_small. unfold min_j, max_j in Hz. lia.
Qed.

Lemma make_same k z w : min_j k <= z <= max_j k -> Num k (make k z z w) = con_type k z.
Proof.
  intros Hz. unfold con_type, make, make_con. f_equal. f_equal. rewrite normalize_spec by done.
  rewrite Z.leb_refl, Z.sub_diag. assert (0 <> max_ju k) by (clear; width k; lia).
  rewrite (proj2 (Z.eqb_neq _ _)) by done. done.
Qed.

Lemma rshift_sound k r1 v s w :
  range_wf k r1 -> _lo r1 <= v <= _hi r1 -> 0 <= s < bits k -> WidenMin <= w <= WidenMax ->
  let t := Num k (make k (Z.shiftr (_lo r1) s) (Z.shiftr (_hi r1) s) w) in
  sound k (conv k (Z.shiftr v s)) t /\
  shift_asserts k r1 s (Z.shiftr (_lo r1) s) (Z.shiftr (_hi r1) s) t (MINUS_1 k) = true.
Proof.
  intros (L1 & U1 & _) Hv Hs Hw t.
  pose proof (shiftr_mono (_lo r1) v s ltac:(lia) ltac:(lia)). pose proof (shiftr_mono v (_hi r1) s ltac:(lia) ltac:(lia)).
  pose proof (shiftr_range k (_lo r1) s ltac:(lia) L1). pose proof (shiftr_range k (_hi r1) s ltac:(lia) U1).
  split; [rewrite conv_small by lia; apply sound_num; lia|].
  unfold shift_asserts. rewrite (proj2 (Z.leb_le _ _)) by lia. cbn [andb].
  destruct (Z.eqb_spec s (bits k - 1)) as [->|]; [cbn [negb orb] | done].
  unfold t, is_type. rewrite !shiftr_sign by done.
  destruct (Z.leb_spec 0 (_lo r1)), (Z.ltb_spec (_hi r1) 0); cbn [negb orb andb]; try lia; try done.
  - rewrite (proj2 (Z.ltb_ge (_lo r1) 0)) by lia.
    rewrite make_same by (clear; width k; lia). by rewrite bool_decide_eq_true_2.
  - rewrite (proj2 (Z.ltb_lt (_lo r1) 0)) by lia.
    rewrite make_same by (clear; width k; lia). by rewrite bool_decide_eq_true_2.
Qed.

(** The unsigned shift by at least one bit. *)
Definition ushr (k : kind) (z s : Z) : Z := conv k (Z.shiftr (wrap (bits k) z) s).

Lemma ushr_spec k z s :
  0 < s < bits k -> min_j k <= z <= max_j k ->
  ushr k z s = (if z <? 0 then z + 2 ^ bits k else z) / 2 ^ s /\ 0 <= ushr k z s <= max_j k.
Proof.
  intros Hs Hz. pose proof (pow2_pos s ltac:(lia)) as Hp.
  assert (wrap (bits k) z = if z <? 0 then z + 2 ^ bits k else z) as Hwrap.
  { unfold wrap. destruct (Z.ltb_spec z 0).
    - symmetry. apply (Z.mod_unique _ _ (-1)); clear Hs Hp; width k; lia.
    - apply Z.mod_small. clear Hs Hp. width k; lia. }
  assert (2 ^ bits k = 2 ^ (bits k - s) * 2 ^ s) as Hsplit by (rewrite <- Z.pow_add_r by lia; f_equal; lia).
  assert (2 ^ (bits k - s) <= 2 ^ (bits k - 1)) as Hle by (apply Z.pow_le_mono_r; lia).
  assert (0 <= (if z <? 0 then z + 2 ^ bits k else z) < 2 ^ bits k) as Hu
    by (rewrite <- Hwrap; apply wrap_range; pose proof (bits_pos k); lia).
  assert (0 <= (if z <? 0 then z + 2 ^ bits k else z) / 2 ^ s <= max_j k) as Hq.
  { split; [apply Z.div_pos; lia|]. unfold max_j.
    assert ((if z <? 0 then z + 2 ^ bits k else z) / 2 ^ s < 2 ^ (bits k - s)) by (apply Z.div_lt_upper_bound; lia). lia. }
  unfold ushr. rewrite Z.shiftr_div_pow2, Hwrap, conv_small by (lia || (assert (min_j k <= 0) by (clear; width k; lia); lia)).
  done.
Qed.

Lemma ushr_mono k a b s :
  0 < s < bits k -> min_j k <= a -> a <= b -> b <= max_j k -> (0 <= a \/ b < 0) -> ushr k a s <= ushr k b s.
Proof.
  intros Hs Ha Hab Hb Hsign. rewrite (proj1 (ushr_spec k a s Hs ltac:(lia))), (proj1 (ushr_spec k b s Hs ltac:(lia))).
  apply Z.div_le_mono; [apply pow2_pos; lia|]. destruct (Z.ltb_spec a 0), (Z.ltb_spec b 0); lia.
Qed.

Lemma ushr_sign k z : min_j k <= z <= max_j k -> ushr k z (bits k - 1) = if z <? 0 then 1 else 0.
Proof.
  intros Hz. rewrite (proj1 (ushr_spec k z (bits k - 1) ltac:(destruct k; simpl; lia) Hz)).
  destruct (Z.ltb_spec z 0).
  - symmetry. apply (Z.div_unique _ _ _ (z + 2 ^ bits k - 2 ^ (bits k - 1))); width k; lia.
  - apply Z.div_small. width k; lia.
Qed.

Lemma urshift_sound k r1 v s w :
  range_wf k r1 -> _lo r1 <= v <= _hi r1 -> 0 < s < bits k -> WidenMin <= w <= WidenMax ->
  let '(lo, hi) :=
    if (0 <=? _hi r1) && (_lo r1 <? 0)
    then (MIN2 (ushr k (_lo r1) s) (ushr k 0 s), MAX2 (ushr k (-1) s) (ushr k (_hi r1) s))
    else (ushr k (_lo r1) s, ushr k (_hi r1) s) in
  sound k (ushr k v s) (Num k (make k lo hi w)) /\
  shift_asserts k r1 s lo hi (Num k (make k lo hi w)) (ONE k) = true.
Proof.
  intros (L1 & U1 & _) Hv Hs Hw.
  pose proof (proj2 (ushr_spec k (_lo r1) s Hs L1)). pose proof (proj2 (ushr_spec k (_hi r1) s Hs U1)).
  assert (min_j k <= 0 /\ min_j k <= -1 /\ 0 <= max_j k /\ 1 <= max_j k) as (? & ? & ? & ?) by (clear; width k; lia).
  pose proof (proj2 (ushr_spec k 0 s Hs ltac:(lia))). pose proof (proj2 (ushr_spec k (-1) s Hs ltac:(lia))).
  pose proof (proj2 (ushr_spec k v s Hs ltac:(lia))).
  destruct (Z.leb_spec 0 (_hi r1)), (Z.ltb_spec (_lo r1) 0); cbn [andb].
  - rewrite MIN2_min, MAX2_max.
    assert (Z.min (ushr k (_lo r1) s) (ushr k 0 s) <= ushr k v s <= Z.max (ushr k (-1) s) (ushr k (_hi r1) s)).
    { destruct (Z.lt_ge_cases v 0).
      - pose proof (ushr_mono k (_lo r1) v s). pose proof (ushr_mono k v (-1) s). lia.
      - pose proof (ushr_mono k 0 v s). pose proof (ushr_mono k v (_hi r1) s). lia. }
    split; [apply sound_num; lia|]. unfold shift_asserts.
    rewrite (proj2 (Z.leb_le (Z.min _ _) _)) by lia.
    rewrite (proj2 (Z.leb_gt 0 (_lo r1))), (proj2 (Z.ltb_ge (_hi r1) 0)) by lia. cbn [negb orb andb]. apply orb_true_r.
  - assert (ushr k (_lo r1) s <= ushr k v s <= ushr k (_hi r1) s) by (split; apply ushr_mono; lia).
    split; [apply sound_num; lia|]. unfold shift_asserts. rewrite (proj2 (Z.leb_le _ _)) by lia. cbn [andb].
    destruct (Z.eqb_spec s (bits k - 1)) as [->|]; [cbn [negb orb] | done].
    rewrite !ushr_sign by done. rewrite (proj2 (Z.ltb_ge (_lo r1) 0)), (proj2 (Z.ltb_ge (_hi r1) 0)) by lia.
    rewrite make_same by lia. unfold is_type. rewrite bool_decide_eq_true_2 by done. by rewrite orb_true_r.
  - assert (ushr k (_lo r1) s <= ushr k v s <= ushr k (_hi r1) s) by (split; apply ushr_mono; lia).
    split; [apply sound_num; lia|]. unfold shift_asserts. rewrite (proj2 (Z.leb_le _ _)) by lia. cbn [andb].
    destruct (Z.eqb_spec s (bits k - 1)) as [->|]; [cbn [negb orb] | done].
    rewrite !ushr_sign by done. rewrite (proj2 (Z.ltb_lt (_lo r1) 0)), (proj2 (Z.ltb_lt (_hi r1) 0)) by lia.
    rewrite make_same by lia. rewrite (proj2 (Z.leb_gt 0 (_lo r1))) by lia. cbn [negb orb andb].
    unfold is_type. by rewrite bool_decide_eq_true_2.
  - lia.
Qed.

(** ** Quotients *)

Lemma quot_mono a b d : 0 < d -> a <= b -> Z.quot a d <= Z.quot b d.
Proof. intros. by apply Z.quot_le_mono. Qed.

Lemma quot_abs a d : d <> 0 -> Z.abs (Z.quot a d) * Z.abs d <= Z.abs a.
Proof.
  intros Hd. rewrite <- Z.quot_abs, Z.mul_comm by done. apply Z.mul_quot_le; lia.
Qed.

Lemma quot_sign a d : 0 < d -> (0 <= a -> 0 <= Z.quot a d) /\ (a <= 0 -> Z.quot a d <= 0).
Proof.
  intros Hd. split; intros Ha; [apply Z.quot_pos; lia|].
  pose proof (Z.quot_pos (- a) d ltac:(lia) Hd) as H. rewrite Z.quot_opp_l in H by lia. lia.
Qed.

(** A quotient is within the width, except for the smallest number by -1. *)
Lemma quot_range k v d :
  min_j k <= v <= max_j k -> d <> 0 -> (v <> min_j k \/ d <> -1) -> min_j k <= Z.quot v d <= max_j k.
Proof.
  intros Hv Hd Hne. pose proof (quot_abs v d Hd) as Habs.
  assert (max_j k = - min_j k - 1 /\ 0 <= max_j k) as [Hmm Hm] by (clear; width k; lia).
  destruct (Z.lt_trichotomy d 0) as [Hneg|[?|Hpos]]; [| done |].
  - destruct (Z.eq_dec d (-1)) as [->|].
    + assert (v <> min_j k) by (destruct Hne; done || congruence).
      replace (-1) with (- (1)) by done. rewrite Z.quot_opp_r, Z.quot_1_r by done. lia.
    + assert (2 <= Z.abs d) by lia. assert (2 * Z.abs (Z.quot v d) <= Z.abs v) by nia. lia.
  - pose proof (quot_sign v d Hpos) as [Hp Hn]. assert (1 <= Z.abs d) by lia.
    assert (Z.abs (Z.quot v d) <= Z.abs v) by nia. destruct (Z.le_ge_cases 0 v); lia.
Qed.

Lemma div_con_sound k i1 v d w :
  range_wf k i1 -> _lo i1 <= v <= _hi i1 -> d <> 0 -> WidenMin <= w <= WidenMax ->
  let '(lo, hi) :=
    if 0 <=? d then (Z.quot (_lo i1) d, Z.quot (_hi i1) d)
    else if (d =? -1) && (_lo i1 =? min_j k)
    then (min_j k, if _hi i1 =? min_j k then min_j k else max_j k)
    else (Z.quot (_hi i1) d, Z.quot (_lo i1) d) in
  sound k (conv k (Z.quot v d)) (Num k (make k lo hi w)).
Proof.
  intros (L1 & U1 & _) Hv Hd Hw. destruct (Z.leb_spec 0 d) as [Hpos|Hneg].
  - pose proof (quot_range k v d). pose proof (quot_range k (_lo i1) d). pose proof (quot_range k (_hi i1) d).
    pose proof (quot_mono (_lo i1) v d). pose proof (quot_mono v (_hi i1) d).
    rewrite conv_small by lia. apply sound_num; lia.
  - destruct (Z.eqb_spec d (-1)) as [->|Hd1], (Z.eqb_spec (_lo i1) (min_j k)) as [El|El]; cbn [andb].
    + destruct (Z.eqb_spec (_hi i1) (min_j k)) as [Eh|Eh].
      * assert (v = min_j k) as -> by lia. rewrite (conv_unique k _ (min_j k) (-1));
          [apply sound_num; lia | lia | clear; destruct k; reflexivity].
      * pose proof (conv_range k (Z.quot v (-1))). apply sound_num; lia.
    + replace (-1) with (- (1)) by done. rewrite !Z.quot_opp_r, !Z.quot_1_r by done.
      assert (max_j k = - min_j k - 1) by (clear; width k; lia). rewrite conv_small by lia. apply sound_num; lia.
    + pose proof (quot_range k v d). pose proof (quot_range k (_lo i1) d). pose proof (quot_range k (_hi i1) d).
      pose proof (quot_mono (_lo i1) v (- d)) as M1. pose proof (quot_mono v (_hi i1) (- d)) as M2.
      rewrite !Z.quot_opp_r in M1, M2 by lia. rewrite conv_small by lia. apply sound_num; lia.
    + pose proof (quot_range k v d). pose proof (quot_range k (_lo i1) d). pose proof (quot_range k (_hi i1) d).
      pose proof (quot_mono (_lo i1) v (- d)) as M1. pose proof (quot_mono v (_hi i1) (- d)) as M2.
      rewrite !Z.quot_opp_r in M1, M2 by lia. rewrite conv_small by lia. apply sound_num; lia.
Qed.

Lemma con_div_sound k c v w :
  min_j k <= c <= max_j k -> min_j k <= v <= max_j k -> v <> 0 -> WidenMin <= w <= WidenMax ->
  sound k (conv k (Z.quot c v))
    (if c <? 0 then
       if c =? min_j k then Num k (make k (min_j k) (Z.quot (max_j k) 2 + 1) w) else Num k (make k c (- c) w)
     else Num k (make k (- c) c w)).
Proof.
  intros Hc Hv Hne Hw. pose proof (quot_abs c v Hne) as Habs.
  assert (max_j k = - min_j k - 1 /\ 0 <= max_j k) as [Hmm Hm] by (clear; width k; lia).
  assert (1 <= Z.abs v) as H1 by lia. assert (Z.abs (Z.quot c v) <= Z.abs c) as Hle by nia.
  destruct (Z.ltb_spec c 0); [destruct (Z.eqb_spec c (min_j k)) as [->|]|].
  - assert (Z.quot (max_j k) 2 + 1 = - min_j k / 2 /\ 2 * (- min_j k / 2) = - min_j k) as [-> Hhalf] by (destruct k; done).
    destruct (Z.eq_dec v (-1)) as [->|]; [| destruct (Z.eq_dec v 1) as [->|]].
    + rewrite (conv_unique k _ (min_j k) (-1)); [apply sound_num; lia | lia | clear; destruct k; reflexivity].
    + rewrite Z.quot_1_r, conv_small by lia. apply sound_num; lia.
    + assert (2 <= Z.abs v) by lia. assert (2 * Z.abs (Z.quot (min_j k) v) <= Z.abs (min_j k)) by nia.
      rewrite conv_small by lia. apply sound_num; lia.
  - rewrite conv_small by lia. apply sound_num; lia.
  - rewrite conv_small by lia. apply sound_num; lia.
Qed.

(** ** Remainders *)

Lemma rem_range k a b :
  min_j k <= a <= max_j k -> b <> 0 -> min_j k <= Z.rem a b <= max_j k /\ (0 <= a -> 0 <= Z.rem a b).
Proof.
  intros Ha Hb. pose proof (Z.rem_bound_abs a b Hb). assert (min_j k <= 0 <= max_j k) by (clear; width k; lia).
  destruct (Z.le_ge_cases 0 a) as [Hp|Hn].
  - pose proof (Z.rem_nonneg a b Hb Hp). assert (Z.rem a b <= a).
    { rewrite <- (Z.rem_abs_r a b) by done. apply Z.rem_le; lia. } lia.
  - pose proof (Z.rem_nonpos a b Hb Hn). assert (a <= Z.rem a b).
    { pose proof (Z.rem_le (- a) (Z.abs b) ltac:(lia) ltac:(lia)) as H'.
      rewrite Z.rem_abs_r, Z.rem_opp_l in H' by done. lia. } lia.
Qed.

(** ** The nodes *)

Lemma sound_not_top k v t : sound k v t -> is_type t TOP = false.
Proof. intros [_ H]. unfold is_type. apply bool_decide_eq_false_2. by intros ->. Qed.

Lemma sound_range k v t : sound k v t -> is_type t BOTTOM = false -> min_j k <= v <= max_j k.
Proof. intros Hs Hb. destruct (sound_isa k v t Hs Hb) as (r & _ & _ & (? & ? & _) & ?). lia. Qed.

Lemma zero_range k : min_j k <= 0 <= max_j k /\ min_j k <= 1 <= max_j k /\ min_j k <= -1 <= max_j k.
Proof. width k; lia. Qed.

Ltac guard_top S := rewrite (sound_not_top _ _ _ S); cbv iota.

(** Get the range of a type that is not bottom. *)
Ltac take_range S B r Hr Hv :=
  let E := fresh "E" in let I := fresh "I" in
  destruct (sound_isa _ _ _ S B) as (r & E & I & Hr & Hv); rewrite ?I; cbn [mbind option_bind].

Lemma add_value_sound ph op k in1 in2 v1 v2 :
  op = Add \/ op = Or \/ op = Xor \/ op = Max \/ op = Min -> node_class op k ->
  sound k v1 (type ph in1) -> sound k v2 (type ph in2) ->
  min_j k <= v1 <= max_j k -> min_j k <= v2 <= max_j k ->
  exists t, AddNode_Value ph op k in1 in2 = Some t /\ sound k (eval_bin op k v1 v2) t.
Proof.
  intros Hop Hclass S1 S2 R1 R2. unfold AddNode_Value. guard_top S1. guard_top S2.
  assert (min_j k <= eval_bin op k v1 v2 <= max_j k) as Rbin.
  { destruct Hop as [-> |[-> |[-> |[-> | ->]]]]; apply conv_range. }
  destruct (is_type (type ph in1) (FULL k) || is_type (type ph in2) (FULL k)); cbn [orb];
    [eexists; split; [done | by apply sound_full]|].
  destruct (is_type (type ph in1) BOTTOM) eqn:B1; cbn [orb]; [eexists; split; [done | by apply sound_full]|].
  destruct (is_type (type ph in2) BOTTOM) eqn:B2; cbn [orb]; [eexists; split; [done | by apply sound_full]|].
  pose proof (zero_range k) as (Z0 & _).
  assert (exists c, add_id op k = con_type k c /\ min_j k <= c <= max_j k /\
    eval_bin op k c v2 = v2 /\ eval_bin op k v1 c = v1) as (c & Hid & Hc & Hl & Hr).
  { destruct Hop as [-> |[-> |[-> |[-> | ->]]]]; cbn [eval_bin add_id].
    1-3: exists 0; rewrite ?Z.add_0_l, ?Z.add_0_r, ?Z.lor_0_l, ?Z.lor_0_r, ?Z.lxor_0_l, ?Z.lxor_0_r, !conv_small by done; done.
    - exists (min_j k). rewrite Z.max_r, Z.max_l, !conv_small by lia. repeat split; lia.
    - exists (max_j k). rewrite Z.min_r, Z.min_l, !conv_small by lia. repeat split; lia. }
  unfold add_of_identity. rewrite Hid.
  destruct (higher_equal (type ph in1) (con_type k c)) eqn:HE1.
  { apply (higher_equal_con k v1) in HE1; [| done | done]. subst v1. eexists. split; [done | by rewrite Hl]. }
  destruct (higher_equal (type ph in2) (con_type k c)) eqn:HE2.
  { apply (higher_equal_con k v2) in HE2; [| done | done]. subst v2. eexists. split; [done | by rewrite Hr]. }
  unfold add_ring. take_range S1 B1 r1 W1 V1. take_range S2 B2 r2 W2 V2.
  destruct Hop as [-> |[-> |[-> |[-> | ->]]]]; simpl in Hclass; try subst k; [| destruct k | destruct k | |];
    (eexists; split; [reflexivity|]); cbn [eval_bin].
  - by apply add_ring_sound.
  - by apply or_int_sound.
  - by apply or_long_sound.
  - by apply xor_int_sound.
  - by apply xor_long_sound.
  - by apply max_min_sound.
  - by apply max_min_sound.
Qed.

(** The result is the whole range of the class. *)
Ltac give_up_full := eexists; split; [reflexivity | apply sound_full; apply conv_range].

Lemma sub_value_sound ph op k in1 in2 v1 v2 :
  op = Sub \/ op = Cmp -> sound k v1 (type ph in1) -> sound k v2 (type ph in2) ->
  (eqv_uncast ph in1 in2 = true -> v1 = v2) ->
  exists t, SubNode_Value ph op k in1 in2 = Some t /\
    sound (if decide (op = Cmp) then KInt else k) (eval_bin op k v1 v2) t.
Proof.
  intros Hop S1 S2 Heqv. unfold SubNode_Value, Value_common. guard_top S1. guard_top S2.
  destruct (eqv_uncast ph in1 in2).
  { rewrite Heqv by done. eexists. split; [done|]. destruct Hop as [-> | ->]; cbn [eval_bin sub_add_id].
    - rewrite Z.sub_diag, conv_small by apply zero_range. apply sound_con, zero_range.
    - rewrite Z.ltb_irrefl, Z.eqb_refl. apply sound_con. done. }
  assert (sound (if decide (op = Cmp) then KInt else k) (eval_bin op k v1 v2) (sub_bottom_type op k)) as Hbot.
  { destruct Hop as [-> | ->]; cbn [eval_bin sub_bottom_type].
    - apply sound_full, conv_range.
    - apply sound_num; repeat case_match; done. }
  destruct (is_type (type ph in1) BOTTOM) eqn:B1; cbn [orb]; [by eexists|].
  destruct (is_type (type ph in2) BOTTOM) eqn:B2; cbn [orb]; [by eexists|].
  unfold sub. take_range S1 B1 r1 W1 V1. take_range S2 B2 r2 W2 V2.
  destruct Hop as [-> | ->]; cbn [eval_bin].
  - eexists. split; [done | by apply sub_sound].
  - by apply cmp_sound.
Qed.

Lemma mul_value_sound ph op k in1 in2 v1 v2 :
  op = Mul \/ op = And -> sound k v1 (type ph in1) -> sound k v2 (type ph in2) ->
  exists t, MulNode_Value ph op k in1 in2 = Some t /\ sound k (eval_bin op k v1 v2) t.
Proof.
  intros Hop S1 S2. unfold MulNode_Value. guard_top S1. guard_top S2.
  pose proof (zero_range k) as (Z0 & _).
  destruct (higher_equal (type ph in1) (ZERO k)) eqn:HE1.
  { apply (higher_equal_con k v1) in HE1; [| done | done]. subst v1. eexists. split; [done|].
    destruct Hop as [-> | ->]; cbn [eval_bin]; rewrite ?Z.mul_0_l, ?Z.land_0_l, conv_small by done; by apply sound_con. }
  destruct (higher_equal (type ph in2) (ZERO k)) eqn:HE2.
  { apply (higher_equal_con k v2) in HE2; [| done | done]. subst v2. eexists. split; [done|].
    destruct Hop as [-> | ->]; cbn [eval_bin]; rewrite ?Z.mul_0_r, ?Z.land_0_r, conv_small by done; by apply sound_con. }
  destruct (is_type (type ph in1) BOTTOM) eqn:B1; cbn [orb]; [destruct Hop as [-> | ->]; give_up_full|].
  destruct (is_type (type ph in2) BOTTOM) eqn:B2; cbn [orb]; [destruct Hop as [-> | ->]; give_up_full|].
  unfold mul_ring. take_range S1 B1 r1 W1 V1. take_range S2 B2 r2 W2 V2.
  destruct Hop as [-> | ->]; [| destruct k]; (eexists; split; [reflexivity|]); cbn [eval_bin].
  - by apply mul_sound.
  - by apply and_int_sound.
  - by apply and_long_sound.
Qed.

Lemma mulhi_value_sound ph in1 in2 v1 v2 :
  sound KLong v1 (type ph in1) -> sound KLong v2 (type ph in2) ->
  exists t, MulHiLNode_Value ph in1 in2 = Some t /\ sound KLong (eval_bin MulHi KLong v1 v2) t.
Proof.
  intros S1 S2. unfold MulHiLNode_Value. guard_top S1. guard_top S2.
  destruct (_ || _ || _ || _); give_up_full.
Qed.

Lemma shift_zero k op v s :
  is_shift op = true -> min_j k <= v <= max_j k -> shift_count k s = 0 -> eval_bin op k v s = v.
Proof.
  intros Hop Hv Hs. destruct op; try done; cbn [eval_bin]; rewrite Hs, ?Z.shiftl_0_r, ?Z.shiftr_0_r.
  - by apply conv_small.
  - by apply conv_small.
  - unfold conv. rewrite swrap_wrap by apply bits_pos. by apply conv_small.
Qed.

Lemma shift_of_zero k op s : is_shift op = true -> eval_bin op k 0 s = 0.
Proof.
  intros Hop. pose proof (shift_count_range k s). pose proof (zero_range k) as (Z0 & _).
  destruct op; try done; cbn [eval_bin]; unfold wrap; rewrite ?Zmod_0_l, ?Z.shiftl_0_l, ?Z.shiftr_0_l; by apply conv_small.
Qed.

Lemma shift_count_zero k : shift_count k 0 = 0.
Proof. apply Z.land_0_l. Qed.

Lemma lshift_value_sound ph k in1 in2 v1 v2 :
  sound k v1 (type ph in1) -> sound KInt v2 (type ph in2) -> min_j k <= v1 <= max_j k ->
  exists t, LShiftNode_Value ph k in1 in2 = Some t /\ sound k (eval_bin LShift k v1 v2) t.
Proof.
  intros S1 S2 R1. unfold LShiftNode_Value. guard_top S1. guard_top S2.
  destruct (is_type (type ph in1) (ZERO k)) eqn:E1.
  { apply is_type_true in E1. rewrite E1 in S1. apply is_type_con in S1. subst v1.
    rewrite shift_of_zero by done. eexists. split; [done | apply sound_con, zero_range]. }
  destruct (is_type (type ph in2) (ZERO KInt)) eqn:E2.
  { apply is_type_true in E2. rewrite E2 in S2. apply is_type_con in S2. subst v2.
    rewrite shift_zero by (done || apply shift_count_zero). by eexists. }
  destruct (is_type (type ph in1) (FULL k) || is_type (type ph in2) (FULL KInt)); cbn [orb]; [give_up_full|].
  destruct (is_type (type ph in1) BOTTOM) eqn:B1; cbn [orb]; [give_up_full|].
  destruct (is_type (type ph in2) BOTTOM) eqn:B2; cbn [orb]; [give_up_full|].
  take_range S1 B1 r1 W1 V1. take_range S2 B2 r2 W2 V2.
  destruct (is_con r2) eqn:C2; cbn [negb]; [| give_up_full]. rewrite <- (con_value r2 v2) by done.
  destruct (Z.eqb_spec (shift_count k v2) 0) as [Hz|Hz]; [rewrite shift_zero by done; by eexists|].
  pose proof (lshift_sound k r1 v1 (shift_count k v2) (max_widen r1 r2) W1 V1 (shift_count_range k v2)
    (max_widen_ok _ _ r1 r2 W1 W2)) as Hsound.
  cbn [eval_bin]. destruct (is_con r1); cbn [negb] in *; [by eexists|]. destruct (_ && _); by eexists.
Qed.

(** What the guards of the right shifts decide is sound; otherwise there are ranges. *)
Lemma shift_guards_sound ph k op in1 in2 v1 v2 :
  op = RShift \/ op = URShift ->
  sound k v1 (type ph in1) -> sound KInt v2 (type ph in2) -> min_j k <= v1 <= max_j k ->
  (exists t, shift_guards k (type ph in1) (type ph in2) = Some t /\ sound k (eval_bin op k v1 v2) t) \/
  (shift_guards k (type ph in1) (type ph in2) = None /\
   is_type (type ph in1) BOTTOM = false /\ is_type (type ph in2) BOTTOM = false).
Proof.
  intros Hop S1 S2 R1. unfold shift_guards. guard_top S1. guard_top S2.
  assert (is_shift op = true) as Hshift by (by destruct Hop as [-> | ->]).
  assert (sound k (eval_bin op k v1 v2) (FULL k)) as Hfull
    by (destruct Hop as [-> | ->]; apply sound_full, conv_range).
  destruct (is_type (type ph in1) (ZERO k)) eqn:E1.
  { apply is_type_true in E1. rewrite E1 in S1. apply is_type_con in S1. subst v1. left.
    rewrite shift_of_zero by done. eexists. split; [done | apply sound_con, zero_range]. }
  destruct (is_type (type ph in2) (ZERO KInt)) eqn:E2.
  { apply is_type_true in E2. rewrite E2 in S2. apply is_type_con in S2. subst v2. left.
    rewrite shift_zero by (done || apply shift_count_zero). by eexists. }
  destruct (is_type (type ph in1) BOTTOM) eqn:B1; cbn [orb]; [left; by eexists|].
  destruct (is_type (type ph in2) BOTTOM) eqn:B2; cbn [orb]; [left; by eexists|].
  destruct (is_type (type ph in2) (FULL KInt)); [left; by eexists | right; done].
Qed.

Lemma rshift_value_sound ph k in1 in2 v1 v2 :
  sound k v1 (type ph in1) -> sound KInt v2 (type ph in2) -> min_j k <= v1 <= max_j k ->
  exists t, RShiftNode_Value ph k in1 in2 = Some t /\ sound k (eval_bin RShift k v1 v2) t.
Proof.
  intros S1 S2 R1. unfold RShiftNode_Value.
  destruct (shift_guards_sound ph k RShift in1 in2 v1 v2) as [(t & -> & Ht)|(-> & B1 & B2)]; auto; [by eexists|].
  take_range S1 B1 r1 W1 V1. take_range S2 B2 r2 W2 V2.
  destruct (is_con r2) eqn:C2; [| give_up_full]. rewrite <- (con_value r2 v2) by done.
  destruct (Z.eqb_spec (shift_count k v2) 0) as [Hz|Hz]; [rewrite shift_zero by done; by eexists|].
  destruct (rshift_sound k r1 v1 (shift_count k v2) (max_widen r1 r2) W1 V1 (shift_count_range k v2)
    (max_widen_ok _ _ r1 r2 W1 W2)) as [Hsound ->]. by eexists.
Qed.

Lemma urshift_value_sound ph k in1 in2 v1 v2 :
  sound k v1 (type ph in1) -> sound KInt v2 (type ph in2) -> min_j k <= v1 <= max_j k ->
  exists t, URShiftNode_Value ph k in1 in2 = Some t /\ sound k (eval_bin URShift k v1 v2) t.
Proof.
  intros S1 S2 R1. unfold URShiftNode_Value.
  destruct (shift_guards_sound ph k URShift in1 in2 v1 v2) as [(t & -> & Ht)|(-> & B1 & B2)]; auto; [by eexists|].
  take_range S1 B1 r1 W1 V1. take_range S2 B2 r2 W2 V2.
  destruct (is_con r2) eqn:C2; [| give_up_full]. rewrite <- (con_value r2 v2) by done.
  destruct (Z.eqb_spec (shift_count k v2) 0) as [Hz|Hz]; [rewrite shift_zero by done; by eexists|].
  pose proof (shift_count_range k v2) as Hrange.
  pose proof (urshift_sound k r1 v1 (shift_count k v2) (max_widen r1 r2) W1 V1 ltac:(lia)
    (max_widen_ok _ _ r1 r2 W1 W2)) as Hsound.
  unfold ushr in Hsound. cbn [eval_bin]. destruct (_ && _); destruct Hsound as [Hsound ->]; by eexists.
Qed.

Lemma div_value_sound ph k in1 in2 v1 v2 :
  sound k v1 (type ph in1) -> sound k v2 (type ph in2) ->
  (eqv ph in1 in2 = true -> v1 = v2) -> v2 <> 0 ->
  exists t, DivNode_Value ph k in1 in2 = Some t /\ sound k (eval_bin Div k v1 v2) t.
Proof.
  intros S1 S2 Heqv Hne. unfold DivNode_Value. guard_top S1. guard_top S2.
  destruct (eqv ph in1 in2).
  { rewrite Heqv by done. cbn [eval_bin]. rewrite Z.quot_same, conv_small by (done || apply zero_range).
    eexists. split; [done | apply sound_con, zero_range]. }
  destruct (is_type (type ph in1) (FULL k) || is_type (type ph in2) (FULL k)); cbn [orb]; [give_up_full|].
  destruct (is_type (type ph in1) BOTTOM) eqn:B1; cbn [orb]; [give_up_full|].
  destruct (is_type (type ph in2) BOTTOM) eqn:B2; cbn [orb]; [give_up_full|].
  take_range S1 B1 r1 W1 V1. take_range S2 B2 r2 W2 V2.
  pose proof (max_widen_ok _ _ r1 r2 W1 W2) as Hw. cbn [eval_bin].
  destruct (is_con r2) eqn:C2; cbn [andb].
  - rewrite <- (con_value r2 v2) by done. rewrite (proj2 (Z.eqb_neq v2 0)) by done. cbn [negb].
    pose proof (div_con_sound k r1 v1 v2 (max_widen r1 r2) W1 V1 Hne Hw) as Hsound.
    repeat case_match; simplify_eq; by eexists.
  - destruct (is_con r1) eqn:C1; [| give_up_full]. rewrite <- (con_value r1 v1) by done.
    pose proof (con_div_sound k v1 v2 (max_widen r1 r2)
      (sound_range _ _ _ S1 B1) (sound_range _ _ _ S2 B2) Hne Hw) as Hsound.
    repeat case_match; by eexists.
Qed.

Lemma mod_value_sound ph k in1 in2 v1 v2 :
  sound k v1 (type ph in1) -> sound k v2 (type ph in2) ->
  (eqv ph in1 in2 = true -> v1 = v2) -> v2 <> 0 ->
  exists t, ModNode_Value ph k in1 in2 = Some t /\ sound k (eval_bin Mod k v1 v2) t.
Proof.
  intros S1 S2 Heqv Hne. unfold ModNode_Value. guard_top S1. guard_top S2.
  pose proof (zero_range k) as (Z0 & _). cbn [eval_bin].
  destruct (is_type (type ph in1) (ZERO k)) eqn:E1.
  { apply is_type_true in E1. rewrite E1 in S1. apply is_type_con in S1. subst v1.
    rewrite Z.rem_0_l, conv_small by done. eexists. split; [done | by apply sound_con]. }
  destruct (eqv ph in1 in2).
  { rewrite Heqv by done. rewrite Z.rem_same, conv_small by done. eexists. split; [done | by apply sound_con]. }
  destruct (is_type (type ph in1) (FULL k) || is_type (type ph in2) (FULL k)); cbn [orb]; [give_up_full|].
  destruct (is_type (type ph in1) BOTTOM) eqn:B1; cbn [orb]; [give_up_full|].
  destruct (is_type (type ph in2) BOTTOM) eqn:B2; cbn [orb]; [give_up_full|].
  destruct (rem_range k v1 v2 (sound_range _ _ _ S1 B1) Hne) as [Hr Hp].
  take_range S1 B1 r1 W1 V1. take_range S2 B2 r2 W2 V2.
  destruct (is_con r1) eqn:C1; cbn [negb orb]; [destruct (is_con r2) eqn:C2; cbn [negb orb]|].
  - rewrite <- (con_value r1 v1), <- (con_value r2 v2) by done. rewrite (proj2 (Z.eqb_neq v2 0)) by done.
    destruct (Z.eqb_spec v2 (-1)) as [->|]; [rewrite andb_true_r | rewrite andb_false_r].
    + destruct (v1 =? min_j k); eexists; (split; [done|]).
      * replace (-1) with (- (1)) by done. rewrite Z.rem_opp_r, Z.rem_1_r, conv_small by done. by apply sound_con.
      * rewrite conv_small by done. by apply sound_con.
    + eexists. split; [done|]. rewrite conv_small by done. by apply sound_con.
  - destruct (Z.leb_spec 0 (_lo r1)), (Z.leb_spec 0 (_lo r2)); cbn [andb]; try give_up_full.
    eexists. split; [done|]. rewrite conv_small by done.
    apply sound_num; unfold WidenMin, WidenMax; lia.
  - destruct (Z.leb_spec 0 (_lo r1)), (Z.leb_spec 0 (_lo r2)); cbn [andb]; try give_up_full.
    eexists. split; [done|]. rewrite conv_small by done.
    apply sound_num; unfold WidenMin, WidenMax; lia.
Qed.

(** The method, given types that hold of the values of the inputs. *)
Lemma value_of_inputs ph e op k in1 in2 :
  well_kinded (Bin op k in1 in2) -> (is_div op = true -> eval e in2 <> 0) ->
  sound (kind_of in1) (eval e in1) (type ph in1) -> sound (kind_of in2) (eval e in2) (type ph in2) ->
  (eqv ph in1 in2 = true -> eval e in1 = eval e in2) ->
  (eqv_uncast ph in1 in2 = true -> eval e in1 = eval e in2) ->
  exists t, Value ph op k in1 in2 = Some t /\ sound (kind_of (Bin op k in1 in2)) (eval e (Bin op k in1 in2)) t.
Proof.
  intros (K1 & K2 & E1 & E2 & Hclass) Hdiv S1 S2 Heqv Huncast. rewrite E1 in S1. rewrite E2 in S2.
  pose proof (eval_range e in1) as R1. rewrite E1 in R1. pose proof (eval_range e in2) as R2. rewrite E2 in R2.
  change (eval e (Bin op k in1 in2)) with (eval_bin op k (eval e in1) (eval e in2)).
  destruct op; cbn [is_shift is_div] in *; cbn [Value kind_of].
  all: try (apply add_value_sound; naive_solver).
  all: try (apply mul_value_sound; naive_solver).
  - apply (sub_value_sound ph Sub); [by left | done | done | done].
  - by apply lshift_value_sound.
  - by apply rshift_value_sound.
  - by apply urshift_value_sound.
  - apply div_value_sound; auto.
  - apply mod_value_sound; auto.
  - apply (sub_value_sound ph Cmp); [by right | done | done | done].
  - simpl in Hclass. rewrite Hclass in *. by apply mulhi_value_sound.
Qed.

(** C12.  Soundness of the types of arithmetic.  For every new node for integer arithmetic (sums,
    differences, products, masks, unions, minima and maxima, shifts, quotients,
    remainders and comparisons, of ints and longs), in every phase whose types hold of
    the values of the inputs, [Value] returns without a failed assertion, with a
    well-formed type that holds of the value the node computes; for a quotient or
    remainder, when it does not divide by zero. *)
Theorem value_sound ph e op k in1 in2 :
  PhaseSound ph e -> fresh ph e (Bin op k in1 in2) ->
  exists t, Value ph op k in1 in2 = Some t /\ type_wf t /\
    has_type (kind_of (Bin op k in1 in2)) (eval e (Bin op k in1 in2)) t.
Proof.
  intros Hph (Hreg & Hw & D1 & D2 & Hdiv).
  assert (forall m, In m [in1; in2] -> well_kinded m -> defined e m -> sound (kind_of m) (eval e m) (type ph m)) as Hs.
  { intros m Hm Wm Dm. assert (good ph e m) as Hg by (split; [by apply Hreg | done]).
    split; [by eapply type_wf_of | by apply type_sound]. }
  apply value_of_inputs; try done; [apply Hs; simpl; tauto || apply Hw | apply Hs; simpl; tauto || apply Hw | |].
  - intros H%eqv_same. by subst.
  - apply eqv_uncast_same.
Qed.

(** ** A phase *)

(** The phase that knows the constants and transforms nothing. *)
Definition simple_type (n : Node) : Type_ :=
  match n with Con k z => con_type k (conv k z) | _ => FULL (kind_of n) end.
Definition simple_phase : PhaseGVN :=
  mkPhase simple_type (fun _ => true) (fun n => n) (fun n m => bool_decide (n = m)) (fun n m => bool_decide (n = m))
    simple_type (fun _ _ => false) (fun _ => false) (fun _ _ => false) (fun _ => false) (fun _ _ => true)
    (fun _ => true) (fun _ => false) (fun _ => false) false true (fun _ => false) 3.

Lemma simple_type_sound e n : sound (kind_of n) (eval e n) (simple_type n).
Proof.
  destruct n as [k z| | | | | | | | |]; try (apply sound_full, eval_range). apply sound_con, conv_range.
Qed.

#[global] Instance simple_phase_sound e : PhaseSound simple_phase e.
Proof.
  split; simpl; try done.
  - intros n _. apply (simple_type_sound e n).
  - intros n _. apply simple_type_sound.
  - intros n _. apply (simple_type_sound e n).
  - intros n _. apply simple_type_sound.
  - intros n (_ & Hw & Hd) _. done.
  - intros n m H. by apply bool_decide_eq_true_1 in H.
  - intros n m ->%bool_decide_eq_true_1. done.
Qed.

#[global] Instance simple_phase_min e : MinSound simple_phase e.
Proof. split. intros n (_ & Hw & Hd) _. done. Qed.

#[global] Instance simple_phase_folded : PhaseFolded simple_phase.
Proof.
  assert (forall k, singleton (FULL k) = false) as Hfull by (intros []; done).
  split; cbn [type registered simple_phase].
  - done.
  - by intros [].
  - intros n _ H _. unfold simple_type in H. destruct n; [by eauto |..]; by rewrite Hfull in H.
Qed.

(** Shifting the constant -8 right by one, unsigned. *)
Lemma value_sound_witness :
  Value simple_phase URShift KInt (Con KInt (-8)) (Con KInt 1) = Some (con_type KInt 2147483644) /\
  has_type KInt (eval (mkEnv (fun _ _ => 0) (fun _ => 0)) (Bin URShift KInt (Con KInt (-8)) (Con KInt 1)))
    (con_type KInt 2147483644).
Proof.
  destruct (value_sound simple_phase (mkEnv (fun _ _ => 0) (fun _ => 0)) URShift KInt (Con KInt (-8)) (Con KInt 1))
    as (t & Ht & _ & Hv); [apply simple_phase_sound | repeat split; discriminate |].
  assert (Value simple_phase URShift KInt (Con KInt (-8)) (Con KInt 1) = Some (con_type KInt 2147483644)) as Heq
    by (vm_compute; reflexivity).
  split; [exact Heq|]. rewrite Heq in Ht. injection Ht as <-. exact Hv.
Defined.

End IdealValueTheorems.
