(* ===== verification/IdealComputes.v ===== *)
(** Rules for what a graph of the C2 compiler computes in an execution for which the
    phase is sound: one rule for each kind of node, and exact values where nothing wraps. *)
From S2P Require Import Prelude GlobalDefinitions IdealType IdealTypeTheorems IdealNode IdealValue IdealRings IdealValueTheorems.
Import GlobalDefinitions IdealType IdealTypeTheorems IdealNode IdealValue IdealRings IdealValueTheorems.

Module IdealComputes.

(** The node is in the graph, of the kind, and its value is [v]. *)
Definition computes (ph : PhaseGVN) (e : env) (n : Node) (k : kind) (v : Z) : Prop :=
  good ph e n /\ kind_of n = k /\ eval e n = v.

(** The same of a new node, which is not a minimum. *)
Definition builds (ph : PhaseGVN) (e : env) (n : Node) (k : kind) (v : Z) : Prop :=
  (fresh ph e n /\ is_Min n = false) /\ kind_of n = k /\ eval e n = v.

(** The flags of a comparison. *)
Definition flags (a b : Z) : Z := if a <? b then -1 else if a =? b then 0 else 1.
Lemma flags_range a b : -1 <= flags a b <= 1.
Proof. unfold flags. case_match; [lia |]. case_match; lia. Qed.

(** A range found for a value holds it. *)
Lemma isa_value k v t r : sound k v t -> isa k t = Some r -> _lo r <= v <= _hi r.
Proof.
  intros [_ Hv] Hi. destruct t as [| |k' r']; [done | done |]. destruct Hv as [<- Hv].
  rewrite isa_num in Hi. by simplify_eq.
Qed.

(** ** Wrapping arithmetic modulo the width *)

Lemma conv_eq k x y q : x = y + q * 2 ^ bits k -> conv k x = conv k y.
Proof.
  intros ->. unfold conv, swrap. rewrite <- Z.add_assoc, (Z.add_comm (q * _)), Z.add_assoc, Z.mod_add; [done |].
  by destruct k.
Qed.

Lemma conv_add_l k x y : conv k (conv k x + y) = conv k (x + y).
Proof. destruct (conv_mod k x) as [q ->]. apply (conv_eq k _ _ q). lia. Qed.
Lemma conv_add_r k x y : conv k (x + conv k y) = conv k (x + y).
Proof. destruct (conv_mod k y) as [q ->]. apply (conv_eq k _ _ q). lia. Qed.
Lemma conv_sub_l k x y : conv k (conv k x - y) = conv k (x - y).
Proof. destruct (conv_mod k x) as [q ->]. apply (conv_eq k _ _ q). lia. Qed.
Lemma conv_sub_r k x y : conv k (x - conv k y) = conv k (x - y).
Proof. destruct (conv_mod k y) as [q ->]. apply (conv_eq k _ _ (- q)). lia. Qed.
Lemma conv_mul_l k x y : conv k (conv k x * y) = conv k (x * y).
Proof. destruct (conv_mod k x) as [q ->]. apply (conv_eq k _ _ (q * y)). ring. Qed.
Lemma conv_mul_r k x y : conv k (x * conv k y) = conv k (x * y).
Proof. rewrite Z.mul_comm, conv_mul_l. f_equal. ring. Qed.
Lemma conv_opp k x : conv k (- conv k x) = conv k (- x).
Proof. rewrite <- !(Z.sub_0_l), conv_sub_r. done. Qed.

Create Rewrite HintDb conv.
#[export] Hint Rewrite conv_add_l conv_add_r conv_sub_l conv_sub_r conv_mul_l conv_mul_r conv_opp conv_conv : conv.

(** Equations of wrapping sums, differences and products. *)
Ltac conv_ring := autorewrite with conv; first [done | f_equal; ring | f_equal; lia].

(** The operations with two inputs and a result of one kind that never fail, minima apart. *)
Definition ring_op (op : arith) (k : kind) : bool :=
  match op with
  | Add | Sub | Mul | And | Or | Xor => true
  | Max => bool_decide (k = KInt)
  | MulHi => bool_decide (k = KLong)
  | _ => false
  end.

Lemma ring_op_class op k :
  ring_op op k = true -> op <> Cmp /\ is_shift op = false /\ is_div op = false /\ op <> Min /\ node_class op k.
Proof. destruct op; simpl; try done; intros H; split_and!; try done; by apply bool_decide_eq_true_1 in H. Qed.

Section Rules.
Context (ph : PhaseGVN) (e : env) `{!PhaseSound ph e}.

(** A node that computes one of two equal values computes the other. *)
Lemma computes_eq n k v w : computes ph e n k v -> v = w -> computes ph e n k w.
Proof using. by intros H <-. Qed.
Lemma builds_eq n k v w : builds ph e n k v -> v = w -> builds ph e n k w.
Proof using. by intros H <-. Qed.

Lemma computes_range n k v : computes ph e n k v -> min_j k <= v <= max_j k.
Proof using. intros (_ & <- & <-). apply eval_range. Qed.
Lemma builds_range n k v : builds ph e n k v -> min_j k <= v <= max_j k.
Proof using. intros (_ & <- & <-). apply eval_range. Qed.

Lemma computes_conv n k v : computes ph e n k v -> conv k v = v.
Proof using. intros H. by apply conv_small, (computes_range n). Qed.
Lemma builds_conv n k v : builds ph e n k v -> conv k v = v.
Proof using. intros H. by apply conv_small, (builds_range n). Qed.

Lemma computes_transform n k v : builds ph e n k v -> computes ph e (transform ph n) k v.
Proof using All.
  intros ([Hf Hm] & <- & <-). destruct (transform_sound n Hf Hm) as (Hg & Hk & Hv). by split_and!.
Qed.

Lemma computes_type n k v : computes ph e n k v -> sound k v (type ph n).
Proof using All. intros (Hg & <- & <-). split; [by eapply type_wf_of | by apply type_sound]. Qed.

(** The inputs of a node of the graph. *)
Lemma good_input n m : good ph e n -> In m (inputs n) -> well_kinded m -> defined e m -> good ph e m.
Proof using All. intros (Hr & _ & _) Hm Hw Hd. split_and!; [by eapply registered_inputs | done | done]. Qed.

Lemma computes_inputs op k a b v :
  op <> Cmp -> computes ph e (Bin op k a b) k v ->
  computes ph e a k (eval e a) /\ computes ph e b (if is_shift op then KInt else k) (eval e b) /\
  v = eval_bin op k (eval e a) (eval e b).
Proof using All.
  intros ? (Hg & ? & <-). pose proof Hg as (_ & (? & ? & ? & ? & _) & ? & ? & _).
  assert (good ph e a /\ good ph e b) as [? ?] by (split; (eapply good_input; [exact Hg | simpl; tauto | done | done])).
  done.
Qed.

Lemma computes_con k z : computes ph e (con k z) k (conv k z).
Proof using All. split_and!; [by split_and!; [apply (registered_con (e := e)) |..] | done | apply conv_conv]. Qed.

Lemma computes_const k z : min_j k <= z <= max_j k -> computes ph e (con k z) k z.
Proof using All. intros. rewrite <- (conv_small k z) at 2 by done. apply computes_con. Qed.

Lemma builds_con k z : builds ph e (con k z) k (conv k z).
Proof using. split_and!; [by split | done | done | apply conv_conv]. Qed.

(** Inputs of the graph, of the right kinds and not dividing by zero, make a new node. *)
Lemma fresh_bin op k a b :
  good ph e a -> good ph e b -> kind_of a = k -> kind_of b = (if is_shift op then KInt else k) ->
  node_class op k -> (is_div op = true -> eval e b <> 0) -> fresh ph e (Bin op k a b).
Proof using.
  intros (Ra & Wa & Da) (Rb & Wb & Db) ? ? ? ?. split; [by intros m [<-|[<-|[]]] | done].
Qed.

Lemma fresh_inputs op k a b :
  fresh ph e (Bin op k a b) ->
  computes ph e a k (eval e a) /\ computes ph e b (if is_shift op then KInt else k) (eval e b) /\
  node_class op k /\ (is_div op = true -> eval e b <> 0).
Proof using.
  intros (Hr & (? & ? & ? & ? & ?) & ? & ? & ?).
  split_and!; try done; (split; [split; [apply Hr; simpl; tauto | done] | done]).
Qed.

Lemma builds_bin op k a b va vb :
  ring_op op k = true -> computes ph e a k va -> computes ph e b k vb ->
  builds ph e (Bin op k a b) k (eval_bin op k va vb).
Proof using.
  intros (? & Hs & Hd & ? & ?)%ring_op_class (? & ? & <-) (? & ? & <-).
  split_and!; [| by destruct op | by destruct op | done]. apply fresh_bin; rewrite ?Hs, ?Hd; done.
Qed.

Lemma builds_mod k a b va vb :
  computes ph e a k va -> computes ph e b k vb -> vb <> 0 -> builds ph e (Bin Mod k a b) k (eval_bin Mod k va vb).
Proof using. intros (? & ? & <-) (? & ? & <-) ?. split_and!; [by apply fresh_bin | done | done | done]. Qed.

(** An operation that does not wrap. *)
Lemma builds_exact op k a b va vb w :
  ring_op op k = true -> eval_bin op k va vb = conv k w -> min_j k <= w <= max_j k ->
  computes ph e a k va -> computes ph e b k vb -> builds ph e (Bin op k a b) k w.
Proof using.
  intros Hop Ev Hw Ha Hb. eapply builds_eq; [by apply builds_bin |]. rewrite Ev. by apply conv_small.
Qed.

Lemma builds_shift op k a b va vb :
  is_shift op = true -> computes ph e a k va -> computes ph e b KInt vb ->
  builds ph e (Bin op k a b) k (eval_bin op k va vb).
Proof using.
  intros Hs (? & ? & <-) (? & ? & <-). split_and!; [| by destruct op | by destruct op | done].
  apply fresh_bin; rewrite ?Hs; try done; by destruct op.
Qed.

Lemma builds_cmp k a b va vb :
  computes ph e a k va -> computes ph e b k vb ->
  builds ph e (Bin Cmp k a b) KInt (flags va vb).
Proof using. intros (? & ? & <-) (? & ? & <-). split_and!; [by apply fresh_bin | done | done | done]. Qed.

Lemma builds_bool test n v :
  computes ph e n KInt v -> -1 <= v <= 1 -> builds ph e (Bool_ test n) KInt (Z.b2z (eval_test test v)).
Proof using. intros ((? & ? & ?) & ? & <-). split; [split; [split; [by intros m [<-|[]] | done] | done] | done]. Qed.

(** A test of a new comparison. *)
Lemma builds_test test k a b va vb :
  computes ph e a k va -> computes ph e b k vb ->
  builds ph e (Bool_ test (transform ph (Bin Cmp k a b))) KInt (Z.b2z (eval_test test (flags va vb))).
Proof using All.
  intros Ha Hb. apply builds_bool; [| apply flags_range]. by apply computes_transform, builds_cmp.
Qed.

Lemma builds_cmove k c f t b vf vt :
  computes ph e c KInt (Z.b2z b) -> computes ph e f k vf -> computes ph e t k vt ->
  builds ph e (CMove k c f t) k (if b then vt else vf).
Proof using.
  intros ((? & ? & ?) & ? & Hc) Hf Ht. pose proof (computes_conv _ _ _ Hf). pose proof (computes_conv _ _ _ Ht).
  destruct Hf as ((? & ? & ?) & ? & <-), Ht as ((? & ? & ?) & ? & <-).
  split; [split; [split; [by intros m [<-|[<-|[<-|[]]]] | done] | done] | split; [done |]]. simpl. rewrite Hc. by destruct b.
Qed.

(** [(a >= b) ? t : f], the way the graphs spell it. *)
Lemma builds_select k a b f t va vb vf vt :
  computes ph e a k va -> computes ph e b k vb -> computes ph e f k vf -> computes ph e t k vt ->
  builds ph e (CMove k (transform ph (Bool_ bt_ge (transform ph (Bin Cmp k a b)))) f t) k
    (if vb <=? va then vt else vf).
Proof using All.
  intros Ha Hb Hf Ht. apply builds_cmove; [| done | done]. apply computes_transform.
  eapply builds_eq; [by apply (builds_test bt_ge k a b va vb) |]. f_equal. simpl. unfold flags. destruct (Z.ltb_spec va vb), (Z.eqb_spec va vb), (Z.leb_spec vb va); try lia; done.
Qed.

(** A conversion to long with a type that holds of the value. *)
Lemma builds_I2L_typed n t v :
  computes ph e n KInt v -> int_range t -> _lo t <= v <= _hi t -> builds ph e (ConvI2L n t) KLong v.
Proof using.
  intros ((? & ? & ?) & ? & <-) Ht Hv.
  split; [split; [split; [by intros m [<-|[]] | done] | done] | split; [done | by apply eval_I2L]].
Qed.

Lemma builds_I2L n v : computes ph e n KInt v -> builds ph e (ConvI2L n LONG_INT) KLong v.
Proof using.
  intros H. apply builds_I2L_typed; [done | by vm_compute |]. by apply (computes_range _ _ _ H).
Qed.

Lemma builds_L2I n v : computes ph e n KLong v -> builds ph e (ConvL2I n) KInt (conv KInt v).
Proof using. intros ((? & ? & ?) & ? & <-). split; [split; [split; [by intros m [<-|[]] | done] | done] | done]. Qed.

End Rules.

(** ** Shifts by a constant *)

Lemma shift_count_con k s : 0 <= s < bits k -> shift_count k (conv KInt s) = s.
Proof.
  intros Hs. unfold shift_count. rewrite conv_small by (clear - Hs; width k; lia).
  destruct k; simpl bits in *; [change (32 - 1) with (Z.ones 5) | change (64 - 1) with (Z.ones 6)];
    rewrite Z.land_ones by done; apply Z.mod_small; simpl; lia.
Qed.

Section Shifts.
Context (ph : PhaseGVN) (e : env) `{!PhaseSound ph e}.

Lemma builds_rshift k a va s :
  0 <= s < bits k -> computes ph e a k va -> builds ph e (Bin RShift k a (intcon s)) k (va / 2 ^ s).
Proof.
  intros Hs Ha. eapply builds_eq; [apply builds_shift; [done | exact Ha | apply computes_con; done] |].
  simpl. rewrite shift_count_con by done. pose proof (computes_range _ _ _ _ _ Ha).
  rewrite conv_small by (apply shiftr_range; [lia | done]). apply Z.shiftr_div_pow2. lia.
Qed.

Lemma builds_urshift k a va s :
  0 < s < bits k -> computes ph e a k va ->
  builds ph e (Bin URShift k a (intcon s)) k ((if va <? 0 then va + 2 ^ bits k else va) / 2 ^ s).
Proof.
  intros Hs Ha. eapply builds_eq; [apply builds_shift; [done | exact Ha | apply computes_con; done] |].
  simpl. rewrite shift_count_con by lia. pose proof (computes_range _ _ _ _ _ Ha).
  by apply ushr_spec.
Qed.

Lemma builds_lshift k a va s :
  0 <= s < bits k -> computes ph e a k va -> builds ph e (Bin LShift k a (intcon s)) k (conv k (va * 2 ^ s)).
Proof.
  intros Hs Ha. eapply builds_eq; [apply builds_shift; [done | exact Ha | apply computes_con; done] |].
  simpl. rewrite shift_count_con by lia. by rewrite Z.shiftl_mul_pow2 by lia.
Qed.

(** The sign of a value. *)
Lemma builds_sign k a va :
  computes ph e a k va -> builds ph e (Bin RShift k a (intcon (bits k - 1))) k (if va <? 0 then -1 else 0).
Proof.
  intros Ha. pose proof (computes_range _ _ _ _ _ Ha) as Hr. pose proof (bits_pos k).
  eapply builds_eq; [apply builds_rshift; [lia | exact Ha] |].
  rewrite <- shiftr_sign with k va by done. by rewrite Z.shiftr_div_pow2 by lia.
Qed.

End Shifts.

End IdealComputes.
