(* ===== verification/IdealDivide.v ===== *)
(** Division by constants in the C2 compiler (opto/divnode.cpp): the search for a magic
    multiplier, the graphs that multiply and shift instead of dividing, and the high half
    of a product of longs.

    [None] is an assertion that fails or a loop that needs more rounds than it is given;
    a null node is [Some None]. *)
From S2P Require Import Prelude GlobalDefinitions IdealType IdealNode IdealValue.
Import GlobalDefinitions IdealType IdealNode IdealValue.

Module IdealDivide.

(** ** Magic numbers *)

Section Magic.
Context (k : kind).

(** The unsigned type of the width. *)
Definition u (z : Z) : Z := wrap (bits k) z.

(** The [do ... while] loop; the result is [p] and [q2]. *)
Fixpoint magic_loop (fuel : nat) (ad anc p q1 r1 q2 r2 : Z) : option (Z * Z) :=
  match fuel with
  | O => None
  | S fuel =>
      let p := p + 1 in
      let q1 := u (2 * q1) in
      let r1 := u (2 * r1) in
      let '(q1, r1) := if anc <=? r1 then (u (q1 + 1), u (r1 - anc)) else (q1, r1) in
      let q2 := u (2 * q2) in
      let r2 := u (2 * r2) in
      let '(q2, r2) := if ad <=? r2 then (u (q2 + 1), u (r2 - ad)) else (q2, r2) in
      let delta := u (ad - r2) in
      if (q1 <? delta) || ((q1 =? delta) && (r1 =? 0))
      then magic_loop fuel ad anc p q1 r1 q2 r2
      else Some (p, q2)
  end.

(** The multiplier and the shift; the inner [None] is the result [false]. *)
Definition magic_divide_constants (d : Z) : option (option (Z * Z)) :=
  let two := 2 ^ (bits k - 1) in
  let ad := u (Z.abs d) in
  if (d =? 0) || (d =? 1) then Some None else
  let t := u (two + Z.shiftr (u d) (bits k - 1)) in
  let anc := u (t - 1 - t mod ad) in
  let p := bits k - 1 in
  let q1 := two / anc in
  let r1 := u (two - q1 * anc) in
  let q2 := two / ad in
  let r2 := u (two - q2 * ad) in
  '(p, q2) ← magic_loop (Z.to_nat (bits k)) ad anc p q1 r1 q2 r2;
  let M := conv k (q2 + 1) in
  let M := if d <? 0 then conv k (- M) else M in
  Some (Some (M, p - bits k)).

End Magic.

Definition magic_int_divide_constants (d : Z) : option (option (Z * Z)) :=
  magic_divide_constants KInt d.
Definition magic_long_divide_constants (d : Z) : option (option (Z * Z)) :=
  magic_divide_constants KLong d.

(** ** The transformations *)

Definition is_power_of_2_long (x : Z) : bool :=
  negb (x =? 0) && (Z.land x (jlong (x - 1)) =? 0).

Definition log2_long (x : Z) : option Z := log2_loop 65 (-1) 1 x.

Definition is_power_of_2_k (k : kind) (x : Z) : bool :=
  match k with KInt => is_power_of_2 x | KLong => is_power_of_2_long x end.

Definition log2_k (k : kind) (x : Z) : option Z :=
  match k with KInt => log2_intptr x | KLong => log2_long x end.

Section Transform.
Context (ph : PhaseGVN).

Definition long_by_long_mulhi (dividend : Node) (magic_const : Z) : Node :=
  if MulHiL_supported ph then Bin MulHi KLong dividend (longcon magic_const) else
  let N := 64 in
  let u0 := transform ph (Bin And KLong dividend (longcon 4294967295)) in
  let u1 := transform ph (Bin RShift KLong dividend (intcon (N / 2))) in
  let v0 := longcon (Z.land magic_const 4294967295) in
  let v1 := longcon (Z.shiftr magic_const (N / 2)) in
  let w0 := transform ph (Bin Mul KLong u0 v0) in
  let u1v0 := transform ph (Bin Mul KLong u1 v0) in
  let temp := transform ph (Bin URShift KLong w0 (intcon (N / 2))) in
  let t := transform ph (Bin Add KLong u1v0 temp) in
  let w1 := transform ph (Bin And KLong t (longcon 4294967295)) in
  let w2 := transform ph (Bin RShift KLong t (intcon (N / 2))) in
  let u0v1 := transform ph (Bin Mul KLong u0 v1) in
  let w1 := transform ph (Bin Add KLong u0v1 w1) in
  let u1v1 := transform ph (Bin Mul KLong u1 v1) in
  let temp1 := transform ph (Bin Add KLong u1v1 w2) in
  let temp2 := transform ph (Bin RShift KLong w1 (intcon (N / 2))) in
  Bin Add KLong temp1 temp2.

(** Whether a power-of-2 division needs rounding, and the dividend it is applied to.
    The int version asks for a non-negative dividend, the long version for a positive
    one. *)
Definition rounding (k : kind) (dividend : Node) (d : Z) : bool * Node :=
  let nonneg := match isa k (type ph dividend) with
                | Some dt => match k with KInt => 0 <=? _lo dt | KLong => 0 <? _lo dt end
                | None => false
                end in
  if nonneg then (false, dividend) else
  match dividend with
  | Bin And k' x mask =>
      if negb (bool_decide (k = k')) then (true, dividend) else
      match isa k (type ph mask) with
      | Some t =>
          if is_con t then
            let andcon := get_con t in
            if (andcon <? 0) && is_power_of_2_k k (conv k (- andcon)) && (d <=? conv k (- andcon))
            then (false, if conv k (- andcon) =? d then x else dividend)
            else (true, dividend)
          else (true, dividend)
      | None => (true, dividend)
      end
  | _ => (true, dividend)
  end.

(** The quotient of a power of 2 with a shift, after adding what rounds towards zero. *)
Definition shift_divide (k : kind) (dividend : Node) (d : Z) (d_pos : bool) : option Node :=
  let N := bits k in
  let '(needs_rounding, dividend) := rounding k dividend d in
  l ← log2_k k (d - 1);
  let l := l + 1 in
  let dividend :=
    if needs_rounding then
      let sign := transform ph (Bin RShift k dividend (intcon (N - 1))) in
      let round := transform ph (Bin URShift k sign (intcon (N - l))) in
      transform ph (Bin Add k dividend round)
    else dividend in
  let q := Bin RShift k dividend (intcon l) in
  Some (if d_pos then q else Bin Sub k (con k 0) (transform ph q)).

(** The last two steps of a magic division: the sign of the dividend is subtracted, in
    the order that negates the quotient when the divisor is negative. *)
Definition fix_sign (k : kind) (mul_hi dividend : Node) (d_pos : bool) : Node :=
  let addend0 := mul_hi in
  let addend1 := transform ph (Bin RShift k dividend (intcon (bits k - 1))) in
  if d_pos then Bin Sub k addend0 addend1 else Bin Sub k addend1 addend0.

Definition transform_int_divide (dividend : Node) (divisor : Z) : option (option Node) :=
  assert! negb (divisor =? 0) && negb (divisor =? min_j KInt);
  let d_pos := 0 <=? divisor in
  let d := if d_pos then divisor else conv KInt (- divisor) in
  let N := 32 in
  if d =? 1 then
    Some (if negb d_pos then Some (Bin Sub KInt (intcon 0) dividend) else None)
  else if is_power_of_2 d then
    q ← shift_divide KInt dividend d d_pos; Some (Some q)
  else
    c ← magic_int_divide_constants d;
    match c with
    | None => Some None
    | Some (magic_const, shift_const) =>
        let magic := longcon magic_const in
        let dividend_long := transform ph (ConvI2L dividend LONG_INT) in
        let mul_hi := transform ph (Bin Mul KLong dividend_long magic) in
        let mul_hi :=
          if magic_const <? 0 then
            let mul_hi := transform ph (Bin RShift KLong mul_hi (intcon N)) in
            let mul_hi := transform ph (ConvL2I mul_hi) in
            let mul_hi := transform ph (Bin Add KInt dividend mul_hi) in
            if negb (shift_const =? 0)
            then transform ph (Bin RShift KInt mul_hi (intcon shift_const)) else mul_hi
          else
            let mul_hi := transform ph (Bin RShift KLong mul_hi (intcon (N + shift_const))) in
            transform ph (ConvL2I mul_hi) in
        Some (Some (fix_sign KInt mul_hi dividend d_pos))
    end.

Definition transform_long_divide (dividend : Node) (divisor : Z) : option (option Node) :=
  assert! negb (divisor =? 0) && negb (divisor =? min_j KLong);
  let d_pos := 0 <=? divisor in
  let d := if d_pos then divisor else conv KLong (- divisor) in
  if d =? 1 then
    Some (if negb d_pos then Some (Bin Sub KLong (longcon 0) dividend) else None)
  else if is_power_of_2_long d then
    q ← shift_divide KLong dividend d d_pos; Some (Some q)
  else if negb (use_asm_for_ldiv_by_con ph d) then
    c ← magic_long_divide_constants d;
    match c with
    | None => Some None
    | Some (magic_const, shift_const) =>
        let mul_hi := transform ph (long_by_long_mulhi dividend magic_const) in
        let mul_hi :=
          if magic_const <? 0 then transform ph (Bin Add KLong dividend mul_hi) else mul_hi in
        let mul_hi :=
          if negb (shift_const =? 0)
          then transform ph (Bin RShift KLong mul_hi (intcon shift_const)) else mul_hi in
        Some (Some (fix_sign KLong mul_hi dividend d_pos))
    end
  else Some None.

Definition transform_divide (k : kind) : Node -> Z -> option (option Node) :=
  match k with KInt => transform_int_divide | KLong => transform_long_divide end.

(** ** Div and Mod nodes *)

(** A division that has to be kept in its place has a control input; it takes no part in
    the value. *)
Definition DivNode_Ideal (k : kind) (in1 in2 : Node) : option (option Node) :=
  let t := type ph in2 in
  if is_type t (ONE k) then Some None else
  match isa k t with
  | None => Some None
  | Some ti =>
      if negb (is_con ti) then Some None else
      let i := get_con ti in
      if i =? 0 then Some None else
      if i =? min_j k then Some None else
      transform_divide k in1 i
  end.

Definition unroll_factor (k : kind) : list Z :=
  match k with
  | KInt => [999; 999; 29; 14; 9; 7; 5; 4; 4; 3; 3; 2; 2; 2; 2; 2; 1]
  | KLong => [999; 999; 61; 30; 20; 15; 12; 10; 8; 7; 6; 6; 5; 5; 4; 4; 4; 3; 3; 3; 3; 3;
              2; 2; 2; 2; 2; 2; 2; 2; 2; 2; 1]
  end.

Definition trip_count (k : kind) (s : Z) : Z := default 1 (unroll_factor k !! Z.to_nat s).

(** The loop that reduces [x] to nearly the divisor. *)
Fixpoint reduce_loop (k : kind) (trips : nat) (x divisor : Node) (s : Z) : Node :=
  match trips with
  | O => x
  | S trips =>
      let xl := transform ph (Bin And k x divisor) in
      let xh := transform ph (Bin RShift k x (intcon s)) in
      let x := transform ph (Bin Add k xh xl) in
      reduce_loop k trips x divisor s
  end.

(** The remainder of [2^s - 1]. *)
Definition unrolled_mod (k : kind) (in1 in2 : Node) (s : Z) : Node :=
  let x := in1 in
  let divisor := in2 in
  let x := reduce_loop k (Z.to_nat (trip_count k s)) x divisor s in
  let cmp1 := transform ph (Bin Cmp k in1 (con k 0)) in
  let bol1 := transform ph (Bool_ bt_ge cmp1) in
  let cmov1 := transform ph (CMove k bol1 (con k 1) divisor) in
  let sub := transform ph (Bin Sub k x divisor) in
  let cmp2 := transform ph (Bin Cmp k x cmov1) in
  let bol2 := transform ph (Bool_ bt_ge cmp2) in
  CMove k bol2 x sub.

(** The remainder through the quotient: the rest of the methods, from where the divisor
    is known not to be handled by the loop. *)
Definition divided_mod (k : kind) (in1 : Node) (con_ : Z) : option (option Node) :=
  if (con_ =? 0) || (con_ =? min_j k) then Some None else
  let pos_con := if 0 <=? con_ then con_ else conv k (- con_) in
  if pos_con =? 1 then Some (Some (con k 0)) else
  let pow2 := is_power_of_2_k k pos_con in
  log2_con ← (if pow2 then log2_k k pos_con else Some (-1));
  let nonneg := match isa k (type ph in1) with Some dt => 0 <=? _lo dt | None => false end in
  if pow2 && nonneg then Some (Some (Bin And k in1 (con k (pos_con - 1)))) else
  result ← transform_divide k in1 pos_con;
  match result with
  | None => Some None
  | Some result =>
      let divide := transform ph result in
      let mult :=
        if 0 <=? log2_con then transform ph (Bin LShift k divide (intcon log2_con))
        else transform ph (Bin Mul k divide (con k pos_con)) in
      Some (Some (Bin Sub k in1 mult))
  end.

Definition ModNode_Ideal (k : kind) (has_control : bool) (in1 in2 : Node) : option (option Node) :=
  let t := type ph in2 in
  if is_type t TOP then Some None else
  ti ← isa k t;
  if has_control && ((_hi ti <? 0) || (0 <? _lo ti)) then Some (Some (Bin Mod k in1 in2)) else
  if negb (is_con ti) then Some None else
  let con_ := get_con ti in
  if (0 <=? con_) && (con_ <? max_j k) && is_power_of_2_k k (con_ + 1) then
    s ← log2_k k (con_ + 1);
    if (trip_count k s <=? 5) && negb (ConditionalMoveLimit ph =? 0)
    then Some (Some (unrolled_mod k in1 in2 s))
    else divided_mod k in1 con_
  else divided_mod k in1 con_.

End Transform.

(** The methods of the two widths. *)
Definition DivINode_Ideal (ph : PhaseGVN) : Node -> Node -> option (option Node) := DivNode_Ideal ph KInt.
Definition DivLNode_Ideal (ph : PhaseGVN) : Node -> Node -> option (option Node) := DivNode_Ideal ph KLong.
Definition ModINode_Ideal (ph : PhaseGVN) : bool -> Node -> Node -> option (option Node) := ModNode_Ideal ph KInt.
Definition ModLNode_Ideal (ph : PhaseGVN) : bool -> Node -> Node -> option (option Node) := ModNode_Ideal ph KLong.

End IdealDivide.
