(* ===== verification/IdealDivideTheorems.v ===== *)
(** Division by a constant is what its multiplications and shifts compute. *)
From S2P Require Import Prelude GlobalDefinitions IdealType IdealTypeTheorems IdealNode IdealValue IdealRings IdealValueTheorems IdealComputes IdealDivide.
Import GlobalDefinitions IdealType IdealTypeTheorems IdealNode IdealValue IdealRings IdealValueTheorems IdealComputes IdealDivide.

Module IdealDivideTheorems.

(** ** The arithmetic of magic numbers *)

(** [t] is half of the word's values, [nc] the largest dividend below it that leaves
    the largest remainder, and [m * d] exceeds [P], a power of 2, by [delta]. *)
Section Arithmetic.
Context (t d P m delta : Z) (Hd : 2 <= d < t) (HP : 0 < P)
  (Hm : m * d = P + delta) (Hdelta : 0 < delta <= d)
  (Hnc : (t - 1 - t mod d) * delta < P)
  (Htop : t mod d = d - 1 -> t * delta <= P).

(** The excess does not carry a multiple of [d] over the next one. *)
Lemma excess_strict a :
  0 <= a <= t -> a < t \/ a mod d <> d - 1 -> a * delta < P * (d - a mod d).
Proof using Hd HP Hdelta Hnc.
  clear Hm Htop. intros Ha Hc.
  pose proof (Z.mod_pos_bound a d ltac:(lia)). pose proof (Z.mod_pos_bound t d ltac:(lia)).
  pose proof (Z.div_mod t d ltac:(lia)) as Et. pose proof (Z.div_mod a d ltac:(lia)) as Ea.
  destruct (Z.le_gt_cases a (t - 1 - t mod d)); [nia |].
  assert (1 <= t / d) by (apply Z.div_le_lower_bound; lia).
  assert (a / d = t / d) as Eq by nia. rewrite Eq in Ea.
  assert (d - 1 <= t - 1 - t mod d) by nia.
  assert (a mod d + 1 <= d - 1) by lia.
  assert (a = t - 1 - t mod d + (a mod d + 1)) as E by lia.
  remember (t - 1 - t mod d) as nc. remember (a mod d + 1) as r.
  assert (r * delta <= nc * delta) by nia.
  replace (d - a mod d) with (1 + (d - r)) by lia. rewrite E. nia.
Qed.

Lemma excess a : 0 <= a <= t -> a * delta <= P * (d - a mod d).
Proof using Hd HP Hdelta Hnc Htop.
  clear Hm. intros Ha. destruct (Z.eq_dec (a mod d) (d - 1)) as [E|].
  - destruct (Z.eq_dec a t) as [->|].
    + rewrite E. specialize (Htop E). lia.
    + apply Z.lt_le_incl, excess_strict; lia.
  - apply Z.lt_le_incl, excess_strict; lia.
Qed.

(** The product with the magic number, shifted, is the quotient rounded down, one too
    low for a negative dividend. *)
Lemma magic_quot n :
  - t <= n < t -> Z.quot n d = m * n / P + (if n <? 0 then 1 else 0).
Proof using All.
  intros Hn. destruct (Z.ltb_spec n 0) as [Hneg|Hpos].
  - replace n with (- (- n)) by lia. set (a := - n) in *.
    rewrite Z.quot_opp_l by lia. rewrite Z.quot_div_nonneg by lia.
    pose proof (excess a ltac:(lia)) as He.
    pose proof (Z.div_mod a d ltac:(lia)) as Ea. pose proof (Z.mod_pos_bound a d ltac:(lia)).
    assert (m * - a / P = - (a / d) - 1) as ->; [| lia].
    symmetry. apply (Z.div_unique_pos _ _ _ (m * - a - P * (- (a / d) - 1))); [| lia].
    generalize dependent (a / d). intros q Ea.
    assert (d * (m * a) = P * a + delta * a) by nia. split; nia.
  - rewrite Z.quot_div_nonneg by lia.
    pose proof (excess_strict n ltac:(lia) ltac:(lia)) as He.
    pose proof (Z.div_mod n d ltac:(lia)) as Ea. pose proof (Z.mod_pos_bound n d ltac:(lia)).
    assert (m * n / P = n / d) as ->; [| lia].
    symmetry. apply (Z.div_unique_pos _ _ _ (m * n - P * (n / d))); [| lia].
    generalize dependent (n / d). intros q Ea.
    assert (d * (m * n) = P * n + delta * n) by nia. split; nia.
Qed.

End Arithmetic.

(** ** The search for a magic number *)

Section Search.
Context (k : kind) (d : Z).
Local Abbreviation T := (2 ^ (bits k - 1)).
Local Abbreviation nc := (T - 1 - T mod d).
Context (Hd : 2 <= d < T).

Lemma u_small z : 0 <= z < 2 ^ bits k -> u k z = z.
Proof. apply wrap_small. Qed.

(** One round doubles a quotient and its remainder. *)
Lemma double_step c x :
  0 < c <= T -> 0 <= x -> 2 * x / c < 2 ^ bits k ->
  (if c <=? u k (2 * (x mod c)) then (u k (u k (2 * (x / c)) + 1), u k (u k (2 * (x mod c)) - c))
   else (u k (2 * (x / c)), u k (2 * (x mod c)))) = (2 * x / c, (2 * x) mod c).
Proof using.
  clear Hd. intros Hc Hx. assert (2 ^ bits k = 2 * T) as E2 by by destruct k.
  pose proof (Z.div_mod x c ltac:(lia)) as E. pose proof (Z.mod_pos_bound x c ltac:(lia)).
  pose proof (Z.div_pos x c Hx ltac:(lia)).
  generalize dependent (x mod c). generalize dependent (x / c). intros q Hq r E Hr Hlt.
  rewrite (u_small (2 * r)) by lia.
  destruct (Z.leb_spec c (2 * r)).
  - assert (2 * x / c = 2 * q + 1) as E1 by (symmetry; apply (Z.div_unique_pos _ _ _ (2 * r - c)); lia).
    assert ((2 * x) mod c = 2 * r - c) as -> by (symmetry; apply (Z.mod_unique_pos _ _ (2 * q + 1)); lia).
    rewrite E1 in *. by rewrite (u_small (2 * q)), (u_small (2 * q + 1)), (u_small (2 * r - c)) by lia.
  - assert (2 * x / c = 2 * q) as E1 by (symmetry; apply (Z.div_unique_pos _ _ _ (2 * r)); lia).
    assert ((2 * x) mod c = 2 * r) as -> by (symmetry; apply (Z.mod_unique_pos _ _ (2 * q)); lia).
    rewrite E1 in *. by rewrite u_small by lia.
Qed.

(** A round of the loop goes from [2 ^ p] to [2 ^ (p + 1)]. *)
Lemma magic_round fuel p :
  0 <= p -> 0 < nc -> 2 ^ (p + 1) / nc < 2 ^ bits k -> 2 ^ (p + 1) / d < 2 ^ bits k ->
  magic_loop k (S fuel) d nc p (2 ^ p / nc) (2 ^ p mod nc) (2 ^ p / d) (2 ^ p mod d)
  = if 2 ^ (p + 1) <=? nc * (d - 2 ^ (p + 1) mod d)
    then magic_loop k fuel d nc (p + 1) (2 ^ (p + 1) / nc) (2 ^ (p + 1) mod nc)
           (2 ^ (p + 1) / d) (2 ^ (p + 1) mod d)
    else Some (p + 1, 2 ^ (p + 1) / d).
Proof using Hd.
  intros Hp Hn. rewrite (Z.pow_add_r 2 p 1), (Z.mul_comm _ (2 ^ 1)) by lia. change (2 ^ 1) with 2.
  intros H1 H2. pose proof (pow2_pos p Hp). pose proof (Z.mod_pos_bound T d ltac:(lia)).
  cbn [magic_loop]. rewrite !double_step by (done || lia).
  pose proof (Z.mod_pos_bound (2 * 2 ^ p) d ltac:(lia)).
  assert (2 ^ bits k = 2 * T) by by destruct k. rewrite u_small by lia.
  pose proof (Z.div_mod (2 * 2 ^ p) nc ltac:(lia)). pose proof (Z.mod_pos_bound (2 * 2 ^ p) nc Hn).
  generalize dependent (2 * 2 ^ p / nc). generalize dependent ((2 * 2 ^ p) mod nc).
  intros r Er q Hq Eq.
  destruct (Z.ltb_spec q (d - (2 * 2 ^ p) mod d)), (Z.eqb_spec q (d - (2 * 2 ^ p) mod d)), (Z.eqb_spec r 0),
    (Z.leb_spec (2 * 2 ^ p) (nc * (d - (2 * 2 ^ p) mod d))); simpl; try done; exfalso; nia.
Qed.

(** What the search finds. *)
Definition magic_at (p : Z) : Prop :=
  bits k <= p <= 2 * bits k - 2 /\ nc * (d - 2 ^ p mod d) < 2 ^ p /\ 2 ^ p / d + 1 < 2 ^ bits k.

Lemma magic_loop_finds fuel p :
  bits k - 1 <= p < 2 * bits k - 2 -> 2 * bits k - 2 <= p + Z.of_nat fuel -> 0 < nc ->
  2 ^ (p + 1) / nc < 2 ^ bits k -> 2 ^ (p + 1) / d + 1 < 2 ^ bits k ->
  exists p', magic_loop k fuel d nc p (2 ^ p / nc) (2 ^ p mod nc) (2 ^ p / d) (2 ^ p mod d)
             = Some (p', 2 ^ p' / d) /\ magic_at p'.
Proof using Hd.
  pose proof (bits_pos k).
  revert p. induction fuel as [|fuel IH]; intros p Hp Hf Hn H1 H2; [lia |].
  rewrite magic_round by lia.
  pose proof (Z.mod_pos_bound T d ltac:(lia)).
  pose proof (Z.mod_pos_bound (2 ^ (p + 1)) d ltac:(lia)).
  assert (2 ^ bits k = 2 * T) as E2 by by destruct k.
  destruct (Z.leb_spec (2 ^ (p + 1)) (nc * (d - 2 ^ (p + 1) mod d))) as [Hle|Hgt].
  - assert (2 ^ (p + 1) <= nc * d) by nia.
    assert (p + 1 <> 2 * bits k - 2) as Hne.
    { intros E. assert (2 ^ (p + 1) = T * T) as E3 by (rewrite E; by destruct k). nia. }
    apply IH; try lia; rewrite (Z.pow_add_r 2 (p + 1) 1) by lia; change (2 ^ 1) with 2.
    + apply Z.le_lt_trans with (2 * (d - 2 ^ (p + 1) mod d)); [| lia].
      apply Z.div_le_upper_bound; lia.
    + apply Z.le_lt_trans with (2 * nc + 1); [| lia].
      apply Z.add_le_mono_r, Z.div_le_upper_bound; lia.
  - exists (p + 1). split; [done |]. unfold magic_at. lia.
Qed.

(** The search ends for every divisor that is at least 2. *)
Lemma magic_constants_find :
  exists p, magic_divide_constants k d = Some (Some (conv k (2 ^ p / d + 1), p - bits k)) /\ magic_at p.
Proof using Hd.
  pose proof (bits_pos k). assert (2 ^ bits k = 2 * T) as E2 by by destruct k.
  assert (2 ^ 31 <= T) as HT by (by destruct k).
  pose proof (Z.mod_pos_bound T d ltac:(lia)).
  pose proof (Z.div_mod T d ltac:(lia)). assert (1 <= T / d) by (apply Z.div_le_lower_bound; lia).
  assert (T <= 2 * nc + 2) by nia.
  assert (3 <= nc) by lia.
  destruct (magic_loop_finds (Z.to_nat (bits k)) (bits k - 1)) as (p & Hl & Hp); try lia.
  { destruct k; simpl; lia. }
  { replace (bits k - 1 + 1) with (bits k) by lia. rewrite E2. apply Z.div_lt_upper_bound; nia. }
  { replace (bits k - 1 + 1) with (bits k) by lia. rewrite E2.
    assert (2 * T / d <= T) by (apply Z.div_le_upper_bound; nia). lia. }
  exists p. split; [| done].
  unfold magic_divide_constants.
  rewrite Z.abs_eq, (u_small d) by lia.
  assert (Z.shiftr d (bits k - 1) = 0) as ->.
  { rewrite Z.shiftr_div_pow2 by (destruct k; simpl; lia). apply Z.div_small; lia. }
  rewrite Z.add_0_r, (u_small T), (u_small nc) by lia.
  rewrite (Z.mul_comm _ nc), (Z.mul_comm _ d), <- !Z.mod_eq by lia.
  rewrite (u_small (T mod nc)), (u_small (T mod d)), Hl
    by (pose proof (Z.mod_pos_bound T nc); lia).
  destruct (Z.eqb_spec d 0), (Z.eqb_spec d 1), (Z.ltb_spec d 0); try lia. done.
Qed.

(** The largest remainder leaves no room: here the divisor divides [2 ^ (w - 1) + 1]. *)
Lemma magic_top p :
  bits k <= p -> T mod d = d - 1 -> T * (d - 2 ^ p mod d) <= 2 ^ p.
Proof using Hd.
  intros Hp Htop. pose proof (Z.mod_pos_bound (2 ^ p) d ltac:(lia)). pose proof (bits_pos k).
  set (x := 2 ^ (p - bits k + 1)).
  assert (2 ^ p = T * x) as E by (unfold x; rewrite <- Z.pow_add_r by lia; f_equal; lia).
  assert (0 < x) by (apply pow2_pos; lia).
  destruct (Z.le_gt_cases d x); [nia |].
  assert (2 ^ p mod d = d - x) as ->; [| lia].
  rewrite E, Z.mul_mod, Htop, (Z.mod_small x) by lia.
  symmetry. apply (Z.mod_unique_pos _ _ (x - 1)); lia.
Qed.

Lemma magic_at_quot p n :
  magic_at p -> min_j k <= n <= max_j k ->
  Z.quot n d = (2 ^ p / d + 1) * n / 2 ^ p + (if n <? 0 then 1 else 0).
Proof using Hd.
  intros (Hp & Hc & _) Hn. pose proof (bits_pos k). pose proof (pow2_pos p ltac:(lia)).
  pose proof (Z.mod_pos_bound (2 ^ p) d ltac:(lia)). pose proof (Z.div_mod (2 ^ p) d ltac:(lia)).
  apply (magic_quot T d (2 ^ p) _ (d - 2 ^ p mod d)); try done; try lia.
  - intros Htop. apply magic_top; lia.
  - unfold min_j, max_j in Hn. lia.
Qed.

End Search.

(** ** Powers of 2 *)

Lemma log2_k_spec k x : log2_k k x = Some (if uintptr_t x =? 0 then -1 else Z.log2 (uintptr_t x)).
Proof. destruct k; apply log2_intptr_spec. Qed.

Lemma land_pred_pow2 x : 0 < x -> Z.land x (x - 1) = 0 -> x = 2 ^ Z.log2 x.
Proof.
  intros Hx Hl. pose proof (Z.log2_spec x Hx) as [Hlo Hhi]. pose proof (Z.log2_nonneg x).
  destruct (Z.eq_dec x (2 ^ Z.log2 x)) as [|Hne]; [done |].
  assert (Z.testbit (Z.land x (x - 1)) (Z.log2 x) = true) as Hb; [| by rewrite Hl, Z.bits_0 in Hb].
  rewrite Z.land_spec, Z.bit_log2 by done.
  replace (Z.log2 x) with (Z.log2 (x - 1)); [rewrite Z.bit_log2; [done |] |].
  - pose proof (pow2_pos (Z.log2 x)). lia.
  - apply Z.log2_unique; [done | lia].
Qed.

Lemma is_power_of_2_k_spec k x :
  min_j k <= x <= max_j k -> 0 < x -> is_power_of_2_k k x = true -> x = 2 ^ Z.log2 x.
Proof.
  intros Hr Hx. unfold is_power_of_2_k, is_power_of_2, is_power_of_2_long, mask_bits, NoBits.
  assert (- 2 ^ (64 - 1) <= x - 1 < 2 ^ (64 - 1)) as Hs by (clear - Hr Hx; width k; lia).
  unfold intptr_t, jlong. rewrite swrap_small by (lia || apply Hs).
  destruct k; intros [_ ?%Z.eqb_eq]%andb_prop; by apply land_pred_pow2.
Qed.

(** A divisor that is a power of 2 and at least 2. *)
Lemma power_of_2_divisor k d :
  2 <= d <= max_j k -> is_power_of_2_k k d = true ->
  exists l, 0 < l < bits k - 1 /\ d = 2 ^ l /\ log2_k k (d - 1) = Some (l - 1).
Proof.
  intros Hd Hp. assert (min_j k <= d) by (pose proof (zero_range k); lia).
  apply is_power_of_2_k_spec in Hp; [| lia | lia]. exists (Z.log2 d).
  pose proof (bits_pos k). assert (d < 2 ^ (bits k - 1)) by (unfold max_j in Hd; lia).
  assert (0 < Z.log2 d < bits k - 1) as Hl.
  { split; [apply Z.log2_pos; lia | apply Z.log2_lt_pow2; lia]. }
  split_and!; try done; try lia. rewrite log2_k_spec. unfold uintptr_t.
  rewrite wrap_small by (unfold in_unsigned; clear - Hd; width k; lia).
  rewrite (proj2 (Z.eqb_neq _ _)) by lia. f_equal. apply Z.log2_unique; [lia |].
  replace (Z.succ (Z.log2 d - 1)) with (Z.log2 d) by lia. rewrite <- Hp.
  assert (d = 2 * 2 ^ (Z.log2 d - 1)) as E.
  { rewrite Hp at 1. rewrite <- (Z.pow_succ_r 2) by lia. f_equal. lia. }
  lia.
Qed.

Lemma log2_k_power k d :
  1 <= d < 2 ^ (bits k - 1) -> is_power_of_2_k k d = true ->
  exists l, 0 <= l < bits k - 1 /\ d = 2 ^ l /\ log2_k k d = Some l.
Proof.
  intros Hd Hp. pose proof (bits_pos k).
  apply is_power_of_2_k_spec in Hp; [| unfold min_j, max_j; lia | lia]. exists (Z.log2 d).
  split_and!; [apply Z.log2_nonneg | apply Z.log2_lt_pow2; lia | done |].
  rewrite log2_k_spec. unfold uintptr_t.
  rewrite wrap_small by (unfold in_unsigned; clear - Hd; width k; lia).
  by rewrite (proj2 (Z.eqb_neq _ _)) by lia.
Qed.

(** Masking with a negated power of 2 clears the bits below it. *)
Lemma land_mask x j : 0 <= j -> Z.land x (- 2 ^ j) = 2 ^ j * (x / 2 ^ j).
Proof.
  intros Hj. replace (- 2 ^ j) with (Z.lnot (Z.ones j)) by (rewrite Z.ones_equiv; unfold Z.lnot; lia).
  rewrite <- Z.ldiff_land, Z.ldiff_ones_r, Z.shiftl_mul_pow2, Z.shiftr_div_pow2 by done. lia.
Qed.

(** Adding the bits below a power of 2 to a negative dividend rounds the shift up. *)
Lemma round_up k l n :
  0 < l < bits k - 1 -> min_j k <= n <= max_j k ->
  let sign := if n <? 0 then -1 else 0 in
  eval_bin Add k n ((if sign <? 0 then sign + 2 ^ bits k else sign) / 2 ^ (bits k - l)) / 2 ^ l
  = Z.quot n (2 ^ l).
Proof.
  intros Hl Hn. pose proof (pow2_pos l ltac:(lia)). assert (2 ^ l <= max_j k).
  { assert (2 ^ l < 2 ^ (bits k - 1)) by (apply Z.pow_lt_mono_r; lia). unfold max_j. lia. }
  pose proof (pow2_pos (bits k - l) ltac:(lia)). destruct (Z.ltb_spec n 0); simpl.
  - assert ((-1 + 2 ^ bits k) / 2 ^ (bits k - l) = 2 ^ l - 1) as ->.
    { symmetry. apply (Z.div_unique_pos _ _ _ (2 ^ (bits k - l) - 1)); [lia |].
      replace (2 ^ bits k) with (2 ^ (bits k - l) * 2 ^ l); [lia |].
      rewrite <- Z.pow_add_r by lia. f_equal. lia. }
    rewrite conv_small by lia. replace n with (- - n) by lia.
    rewrite Z.quot_opp_l, Z.quot_div_nonneg by lia. generalize dependent (2 ^ l). intros d **.
    pose proof (Z.div_mod (- n) d ltac:(lia)). pose proof (Z.mod_pos_bound (- n) d ltac:(lia)).
    symmetry. apply (Z.div_unique_pos _ _ _ (d - 1 - (- n) mod d)); lia.
  - rewrite Z.div_0_l, Z.add_0_r, conv_small by lia. by rewrite Z.quot_div_nonneg by lia.
Qed.

Lemma is_con_make_con z : is_con (make_con z) = true.
Proof. apply Z.eqb_refl. Qed.

(** ** The graphs *)

Section Graphs.
Context (ph : PhaseGVN) (e : env) `{!PhaseSound ph e}.
Context (k : kind) (dividend : Node) (n : Z) (Hn : computes ph e dividend k n).

Lemma fix_sign_computes mul_hi q d d_pos :
  0 < d -> computes ph e mul_hi k q -> Z.quot n d = q + (if n <? 0 then 1 else 0) ->
  builds ph e (fix_sign ph k mul_hi dividend d_pos) k (conv k (Z.quot n (if d_pos : bool then d else - d))).
Proof using All.
  intros Hd Hq Eq. pose proof (computes_transform ph e _ _ _ (builds_sign ph e _ _ _ Hn)) as Hs.
  unfold fix_sign. destruct d_pos.
  - eapply builds_eq; [by apply builds_bin |]. simpl. f_equal. destruct (n <? 0); lia.
  - eapply builds_eq; [by apply builds_bin |]. simpl. f_equal.
    rewrite Z.quot_opp_r by lia. destruct (n <? 0); lia.
Qed.

(** Without rounding, shifting the dividend is the division. *)
Lemma rounding_computes d l :
  0 < l < bits k - 1 -> d = 2 ^ l ->
  let '(needs_rounding, dividend') := rounding ph k dividend d in
  exists n', computes ph e dividend' k n' /\ if needs_rounding then n' = n else n' / d = Z.quot n d.
Proof using All.
  intros Hl Ed. pose proof (pow2_pos l ltac:(lia)) as Hd0. rewrite <- Ed in Hd0.
  assert (exists n', computes ph e dividend k n' /\ n' = n) as Hround by eauto.
  unfold rounding. destruct (match isa k (type ph dividend) with Some _ => _ | None => _ end) eqn:Hnonneg.
  { exists n. split; [done |]. destruct (isa k (type ph dividend)) as [dt|] eqn:Hi; [| done].
    pose proof (isa_value _ _ _ _ (computes_type ph e _ _ _ Hn) Hi).
    assert (0 <= n) by (destruct k; lia). by rewrite Z.quot_div_nonneg by lia. }
  destruct dividend as [| | |op k' x mask| | | | | |]; try done. destruct op; try done.
  case_bool_decide as Hk; [| done]. subst k'. simpl negb. cbv iota.
  destruct (isa k (type ph mask)) as [t|] eqn:Hi; [| done].
  destruct (is_con t) eqn:Hcon; [| done].
  destruct (_ && _) eqn:Hmask; [| done].
  apply andb_prop in Hmask as [[Hneg Hpow]%andb_prop Hle].
  destruct (computes_inputs ph e And k x mask n ltac:(done) Hn) as (Hx & Hmask & Hv). cbn [is_shift] in Hmask.
  symmetry in Hv. cbn [eval_bin] in Hv.
  pose proof (isa_value _ _ _ _ (computes_type ph e _ _ _ Hmask) Hi) as Hm.
  pose proof (con_value _ _ Hcon Hm) as Em. rewrite <- Em in *.
  pose proof (computes_range _ _ _ _ _ Hmask) as Hmr. pose proof (computes_range _ _ _ _ _ Hx) as Hxr.
  pose proof (conv_range k (- eval e mask)) as Hcr.
  destruct (Z.eq_dec (eval e mask) (min_j k)) as [E|Hne].
  { exfalso. rewrite E in Hle. revert Hle. clear - Hd0.
    assert (conv k (- min_j k) = min_j k) as -> by by destruct k.
    assert (min_j k < 0) by by destruct k. lia. }
  rewrite conv_small in * by (clear - Hmr Hneg Hne; width k; lia).
  apply is_power_of_2_k_spec in Hpow; [| lia | lia].
  set (j := Z.log2 (- eval e mask)) in *. assert (0 <= j) by apply Z.log2_nonneg.
  rewrite (land_conv k) in Hv by done.
  replace (eval e mask) with (- 2 ^ j) in Hv by lia. rewrite land_mask in Hv by done.
  assert (l <= j) by (apply (Z.pow_le_mono_r_iff 2); lia).
  assert (2 ^ j = d * 2 ^ (j - l)) as Ej by (rewrite Ed, <- Z.pow_add_r by lia; f_equal; lia).
  assert (n = d * (n / d) /\ Z.quot n d = n / d) as [E1 E2].
  { rewrite <- Hv, Ej, <- Z.mul_assoc, (Z.mul_comm d), Z.div_mul, Z.quot_mul by lia. lia. }
  destruct (Z.eqb_spec (- eval e mask) d) as [E|].
  - exists (eval e x). split; [done |]. rewrite E2, <- Hv.
    replace (2 ^ j) with d by lia. by rewrite Z.mul_comm, Z.div_mul by lia.
  - by exists n.
Qed.

Lemma shift_divide_computes d d_pos :
  2 <= d <= max_j k -> is_power_of_2_k k d = true ->
  exists q, shift_divide ph k dividend d d_pos = Some q /\
    builds ph e q k (conv k (Z.quot n (if d_pos : bool then d else - d))).
Proof using All.
  intros Hd Hp. destruct (power_of_2_divisor k d Hd Hp) as (l & Hl & Ed & Hlog).
  unfold shift_divide. rewrite Hlog. cbn [mbind option_bind]. rewrite Z.sub_add.
  pose proof (rounding_computes d l Hl Ed) as Hr. destruct (rounding ph k dividend d) as [rd dividend'].
  destruct Hr as (n' & Hn' & Hr).
  eexists. split; [done |].
  set (dividend'' := if rd then _ else _).
  assert (exists n'', computes ph e dividend'' k n'' /\ n'' / d = Z.quot n d) as (n'' & Hn'' & Eq).
  { unfold dividend''. destruct rd; [subst n' | eauto].
    pose proof (computes_range _ _ _ _ _ Hn) as Hnr. eexists. split.
    - apply computes_transform; [done |]. apply builds_bin; [done | exact Hn' |].
      apply computes_transform; [done |]. apply builds_urshift; [done | lia |].
      apply computes_transform; [done |]. by apply builds_sign.
    - rewrite Ed. apply round_up; [lia | done]. }
  assert (builds ph e (Bin RShift k dividend'' (intcon l)) k (Z.quot n d)) as Hq.
  { eapply builds_eq; [apply builds_rshift; [done | lia | done] |]. by rewrite <- Ed. }
  destruct d_pos.
  - by rewrite (builds_conv _ _ _ _ _ Hq).
  - eapply builds_eq.
    + apply builds_bin; [done | by apply computes_con | by apply computes_transform].
    + simpl. f_equal. rewrite Z.quot_opp_r by lia. rewrite conv_small by apply zero_range. lia.
Qed.

End Graphs.

(** ** The high half of a product *)

Ltac long_range := match goal with |- min_j KLong <= ?z <= max_j KLong =>
  change (-9223372036854775808 <= z <= 9223372036854775807) end.

(** Schoolbook multiplication of two-digit numbers, the upper digits. *)
Lemma mulhi_digits B u0 u1 v0 v1 :
  0 < B ->
  let t := u1 * v0 + u0 * v0 / B in
  (B * u1 + u0) * (B * v1 + v0) / (B * B) = u1 * v1 + t / B + (u0 * v1 + t mod B) / B.
Proof.
  intros HB t. rewrite <- Z.div_div by lia.
  replace ((B * u1 + u0) * (B * v1 + v0)) with ((B * u1 * v1 + u1 * v0 + u0 * v1) * B + u0 * v0) by ring.
  rewrite Z.div_add_l by lia.
  replace (B * u1 * v1 + u1 * v0 + u0 * v1 + u0 * v0 / B) with (u1 * v1 * B + (u0 * v1 + t)) by (unfold t; ring).
  rewrite Z.div_add_l by lia. rewrite (Z.div_mod t B) at 1 by lia.
  replace (u0 * v1 + (B * (t / B) + t mod B)) with (t / B * B + (u0 * v1 + t mod B)) by ring.
  rewrite Z.div_add_l by lia. ring.
Qed.

(** The digits of a long. *)
Lemma long_digits z :
  min_j KLong <= z <= max_j KLong ->
  z = 4294967296 * (z / 4294967296) + z mod 4294967296 /\
  -2147483648 <= z / 4294967296 <= 2147483647 /\ 0 <= z mod 4294967296 < 4294967296.
Proof.
  intros Hz. change (-9223372036854775808 <= z <= 9223372036854775807) in Hz.
  split_and!; [apply Z.div_mod | | | |]; try apply Z.mod_pos_bound; try done.
  - apply Z.div_le_lower_bound; lia.
  - apply Z.lt_succ_r, Z.div_lt_upper_bound; lia.
Qed.

Lemma low_digit z : Z.land z 4294967295 = z mod 4294967296.
Proof. change 4294967295 with (Z.ones 32). by rewrite Z.land_ones. Qed.

Section MulHi.
Context (ph : PhaseGVN) (e : env) `{!PhaseSound ph e}.

Lemma builds_low n v :
  computes ph e n KLong v -> builds ph e (Bin And KLong n (longcon 4294967295)) KLong (v mod 4294967296).
Proof using All.
  intros Hn. pose proof (computes_range _ _ _ _ _ Hn) as Hr.
  eapply builds_eq; [by apply builds_bin; [..| apply computes_con] |].
  cbn [eval_bin]. rewrite (conv_small KLong 4294967295), low_digit by done. apply conv_small.
  pose proof (Z.mod_pos_bound v 4294967296). change (-9223372036854775808 <= v mod 4294967296 <= 9223372036854775807).
  lia.
Qed.

Lemma builds_high n v :
  computes ph e n KLong v -> builds ph e (Bin RShift KLong n (intcon 32)) KLong (v / 4294967296).
Proof using All. intros Hn. change 4294967296 with (2 ^ 32). by apply builds_rshift. Qed.

(** The high digit of a product of low digits, which uses all 64 bits. *)
Lemma builds_high_unsigned n v :
  0 <= v < 18446744073709551616 -> computes ph e n KLong (conv KLong v) ->
  builds ph e (Bin URShift KLong n (intcon 32)) KLong (v / 4294967296).
Proof using All.
  intros Hv Hn. eapply builds_eq; [by apply builds_urshift |].
  change (2 ^ 32) with 4294967296. f_equal. destruct (conv_mod KLong v) as [q Hq].
  pose proof (conv_range KLong v) as Hr. change (2 ^ bits KLong) with 18446744073709551616 in *.
  change (-9223372036854775808 <= conv KLong v <= 9223372036854775807) in Hr.
  destruct (Z.ltb_spec (conv KLong v) 0); lia.
Qed.

Lemma builds_addL a b va vb :
  computes ph e a KLong va -> computes ph e b KLong vb -> min_j KLong <= va + vb <= max_j KLong ->
  builds ph e (Bin Add KLong a b) KLong (va + vb).
Proof using. intros. by eapply builds_exact. Qed.

Lemma builds_mulL a b va vb :
  computes ph e a KLong va -> computes ph e b KLong vb -> min_j KLong <= va * vb <= max_j KLong ->
  builds ph e (Bin Mul KLong a b) KLong (va * vb).
Proof using. intros. by eapply builds_exact. Qed.

(** The graph of the high half, on nodes for the digits. *)
Lemma mulhi_graph nu0 nu1 nv0 nv1 u0 u1 v0 v1 :
  computes ph e nu0 KLong u0 -> computes ph e nu1 KLong u1 ->
  computes ph e nv0 KLong v0 -> computes ph e nv1 KLong v1 ->
  0 <= u0 < 4294967296 -> -2147483648 <= u1 <= 2147483647 ->
  0 <= v0 < 4294967296 -> -2147483648 <= v1 <= 2147483647 ->
  let t := u1 * v0 + u0 * v0 / 4294967296 in
  let r := u1 * v1 + t / 4294967296 + (u0 * v1 + t mod 4294967296) / 4294967296 in
  min_j KLong <= r <= max_j KLong ->
  let w0 := transform ph (Bin Mul KLong nu0 nv0) in
  let u1v0 := transform ph (Bin Mul KLong nu1 nv0) in
  let temp := transform ph (Bin URShift KLong w0 (intcon 32)) in
  let t := transform ph (Bin Add KLong u1v0 temp) in
  let w1 := transform ph (Bin And KLong t (longcon 4294967295)) in
  let w2 := transform ph (Bin RShift KLong t (intcon 32)) in
  let u0v1 := transform ph (Bin Mul KLong nu0 nv1) in
  let w1 := transform ph (Bin Add KLong u0v1 w1) in
  let u1v1 := transform ph (Bin Mul KLong nu1 nv1) in
  let temp1 := transform ph (Bin Add KLong u1v1 w2) in
  let temp2 := transform ph (Bin RShift KLong w1 (intcon 32)) in
  builds ph e (Bin Add KLong temp1 temp2) KLong r.
Proof using All.
  intros Hu0 Hu1 Hv0 Hv1 Ru0 Ru1 Rv0 Rv1 t r Hr; intros.
  assert (0 <= u0 * v0 <= 4294967295 * 4294967295) by nia.
  assert (0 <= u0 * v0 / 4294967296 <= 4294967295)
    by (split; [apply Z.div_le_lower_bound | apply Z.div_le_upper_bound]; lia).
  assert (-2147483648 * 4294967295 <= u1 * v0 <= 2147483647 * 4294967295) by nia.
  assert (-2147483648 * 4294967295 <= u0 * v1 <= 2147483647 * 4294967295) by nia.
  assert (-2147483648 * 2147483648 <= u1 * v1 <= 2147483648 * 2147483648) by nia.
  pose proof (Z.mod_pos_bound t 4294967296 eq_refl).
  assert (-4294967296 <= t / 4294967296 <= 4294967296)
    by (split; [apply Z.div_le_lower_bound | apply Z.div_le_upper_bound]; lia).
  assert (computes ph e t0 KLong t) as Ht.
  { apply computes_transform; [done |]. apply builds_addL; [| | long_range; lia].
    - apply computes_transform; [done |]. apply builds_mulL; [done | done | long_range; lia].
    - apply computes_transform; [done |]. apply builds_high_unsigned; [lia |].
      apply computes_transform; [done |]. by apply (builds_bin ph e Mul). }
  clearbody t0. apply builds_addL; [| | exact Hr].
  - apply computes_transform; [done |]. apply builds_addL; [| | long_range; lia].
    + apply computes_transform; [done |]. apply builds_mulL; [done | done | long_range; lia].
    + by apply computes_transform, builds_high.
  - apply computes_transform; [done |]. apply builds_high. apply computes_transform; [done |].
    apply builds_addL; [| | long_range; lia].
    + apply computes_transform; [done |]. apply builds_mulL; [done | done | long_range; lia].
    + by apply computes_transform, builds_low.
Qed.

Lemma long_by_long_mulhi_computes dividend n M :
  computes ph e dividend KLong n -> min_j KLong <= M <= max_j KLong ->
  builds ph e (long_by_long_mulhi ph dividend M) KLong (n * M / 18446744073709551616).
Proof using All.
  intros Hn HM. pose proof (computes_range _ _ _ _ _ Hn) as Hr.
  destruct (long_digits n Hr) as (En & Hn1 & Hn0), (long_digits M HM) as (EM & HM1 & HM0).
  assert (min_j KLong <= n * M / 18446744073709551616 <= max_j KLong) as Hres.
  { change (-9223372036854775808 <= n <= 9223372036854775807) in Hr.
    change (-9223372036854775808 <= M <= 9223372036854775807) in HM. long_range.
    split; [apply Z.div_le_lower_bound | apply Z.div_le_upper_bound]; nia. }
  unfold long_by_long_mulhi. destruct (MulHiL_supported ph).
  { eapply builds_exact; [done | | done | done | by apply computes_const].
    simpl. by rewrite Z.shiftr_div_pow2. }
  pose proof (mulhi_digits 4294967296 (n mod 4294967296) (n / 4294967296)
                (M mod 4294967296) (M / 4294967296) eq_refl) as E.
  rewrite <- En, <- EM in E. change (4294967296 * 4294967296) with 18446744073709551616 in E.
  rewrite E in *. clear E En EM. cbv zeta. change (64 / 2) with 32.
  pose proof (computes_transform ph e _ _ _ (builds_low _ _ Hn)) as Hu0.
  pose proof (computes_transform ph e _ _ _ (builds_high _ _ Hn)) as Hu1.
  assert (computes ph e (longcon (Z.land M 4294967295)) KLong (M mod 4294967296)) as Hv0.
  { rewrite low_digit. apply computes_const; [done |]. long_range. lia. }
  assert (computes ph e (longcon (Z.shiftr M 32)) KLong (M / 4294967296)) as Hv1.
  { rewrite Z.shiftr_div_pow2 by done. apply computes_const; [done |]. long_range. change (2 ^ 32) with 4294967296. lia. }
  by apply mulhi_graph.
Qed.

End MulHi.

(** ** Division *)

(** The multiplier as a signed constant, and the product it makes up for. *)
Lemma magic_const_spec k m :
  0 < m < 2 ^ bits k ->
  let M := conv k m in m = if M <? 0 then M + 2 ^ bits k else M.
Proof.
  intros Hm M. destruct (conv_mod k m) as [q Hq]. pose proof (conv_range k m) as Hr. subst M.
  assert (2 ^ bits k = 2 * 2 ^ (bits k - 1)) as E by by destruct k.
  unfold min_j, max_j in Hr. rewrite E in *. generalize dependent (2 ^ (bits k - 1)). intros T HT1 E Hq Hr.
  assert (q = 0 \/ q = -1) as [-> | ->] by nia; destruct (Z.ltb_spec (conv k m) 0); lia.
Qed.

(** The high half fits: the multiplier is below the word. *)
Lemma high_range k m n :
  0 <= m < 2 ^ bits k -> min_j k <= n <= max_j k -> min_j k <= n * m / 2 ^ bits k <= max_j k.
Proof.
  intros Hm Hn. pose proof (pow2_pos (bits k) ltac:(destruct k; done)).
  assert (min_j k <= 0 <= max_j k) by apply zero_range.
  split; [apply Z.div_le_lower_bound | apply Z.div_le_upper_bound]; nia.
Qed.

Lemma shift_high k s n m :
  0 <= s -> n * m / 2 ^ bits k / 2 ^ s = m * n / 2 ^ (bits k + s).
Proof.
  intros Hs. assert (0 < bits k) by apply bits_pos.
  rewrite Z.div_div by (try apply pow2_pos; try apply Z.pow_nonzero; lia).
  by rewrite <- Z.pow_add_r, (Z.mul_comm n) by lia.
Qed.

Section Division.
Context (ph : PhaseGVN) (e : env) `{!PhaseSound ph e}.

(** After the high half: the shift. *)
Lemma computes_magic_shift k mul_hi n m s :
  0 <= s < bits k -> computes ph e mul_hi k (n * m / 2 ^ bits k) ->
  computes ph e (if negb (s =? 0) then transform ph (Bin RShift k mul_hi (intcon s)) else mul_hi) k
    (m * n / 2 ^ (bits k + s)).
Proof using All.
  intros Hs Hm. rewrite <- shift_high by lia. destruct (Z.eqb_spec s 0) as [->|]; simpl negb; cbv iota.
  - by rewrite Z.pow_0_r, Z.div_1_r.
  - apply computes_transform; [done |]. by apply builds_rshift.
Qed.

(** The dividend is added back when the multiplier was made negative. *)
Lemma builds_add_back k mul_hi dividend n M :
  computes ph e dividend k n -> computes ph e mul_hi k (n * M / 2 ^ bits k) ->
  0 <= M + 2 ^ bits k < 2 ^ bits k ->
  builds ph e (Bin Add k dividend mul_hi) k (n * (M + 2 ^ bits k) / 2 ^ bits k).
Proof using All.
  intros Hn Hm HM. pose proof (computes_range _ _ _ _ _ Hn) as Hr.
  eapply builds_exact; [done | | by apply high_range | done | done].
  simpl. f_equal. rewrite Z.mul_add_distr_l, Z.div_add by (by destruct k). lia.
Qed.

(** The graph of an int division by a magic number. *)
Lemma int_magic_computes dividend n m s :
  computes ph e dividend KInt n -> 0 < m < 2 ^ 32 -> 0 <= s < 31 ->
  let mul_hi := transform ph (Bin Mul KLong (transform ph (ConvI2L dividend LONG_INT)) (longcon (conv KInt m))) in
  computes ph e
    (if conv KInt m <? 0 then
       let mul_hi := transform ph (Bin RShift KLong mul_hi (intcon 32)) in
       let mul_hi := transform ph (ConvL2I mul_hi) in
       let mul_hi := transform ph (Bin Add KInt dividend mul_hi) in
       if negb (s =? 0) then transform ph (Bin RShift KInt mul_hi (intcon s)) else mul_hi
     else transform ph (ConvL2I (transform ph (Bin RShift KLong mul_hi (intcon (32 + s)))))) KInt
    (m * n / 2 ^ (32 + s)).
Proof using All.
  intros Hn Hm Hs. pose proof (computes_range _ _ _ _ _ Hn) as Hr.
  pose proof (magic_const_spec KInt m Hm) as EM. cbv zeta in EM. pose proof (conv_range KInt m) as HM.
  pose proof (high_range KInt m n ltac:(simpl; lia) Hr) as Hhi.
  generalize dependent (conv KInt m). intros M EM HM.
  assert (computes ph e (transform ph (Bin Mul KLong (transform ph (ConvI2L dividend LONG_INT)) (longcon M))) KLong (n * M)) as Hmul.
  { apply computes_transform; [done |]. change (-2147483648 <= M <= 2147483647) in HM.
    change (-2147483648 <= n <= 2147483647) in Hr. apply builds_mulL.
    - by apply computes_transform, builds_I2L.
    - apply computes_const; [done |]. long_range. lia.
    - long_range. nia. }
  cbv zeta. destruct (Z.ltb_spec M 0).
  - rewrite EM. apply (computes_magic_shift KInt); [simpl; lia |]. apply computes_transform; [done |].
    apply (builds_add_back KInt); [done | | lia]. apply computes_transform; [done |].
    change (-2147483648 <= M <= 2147483647) in HM. change (-2147483648 <= n <= 2147483647) in Hr.
    eapply builds_eq; [by apply builds_L2I, computes_transform, (builds_rshift ph e KLong) |].
    apply conv_small. change (2 ^ bits KInt) with 4294967296. change (2 ^ 32) with 4294967296.
    change (-2147483648 <= n * M / 4294967296 <= 2147483647).
    split; [apply Z.div_le_lower_bound | apply Z.div_le_upper_bound]; nia.
  - subst M. apply computes_transform; [done |].
    eapply builds_eq; [apply builds_L2I, computes_transform, (builds_rshift ph e KLong); [done | simpl; lia | done] |].
    rewrite (Z.mul_comm n). apply conv_small.
    rewrite <- (shift_high KInt), <- Z.shiftr_div_pow2 by lia. by apply shiftr_range; [lia |].
Qed.

(** The sign and the absolute value of a divisor, as the code computes them. *)
Lemma divisor_split k divisor :
  min_j k < divisor <= max_j k -> divisor <> 0 ->
  exists d d_pos, (0 <=? divisor) = d_pos /\ (if d_pos then divisor else conv k (- divisor)) = d /\
    1 <= d <= max_j k /\ divisor = (if d_pos then d else - d) /\
    negb (divisor =? 0) && negb (divisor =? min_j k) = true.
Proof using.
  clear. intros Hr Hnz. eexists _, _. do 2 (split; [done |]).
  pose proof (zero_range k). assert (max_j k = - min_j k - 1) by by destruct k.
  rewrite (proj2 (Z.eqb_neq _ _)), (proj2 (Z.eqb_neq divisor (min_j k))) by lia.
  destruct (Z.leb_spec 0 divisor); rewrite ?conv_small by lia; simpl; lia.
Qed.

Lemma negate_computes k dividend n :
  computes ph e dividend k n -> builds ph e (Bin Sub k (con k 0) dividend) k (conv k (Z.quot n (-1))).
Proof using All.
  intros Hn. eapply builds_eq; [by apply builds_bin; [..| apply computes_con |] |].
  simpl. rewrite (conv_small k 0) by apply zero_range.
  change (-1) with (- (1)). by rewrite Z.quot_opp_r, Z.quot_1_r.
Qed.

(** Either width, with the magic number's graph as a hypothesis. *)
Lemma magic_divide_computes k dividend n d d_pos mul_hi p :
  computes ph e dividend k n -> 2 <= d <= max_j k -> magic_at k d p ->
  computes ph e mul_hi k ((2 ^ p / d + 1) * n / 2 ^ p) ->
  builds ph e (fix_sign ph k mul_hi dividend d_pos) k (conv k (Z.quot n (if d_pos : bool then d else - d))).
Proof using All.
  intros Hn Hd Hp Hm. pose proof (computes_range _ _ _ _ _ Hn). unfold max_j in Hd.
  eapply fix_sign_computes; [done | done | lia | exact Hm |]. apply (magic_at_quot k); [lia | done | done].
Qed.

Lemma magic_multiplier k d p : 2 <= d -> magic_at k d p -> 0 < 2 ^ p / d + 1 < 2 ^ bits k.
Proof using.
  intros Hd (Hp & _ & Hm). assert (0 <= 2 ^ p / d); [| lia].
  apply Z.div_pos; [apply Z.pow_nonneg |]; lia.
Qed.

Lemma transform_int_divide_correct dividend n divisor :
  computes ph e dividend KInt n -> min_j KInt < divisor <= max_j KInt -> divisor <> 0 ->
  exists r, transform_int_divide ph dividend divisor = Some r /\
    match r with Some q => builds ph e q KInt (conv KInt (Z.quot n divisor)) | None => divisor = 1 end.
Proof using All.
  intros Hn Hr Hnz. destruct (divisor_split KInt divisor Hr Hnz) as (d & d_pos & Ep & Ed & Hd & Edv & Ha).
  unfold transform_int_divide. rewrite Ha, Ep, Ed, Edv. cbv iota zeta. destruct (Z.eqb_spec d 1) as [->|].
  { destruct d_pos; eexists; (split; [done |]); [done |]. by apply negate_computes. }
  destruct (is_power_of_2 d) eqn:Hpow.
  { destruct (shift_divide_computes ph e KInt dividend n Hn d d_pos ltac:(lia) Hpow) as (q & -> & Hq).
    by eexists. }
  destruct (magic_constants_find KInt d ltac:(unfold max_j in Hd; lia)) as (p & Hm & Hp).
  unfold magic_int_divide_constants. rewrite Hm. cbn [mbind option_bind]. eexists. split; [done |].
  pose proof (magic_multiplier KInt d p ltac:(lia) Hp). pose proof Hp as ((? & ?) & _).
  eapply magic_divide_computes; [done | lia | done |]. change (bits KInt) with 32 in *.
  eapply computes_eq; [apply (int_magic_computes dividend n (2 ^ p / d + 1) (p - 32)); [done | done | lia] |].
  do 2 f_equal. lia.
Qed.

Lemma transform_long_divide_correct dividend n divisor :
  computes ph e dividend KLong n -> min_j KLong < divisor <= max_j KLong -> divisor <> 0 ->
  exists r, transform_long_divide ph dividend divisor = Some r /\
    match r with
    | Some q => builds ph e q KLong (conv KLong (Z.quot n divisor))
    | None => divisor = 1 \/ use_asm_for_ldiv_by_con ph (Z.abs divisor) = true
    end.
Proof using All.
  intros Hn Hr Hnz. destruct (divisor_split KLong divisor Hr Hnz) as (d & d_pos & Ep & Ed & Hd & Edv & Ha).
  unfold transform_long_divide. rewrite Ha, Ep, Ed, Edv. cbv iota zeta. destruct (Z.eqb_spec d 1) as [->|].
  { destruct d_pos; eexists; (split; [done |]); [by left |]. by apply negate_computes. }
  destruct (is_power_of_2_long d) eqn:Hpow.
  { destruct (shift_divide_computes ph e KLong dividend n Hn d d_pos ltac:(lia) Hpow) as (q & -> & Hq).
    by eexists. }
  destruct (use_asm_for_ldiv_by_con ph d) eqn:Hasm; simpl negb; cbv iota.
  { eexists. split; [done |]. right. replace (Z.abs _) with d by (destruct d_pos; lia). done. }
  destruct (magic_constants_find KLong d ltac:(unfold max_j in Hd; lia)) as (p & Hm & Hp).
  unfold magic_long_divide_constants. rewrite Hm. cbn [mbind option_bind]. eexists. split; [done |].
  pose proof (magic_multiplier KLong d p ltac:(lia) Hp) as HM. pose proof Hp as ((? & ?) & _).
  eapply magic_divide_computes; [done | lia | done |].
  eapply computes_eq; [apply (computes_magic_shift KLong _ n (2 ^ p / d + 1)); [lia |] | do 2 f_equal; lia].
  clear Hm Hp. generalize dependent (2 ^ p / d + 1). intros m HM.
  pose proof (magic_const_spec KLong m HM) as EM. cbv zeta in EM.
  pose proof (long_by_long_mulhi_computes ph e dividend n _ Hn (conv_range KLong m)) as Hhi.
  generalize dependent (conv KLong m). intros M EM Hhi. rewrite EM. destruct (Z.ltb_spec M 0).
  - apply computes_transform; [done |].
    apply (builds_add_back KLong); [done | by apply computes_transform | lia].
  - by apply computes_transform.
Qed.

(** Either width. *)
Lemma transform_divide_computes k dividend n divisor :
  computes ph e dividend k n -> min_j k < divisor <= max_j k -> divisor <> 0 ->
  exists r, transform_divide ph k dividend divisor = Some r /\
    match r with
    | Some q => builds ph e q k (conv k (Z.quot n divisor))
    | None => divisor = 1 \/ (k = KLong /\ use_asm_for_ldiv_by_con ph (Z.abs divisor) = true)
    end.
Proof using All.
  intros Hn Hr Hnz. destruct k; cbn [transform_divide].
  - destruct (transform_int_divide_correct _ _ _ Hn Hr Hnz) as (r & -> & Hr').
    exists r. split; [done |]. destruct r; [done | by left].
  - destruct (transform_long_divide_correct _ _ _ Hn Hr Hnz) as (r & -> & Hr').
    exists r. split; [done |]. destruct r; naive_solver.
Qed.

End Division.

(** The method of a division by any node. *)
Lemma division_builds ph e k in1 in2 n d :
  PhaseSound ph e -> computes ph e in1 k n -> computes ph e in2 k d ->
  exists r, DivNode_Ideal ph k in1 in2 = Some r /\
    match r with
    | Some q => builds ph e q k (eval_bin Div k n d)
    | None => type ph in2 <> con_type k d \/ d = 0 \/ d = 1 \/ d = min_j k \/
              (k = KLong /\ use_asm_for_ldiv_by_con ph (Z.abs d) = true)
    end.
Proof.
  intros Hph Hn Hd. pose proof (computes_range _ _ _ _ _ Hd) as Hdr.
  pose proof (computes_type ph e _ _ _ Hd) as Ht. unfold DivNode_Ideal.
  destruct (is_type (type ph in2) (ONE k)) eqn:Hone.
  { exists None. split; [done |]. apply is_type_true in Hone. rewrite Hone in Ht.
    apply is_type_con in Ht. tauto. }
  destruct (isa k (type ph in2)) as [ti|] eqn:Hi.
  2: { exists None. split; [done |]. left. intros E. rewrite E in Hi. unfold con_type in Hi. by rewrite isa_num in Hi. }
  destruct (is_con ti) eqn:Hcon; simpl negb; cbv iota.
  2: { exists None. split; [done |]. left. intros E. rewrite E in Hi. unfold con_type in Hi. rewrite isa_num in Hi.
       simplify_eq. by rewrite is_con_make_con in Hcon. }
  rewrite <- (con_value _ _ Hcon (isa_value _ _ _ _ Ht Hi)).
  destruct (Z.eqb_spec d 0) as [|H0]; [exists None; tauto |].
  destruct (Z.eqb_spec d (min_j k)) as [|Hm]; [exists None; tauto |].
  destruct (transform_divide_computes ph e k in1 n d Hn ltac:(lia) H0) as (r & Hr & Hq).
  exists r. split; [done |]. destruct r; [done | tauto].
Qed.

(** C11.  Division by a constant.  The [Ideal] methods of divisions return, and where they
    replace a division the graph computes the Java quotient for every dividend: a
    negation, a rounded shift, or the high half of a product with a magic number whose
    search ends.  A constant divisor is left alone only if it is 0, 1 or the smallest
    number, or where the platform asks for its own division instruction. *)
Theorem division_correct ph e k in1 in2 n d :
  PhaseSound ph e -> computes ph e in1 k n -> computes ph e in2 k d ->
  exists r, DivNode_Ideal ph k in1 in2 = Some r /\
    match r with
    | Some q => builds ph e q k (eval_bin Div k n d)
    | None => type ph in2 <> con_type k d \/ d = 0 \/ d = 1 \/ d = min_j k \/
              (k = KLong /\ use_asm_for_ldiv_by_con ph (Z.abs d) = true)
    end.
Proof. apply division_builds. Qed.

(** Dividing by 7 and by -10, whose magic numbers are negative and positive. *)
Lemma division_correct_witness :
  let e := mkEnv (fun _ _ => -100) (fun _ => 0) in
  (exists q, DivNode_Ideal simple_phase KInt (Leaf KInt 0) (Con KInt 7) = Some (Some q) /\ eval e q = -14) /\
  (exists q, DivNode_Ideal simple_phase KLong (Leaf KLong 0) (Con KLong (-10)) = Some (Some q) /\ eval e q = 10).
Proof.
  intros e. split.
  - destruct (division_correct simple_phase e KInt (Leaf KInt 0) (Con KInt 7) (-100) 7) as (r & Hr & Hq);
      [apply simple_phase_sound | by split_and! | by split_and! |].
    destruct r as [q|]; [| exfalso; vm_compute in Hr; discriminate].
    exists q. split; [done | apply Hq].
  - destruct (division_correct simple_phase e KLong (Leaf KLong 0) (Con KLong (-10)) (-100) (-10)) as (r & Hr & Hq);
      [apply simple_phase_sound | by split_and! | by split_and! |].
    destruct r as [q|]; [| exfalso; vm_compute in Hr; discriminate].
    exists q. split; [done | apply Hq].
Defined.

End IdealDivideTheorems.
