(* ===== verification/IdealModTheorems.v ===== *)
(** Remainders by a constant: the loop for divisors one below a power of 2, the mask, and
    the remainder through the quotient. *)
From S2P Require Import Prelude GlobalDefinitions IdealType IdealTypeTheorems IdealNode IdealValue IdealRings IdealValueTheorems IdealComputes IdealDivide IdealDivideTheorems.
Import GlobalDefinitions IdealType IdealTypeTheorems IdealNode IdealValue IdealRings IdealValueTheorems.
Import IdealComputes IdealDivide IdealDivideTheorems.

Module IdealModTheorems.

(** ** Intervals of the reduction loop *)

(** One round on a number, and on the bounds of an interval. *)
Definition reduce_step (s x : Z) : Z := x / 2 ^ s + x mod 2 ^ s.
Definition upper_step (s hi : Z) : Z := Z.max (reduce_step s hi) (hi / 2 ^ s + 2 ^ s - 2).

Lemma reduce_step_bounds s lo hi x :
  0 <= s -> lo <= x <= hi -> lo / 2 ^ s <= reduce_step s x <= upper_step s hi.
Proof.
  intros Hs Hx. pose proof (pow2_pos s Hs). unfold upper_step, reduce_step.
  pose proof (Z.mod_pos_bound x (2 ^ s) ltac:(lia)). pose proof (Z.mod_pos_bound hi (2 ^ s) ltac:(lia)).
  pose proof (Z.div_le_mono lo x (2 ^ s) ltac:(lia) ltac:(lia)).
  pose proof (Z.div_le_mono x hi (2 ^ s) ltac:(lia) ltac:(lia)).
  pose proof (Z.div_mod x (2 ^ s) ltac:(lia)). pose proof (Z.div_mod hi (2 ^ s) ltac:(lia)).
  destruct (Z.eq_dec (x / 2 ^ s) (hi / 2 ^ s)) as [E|]; [rewrite E in *|]; lia.
Qed.

Lemma reduce_step_mod s x : 0 <= s -> x = reduce_step s x + (2 ^ s - 1) * (x / 2 ^ s).
Proof.
  intros Hs. pose proof (pow2_pos s Hs). unfold reduce_step. pose proof (Z.div_mod x (2 ^ s)). lia.
Qed.

(** The bounds after some rounds, if no round leaves the width. *)
Fixpoint bounds (k : kind) (trips : nat) (s lo hi : Z) : option (Z * Z) :=
  match trips with
  | O => Some (lo, hi)
  | S trips =>
      let lo := lo / 2 ^ s in
      let hi := upper_step s hi in
      if (min_j k <=? lo) && (hi <=? max_j k) then bounds k trips s lo hi else None
  end.

(** What the last correction needs of a number that was not negative, and of one that was. *)
Definition reduces (k : kind) (s : Z) : bool :=
  let d := 2 ^ s - 1 in
  let trips := Z.to_nat (trip_count k s) in
  match bounds k trips s 0 (max_j k), bounds k trips s (min_j k) (-1) with
  | Some (lo, hi), Some (lo', hi') => (0 <=? lo) && (hi <? 2 * d) && (- d <? lo') && (hi' <=? d)
  | _, _ => false
  end.

(** The unrolling factors are large enough for every width of the divisor. *)
Lemma unroll_enough k s : 0 <= s < bits k - 1 -> trip_count k s <= 5 -> 2 <= s /\ reduces k s = true.
Proof.
  intros Hs Ht.
  assert (forallb (fun s => (5 <? trip_count k s) || (2 <=? s) && reduces k s)
            (map Z.of_nat (seq 0 (Z.to_nat (bits k - 1)))) = true) as Hall by (destruct k; by vm_compute).
  rewrite forallb_forall in Hall.
  assert (In s (map Z.of_nat (seq 0 (Z.to_nat (bits k - 1))))) as Hin.
  { apply in_map_iff. exists (Z.to_nat s). rewrite in_seq. lia. }
  destruct (orb_prop _ _ (Hall s Hin)) as [?|[? ?]%andb_prop]; [lia |]. split; [lia | done].
Qed.

(** The remainder in the two directions of rounding. *)
Lemma rem_unique_nonneg n d r q : 0 <= n -> 0 <= r < d -> n = r + d * q -> Z.rem n d = r.
Proof. intros. symmetry. apply (Z.rem_unique n d q r); lia. Qed.

Lemma rem_unique_neg n d r q : n < 0 -> - d < r <= 0 -> n = r + d * q -> Z.rem n d = r.
Proof.
  intros. replace n with (- - n) by lia. rewrite Z.rem_opp_l by lia.
  rewrite (rem_unique_nonneg (- n) d (- r) (- q)) by lia. lia.
Qed.

Section Reduction.
Context (ph : PhaseGVN) (e : env) `{!PhaseSound ph e}.

Lemma reduce_loop_computes k trips x divisor s v lo hi lo' hi' :
  0 <= s < bits k - 1 -> computes ph e divisor k (2 ^ s - 1) -> computes ph e x k v -> lo <= v <= hi ->
  bounds k trips s lo hi = Some (lo', hi') ->
  exists v', computes ph e (reduce_loop ph k trips x divisor s) k v' /\
    lo' <= v' <= hi' /\ exists q, v = v' + (2 ^ s - 1) * q.
Proof using All.
  intros Hs Hd. revert x v lo hi. induction trips as [|trips IH]; intros x v lo hi Hx Hv Hb; simpl in Hb.
  { simplify_eq. exists v. split_and!; try done; try lia. exists 0. lia. }
  destruct (_ && _) eqn:Hin in Hb; [| done]. apply andb_prop in Hin as [Hlo Hhi].
  pose proof (reduce_step_bounds s lo hi v ltac:(lia) Hv) as Hstep.
  assert (computes ph e (transform ph (Bin Add k (transform ph (Bin RShift k x (intcon s)))
            (transform ph (Bin And k x divisor)))) k (reduce_step s v)) as Hx'.
  { apply computes_transform; [done |]. eapply (builds_exact ph e Add); try done; try lia.
    - apply computes_transform; [done |]. apply builds_rshift; [done | lia | done].
    - apply computes_transform; [done |]. eapply builds_eq; [by apply builds_bin |]. simpl.
      pose proof (computes_range _ _ _ _ _ Hx). pose proof (computes_range _ _ _ _ _ Hd).
      rewrite land_conv by done. replace (2 ^ s - 1) with (Z.ones s) by (rewrite Z.ones_equiv; lia).
      apply Z.land_ones. lia. }
  destruct (IH _ _ _ _ Hx' Hstep Hb) as (v' & Hv' & Hb' & q & Eq). exists v'. split_and!; try done; try lia.
  pose proof (reduce_step_mod s v ltac:(lia)). exists (q + v / 2 ^ s). lia.
Qed.

Lemma unrolled_mod_computes k in1 in2 s n :
  0 <= s < bits k - 1 -> trip_count k s <= 5 ->
  computes ph e in1 k n -> computes ph e in2 k (2 ^ s - 1) ->
  builds ph e (unrolled_mod ph k in1 in2 s) k (conv k (Z.rem n (2 ^ s - 1))).
Proof using All.
  intros Hs Ht Hn Hd. pose proof (computes_range _ _ _ _ _ Hn) as Hr.
  destruct (unroll_enough k s Hs Ht) as [Hs2 Hred]. unfold reduces in Hred.
  destruct (bounds k _ s 0 _) as [[lo hi]|] eqn:Hb; [| done].
  destruct (bounds k _ s (min_j k) _) as [[lo' hi']|] eqn:Hb'; [| done].
  rewrite !andb_true_iff, !Z.leb_le, !Z.ltb_lt in Hred. destruct Hred as [[[? ?] ?] ?].
  set (d := 2 ^ s - 1) in *.
  assert (0 < d) by (subst d; pose proof (Z.pow_le_mono_r 2 1 s); lia).
  set (bound := if 0 <=? n then d else 1).
  assert (exists x, computes ph e (reduce_loop ph k (Z.to_nat (trip_count k s)) in1 in2 s) k x /\
            - d < x < 2 * d /\ (if bound <=? x then x - d else x) = Z.rem n d) as (x & Hx & Hxr & Ex).
  { subst bound. destruct (Z.leb_spec 0 n).
    - destruct (reduce_loop_computes k _ in1 in2 s n 0 (max_j k) lo hi Hs Hd Hn ltac:(lia) Hb)
        as (x & Hx & Hbx & q & Eq). exists x. split_and!; [done | lia | lia |]. symmetry. fold d in Eq.
      destruct (Z.leb_spec d x); [apply (rem_unique_nonneg _ _ _ (q + 1)) | apply (rem_unique_nonneg _ _ _ q)]; lia.
    - destruct (reduce_loop_computes k _ in1 in2 s n (min_j k) (-1) lo' hi' Hs Hd Hn ltac:(lia) Hb')
        as (x & Hx & Hbx & q & Eq). exists x. split_and!; [done | lia | lia |]. symmetry. fold d in Eq.
      destruct (Z.leb_spec 1 x); [apply (rem_unique_neg _ _ _ (q + 1)) | apply (rem_unique_neg _ _ _ q)]; lia. }
  destruct (rem_range k n d Hr ltac:(lia)) as [Hrr _]. rewrite (conv_small k (Z.rem n d)) by done. rewrite <- Ex in *.
  assert (2 * d <= max_j k).
  { assert (2 ^ s <= 2 ^ (bits k - 2)) by (apply Z.pow_le_mono_r; lia).
    assert (2 * 2 ^ (bits k - 2) = 2 ^ (bits k - 1)) by by destruct k. unfold max_j. lia. }
  assert (max_j k = - min_j k - 1) by by destruct k.
  unfold unrolled_mod. apply builds_select; [done | done | | done |]; (apply computes_transform; [done |]).
  - apply builds_select; [done | done | | |].
    + by apply computes_const, zero_range.
    + by apply computes_const, zero_range.
    + done.
  - eapply (builds_exact ph e Sub); try done. lia.
Qed.

(** A multiple of the divisor taken off, in wrapping arithmetic. *)
Lemma sub_multiple k n d m :
  min_j k <= n <= max_j k -> d <> 0 -> m = conv k (Z.quot n d * d) ->
  conv k (n - m) = conv k (Z.rem n d).
Proof using.
  clear. intros Hn Hd ->. destruct (rem_range k n d Hn Hd) as [Hr _]. rewrite (conv_small k (Z.rem n d)) by done.
  destruct (conv_mod k (Z.quot n d * d)) as [q ->]. apply (conv_unique _ _ _ q); [done |].
  pose proof (Z.quot_rem n d Hd). lia.
Qed.

Lemma divided_mod_computes k in1 n d :
  computes ph e in1 k n -> min_j k <= d <= max_j k ->
  exists r, divided_mod ph k in1 d = Some r /\
    forall q, r = Some q -> builds ph e q k (conv k (Z.rem n d)).
Proof using All.
  intros Hn Hdr. pose proof (computes_range _ _ _ _ _ Hn) as Hr. unfold divided_mod.
  destruct (Z.eqb_spec d 0); [by eexists |]. destruct (Z.eqb_spec d (min_j k)); [by eexists |]. simpl orb. cbv iota zeta.
  assert (max_j k = - min_j k - 1) by by destruct k.
  assert ((if 0 <=? d then d else conv k (- d)) = Z.abs d) as ->.
  { destruct (Z.leb_spec 0 d); rewrite ?conv_small; lia. }
  rewrite <- (Z.rem_abs_r n d) by done. assert (1 <= Z.abs d <= max_j k) as Hp by lia.
  generalize dependent (Z.abs d). intros p Hp.
  destruct (Z.eqb_spec p 1) as [->|].
  { eexists. split; [done |]. intros ? [= <-]. rewrite Z.rem_1_r. apply builds_con. }
  destruct (transform_divide_computes ph e k in1 n p Hn ltac:(lia) ltac:(lia)) as (r & Hdiv & Hq).
  assert (forall q m, r = Some q -> computes ph e m k (conv k (Z.quot n p * p)) ->
            builds ph e (Bin Sub k in1 m) k (conv k (Z.rem n p))) as Hsub.
  { intros q m _ Hm. eapply builds_eq; [by apply builds_bin |]. simpl. apply sub_multiple; [done | lia | done]. }
  assert (forall q, r = Some q -> computes ph e (transform ph q) k (Z.quot n p)) as Hquot.
  { intros q ->. apply computes_transform; [done |]. eapply builds_eq; [exact Hq |].
    apply conv_small, quot_range; [done | lia | lia]. }
  destruct (is_power_of_2_k k p) eqn:Hpow.
  - destruct (log2_k_power k p ltac:(unfold max_j in *; lia) Hpow) as (l & Hl & Ep & Hlog).
    rewrite Hlog. cbn [mbind option_bind andb].
    destruct (match isa k (type ph in1) with Some _ => _ | None => _ end) eqn:Hnonneg.
    + eexists. split; [done |]. intros ? [= <-].
      assert (0 <= n).
      { destruct (isa k (type ph in1)) as [dt|] eqn:Hi; [| done].
        pose proof (isa_value _ _ _ _ (computes_type ph e _ _ _ Hn) Hi). lia. }
      eapply builds_eq; [apply builds_bin; [done | done | apply computes_const; done || lia] |].
      simpl. f_equal. rewrite Z.rem_mod_nonneg, Ep, <- Z.land_ones, Z.ones_equiv by lia. done.
    + rewrite Hdiv. cbn [mbind option_bind]. destruct r as [q|]; [| by eexists].
      eexists. split; [done |]. intros ? [= <-]. rewrite (proj2 (Z.leb_le 0 l)) by lia.
      eapply Hsub; [done |]. apply computes_transform; [done |].
      eapply builds_eq; [apply builds_lshift; [done | lia | by apply Hquot] |]. by rewrite <- Ep.
  - cbn [mbind option_bind andb]. rewrite Hdiv. cbn [mbind option_bind]. destruct r as [q|]; [| by eexists].
    eexists. split; [done |]. intros ? [= <-]. eapply Hsub; [done |]. apply computes_transform; [done |].
    apply (builds_bin ph e Mul); [done | by apply Hquot | apply computes_const; done || lia].
Qed.

End Reduction.

(** The method of a remainder by any node. *)
Lemma remainder_builds ph e k has_control in1 in2 n d :
  PhaseSound ph e -> PhaseFolded ph -> computes ph e in1 k n -> computes ph e in2 k d ->
  exists r, ModNode_Ideal ph k has_control in1 in2 = Some r /\
    forall q, r = Some q -> builds ph e q k (eval_bin Mod k n d).
Proof.
  intros Hph Hf Hn Hd. pose proof (computes_range _ _ _ _ _ Hd) as Hdr.
  pose proof (computes_type ph e _ _ _ Hd) as Ht. unfold ModNode_Ideal.
  rewrite (sound_not_top _ _ _ Ht). destruct (sound_isa _ _ _ Ht) as (ti & Et & Hi & _ & Hv).
  { apply bool_decide_eq_false_2, type_numeric; apply Hd. }
  rewrite Hi. cbn [mbind option_bind]. destruct (_ && _) eqn:Hctl.
  { eexists. split; [done |]. intros ? [= <-]. apply andb_prop in Hctl as [_ Hnz].
    apply builds_mod; [done | done | intros ->; lia]. }
  clear Hctl.
  destruct (is_con ti) eqn:Hcon; simpl negb; cbv iota; [| by eexists].
  rewrite <- (con_value _ _ Hcon Hv). cbn [eval_bin].
  destruct (divided_mod_computes ph e k in1 n d Hn Hdr) as (r & Hr & Hq).
  destruct (_ && is_power_of_2_k k (d + 1)) eqn:Hc; [| by rewrite Hr; eauto].
  apply andb_prop in Hc as [[Hd0 Hd1]%andb_prop Hpow].
  destruct (log2_k_power k (d + 1) ltac:(unfold max_j in *; lia) Hpow) as (s & Hs & Ed & ->).
  cbn [mbind option_bind]. destruct (_ && _) eqn:Htrip; [| by rewrite Hr; eauto].
  apply andb_prop in Htrip as [Htrip%Z.leb_le _].
  eexists. split; [done |]. intros ? [= <-].
  replace d with (2 ^ s - 1) in * by lia. by apply unrolled_mod_computes.
Qed.

(** C13.  Remainder by a constant.  The [Ideal] methods of remainders return, and the
    graph they return computes the Java remainder for every dividend: the unrolled loop
    for divisors one below a power of 2, whose rounds are enough for every such divisor,
    a mask, or the dividend less the multiple found by dividing. *)
Theorem remainder_correct ph e k has_control in1 in2 n d :
  PhaseSound ph e -> PhaseFolded ph -> computes ph e in1 k n -> computes ph e in2 k d ->
  exists r, ModNode_Ideal ph k has_control in1 in2 = Some r /\
    forall q, r = Some q -> builds ph e q k (eval_bin Mod k n d).
Proof. apply remainder_builds. Qed.


(** The remainder of a negative number by 127, one below a power of 2, and by 12. *)
Lemma remainder_correct_witness :
  let e := mkEnv (fun _ _ => -1000) (fun _ => 0) in
  (exists q, ModNode_Ideal simple_phase KInt false (Leaf KInt 0) (Con KInt 127) = Some (Some q) /\ eval e q = -111) /\
  (exists q, ModNode_Ideal simple_phase KLong false (Leaf KLong 0) (Con KLong 12) = Some (Some q) /\ eval e q = -4).
Proof.
  intros e. split.
  - destruct (remainder_correct simple_phase e KInt false (Leaf KInt 0) (Con KInt 127) (-1000) 127) as (r & Hr & Hq);
      [apply simple_phase_sound | apply simple_phase_folded | by split_and! | by split_and! |].
    destruct r as [q|]; [| exfalso; vm_compute in Hr; discriminate].
    exists q. split; [done | apply (Hq q eq_refl)].
  - destruct (remainder_correct simple_phase e KLong false (Leaf KLong 0) (Con KLong 12) (-1000) 12) as (r & Hr & Hq);
      [apply simple_phase_sound | apply simple_phase_folded | by split_and! | by split_and! |].
    destruct r as [q|]; [| exfalso; vm_compute in Hr; discriminate].
    exists q. split; [done | apply (Hq q eq_refl)].
Defined.

End IdealModTheorems.
