(* ===== verification/IdealTransform.v ===== *)
(** The [Identity] and [Ideal] methods of the C2 compiler's integer operations
    (opto/addnode.cpp, subnode.cpp, mulnode.cpp): a node replaced by one of the graph, and
    a node rewritten.

    A method works on the two inputs of [this].  [Identity] returns an input, one of its
    inputs, or [this].  [Ideal] returns [Some None] where the source returns NULL, and
    the changed or new node otherwise; the outer [None] is an assertion that fails.
    Assertions that a node is not its own input hold by the shape of trees. *)
From S2P Require Import Prelude GlobalDefinitions IdealType IdealNode IdealValue IdealDivide.
Import GlobalDefinitions IdealType IdealNode IdealValue IdealDivide.

Module IdealTransform.

Declare Scope ideal_scope.
Delimit Scope ideal_scope with ideal.

Definition ideal : Set := option (option Node).
Definition none : ideal := Some None.
Definition ret (n : Node) : ideal := Some (Some n).

(** The next rewriting is tried where one returns nothing. *)
Definition or_else (a b : ideal) : ideal := match a with Some None => b | _ => a end.
Infix "<|>" := or_else (at level 60, right associativity) : ideal_scope.
Open Scope ideal_scope.

(** The inputs of a node with the opcode. *)
Definition as_op (op : arith) (k : kind) (n : Node) : option (Node * Node) :=
  match n with
  | Bin op' k' a b => if bool_decide (op = op') && bool_decide (k = k') then Some (a, b) else None
  | _ => None
  end.

Definition is_ConI (n : Node) : bool := match n with Con KInt _ => true | _ => false end.

Definition LogBytesPerWord : Z := 3.
Definition wordSize : Z := 8.

Section Methods.
Context (ph : PhaseGVN).

(** [t = phase->type(n)->isa_int(), t && t->is_con()] and the constant. *)
Definition con_of (k : kind) (n : Node) : option Z :=
  match isa k (type ph n) with
  | Some r => if is_con r then Some (get_con r) else None
  | None => None
  end.

(** [n->find_int_con(0)], [n->find_long_con(0)]. *)
Definition find_con (k : kind) (n : Node) : Z :=
  match isa k (find_type ph n) with
  | Some r => if is_con r then get_con r else 0
  | None => 0
  end.

(** [phase->type(n)->singleton()] for a type other than [TOP]. *)
Definition con_not_top (n : Node) : bool := singleton (type ph n) && negb (is_type (type ph n) TOP).

Definition is_zero (k : kind) (n : Node) : bool := is_type (type ph n) (ZERO k).

(** ** Identity *)

Definition AddNode_Identity (op : arith) (k : kind) (in1 in2 : Node) : Node :=
  let zero := add_id op k in
  if higher_equal (type ph in1) zero then in2 else
  if higher_equal (type ph in2) zero then in1 else
  Bin op k in1 in2.

(** [(x-y)+y] and [y+(x-y)] are [x]. *)
Definition AddINode_Identity (k : kind) (in1 in2 : Node) : Node :=
  match as_op Sub k in1, as_op Sub k in2 with
  | Some (x, y), sub2 =>
      if eqv ph y in2 then x else
      match sub2 with
      | Some (x, y) => if eqv ph y in1 then x else AddNode_Identity Add k in1 in2
      | None => AddNode_Identity Add k in1 in2
      end
  | None, Some (x, y) => if eqv ph y in1 then x else AddNode_Identity Add k in1 in2
  | None, None => AddNode_Identity Add k in1 in2
  end.

Definition OrNode_Identity (k : kind) (in1 in2 : Node) : Node :=
  if eqv ph in1 in2 then in1 else AddNode_Identity Or k in1 in2.

Definition SubNode_Identity (k : kind) (in1 in2 : Node) : Node :=
  let zero := ZERO k in
  let last := if higher_equal (type ph in2) zero then in1 else Bin Sub k in1 in2 in
  let sums :=
    match as_op Add KInt in1 with
    | Some (x, y) =>
        if eqv ph y in2 then x else
        if eqv ph x in2 then y else
        match y with
        | Opaque2 y => if eqv ph y in2 then x else last
        | _ => last
        end
    | None => last
    end in
  match as_op Sub k in2 with
  | Some (z, x) =>
      if higher_equal (type ph in1) zero && higher_equal (type ph z) zero then x else sums
  | None => sums
  end.

Definition MulNode_Identity (op : arith) (k : kind) (in1 in2 : Node) : Node :=
  let one := mul_id op k in
  if higher_equal (type ph in1) one then in2 else
  if higher_equal (type ph in2) one then in1 else
  Bin op k in1 in2.

(** The lower [n] bits, as each width computes them; [n] is below the width. *)
Definition low_bits (k : kind) (n : Z) : Z :=
  match k with
  | KInt => jint (right_n_bits n)
  | KLong => jlong (jlong (Z.shiftl 1 n) - 1)
  end.

(** The bits that a value up to [hi] can have. *)
Definition support (k : kind) (hi : Z) : option Z := l ← log2_k k hi; Some (low_bits k (1 + l)).

(** Masks of bits that are always zero. *)
Definition AndNode_Identity (k : kind) (in1 in2 : Node) : option Node :=
  if eqv ph in1 in2 then Some in1 else
  let last := MulNode_Identity And k in1 in2 in
  match con_of k in2 with
  | None => Some last
  | Some con_ =>
      t1_support ← match isa k (type ph in1) with
                   | Some t1 => if 0 <=? _lo t1 then s ← support k (_hi t1); Some (Some s) else Some None
                   | None => Some None
                   end;
      let useless := match t1_support with Some s => Z.land s con_ =? s | None => false end in
      if useless then Some in1 else
      match as_op URShift k in1 with
      | None => Some last
      | Some (_, c) =>
          match con_of KInt c with
          | None => Some last
          | Some shift =>
              let shift := Z.land shift (bits k - 1) in
              let mask := conv k (Z.shiftr (max_ju k) shift) in
              if Z.land mask con_ =? mask then Some in1 else Some last
          end
      end
  end.

(** A shift by a multiple of the width. *)
Definition shift_is_zero (k : kind) (in2 : Node) : bool :=
  match con_of KInt in2 with Some c => Z.land c (bits k - 1) =? 0 | None => false end.

Definition LShiftNode_Identity (k : kind) (in1 in2 : Node) : Node :=
  if shift_is_zero k in2 then in1 else Bin LShift k in1 in2.

(** [(x << c) >> c] where [x] fits in the bits that are left. *)
Definition RShiftINode_Identity (in1 in2 : Node) : Node :=
  let this := Bin RShift KInt in1 in2 in
  match isa KInt (type ph in2) with
  | None => this
  | Some t2 =>
      if is_con t2 && (Z.land (get_con t2) (32 - 1) =? 0) then in1 else
      match as_op LShift KInt in1 with
      | Some (x, c) =>
          if eqv ph c in2 && is_con t2 then
            let shift := Z.land (get_con t2) (32 - 1) in
            let lo := jint (Z.shiftl (-1) (32 - shift - 1)) in
            let hi := Z.lnot lo in
            match isa KInt (type ph x) with
            | None => this
            | Some t11 => if (lo <=? _lo t11) && (_hi t11 <=? hi) then x else this
            end
          else this
      | None => this
      end
  end.

Definition RShiftLNode_Identity (in1 in2 : Node) : Node :=
  if shift_is_zero KLong in2 then in1 else Bin RShift KLong in1 in2.

(** [((x << LogBytesPerWord) + (wordSize-1)) >>> LogBytesPerWord]. *)
Definition URShiftINode_Identity (in1 in2 : Node) : Node :=
  if shift_is_zero KInt in2 then in1 else
  let last := if higher_equal (type ph in2) (ZERO KInt) then in1 else Bin URShift KInt in1 in2 in
  match as_op Add KInt in1 with
  | Some (add1, add2) =>
      match con_of KInt add2, as_op LShift KInt add1 with
      | Some c, Some (x, lshift_count) =>
          if negb (c =? wordSize - 1) then last else
          match con_of KInt lshift_count with
          | Some l =>
              if (l =? LogBytesPerWord) && is_type (type ph lshift_count) (type ph in2) then
                match isa KInt (type ph x) with
                | Some t_x =>
                    if (0 <=? _lo t_x) && (_hi t_x <=? Z.shiftr (max_j KInt) LogBytesPerWord) then x else last
                | None => last
                end
              else last
          | None => last
          end
      | _, _ => last
      end
  | None => last
  end.

Definition URShiftLNode_Identity (in1 in2 : Node) : Node :=
  if shift_is_zero KLong in2 then in1 else Bin URShift KLong in1 in2.

Definition DivNode_Identity (k : kind) (in1 in2 : Node) : Node :=
  if higher_equal (type ph in2) (ONE k) then in1 else Bin Div k in1 in2.

(** The methods for longs; the definitions above are those for ints at [KInt]. *)
Definition AddLNode_Identity : Node -> Node -> Node := AddINode_Identity KLong.
Definition OrLNode_Identity : Node -> Node -> Node := OrNode_Identity KLong.
Definition AndLNode_Identity : Node -> Node -> option Node := AndNode_Identity KLong.
Definition LShiftLNode_Identity : Node -> Node -> Node := LShiftNode_Identity KLong.
Definition DivLNode_Identity : Node -> Node -> Node := DivNode_Identity KLong.

(** The method of the node's class; comparisons, remainders and high products have none. *)
Definition Identity (op : arith) (k : kind) (in1 in2 : Node) : option Node :=
  match op, k with
  | Add, _ => Some (AddINode_Identity k in1 in2)
  | Sub, _ => Some (SubNode_Identity k in1 in2)
  | Mul, _ => Some (MulNode_Identity Mul k in1 in2)
  | And, _ => AndNode_Identity k in1 in2
  | Or, _ => Some (OrNode_Identity k in1 in2)
  | Xor, _ | Min, _ | Max, _ => Some (AddNode_Identity op k in1 in2)
  | LShift, _ => Some (LShiftNode_Identity k in1 in2)
  | RShift, KInt => Some (RShiftINode_Identity in1 in2)
  | RShift, KLong => Some (RShiftLNode_Identity in1 in2)
  | URShift, KInt => Some (URShiftINode_Identity in1 in2)
  | URShift, KLong => Some (URShiftLNode_Identity in1 in2)
  | Div, _ => Some (DivNode_Identity k in1 in2)
  | Mod, _ | Cmp, _ | MulHi, _ => Some (Bin op k in1 in2)
  end.

(** ** Ideal: AddNode *)

(** Loads and constants are moved to the right; [true] if the inputs are to be swapped. *)
Definition commute (add in1 in2 : Node) (con_left con_right : bool) : bool :=
  if con_right then false else
  if con_left then true else
  if is_Load ph in2 && negb (is_Load ph in1) then false else
  if negb (is_Load ph in2) && is_Load ph in1 then true else
  if loop_phi_of ph add in1 then false else
  if loop_phi_of ph add in2 then true else
  idx_gt ph in1 in2.

(** "x+(y+1)" into "(x+y)+1", the last step of the method below. *)
Definition add_push_right (op : arith) (k : kind) (in1 in2 add2 : Node) (con_left progress : bool)
    : Node * Node * bool :=
  match as_op op k add2 with
  | Some (y, a22) =>
      if negb con_left && con_not_top a22 && negb (is_tripcount ph y)
      then (transform ph (Bin op k in1 y), a22, true)
      else (in1, in2, progress)
  | None => (in1, in2, progress)
  end.

(** The three steps below share the inputs of [this], which they change, and the local
    variables [add1] and [add2]. *)
Definition AddNode_Ideal (op : arith) (k : kind) (in1 in2 : Node) : ideal :=
  let t1 := type ph in1 in
  let t2 := type ph in2 in
  let con_left := singleton t1 in
  let con_right := singleton t2 in
  if commute (Bin op k in1 in2) in1 in2 con_left con_right then ret (Bin op k in2 in1) else
  let add1 := in1 in
  let add2 := in2 in
  (* "(x+1)+2" into "x+(1+2)" *)
  '(in1, in2, progress, add1) ←
    (match as_op op k add1 with
     | Some (x1, c) =>
         if con_right && negb (is_type t2 TOP) && con_not_top c then
           t ← add_ring op k t2 (type ph c);
           x2 ← makecon t;
           Some (x1, x2, true, x1)
         else Some (in1, in2, false, add1)
     | None => Some (in1, in2, false, add1)
     end);
  (* "(x+1)+y" into "(x+y)+1" *)
  let '(in1, in2, progress, add2) :=
    match as_op op k add1 with
    | Some (x, a12) =>
        if negb con_right && con_not_top a12 && negb (is_tripcount ph x)
        then (transform ph (Bin op k x in2), a12, true, a12)
        else (in1, in2, progress, add2)
    | None => (in1, in2, progress, add2)
    end in
  let '(in1, in2, progress) := add_push_right op k in1 in2 add2 con_left progress in
  if progress then ret (Bin op k in1 in2) else none.

(** [(con1-x)+con2], and sums of differences; [k] is the width of the method.  The test
    for [0-y] on the left compares with the int zero in both methods.  The last two
    rewritings are behind the one of [(a-b)+(c-d)], and the last of the long method
    compares the inputs of the same difference. *)
Definition add_of_differences (k : kind) (in1 in2 : Node) : ideal :=
  match as_op Sub k in1 with
  | None => none
  | Some (a, b) =>
      (if con_not_top a && con_not_top in2 then
         t ← add_ring Add k (type ph a) (type ph in2); c ← makecon t; ret (Bin Sub k c b)
       else none) <|>
      match as_op Sub k in2 with
      | Some (c, d) => ret (Bin Sub k (transform ph (Bin Add k a c)) (transform ph (Bin Add k b d)))
      | None => none
      end <|>
      match as_op Add k in2 with
      | Some (b', c) => if eqv ph b b' then ret (Bin Add k a c) else none
      | None => none
      end <|>
      match as_op Add k in2 with
      | Some (c, b') => if eqv ph b b' then ret (Bin Add k a c) else none
      | None => none
      end <|>
      match as_op Sub k in2 with
      | Some (b', c) => if eqv ph b b' then ret (Bin Sub k a c) else none
      | None => none
      end <|>
      match as_op Sub k in2 with
      | Some (c, a') =>
          if eqv ph a (match k with KInt => a' | KLong => b end) then ret (Bin Sub k c b) else none
      | None => none
      end
  end.

(** [(x>>>z)+y] for small constants. *)
Definition add_of_shift (in1 in2 : Node) : ideal :=
  match as_op URShift KInt in1 with
  | Some (x, zc) =>
      if negb (is_ConI in2 && is_ConI zc) then none else
      zr ← isa KInt (type ph zc);
      yr ← isa KInt (type ph in2);
      let z := Z.land (get_con zr) 31 in
      let y := get_con yr in
      if (z <? 5) && (-5 <? y) && (y <? 0) then
        if is_type (type ph x) TOP then none else
        xr ← isa KInt (type ph x);
        if jint (- jint (Z.shiftl y z)) <=? _lo xr
        then ret (Bin URShift KInt (transform ph (Bin Add KInt x (intcon (jint (Z.shiftl y z))))) zc)
        else none
      else none
  | None => none
  end.

Definition add_ideal (k : kind) (in1 in2 : Node) : ideal :=
  let swapped := match as_op Add k in1, as_op Sub k in2 with Some _, Some _ => true | _, _ => false end in
  let '(l, r) := if swapped then (in2, in1) else (in1, in2) in
  add_of_differences k l r <|>
  match as_op Sub k r with
  | Some (z, y) => if is_zero k z then ret (Bin Sub k l y) else none
  | None => none
  end <|>
  match as_op Sub k l with
  | Some (z, y) => if is_zero KInt z then ret (Bin Sub k r y) else none
  | None => none
  end <|>
  match k with KInt => add_of_shift l r | KLong => none end <|>
  AddNode_Ideal Add k in1 in2.

Definition AddINode_Ideal : Node -> Node -> ideal := add_ideal KInt.
Definition AddLNode_Ideal : Node -> Node -> ideal := add_ideal KLong.

(** [x+c] for a node [x+c] with a constant, and [x+0] for any other [x]. *)
Definition offset (x : Node) : Node * Z :=
  match as_op Add KInt x with
  | Some (y, Con KInt c) => (y, conv KInt c)
  | _ => (x, 0)
  end.

Definition MinINode_Ideal (l r : Node) : ideal :=
  match as_op Min KInt l with
  | Some (a, b) => ret (Bin Min KInt a (transform ph (Bin Min KInt b r)))
  | None =>
      let '(x, x_off) := offset l in
      let '(y, y_off) := offset r in
      match as_op Min KInt r with
      | None =>
          if idx_gt ph x y then ret (Bin Min KInt r l) else
          if negb (eqv ph x y) then none else
          ret (Bin Add KInt x (intcon (MIN2 x_off y_off)))
      | Some (r1, r2) =>
          let '(y, y_off) :=
            match as_op Add KInt r1 with
            | Some (y, Con KInt c) => (y, conv KInt c)
            | _ => (r1, y_off)
            end in
          if idx_gt ph x y then ret (Bin Min KInt r1 (transform ph (Bin Min KInt l r2))) else
          if negb (eqv ph x y) then none else
          ret (Bin Min KInt (transform ph (Bin Add KInt x (intcon (MIN2 x_off y_off)))) r2)
      end
  end.

(** ** Ideal: SubNode *)

(** Rewritings of the sums and differences below a difference, the ones of the int
    method only marked [i]. *)
Definition sub_patterns (k : kind) (in1 in2 : Node) : ideal :=
  let i := bool_decide (k = KInt) in
  let zero := con k 0 in
  match as_op Add k in2 with
  | Some (x, y) => if eqv ph in1 x then ret (Bin Sub k zero y) else none
  | None => none
  end <|>
  match as_op Sub k in1 with
  | Some (x, y) => if i && eqv ph x in2 then ret (Bin Sub k zero y) else none
  | None => none
  end <|>
  match as_op Add k in2 with
  | Some (y, x) => if eqv ph in1 x then ret (Bin Sub k zero y) else none
  | None => none
  end <|>
  match as_op Sub k in2 with
  | Some (x, y) => if is_zero k in1 then ret (Bin Sub k y x) else none
  | None => none
  end <|>
  match as_op Add k in2 with
  | Some (x, c) =>
      let con_ := find_con k c in
      if i && is_zero k in1 && negb (con_ =? 0) then ret (Bin Sub k (con k (- con_)) x) else none
  | None => none
  end <|>
  match as_op Add k in1, as_op Add k in2 with
  | Some (a1, a2), Some (b1, b2) =>
      (if eqv ph a1 b1 then ret (Bin Sub k a2 b2) else none) <|>
      (if eqv ph a2 b2 then ret (Bin Sub k a1 b1) else none) <|>
      (if i && eqv ph a2 b1 then ret (Bin Sub k a1 b2) else none) <|>
      (if i && eqv ph a1 b2 then ret (Bin Sub k a2 b1) else none)
  | _, _ => none
  end <|>
  match as_op Sub k in2 with
  | Some (b, c) => if outcnt_1 ph in2 then ret (Bin Sub k (transform ph (Bin Add k in1 c)) b) else none
  | None => none
  end.

Definition sub_ideal (k : kind) (in1 in2 : Node) : ideal :=
  if is_type (type ph in2) TOP then none else
  match con_of k in2 with
  | Some c => ret (Bin Add k in1 (con k (- c)))
  | None => none
  end <|>
  match as_op Add k in1 with
  | Some (x, c) =>
      if ok_to_convert ph in1 in2 && con_not_top c
      then ret (Bin Add k (transform ph (Bin Sub k x in2)) c) else none
  | None => none
  end <|>
  match as_op Add k in2 with
  | Some (y, c) =>
      match con_of k c with
      | Some z =>
          if ok_to_convert ph in2 in1
          then ret (Bin Add k (transform ph (Bin Sub k in1 y)) (con k (- z))) else none
      | None => none
      end
  | None => none
  end <|>
  (if is_type (type ph in1) TOP then none else sub_patterns k in1 in2).

Definition SubINode_Ideal : Node -> Node -> ideal := sub_ideal KInt.
Definition SubLNode_Ideal : Node -> Node -> ideal := sub_ideal KLong.

(** ** Ideal: MulNode *)

(** [mul_opcode] and [add_opcode]: masks distribute over unions. *)
Definition add_opcode (op : arith) : arith := match op with And => Or | _ => Add end.

Definition MulNode_Ideal (op : arith) (k : kind) (in1 in2 : Node) : ideal :=
  let t1 := type ph in1 in
  let t2 := type ph in2 in
  let ok := singleton t2 || is_Load ph in2 && negb (singleton t1 || is_Load ph in1) in
  let swap := negb ok && (singleton t1 || idx_gt ph in1 in2) in
  let '(in1, in2, t2) := if swap then (in2, in1, t1) else (in1, in2, t2) in
  if negb (singleton t2) then (if swap then ret (Bin op k in1 in2) else none) else
  if is_type t2 TOP then none else
  (* "(x*c)*d" into "x*(c*d)" *)
  '(in1, in2, t2, progress) ←
    (match as_op op k in1 with
     | Some (x, c) =>
         if con_not_top c then
           tcon01 ← mul_ring op k t2 (type ph c);
           if singleton tcon01 then m ← makecon tcon01; Some (x, m, tcon01, true)
           else Some (in1, in2, t2, swap)
         else Some (in1, in2, t2, swap)
     | None => Some (in1, in2, t2, swap)
     end);
  let this := if progress : bool then ret (Bin op k in1 in2) else none in
  (* "(x+c)*d" into "x*d + c*d" *)
  match as_op (add_opcode op) k in1 with
  | Some (x, c) =>
      if con_not_top c then
        tcon01 ← mul_ring op k t2 (type ph c);
        if singleton tcon01 then
          m ← makecon tcon01;
          ret (Bin (add_opcode op) k (transform ph (Bin op k x in2)) m)
        else this
      else this
  | None => this
  end.

(** The shifts and sums for a product with [con_], which is not zero or one. *)
Definition mul_by_con (k : kind) (in1 in2 : Node) (con_ : Z) : ideal :=
  let sign_flip := con_ <? 0 in
  let con_ := if sign_flip then conv k (- con_) else con_ in
  let bit1 := Z.land con_ (conv k (- con_)) in
  let finish (res : Node) :=
    ret (if sign_flip then Bin Sub k (con k 0) (transform ph res) else res) in
  if bit1 =? con_ then
    l ← log2_k k bit1; finish (Bin LShift k in1 (intcon l))
  else
    let bit2 := conv k (con_ - bit1) in
    let bit2 := Z.land bit2 (conv k (- bit2)) in
    if conv k (bit2 + bit1) =? con_ then
      l1 ← log2_k k bit1;
      l2 ← log2_k k bit2;
      let n1 := transform ph (Bin LShift k in1 (intcon l1)) in
      let n2 := transform ph (Bin LShift k in1 (intcon l2)) in
      finish (Bin Add k n2 n1)
    else if is_power_of_2_k k (conv k (con_ + 1)) then
      let temp := conv k (con_ + 1) in
      l ← log2_k k temp;
      let n1 := transform ph (Bin LShift k in1 (intcon l)) in
      finish (Bin Sub k n1 in1)
    else MulNode_Ideal Mul k in1 in2.

Definition mul_ideal (k : kind) (in1 in2 : Node) : ideal :=
  let con1 := find_con k in1 in
  let con2 := find_con k in2 in
  if negb (con1 =? 0) then
    if con1 =? 1 then none else mul_by_con k in2 in1 con1
  else if con2 =? 0 then MulNode_Ideal Mul k in1 in2
  else if con2 =? 1 then none else mul_by_con k in1 in2 con2.

Definition MulINode_Ideal : Node -> Node -> ideal := mul_ideal KInt.
Definition MulLNode_Ideal : Node -> Node -> ideal := mul_ideal KLong.

(** ** Ideal: masks *)

Definition AndINode_Ideal (can_reshape : bool) (in1 in2 : Node) : ideal :=
  match con_of KInt in2 with
  | None => MulNode_Ideal And KInt in1 in2
  | Some mask =>
      match in1 with
      | Load LoadUS adr =>
          if negb (Z.land (juint mask) 4294901760 =? 0)
          then ret (Bin And KInt in1 (intcon (Z.land mask 65535))) else none
      | _ => none
      end <|>
      (if can_reshape && outcnt_1 ph in1 then
         match in1 with
         | Load LoadS adr =>
             if Z.land (juint mask) 4294901760 =? 0
             then ret (Bin And KInt (transform ph (Load LoadUS adr)) (intcon (Z.land mask 65535))) else none
         | Load LoadB adr =>
             if Z.land (juint mask) 4294967040 =? 0
             then ret (Bin And KInt (transform ph (Load LoadUB adr)) (intcon mask)) else none
         | _ => none
         end
       else none) <|>
      match as_op RShift KInt in1 with
      | Some (x, c) =>
          match con_of KInt c with
          | Some shift =>
              let shift := Z.land shift (32 - 1) in
              let sign_bits_mask := jint (Z.lnot (right_n_bits (32 - shift))) in
              if Z.land sign_bits_mask mask =? 0
              then ret (Bin And KInt (transform ph (Bin URShift KInt x c)) in2) else none
          | None => none
          end
      | None => none
      end <|>
      match as_op Sub KInt in1 with
      | Some (z, x) => if (mask =? 1) && is_zero KInt z then ret (Bin And KInt x in2) else none
      | None => none
      end <|>
      MulNode_Ideal And KInt in1 in2
  end.

(** [(jlong)1 << n]; C++ does not define it for [n] of 64, which the masks of a shift by
    0 ask for, and [undefined] is what it returns. *)
Definition one_shl (undefined n : Z) : Z := if n <? 64 then jlong (Z.shiftl 1 n) else undefined.

Definition AndLNode_Ideal (undefined : Z) (in1 in2 : Node) : ideal :=
  match con_of KLong in2 with
  | None => MulNode_Ideal And KLong in1 in2
  | Some mask =>
      match in1 with
      | ConvI2L x _ =>
          if Z.land mask (-2147483648) =? 0
          then ret (ConvI2L (transform ph (Bin And KInt x (intcon mask))) LONG_INT) else none
      | _ => none
      end <|>
      match as_op RShift KLong in1 with
      | Some (x, c) =>
          match con_of KInt c with
          | Some shift =>
              let shift := Z.land shift (64 - 1) in
              let sign_bits_mask := Z.lnot (jlong (one_shl undefined (64 - shift) - 1)) in
              if Z.land sign_bits_mask mask =? 0
              then ret (Bin And KLong (transform ph (Bin URShift KLong x c)) in2) else none
          | None => none
          end
      | None => none
      end <|>
      MulNode_Ideal And KLong in1 in2
  end.

(** ** Ideal: shifts *)

(** A right shift of either sort. *)
Definition as_right_shift (k : kind) (n : Node) : option (Node * Node) :=
  match as_op RShift k n with Some p => Some p | None => as_op URShift k n end.

Definition lshift_ideal (k : kind) (in1 in2 : Node) : ideal :=
  if is_type (type ph in2) TOP then none else
  match con_of KInt in2 with
  | None => none
  | Some c =>
      let con_ := Z.land c (bits k - 1) in
      if con_ =? 0 then none else
      match as_op Add k in1 with
      | Some (x, c1) =>
          match con_of k c1 with
          | Some z =>
              if match k with KInt => con_ <? 16 | KLong => true end
              then ret (Bin Add k (transform ph (Bin LShift k x in2)) (con k (Z.shiftl z con_))) else none
          | None => none
          end
      | None => none
      end <|>
      match as_right_shift k in1 with
      | Some (x, c0) =>
          if eqv ph c0 in2 then ret (Bin And k x (con k (- conv k (Z.shiftl 1 con_)))) else none
      | None => none
      end <|>
      match as_op And k in1 with
      | Some (add2, y) =>
          match as_right_shift k add2 with
          | Some (x, c0) =>
              if eqv ph c0 in2 then ret (Bin And k x (transform ph (Bin LShift k y in2))) else none
          | None => none
          end
      | None => none
      end <|>
      match as_op And k in1 with
      | Some (x, m) =>
          if is_type (type ph m) (con_type k (low_bits k (bits k - con_)))
          then ret (Bin LShift k x in2) else none
      | None => none
      end
  end.

Definition LShiftINode_Ideal : Node -> Node -> ideal := lshift_ideal KInt.
Definition LShiftLNode_Ideal : Node -> Node -> ideal := lshift_ideal KLong.

Definition RShiftINode_Ideal (can_reshape : bool) (in1 in2 : Node) : ideal :=
  match isa KInt (type ph in1), con_of KInt in2 with
  | Some _, Some c =>
      let shift := Z.land c (32 - 1) in
      if shift =? 0 then none else
      match as_op And KInt in1 with
      | Some (x, m) =>
          match con_of KInt m with
          | Some maskbits =>
              ret (Bin And KInt (transform ph (Bin RShift KInt x in2)) (intcon (Z.shiftr maskbits shift)))
          | None => none
          end
      | None => none
      end <|>
      match as_op LShift KInt in1 with
      | None => none
      | Some (ld, c1) =>
          match con_of KInt c1 with
          | Some c3 =>
              (if (shift =? 16) && (c3 =? 16) then
                 match ld with
                 | Load LoadS _ => ret (Bin RShift KInt ld (intcon 0))
                 | Load LoadUS adr => if can_reshape && outcnt_1 ph ld then ret (Load LoadS adr) else none
                 | _ => none
                 end
               else none) <|>
              (if (shift =? 24) && (c3 =? 24) then
                 match ld with
                 | Load LoadB _ => ret (Bin RShift KInt ld (intcon 0))
                 | _ => none
                 end
               else none)
          | None => none
          end
      end
  | _, _ => none
  end.

Definition urshift_ideal (k : kind) (in1 in2 : Node) : ideal :=
  match isa KInt (type ph in2) with
  | None => none
  | Some t2 =>
      if negb (is_con t2) then none else
      let con_ := Z.land (get_con t2) (bits k - 1) in
      if con_ =? 0 then none else
      let mask := low_bits k (bits k - con_) in
      match k, as_op URShift k in1 with
      | KInt, Some (x, c) =>
          match con_of KInt c with
          | Some c =>
              let con2 := Z.land c 31 in
              let con3 := con_ + con2 in
              if con3 <? 32 then ret (Bin URShift k x (intcon con3)) else none
          | None => none
          end
      | _, _ => none
      end <|>
      match as_op Add k in1 with
      | Some (lshl, y) =>
          match as_op LShift k lshl with
          | Some (x, z) =>
              if is_type (type ph z) (Num KInt t2) then
                let y_z := transform ph (Bin URShift k y in2) in
                let sum := transform ph (Bin Add k x y_z) in
                ret (Bin And k sum (con k mask))
              else none
          | None => none
          end
      | None => none
      end <|>
      match as_op And k in1 with
      | Some (x, m) =>
          match con_of k m with
          | Some mask2 =>
              ret (Bin And k (transform ph (Bin URShift k x in2)) (con k (Z.shiftr mask2 con_)))
          | None => none
          end
      | None => none
      end <|>
      match as_op LShift k in1 with
      | Some (x, z) => if is_type (type ph z) (Num KInt t2) then ret (Bin And k x (con k mask)) else none
      | None => none
      end
  end.

Definition URShiftINode_Ideal : Node -> Node -> ideal := urshift_ideal KInt.
Definition URShiftLNode_Ideal : Node -> Node -> ideal := urshift_ideal KLong.

(** The method of the node's class, for the operations whose rewritings are exact;
    quotients and remainders are in IdealDivide, and minima are apart. *)
Definition Ideal (can_reshape : bool) (undefined : Z) (op : arith) (k : kind) (in1 in2 : Node) : ideal :=
  match op, k with
  | Add, KInt => AddINode_Ideal in1 in2
  | Add, KLong => AddLNode_Ideal in1 in2
  | Sub, KInt => SubINode_Ideal in1 in2
  | Sub, KLong => SubLNode_Ideal in1 in2
  | Mul, KInt => MulINode_Ideal in1 in2
  | Mul, KLong => MulLNode_Ideal in1 in2
  | And, KInt => AndINode_Ideal can_reshape in1 in2
  | And, KLong => AndLNode_Ideal undefined in1 in2
  | Or, _ | Xor, _ | Max, _ => AddNode_Ideal op k in1 in2
  | LShift, KInt => LShiftINode_Ideal in1 in2
  | LShift, KLong => LShiftLNode_Ideal in1 in2
  | RShift, KInt => RShiftINode_Ideal can_reshape in1 in2
  | URShift, KInt => URShiftINode_Ideal in1 in2
  | URShift, KLong => URShiftLNode_Ideal in1 in2
  | RShift, KLong | Div, _ | Mod, _ | Min, _ | Cmp, _ | MulHi, _ => none
  end.

End Methods.

End IdealTransform.
