(* ===== verification/IdealIdentityTheorems.v ===== *)
(** A node that [Identity] returns in the place of another computes the same value. *)
From S2P Require Import Prelude GlobalDefinitions IdealType IdealTypeTheorems IdealNode IdealValue IdealRings IdealValueTheorems IdealComputes IdealDivide IdealDivideTheorems IdealTransform.
Import GlobalDefinitions IdealType IdealTypeTheorems IdealNode IdealValue IdealRings IdealValueTheorems.
Import IdealComputes IdealDivide IdealDivideTheorems IdealTransform.

Module IdealIdentityTheorems.

(** ** Queries of the phase *)

Lemma as_op_Some op k n a b : as_op op k n = Some (a, b) -> n = Bin op k a b.
Proof.
  destruct n; try done. simpl. destruct (bool_decide _) eqn:Ho, (bool_decide (k = _)) eqn:Hk; try done.
  apply bool_decide_eq_true_1 in Ho, Hk. intros [= -> ->]. by subst.
Qed.

Section Queries.
Context (ph : PhaseGVN) (e : env) `{!PhaseSound ph e}.

Lemma computes_kind op k k' a b v :
  op <> Cmp -> computes ph e (Bin op k' a b) k v -> k' = k.
Proof using. intros ? (_ & ? & _). by destruct op. Qed.

Lemma con_of_value k n v c : computes ph e n k v -> con_of ph k n = Some c -> v = c.
Proof.
  intros Hn Hc. unfold con_of in Hc. destruct (isa k (type ph n)) as [r|] eqn:Hi; [| done].
  destruct (is_con r) eqn:Hr; [| done]. simplify_eq.
  apply con_value; [done |]. eapply isa_value; [by eapply computes_type | done].
Qed.

Lemma higher_equal_value k n v c :
  computes ph e n k v -> higher_equal (type ph n) (con_type k c) = true -> min_j k <= c <= max_j k -> v = c.
Proof. intros Hn Hhe Hc. eapply higher_equal_con; [by eapply computes_type | done | done]. Qed.

Lemma type_value k n v c : computes ph e n k v -> is_type (type ph n) (con_type k c) = true -> v = c.
Proof.
  intros Hn Ht%is_type_true. apply (is_type_con k). rewrite <- Ht. by eapply computes_type.
Qed.

Lemma find_con_value k n v : computes ph e n k v -> find_con ph k n <> 0 -> v = find_con ph k n.
Proof.
  intros (Hw & <- & <-). unfold find_con. destruct (isa _ (find_type ph n)) as [r|] eqn:Hi; [| done].
  destruct (is_con r) eqn:Hr; [| done]. intros _. apply con_value; [done |].
  eapply isa_value; [| done]. split; [by eapply find_type_wf | by apply find_type_sound].
Qed.

Lemma eqv_value k n m v w : eqv ph n m = true -> computes ph e n k v -> computes ph e m k w -> v = w.
Proof. intros H%(eqv_same (e := e)) (_ & _ & <-) (_ & _ & <-). by subst. Qed.

End Queries.

(** The inputs of a node that was found by its opcode. *)
Ltac take_inputs :=
  repeat match goal with
  | H : as_op _ _ _ = Some (_, _) |- _ => apply as_op_Some in H; subst
  end;
  repeat match goal with
  | H : computes _ _ (Bin ?op ?k _ _) ?k _ |- _ =>
      let Ha := fresh "Ha" in let Hb := fresh "Hb" in let E := fresh "E" in
      apply computes_inputs in H as (Ha & Hb & E); [cbn [is_shift] in Hb; subst | done | done]
  end.

(** ** Masks *)

Lemma low_bits_ones k n : 0 <= n < bits k -> low_bits k n = Z.ones n.
Proof.
  intros Hn. pose proof (pow2_pos n ltac:(lia)).
  assert (Z.ones n <= max_j k).
  { rewrite Z.ones_equiv. unfold max_j. pose proof (Z.pow_le_mono_r 2 n (bits k - 1)). lia. }
  assert (min_j k <= Z.ones n) by (rewrite Z.ones_equiv; pose proof (zero_range k); lia).
  destruct k; unfold low_bits; simpl bits in Hn.
  - rewrite right_n_bits_ones by lia. by apply (conv_small KInt).
  - change (conv KLong (conv KLong (Z.shiftl 1 n) - 1) = Z.ones n).
    rewrite conv_sub_l, Z.shiftl_1_l, Z.sub_1_r, <- Z.ones_equiv. by apply conv_small.
Qed.

(** A number of the lower bits is not changed by a mask that has them all. *)
Lemma land_all_bits j x c : 0 <= j -> 0 <= x < 2 ^ j -> Z.land (Z.ones j) c = Z.ones j -> Z.land x c = x.
Proof.
  intros Hj Hx Hc. assert (Z.land x (Z.ones j) = x) as E by (rewrite Z.land_ones, Z.mod_small; done).
  rewrite <- E at 1. by rewrite <- Z.land_assoc, Hc.
Qed.

Lemma support_spec k hi :
  0 <= hi <= max_j k -> exists j, 0 <= j /\ support k hi = Some (Z.ones j) /\ hi < 2 ^ j.
Proof.
  intros Hhi. unfold support. rewrite log2_k_spec. unfold uintptr_t.
  rewrite wrap_small by (unfold in_unsigned; clear - Hhi; width k; lia). cbn [mbind option_bind].
  pose proof (bits_pos k). destruct (Z.eqb_spec hi 0) as [->|].
  - exists 0. rewrite low_bits_ones by (simpl; lia). done.
  - exists (1 + Z.log2 hi). pose proof (Z.log2_spec hi ltac:(lia)). pose proof (Z.log2_nonneg hi).
    assert (Z.log2 hi < bits k - 1) by (apply Z.log2_lt_pow2; unfold max_j in Hhi; lia).
    rewrite low_bits_ones by lia. split_and!; [lia | done |]. rewrite Z.add_1_l. lia.
Qed.

(** What an unsigned shift leaves. *)
Lemma ushr_bits k z s :
  0 <= s < bits k -> min_j k <= z <= max_j k -> forall c,
  let mask := conv k (Z.shiftr (max_ju k) s) in
  Z.land mask c = mask -> Z.land (ushr k z s) c = ushr k z s.
Proof.
  intros Hs Hz c mask Hc. destruct (Z.eq_dec s 0) as [->|].
  - assert (mask = -1) as Em by (subst mask; by destruct k). rewrite Em, Z.land_m1_l in Hc.
    by rewrite Hc, Z.land_m1_r.
  - destruct (ushr_spec k z s ltac:(lia) Hz) as [E Hr].
    assert (mask = Z.ones (bits k - s)) as Em.
    { subst mask. unfold max_ju. rewrite Z.sub_1_r, <- Z.ones_equiv, Z.shiftr_div_pow2, Z.ones_div_pow2 by lia.
      rewrite <- (low_bits_ones k (bits k - s)) by lia. apply conv_small.
      rewrite (low_bits_ones k (bits k - s)) by lia.
      rewrite Z.ones_equiv. unfold min_j, max_j. pose proof (pow2_pos (bits k - s) ltac:(lia)).
      pose proof (Z.pow_le_mono_r 2 (bits k - s) (bits k - 1)). lia. }
    rewrite Em in Hc. apply (land_all_bits (bits k - s)); [lia | | done]. split; [lia |].
    rewrite E. apply Z.div_lt_upper_bound; [apply pow2_pos; lia |]. rewrite <- Z.pow_add_r by lia.
    replace (s + (bits k - s)) with (bits k) by lia. unfold min_j, max_j in Hz.
    assert (2 ^ bits k = 2 * 2 ^ (bits k - 1)) by by destruct k. destruct (Z.ltb_spec z 0); lia.
Qed.

(** ** Values that stay *)

(** The node [n] is [this], or a node of the graph that computes [v]. *)
Definition stays (ph : PhaseGVN) (e : env) (this n : Node) (k : kind) (v : Z) : Prop :=
  n = this \/ computes ph e n k v.

Lemma stays_eq ph e this n k v w : computes ph e n k w -> w = v -> stays ph e this n k v.
Proof. intros H <-. by right. Qed.

Section Identity.
Context (ph : PhaseGVN) (e : env) `{!PhaseSound ph e}.
Context (k : kind) (in1 in2 : Node) (a b : Z).

Lemma add_identity op :
  op = Add \/ op = Or \/ op = Xor \/ op = Max \/ op = Min ->
  computes ph e in1 k a -> computes ph e in2 k b ->
  stays ph e (Bin op k in1 in2) (AddNode_Identity ph op k in1 in2) k (eval_bin op k a b).
Proof using All.
  intros Hop H1 H2. pose proof (computes_range _ _ _ _ _ H1). pose proof (computes_range _ _ _ _ _ H2).
  pose proof (zero_range k) as (Hz & _ & _).
  unfold AddNode_Identity. destruct (higher_equal (type ph in1) _) eqn:Hhe.
  { eapply stays_eq; [exact H2 |]; symmetry.
    destruct Hop as [->|[->|[->|[->| ->]]]]; cbn [eval_bin].
    - rewrite (higher_equal_value ph e k _ _ 0 H1 Hhe ltac:(lia)). by rewrite conv_small.
    - rewrite (higher_equal_value ph e k _ _ 0 H1 Hhe ltac:(lia)). by rewrite Z.lor_0_l, conv_small.
    - rewrite (higher_equal_value ph e k _ _ 0 H1 Hhe ltac:(lia)). by rewrite Z.lxor_0_l, conv_small.
    - rewrite (higher_equal_value ph e k _ _ (min_j k) H1 Hhe ltac:(lia)). by rewrite Z.max_r, conv_small by lia.
    - rewrite (higher_equal_value ph e k _ _ (max_j k) H1 Hhe ltac:(lia)). by rewrite Z.min_r, conv_small by lia. }
  destruct (higher_equal (type ph in2) _) eqn:Hhe2.
  { eapply stays_eq; [exact H1 |]; symmetry.
    destruct Hop as [->|[->|[->|[->| ->]]]]; cbn [eval_bin].
    - rewrite (higher_equal_value ph e k _ _ 0 H2 Hhe2 ltac:(lia)). by rewrite Z.add_0_r, conv_small.
    - rewrite (higher_equal_value ph e k _ _ 0 H2 Hhe2 ltac:(lia)). by rewrite Z.lor_0_r, conv_small.
    - rewrite (higher_equal_value ph e k _ _ 0 H2 Hhe2 ltac:(lia)). by rewrite Z.lxor_0_r, conv_small.
    - rewrite (higher_equal_value ph e k _ _ (min_j k) H2 Hhe2 ltac:(lia)). by rewrite Z.max_l, conv_small by lia.
    - rewrite (higher_equal_value ph e k _ _ (max_j k) H2 Hhe2 ltac:(lia)). by rewrite Z.min_l, conv_small by lia. }
  by left.
Qed.

Lemma add_sub_identity :
  computes ph e in1 k a -> computes ph e in2 k b ->
  stays ph e (Bin Add k in1 in2) (AddINode_Identity ph k in1 in2) k (conv k (a + b)).
Proof using All.
  intros H1 H2. pose proof (add_identity Add ltac:(by left) H1 H2) as Hlast. simpl in Hlast.
  assert (forall x y, as_op Sub k in1 = Some (x, y) -> eqv ph y in2 = true -> stays ph e (Bin Add k in1 in2) x k (conv k (a + b))) as Hl.
  { intros x y Hs He. take_inputs. pose proof (eqv_value _ _ _ _ _ _ _ He Hb H2) as <-. simpl.
    eapply stays_eq; [exact Ha |]. rewrite conv_add_l, Z.sub_add. symmetry. by eapply computes_conv. }
  assert (forall x y, as_op Sub k in2 = Some (x, y) -> eqv ph y in1 = true -> stays ph e (Bin Add k in1 in2) x k (conv k (a + b))) as Hr.
  { intros x y Hs He. take_inputs. pose proof (eqv_value _ _ _ _ _ _ _ He Hb H1) as <-. simpl.
    eapply stays_eq; [exact Ha |]. rewrite conv_add_r, Z.add_comm, Z.sub_add. symmetry. by eapply computes_conv. }
  unfold AddINode_Identity.
  destruct (as_op Sub k in1) as [[x y]|], (as_op Sub k in2) as [[x' y']|]; try done;
    repeat case_match; eauto.
Qed.

Lemma or_identity :
  computes ph e in1 k a -> computes ph e in2 k b ->
  stays ph e (Bin Or k in1 in2) (OrNode_Identity ph k in1 in2) k (conv k (Z.lor a b)).
Proof using All.
  intros H1 H2. unfold OrNode_Identity. destruct (eqv ph in1 in2) eqn:He.
  - rewrite <- (eqv_value _ _ _ _ _ _ _ He H1 H2), Z.lor_diag. right. by rewrite (computes_conv _ _ _ _ _ H1).
  - apply (add_identity Or); tauto.
Qed.

Lemma sub_identity :
  computes ph e in1 k a -> computes ph e in2 k b ->
  stays ph e (Bin Sub k in1 in2) (SubNode_Identity ph k in1 in2) k (conv k (a - b)).
Proof using All.
  intros H1 H2. pose proof (zero_range k) as (Hz & _ & _). unfold SubNode_Identity.
  set (last := if higher_equal (type ph in2) _ then _ else _).
  assert (stays ph e (Bin Sub k in1 in2) last k (conv k (a - b))) as Hlast.
  { subst last. destruct (higher_equal (type ph in2) _) eqn:Hhe; [| by left].
    rewrite (higher_equal_value ph e k _ _ 0 H2 Hhe ltac:(lia)), Z.sub_0_r. right. by rewrite (computes_conv _ _ _ _ _ H1). }
  set (sums := match as_op Add KInt in1 with Some _ => _ | None => _ end).
  assert (stays ph e (Bin Sub k in1 in2) sums k (conv k (a - b))) as Hsums.
  { subst sums. destruct (as_op Add KInt in1) as [[x y]|] eqn:Ha; [| done]. apply as_op_Some in Ha. subst in1.
    pose proof (computes_kind ph e Add k KInt x y a ltac:(done) H1). subst k. take_inputs. cbn [eval_bin].
    destruct (eqv ph y in2) eqn:Hy.
    { rewrite <- (eqv_value _ _ _ _ _ _ _ Hy Hb H2). eapply stays_eq; [done |].
      rewrite conv_sub_l, Z.add_simpl_r. symmetry. by eapply computes_conv. }
    destruct (eqv ph x in2) eqn:Hx.
    { rewrite <- (eqv_value _ _ _ _ _ _ _ Hx Ha H2). eapply stays_eq; [done |].
      rewrite conv_sub_l, Z.add_simpl_l. symmetry. by eapply computes_conv. }
    destruct y; try done. destruct (eqv ph y in2) eqn:Hy'; [| done].
    assert (eval e y = b) as <- by (apply (eqv_same (e := e)) in Hy'; subst y; apply H2).
    eapply stays_eq; [done |]. cbn [eval]. rewrite conv_sub_l, Z.add_simpl_r. symmetry. by eapply computes_conv. }
  destruct (as_op Sub k in2) as [[z x]|] eqn:Hs; [| done]. destruct (_ && _) eqn:Hc; [| done].
  apply andb_prop in Hc as [Hc1 Hc2]. take_inputs.
  rewrite (higher_equal_value ph e k _ _ 0 H1 Hc1 ltac:(lia)). cbn [eval_bin].
  rewrite (higher_equal_value ph e k _ _ 0 Ha Hc2 ltac:(lia)).
  eapply stays_eq; [done |]. rewrite conv_sub_r. replace (0 - (0 - eval e x)) with (eval e x) by lia.
  symmetry. by eapply computes_conv.
Qed.

Lemma mul_identity op :
  op = Mul \/ op = And -> computes ph e in1 k a -> computes ph e in2 k b ->
  stays ph e (Bin op k in1 in2) (MulNode_Identity ph op k in1 in2) k (eval_bin op k a b).
Proof using All.
  intros Hop H1 H2. pose proof (computes_conv _ _ _ _ _ H1). pose proof (computes_conv _ _ _ _ _ H2).
  pose proof (zero_range k) as (_ & Hone & Hm). unfold MulNode_Identity.
  destruct (higher_equal (type ph in1) _) eqn:Hhe.
  { eapply stays_eq; [exact H2 |]; symmetry.
    destruct Hop as [->| ->]; cbn [eval_bin].
    - rewrite (higher_equal_value ph e k _ _ 1 H1 Hhe ltac:(lia)). by rewrite Z.mul_1_l.
    - rewrite (higher_equal_value ph e k _ _ (-1) H1 Hhe ltac:(lia)). by rewrite Z.land_m1_l. }
  destruct (higher_equal (type ph in2) _) eqn:Hhe2.
  { eapply stays_eq; [exact H1 |]; symmetry.
    destruct Hop as [->| ->]; cbn [eval_bin].
    - rewrite (higher_equal_value ph e k _ _ 1 H2 Hhe2 ltac:(lia)). by rewrite Z.mul_1_r.
    - rewrite (higher_equal_value ph e k _ _ (-1) H2 Hhe2 ltac:(lia)). by rewrite Z.land_m1_r. }
  by left.
Qed.

Lemma and_identity :
  computes ph e in1 k a -> computes ph e in2 k b ->
  exists n, AndNode_Identity ph k in1 in2 = Some n /\ stays ph e (Bin And k in1 in2) n k (conv k (Z.land a b)).
Proof using All.
  intros H1 H2. pose proof (computes_range _ _ _ _ _ H1) as R1. unfold AndNode_Identity.
  assert (stays ph e (Bin And k in1 in2) (MulNode_Identity ph And k in1 in2) k (conv k (Z.land a b))) as Hlast
    by (apply (mul_identity And); tauto).
  destruct (eqv ph in1 in2) eqn:He.
  { eexists. split; [done |]. rewrite <- (eqv_value _ _ _ _ _ _ _ He H1 H2), Z.land_diag.
    right. by rewrite (computes_conv _ _ _ _ _ H1). }
  destruct (con_of ph k in2) as [c|] eqn:Hc; [| eauto].
  pose proof (con_of_value _ _ _ _ _ _ H2 Hc). subst c.
  assert (Z.land a b = a -> stays ph e (Bin And k in1 in2) in1 k (conv k (Z.land a b))) as Hsame.
  { intros ->. right. by rewrite (computes_conv _ _ _ _ _ H1). }
  set (t1_support := match isa k (type ph in1) with Some _ => _ | None => _ end).
  assert (exists o, t1_support = Some o /\ forall m, o = Some m -> Z.land m b = m -> Z.land a b = a) as (o & -> & Ho).
  { subst t1_support. destruct (isa k (type ph in1)) as [t1|] eqn:Hi; [| by eexists].
    destruct (sound_isa _ _ _ (computes_type ph e _ _ _ H1)) as (r & _ & Hi' & (? & ? & _) & Hv).
    { apply bool_decide_eq_false_2. intros E. by rewrite E in Hi. }
    rewrite Hi in Hi'. simplify_eq. destruct (Z.leb_spec 0 (_lo r)); [| by eexists].
    destruct (support_spec k (_hi r)) as (j & Hj & -> & Hhi); [lia |].
    eexists. split; [done |]. intros ? [= <-] Hm. apply (land_all_bits j); [done | lia | done]. }
  cbn [mbind option_bind].
  destruct (match o with Some _ => _ | None => _ end) eqn:Hu.
  { destruct o as [m|]; [| done]. eexists. split; [done |]. apply Hsame, (Ho m); [done | lia]. }
  destruct (as_op URShift k in1) as [[x cn]|] eqn:Hs; [| eauto].
  destruct (con_of ph KInt cn) as [shift|] eqn:Hcn; [| eauto].
  destruct (Z.land (conv k _) b =? _) eqn:Hm; [| eauto]. eexists. split; [done |]. apply Hsame. take_inputs.
  rewrite (con_of_value _ _ _ _ _ _ Hb Hcn). apply ushr_bits; [apply shift_count_range | | by apply Z.eqb_eq].
  by eapply computes_range.
Qed.

Lemma shift_is_zero_value op :
  is_shift op = true -> computes ph e in1 k a -> computes ph e in2 KInt b -> shift_is_zero ph k in2 = true ->
  computes ph e in1 k (eval_bin op k a b).
Proof using All.
  intros Hop H1 H2 Hz. eapply computes_eq; [exact H1 |]. symmetry.
  apply shift_zero; [done | by eapply computes_range |]. unfold shift_is_zero in Hz.
  destruct (con_of ph KInt in2) as [c|] eqn:Hc; [| done].
  rewrite (con_of_value _ _ _ _ _ _ H2 Hc). by apply Z.eqb_eq.
Qed.

Lemma simple_shift_identity op :
  is_shift op = true -> computes ph e in1 k a -> computes ph e in2 KInt b ->
  stays ph e (Bin op k in1 in2) (if shift_is_zero ph k in2 then in1 else Bin op k in1 in2) k (eval_bin op k a b).
Proof using All.
  intros Hop H1 H2. destruct (shift_is_zero ph k in2) eqn:Hz; [right; by apply shift_is_zero_value | by left].
Qed.

Lemma div_identity :
  computes ph e in1 k a -> computes ph e in2 k b ->
  stays ph e (Bin Div k in1 in2) (DivNode_Identity ph k in1 in2) k (conv k (Z.quot a b)).
Proof using All.
  intros H1 H2. unfold DivNode_Identity. destruct (higher_equal _ _) eqn:Hhe; [| by left].
  rewrite (higher_equal_value ph e k _ _ 1 H2 Hhe (proj1 (proj2 (zero_range k)))), Z.quot_1_r.
  right. by rewrite (computes_conv _ _ _ _ _ H1).
Qed.

End Identity.

(** A number that fits in the bits above a shift comes back from it. *)
Lemma shift_back s x :
  0 < s < 32 -> - 2 ^ (31 - s) <= x <= 2 ^ (31 - s) - 1 ->
  conv KInt (Z.shiftr (conv KInt (Z.shiftl x s)) s) = x.
Proof.
  intros Hs Hx. pose proof (pow2_pos s ltac:(lia)).
  assert (2 ^ (31 - s) * 2 ^ s = 2 ^ 31) by (rewrite <- Z.pow_add_r by lia; f_equal; lia).
  assert (2 ^ (31 - s) <= 2 ^ 31) by (apply Z.pow_le_mono_r; lia).
  assert (min_j KInt <= x * 2 ^ s <= max_j KInt).
  { change (- 2 ^ 31 <= x * 2 ^ s <= 2 ^ 31 - 1). nia. }
  rewrite Z.shiftl_mul_pow2, (conv_small KInt (x * 2 ^ s)), Z.shiftr_div_pow2, Z.div_mul by lia.
  apply conv_small. change (- 2 ^ 31 <= x <= 2 ^ 31 - 1). lia.
Qed.

Section ShiftIdentity.
Context (ph : PhaseGVN) (e : env) `{!PhaseSound ph e}.
Context (in1 in2 : Node) (a b : Z) (H1 : computes ph e in1 KInt a) (H2 : computes ph e in2 KInt b).

Lemma rshift_int_identity :
  stays ph e (Bin RShift KInt in1 in2) (RShiftINode_Identity ph in1 in2) KInt (eval_bin RShift KInt a b).
Proof using All.
  unfold RShiftINode_Identity.
  assert (stays ph e (Bin RShift KInt in1 in2) (Bin RShift KInt in1 in2) KInt (eval_bin RShift KInt a b)) as Hthis by by left.
  destruct (isa KInt (type ph in2)) as [t2|] eqn:Hi; [| done].
  destruct (is_con t2) eqn:Hcon; [simpl andb |].
  2: { simpl andb. cbv iota. destruct (as_op LShift KInt in1) as [[x c]|]; [| done]. by rewrite andb_false_r. }
  assert (get_con t2 = b) as -> by (symmetry; apply con_value, (isa_value _ _ _ _ (computes_type ph e _ _ _ H2) Hi); done).
  destruct (Z.eqb_spec (Z.land b (32 - 1)) 0) as [Hz|Hnz].
  { eapply stays_eq; [exact H1 |]. symmetry. apply shift_zero; [done | by eapply computes_range | done]. }
  destruct (as_op LShift KInt in1) as [[x c]|] eqn:Hl; [| done].
  destruct (eqv ph c in2) eqn:He; simpl andb; cbv iota; [| done].
  destruct (isa KInt (type ph x)) as [t11|] eqn:Hx; [| done].
  destruct ((_ <=? _) && _) eqn:Hfit; [| done]. clear Hthis. apply as_op_Some in Hl. subst in1. take_inputs.
  pose proof (isa_value _ _ _ _ (computes_type ph e _ _ _ Ha) Hx) as Hv.
  rewrite (eqv_value _ _ _ _ _ _ _ He Hb H2). eapply stays_eq; [exact Ha |]. symmetry. cbn [eval_bin].
  pose proof (shift_count_range KInt b) as Hs. change (shift_count KInt b) with (Z.land b (32 - 1)) in *.
  set (s := Z.land b (32 - 1)) in *. change (bits KInt) with 32 in Hs. apply shift_back; [lia |].
  assert (jint (Z.shiftl (-1) (32 - s - 1)) = - 2 ^ (31 - s)) as E.
  { rewrite Z.shiftl_mul_pow2 by lia. replace (32 - s - 1) with (31 - s) by lia.
    assert (0 < 2 ^ (31 - s) <= 2 ^ 31) by (split; [apply pow2_pos; lia | apply Z.pow_le_mono_r; lia]).
    replace (-1 * 2 ^ (31 - s)) with (- 2 ^ (31 - s)) by lia.
    apply (conv_small KInt). change (- 2 ^ 31 <= - 2 ^ (31 - s) <= 2 ^ 31 - 1). lia. }
  rewrite E in Hfit. unfold Z.lnot in Hfit. apply andb_prop in Hfit as [?%Z.leb_le ?%Z.leb_le]. lia.
Qed.

Lemma urshift_int_identity :
  stays ph e (Bin URShift KInt in1 in2) (URShiftINode_Identity ph in1 in2) KInt (eval_bin URShift KInt a b).
Proof using All.
  unfold URShiftINode_Identity.
  destruct (shift_is_zero ph KInt in2) eqn:Hz; [right; by apply shift_is_zero_value with in2 |].
  set (last := if higher_equal _ _ then _ else _).
  assert (stays ph e (Bin URShift KInt in1 in2) last KInt (eval_bin URShift KInt a b)) as Hlast.
  { subst last. destruct (higher_equal _ _) eqn:Hhe; [| by left].
    eapply stays_eq; [exact H1 |]. symmetry. apply shift_zero; [done | by eapply computes_range |].
    by rewrite (higher_equal_value ph e KInt _ _ 0 H2 Hhe ltac:(done)). }
  clearbody last. destruct (as_op Add KInt in1) as [[add1 add2]|] eqn:Hadd; [| done].
  destruct (con_of ph KInt add2) as [c|] eqn:Hc; [| done].
  destruct (as_op LShift KInt add1) as [[x lc]|] eqn:Hl; [| done].
  destruct (Z.eqb_spec c (wordSize - 1)) as [->|]; simpl negb; cbv iota; [| done].
  destruct (con_of ph KInt lc) as [l|] eqn:Hlc; [| done].
  destruct (_ && _) eqn:Hs; [| done]. destruct (isa KInt (type ph x)) as [t_x|] eqn:Hx; [| done].
  destruct ((0 <=? _) && _) eqn:Hr; [| done].
  apply as_op_Some in Hadd, Hl. subst in1 add1. take_inputs.
  apply andb_prop in Hs as [->%Z.eqb_eq Ht%is_type_true].
  pose proof (isa_value _ _ _ _ (computes_type ph e _ _ _ Ha0) Hx) as Hv.
  pose proof (con_of_value _ _ _ _ _ _ Hb0 Hlc) as El.
  assert (b = LogBytesPerWord) as ->.
  { apply (con_of_value ph e KInt in2 b); [done |]. unfold con_of in *. by rewrite <- Ht. }
  cbn [eval]. rewrite (con_of_value _ _ _ _ _ _ Hb Hc), El. eapply stays_eq; [exact Ha0 |]. symmetry.
  change (Z.shiftr (max_j KInt) LogBytesPerWord) with 268435455 in Hr.
  apply andb_prop in Hr as [?%Z.leb_le ?%Z.leb_le]. change (wordSize - 1) with 7.
  cbn [eval_bin]. change (shift_count KInt LogBytesPerWord) with 3.
  rewrite Z.shiftl_mul_pow2 by done. change (2 ^ 3) with 8.
  assert (forall z, 0 <= z <= 2147483647 -> conv KInt z = z) as Hsmall.
  { intros z Hz'. apply conv_small. change (-2147483648 <= z <= 2147483647). lia. }
  rewrite (Hsmall (_ * 8)), (Hsmall (_ + 7)) by lia.
  rewrite wrap_small by (unfold in_unsigned; simpl; lia). rewrite Z.shiftr_div_pow2 by done. change (2 ^ 3) with 8.
  assert ((eval e x * 8 + 7) / 8 = eval e x) as -> by (rewrite Z.div_add_l by lia; change (7 / 8) with 0; lia).
  apply Hsmall. lia.
Qed.

End ShiftIdentity.

(** The method of any operation with two inputs. *)
Lemma identity_stays ph e op k in1 in2 :
  PhaseSound ph e -> fresh ph e (Bin op k in1 in2) ->
  exists n, Identity ph op k in1 in2 = Some n /\
    stays ph e (Bin op k in1 in2) n (kind_of (Bin op k in1 in2)) (eval e (Bin op k in1 in2)).
Proof.
  intros Hph Hf. destruct (fresh_inputs ph e op k in1 in2 Hf) as (H1 & H2 & _).
  change (eval e (Bin op k in1 in2)) with (eval_bin op k (eval e in1) (eval e in2)).
  destruct op; cbn [is_shift] in *; cbn [Identity kind_of].
  all: try (by eexists; split; [done | left]).
  all: try (eexists; split; [done |]; apply add_identity; tauto).
  - eexists. split; [done |]. by apply add_sub_identity.
  - eexists. split; [done |]. by apply sub_identity.
  - eexists. split; [done |]. apply mul_identity; tauto.
  - by apply and_identity.
  - eexists. split; [done |]. by apply or_identity.
  - eexists. split; [done |]. by apply simple_shift_identity.
  - destruct k; (eexists; split; [done |]); [by apply rshift_int_identity | by apply simple_shift_identity].
  - destruct k; (eexists; split; [done |]); [by apply urshift_int_identity | by apply simple_shift_identity].
  - eexists. split; [done |]. by apply div_identity.
Qed.

(** C28.  Identities.  For every new node for integer arithmetic, in every phase that is sound for an
    execution, [Identity] returns, and what it returns is the node itself or a node of
    the graph of the same kind that computes the same value. *)
Theorem identity_sound ph e op k in1 in2 :
  PhaseSound ph e -> fresh ph e (Bin op k in1 in2) ->
  exists n, Identity ph op k in1 in2 = Some n /\
    stays ph e (Bin op k in1 in2) n (kind_of (Bin op k in1 in2)) (eval e (Bin op k in1 in2)).
Proof. apply identity_stays. Qed.

(** Taking a difference off the sum it is part of, and masking an unsigned shift. *)
Lemma identity_sound_witness :
  let e := mkEnv (fun _ n => Z.of_nat n + 5) (fun _ => 0) in
  let x := Leaf KInt 0 in let y := Leaf KInt 1 in
  let shifted := Bin URShift KInt x (Con KInt 24) in
  Identity simple_phase Add KInt (Bin Sub KInt x y) y = Some x /\
  eval e (Bin Add KInt (Bin Sub KInt x y) y) = eval e x /\
  Identity simple_phase And KInt shifted (Con KInt 255) = Some shifted /\
  eval e (Bin And KInt shifted (Con KInt 255)) = eval e shifted.
Proof.
  intros e x y shifted.
  assert (Identity simple_phase Add KInt (Bin Sub KInt x y) y = Some x) as E1 by (vm_compute; reflexivity).
  assert (Identity simple_phase And KInt shifted (Con KInt 255) = Some shifted) as E2 by (vm_compute; reflexivity).
  destruct (identity_sound simple_phase e Add KInt (Bin Sub KInt x y) y) as (n & Hn & Hs);
    [apply simple_phase_sound | repeat split; discriminate |].
  destruct (identity_sound simple_phase e And KInt shifted (Con KInt 255)) as (m & Hm & Ht);
    [apply simple_phase_sound | repeat split; discriminate |].
  rewrite E1 in Hn. rewrite E2 in Hm. injection Hn as <-. injection Hm as <-.
  destruct Hs as [Hs|(_ & _ & Ev)]; [discriminate |]. destruct Ht as [Ht|(_ & _ & Em)]; [discriminate |].
  split; [exact E1 |]. split; [symmetry; exact Ev |]. split; [exact E2 | symmetry; exact Em].
Defined.

End IdealIdentityTheorems.
