(* ===== verification/IdealTransformTheorems.v ===== *)
(** A node that [Ideal] rewrites computes the same value: sums, differences, products and
    masks. *)
From S2P Require Import Prelude GlobalDefinitions IdealType IdealTypeTheorems IdealNode IdealValue IdealRings IdealValueTheorems IdealComputes IdealDivide IdealDivideTheorems IdealTransform IdealIdentityTheorems.
Import GlobalDefinitions IdealType IdealTypeTheorems IdealNode IdealValue IdealRings IdealValueTheorems.
Import IdealComputes IdealDivide IdealDivideTheorems IdealTransform IdealIdentityTheorems.

Module IdealTransformTheorems.

(** ** Rewritings that keep a value *)

(** The method returns, and a node it returns computes [v]. *)
Definition keeps (ph : PhaseGVN) (e : env) (k : kind) (v : Z) (r : ideal) : Prop :=
  exists x, r = Some x /\ forall q, x = Some q -> builds ph e q k v.

Lemma keeps_none ph e k v : keeps ph e k v none.
Proof. by exists None. Qed.
Lemma keeps_ret ph e k v n : builds ph e n k v -> keeps ph e k v (ret n).
Proof. intros H. exists (Some n). split; [done |]. by intros ? [= <-]. Qed.
Lemma keeps_or_else ph e k v a b : keeps ph e k v a -> keeps ph e k v b -> keeps ph e k v (a <|> b).
Proof. intros ([n|] & -> & Ha) Hb; [by exists (Some n) | done]. Qed.

Create HintDb keeps.
#[export] Hint Resolve keeps_none keeps_ret keeps_or_else : keeps.

(** The nodes of a graph, each by its rule. *)
Ltac graph :=
  repeat first
    [ eassumption
    | apply computes_transform; [assumption |]
    | apply computes_con; assumption
    | eapply builds_shift; [reflexivity | |]
    | eapply builds_bin; [reflexivity | |] ].

Ltac keep_ret :=
  apply keeps_ret; eapply builds_eq; [graph |]; cbn [eval eval_bin];
  repeat match goal with E : eval _ ?n = _ |- context [eval _ ?n] => rewrite E end.

(** Nodes that the phase calls equal, and inputs of nodes found by their opcodes. *)
Ltac take_equal e :=
  repeat match goal with
  | H : eqv _ _ _ = true |- _ => apply (eqv_same (e := e)) in H; subst
  end.

Section Constants.
Context (ph : PhaseGVN) (e : env) `{!PhaseSound ph e}.

(** The type of a known constant. *)
Definition const_type (k : kind) (t : Type_) (v : Z) : Prop :=
  exists r, t = Num k r /\ range_wf k r /\ is_con r = true /\ get_con r = v.

Lemma sound_const k v t : sound k v t -> singleton t = true -> const_type k t v.
Proof.
  intros [Hwf Hv] Hs. destruct t as [| |k' r]; [done | done |]. destruct Hv as [<- Hv]. exists r.
  simpl in Hs. unfold singleton_range in Hs. unfold is_con, get_con. split_and!; try done; lia.
Qed.

Lemma con_not_top_range k n v : computes ph e n k v -> con_not_top ph n = true -> const_type k (type ph n) v.
Proof. intros Hn [Hs _]%andb_prop. apply sound_const; [by eapply computes_type | done]. Qed.

Lemma makecon_sound k v t :
  sound k v t -> singleton t = true -> exists m, makecon t = Some m /\ computes ph e m k v.
Proof.
  intros [Hwf Hv] Hs. destruct t as [| |k' r]; [done | done |]. destruct Hv as [<- Hv].
  simpl in Hs. unfold makecon. rewrite Hs. unfold singleton_range, empty_range, get_con in *.
  assert (_lo r = v) by lia. rewrite (proj2 (Z.ltb_ge _ _)) by lia.
  eexists. split; [done |]. subst v. apply computes_const; [done |]. destruct Hwf as (? & ? & _). lia.
Qed.

End Constants.

(** ** Associative operations *)

Definition associative (op : arith) : Prop := op = Add \/ op = Or \/ op = Xor \/ op = Max.

Lemma eval_bin_comm op k a b : associative op -> eval_bin op k a b = eval_bin op k b a.
Proof.
  intros [->|[->|[->| ->]]]; simpl; f_equal; [lia | apply Z.lor_comm | apply Z.lxor_comm | lia].
Qed.

Lemma eval_bin_assoc op k a b c :
  associative op -> min_j k <= a <= max_j k -> min_j k <= b <= max_j k -> min_j k <= c <= max_j k ->
  eval_bin op k (eval_bin op k a b) c = eval_bin op k a (eval_bin op k b c).
Proof.
  intros [->|[->|[->| ->]]] Ha Hb Hc; cbn [eval_bin].
  - conv_ring.
  - by rewrite (lor_conv k a b), (lor_conv k b c), Z.lor_assoc.
  - by rewrite (lxor_conv k a b), (lxor_conv k b c), Z.lxor_assoc.
  - rewrite (conv_small k (Z.max a b)), (conv_small k (Z.max b c)) by lia. f_equal. lia.
Qed.

Lemma con_not_bool r : is_con r = true -> is_type (Num KInt r) BOOL = false.
Proof. intros Hc. apply bool_decide_eq_false_2. intros [= ->]. done. Qed.

Lemma singleton_con k z : singleton (con_type k z) = true.
Proof. apply Z.leb_refl. Qed.

Lemma associative_ring op k :
  associative op -> node_class op k -> ring_op op k = true /\ op <> Cmp /\ is_shift op = false.
Proof. intros [->|[->|[->| ->]]] Hc; split_and!; try done. by apply bool_decide_eq_true_2. Qed.

Section AddNode.
Context (ph : PhaseGVN) (e : env) `{!PhaseSound ph e} `{!PhaseFolded ph}.

(** The sum of two constants. *)
Lemma add_ring_con op k n m a b :
  associative op -> node_class op k -> computes ph e n k a -> computes ph e m k b ->
  con_not_top ph n = true -> con_not_top ph m = true ->
  exists t x, add_ring op k (type ph n) (type ph m) = Some t /\ makecon t = Some x /\
    computes ph e x k (eval_bin op k a b).
Proof using All.
  intros Hop Hcl Hn Hm Cn Cm.
  destruct (con_not_top_range ph e k n a Hn Cn) as (r0 & E0 & W0 & C0 & <-).
  destruct (con_not_top_range ph e k m b Hm Cm) as (r1 & E1 & W1 & C1 & <-).
  pose proof (computes_range _ _ _ _ _ Hn). pose proof (computes_range _ _ _ _ _ Hm).
  rewrite E0, E1. unfold add_ring. rewrite !isa_num. cbn [mbind option_bind].
  assert (_lo r0 <= get_con r0 <= _hi r0) as V0 by (unfold is_con, get_con in *; lia).
  assert (_lo r1 <= get_con r1 <= _hi r1) as V1 by (unfold is_con, get_con in *; lia).
  assert (exists t, match op, k with
    | Add, _ => Some (AddNode_add_ring k r0 r1)
    | Or, KInt => Some (OrINode_add_ring r0 r1) | Or, KLong => Some (OrLNode_add_ring r0 r1)
    | Xor, KInt => Some (XorINode_add_ring r0 r1) | Xor, KLong => Some (XorLNode_add_ring r0 r1)
    | Max, KInt => Some (MaxINode_add_ring r0 r1) | Min, KInt => Some (MinINode_add_ring r0 r1)
    | _, _ => None end = Some t /\ sound k (eval_bin op k (get_con r0) (get_con r1)) t /\ singleton t = true)
    as (t & Et & St & Hs).
  { destruct Hop as [->|[->|[->| ->]]]; [| destruct k | destruct k | simpl in Hcl; subst k];
      (eexists; split; [done |]); cbn [eval_bin].
    - split; [by apply add_ring_sound |]. unfold AddNode_add_ring. rewrite C0, C1. simpl.
      unfold is_con in *. apply Z.leb_le. simpl. replace (_hi r0) with (_lo r0) by lia.
      by replace (_hi r1) with (_lo r1) by lia.
    - split; [by apply or_int_sound |]. unfold OrINode_add_ring.
      rewrite !con_not_bool, C0, C1 by done. destruct (is_type _ _); apply singleton_con.
    - split; [by apply or_long_sound |]. unfold OrLNode_add_ring. rewrite C0, C1. apply singleton_con.
    - split; [by apply xor_int_sound |]. unfold XorINode_add_ring. rewrite con_not_bool, C0, C1 by done. apply singleton_con.
    - split; [by apply xor_long_sound |]. unfold XorLNode_add_ring. rewrite C0, C1. apply singleton_con.
    - split; [by apply max_min_sound |]. unfold is_con in *. apply Z.leb_le. simpl. rewrite !MAX2_max. lia. }
  destruct (makecon_sound ph e k _ t St Hs) as (x & Hx & Cx). eauto.
Qed.

Lemma constant_no_op op k n v :
  computes ph e n k v -> con_not_top ph n = true -> as_op op k n = None.
Proof using All.
  intros ((Hr & _) & _) [Hs Ht]%andb_prop. destruct (constant_folded n Hr Hs) as (k' & z & ->); [| done].
  intros E. rewrite E in Ht. done.
Qed.

(** Pushing the constant of a right operand. *)
Lemma add_push_right_keeps op k in1 in2 a b con_left :
  associative op -> node_class op k -> computes ph e in1 k a -> computes ph e in2 k b ->
  keeps ph e k (eval_bin op k a b)
    (let '(in1, in2, progress) := add_push_right ph op k in1 in2 in2 con_left false in
     if progress : bool then ret (Bin op k in1 in2) else none).
Proof using All.
  intros Hop Hcl H1 H2. destruct (associative_ring op k Hop Hcl) as (Hring & Hc & Hs).
  unfold add_push_right. destruct (as_op op k in2) as [[y a22]|] eqn:Hin2; [| by auto with keeps].
  destruct (_ && _); [| by auto with keeps]. apply as_op_Some in Hin2. subst in2.
  apply computes_inputs in H2 as (Hy & Hcc & ->); [| done | done]. rewrite Hs in Hcc.
  rewrite <- eval_bin_assoc by (done || by eapply computes_range). apply keeps_ret.
  apply builds_bin; [done | | done]. apply computes_transform; [done |]. by apply builds_bin.
Qed.

(** Pushing the constant of a left operand. *)
Lemma add_push_left_keeps op k x y c vx vy vc :
  associative op -> node_class op k -> computes ph e x k vx -> computes ph e y k vy -> computes ph e c k vc ->
  keeps ph e k (eval_bin op k (eval_bin op k vx vc) vy) (ret (Bin op k (transform ph (Bin op k x y)) c)).
Proof using All.
  intros Hop Hcl Hx Hy Hz. destruct (associative_ring op k Hop Hcl) as (Hring & Hc & Hs).
  pose proof (computes_range _ _ _ _ _ Hx). pose proof (computes_range _ _ _ _ _ Hy). pose proof (computes_range _ _ _ _ _ Hz).
  apply keeps_ret. eapply builds_eq; [eapply builds_bin; [done | | exact Hz];
    apply computes_transform; [done |]; by apply builds_bin |].
  rewrite !eval_bin_assoc by done. f_equal. by apply eval_bin_comm.
Qed.

Lemma add_node_keeps op k in1 in2 a b :
  associative op -> node_class op k -> computes ph e in1 k a -> computes ph e in2 k b ->
  keeps ph e k (eval_bin op k a b) (AddNode_Ideal ph op k in1 in2).
Proof using All.
  intros Hop Hcl H1 H2. pose proof (computes_range _ _ _ _ _ H1) as R1. pose proof (computes_range _ _ _ _ _ H2) as R2.
  destruct (associative_ring op k Hop Hcl) as (Hring & Hc & Hs).
  unfold AddNode_Ideal. destruct (commute _ _ _ _ _ _).
  { apply keeps_ret. rewrite eval_bin_comm by done. by apply builds_bin. }
  assert (is_type (type ph in2) TOP = false) as Ht2 by (by eapply sound_not_top, computes_type).
  destruct (singleton (type ph in2)) eqn:S2; rewrite Ht2; simpl andb.
  - assert (con_not_top ph in2 = true) as C2 by (unfold con_not_top; by rewrite S2, Ht2).
    assert (forall i1 i2 l p, add_push_right ph op k i1 i2 in2 l p = (i1, i2, p)) as N2.
    { intros. unfold add_push_right. by rewrite (constant_no_op op k in2 b H2 C2). }
    destruct (as_op op k in1) as [[x c]|] eqn:Hin1.
    2: { cbn [mbind option_bind]. rewrite Hin1, N2. by auto with keeps. }
    destruct (con_not_top ph c) eqn:Cc; cbn [mbind option_bind];
      [| rewrite Hin1; simpl andb; cbv iota; rewrite N2; by auto with keeps].
    apply as_op_Some in Hin1. subst in1. apply computes_inputs in H1 as (Hx & Hcc & ->); [| done | done]. rewrite Hs in Hcc.
    destruct (add_ring_con op k in2 c b (eval e c)) as (t & m & Et & Em & Hm); try done.
    rewrite Et. cbn [mbind option_bind]. rewrite Em. cbn [mbind option_bind].
    destruct (as_op op k x) as [[? ?]|]; simpl; rewrite N2; apply keeps_ret;
      (eapply builds_eq; [by apply builds_bin |]);
      rewrite eval_bin_assoc by (done || by eapply computes_range); f_equal; by apply eval_bin_comm.
  - replace (match as_op op k in1 with Some _ => _ | None => _ end) with (Some (in1, in2, false, in1))
      by (by destruct (as_op op k in1) as [[? ?]|]).
    cbn [mbind option_bind].
    destruct (as_op op k in1) as [[x a12]|] eqn:Hin1; [| by apply add_push_right_keeps].
    destruct (con_not_top ph a12 && _) eqn:C12; simpl andb; cbv iota; [| by apply add_push_right_keeps].
    apply andb_prop in C12 as [C12 _]. apply as_op_Some in Hin1. subst in1.
    apply computes_inputs in H1 as (Hx & Hcc & ->); [| done | done]. rewrite Hs in Hcc.
    unfold add_push_right. rewrite (constant_no_op _ _ _ _ Hcc C12). by apply add_push_left_keeps.
Qed.

End AddNode.

(** ** Sums and differences *)

(** The tests of a rewriting; what remains are the nodes it returns. *)
Ltac tests :=
  repeat match goal with
  | |- keeps _ _ _ _ (_ <|> _) => apply keeps_or_else
  | |- keeps _ _ _ _ none => apply keeps_none
  | |- keeps _ _ _ _ (match as_op ?o ?k ?n with _ => _ end) =>
      let H := fresh "Hop" in destruct (as_op o k n) as [[? ?]|] eqn:H
  | |- keeps _ _ _ _ (match con_of ?ph ?k ?n with _ => _ end) =>
      let H := fresh "Hcon" in destruct (con_of ph k n) as [?|] eqn:H
  | |- keeps _ _ _ _ (if ?b then _ else _) => let H := fresh "Hif" in destruct b eqn:H
  end;
  repeat match goal with
  | H : _ && _ = true |- _ => apply andb_prop in H as [? ?]
  end.

(** A value is what its node evaluates to. *)
Ltac use_eval H :=
  let E := fresh "E" in
  match type of H with computes ?ph ?e ?n ?k ?v => assert (eval e n = v) as E by (apply H); subst v end.

(** What the tests say of values. *)
Ltac facts ph e :=
  take_inputs; take_equal e;
  repeat match goal with
  | H : is_zero ph ?k ?n = true, Hn : computes ph e ?n ?k ?v |- _ =>
      let E := fresh "E" in pose proof (type_value ph e k n v 0 Hn H) as E; clear H; try rewrite E in *
  | H : negb (find_con ph ?k ?n =? 0) = true, Hn : computes ph e ?n ?k ?v |- _ =>
      let E := fresh "E" in
      assert (v = find_con ph k n) as E by (apply (find_con_value ph e k n v Hn); lia); clear H; try rewrite E in *
  | H : con_of ph ?k ?n = Some ?c, Hn : computes ph e ?n ?k ?v |- _ =>
      let E := fresh "E" in pose proof (con_of_value ph e k n v c Hn H) as E; clear H; try rewrite E in *
  end.

Section Sums.
Context (ph : PhaseGVN) (e : env) `{!PhaseSound ph e} `{!PhaseFolded ph}.
Context (k : kind) (in1 in2 : Node) (a b : Z) (H1 : computes ph e in1 k a) (H2 : computes ph e in2 k b).

Lemma add_of_differences_keeps : keeps ph e k (conv k (a + b)) (add_of_differences ph k in1 in2).
Proof using All.
  unfold add_of_differences. destruct (as_op Sub k in1) as [[x y]|] eqn:Hs; [| by auto with keeps].
  apply as_op_Some in Hs. subst in1. apply computes_inputs in H1 as (Hx & Hy & ->); [| done | done].
  apply keeps_or_else.
  { destruct (con_not_top ph x) eqn:Cx; [| by auto with keeps].
    destruct (con_not_top ph in2) eqn:C2; [| by auto with keeps]. simpl andb. cbv iota.
    destruct (add_ring_con ph e Add k x in2 (eval e x) b) as (t & m & Et & Em & Hm); try done; [by left |].
    rewrite Et. cbn [mbind option_bind]. rewrite Em. cbn [mbind option_bind]. keep_ret. conv_ring. }
  destruct (as_op Sub k in2) as [[c d]|] eqn:Hs; [cbn [or_else ret] |]; tests; facts ph e; keep_ret; conv_ring.
Qed.

Lemma sub_patterns_keeps : keeps ph e k (conv k (a - b)) (sub_patterns ph k in1 in2).
Proof using All.
  use_eval H1. use_eval H2. unfold sub_patterns. tests; facts ph e; keep_ret; conv_ring.
Qed.

Lemma sub_ideal_keeps : keeps ph e k (conv k (a - b)) (sub_ideal ph k in1 in2).
Proof using All.
  pose proof sub_patterns_keeps as Hp. use_eval H1. use_eval H2. unfold sub_ideal. tests; try exact Hp;
    facts ph e; keep_ret; conv_ring.
Qed.

End Sums.

(** ** Sums with an unsigned shift *)

(** A small number taken off a shifted one, before the shift. *)
Lemma small_product y z :
  0 <= z < 5 -> -5 < y < 0 -> -64 <= y * 2 ^ z < 0.
Proof.
  intros Hz Hy. pose proof (pow2_pos z ltac:(lia)). assert (2 ^ z <= 2 ^ 4) by (apply Z.pow_le_mono_r; lia).
  change (2 ^ 4) with 16 in *. nia.
Qed.

Lemma ushr_nonneg k x s : 0 <= s < bits k -> 0 <= x <= max_j k -> ushr k x s = x / 2 ^ s.
Proof.
  intros Hs Hx. pose proof (pow2_pos s ltac:(lia)). unfold ushr.
  rewrite wrap_small by (unfold in_unsigned, max_j in *; assert (2 ^ bits k = 2 * 2 ^ (bits k - 1)) by (by destruct k); lia).
  rewrite Z.shiftr_div_pow2 by lia. apply conv_small. pose proof (zero_range k). split.
  - apply Z.le_trans with 0; [lia | apply Z.div_pos; lia].
  - apply Z.div_le_upper_bound; nia.
Qed.

Section Shifted.
Context (ph : PhaseGVN) (e : env) `{!PhaseSound ph e} `{!PhaseFolded ph}.

Lemma isa_type k n v : computes ph e n k v -> exists r, isa k (type ph n) = Some r /\ range_wf k r /\ _lo r <= v <= _hi r.
Proof using All.
  intros Hn. destruct (sound_isa _ _ _ (computes_type ph e _ _ _ Hn)) as (r & _ & ? & ? & ?); [| eauto].
  apply bool_decide_eq_false_2, type_numeric; apply Hn.
Qed.

(** A ConI node. *)
Lemma con_node n v : computes ph e n KInt v -> is_ConI n = true -> isa KInt (type ph n) = Some (make_con v).
Proof using All.
  intros Hn Hc. destruct n as [[] z| | | | | | | | |]; try done. rewrite type_of_con.
  destruct Hn as (_ & _ & <-). unfold con_type. by rewrite isa_num.
Qed.

Lemma add_of_shift_keeps in1 in2 a b :
  computes ph e in1 KInt a -> computes ph e in2 KInt b -> keeps ph e KInt (conv KInt (a + b)) (add_of_shift ph in1 in2).
Proof using All.
  intros H1 H2. unfold add_of_shift. destruct (as_op URShift KInt in1) as [[x zc]|] eqn:Hin1; [| by auto with keeps].
  apply as_op_Some in Hin1. subst in1. apply computes_inputs in H1 as (Hx & Hz & ->); [cbn [is_shift] in Hz | done | done].
  destruct (is_ConI in2) eqn:C2; [| by auto with keeps]. destruct (is_ConI zc) eqn:Cz; simpl; [| by auto with keeps].
  rewrite (con_node _ _ Hz Cz), (con_node _ _ H2 C2). cbn [mbind option_bind get_con make_con _lo].
  destruct (_ && _) eqn:Hsmall; [| by auto with keeps].
  apply andb_prop in Hsmall as [[Hz5%Z.ltb_lt Hy5%Z.ltb_lt]%andb_prop Hy0%Z.ltb_lt].
  rewrite (sound_not_top _ _ _ (computes_type ph e _ _ _ Hx)).
  destruct (isa_type KInt x _ Hx) as (xr & -> & Wx & Vx). cbn [mbind option_bind].
  change (Z.land (eval e zc) 31) with (shift_count KInt (eval e zc)) in *.
  set (z := shift_count KInt (eval e zc)) in *. pose proof (shift_count_range KInt (eval e zc)) as Hzr. fold z in Hzr.
  rewrite Z.shiftl_mul_pow2 by lia.
  destruct (_ <=? _lo xr) eqn:Hlo; [| by auto with keeps]. apply Z.leb_le in Hlo.
  pose proof (small_product b z ltac:(lia) ltac:(lia)) as Hp. pose proof (computes_range _ _ _ _ _ Hx) as Rx.
  change (min_j KInt) with (-2147483648) in Rx. change (max_j KInt) with 2147483647 in Rx.
  assert (forall w, -64 <= w <= 2147483647 -> conv KInt w = w) as Hsmall.
  { intros w Hw. apply conv_small. change (-2147483648 <= w <= 2147483647). lia. }
  change (jint (b * 2 ^ z)) with (conv KInt (b * 2 ^ z)) in *. rewrite (Hsmall (b * 2 ^ z)) in * by lia.
  change (jint (- (b * 2 ^ z))) with (conv KInt (- (b * 2 ^ z))) in Hlo. rewrite Hsmall in Hlo by lia.
  keep_ret. fold z. rewrite (Hsmall (b * 2 ^ z)) by lia. rewrite (Hsmall (eval e x + b * 2 ^ z)) by lia.
  pose proof (ushr_nonneg KInt (eval e x) z Hzr) as Hu1. pose proof (ushr_nonneg KInt (eval e x + b * 2 ^ z) z Hzr) as Hu2.
  unfold ushr in Hu1, Hu2. change (max_j KInt) with 2147483647 in *. cbn [bits] in *. rewrite Hu1, Hu2 by lia.
  rewrite Z.div_add by (apply Z.pow_nonzero; lia). symmetry. apply conv_small.
  pose proof (Z.div_le_mono 0 (eval e x + b * 2 ^ z) (2 ^ z) ltac:(apply pow2_pos; lia) ltac:(lia)) as Hpos.
  rewrite Z.div_0_l, Z.div_add in Hpos by (apply Z.pow_nonzero; lia).
  assert (eval e x / 2 ^ z <= eval e x) by (apply Z.div_le_upper_bound; [apply pow2_pos; lia | pose proof (pow2_pos z ltac:(lia)); nia]).
  change (-2147483648 <= eval e x / 2 ^ z + b <= 2147483647). lia.
Qed.

Lemma is_zero_value k n v : computes ph e n k v -> is_zero ph KInt n = true -> v = 0.
Proof using All.
  intros Hn Hz%is_type_true. destruct (computes_type ph e _ _ _ Hn) as [_ Hv]. rewrite Hz in Hv.
  destruct Hv as [_ Hv]. simpl in Hv. lia.
Qed.

Lemma add_ideal_keeps k in1 in2 a b :
  computes ph e in1 k a -> computes ph e in2 k b -> keeps ph e k (conv k (a + b)) (add_ideal ph k in1 in2).
Proof using All.
  intros H1 H2. use_eval H1. use_eval H2. unfold add_ideal.
  set (swapped := match as_op Add k in1 with Some _ => _ | None => _ end).
  assert (exists l r, (if swapped then (in2, in1) else (in1, in2)) = (l, r) /\
    computes ph e l k (eval e l) /\ computes ph e r k (eval e r) /\
    conv k (eval e in1 + eval e in2) = conv k (eval e l + eval e r)) as (l & r & -> & Hl & Hr & Ev).
  { destruct swapped; eexists _, _; (split; [done |]); (split_and!; [done | done |]); [f_equal; lia | done]. }
  pose proof (add_node_keeps ph e Add k in1 in2 _ _ ltac:(by left) I H1 H2) as Hn. cbn [eval_bin] in Hn.
  rewrite Ev in *. clear Ev swapped H1 H2. apply keeps_or_else; [by apply add_of_differences_keeps |].
  repeat apply keeps_or_else; [| | | done].
  - tests; facts ph e; keep_ret; conv_ring.
  - tests. take_inputs. pose proof (is_zero_value _ _ _ Ha Hif). keep_ret. conv_ring.
  - destruct k; [by apply add_of_shift_keeps | by auto with keeps].
Qed.

End Shifted.

(** ** Products and masks *)

Section Products.
Context (ph : PhaseGVN) (e : env) `{!PhaseSound ph e} `{!PhaseFolded ph}.

(** The product of two constants. *)
Lemma mul_ring_con op k t0 t1 a b :
  op = Mul \/ op = And -> const_type k t0 a -> const_type k t1 b ->
  exists t, mul_ring op k t0 t1 = Some t /\ sound k (eval_bin op k a b) t.
Proof.
  intros Hop (r0 & -> & W0 & C0 & <-) (r1 & -> & W1 & C1 & <-).
  unfold mul_ring. rewrite !isa_num. cbn [mbind option_bind].
  assert (_lo r0 <= get_con r0 <= _hi r0) as V0 by (unfold is_con, get_con in *; lia).
  assert (_lo r1 <= get_con r1 <= _hi r1) as V1 by (unfold is_con, get_con in *; lia).
  destruct Hop as [-> | ->]; [| destruct k]; (eexists; split; [done |]); cbn [eval_bin];
    [by apply mul_sound | by apply and_int_sound | by apply and_long_sound].
Qed.

Lemma mul_bin_comm op k a b : op = Mul \/ op = And -> eval_bin op k a b = eval_bin op k b a.
Proof. intros [-> | ->]; simpl; f_equal; [lia | apply Z.land_comm]. Qed.

Lemma mul_bin_assoc op k a b c :
  op = Mul \/ op = And -> min_j k <= a <= max_j k -> min_j k <= b <= max_j k -> min_j k <= c <= max_j k ->
  eval_bin op k (eval_bin op k a b) c = eval_bin op k a (eval_bin op k c b).
Proof.
  intros [-> | ->] Ha Hb Hc; cbn [eval_bin]; [conv_ring |].
  by rewrite (land_conv k a b), (land_conv k c b), <- Z.land_assoc, (Z.land_comm b).
Qed.

Lemma mul_bin_distr op k a b c :
  op = Mul \/ op = And -> min_j k <= a <= max_j k -> min_j k <= b <= max_j k -> min_j k <= c <= max_j k ->
  eval_bin op k (eval_bin (add_opcode op) k a b) c
  = eval_bin (add_opcode op) k (eval_bin op k a c) (eval_bin op k c b).
Proof.
  intros [-> | ->] Ha Hb Hc; cbn [add_opcode eval_bin]; [conv_ring |].
  by rewrite (lor_conv k a b), (land_conv k a c), (land_conv k c b), Z.land_lor_distr_l, (Z.land_comm b).
Qed.

(** The last step, on the inputs that the first steps leave. *)
Lemma mul_distribute_keeps op k in1 in2 t2 a b this :
  op = Mul \/ op = And -> computes ph e in1 k a -> computes ph e in2 k b -> const_type k t2 b ->
  keeps ph e k (eval_bin op k a b) this ->
  keeps ph e k (eval_bin op k a b)
    (match as_op (add_opcode op) k in1 with
     | Some (x, c) =>
         if con_not_top ph c then
           tcon01 ← mul_ring op k t2 (type ph c);
           if singleton tcon01 then
             m ← makecon tcon01;
             ret (Bin (add_opcode op) k (transform ph (Bin op k x in2)) m)
           else this
         else this
     | None => this
     end).
Proof using All.
  intros Hop H1 H2 T2 Hthis. destruct (as_op (add_opcode op) k in1) as [[x c]|] eqn:Hin1; [| done].
  destruct (con_not_top ph c) eqn:Cc; [| done]. apply as_op_Some in Hin1. subst in1.
  assert (ring_op op k = true /\ ring_op (add_opcode op) k = true /\ add_opcode op <> Cmp /\
    is_shift (add_opcode op) = false) as (N1 & N2 & N3 & N4) by (by destruct Hop as [-> | ->]).
  apply computes_inputs in H1 as (Hx & Hc & ->); [rewrite N4 in Hc | done | done].
  destruct (mul_ring_con op k t2 (type ph c) b (eval e c) Hop T2) as (t & -> & St); [by eapply con_not_top_range |].
  cbn [mbind option_bind]. destruct (singleton t) eqn:Ht; [| done].
  destruct (makecon_sound ph e k _ t St Ht) as (m & -> & Hm). cbn [mbind option_bind].
  rewrite mul_bin_distr by (done || by eapply computes_range). apply keeps_ret.
  apply builds_bin; [done | | done]. apply computes_transform; [done |]. by apply builds_bin.
Qed.

Lemma mul_node_keeps op k in1 in2 a b :
  op = Mul \/ op = And -> computes ph e in1 k a -> computes ph e in2 k b ->
  keeps ph e k (eval_bin op k a b) (MulNode_Ideal ph op k in1 in2).
Proof using All.
  intros Hop H1 H2. unfold MulNode_Ideal.
  assert (ring_op op k = true /\ op <> Cmp /\ is_shift op = false) as (N0 & N1 & N2) by (by destruct Hop as [-> | ->]).
  set (swap := negb _ && _).
  assert (exists i1 i2 v1 v2, (if swap then (in2, in1, type ph in1) else (in1, in2, type ph in2)) = (i1, i2, type ph i2) /\
    computes ph e i1 k v1 /\ computes ph e i2 k v2 /\ eval_bin op k a b = eval_bin op k v1 v2)
    as (i1 & i2 & v1 & v2 & -> & H1' & H2' & ->).
  { destruct swap; eexists _, _, _, _; (split; [done |]); (split_and!; [done | done |]); [by apply mul_bin_comm | done]. }
  assert (keeps ph e k (eval_bin op k v1 v2) (if swap then ret (Bin op k i1 i2) else none)) as Hthis.
  { destruct swap; [| by auto with keeps]. apply keeps_ret. by apply builds_bin. }
  destruct (singleton (type ph i2)) eqn:S2; simpl negb; cbv iota; [| done].
  rewrite (sound_not_top _ _ _ (computes_type ph e _ _ _ H2')).
  assert (const_type k (type ph i2) v2) as T2 by (apply sound_const; [by eapply computes_type | done]).
  destruct (as_op op k i1) as [[x c]|] eqn:Hin1; [| by apply mul_distribute_keeps].
  destruct (con_not_top ph c) eqn:Cc; [| by apply mul_distribute_keeps].
  pose proof (as_op_Some _ _ _ _ _ Hin1). subst i1.
  pose proof H1' as Hi1. apply computes_inputs in H1' as (Hx & Hc & ->); [rewrite N2 in Hc | done | done].
  destruct (mul_ring_con op k (type ph i2) (type ph c) v2 (eval e c) Hop T2) as (t & -> & St); [by eapply con_not_top_range |].
  cbn [mbind option_bind]. destruct (singleton t) eqn:Ht.
  2: { by apply mul_distribute_keeps. }
  destruct (makecon_sound ph e k _ t St Ht) as (m & -> & Hm). cbn [mbind option_bind].
  rewrite mul_bin_assoc by (done || by eapply computes_range).
  apply mul_distribute_keeps; [done | done | done | by apply sound_const |].
  apply keeps_ret. by apply builds_bin.
Qed.

End Products.

(** ** Products with a constant *)

(** The lowest bit of a positive number. *)
Lemma low_bit c : 0 < c -> exists i, 0 <= i /\ Z.land c (- c) = 2 ^ i /\ 2 ^ i <= c.
Proof.
  intros Hc. destruct c as [|p|p]; [done | | done]. clear Hc.
  induction p as [p _|p (i & Hi & E & Hle)|].
  - exists 0. split_and!; [done | | lia]. change (2 ^ 0) with 1.
    replace (- Z.pos p~1) with (Z.lnot (2 * Z.pos p)) by (unfold Z.lnot; lia).
    rewrite <- Z.ldiff_land. replace (Z.pos p~1) with (2 * Z.pos p + 1) by lia.
    apply Z.bits_inj'. intros n Hn. rewrite Z.ldiff_spec. destruct (Z.eq_dec n 0) as [->|].
    + by rewrite Z.testbit_odd_0, Z.testbit_even_0.
    + replace n with (Z.succ (n - 1)) by lia.
      rewrite Z.testbit_odd_succ, Z.testbit_even_succ, andb_negb_r by lia.
      change 1 with (2 * 0 + 1). rewrite Z.testbit_odd_succ by lia. by rewrite Z.bits_0.
  - exists (i + 1). rewrite Z.pow_add_r by lia. change (2 ^ 1) with 2. split_and!; [lia | | lia].
    replace (- Z.pos p~0) with (- Z.pos p * 2) by lia. replace (Z.pos p~0) with (Z.pos p * 2) by lia.
    change (?x * 2) with (x * 2 ^ 1). rewrite <- !Z.shiftl_mul_pow2, <- Z.shiftl_land, E by done. done.
  - by exists 0.
Qed.

Lemma land_opp_pow2 c : 0 < c -> Z.land c (- c) = c -> c = 2 ^ Z.log2 c.
Proof.
  intros Hc E. destruct (low_bit c Hc) as (i & Hi & E' & _). rewrite E in E'. rewrite E' at 1.
  by rewrite E', Z.log2_pow2.
Qed.

Section ByConstant.
Context (ph : PhaseGVN) (e : env) `{!PhaseSound ph e} `{!PhaseFolded ph}.
Context (k : kind) (in1 : Node) (a : Z) (H1 : computes ph e in1 k a).

(** A shift by the logarithm of a power of 2. *)
Lemma log2_shift c :
  0 < c <= max_j k -> c = 2 ^ Z.log2 c ->
  exists l, log2_k k c = Some l /\ builds ph e (Bin LShift k in1 (intcon l)) k (conv k (a * c)).
Proof using H1 PhaseSound0.
  intros Hc Ec. rewrite log2_k_spec. unfold uintptr_t.
  rewrite wrap_small by (unfold in_unsigned; clear - Hc; width k; lia).
  rewrite (proj2 (Z.eqb_neq _ _)) by lia. eexists. split; [done |].
  eapply builds_eq; [apply builds_lshift; [done | | exact H1] |]; [| by rewrite <- Ec].
  split; [apply Z.log2_nonneg |]. pose proof (bits_pos k).
  assert (Z.log2 c < bits k - 1) by (apply Z.log2_lt_pow2; [lia |]; unfold max_j in Hc; lia). lia.
Qed.

(** The smallest number is its own negation, and a shift into the sign. *)
Lemma log2_shift_min :
  exists l, log2_k k (min_j k) = Some l /\ builds ph e (Bin LShift k in1 (intcon l)) k (conv k (a * min_j k)).
Proof using H1 PhaseSound0.
  exists 63. split; [by destruct k |].
  eapply builds_eq; [apply builds_shift; [done | exact H1 | by apply computes_con] |]. cbn [eval_bin].
  assert (shift_count k (conv KInt 63) = bits k - 1) as -> by (by destruct k).
  rewrite Z.shiftl_mul_pow2 by (destruct k; done).
  apply (conv_eq k _ _ a). unfold min_j. assert (2 ^ bits k = 2 * 2 ^ (bits k - 1)) as -> by (by destruct k). ring.
Qed.

Lemma mul_by_con_keeps in2 con_ :
  computes ph e in2 k con_ -> con_ <> 0 -> keeps ph e k (conv k (a * con_)) (mul_by_con ph k in1 in2 con_).
Proof using All.
  intros H2 Hnz. pose proof (computes_range _ _ _ _ _ H2) as R2. unfold mul_by_con.
  pose proof (mul_node_keeps ph e Mul k in1 in2 _ _ ltac:(by left) H1 H2) as Hfall. cbn [eval_bin] in Hfall.
  assert (max_j k = - min_j k - 1 /\ 0 < max_j k) as [Hmm Hm0] by (by destruct k).
  set (c := if con_ <? 0 then conv k (- con_) else con_).
  assert (conv k (- min_j k) = min_j k) as Emin by (by destruct k).
  assert (c = min_j k \/ 0 < c <= max_j k) as Hc.
  { subst c. destruct (Z.ltb_spec con_ 0); [| lia]. destruct (Z.eq_dec con_ (min_j k)) as [->|]; [by left |].
    right. rewrite conv_small; lia. }
  assert (forall res, builds ph e res k (conv k (a * c)) ->
    keeps ph e k (conv k (a * con_)) (ret (if con_ <? 0 then Bin Sub k (con k 0) (transform ph res) else res))) as Hfinish.
  { intros res Hres. subst c. destruct (con_ <? 0); [| by apply keeps_ret]. keep_ret.
    rewrite conv_sub_l, conv_mul_r, conv_sub_r. conv_ring. }
  clearbody c. destruct (Z.eqb_spec (Z.land c (conv k (- c))) c) as [E1|N1].
  { assert (exists l, log2_k k (Z.land c (conv k (- c))) = Some l /\
      builds ph e (Bin LShift k in1 (intcon l)) k (conv k (a * c))) as (l & -> & Hl).
    { rewrite E1. destruct Hc as [-> | Hc]; [apply log2_shift_min |]. apply log2_shift; [done |].
      rewrite conv_small in E1 by lia. apply land_opp_pow2; [lia | done]. }
    by apply Hfinish. }
  assert (0 < c <= max_j k) as Hcp.
  { destruct Hc as [-> | ?]; [| done]. exfalso. apply N1. by rewrite Emin, Z.land_diag. }
  rewrite (conv_small k (- c)) in * by lia. destruct (low_bit c ltac:(lia)) as (i & Hi & E1 & Hle). rewrite E1 in *.
  pose proof (pow2_pos i Hi). rewrite (conv_small k (c - 2 ^ i)), (conv_small k (- (c - 2 ^ i))) by lia.
  destruct (low_bit (c - 2 ^ i) ltac:(lia)) as (j & Hj & E2 & Hle2). rewrite E2.
  pose proof (pow2_pos j Hj). rewrite (conv_small k (2 ^ j + 2 ^ i)) by lia.
  destruct (Z.eqb_spec (2 ^ j + 2 ^ i) c) as [E3|N3].
  { destruct (log2_shift (2 ^ i)) as (l1 & -> & Hl1); [lia | by rewrite Z.log2_pow2 |].
    destruct (log2_shift (2 ^ j)) as (l2 & -> & Hl2); [lia | by rewrite Z.log2_pow2 |].
    apply Hfinish. eapply builds_eq; [graph |]. cbn [eval_bin]. rewrite <- E3. conv_ring. }
  destruct (is_power_of_2_k k (conv k (c + 1))) eqn:Hpow; [| done].
  assert (exists l, log2_k k (conv k (c + 1)) = Some l /\
    builds ph e (Bin LShift k in1 (intcon l)) k (conv k (a * conv k (c + 1)))) as (l & -> & Hl).
  { destruct (Z.eq_dec c (max_j k)) as [->|].
    - replace (conv k (max_j k + 1)) with (min_j k) by (by destruct k). apply log2_shift_min.
    - rewrite conv_small in * by lia. apply log2_shift; [lia |].
      apply (is_power_of_2_k_spec k); [lia | lia | done]. }
  apply Hfinish. eapply builds_eq; [graph |]. cbn [eval_bin]. conv_ring.
Qed.

End ByConstant.

Section Masks.
Context (ph : PhaseGVN) (e : env) `{!PhaseSound ph e} `{!PhaseFolded ph}.

Lemma mul_ideal_keeps k in1 in2 a b :
  computes ph e in1 k a -> computes ph e in2 k b -> keeps ph e k (conv k (a * b)) (mul_ideal ph k in1 in2).
Proof using All.
  intros H1 H2. unfold mul_ideal. destruct (Z.eqb_spec (find_con ph k in1) 0) as [|N1]; simpl negb; cbv iota.
  - destruct (Z.eqb_spec (find_con ph k in2) 0) as [|N2]; [by apply (mul_node_keeps ph e Mul); [left |..] |].
    pose proof (find_con_value ph e k in2 b H2 N2) as E. rewrite <- E in *.
    destruct (_ =? 1); [by auto with keeps |]. by apply mul_by_con_keeps.
  - pose proof (find_con_value ph e k in1 a H1 N1) as E. rewrite <- E in *.
    destruct (_ =? 1); [by auto with keeps |]. rewrite Z.mul_comm. by apply mul_by_con_keeps.
Qed.

(** A shift that keeps no sign bit below the mask. *)
Lemma mask_no_sign k x s mask :
  0 <= s < bits k -> min_j k <= x <= max_j k -> 0 <= mask < 2 ^ (bits k - s) \/ s = 0 ->
  Z.land (conv k (Z.shiftr x s)) mask = Z.land (ushr k x s) mask.
Proof.
  intros Hs Hx Hm. destruct (Z.eq_dec s 0) as [->|].
  { unfold ushr. rewrite !Z.shiftr_0_r. f_equal. unfold conv. by rewrite swrap_wrap by apply bits_pos. }
  destruct Hm as [Hm|]; [| done].
  destruct (ushr_spec k x s ltac:(lia) Hx) as [-> _].
  rewrite conv_small by (apply shiftr_range; [lia | done]). rewrite Z.shiftr_div_pow2 by lia.
  assert (Z.land (Z.ones (bits k - s)) mask = mask) as Em.
  { rewrite Z.land_comm, Z.land_ones, Z.mod_small by lia. done. }
  rewrite <- Em, !Z.land_assoc, !Z.land_ones by lia. f_equal.
  destruct (Z.ltb_spec x 0); [| done].
  replace (2 ^ bits k) with (2 ^ (bits k - s) * 2 ^ s) by (rewrite <- Z.pow_add_r by lia; f_equal; lia).
  rewrite Z.div_add, <- Z.add_mod_idemp_r, Z.mod_same, Z.add_0_r by (apply Z.pow_nonzero; lia). done.
Qed.

(** The mask has only bits below [j]. *)
Lemma land_high_zero mask j : 0 <= j -> Z.land (- 2 ^ j) mask = 0 -> 0 <= mask < 2 ^ j.
Proof using.
  intros Hj E. rewrite Z.land_comm, land_mask in E by done. pose proof (pow2_pos j Hj).
  pose proof (Z.div_mod mask (2 ^ j) ltac:(lia)). pose proof (Z.mod_pos_bound mask (2 ^ j) ltac:(lia)). nia.
Qed.

Lemma lnot_ones n : 0 <= n -> Z.lnot (Z.ones n) = - 2 ^ n.
Proof using. intros. rewrite Z.ones_equiv. unfold Z.lnot. lia. Qed.

(** The rewriting of a signed shift below a mask, of either width. *)
Lemma mask_shift_keeps k in1 in2 x c shift mask sign_bits_mask b :
  in1 = Bin RShift k x c -> computes ph e in1 k b -> computes ph e in2 k mask ->
  con_of ph KInt c = Some shift ->
  (0 < Z.land shift (bits k - 1) -> sign_bits_mask = - 2 ^ (bits k - Z.land shift (bits k - 1))) ->
  Z.land sign_bits_mask mask = 0 ->
  keeps ph e k (conv k (Z.land b mask)) (ret (Bin And k (transform ph (Bin URShift k x c)) in2)).
Proof using All.
  intros -> H1 H2 Hcon Hs Hm. apply computes_inputs in H1 as (Hx & Hc & ->); [cbn [is_shift] in Hc | done | done].
  pose proof (con_of_value _ _ _ _ _ _ Hc Hcon) as E.
  pose proof (shift_count_range k (eval e c)) as Hr. keep_ret. rewrite <- E in *.
  change (Z.land (eval e c) (bits k - 1)) with (shift_count k (eval e c)) in *. f_equal. symmetry.
  apply mask_no_sign; [done | by eapply computes_range |].
  destruct (Z.eq_dec (shift_count k (eval e c)) 0) as [|]; [by right | left].
  rewrite Hs in Hm by lia. apply land_high_zero; [lia | done].
Qed.

Lemma builds_load op adr : builds ph e (Load op adr) KInt (eval_load op (memory e adr)).
Proof using. done. Qed.

(** Masking the value of a narrow load. *)
Lemma mask_low j v w mask :
  0 <= j -> wrap j v = wrap j w -> 0 <= mask < 2 ^ j -> Z.land v mask = Z.land w mask.
Proof using.
  intros Hj E Hm. unfold wrap in E. assert (Z.land (Z.ones j) mask = mask) as Em.
  { rewrite Z.land_comm, Z.land_ones, Z.mod_small by lia. done. }
  by rewrite <- Em, !Z.land_assoc, !Z.land_ones, E.
Qed.

Lemma high_bits_clear mask j :
  0 <= j < 32 -> min_j KInt <= mask <= max_j KInt -> Z.land (juint mask) (2 ^ 32 - 2 ^ j) = 0 -> 0 <= mask < 2 ^ j.
Proof using.
  intros Hj Hm E. pose proof (wrap_range 32 mask ltac:(lia)) as Hu. fold (juint mask) in Hu. unfold in_unsigned in Hu.
  assert (0 < 2 ^ j <= 2 ^ 31) by (split; [apply pow2_pos; lia | apply Z.pow_le_mono_r; lia]).
  replace (2 ^ 32 - 2 ^ j) with (Z.land (Z.ones 32) (- 2 ^ j)) in E.
  2: { rewrite Z.land_comm, Z.land_ones by done. symmetry. apply (Z.mod_unique_pos _ _ (-1)); lia. }
  rewrite Z.land_assoc, Z.land_ones, Z.mod_small, Z.land_comm in E by lia.
  apply land_high_zero in E; [| lia]. unfold juint, wrap in *.
  change (-2147483648 <= mask <= 2147483647) in Hm. change (2 ^ 32) with 4294967296 in *. change (2 ^ 31) with 2147483648 in *.
  destruct (Z.ltb_spec mask 0).
  - rewrite <- (Z.mod_unique_pos mask 4294967296 (-1) (mask + 4294967296)) in E by lia. lia.
  - rewrite Z.mod_small in E by lia. lia.
Qed.

Lemma wrap_swrap_wrap w c : 0 < w -> wrap w (swrap w c) = wrap w (wrap w c).
Proof using. intros Hw. rewrite wrap_swrap by done. unfold wrap. by rewrite Z.mod_mod by (apply Z.pow_nonzero; lia). Qed.

(** A narrow load read with the other sign, below a mask of its width. *)
Lemma narrow_load_keeps op op' adr m mask w :
  w = 8 \/ w = 16 -> 0 <= mask < 2 ^ w -> m = mask ->
  (forall c, wrap w (eval_load op c) = wrap w (eval_load op' c)) ->
  keeps ph e KInt (conv KInt (Z.land (eval_load op (memory e adr)) mask))
    (ret (Bin And KInt (transform ph (Load op' adr)) (intcon m))).
Proof using All.
  intros Hw Hm -> Hl. pose proof (builds_load op' adr) as Ho. keep_ret.
  assert (2 ^ w <= 65536) by (destruct Hw as [-> | ->]; simpl; lia).
  rewrite (conv_small KInt mask) by (change (-2147483648 <= mask <= 2147483647); lia).
  f_equal. symmetry. apply (mask_low w); [lia | apply Hl | done].
Qed.

(** Bits that the value of a load does not have. *)
Lemma wide_mask_keeps in1 a mask :
  computes ph e in1 KInt a -> 0 <= a < 65536 ->
  keeps ph e KInt (conv KInt (Z.land a mask)) (ret (Bin And KInt in1 (intcon (Z.land mask 65535)))).
Proof using PhaseSound0.
  intros H1 Ha. keep_ret. pose proof (land_pos mask 65535 ltac:(lia)).
  rewrite (conv_small KInt (Z.land mask 65535)) by (change (-2147483648 <= Z.land mask 65535 <= 2147483647); lia).
  rewrite (Z.land_comm mask), Z.land_assoc. do 2 f_equal. change 65535 with (Z.ones 16).
  rewrite Z.land_ones, Z.mod_small by lia. done.
Qed.

(** Negation keeps the lowest bit. *)
Lemma land_neg_1 k x : Z.land (conv k (0 - x)) 1 = Z.land x 1.
Proof using.
  destruct (conv_mod k (0 - x)) as [q ->]. change 1 with (Z.ones 1). rewrite !Z.land_ones by done. change (2 ^ 1) with 2.
  replace (0 - x + q * 2 ^ bits k) with (x + (- x + q * 2 ^ (bits k - 1)) * 2); [by rewrite Z.mod_add |].
  assert (2 ^ bits k = 2 * 2 ^ (bits k - 1)) as -> by (by destruct k). ring.
Qed.

Lemma and_int_keeps can_reshape in1 in2 a b :
  computes ph e in1 KInt a -> computes ph e in2 KInt b ->
  keeps ph e KInt (conv KInt (Z.land a b)) (AndINode_Ideal ph can_reshape in1 in2).
Proof using All.
  intros H1 H2. pose proof (mul_node_keeps ph e And KInt in1 in2 _ _ ltac:(by right) H1 H2) as Hfall.
  cbn [eval_bin] in Hfall. pose proof (computes_range _ _ _ _ _ H2) as R2. unfold AndINode_Ideal.
  destruct (con_of ph KInt in2) as [mask|] eqn:Hm; [| done].
  pose proof (con_of_value _ _ _ _ _ _ H2 Hm). subst b. repeat apply keeps_or_else; [| | | | done].
  - destruct in1 as [|op adr| | | | | | | |]; try by auto with keeps. destruct op; try by auto with keeps.
    tests. apply wide_mask_keeps; [done |]. destruct H1 as (_ & _ & <-). apply (wrap_range 16). done.
  - tests. destruct in1 as [|op adr| | | | | | | |]; try by auto with keeps.
    assert (a = eval_load op (memory e adr)) as -> by (destruct H1 as (_ & _ & <-); done).
    destruct op; tests; apply Z.eqb_eq in Hif.
    + apply (high_bits_clear mask 8) in Hif; [| lia | done].
      apply (narrow_load_keeps _ _ _ _ _ 8); [by left | done | done | intros; apply wrap_swrap_wrap; done].
    + apply (high_bits_clear mask 16) in Hif; [| lia | done].
      apply (narrow_load_keeps _ _ _ _ _ 16); [by right | done | | intros; apply wrap_swrap_wrap; done].
      change 65535 with (Z.ones 16). by rewrite Z.land_ones, Z.mod_small.
  - tests. apply as_op_Some in Hop. apply Z.eqb_eq in Hif.
    eapply mask_shift_keeps; [done | done | done | done | | exact Hif]. intros Hs. cbn [bits] in *.
    pose proof (shift_count_range KInt z) as Hz. unfold shift_count in Hz. cbn [bits] in Hz.
    rewrite right_n_bits_ones, lnot_ones by lia. apply (conv_small KInt).
    assert (0 < 2 ^ (32 - Z.land z (32 - 1)) <= 2 ^ 31) by (split; [apply pow2_pos; lia | apply Z.pow_le_mono_r; lia]).
    change (- 2 ^ 31 <= - 2 ^ (32 - Z.land z (32 - 1)) <= 2 ^ 31 - 1). lia.
  - tests. assert (mask = 1) as -> by lia. take_inputs. pose proof (is_zero_value ph e _ _ _ Ha ltac:(eassumption)) as Ez.
    keep_ret. f_equal. symmetry. apply land_neg_1.
Qed.

Lemma and_long_keeps undefined in1 in2 a b :
  computes ph e in1 KLong a -> computes ph e in2 KLong b ->
  keeps ph e KLong (conv KLong (Z.land a b)) (AndLNode_Ideal ph undefined in1 in2).
Proof using All.
  intros H1 H2. pose proof (mul_node_keeps ph e And KLong in1 in2 _ _ ltac:(by right) H1 H2) as Hfall.
  cbn [eval_bin] in Hfall. unfold AndLNode_Ideal.
  destruct (con_of ph KLong in2) as [mask|] eqn:Hm; [| done].
  pose proof (con_of_value _ _ _ _ _ _ H2 Hm). subst b. repeat apply keeps_or_else; [| | done].
  - destruct in1 as [| | | |x t| | | | |]; try by auto with keeps. tests. apply Z.eqb_eq in Hif.
    rewrite Z.land_comm in Hif. apply (land_high_zero mask 31) in Hif; [| done].
    destruct H1 as (Hg & _ & <-). apply keeps_ret. pose proof Hg as (_ & (? & Hk & ?) & ? & ?).
    assert (computes ph e x KInt (eval e x)) as Hx.
    { split; [| done]. eapply good_input; [done | exact Hg | by left | done | done]. }
    rewrite (eval_I2L e x t Hk). pose proof (computes_range _ _ _ _ _ Hx) as Rx.
    rewrite (conv_small KLong).
    + apply builds_I2L, computes_transform; [done |].
      eapply (builds_exact ph e And); [done | | | done | apply computes_const; [done |]].
      * done.
      * pose proof (land_pos (eval e x) mask ltac:(lia)). change (- 2 ^ 31 <= Z.land (eval e x) mask <= 2 ^ 31 - 1). lia.
      * change (- 2 ^ 31 <= mask <= 2 ^ 31 - 1). lia.
    + pose proof (land_pos (eval e x) mask ltac:(lia)).
      change (- 2 ^ 63 <= Z.land (eval e x) mask <= 2 ^ 63 - 1). lia.
  - tests. apply as_op_Some in Hop. apply Z.eqb_eq in Hif.
    eapply mask_shift_keeps; [done | done | done | done | | exact Hif]. intros Hs. cbn [bits] in *.
    pose proof (shift_count_range KLong z) as Hz. unfold shift_count in Hz. cbn [bits] in Hz.
    unfold one_shl. rewrite (proj2 (Z.ltb_lt _ _)) by lia.
    change (Z.lnot (low_bits KLong (64 - Z.land z (64 - 1))) = - 2 ^ (64 - Z.land z (64 - 1))).
    rewrite low_bits_ones by (simpl bits; lia). apply lnot_ones. lia.
Qed.

End Masks.

End IdealTransformTheorems.
