(* ===== verification/IdealShiftTheorems.v ===== *)
(** Rewritings of shifts, and the theorem for all rewritings. *)
From S2P Require Import Prelude GlobalDefinitions IdealType IdealTypeTheorems IdealNode IdealValue IdealRings IdealValueTheorems IdealComputes IdealDivide IdealDivideTheorems IdealTransform IdealIdentityTheorems IdealTransformTheorems.
Import GlobalDefinitions IdealType IdealTypeTheorems IdealNode IdealValue IdealRings IdealValueTheorems.
Import IdealComputes IdealDivide IdealDivideTheorems IdealTransform IdealIdentityTheorems IdealTransformTheorems.

Module IdealShiftTheorems.

(** ** Words and their bits *)

Lemma bits_split k s : 0 <= s <= bits k -> 2 ^ bits k = 2 ^ s * 2 ^ (bits k - s).
Proof. intros Hs. rewrite <- Z.pow_add_r by lia. f_equal. lia. Qed.

(** The lower bits of a word do not depend on its sign. *)
Lemma conv_mod_pow k z j : 0 <= j <= bits k -> conv k z mod 2 ^ j = z mod 2 ^ j.
Proof.
  intros Hj. destruct (conv_mod k z) as [q ->]. rewrite (bits_split k j), (Z.mul_comm (2 ^ j)), Z.mul_assoc by done.
  apply Z.mod_add, Z.pow_nonzero; lia.
Qed.

Lemma conv_same k x y : x mod 2 ^ bits k = y mod 2 ^ bits k -> conv k x = conv k y.
Proof.
  intros E. pose proof (Z.div_mod x (2 ^ bits k) ltac:(by destruct k)).
  pose proof (Z.div_mod y (2 ^ bits k) ltac:(by destruct k)).
  apply (conv_eq k _ _ (x / 2 ^ bits k - y / 2 ^ bits k)). lia.
Qed.

Lemma wrap_land_bits w p q : 0 <= w -> wrap w (Z.land p q) = Z.land (wrap w p) (wrap w q).
Proof.
  intros Hw. apply Z.bits_inj'. intros i Hi. rewrite Z.land_spec, !wrap_bits, Z.land_spec by done.
  by destruct (i <? w), (Z.testbit p i), (Z.testbit q i).
Qed.

Lemma wrap_conv k z : wrap (bits k) (conv k z) = wrap (bits k) z.
Proof. apply wrap_swrap, bits_pos. Qed.

Lemma conv_land k p q : conv k (Z.land p q) = Z.land (conv k p) (conv k q).
Proof.
  pose proof (conv_range k p). pose proof (conv_range k q). pose proof (bits_pos k).
  rewrite <- (land_conv k (conv k p) (conv k q)) by done. apply conv_same.
  change (wrap (bits k) (Z.land p q) = wrap (bits k) (Z.land (conv k p) (conv k q))).
  by rewrite !wrap_land_bits, !wrap_conv by lia.
Qed.

(** The upper part of a sum whose first term has no lower part. *)
Lemma shifted_sum A r s t :
  0 <= s -> 0 <= t -> (2 ^ s * A + r) mod (2 ^ s * 2 ^ t) / 2 ^ s = (A + r / 2 ^ s) mod 2 ^ t.
Proof.
  intros Hs Ht. pose proof (pow2_pos s Hs). pose proof (pow2_pos t Ht).
  rewrite Z.rem_mul_r by lia.
  rewrite (Z.mul_comm (2 ^ s) A), (Z.add_comm (A * 2 ^ s)), Z.mod_add, Z.div_add by lia.
  rewrite (Z.mul_comm (2 ^ s)), Z.div_add by lia.
  rewrite Z.div_small, Z.add_0_l by (apply Z.mod_pos_bound; lia). f_equal. lia.
Qed.

(** ** Left shifts *)

(** A right shift of either sort, shifted back, clears the lower bits. *)
Lemma shift_right_left k x s :
  0 <= s < bits k -> min_j k <= x <= max_j k ->
  conv k (Z.shiftl (conv k (Z.shiftr x s)) s) = Z.land x (- 2 ^ s) /\
  conv k (Z.shiftl (ushr k x s) s) = Z.land x (- 2 ^ s).
Proof.
  intros Hs Hx. pose proof (pow2_pos s ltac:(lia)).
  assert (- 2 ^ s < 0 /\ min_j k <= - 2 ^ s) as [Hneg Hlow].
  { split; [lia |]. unfold min_j. pose proof (Z.pow_le_mono_r 2 s (bits k - 1)). lia. }
  rewrite <- (land_conv k x (- 2 ^ s)) by (pose proof (zero_range k); lia).
  rewrite land_mask, !Z.shiftl_mul_pow2 by lia. split.
  - rewrite conv_mul_l, Z.shiftr_div_pow2 by lia. f_equal. lia.
  - unfold ushr. rewrite conv_mul_l, Z.shiftr_div_pow2 by lia. unfold wrap.
    pose proof (Z.div_mod x (2 ^ bits k) ltac:(by destruct k)) as E.
    set (q := x / 2 ^ bits k) in *. assert (x mod 2 ^ bits k = x + - q * 2 ^ (bits k - s) * 2 ^ s) as ->.
    { rewrite (bits_split k s) in E by lia. rewrite <- (bits_split k s) in E at 2 by lia. lia. }
    rewrite Z.div_add by lia. apply (conv_eq k _ _ (- q)). rewrite (bits_split k s) by lia. ring.
Qed.

(** A mask shifted left has no lower bits to clear. *)
Lemma land_shifted k x y s :
  0 <= s < bits k -> min_j k <= x <= max_j k ->
  Z.land (Z.land x (- 2 ^ s)) (conv k (Z.shiftl y s)) = Z.land x (conv k (Z.shiftl y s)).
Proof.
  intros Hs Hx. rewrite <- Z.land_assoc. f_equal. rewrite Z.land_comm, land_mask, Z.shiftl_mul_pow2 by lia.
  destruct (conv_mod k (y * 2 ^ s)) as [q ->]. pose proof (pow2_pos s ltac:(lia)).
  replace (y * 2 ^ s + q * 2 ^ bits k) with ((y + q * 2 ^ (bits k - s)) * 2 ^ s)
    by (rewrite (bits_split k s) by lia; ring).
  rewrite Z.div_mul by lia. ring.
Qed.

Lemma shift_masked k x s :
  0 <= s < bits k ->
  conv k (Z.shiftl (conv k (Z.land x (Z.ones (bits k - s)))) s) = conv k (Z.shiftl x s).
Proof.
  intros Hs. rewrite Z.land_ones, !Z.shiftl_mul_pow2, conv_mul_l by lia.
  pose proof (Z.div_mod x (2 ^ (bits k - s)) ltac:(apply Z.pow_nonzero; lia)) as E.
  apply (conv_eq k _ _ (- (x / 2 ^ (bits k - s)))). rewrite (bits_split k s) by lia.
  rewrite E at 2. ring.
Qed.

(** ** Unsigned right shifts *)

Lemma ushr_div k x s : 0 <= s -> ushr k x s = conv k (wrap (bits k) x / 2 ^ s).
Proof. intros Hs. unfold ushr. by rewrite Z.shiftr_div_pow2. Qed.

Lemma wrap_word k x : 0 <= wrap (bits k) x < 2 ^ bits k.
Proof. apply wrap_range. pose proof (bits_pos k). lia. Qed.

Lemma ushr_word k x s :
  0 <= s -> 0 <= wrap (bits k) x / 2 ^ s < 2 ^ bits k.
Proof.
  intros Hs. pose proof (wrap_word k x). pose proof (pow2_pos s Hs). split; [apply Z.div_pos; lia |].
  apply Z.div_lt_upper_bound; nia.
Qed.

Lemma ushr_ushr k x c s : 0 <= c -> 0 <= s -> ushr k (ushr k x c) s = ushr k x (c + s).
Proof.
  intros Hc Hs. rewrite !ushr_div, wrap_conv by lia.
  rewrite (wrap_small (bits k)) by (by apply ushr_word).
  rewrite Z.div_div, <- Z.pow_add_r by (try apply Z.pow_nonzero; try apply pow2_pos; lia). done.
Qed.

Lemma ushr_sum k x y s :
  0 <= s < bits k ->
  ushr k (conv k (conv k (Z.shiftl x s) + y)) s
  = conv k (Z.land (conv k (x + ushr k y s)) (Z.ones (bits k - s))).
Proof.
  intros Hs. rewrite !ushr_div, wrap_conv, Z.shiftl_mul_pow2, Z.land_ones, conv_mod_pow by lia.
  f_equal. rewrite <- Z.add_mod_idemp_r, conv_mod_pow, Z.add_mod_idemp_r by (try apply Z.pow_nonzero; lia).
  rewrite <- shifted_sum, <- bits_split by lia. f_equal. unfold wrap.
  rewrite Z.add_mod_idemp_r, <- Z.add_mod_idemp_l, conv_mod_pow, Z.add_mod_idemp_l by (try (by destruct k); lia).
  do 2 f_equal. lia.
Qed.

Lemma ushr_shl k x s :
  0 <= s < bits k -> ushr k (conv k (Z.shiftl x s)) s = conv k (Z.land x (Z.ones (bits k - s))).
Proof.
  intros Hs. rewrite ushr_div, wrap_conv, Z.shiftl_mul_pow2, Z.land_ones by lia. f_equal. unfold wrap.
  rewrite (bits_split k s) by lia. pose proof (shifted_sum x 0 s (bits k - s) ltac:(lia) ltac:(lia)) as E.
  rewrite Z.div_0_l, !Z.add_0_r, (Z.mul_comm _ x) in E by (apply Z.pow_nonzero; lia). done.
Qed.

Lemma ushr_and k x m s :
  0 <= s < bits k ->
  ushr k (conv k (Z.land x m)) s = conv k (Z.land (ushr k x s) (conv k (Z.shiftr m s))).
Proof.
  intros Hs. unfold ushr. rewrite wrap_conv, wrap_land_bits, Z.shiftr_land, <- conv_land, conv_conv by lia. f_equal.
  rewrite !(Z.land_comm (Z.shiftr (wrap _ x) s)). rewrite !Z.shiftr_div_pow2 by lia.
  pose proof (pow2_pos s ltac:(lia)). apply (mask_low (bits k - s)); [lia | |].
  - unfold wrap. pose proof (Z.div_mod m (2 ^ bits k) ltac:(by destruct k)) as E.
    assert (m mod 2 ^ bits k = m + - (m / 2 ^ bits k) * 2 ^ (bits k - s) * 2 ^ s) as ->
      by (rewrite (bits_split k s) in E at 1 by lia; lia).
    rewrite Z.div_add, Z.mod_add by (try apply Z.pow_nonzero; lia). done.
  - pose proof (wrap_word k x) as Hw. split; [apply Z.div_pos; lia |].
    apply Z.div_lt_upper_bound; [lia |]. rewrite <- bits_split by lia. lia.
Qed.

Section Shifts.
Context (ph : PhaseGVN) (e : env) `{!PhaseSound ph e} `{!PhaseFolded ph}.

(** The value of a right shift of either sort. *)
Lemma right_shift_back k n x c v s :
  as_right_shift k n = Some (x, c) -> computes ph e n k v -> shift_count k (eval e c) = s ->
  computes ph e x k (eval e x) /\ computes ph e c KInt (eval e c) /\
  conv k (Z.shiftl v s) = Z.land (eval e x) (- 2 ^ s).
Proof using PhaseSound0.
  intros Hn Hv Hs. pose proof (shift_count_range k (eval e c)) as Hr. rewrite Hs in Hr.
  unfold as_right_shift in Hn. destruct (as_op RShift k n) as [[? ?]|] eqn:Ho; simplify_eq.
  - apply as_op_Some in Ho. subst n. apply computes_inputs in Hv as (Hx & Hc & ->); [| done | done].
    split_and!; [done | done |]. cbn [eval_bin].
    apply shift_right_left; [done | by eapply computes_range].
  - apply as_op_Some in Hn. subst n. apply computes_inputs in Hv as (Hx & Hc & ->); [| done | done].
    split_and!; [done | done |]. cbn [eval_bin].
    apply shift_right_left; [done | by eapply computes_range].
Qed.

Lemma neg_pow2_range k s : 0 <= s < bits k -> min_j k <= - 2 ^ s <= max_j k.
Proof using.
  intros Hs. unfold min_j. pose proof (Z.pow_le_mono_r 2 s (bits k - 1)). pose proof (pow2_pos s ltac:(lia)).
  pose proof (zero_range k). lia.
Qed.

Lemma lshift_ideal_keeps k in1 in2 a b :
  computes ph e in1 k a -> computes ph e in2 KInt b ->
  keeps ph e k (eval_bin LShift k a b) (lshift_ideal ph k in1 in2).
Proof using All.
  intros H1 H2. use_eval H2. unfold lshift_ideal. cbn [eval_bin].
  destruct (is_type _ _); [by auto with keeps |].
  destruct (con_of ph KInt in2) as [c|] eqn:Hc; [| by auto with keeps].
  pose proof (con_of_value _ _ _ _ _ _ H2 Hc) as E. rewrite <- E. clear E Hc.
  change (Z.land (eval e in2) (bits k - 1)) with (shift_count k (eval e in2)).
  pose proof (shift_count_range k (eval e in2)) as Hs. set (s := shift_count k (eval e in2)) in *.
  destruct (Z.eqb_spec s 0); [by auto with keeps |]. repeat apply keeps_or_else.
  - tests. facts ph e. keep_ret. fold s. rewrite !Z.shiftl_mul_pow2 by lia. conv_ring.
  - destruct (as_right_shift k in1) as [[x c0]|] eqn:Hr; [| by auto with keeps]. tests. take_equal e.
    destruct (right_shift_back k in1 x in2 a s Hr H1 eq_refl) as (Hx & _ & ->). keep_ret.
    pose proof (neg_pow2_range k s Hs). rewrite Z.shiftl_1_l, conv_opp, (conv_small k (- 2 ^ s)) by done.
    apply land_conv; [by eapply computes_range | done].
  - destruct (as_op And k in1) as [[add2 y]|] eqn:Ha; [| by auto with keeps].
    destruct (as_right_shift k add2) as [[x c0]|] eqn:Hr; [| by auto with keeps]. tests. take_equal e. take_inputs.
    destruct (right_shift_back k add2 x in2 (eval e add2) s Hr ltac:(done) eq_refl) as (Hx & _ & Ev). keep_ret. fold s.
    rewrite (Z.shiftl_mul_pow2 (conv _ _)), conv_mul_l, <- Z.shiftl_mul_pow2, Z.shiftl_land by lia.
    rewrite (conv_land k (Z.shiftl _ _) (Z.shiftl _ _)), Ev, land_shifted by (done || by eapply computes_range).
    apply land_conv; [by eapply computes_range | apply conv_range].
  - tests. take_inputs. pose proof (type_value ph e k _ _ _ Hb Hif) as Em. rewrite low_bits_ones in Em by lia.
    keep_ret. fold s. symmetry. apply shift_masked. done.
Qed.

(** Sign extension by two shifts, of any number that agrees in the lower bits. *)
Lemma sign_extend v w s :
  0 < s < 32 -> - 2 ^ (31 - s) <= w <= 2 ^ (31 - s) - 1 -> wrap (32 - s) v = wrap (32 - s) w ->
  conv KInt (Z.shiftr (conv KInt (Z.shiftl v s)) s) = w.
Proof using.
  intros Hs Hw E. rewrite <- (shift_back s w Hs Hw) at 1. do 2 f_equal.
  unfold wrap in E. rewrite !Z.shiftl_mul_pow2 by lia.
  pose proof (Z.div_mod v (2 ^ (32 - s)) ltac:(apply Z.pow_nonzero; lia)) as Ev.
  pose proof (Z.div_mod w (2 ^ (32 - s)) ltac:(apply Z.pow_nonzero; lia)) as Ew.
  apply (conv_eq KInt _ _ (v / 2 ^ (32 - s) - w / 2 ^ (32 - s))).
  rewrite (bits_split KInt s) by (simpl; lia). cbn [bits]. rewrite Ev at 1. rewrite Ew at 1. rewrite E. ring.
Qed.

Lemma swrap_bounds w c : 0 < w -> - 2 ^ (w - 1) <= swrap w c <= 2 ^ (w - 1) - 1.
Proof using. intros Hw. pose proof (swrap_range w c Hw) as H. unfold in_signed in H. lia. Qed.

Lemma rshift_zero n v : computes ph e n KInt v -> builds ph e (Bin RShift KInt n (intcon 0)) KInt v.
Proof using PhaseSound0.
  intros Hn. eapply builds_eq; [by apply builds_rshift |]. by rewrite Z.pow_0_r, Z.div_1_r.
Qed.

Lemma rshift_int_keeps can_reshape in1 in2 a b :
  computes ph e in1 KInt a -> computes ph e in2 KInt b ->
  keeps ph e KInt (eval_bin RShift KInt a b) (RShiftINode_Ideal ph can_reshape in1 in2).
Proof using All.
  intros H1 H2. unfold RShiftINode_Ideal. cbn [eval_bin].
  destruct (isa KInt (type ph in1)); [| by auto with keeps].
  destruct (con_of ph KInt in2) as [c|] eqn:Hc; [| by auto with keeps].
  pose proof (con_of_value _ _ _ _ _ _ H2 Hc) as <-. clear Hc.
  change (Z.land b (32 - 1)) with (shift_count KInt b).
  pose proof (shift_count_range KInt b) as Hs. set (s := shift_count KInt b) in *.
  destruct (Z.eqb_spec s 0); [by auto with keeps |]. apply keeps_or_else.
  - tests. facts ph e. keep_ret. fold s.
    pose proof (computes_range _ _ _ _ _ Hb) as Rm. pose proof (computes_range _ _ _ _ _ Ha) as Ra.
    rewrite (land_conv KInt (eval e n0)), Z.shiftr_land by done.
    by rewrite (conv_small KInt (Z.shiftr (eval e n0) s)), (conv_small KInt (Z.shiftr z s)) by (apply shiftr_range; [lia | done]).
  - destruct (as_op LShift KInt in1) as [[ld c1]|] eqn:Ho; [| by auto with keeps].
    destruct (con_of ph KInt c1) as [c3|] eqn:Hc3; [| by auto with keeps]. take_inputs.
    pose proof (con_of_value _ _ _ _ _ _ Hb Hc3) as Ec. cbn [eval_bin]. rewrite Ec.
    destruct ld as [|op adr| | | | | | | |]; try (by tests).
    apply keeps_or_else; tests; match goal with E1 : (s =? _) = true, E2 : (c3 =? _) = true |- _ =>
      apply Z.eqb_eq in E1, E2; rewrite E1, E2; clear E1 E2 end;
      match goal with |- context [shift_count KInt ?x] => change (shift_count KInt x) with x end.
    + destruct op; tests; apply keeps_ret.
      * apply rshift_zero. apply (computes_eq _ _ _ _ _ _ Ha). symmetry.
        apply sign_extend; [done | | done]. exact (swrap_bounds 16 (memory e adr) eq_refl).
      * apply (builds_eq _ _ _ _ _ _ (builds_load ph e LoadS adr)). symmetry.
        apply sign_extend; [done | |].
        -- exact (swrap_bounds 16 (memory e adr) eq_refl).
        -- symmetry. by apply wrap_swrap_wrap.
    + destruct op; tests; apply keeps_ret, rshift_zero. apply (computes_eq _ _ _ _ _ _ Ha). symmetry.
      apply sign_extend; [done | | done]. exact (swrap_bounds 8 (memory e adr) eq_refl).
Qed.

Lemma urshift_ideal_keeps k in1 in2 a b :
  computes ph e in1 k a -> computes ph e in2 KInt b ->
  keeps ph e k (eval_bin URShift k a b) (urshift_ideal ph k in1 in2).
Proof using All.
  intros H1 H2. unfold urshift_ideal. change (eval_bin URShift k a b) with (ushr k a (shift_count k b)).
  destruct (isa KInt (type ph in2)) as [t2|] eqn:Hi; [| by auto with keeps].
  destruct (is_con t2) eqn:Hcon; simpl negb; cbv iota; [| by auto with keeps].
  assert (get_con t2 = b) as Eb.
  { symmetry. apply con_value; [done |]. eapply isa_value; [by eapply computes_type | done]. }
  assert (forall z v, computes ph e z KInt v -> is_type (type ph z) (Num KInt t2) = true -> v = b) as Hsame.
  { intros z v Hz Ht%is_type_true. rewrite <- Eb. apply con_value; [done |].
    eapply isa_value; [by eapply computes_type |]. rewrite Ht. apply isa_num. }
  rewrite Eb. change (Z.land b (bits k - 1)) with (shift_count k b).
  pose proof (shift_count_range k b) as Hs. set (s := shift_count k b) in *.
  destruct (Z.eqb_spec s 0); [by auto with keeps |]. rewrite low_bits_ones by lia.
  assert (conv k (Z.ones (bits k - s)) = Z.ones (bits k - s)) as Eo.
  { rewrite <- (low_bits_ones k (bits k - s)) by lia. destruct k; apply conv_conv. }
  repeat apply keeps_or_else.
  - destruct k; [| by auto with keeps]. tests. facts ph e.
    assert (0 <= Z.land z 31 < 32) as Hz by exact (shift_count_range KInt z). change (bits KInt) with 32 in Hs.
    assert (shift_count KInt (conv KInt (s + Z.land z 31)) = s + Z.land z 31) as Ec.
    { apply shift_count_con. change (bits KInt) with 32. lia. }
    keep_ret. rewrite Ec. change (ushr KInt (eval e n0) (s + Z.land z 31) = ushr KInt (ushr KInt (eval e n0) (Z.land z 31)) s).
    rewrite ushr_ushr by lia. f_equal. lia.
  - tests. take_inputs. pose proof (Hsame _ _ Hb0 Hif) as Ez. keep_ret. fold s. rewrite Eo.
    symmetry. by apply ushr_sum.
  - tests. facts ph e. keep_ret. fold s. symmetry. by apply ushr_and.
  - tests. take_inputs. pose proof (Hsame _ _ Hb Hif) as Ez. keep_ret. fold s. rewrite Eo.
    symmetry. by apply ushr_shl.
Qed.

End Shifts.

(** ** Minima *)

(** The sum that [offset] takes apart does not wrap. *)
Definition sum_exact (e : env) (x : Node) : Prop :=
  let '(y, c) := offset x in min_j KInt <= eval e y + c <= max_j KInt.

(** A new node that may be a minimum. *)
Definition makes (ph : PhaseGVN) (e : env) (n : Node) (v : Z) : Prop :=
  fresh ph e n /\ kind_of n = KInt /\ eval e n = v.

Section Minima.
Context (ph : PhaseGVN) (e : env) `{!PhaseSound ph e} `{!MinSound ph e}.

Lemma offset_value x v :
  computes ph e x KInt v -> let '(y, c) := offset x in
  computes ph e y KInt (eval e y) /\ min_j KInt <= c <= max_j KInt /\ (sum_exact e x -> v = eval e y + c).
Proof using PhaseSound0.
  intros Hx. unfold sum_exact, offset. destruct (as_op Add KInt x) as [[y n]|] eqn:Hop.
  2: { split_and!; [by destruct Hx as (? & ? & _) | done | done |]. intros _. destruct Hx as (_ & _ & <-). lia. }
  assert (computes ph e x KInt (eval e x) /\ min_j KInt <= 0 <= max_j KInt /\ v = eval e x + 0) as Hsame.
  { destruct Hx as (? & ? & <-). split_and!; try done. lia. }
  destruct n as [[] z| | | | | | | | |]; try (destruct Hsame as (? & ? & ?); done).
  apply as_op_Some in Hop. subst x. apply computes_inputs in Hx as (Hy & _ & ->); [| done | done].
  split_and!; [done | apply conv_range | apply conv_range |]. intros Hr. simpl. by rewrite conv_small.
Qed.

Lemma makes_transform n v : makes ph e n v -> computes ph e (transform ph n) KInt v.
Proof using All.
  intros (Hf & <- & <-). destruct (is_Min n) eqn:Hm;
    [destruct (transform_min n Hf Hm) as (? & ? & ?) | destruct (transform_sound n Hf Hm) as (? & ? & ?)];
    by split_and!.
Qed.

Lemma makes_min l r a b w :
  computes ph e l KInt a -> computes ph e r KInt b -> Z.min a b = w -> makes ph e (Bin Min KInt l r) w.
Proof using.
  intros Hl Hr <-. pose proof (computes_range _ _ _ _ _ Hl). pose proof (computes_range _ _ _ _ _ Hr).
  destruct Hl as (? & ? & <-), Hr as (? & ? & <-).
  split_and!; [by apply fresh_bin | done |]. simpl. apply conv_small. lia.
Qed.

(** The smaller of two sums with one term. *)
Lemma min_of_sums x y a b vx vy cx cy :
  offset x = (vx, cx) -> offset y = (vy, cy) -> eqv ph vx vy = true ->
  computes ph e x KInt a -> computes ph e y KInt b -> sum_exact e x -> sum_exact e y ->
  makes ph e (Bin Add KInt vx (intcon (MIN2 cx cy))) (Z.min a b).
Proof using PhaseSound0.
  intros Ox Oy He Hx Hy Sx Sy. pose proof (offset_value x a Hx) as Vx. pose proof (offset_value y b Hy) as Vy.
  unfold sum_exact in *. rewrite Ox in *. rewrite Oy in *. destruct Vx as (Cx & Rx & Ex), Vy as (_ & Ry & Ey).
  apply (eqv_same (e := e)) in He. subst vy. rewrite Ex, Ey by done. rewrite MIN2_min.
  assert (builds ph e (Bin Add KInt vx (intcon (Z.min cx cy))) KInt (Z.min (eval e vx + cx) (eval e vx + cy)))
    as ([? _] & ? & ?); [| done].
  eapply builds_exact; [done | | | exact Cx | by apply computes_con].
  - simpl. rewrite (conv_small KInt (Z.min cx cy)) by lia. f_equal. lia.
  - lia.
Qed.

(** The method returns, and a node it returns is the minimum. *)
Definition keeps_min (v : Z) (r : ideal) : Prop :=
  exists x, r = Some x /\ forall q, x = Some q -> makes ph e q v.
Lemma keeps_min_ret v n : makes ph e n v -> keeps_min v (ret n).
Proof using. intros H. exists (Some n). split; [done |]. by intros ? [= <-]. Qed.
Lemma keeps_min_none v : keeps_min v none.
Proof using. by exists None. Qed.

Lemma min_ideal_keeps l r a b :
  computes ph e l KInt a -> computes ph e r KInt b -> sum_exact e l -> sum_exact e r ->
  (forall r1 r2, r = Bin Min KInt r1 r2 -> sum_exact e r1) ->
  keeps_min (Z.min a b) (MinINode_Ideal ph l r).
Proof using All.
  intros Hl Hr Sl Sr Sr1. unfold MinINode_Ideal. destruct (as_op Min KInt l) as [[l1 l2]|] eqn:Ol.
  { apply as_op_Some in Ol. subst l. apply computes_inputs in Hl as (H1 & H2 & ->); [| done | done].
    pose proof (computes_range _ _ _ _ _ H1). pose proof (computes_range _ _ _ _ _ H2). cbn [is_shift] in *.
    apply keeps_min_ret. eapply makes_min; [exact H1 | by eapply makes_transform, makes_min |].
    simpl. rewrite conv_small by lia. lia. }
  destruct (offset l) as [x x_off] eqn:Ox, (offset r) as [y y_off] eqn:Oy.
  destruct (as_op Min KInt r) as [[r1 r2]|] eqn:Or.
  - apply as_op_Some in Or. subst r. specialize (Sr1 r1 r2 eq_refl). injection Oy as <- <-.
    match goal with |- context [match as_op Add KInt r1 with Some _ => _ | None => _ end] =>
      change (match as_op Add KInt r1 with Some _ => _ | None => _ end) with (offset r1) end.
    destruct (offset r1) as [y1 y1_off] eqn:Oy1.
    apply computes_inputs in Hr as (H1 & H2 & ->); [| done | done]. cbn [is_shift] in H2.
    pose proof (computes_range _ _ _ _ _ H1). pose proof (computes_range _ _ _ _ _ H2). cbn [eval_bin].
    rewrite (conv_small KInt) by lia. destruct (idx_gt ph x y1); [| destruct (eqv ph x y1) eqn:He]; simpl negb; cbv iota.
    + apply keeps_min_ret. eapply makes_min; [exact H1 | by eapply makes_transform, makes_min | lia].
    + apply keeps_min_ret. eapply makes_min; [| exact H2 |]; [by eapply makes_transform, min_of_sums | lia].
    + apply keeps_min_none.
  - destruct (idx_gt ph x y); [| destruct (eqv ph x y) eqn:He]; simpl negb; cbv iota; [| | apply keeps_min_none].
    + apply keeps_min_ret. eapply makes_min; [done | done | lia].
    + apply keeps_min_ret. by eapply min_of_sums.
Qed.

End Minima.

(** C40.  The rewriting of minima.  [MinINode::Ideal] keeps the minimum if none of the sums with a
    constant that it takes apart wraps around; if one does, it need not: the smaller of
    [x + 1] and [x + 2] is not [x + 1] where only [x + 2] wraps. *)
Theorem min_rewriting :
  (forall ph e l r, PhaseSound ph e -> MinSound ph e -> fresh ph e (Bin Min KInt l r) ->
     sum_exact e l -> sum_exact e r -> (forall r1 r2, r = Bin Min KInt r1 r2 -> sum_exact e r1) ->
     exists q, MinINode_Ideal ph l r = Some q /\
       forall n, q = Some n -> makes ph e n (eval e (Bin Min KInt l r))) /\
  exists e l r n, MinINode_Ideal simple_phase l r = ret n /\
    eval e (Bin Min KInt l r) = min_j KInt /\ eval e n = max_j KInt.
Proof.
  split.
  - intros ph e l r Hph Hmin Hf Sl Sr Sr1. destruct (fresh_inputs ph e Min KInt l r Hf) as (Hl & Hr & _).
    pose proof (min_ideal_keeps ph e l r _ _ Hl Hr Sl Sr Sr1) as Hk.
    destruct (makes_min ph e l r _ _ _ Hl Hr eq_refl) as (_ & _ & ->). exact Hk.
  - exists (mkEnv (fun _ _ => 2147483646) (fun _ => 0)).
    exists (Bin Add KInt (Leaf KInt 0) (Con KInt 1)), (Bin Add KInt (Leaf KInt 0) (Con KInt 2)).
    exists (Bin Add KInt (Leaf KInt 0) (intcon 1)). by vm_compute.
Qed.

(** The method of any operation that keeps its value. *)
Lemma ideal_builds ph e can_reshape undefined op k in1 in2 :
  PhaseSound ph e -> PhaseFolded ph -> fresh ph e (Bin op k in1 in2) ->
  exists r, Ideal ph can_reshape undefined op k in1 in2 = Some r /\
    forall n, r = Some n -> builds ph e n (kind_of (Bin op k in1 in2)) (eval e (Bin op k in1 in2)).
Proof.
  intros Hph Hf Hfresh. destruct (fresh_inputs ph e op k in1 in2 Hfresh) as (H1 & H2 & Hcl & _).
  change (eval e (Bin op k in1 in2)) with (eval_bin op k (eval e in1) (eval e in2)).
  change (keeps ph e (kind_of (Bin op k in1 in2)) (eval_bin op k (eval e in1) (eval e in2))
    (Ideal ph can_reshape undefined op k in1 in2)).
  destruct op; cbn [is_shift] in *; cbn [Ideal kind_of]; try by auto with keeps.
  all: try (apply add_node_keeps; unfold associative; tauto).
  - destruct k; by apply add_ideal_keeps.
  - destruct k; by apply sub_ideal_keeps.
  - destruct k; by apply mul_ideal_keeps.
  - destruct k; [by apply and_int_keeps | by apply and_long_keeps].
  - destruct k; by apply lshift_ideal_keeps.
  - destruct k; [by apply rshift_int_keeps | by auto with keeps].
  - destruct k; by apply urshift_ideal_keeps.
Qed.

(** C5.  Rewritings.  For new nodes for sums, differences, products, masks, unions, maxima and shifts
    of ints and longs, in every phase that is sound for an execution and has folded its
    constants, [Ideal] returns without a failed assertion, and a node it returns is a new
    node whose inputs are in the graph and computes the value of the node it replaces;
    so it does whatever C++ makes of the one shift by the width that the method of the
    long mask can ask for. *)
Theorem ideal_sound ph e can_reshape undefined op k in1 in2 :
  PhaseSound ph e -> PhaseFolded ph -> fresh ph e (Bin op k in1 in2) ->
  exists r, Ideal ph can_reshape undefined op k in1 in2 = Some r /\
    forall n, r = Some n -> builds ph e n (kind_of (Bin op k in1 in2)) (eval e (Bin op k in1 in2)).
Proof. apply ideal_builds. Qed.

(** Multiplying by 7, and masking a signed shift. *)
Lemma ideal_sound_witness :
  let e := mkEnv (fun _ n => Z.of_nat n - 5) (fun _ => 0) in
  let x := Leaf KInt 0 in
  let seven := Bin Sub KInt (Bin LShift KInt x (intcon 3)) x in
  let shifted := Bin RShift KLong (Leaf KLong 0) (Con KInt 60) in
  let unsigned := Bin And KLong (Bin URShift KLong (Leaf KLong 0) (Con KInt 60)) (Con KLong 15) in
  Ideal simple_phase false 0 Mul KInt x (Con KInt 7) = ret seven /\
  eval e seven = eval e (Bin Mul KInt x (Con KInt 7)) /\
  Ideal simple_phase false 0 And KLong shifted (Con KLong 15) = ret unsigned /\
  eval e unsigned = eval e (Bin And KLong shifted (Con KLong 15)).
Proof.
  intros e x seven shifted unsigned.
  assert (Ideal simple_phase false 0 Mul KInt x (Con KInt 7) = ret seven) as I1 by (vm_compute; reflexivity).
  assert (Ideal simple_phase false 0 And KLong shifted (Con KLong 15) = ret unsigned) as I2 by (vm_compute; reflexivity).
  destruct (ideal_sound simple_phase e false 0 Mul KInt x (Con KInt 7)) as (r & Hr & Hv);
    [apply simple_phase_sound | apply simple_phase_folded | repeat split; discriminate |].
  destruct (ideal_sound simple_phase e false 0 And KLong shifted (Con KLong 15)) as (r' & Hr' & Hv');
    [apply simple_phase_sound | apply simple_phase_folded | repeat split; discriminate |].
  rewrite I1 in Hr. rewrite I2 in Hr'. injection Hr as <-. injection Hr' as <-.
  split; [exact I1 |]. split; [apply (Hv seven eq_refl) |]. split; [exact I2 | apply (Hv' unsigned eq_refl)].
Defined.

End IdealShiftTheorems.
