(* ===== verification/IdealConvert.v ===== *)
(** The C2 compiler's conversions, tests and conditional moves: the methods [Value],
    [Identity] and [Ideal] of ConvI2LNode, ConvL2INode, Conv2BNode, BoolNode and
    CMoveNode (opto/connode.cpp, subnode.cpp).

    As for the operations with two inputs, a method works on the inputs of [this], and
    [Some None] is NULL for [Ideal].  Tests of overflow flags are not modelled, nor are
    the comparisons of pointers and of floating-point numbers. *)
From S2P Require Import Prelude GlobalDefinitions IdealType IdealNode IdealValue IdealTransform.
Import GlobalDefinitions IdealType IdealNode IdealValue IdealTransform.

Module IdealConvert.

Definition is_Con (n : Node) : bool := match n with Con _ _ => true | _ => false end.

(** ** Tests *)

(** The masks: two bits to compare with the flags, and one that complements. *)
Definition test_mask (test : BoolTest) : Z :=
  match test with bt_eq => 0 | bt_gt => 1 | bt_lt => 3 | bt_ne => 4 | bt_le => 5 | bt_ge => 7 end.
Definition of_mask (m : Z) : option BoolTest :=
  find (fun test => test_mask test =? m) [bt_eq; bt_gt; bt_lt; bt_ne; bt_le; bt_ge].

Definition commute_table : list Z := [0; 3; 2; 1; 4; 7; 6; 5; 8].
Definition BoolTest_commute (test : BoolTest) : BoolTest :=
  default test (m ← commute_table !! Z.to_nat (test_mask test); of_mask m).
Definition BoolTest_negate (test : BoolTest) : BoolTest := default test (of_mask (Z.lxor (test_mask test) 4)).

Definition cc2logical (test : BoolTest) (cc : Type_) : Type_ :=
  if is_type cc TOP then TOP else
  match isa KInt cc with
  | None => BOOL
  | Some ti =>
      if is_con ti then
        let tmp := if Z.land (get_con ti) 3 =? Z.land (test_mask test) 3 then 1 else 0 in
        let tmp := if negb (Z.land (test_mask test) 4 =? 0) then 1 - tmp else tmp in
        con_type KInt tmp
      else if is_type cc CC_GE && bool_decide (test = bt_ge) then ONE KInt
      else if is_type cc CC_GE && bool_decide (test = bt_lt) then ZERO KInt
      else if is_type cc CC_LE && bool_decide (test = bt_le) then ONE KInt
      else if is_type cc CC_LE && bool_decide (test = bt_gt) then ZERO KInt
      else BOOL
  end.

Definition eq_or_ne (test : BoolTest) : bool := bool_decide (test = bt_eq) || bool_decide (test = bt_ne).

(** [is_Sub]: the class, kind and inputs of a difference or comparison. *)
Definition as_Sub (n : Node) : option (arith * kind * Node * Node) :=
  match n with
  | Bin Sub k a b => Some (Sub, k, a, b)
  | Bin Cmp k a b => Some (Cmp, k, a, b)
  | _ => None
  end.
Definition as_Cmp (n : Node) : option (kind * Node * Node) :=
  match n with Bin Cmp k a b => Some (k, a, b) | _ => None end.

(** [long_ranges_overlap] *)
Definition long_ranges_overlap (lo1 hi1 lo2 hi2 : Z) : bool :=
  ((lo2 <=? lo1) && (lo1 <=? hi2)) || ((lo1 <=? lo2) && (lo2 <=? hi1)).

Section Methods.
Context (ph : PhaseGVN).

(** ** ConvI2L *)

Definition ConvI2LNode_Value (in1 : Node) (_type : range) : option Type_ :=
  let t := type ph in1 in
  if is_type t TOP then Some TOP else
  ti ← isa KInt t;
  Some (filter_range KLong (make KLong (_lo ti) (_hi ti) (_widen ti)) (Num KLong _type)).

(** The type a conversion is given when no loop optimization follows: what its input
    has, apart from the sign of the type it was made with. *)
Definition widened_I2L (in_type this_type : range) : range :=
  let lo1 := _lo this_type in
  let hi1 := _hi this_type in
  let '(lo1, hi1) :=
    if negb (lo1 =? conv KInt lo1) || negb (hi1 =? conv KInt hi1) || (hi1 <? lo1) then (min_j KInt, max_j KInt)
    else if 0 <=? lo1 then (0, max_j KInt)
    else if hi1 <? 0 then (min_j KInt, -1)
    else (min_j KInt, max_j KInt) in
  make KLong (MAX2 (_lo in_type) lo1) (MIN2 (_hi in_type) hi1) (MAX2 (_widen in_type) (_widen this_type)).

Definition ConvI2LNode_changed (can_reshape : bool) (in1 : Node) (this_type : range) : option Node :=
  if can_reshape && negb (major_progress ph) then
    match isa KInt (type ph in1) with
    | Some in_type =>
        if negb (_lo in_type =? _lo this_type) || negb (_hi in_type =? _hi this_type) then
          let wtype := widened_I2L in_type this_type in
          if bool_decide (wtype = this_type) then None else Some (ConvI2L in1 wtype)
        else None
    | None => None
    end
  else None.

Definition as_sum (n : Node) : option (arith * Node * Node) :=
  match n with
  | Bin Add KInt x y => Some (Add, x, y)
  | Bin Sub KInt x y => Some (Sub, x, y)
  | _ => None
  end.

Definition ConvI2LNode_Ideal (can_reshape : bool) (in1 : Node) (this_type : range) : ideal :=
  let this_changed := Some (ConvI2LNode_changed can_reshape in1 this_type) in
  match as_sum in1 with
  | None => this_changed
  | Some (op, x, y) =>
      if is_type (type ph x) TOP then this_changed else
      if is_type (type ph y) TOP then this_changed else
      tx ← isa KInt (type ph x);
      ty ← isa KInt (type ph y);
      let xlo := _lo tx in
      let xhi := _hi tx in
      let zlo := _lo this_type in
      let zhi := _hi this_type in
      let vbit := Z.shiftl 1 32 in
      let widen := MAX2 (_widen tx) (_widen ty) in
      let '(ylo, yhi) := match op with Sub => (- _hi ty, - _lo ty) | _ => (_lo ty, _hi ty) end in
      if long_ranges_overlap (jlong (xlo + ylo)) (jlong (xhi + yhi)) (jlong (zlo + vbit)) (jlong (zhi + vbit))
      then this_changed else
      if long_ranges_overlap (jlong (xlo + ylo)) (jlong (xhi + yhi)) (jlong (zlo - vbit)) (jlong (zhi - vbit))
      then this_changed else
      let rxlo := MAX2 xlo (jlong (zlo - yhi)) in
      let rxhi := MIN2 xhi (jlong (zhi - ylo)) in
      let rylo := MAX2 ylo (jlong (zlo - xhi)) in
      let ryhi := MIN2 yhi (jlong (zhi - xlo)) in
      if (rxhi <? rxlo) || (ryhi <? rylo) then this_changed else
      let '(rylo, ryhi) := match op with Sub => (- ryhi, - rylo) | _ => (rylo, ryhi) end in
      let cx := transform ph (ConvI2L x (make KLong rxlo rxhi widen)) in
      let cy := transform ph (ConvI2L y (make KLong rylo ryhi widen)) in
      ret (Bin op KLong cx cy)
  end.

(** ** ConvL2I *)

Definition ConvL2INode_Identity (in1 : Node) : Node :=
  match in1 with ConvI2L x _ => x | _ => ConvL2I in1 end.

Definition ConvL2INode_Value (in1 : Node) : option Type_ :=
  let t := type ph in1 in
  if is_type t TOP then Some TOP else
  tl ← isa KLong t;
  if is_con tl then Some (con_type KInt (conv KInt (get_con tl))) else Some (FULL KInt).

Definition ConvL2INode_Ideal (andl : Node) : ideal :=
  match as_op And KLong andl with
  | Some (x, m) => if is_type (type ph m) (con_type KLong 0xFFFFFFFF) then ret (ConvL2I x) else none
  | None => none
  end <|>
  match as_op Add KLong andl with
  | Some (x, y) =>
      if negb (outcnt_1 ph andl) then none else
      if is_type (type ph x) TOP then none else
      if is_type (type ph y) TOP then none else
      let add1 := transform ph (ConvL2I x) in
      let add2 := transform ph (ConvL2I y) in
      ret (Bin Add KInt add1 add2)
  | None => none
  end.

(** ** Conv2B, of ints *)

Definition Conv2BNode_Identity (in1 : Node) : Node :=
  let t := type ph in1 in
  if is_type t TOP || is_type t (ZERO KInt) || is_type t (ONE KInt) || is_type t BOOL then in1 else Conv2B in1.

Definition Conv2BNode_Value (in1 : Node) : Type_ :=
  let t := type ph in1 in
  if is_type t TOP then TOP else
  if is_type t (ZERO KInt) then ZERO KInt else
  match isa KInt t with
  | None => BOOL
  | Some ti => if (_hi ti <? 0) || (0 <? _lo ti) then ONE KInt else BOOL
  end.

(** ** Bool *)

Definition BoolNode_Value (test : BoolTest) (in1 : Node) : Type_ := cc2logical test (type ph in1).
Definition BoolNode_negate (test : BoolTest) (in1 : Node) : Node := Bool_ (BoolTest_negate test) in1.

(** A [Conv2B] of a pointer, whose comparison is another class, is [None]. *)
Definition BoolNode_Ideal (test : BoolTest) (in1 : Node) : ideal :=
  match as_Sub in1 with
  | None => none
  | Some (cop, k, cmp1, cmp2) =>
      if is_Con cmp1 && negb (is_Con cmp2) && negb (is_Opaque1 ph cmp2) && negb (loop_exit_test ph (Bool_ test in1))
      then ret (Bool_ (BoolTest_commute test) (transform ph (Bin cop k cmp2 cmp1))) else
      match isa KInt (type ph cmp2) with
      | None => none
      | Some cmp2_type =>
          let is_CmpI := bool_decide (cop = Cmp) && bool_decide (k = KInt) in
          let vs_zero := is_type (Num KInt cmp2_type) (ZERO KInt) in
          match as_op Xor KInt cmp1 with
          | Some (x, one) =>
              if vs_zero && is_type (type ph x) BOOL && is_type (type ph one) (ONE KInt) && eq_or_ne test
              then ret (Bool_ (BoolTest_negate test) (transform ph (Bin Cmp KInt x cmp2))) else none
          | None => none
          end <|>
          match cmp1 with
          | Conv2B x =>
              if vs_zero && eq_or_ne test then
                match isa KInt (type ph x) with
                | Some _ => ret (Bool_ test (transform ph (Bin Cmp KInt x cmp2)))
                | None => None
                end
              else none
          | _ => none
          end <|>
          match as_op Sub KInt cmp1 with
          | Some (x, y) =>
              if eq_or_ne test && is_CmpI && vs_zero then ret (Bool_ test (transform ph (Bin Cmp KInt x y)))
              else if is_CmpI && vs_zero && is_zero ph KInt x && higher_equal (type ph y) SYMINT
              then ret (Bool_ (BoolTest_commute test) (transform ph (Bin Cmp KInt y cmp2)))
              else none
          | None => none
          end
      end
  end.

(** ** CMove *)

Definition CMoveNode_Ideal (k : kind) (c f t : Node) : ideal :=
  if is_type (type ph c) TOP then none else
  if is_Con f && negb (is_Con t) then
    match c with
    | Bool_ test b => ret (CMove k (transform ph (BoolNode_negate test b)) t f)
    | _ => none
    end
  else none.

(** Whether a value was compared with the other one. *)
Definition is_cmove_id (cmp1 cmp2 t f : Node) (test : BoolTest) : option Node :=
  if (eqv ph cmp1 f && eqv ph cmp2 t) || (eqv ph cmp2 f && eqv ph cmp1 t) then
    if bool_decide (test = bt_eq) then Some f
    else if bool_decide (test = bt_ne) then Some t
    else None
  else None.

Definition CMoveNode_Identity (k : kind) (c f t : Node) : Node :=
  if eqv ph f t then f else
  if is_zero ph KInt c then f else
  if is_type (type ph c) (ONE KInt) then t else
  match c with
  | Bool_ test cmp =>
      match as_Cmp cmp with
      | Some (_, cmp1, cmp2) => default (CMove k c f t) (is_cmove_id cmp1 cmp2 t f test)
      | None => CMove k c f t
      end
  | _ => CMove k c f t
  end.

Definition CMoveNode_Value (c f t : Node) : Type_ :=
  if is_type (type ph c) TOP then TOP else xmeet (type ph f) (type ph t).

(** What the moves of 0 and 1 after a comparison with 0 or 1 come to: the value that is
    compared and whether to flip it. *)
Definition cmove_to_bool (c f t : Node) : option (Node * bool) :=
  flip ← (if is_zero ph KInt f && is_type (type ph t) (ONE KInt) then Some true
          else if is_type (type ph f) (ONE KInt) && is_zero ph KInt t then Some false
          else None);
  match c with
  | Bool_ test b =>
      flip ← (if bool_decide (test = bt_eq) then Some flip
              else if bool_decide (test = bt_ne) then Some (negb flip)
              else None);
      '(_, cmp1, cmp2) ← as_Cmp b;
      if is_zero ph KInt cmp2 then Some (cmp1, flip)
      else if is_type (type ph cmp2) (ONE KInt) then
        if is_type (type ph cmp1) BOOL then Some (cmp1, negb flip) else None
      else None
  | _ => None
  end.

Definition CMoveINode_Ideal (c f t : Node) : ideal :=
  CMoveNode_Ideal KInt c f t <|>
  (if is_zero ph KInt f && negb (is_zero ph KInt t) then
     match c with
     | Bool_ test b => ret (CMove KInt (transform ph (BoolNode_negate test b)) t f)
     | _ => none
     end
   else none) <|>
  match cmove_to_bool c f t with
  | Some (x, flip) =>
      if flip then ret (Bin Xor KInt (transform ph (Conv2B x)) (intcon 1)) else ret (Conv2B x)
  | None => none
  end.

(** ** Booleans as ints *)

Definition as_int_value (test : BoolTest) (in1 : Node) : Node :=
  transform ph (CMove KInt (Bool_ test in1) (intcon 0) (intcon 1)).

Definition make_predicate (test_value : Node) : Node :=
  let compare := transform ph (Bool_ bt_ne (transform ph (Bin Cmp KInt test_value (intcon 0)))) in
  match test_value with
  | Con _ _ | Bool_ _ _ => test_value
  | CMove _ (Bool_ test b) f t =>
      let ftype := type ph f in
      let ttype := type ph t in
      if is_type ftype (ZERO KInt) && negb (higher_equal (ZERO KInt) ttype) then Bool_ test b
      else if is_type ttype (ZERO KInt) && negb (higher_equal (ZERO KInt) ftype)
      then transform ph (BoolNode_negate test b)
      else compare
  | _ => compare
  end.

End Methods.

End IdealConvert.
