(* ===== verification/IdealConvertTheorems.v ===== *)
(** Conversions, tests and conditional moves of the C2 compiler: their types hold of the
    values they compute, and the nodes that replace them compute the same values. *)
From S2P Require Import Prelude GlobalDefinitions IdealType IdealTypeTheorems IdealNode IdealValue IdealRings IdealValueTheorems IdealComputes IdealDivide IdealDivideTheorems IdealTransform IdealIdentityTheorems IdealTransformTheorems IdealConvert.
Import GlobalDefinitions IdealType IdealTypeTheorems IdealNode IdealValue IdealRings IdealValueTheorems.
Import IdealComputes IdealDivide IdealDivideTheorems IdealTransform IdealIdentityTheorems IdealTransformTheorems IdealConvert.

Module IdealConvertTheorems.

(** ** Tests *)

Lemma eval_test_flags test a b :
  eval_test test (flags a b) =
  match test with
  | bt_eq => a =? b | bt_ne => negb (a =? b) | bt_lt => a <? b
  | bt_le => a <=? b | bt_gt => b <? a | bt_ge => b <=? a
  end.
Proof.
  unfold flags. apply eq_true_iff_eq.
  destruct (Z.ltb_spec a b), (Z.eqb_spec a b), test; simpl; rewrite ?negb_true_iff; lia.
Qed.

(** What the table and the complement come to. *)
Lemma commute_spec test :
  BoolTest_commute test =
  match test with bt_gt => bt_lt | bt_lt => bt_gt | bt_le => bt_ge | bt_ge => bt_le | _ => test end.
Proof. by destruct test. Qed.
Lemma negate_spec test :
  BoolTest_negate test =
  match test with bt_eq => bt_ne | bt_ne => bt_eq | bt_gt => bt_le | bt_le => bt_gt | bt_lt => bt_ge | bt_ge => bt_lt end.
Proof. by destruct test. Qed.

Lemma commute_test test v : eval_test (BoolTest_commute test) (- v) = eval_test test v.
Proof. rewrite commute_spec. apply eq_true_iff_eq. destruct test; simpl; rewrite ?negb_true_iff; lia. Qed.

Lemma flags_opp a b : flags b a = - flags a b.
Proof. unfold flags. destruct (Z.ltb_spec a b), (Z.ltb_spec b a), (Z.eqb_spec a b), (Z.eqb_spec b a); lia. Qed.

Lemma negate_test test v : eval_test (BoolTest_negate test) v = negb (eval_test test v).
Proof. rewrite negate_spec. apply eq_true_iff_eq. destruct test; simpl; rewrite ?negb_true_iff; lia. Qed.

(** The type of a test of flags. *)
Lemma cc2logical_sound test cc v :
  sound KInt v cc -> -1 <= v <= 1 -> sound KInt (Z.b2z (eval_test test v)) (cc2logical test cc).
Proof.
  intros Hs Hv. unfold cc2logical. guard_top Hs.
  assert (forall b, sound KInt (Z.b2z b) BOOL) as Hbool by (intros []; by vm_compute).
  assert (forall b, sound KInt (Z.b2z b) (con_type KInt (Z.b2z b))) as Hcon by (intros []; by vm_compute).
  destruct (isa KInt cc) as [ti|] eqn:Hi; [| done]. pose proof (isa_value _ _ _ _ Hs Hi) as Hti.
  destruct (is_con ti) eqn:Hc.
  { rewrite <- (con_value _ _ Hc Hti).
    assert (v = -1 \/ v = 0 \/ v = 1) as [->|[->| ->]] by lia; destruct test; by vm_compute. }
  clear Hc. destruct (is_type cc CC_GE) eqn:Hge; [| destruct (is_type cc CC_LE) eqn:Hle; [| done]].
  - apply is_type_true in Hge. rewrite Hge in Hi. injection Hi as <-. simpl in Hti.
    assert (is_type cc CC_LE = false) as Hle by (by rewrite Hge). rewrite Hle.
    assert (v = 0 \/ v = 1) as [->| ->] by lia; destruct test; by vm_compute.
  - apply is_type_true in Hle. rewrite Hle in Hi. injection Hi as <-. simpl in Hti.
    assert (v = -1 \/ v = 0) as [->| ->] by lia; destruct test; by vm_compute.
Qed.

(** ** Types *)

(** A range filtered by one that shares a value with it. *)
Lemma filter_num k r r' v :
  range_wf k r -> range_wf k r' -> _lo r <= v <= _hi r -> _lo r' <= v <= _hi r' ->
  exists f, filter_range k r (Num k r') = Num k f /\ range_wf k f /\
    _lo f = Z.max (_lo r) (_lo r') /\ _hi f = Z.min (_hi r) (_hi r').
Proof.
  intros Hr Hr' Hv Hv'. unfold filter_range.
  assert (type_wf (join (Num k r) (Num k r'))) as Hw
    by (apply xdual_wf, xmeet_wf; apply xdual_wf; done).
  destruct (join_num k r r' Hr Hr') as [w Hj]. rewrite Hj in *. rewrite isa_num. unfold empty_range. cbn [_lo _hi _widen].
  rewrite (proj2 (Z.ltb_ge _ _)) by lia. destruct (w <? _widen r); eexists; (split; [done |]); split; try done.
  apply make_wf; destruct Hr as (? & ? & ? & _), Hr' as (? & ? & _); lia.
Qed.

(** An int range is a long range. *)
Lemma int_bounds r : range_wf KInt r -> -2147483648 <= _lo r <= 2147483647 /\ -2147483648 <= _hi r <= 2147483647.
Proof. by intros (? & ? & _). Qed.

Lemma make_int_range lo hi w :
  min_j KInt <= lo <= max_j KInt -> min_j KInt <= hi <= max_j KInt -> WidenMin <= w <= WidenMax ->
  int_range (make KLong lo hi w).
Proof.
  intros Hlo Hhi Hw. split; [| cbn [_lo _hi make]; lia].
  change (min_j KInt) with (-2147483648) in *. change (max_j KInt) with 2147483647 in *. apply make_wf; try done;
    change (min_j KLong) with (-9223372036854775808); change (max_j KLong) with 9223372036854775807; lia.
Qed.

Section Values.
Context (ph : PhaseGVN).

Lemma i2l_value_sound in1 t v :
  sound KInt v (type ph in1) -> type ph in1 <> BOTTOM -> int_range t -> _lo t <= v <= _hi t ->
  exists ti r, isa KInt (type ph in1) = Some ti /\ ConvI2LNode_Value ph in1 t = Some (Num KLong r) /\
    int_range r /\ _lo r <= v <= _hi r /\ _lo r = Z.max (_lo ti) (_lo t) /\ _hi r = Z.min (_hi ti) (_hi t).
Proof.
  intros Hs Hb [Ht Hti] Hv. unfold ConvI2LNode_Value. guard_top Hs.
  destruct (sound_isa _ _ _ Hs) as (ti & _ & -> & Hw & Hvi); [by apply bool_decide_eq_false_2 |]. cbn [mbind option_bind].
  pose proof Hw as (? & ? & Hwi & _).
  destruct (make_int_range (_lo ti) (_hi ti) (_widen ti)) as [Hm _]; [done | done | done |].
  destruct (filter_num KLong _ t v Hm Ht Hvi Hv) as (f & -> & Hf & El & Eh). cbn [_lo _hi make] in *.
  exists ti, f. split_and!; try done; [split; [done |] |..]; lia.
Qed.

Lemma l2i_value_sound in1 v :
  sound KLong v (type ph in1) -> type ph in1 <> BOTTOM ->
  exists t, ConvL2INode_Value ph in1 = Some t /\ sound KInt (conv KInt v) t.
Proof.
  intros Hs Hb. unfold ConvL2INode_Value. guard_top Hs.
  destruct (sound_isa _ _ _ Hs) as (ti & _ & -> & Hw & Hvi); [by apply bool_decide_eq_false_2 |]. cbn [mbind option_bind].
  destruct (is_con ti) eqn:Hc; eexists; (split; [done |]).
  - rewrite <- (con_value _ _ Hc Hvi). apply sound_con, conv_range.
  - apply sound_full, conv_range.
Qed.

Lemma conv2b_value_sound in1 v :
  sound KInt v (type ph in1) -> sound KInt (if v =? 0 then 0 else 1) (Conv2BNode_Value ph in1).
Proof.
  intros Hs. unfold Conv2BNode_Value. guard_top Hs.
  assert (forall b : bool, sound KInt (if b then 0 else 1) BOOL) as Hbool by (intros []; by vm_compute).
  destruct (is_type (type ph in1) (ZERO KInt)) eqn:Hz.
  { apply is_type_true in Hz. rewrite Hz in Hs. apply is_type_con in Hs. subst v. by vm_compute. }
  destruct (isa KInt (type ph in1)) as [ti|] eqn:Hi; [| done]. pose proof (isa_value _ _ _ _ Hs Hi).
  destruct (_ || _) eqn:Hn; [| done]. destruct (Z.eqb_spec v 0); [lia | by vm_compute].
Qed.

Lemma cmove_value_sound k c f t b vf vt :
  sound KInt b (type ph c) -> sound k vf (type ph f) -> sound k vt (type ph t) ->
  sound k (if b =? 0 then vf else vt) (CMoveNode_Value ph c f t).
Proof.
  intros Hc [Wf Hf] [Wt Ht]. unfold CMoveNode_Value. guard_top Hc. split; [by apply xmeet_wf |].
  destruct (b =? 0); [by apply xmeet_has_type | rewrite xmeet_comm; by apply xmeet_has_type].
Qed.

End Values.

(** ** Inputs of nodes of the graph *)

Section Inputs.
Context (ph : PhaseGVN) (e : env) `{!PhaseSound ph e}.

Lemma computes_I2L x t v :
  computes ph e (ConvI2L x t) KLong v -> computes ph e x KInt v /\ int_range t /\ _lo t <= v <= _hi t.
Proof using All.
  intros (Hg & _ & <-). pose proof Hg as (_ & (? & Hk & ?) & ? & ?). rewrite (eval_I2L e x t Hk).
  split; [| by split]. split; [| done]. eapply good_input; [done | exact Hg | by left | done | done].
Qed.

Lemma computes_2B x v :
  computes ph e (Conv2B x) KInt v -> computes ph e x KInt (eval e x) /\ v = if eval e x =? 0 then 0 else 1.
Proof using All.
  intros (Hg & _ & <-). pose proof Hg as (_ & (? & Hk) & ?). split; [| done].
  split; [| done]. eapply good_input; [done | exact Hg | by left | done | done].
Qed.

Lemma computes_bool test n v :
  computes ph e (Bool_ test n) KInt v ->
  computes ph e n KInt (eval e n) /\ -1 <= eval e n <= 1 /\ v = Z.b2z (eval_test test (eval e n)).
Proof using All.
  intros (Hg & _ & <-). pose proof Hg as (_ & (? & Hk) & ? & ?). split; [| by split].
  split; [| done]. eapply good_input; [done | exact Hg | by left | done | done].
Qed.

Lemma computes_cmp k a b v :
  computes ph e (Bin Cmp k a b) KInt v ->
  computes ph e a k (eval e a) /\ computes ph e b k (eval e b) /\ v = flags (eval e a) (eval e b).
Proof using All.
  intros (Hg & _ & <-). pose proof Hg as (_ & (? & ? & ? & ? & _) & ? & ? & _).
  assert (good ph e a /\ good ph e b) as [? ?] by (split; (eapply good_input; [done | exact Hg | simpl; tauto | done | done])).
  done.
Qed.

(** A test of a node of the graph turned around, and a conversion to a boolean. *)
Lemma builds_negate test n v :
  computes ph e (Bool_ test n) KInt v -> builds ph e (BoolNode_negate test n) KInt (if v =? 0 then 1 else 0).
Proof using All.
  intros (Hn & Hr & ->)%computes_bool. eapply builds_eq; [by apply builds_bool |]. rewrite negate_test.
  by destruct (eval_test _ _).
Qed.

Lemma builds_2B n v : computes ph e n KInt v -> builds ph e (Conv2B n) KInt (if v =? 0 then 0 else 1).
Proof using. intros ((? & ? & ?) & ? & <-). split; [split; [split; [by intros m [<-|[]] | done] | done] | done]. Qed.

(** A conditional move on any condition. *)
Lemma builds_choice k c f t v vf vt :
  computes ph e c KInt v -> computes ph e f k vf -> computes ph e t k vt ->
  builds ph e (CMove k c f t) k (if v =? 0 then vf else vt).
Proof using.
  intros ((? & ? & ?) & ? & Hc) Hf Ht. pose proof (computes_conv _ _ _ _ _ Hf). pose proof (computes_conv _ _ _ _ _ Ht).
  destruct Hf as ((? & ? & ?) & ? & <-), Ht as ((? & ? & ?) & ? & <-).
  split; [split; [split; [by intros m [<-|[<-|[<-|[]]]] | done] | done] | split; [done |]]. simpl. rewrite Hc. by case_match.
Qed.

(** ** Identities *)

Lemma l2i_identity in1 v :
  computes ph e in1 KLong v -> stays ph e (ConvL2I in1) (ConvL2INode_Identity in1) KInt (conv KInt v).
Proof using All.
  intros H. destruct in1; try by left. apply computes_I2L in H as (H & _ & _). right.
  by rewrite (computes_conv _ _ _ _ _ H).
Qed.

Lemma conv2b_identity in1 v :
  computes ph e in1 KInt v -> stays ph e (Conv2B in1) (Conv2BNode_Identity ph in1) KInt (if v =? 0 then 0 else 1).
Proof using All.
  intros H. pose proof (computes_type ph e _ _ _ H) as Ht. unfold Conv2BNode_Identity. guard_top Ht. cbn [orb].
  destruct (_ || _ || _) eqn:Hb; [| by left]. eapply stays_eq; [exact H |].
  assert (v = 0 \/ v = 1) as [->| ->]; [| done | done].
  apply orb_true_iff in Hb as [[Hb|Hb]%orb_true_iff|Hb].
  - left. by apply (type_value ph e KInt in1).
  - right. by apply (type_value ph e KInt in1).
  - apply is_type_true in Hb. rewrite Hb in Ht. destruct Ht as [_ [_ Ht]]. simpl in Ht. lia.
Qed.

Lemma cmove_identity k c f t v vf vt :
  computes ph e c KInt v -> computes ph e f k vf -> computes ph e t k vt ->
  stays ph e (CMove k c f t) (CMoveNode_Identity ph k c f t) k (if v =? 0 then vf else vt).
Proof using All.
  intros Hc Hf Ht. unfold CMoveNode_Identity. destruct (eqv ph f t) eqn:He.
  { pose proof (eqv_value _ _ _ _ _ _ _ He Hf Ht) as <-. right. by destruct (v =? 0). }
  destruct (is_zero ph KInt c) eqn:Hz.
  { rewrite (type_value ph e KInt c v 0 Hc Hz). by right. }
  destruct (is_type _ (ONE KInt)) eqn:Ho.
  { rewrite (type_value ph e KInt c v 1 Hc Ho). by right. }
  destruct c as [| | | | | | |test cmp| |]; try by left. destruct (as_Cmp cmp) as [[[k' a] b]|] eqn:Hcmp; [| by left].
  destruct cmp as [| | |[] k'' a' b'| | | | | |]; try done. injection Hcmp as -> -> ->.
  apply computes_bool in Hc as (Hcmp & _ & ->). apply computes_cmp in Hcmp as (Ha & Hb & Hv). rewrite Hv. clear Hv.
  unfold is_cmove_id. destruct (_ || _) eqn:Hsame; [| by left].
  assert ((eval e a =? eval e b) = true -> vf = vt) as Heq.
  { intros Hab%Z.eqb_eq. destruct Hf as (_ & _ & <-), Ht as (_ & _ & <-).
    apply orb_true_iff in Hsame as [[H1 H2]%andb_prop|[H1 H2]%andb_prop];
      apply (eqv_same (e := e)) in H1, H2; subst; congruence. }
  rewrite eval_test_flags. destruct (bool_decide (test = bt_eq)) eqn:Eq; [| destruct (bool_decide (test = bt_ne)) eqn:Ne; [| by left]].
  - apply bool_decide_eq_true_1 in Eq. subst test. right. destruct (eval e a =? eval e b); [specialize (Heq eq_refl); subst vf |]; done.
  - apply bool_decide_eq_true_1 in Ne. subst test. right. destruct (eval e a =? eval e b); [specialize (Heq eq_refl); subst vf |]; done.
Qed.

End Inputs.

(** ** Sums of ints as sums of longs *)

Lemma overlap_share lo1 hi1 lo2 hi2 v :
  lo1 <= v <= hi1 -> lo2 <= v <= hi2 -> long_ranges_overlap lo1 hi1 lo2 hi2 = true.
Proof. intros. unfold long_ranges_overlap. lia. Qed.

Lemma jlong_small z : -2 ^ 62 <= z <= 2 ^ 62 -> jlong z = z.
Proof. intros. apply (conv_small KLong). change (- 2 ^ 63 <= z <= 2 ^ 63 - 1). lia. Qed.

(** A sum in a range that no sum which wraps around reaches is exact. *)
Lemma sum_no_overflow a b xlo xhi ylo yhi zlo zhi :
  xlo <= a <= xhi -> ylo <= b <= yhi -> zlo <= conv KInt (a + b) <= zhi ->
  min_j KInt <= a <= max_j KInt -> - max_j KInt - 1 <= b <= max_j KInt + 1 ->
  long_ranges_overlap (xlo + ylo) (xhi + yhi) (zlo + Z.shiftl 1 32) (zhi + Z.shiftl 1 32) = false ->
  long_ranges_overlap (xlo + ylo) (xhi + yhi) (zlo - Z.shiftl 1 32) (zhi - Z.shiftl 1 32) = false ->
  conv KInt (a + b) = a + b.
Proof.
  intros Ha Hb Hz Ra Rb Hpos Hneg. change (Z.shiftl 1 32) with (2 ^ 32) in *.
  pose proof (conv_range KInt (a + b)) as Hr. destruct (conv_mod KInt (a + b)) as [q Hq]. rewrite Hq in Hz, Hr |- *.
  change (min_j KInt) with (- 2 ^ 31) in *. change (max_j KInt) with (2 ^ 31 - 1) in *. change (bits KInt) with 32 in *.
  assert (q = -1 \/ q = 0 \/ q = 1) as [->|[->| ->]] by lia; [| lia |].
  - by rewrite (overlap_share _ _ _ _ (a + b)) in Hpos by lia.
  - by rewrite (overlap_share _ _ _ _ (a + b)) in Hneg by lia.
Qed.

Section Conversions.
Context (ph : PhaseGVN) (e : env) `{!PhaseSound ph e} `{!PhaseFolded ph}.

Lemma i2l_changed_keeps can_reshape in1 t v :
  computes ph e in1 KInt v -> int_range t -> _lo t <= v <= _hi t ->
  keeps ph e KLong v (Some (ConvI2LNode_changed ph can_reshape in1 t)).
Proof using All.
  intros H1 Ht Hv. unfold ConvI2LNode_changed. destruct (_ && _); [| apply keeps_none].
  destruct (isa_type ph e _ _ _ H1) as (r & -> & Hw & Hr). destruct (_ || _); [| apply keeps_none].
  case_bool_decide; [apply keeps_none |]. apply keeps_ret.
  pose proof (int_bounds r Hw) as Hb. pose proof Hw as (_ & _ & Hwi & _). pose proof Ht as [(_ & _ & Hwt & _) Hi].
  assert (forall lo hi, min_j KInt <= lo -> hi <= max_j KInt -> lo <= v <= hi ->
    builds ph e (ConvI2L in1 (make KLong (MAX2 (_lo r) lo) (MIN2 (_hi r) hi) (MAX2 (_widen r) (_widen t)))) KLong v) as Hgo.
  { intros lo hi Hlo Hhi Hlh. rewrite !MAX2_max, MIN2_min. change (min_j KInt) with (-2147483648) in *.
    change (max_j KInt) with 2147483647 in *. apply builds_I2L_typed; [done | | cbn [_lo _hi make]; lia].
    apply make_int_range; change (min_j KInt) with (-2147483648); change (max_j KInt) with 2147483647; lia. }
  unfold widened_I2L. pose proof (computes_range _ _ _ _ _ H1) as Rv.
  change (min_j KInt) with (-2147483648) in *. change (max_j KInt) with 2147483647 in *.
  destruct (_ || (_hi t <? _lo t)); [apply Hgo; lia |].
  destruct (Z.leb_spec 0 (_lo t)); [apply Hgo; lia |]. destruct (Z.ltb_spec (_hi t) 0); apply Hgo; lia.
Qed.

(** The sum or difference as an exact sum, with the ranges the source works with. *)
Lemma i2l_ideal_keeps can_reshape in1 t v :
  computes ph e in1 KInt v -> int_range t -> _lo t <= v <= _hi t ->
  keeps ph e KLong v (ConvI2LNode_Ideal ph can_reshape in1 t).
Proof using All.
  intros H1 Ht Hv. pose proof (i2l_changed_keeps can_reshape in1 t v H1 Ht Hv) as Hch. unfold ConvI2LNode_Ideal.
  destruct (as_sum in1) as [[[op x] y]|] eqn:Hs; [| done].
  assert ((op = Add \/ op = Sub) /\ in1 = Bin op KInt x y) as [Hop ->].
  { destruct in1 as [| | |[] [] x' y'| | | | | |]; try done; injection Hs as <- <- <-; tauto. }
  apply computes_inputs in H1 as (Hx & Hy & ->); [| done | by destruct Hop; subst].
  replace (if is_shift op then KInt else KInt) with KInt in Hy by (by destruct op).
  rewrite (sound_not_top _ _ _ (computes_type ph e _ _ _ Hx)), (sound_not_top _ _ _ (computes_type ph e _ _ _ Hy)).
  destruct (isa_type ph e _ _ _ Hx) as (tx & -> & Wx & Vx), (isa_type ph e _ _ _ Hy) as (ty & -> & Wy & Vy).
  cbn [mbind option_bind]. pose proof (int_bounds _ Wx) as Bx. pose proof (int_bounds _ Wy) as By.
  pose proof Wx as (_ & _ & Hwx & _). pose proof Wy as (_ & _ & Hwy & _). destruct Ht as (_ & Bt1 & Bt2).
  change (min_j KInt) with (-2147483648) in Bt1. change (max_j KInt) with 2147483647 in Bt2.
  set (w := MAX2 (_widen tx) (_widen ty)). assert (WidenMin <= w <= WidenMax) as Hw by (subst w; rewrite MAX2_max; lia).
  assert (forall lo hi n u, computes ph e n KInt u -> lo <= u <= hi -> -2147483648 <= lo -> hi <= 2147483647 ->
    computes ph e (transform ph (ConvI2L n (make KLong lo hi w))) KLong u) as Hconv.
  { intros lo hi n u Hn Hu Hlo Hhi. apply computes_transform; [done |]. apply builds_I2L_typed; [done | | done].
    apply make_int_range; [change (-2147483648 <= lo <= 2147483647) | change (-2147483648 <= hi <= 2147483647) | done]; lia. }
  change (Z.shiftl 1 32) with 4294967296.
  destruct Hop as [-> | ->]; cbn [eval_bin] in *; cbv zeta iota; rewrite !jlong_small by lia.
  - destruct (long_ranges_overlap _ _ _ _) eqn:Hpos; [done |]. destruct (long_ranges_overlap _ _ _ (_ - _)) eqn:Hneg; [done |].
    assert (conv KInt (eval e x + eval e y) = eval e x + eval e y) as Hexact.
    { eapply sum_no_overflow; [exact Vx | exact Vy | exact Hv | | | exact Hpos | exact Hneg].
      - by apply (computes_range _ _ _ _ _ Hx).
      - pose proof (computes_range _ _ _ _ _ Hy). change (min_j KInt) with (- max_j KInt - 1) in *. lia. }
    rewrite Hexact in *. rewrite !MAX2_max, !MIN2_min. destruct (_ || _) eqn:Hdead; [done |].
    apply keeps_ret. eapply (builds_exact ph e Add); [done | done | | apply Hconv; [done | lia..] | apply Hconv; [done | lia..]].
    change (-9223372036854775808 <= eval e x + eval e y <= 9223372036854775807). lia.
  - destruct (long_ranges_overlap _ _ _ _) eqn:Hpos; [done |]. destruct (long_ranges_overlap _ _ _ (_ - _)) eqn:Hneg; [done |].
    assert (conv KInt (eval e x - eval e y) = eval e x - eval e y) as Hexact.
    { rewrite <- Z.add_opp_r in *. eapply (sum_no_overflow _ (- eval e y)); [exact Vx | | exact Hv | | | exact Hpos | exact Hneg].
      - lia.
      - by apply (computes_range _ _ _ _ _ Hx).
      - pose proof (computes_range _ _ _ _ _ Hy). change (min_j KInt) with (- max_j KInt - 1) in *. lia. }
    rewrite Hexact in *. rewrite !MAX2_max, !MIN2_min. destruct (_ || _) eqn:Hdead; [done |].
    apply keeps_ret. eapply (builds_exact ph e Sub); [done | done | | apply Hconv; [done | lia..] | apply Hconv; [done | lia..]].
    change (-9223372036854775808 <= eval e x - eval e y <= 9223372036854775807). lia.
Qed.

Lemma l2i_ideal_keeps in1 v : computes ph e in1 KLong v -> keeps ph e KInt (conv KInt v) (ConvL2INode_Ideal ph in1).
Proof using All.
  intros H1. unfold ConvL2INode_Ideal. tests; apply as_op_Some in Hop; subst in1;
    apply computes_inputs in H1 as (Hx & Hy & ->); try done; cbn [is_shift eval_bin] in *.
  - rewrite (type_value ph e KLong _ _ _ Hy Hif). apply keeps_ret.
    eapply builds_eq; [by apply builds_L2I |]. change 4294967295 with (Z.ones 32).
    rewrite (conv_small KLong) by (rewrite Z.land_ones by done; pose proof (Z.mod_pos_bound (eval e n) (2 ^ 32) ltac:(done));
      change (- 2 ^ 63 <= eval e n mod 2 ^ 32 <= 2 ^ 63 - 1); lia).
    rewrite Z.land_ones by done. symmetry. apply (conv_eq KInt _ _ (- (eval e n / 2 ^ 32))).
    pose proof (Z.div_mod (eval e n) (2 ^ 32)). change (bits KInt) with 32. lia.
  - keep_ret; [by apply builds_L2I | by apply builds_L2I |]. cbn [eval_bin].
    rewrite conv_add_l, conv_add_r. destruct (conv_mod KLong (eval e n + eval e n0)) as [q ->].
    symmetry. apply (conv_eq KInt _ _ (q * 2 ^ 32)). change (bits KLong) with 64. change (bits KInt) with 32. lia.
Qed.

End Conversions.

(** ** Tests and conditional moves *)

Section Tests.
Context (ph : PhaseGVN) (e : env) `{!PhaseSound ph e} `{!PhaseFolded ph}.

(** Flags of a comparison or a difference, with its inputs exchanged. *)
Lemma builds_swapped cop k a b v :
  cop = Sub \/ cop = Cmp -> computes ph e (Bin cop k a b) KInt v -> -1 <= v <= 1 ->
  computes ph e a k (eval e a) /\ computes ph e b k (eval e b) /\ builds ph e (Bin cop k b a) KInt (- v).
Proof using All.
  intros [-> | ->] H Hv.
  - assert (k = KInt) as -> by apply H. apply computes_inputs in H as (Ha & Hb & ->); [| done | done].
    split_and!; [done | done |]. eapply builds_eq; [by apply (builds_bin ph e Sub) |].
    cbn [eval_bin is_shift] in *. transitivity (conv KInt (- conv KInt (eval e a - eval e b))).
    + rewrite conv_opp. f_equal. lia.
    + apply conv_small. change (-2147483648 <= - conv KInt (eval e a - eval e b) <= 2147483647). lia.
  - apply computes_cmp in H as (Ha & Hb & ->); [| done]. split_and!; [done | done |].
    rewrite <- flags_opp. by apply builds_cmp.
Qed.

(** The flags of a difference or comparison with zero. *)
Lemma vs_zero_flags cop k a b v :
  cop = Sub \/ cop = Cmp -> computes ph e (Bin cop k a b) KInt v -> -1 <= v <= 1 ->
  kind_of b = KInt -> eval e b = 0 -> k = KInt /\ (cop = Cmp -> v = flags (eval e a) 0) /\ (v = 0 <-> eval e a = 0).
Proof using All.
  intros Hop H Hv Hk Hb. pose proof H as ((_ & (_ & _ & _ & Hkb & _) & _) & _).
  assert (k = KInt) as -> by (destruct Hop; subst cop; simpl in Hkb; congruence). split; [done |].
  destruct Hop as [-> | ->].
  - apply computes_inputs in H as (Ha & _ & ->); [| done | done]. split; [done |]. simpl.
    by rewrite Hb, Z.sub_0_r, (computes_conv _ _ _ _ _ Ha).
  - apply computes_cmp in H as (Ha & _ & ->); [| done]. rewrite Hb. split; [done |]. unfold flags.
    destruct (Z.ltb_spec (eval e a) 0), (Z.eqb_spec (eval e a) 0); lia.
Qed.

(** A test that is [test] of zero, or its complement, asked of a value that is zero
    together with the other, or where the other is not. *)
Lemma equality_test test v w :
  eq_or_ne test = true -> (v = 0 <-> w = 0) -> eval_test test v = eval_test test w.
Proof using.
  intros Ht Hab. destruct test; try done; simpl; [| f_equal]; destruct (Z.eqb_spec v 0), (Z.eqb_spec w 0); try done; tauto.
Qed.

Lemma flags_zero a b : flags a b = 0 <-> a = b.
Proof using. unfold flags. destruct (Z.ltb_spec a b), (Z.eqb_spec a b); lia. Qed.

Lemma flags_negated y : flags y 0 = - flags (0 - y) 0.
Proof using. unfold flags. destruct (Z.ltb_spec y 0), (Z.eqb_spec y 0), (Z.ltb_spec (0 - y) 0), (Z.eqb_spec (0 - y) 0); lia. Qed.

Lemma difference_zero x y :
  min_j KInt <= x <= max_j KInt -> min_j KInt <= y <= max_j KInt -> x = y <-> conv KInt (x - y) = 0.
Proof using.
  intros Hx Hy. split; [intros ->; by rewrite Z.sub_diag |]. destruct (conv_mod KInt (x - y)) as [q ->].
  change (min_j KInt) with (- 2 ^ 31) in *. change (max_j KInt) with (2 ^ 31 - 1) in *. change (bits KInt) with 32 in *. lia.
Qed.

Lemma keeps_test test test' k a b va vb v :
  computes ph e a k va -> computes ph e b k vb -> eval_test test' (flags va vb) = eval_test test v ->
  keeps ph e KInt (Z.b2z (eval_test test v)) (ret (Bool_ test' (transform ph (Bin Cmp k a b)))).
Proof using PhaseSound0. intros Ha Hb <-. by apply keeps_ret, builds_test. Qed.

Lemma bool_value_of n v : computes ph e n KInt v -> is_type (type ph n) BOOL = true -> v = 0 \/ v = 1.
Proof using PhaseSound0.
  intros Hn Hb%is_type_true. destruct (computes_type ph e _ _ _ Hn) as [_ Ht]. rewrite Hb in Ht.
  destruct Ht as [_ Ht]. simpl in Ht. lia.
Qed.

(** A type within [SYMINT] excludes the number that is its own negation. *)
Lemma symint_value n v : computes ph e n KInt v -> higher_equal (type ph n) SYMINT = true -> - max_j KInt <= v <= max_j KInt.
Proof using PhaseSound0.
  intros Hn Hhe%bool_decide_eq_true_1. destruct (computes_type ph e _ _ _ Hn) as [Hw Hv].
  pose proof (xmeet_has_type KInt v _ SYMINT Hw Hv) as Hm. rewrite Hhe in Hm. by destruct Hm.
Qed.

Lemma bool_ideal_keeps test in1 v :
  computes ph e in1 KInt v -> -1 <= v <= 1 -> keeps ph e KInt (Z.b2z (eval_test test v)) (BoolNode_Ideal ph test in1).
Proof using All.
  intros H1 Hv. unfold BoolNode_Ideal. destruct (as_Sub in1) as [[[[cop k] a] b]|] eqn:Hs; [| apply keeps_none].
  assert ((cop = Sub \/ cop = Cmp) /\ in1 = Bin cop k a b) as [Hop ->].
  { destruct in1 as [| | |[] k' a' b'| | | | | |]; try done; injection Hs as <- <- <- <-; tauto. }
  destruct (builds_swapped cop k a b v Hop H1 Hv) as (Ha & Hb & Hswap).
  destruct (_ && _ && _) eqn:Hcon.
  { apply keeps_ret. eapply builds_eq; [apply builds_bool; [by apply computes_transform | lia] |]. by rewrite commute_test. }
  clear Hcon Hswap. destruct (isa KInt (type ph b)) as [t2|] eqn:Hi; [| apply keeps_none].
  assert (type ph b = Num KInt t2) as Et by (destruct (type ph b) as [| |[] ?]; try done; by injection Hi as ->).
  rewrite <- Et. assert (kind_of b = KInt) as Hkb.
  { destruct (computes_type ph e _ _ _ Hb) as [_ Ht]. rewrite Et in Ht. destruct Ht as [<- _]. by destruct Hb as (_ & ? & _). }
  destruct (is_type (type ph b) (ZERO KInt)) eqn:Hz.
  2: { simpl. tests; try (by rewrite ?andb_false_r in *). destruct a; tests; try (by rewrite ?andb_false_r in *); apply keeps_none. }
  assert (eval e b = 0) as Eb.
  { apply (type_value ph e KInt b); [| done]. destruct Hb as (? & ? & ?). by split_and!. }
  destruct (vs_zero_flags cop k a b v Hop H1 Hv Hkb Eb) as (-> & Hcmp & Hzero).
  assert (forall x : Node, computes ph e b KInt 0) as Hb0 by (intros _; destruct Hb as (? & ? & ?); by split_and!).
  specialize (Hb0 b). tests.
  - apply as_op_Some in Hop0. subst a. apply computes_inputs in Ha as (Hx & Ho & Ea); [| done | done]. cbn [is_shift] in Ho.
    rewrite (type_value ph e KInt _ _ 1 Ho) in Ea by done.
    eapply keeps_test; [exact Hx | exact Hb0 |]. rewrite negate_test.
    rewrite (equality_test test v (if eval e n =? 0 then 1 else 0)) by
      (try done; rewrite Hzero, Ea; destruct (bool_value_of n _ Hx ltac:(done)) as [-> | ->]; done).
    destruct (bool_value_of n _ Hx ltac:(done)) as [-> | ->]; destruct test; done.
  - destruct a; try apply keeps_none. apply computes_2B in Ha as (Hx & Ea); [| done].
    destruct (isa_type ph e _ _ _ Hx) as (? & -> & _). tests. eapply keeps_test; [exact Hx | exact Hb0 |].
    apply equality_test; [done |]. rewrite flags_zero, Hzero, Ea. case_match; lia.
  - apply as_op_Some in Hop0. subst a. apply computes_inputs in Ha as (Hx & Hy & Ea); [| done | done].
    eapply keeps_test; [exact Hx | exact Hy |]. apply equality_test; [done |]. rewrite flags_zero, Hzero, Ea.
    by apply difference_zero; [apply (computes_range _ _ _ _ _ Hx) | apply (computes_range _ _ _ _ _ Hy)].
  - apply as_op_Some in Hop0. subst a. apply computes_inputs in Ha as (Hx & Hy & Ea); [| done | done].
    apply bool_decide_eq_true_1 in H. eapply keeps_test; [exact Hy | exact Hb0 |].
    pose proof (symint_value _ _ Hy ltac:(done)). rewrite Hcmp, Ea by done. cbn [eval_bin].
    rewrite (type_value ph e KInt _ _ 0 Hx) by done.
    rewrite conv_small by (change (min_j KInt) with (- max_j KInt - 1); lia). by rewrite flags_negated, commute_test.
Qed.

(** Turning the condition and the choice around. *)
Lemma turned_keeps k test b f t v vf vt :
  computes ph e (Bool_ test b) KInt v -> computes ph e f k vf -> computes ph e t k vt ->
  keeps ph e k (if v =? 0 then vf else vt) (ret (CMove k (transform ph (BoolNode_negate test b)) t f)).
Proof using PhaseSound0.
  intros Hc Hf Ht. apply keeps_ret. eapply builds_eq.
  - eapply builds_choice; [| exact Ht | exact Hf]. by apply computes_transform, builds_negate.
  - by destruct (v =? 0).
Qed.

Lemma cmove_ideal_keeps k c f t v vf vt :
  computes ph e c KInt v -> computes ph e f k vf -> computes ph e t k vt ->
  keeps ph e k (if v =? 0 then vf else vt) (CMoveNode_Ideal ph k c f t).
Proof using PhaseSound0.
  intros Hc Hf Ht. unfold CMoveNode_Ideal. tests. destruct c; try apply keeps_none. by apply turned_keeps.
Qed.

(** What the value and the flip mean. *)
Lemma cmove_to_bool_value c f t v vf vt x flip :
  computes ph e c KInt v -> computes ph e f KInt vf -> computes ph e t KInt vt ->
  cmove_to_bool ph c f t = Some (x, flip) ->
  computes ph e x KInt (eval e x) /\
  (if v =? 0 then vf else vt) = Z.lxor (if eval e x =? 0 then 0 else 1) (Z.b2z flip).
Proof using PhaseSound0.
  intros Hc Hf Ht. unfold cmove_to_bool.
  assert (exists flip1, (if is_zero ph KInt f && is_type (type ph t) (ONE KInt) then Some true
          else if is_type (type ph f) (ONE KInt) && is_zero ph KInt t then Some false else None) = flip1 /\
    forall b, flip1 = Some b -> vf = Z.b2z (negb b) /\ vt = Z.b2z b) as (flip1 & -> & H1).
  { eexists. split; [done |]. intros b. repeat case_match; intros [= <-];
      match goal with H : _ && _ = true |- _ => apply andb_prop in H as [Hf0 Ht0] end;
      by rewrite (type_value ph e KInt _ _ _ Hf Hf0), (type_value ph e KInt _ _ _ Ht Ht0). }
  destruct flip1 as [b1|]; [| done]. destruct (H1 b1 eq_refl) as [-> ->]. clear H1. cbn [mbind option_bind].
  destruct c as [| | | | | | |test b| |]; try done. apply computes_bool in Hc as (Hb & _ & ->); [| done].
  set (b2 := if bool_decide (test = bt_eq) then Some b1 else _).
  destruct b2 as [b3|] eqn:H2; [| done]. cbn [mbind option_bind].
  destruct (as_Cmp b) as [[[k' a1] a2]|] eqn:Hcmp; [| done]. cbn [mbind option_bind].
  destruct b as [| | |[] k'' a' b'| | | | | |]; try done. injection Hcmp as -> -> ->.
  apply computes_cmp in Hb as (Ha & Hb & Ev); [| done].
  assert ((if Z.b2z (eval_test test (eval e (Bin Cmp k' a1 a2))) =? 0 then Z.b2z (negb b1) else Z.b2z b1) =
    Z.b2z (if eval e a1 =? eval e a2 then b3 else negb b3)) as ->.
  { rewrite Ev, eval_test_flags. subst b2. destruct test; try done; injection H2 as <-;
      destruct (eval e a1 =? eval e a2), b1; done. }
  assert (forall c, is_type (type ph a2) (con_type KInt c) = true -> k' = KInt /\ eval e a2 = c) as Hcon.
  { intros c Hc%is_type_true. destruct (computes_type ph e _ _ _ Hb) as [_ Hh]. rewrite Hc in Hh.
    destruct Hh as [<- Hh]. simpl in Hh. split; [done | lia]. }
  destruct (is_zero ph KInt a2) eqn:Hz; [| destruct (is_type (type ph a2) (ONE KInt)) eqn:Ho; [destruct (is_type _ BOOL) eqn:HB |]; try done].
  - destruct (Hcon 0 Hz) as [-> ->]. intros [= <- <-]. split; [done |]. by destruct (eval e a1 =? 0), b3.
  - destruct (Hcon 1 Ho) as [-> ->]. intros [= <- <-]. split; [done |].
    destruct (bool_value_of a1 _ Ha HB) as [-> | ->]; by destruct b3.
Qed.

Lemma cmove_int_keeps c f t v vf vt :
  computes ph e c KInt v -> computes ph e f KInt vf -> computes ph e t KInt vt ->
  keeps ph e KInt (if v =? 0 then vf else vt) (CMoveINode_Ideal ph c f t).
Proof using PhaseSound0.
  intros Hc Hf Ht. unfold CMoveINode_Ideal. repeat apply keeps_or_else.
  - by apply cmove_ideal_keeps.
  - tests. destruct c; try apply keeps_none. by apply turned_keeps.
  - destruct (cmove_to_bool ph c f t) as [[x flip]|] eqn:Hx; [| apply keeps_none].
    destruct (cmove_to_bool_value _ _ _ _ _ _ _ _ Hc Hf Ht Hx) as [Hn ->].
    destruct flip; apply keeps_ret.
    + eapply (builds_exact ph e Xor); [done | done | by destruct (_ =? 0) | | by apply (computes_con ph e KInt 1)].
      by apply computes_transform, builds_2B.
    + eapply builds_eq; [by apply builds_2B | by destruct (_ =? 0)].
Qed.

(** ** Booleans as ints *)

(** A boolean made an int is the same number, and a value made a predicate is zero
    together with it. *)
Lemma as_int_value_computes test n v :
  computes ph e (Bool_ test n) KInt v -> computes ph e (as_int_value ph test n) KInt v.
Proof using PhaseSound0.
  intros H. apply computes_transform; [done |]. eapply builds_eq.
  - eapply builds_choice; [exact H | by apply (computes_con ph e KInt 0) | by apply (computes_con ph e KInt 1)].
  - apply computes_bool in H as (_ & _ & ->); [| done]. by destruct (eval_test _ _).
Qed.

Lemma excludes_zero n v :
  computes ph e n KInt v -> negb (higher_equal (ZERO KInt) (type ph n)) = true -> v <> 0.
Proof using All.
  intros Hn Hne ->. destruct (isa_type ph e _ _ _ Hn) as (r & Hi & Hw & Hv).
  destruct (sound_isa _ _ _ (computes_type ph e _ _ _ Hn)) as (r' & Ht & _);
    [apply bool_decide_eq_false_2, type_numeric; apply Hn |].
  apply negb_true_iff, bool_decide_eq_false_1 in Hne. apply Hne. rewrite Ht in Hi |- *. rewrite isa_num in Hi. injection Hi as ->.
  change (ZERO KInt) with (Num KInt (make_con 0)). rewrite xmeet_num_range by by vm_compute. f_equal.
  destruct Hw as (_ & _ & [? ?] & Hnorm). unfold xmeet_range, make, make_con. cbn [_lo _hi _widen].
  rewrite MIN2_min, !MAX2_max. apply range_eq; cbn [_lo _hi _widen]; [lia | lia |].
  rewrite Z.min_r, !Z.max_r by (unfold WidenMin in *; lia). done.
Qed.

Lemma make_predicate_computes n v :
  computes ph e n KInt v ->
  exists w, computes ph e (make_predicate ph n) KInt w /\ (w = 0 <-> v = 0).
Proof using All.
  intros Hn. assert (exists w, computes ph e (transform ph (Bool_ bt_ne (transform ph (Bin Cmp KInt n (intcon 0))))) KInt w
    /\ (w = 0 <-> v = 0)) as Hcmp.
  { eexists. split; [apply computes_transform; [done |]; by eapply builds_test, (computes_con ph e KInt 0) |].
    rewrite eval_test_flags. change (conv KInt 0) with 0. destruct (Z.eqb_spec v 0); simpl; lia. }
  unfold make_predicate. destruct n as [| | | | | | | |k c f t|]; try done; try (by exists v).
  destruct c as [| | | | | | |test b| |]; try done.
  destruct Hn as (Hg & Hk & Hv). simpl in Hk. subst k.
  pose proof Hg as (_ & (? & ? & ? & ? & ? & ?) & ? & ? & ?).
  assert (forall m, In m [Bool_ test b; f; t] -> computes ph e m KInt (eval e m)) as Hin.
  { intros m Hm. split; [| destruct Hm as [<-|[<-|[<-|[]]]]; done].
    eapply good_input; [done | exact Hg | exact Hm | by destruct Hm as [<-|[<-|[<-|[]]]] ..]. }
  pose proof (Hin (Bool_ test b) ltac:(simpl; tauto)) as Hb. pose proof (Hin f ltac:(simpl; tauto)) as Hf.
  pose proof (Hin t ltac:(simpl; tauto)) as Ht.
  assert (v = if eval e (Bool_ test b) =? 0 then eval e f else eval e t) as ->.
  { subst v. destruct (builds_choice ph e KInt _ _ _ _ _ _ Hb Hf Ht) as (_ & _ & <-). done. }
  destruct (is_type (type ph f) (ZERO KInt) && _) eqn:E1; [| destruct (is_type (type ph t) (ZERO KInt) && _) eqn:E2; [| done]].
  - apply andb_prop in E1 as [Hz Hne]. apply (excludes_zero _ _ Ht) in Hne. rewrite (type_value ph e KInt _ _ 0 Hf Hz).
    eexists. split; [exact Hb |]. destruct (Z.eqb_spec (eval e (Bool_ test b)) 0); lia.
  - apply andb_prop in E2 as [Hz Hne]. apply (excludes_zero _ _ Hf) in Hne. rewrite (type_value ph e KInt _ _ 0 Ht Hz).
    eexists. split; [by apply computes_transform, builds_negate |]. case_match; lia.
Qed.

End Tests.

End IdealConvertTheorems.
