(* ===== verification/IdealGVN.v ===== *)
(** Global value numbering: [PhaseGVN::transform] (opto/phaseX.cpp), through which the
    parser and every rewriting put nodes into the graph of the C2 compiler.

    A node is rewritten with [Ideal] as long as that applies, given its type with [Value],
    replaced by a constant if its type is one, and replaced by what [Identity] finds.
    Structurally equal nodes are one node here, which is what the hash table achieves.
    The type of a node is a function of the node: types of inputs are known when a node
    is put into the graph, and do not change in this phase.

    The rewritings of a node call [transform] for the nodes they make.  Neither that nor
    the loop has a bound in the source, apart from an assertion on the rounds of the loop;
    here both count down the fuel, and where it ends a node is only given its type or
    folded.  A computation of the source that ends is the one here with fuel enough for
    its rounds and its depth; the theorems hold for all fuel. *)
From S2P Require Import Prelude GlobalDefinitions IdealType IdealNode IdealValue IdealDivide IdealTransform IdealConvert.
Import GlobalDefinitions IdealType IdealNode IdealValue IdealDivide IdealTransform IdealConvert.

Module IdealGVN.

(** ** The virtual methods *)

(** [leaf_type] is the type of a node of another class: a parameter, a phi, a load. *)
Definition node_Value (ph : PhaseGVN) (leaf_type : Node -> Type_) (n : Node) : option Type_ :=
  match n with
  | Con k z => Some (con_type k (conv k z))
  | Load _ _ | Leaf _ _ => Some (leaf_type n)
  | Bin op k a b => Value ph op k a b
  | ConvI2L a t => ConvI2LNode_Value ph a t
  | ConvL2I a => ConvL2INode_Value ph a
  | Conv2B a => Some (Conv2BNode_Value ph a)
  | Bool_ test a => Some (BoolNode_Value ph test a)
  | CMove _ c f t => Some (CMoveNode_Value ph c f t)
  | Opaque2 _ => Some (FULL KInt)
  end.

Definition node_Identity (ph : PhaseGVN) (n : Node) : option Node :=
  match n with
  | Bin op k a b => Identity ph op k a b
  | ConvL2I a => Some (ConvL2INode_Identity a)
  | Conv2B a => Some (Conv2BNode_Identity ph a)
  | CMove k c f t => Some (CMoveNode_Identity ph k c f t)
  | Con _ _ | Load _ _ | Leaf _ _ | ConvI2L _ _ | Bool_ _ _ | Opaque2 _ => Some n
  end.

Definition node_Ideal (ph : PhaseGVN) (can_reshape : bool) (undefined : Z) (has_control : bool) (n : Node) : ideal :=
  match n with
  | Bin Div KInt a b => DivINode_Ideal ph a b
  | Bin Div KLong a b => DivLNode_Ideal ph a b
  | Bin Mod KInt a b => ModINode_Ideal ph has_control a b
  | Bin Mod KLong a b => ModLNode_Ideal ph has_control a b
  | Bin Min _ a b => MinINode_Ideal ph a b
  | Bin op k a b => Ideal ph can_reshape undefined op k a b
  | ConvI2L a t => ConvI2LNode_Ideal ph can_reshape a t
  | ConvL2I a => ConvL2INode_Ideal ph a
  | Bool_ test a => BoolNode_Ideal ph test a
  | CMove KInt c f t => CMoveINode_Ideal ph c f t
  | CMove KLong c f t => CMoveNode_Ideal ph KLong c f t
  | Con _ _ | Load _ _ | Leaf _ _ | Conv2B _ | Opaque2 _ => none
  end.

(** [raise_bottom_type] records a type in the nodes that hold one. *)
Definition raise_bottom_type (n : Node) (t : Type_) : Node :=
  match n, t with
  | ConvI2L a _, Num KLong r => ConvI2L a r
  | _, _ => n
  end.

Section Phase.
(** The phase as far as it does not take part in [transform], and the compiler's shift
    by the width. *)
Context (base : PhaseGVN) (leaf_type : Node -> Type_) (undefined : Z).

Definition with_types (types find_types : Node -> Type_) (reg : Node -> bool) (tr : Node -> Node) : PhaseGVN :=
  mkPhase types reg tr (eqv base) (eqv_uncast base) find_types (idx_gt base) (is_Load base) (loop_phi_of base)
    (is_tripcount base) (ok_to_convert base) (outcnt_1 base) (is_Opaque1 base) (loop_exit_test base)
    (major_progress base) (MulHiL_supported base) (use_asm_for_ldiv_by_con base) (ConditionalMoveLimit base).

(** ** The types of nodes *)

Definition known (l : list (Node * Type_)) (n : Node) : Type_ :=
  match find (fun p => bool_decide (p.1 = n)) l with Some p => p.2 | None => BOTTOM end.
Definition value_from (l : list (Node * Type_)) (n : Node) : Type_ :=
  default (FULL (kind_of n))
    (node_Value (with_types (known l) (known l) (fun _ => true) (fun m => m)) leaf_type n).

Fixpoint gvn_type (n : Node) : Type_ :=
  match n with
  | Con _ _ | Load _ _ | Leaf _ _ => value_from [] n
  | Bin _ _ a b => value_from [(a, gvn_type a); (b, gvn_type b)] n
  | ConvI2L a _ | ConvL2I a | Conv2B a | Bool_ _ a | Opaque2 a => value_from [(a, gvn_type a)] n
  | CMove _ c f t => value_from [(c, gvn_type c); (f, gvn_type f); (t, gvn_type t)] n
  end.

(** The type that a constant or a node with a type of its own shows. *)
Definition gvn_find_type (n : Node) : Type_ :=
  match n with
  | Con _ _ | Leaf _ _ | ConvI2L _ _ | CMove _ _ _ _ => gvn_type n
  | _ => BOTTOM
  end.

(** A node in the graph: no node below it has a constant type and is not a constant. *)
Fixpoint gvn_registered (n : Node) : bool :=
  (is_Con n || negb (singleton (gvn_type n))) &&
  match n with
  | Con _ _ | Load _ _ | Leaf _ _ => true
  | Bin _ _ a b => gvn_registered a && gvn_registered b
  | ConvI2L a _ | ConvL2I a | Conv2B a | Bool_ _ a | Opaque2 a => gvn_registered a
  | CMove _ c f t => gvn_registered c && gvn_registered f && gvn_registered t
  end.

Definition gvn_phase (tr : Node -> Node) : PhaseGVN := with_types gvn_type gvn_find_type gvn_registered tr.

(** ** Transform *)

(** A node with its type, or a constant. *)
Definition fold_constant (n : Node) : option Node :=
  t ← node_Value (gvn_phase (fun m => m)) leaf_type n;
  let k := raise_bottom_type n t in
  if singleton t && negb (is_Con k) then makecon t else Some k.

(** The function after its loop. *)
Definition transform_end (ph : PhaseGVN) (k : Node) : option Node :=
  t ← node_Value ph leaf_type k;
  let k := raise_bottom_type k t in
  if singleton t && negb (is_Con k) then makecon t else node_Identity ph k.

Fixpoint transform_no_reclaim (fuel : nat) (has_control : bool) (k : Node) : option Node :=
  match fuel with
  | O => fold_constant k
  | S fuel =>
      let ph := gvn_phase (fun n => default n (transform_no_reclaim fuel false n)) in
      i ← node_Ideal ph false undefined has_control k;
      match i with
      | Some i => transform_no_reclaim fuel false i
      | None => transform_end ph k
      end
  end.

Definition gvn (fuel : nat) : PhaseGVN := gvn_phase (fun n => default n (transform_no_reclaim fuel false n)).

End Phase.

End IdealGVN.
