(* ===== verification/IdealGVNTheorems.v ===== *)
(** [PhaseGVN::transform] keeps the values of nodes: it is a phase as the rewritings expect
    it, whatever its fuel. *)
From S2P Require Import Prelude GlobalDefinitions IdealType IdealTypeTheorems IdealNode IdealValue IdealRings IdealValueTheorems IdealComputes IdealDivide IdealDivideTheorems IdealModTheorems IdealTransform IdealIdentityTheorems IdealTransformTheorems IdealShiftTheorems IdealConvert IdealConvertTheorems IdealGVN.
Import GlobalDefinitions IdealType IdealTypeTheorems IdealNode IdealValue IdealRings IdealValueTheorems.
Import IdealComputes IdealDivide IdealDivideTheorems IdealModTheorems IdealTransform IdealIdentityTheorems.
Import IdealTransformTheorems IdealShiftTheorems IdealConvert IdealConvertTheorems IdealGVN.

Module IdealGVNTheorems.

(** ** Inputs *)

Lemma node_inputs_ind (P : Node -> Prop) :
  (forall n, (forall m, In m (inputs n) -> P m) -> P n) -> forall n, P n.
Proof.
  intros H n. induction n; apply H; simpl; intros m Hm; naive_solver.
Qed.

Lemma inputs_well_kinded n m : well_kinded n -> In m (inputs n) -> well_kinded m.
Proof. destruct n; simpl; naive_solver. Qed.

Lemma inputs_defined e n m : defined e n -> In m (inputs n) -> defined e m.
Proof. destruct n; simpl; naive_solver. Qed.

(** ** Types of a kind *)

(** No value, or a range of the kind. *)
Definition typed (k : kind) (t : Type_) : Prop := t = TOP \/ exists r, t = Num k r.

Lemma typed_top k : typed k TOP.
Proof. by left. Qed.
Lemma typed_num k r : typed k (Num k r).
Proof. right. by exists r. Qed.
Lemma typed_con k z : typed k (con_type k z).
Proof. apply typed_num. Qed.
Lemma typed_not_bottom k t : typed k t -> t <> BOTTOM.
Proof. intros [->|[r ->]]; done. Qed.

Create HintDb typed.
#[export] Hint Resolve typed_top typed_num typed_con : typed.

Lemma typed_meet k s t : typed k s -> typed k t -> typed k (xmeet s t).
Proof.
  intros [->|[r ->]] Ht; [by rewrite xmeet_top |]. destruct Ht as [->|[r' ->]].
  - rewrite xmeet_comm, xmeet_top. auto with typed.
  - unfold xmeet, xmeet_num. rewrite !(decide_True _ _ eq_refl). repeat case_decide; auto with typed.
Qed.

Lemma typed_filter r t : typed KLong (filter_range KLong r t).
Proof. unfold filter_range. repeat case_match; auto with typed. Qed.

Lemma typed_full k : typed k (FULL k).
Proof. apply typed_num. Qed.
Lemma typed_bool : typed KInt BOOL.
Proof. apply typed_num. Qed.
Lemma typed_if k (b : bool) s t : typed k s -> typed k t -> typed k (if b then s else t).
Proof. by destruct b. Qed.
#[export] Hint Resolve typed_full typed_bool typed_if : typed.
#[export] Hint Extern 1 (typed _ (ZERO _)) => apply typed_num : typed.
#[export] Hint Extern 1 (typed _ (ONE _)) => apply typed_num : typed.
#[export] Hint Extern 1 (typed _ (POS _)) => apply typed_num : typed.
#[export] Hint Extern 1 (typed _ CC) => apply typed_num : typed.

(** What each class of operations returns has its kind. *)
Ltac typed_cases :=
  repeat first
    [ match goal with H : Some _ = Some _ |- _ => injection H as <- end
    | match goal with H : (_ ≫= _) = Some _ |- _ => apply bind_Some in H as (? & ? & ?) end
    | match goal with H : None = Some _ |- _ => discriminate H end
    | case_match ];
  auto with typed.

Lemma add_ring_typed op k t0 t1 t : add_ring op k t0 t1 = Some t -> typed k t.
Proof.
  unfold add_ring. intros H. apply bind_Some in H as (r0 & _ & H). apply bind_Some in H as (r1 & _ & H).
  destruct op, k; try done; injection H as <-;
    unfold AddNode_add_ring, OrINode_add_ring, OrLNode_add_ring, XorINode_add_ring, XorLNode_add_ring,
      MaxINode_add_ring, MinINode_add_ring; repeat case_match; auto with typed.
Qed.

Lemma mul_ring_typed op k t0 t1 t : mul_ring op k t0 t1 = Some t -> typed k t.
Proof.
  unfold mul_ring. intros H. apply bind_Some in H as (r0 & _ & H). apply bind_Some in H as (r1 & _ & H).
  destruct op, k; try done; injection H as <-; unfold MulNode_mul_ring, AndINode_mul_ring, AndLNode_mul_ring; typed_cases.
Qed.

Lemma sub_typed op k in1 in2 t0 t1 t : sub op k t0 t1 = Some t -> typed (kind_of (Bin op k in1 in2)) t.
Proof.
  unfold sub. intros H. apply bind_Some in H as (r0 & _ & H). apply bind_Some in H as (r1 & _ & H).
  destruct op; try done; [injection H as <-; unfold SubNode_sub; typed_cases |].
  unfold CmpNode_sub in H. typed_cases; apply typed_num.
Qed.

Lemma value_typed ph op k in1 in2 t :
  node_class op k -> typed k (type ph in1) -> (is_shift op = false -> typed k (type ph in2)) ->
  Value ph op k in1 in2 = Some t -> typed (kind_of (Bin op k in1 in2)) t.
Proof.
  intros Hcl H1 H2 Hv. destruct op; cbn [Value is_shift node_class] in *; try specialize (H2 eq_refl).
  all: try (unfold AddNode_Value, add_of_identity in Hv; typed_cases; by eapply add_ring_typed).
  all: try (unfold MulNode_Value in Hv; typed_cases; by eapply mul_ring_typed).
  all: try (unfold SubNode_Value, Value_common, sub_add_id, sub_bottom_type in Hv; typed_cases; by eapply sub_typed).
  all: cbn [kind_of]; unfold LShiftNode_Value, RShiftNode_Value, URShiftNode_Value, shift_guards, DivNode_Value, ModNode_Value, MulHiLNode_Value in Hv.
  all: subst; typed_cases.
Qed.

(** ** Types from the types of the inputs *)

Lemma value_ext ph ph' op k a b :
  type ph a = type ph' a -> type ph b = type ph' b -> eqv ph = eqv ph' -> eqv_uncast ph = eqv_uncast ph' ->
  Value ph op k a b = Value ph' op k a b.
Proof.
  intros Ha Hb He Hu. destruct op; cbn [Value];
    unfold AddNode_Value, SubNode_Value, Value_common, MulNode_Value, MulHiLNode_Value, LShiftNode_Value, RShiftNode_Value,
      URShiftNode_Value, DivNode_Value, ModNode_Value; by rewrite Ha, Hb, ?He, ?Hu.
Qed.

Lemma node_value_ext ph ph' lt n :
  (forall m, In m (inputs n) -> type ph m = type ph' m) -> eqv ph = eqv ph' -> eqv_uncast ph = eqv_uncast ph' ->
  node_Value ph lt n = node_Value ph' lt n.
Proof.
  intros Hin He Hu. destruct n; simpl in *; try done;
    [apply value_ext; auto | unfold ConvI2LNode_Value | unfold ConvL2INode_Value | unfold Conv2BNode_Value | unfold BoolNode_Value
    | unfold CMoveNode_Value]; rewrite ?Hin by tauto; try done.
Qed.

(** A node of another class. *)
Definition is_leaf (n : Node) : bool := match n with Load _ _ | Leaf _ _ => true | _ => false end.

(** What the parts of the graph that are not modelled have to do: the types of their
    nodes hold of the values in an execution, and nodes called equal are equal. *)
Class LeavesTyped (leaf_type : Node -> Type_) : Prop := {
  leaf_typed n : is_leaf n = true -> typed (kind_of n) (leaf_type n)
}.
Class GraphSound (base : PhaseGVN) (leaf_type : Node -> Type_) (e : env) : Prop := {
  leaf_sound n : is_leaf n = true -> sound (kind_of n) (eval e n) (leaf_type n);
  base_eqv n m : eqv base n m = true -> n = m;
  base_uncast n m : eqv_uncast base n m = true -> eval e n = eval e m
}.

(** The method of any node, given types that hold of the values of its inputs. *)
Lemma node_value_sound ph base lt e n :
  GraphSound base lt e -> eqv ph = eqv base -> eqv_uncast ph = eqv_uncast base -> well_kinded n -> defined e n ->
  (forall m, In m (inputs n) -> sound (kind_of m) (eval e m) (type ph m) /\ type ph m <> BOTTOM) ->
  exists t, node_Value ph lt n = Some t /\ sound (kind_of n) (eval e n) t.
Proof.
  intros Hg He Hu Hw Hd Hin.
  destruct n as [k z|op adr|k id|op k a b|a t|a|a|test a|k c f t|a]; cbn [node_Value inputs] in *.
  - eexists. split; [done |]. apply sound_con, conv_range.
  - eexists. split; [done |]. by apply (leaf_sound (base := base)).
  - eexists. split; [done |]. by apply (leaf_sound (base := base)).
  - apply value_of_inputs; [done | apply Hd | apply Hin; simpl; tauto | apply Hin; simpl; tauto | |].
    + rewrite He. intros H%(base_eqv (e := e)). by subst.
    + rewrite Hu. apply base_uncast.
  - destruct Hw as (_ & Hk & Ht), Hd as [_ Hv]. destruct (Hin a ltac:(by left)) as [Hs Hb]. rewrite Hk in Hs.
    rewrite (eval_I2L e a t Hk). destruct (i2l_value_sound ph a t _ Hs Hb Ht Hv) as (ti & r & _ & -> & [Hr _] & Hvr & _). by eexists.
  - destruct Hw as (_ & Hk). destruct (Hin a ltac:(by left)) as [Hs Hb]. rewrite Hk in Hs. by apply l2i_value_sound.
  - destruct Hw as (_ & Hk). destruct (Hin a ltac:(by left)) as [Hs Hb]. rewrite Hk in Hs.
    eexists. split; [done |]. by apply conv2b_value_sound.
  - destruct Hw as (_ & Hk). destruct (Hin a ltac:(by left)) as [Hs Hb]. rewrite Hk in Hs.
    eexists. split; [done |]. apply cc2logical_sound; [done | apply Hd].
  - destruct Hw as (_ & _ & _ & Kc & Kf & Kt). destruct (Hin c ltac:(simpl; tauto)) as [Sc _].
    destruct (Hin f ltac:(simpl; tauto)) as [Sf _]. destruct (Hin t ltac:(simpl; tauto)) as [St _].
    rewrite Kc in Sc. rewrite Kf in Sf. rewrite Kt in St. eexists. split; [done |]. cbn [eval kind_of].
    rewrite conv_small; [by eapply cmove_value_sound |].
    pose proof (eval_range e f) as Rf. pose proof (eval_range e t) as Rt. rewrite Kf in Rf. rewrite Kt in Rt. by case_match.
  - destruct Hw as (_ & Hk). eexists. split; [done |]. cbn [kind_of eval]. rewrite Hk. apply sound_full.
    rewrite <- Hk. apply eval_range.
Qed.

Section Types.
Context (base : PhaseGVN) (lt : Node -> Type_).

Lemma gvn_type_eq tr n :
  gvn_type base lt n = default (FULL (kind_of n)) (node_Value (gvn_phase base lt tr) lt n).
Proof using.
  assert (gvn_type base lt n = value_from base lt (map (fun m => (m, gvn_type base lt m)) (inputs n)) n) as ->
    by (by destruct n).
  unfold value_from. f_equal. apply node_value_ext; [| done | done]. cbn [type with_types gvn_phase].
  generalize (inputs n). intros l m. unfold known. induction l as [|x l IH]; simpl; [done |].
  case_bool_decide as Hx; [by subst | intros [->|Hm]; [done | by apply IH]].
Qed.

Lemma gvn_type_typed n : LeavesTyped lt -> well_kinded n -> typed (kind_of n) (gvn_type base lt n).
Proof using.
  intros Hl. induction n as [n IH] using node_inputs_ind. intros Hw.
  rewrite (gvn_type_eq (fun m => m)). destruct (node_Value _ _ _) as [t|] eqn:Hv; simpl; [| auto with typed].
  assert (forall m, In m (inputs n) -> typed (kind_of m) (gvn_type base lt m)) as Hin
    by (intros m Hm; apply IH; [done | by eapply inputs_well_kinded]). clear IH.
  destruct n as [k z|op adr|k id|op k a b|a t0|a|a|test a|k c f t0|a]; cbn [node_Value inputs] in *.
  - injection Hv as <-. auto with typed.
  - injection Hv as <-. by apply leaf_typed.
  - injection Hv as <-. by apply leaf_typed.
  - destruct Hw as (_ & _ & Ka & Kb & Hcl). eapply value_typed; [done | | | exact Hv].
    + cbn [type gvn_phase with_types]. rewrite <- Ka. apply Hin. by left.
    + intros Hs. cbn [type gvn_phase with_types]. rewrite Hs in Kb. rewrite <- Kb. apply Hin. simpl. tauto.
  - unfold ConvI2LNode_Value in Hv. typed_cases. apply typed_filter.
  - unfold ConvL2INode_Value in Hv. typed_cases.
  - unfold Conv2BNode_Value in Hv. typed_cases.
  - unfold BoolNode_Value, cc2logical in Hv. typed_cases.
  - injection Hv as <-. unfold CMoveNode_Value. case_match; [auto with typed |].
    destruct Hw as (_ & _ & _ & _ & Kf & Kt). cbn [type gvn_phase with_types kind_of].
    apply typed_meet; [rewrite <- Kf | rewrite <- Kt]; apply Hin; simpl; tauto.
  - injection Hv as <-. destruct Hw as (_ & Hk). cbn [kind_of]. rewrite Hk. auto with typed.
Qed.

Lemma registered_eq n :
  gvn_registered base lt n = (is_Con n || negb (singleton (gvn_type base lt n))) && forallb (gvn_registered base lt) (inputs n).
Proof using. destruct n; simpl; by rewrite ?andb_true_r, ?andb_assoc. Qed.

Lemma gvn_registered_inputs n m : gvn_registered base lt n = true -> In m (inputs n) -> gvn_registered base lt m = true.
Proof using. rewrite registered_eq. intros [_ H]%andb_prop Hm. rewrite forallb_forall in H. by apply H. Qed.

#[global] Instance gvn_folded tr : LeavesTyped lt -> PhaseFolded (gvn_phase base lt tr).
Proof using.
  intros Hl. split; cbn [type registered gvn_phase with_types].
  - done.
  - intros n _ Hw. eapply typed_not_bottom, gvn_type_typed; [done | done].
  - intros n Hr Hs _. rewrite registered_eq, Hs in Hr. destruct n; by eauto.
Qed.

Context (e : env) `{!GraphSound base lt e} `{!LeavesTyped lt}.

Lemma gvn_type_sound n : well_kinded n -> defined e n -> sound (kind_of n) (eval e n) (gvn_type base lt n).
Proof using All.
  induction n as [n IH] using node_inputs_ind. intros Hw Hd. rewrite (gvn_type_eq (fun m => m)).
  destruct (node_value_sound (gvn_phase base lt (fun m => m)) base lt e n) as (t & -> & Ht); try done.
  intros m Hm. cbn [type gvn_phase with_types].
  split; [apply IH; [done | by eapply inputs_well_kinded | by eapply inputs_defined] |].
  eapply typed_not_bottom, gvn_type_typed; [done | by eapply inputs_well_kinded].
Qed.

(** The phase is sound if the function that replaces new nodes is. *)
Lemma gvn_phase_sound tr :
  (forall n, fresh (gvn_phase base lt tr) e n -> is_Min n = false ->
     good (gvn_phase base lt tr) e (tr n) /\ kind_of (tr n) = kind_of n /\ eval e (tr n) = eval e n) ->
  PhaseSound (gvn_phase base lt tr) e.
Proof using All.
  intros Htr. split; cbn [type registered find_type transform eqv eqv_uncast gvn_phase with_types].
  - intros n m. apply gvn_registered_inputs.
  - done.
  - intros n (_ & Hw & Hd). by apply gvn_type_sound.
  - intros n (_ & Hw & Hd). by apply gvn_type_sound.
  - intros n (_ & Hw & Hd). unfold gvn_find_type. destruct n; try done; by apply (gvn_type_sound _ Hw Hd).
  - intros n (_ & Hw & Hd). unfold gvn_find_type. destruct n; try done; by apply (gvn_type_sound _ Hw Hd).
  - exact Htr.
  - apply (base_eqv (e := e)).
  - apply base_uncast.
Qed.

End Types.

(** ** The methods of any node *)

Section Methods.
Context (ph : PhaseGVN) (e : env) `{!PhaseSound ph e}.

Lemma fresh_input n m : fresh ph e n -> In m (inputs n) -> computes ph e m (kind_of m) (eval e m).
Proof using.
  intros (Hr & Hw & Hd) Hm. split; [| done].
  split_and!; [by apply Hr | by eapply inputs_well_kinded | by eapply inputs_defined].
Qed.

Lemma fresh_input_1 n m k : fresh ph e n -> inputs n = [m] -> kind_of m = k -> computes ph e m k (eval e m).
Proof using. intros Hf Hm <-. apply fresh_input with n; [done |]. rewrite Hm. by left. Qed.

Lemma fresh_cmove k c f t :
  fresh ph e (CMove k c f t) ->
  computes ph e c KInt (eval e c) /\ computes ph e f k (eval e f) /\ computes ph e t k (eval e t) /\
  eval e (CMove k c f t) = if eval e c =? 0 then eval e f else eval e t.
Proof using.
  intros Hf. pose proof Hf as (_ & (_ & _ & _ & Kc & Kf & Kt) & _).
  pose proof (fresh_input _ c Hf ltac:(simpl; tauto)) as Hc. rewrite Kc in Hc.
  pose proof (fresh_input _ f Hf ltac:(simpl; tauto)) as Hff. rewrite Kf in Hff.
  pose proof (fresh_input _ t Hf ltac:(simpl; tauto)) as Ht. rewrite Kt in Ht.
  split_and!; try done. by apply (builds_choice ph e k c f t _ _ _ Hc Hff Ht).
Qed.

Lemma node_identity_stays n :
  fresh ph e n -> exists m, node_Identity ph n = Some m /\ stays ph e n m (kind_of n) (eval e n).
Proof using All.
  intros Hf. pose proof Hf as (_ & Hw & _).
  destruct n as [k z|op adr|k id|op k a b|a t|a|a|test a|k c f t|a]; cbn [node_Identity];
    try (by eexists; split; [done | left]).
  - by apply identity_stays.
  - eexists. split; [done |]. apply l2i_identity; [done |]. by apply (fresh_input_1 _ _ _ Hf); [| apply Hw].
  - eexists. split; [done |]. apply conv2b_identity; [done |]. by apply (fresh_input_1 _ _ _ Hf); [| apply Hw].
  - eexists. split; [done |]. destruct (fresh_cmove _ _ _ _ Hf) as (Hc & Hff & Ht & ->). by apply cmove_identity.
Qed.

Context `{!PhaseFolded ph}.

Lemma node_ideal_keeps can_reshape undefined has_control n :
  fresh ph e n -> is_Min n = false ->
  keeps ph e (kind_of n) (eval e n) (node_Ideal ph can_reshape undefined has_control n).
Proof using All.
  intros Hf Hm. pose proof Hf as (_ & Hw & Hd).
  destruct n as [k z|op adr|k id|op k a b|a t|a|a|test a|k c f t|a]; cbn [node_Ideal]; try apply keeps_none.
  - assert (keeps ph e (kind_of (Bin op k a b)) (eval e (Bin op k a b)) (Ideal ph can_reshape undefined op k a b)) as Hbin
      by by apply ideal_builds.
    destruct (fresh_inputs ph e op k a b Hf) as (Ha & Hb & _ & Hne).
    destruct op; try done.
    + destruct (division_builds ph e k a b _ _ PhaseSound0 Ha Hb) as (r & Hr & Hq).
      destruct k; (exists r; split; [exact Hr |]; intros q ->; exact Hq).
    + destruct (remainder_builds ph e k has_control a b _ _ PhaseSound0 PhaseFolded0 Ha Hb) as (r & Hr & Hq).
      destruct k; by exists r.
  - destruct Hw as (_ & Hk & Ht), Hd as [_ Hv]. rewrite (eval_I2L e a t Hk).
    apply i2l_ideal_keeps; try done. by apply (fresh_input_1 _ _ _ Hf).
  - apply l2i_ideal_keeps; try done. by apply (fresh_input_1 _ _ _ Hf); [| apply Hw].
  - apply bool_ideal_keeps; try done; [| apply Hd]. by apply (fresh_input_1 _ _ _ Hf); [| apply Hw].
  - destruct (fresh_cmove _ _ _ _ Hf) as (Hc & Hff & Ht & ->).
    destruct k; [by apply cmove_int_keeps | by apply cmove_ideal_keeps].
Qed.

End Methods.

(** ** Transform *)

Section Transform.
Context (base : PhaseGVN) (lt : Node -> Type_) (undefined : Z) (e : env).
Context `{!GraphSound base lt e} `{!LeavesTyped lt}.

(** The same nodes are new and are in the graph whatever replaces new nodes. *)
Abbreviation new := (fresh (gvn_phase base lt (fun m => m)) e).
Abbreviation in_graph := (good (gvn_phase base lt (fun m => m)) e).

(** The node has been replaced by one of the graph. *)
Definition replaced (n : Node) (r : option Node) : Prop :=
  exists m, r = Some m /\ in_graph m /\ kind_of m = kind_of n /\ eval e m = eval e n.

Lemma replaced_eq n n' r : kind_of n' = kind_of n -> eval e n' = eval e n -> replaced n' r -> replaced n r.
Proof using. intros Hk Hv (m & -> & ? & ? & ?). exists m. split_and!; congruence. Qed.

Lemma new_value tr n :
  new n -> exists t, node_Value (gvn_phase base lt tr) lt n = Some t /\ gvn_type base lt n = t /\
    sound (kind_of n) (eval e n) t.
Proof using All.
  intros (Hr & Hw & Hd). destruct (node_value_sound (gvn_phase base lt tr) base lt e n) as (t & Ht & Hs); try done.
  - intros m Hm. cbn [type gvn_phase with_types].
    split; [apply gvn_type_sound; [done | done | by eapply inputs_well_kinded | by eapply inputs_defined] |].
    eapply typed_not_bottom, gvn_type_typed; [done | by eapply inputs_well_kinded].
  - exists t. split_and!; [done | by rewrite (gvn_type_eq base lt tr), Ht | done].
Qed.

(** Recording the type in a node changes neither its value nor whether it is constant. *)
Lemma raise_type n t :
  new n -> gvn_type base lt n = t -> let n' := raise_bottom_type n t in
  new n' /\ kind_of n' = kind_of n /\ eval e n' = eval e n /\ is_Con n' = is_Con n /\
  singleton (gvn_type base lt n') = singleton t.
Proof using All.
  intros Hn Ht. pose proof Hn as (Hr & Hw & Hd).
  destruct n as [| | | |a t0| | | | |]; try (simpl; by rewrite <- Ht). destruct Hw as (Wa & Ka & It), Hd as [Da Va].
  assert (sound KInt (eval e a) (gvn_type base lt a)) as Sa by (rewrite <- Ka; by apply gvn_type_sound).
  assert (gvn_type base lt a <> BOTTOM) as Na by (by eapply typed_not_bottom, gvn_type_typed).
  destruct (i2l_value_sound (gvn_phase base lt (fun m => m)) a t0 _ Sa Na It Va) as (ti & r & Hti & Hv & Ir & Vr & Lr & Ur).
  destruct (i2l_value_sound (gvn_phase base lt (fun m => m)) a r _ Sa Na Ir Vr) as (ti' & r' & Hti' & Hv' & Ir' & Vr' & Lr' & Ur').
  rewrite (gvn_type_eq base lt (fun m => m)) in Ht. cbn [node_Value] in Ht. rewrite Hv in Ht. simpl in Ht. subst t.
  cbn [raise_bottom_type]. split_and!; try done.
  rewrite (gvn_type_eq base lt (fun m => m)). cbn [node_Value]. rewrite Hv'. simpl.
  rewrite Hti in Hti'. injection Hti' as <-. unfold singleton_range. apply eq_true_iff_eq. lia.
Qed.

Lemma constant_replaced n t :
  sound (kind_of n) (eval e n) t -> singleton t = true -> t <> BOTTOM -> replaced n (makecon t).
Proof using.
  intros [Hw Hs] Hc Hb. destruct t as [| |k r]; [done | done |]. destruct Hs as [<- Hv]. simpl in Hc |- *.
  unfold singleton_range, empty_range in *. rewrite Hc, (proj2 (Z.ltb_ge _ _)) by lia. simpl.
  apply Z.leb_le in Hc. exists (con (kind_of n) (get_con r)). split_and!; [done | by split_and! | done |].
  simpl. rewrite conv_conv. unfold get_con. replace (_lo r) with (eval e n) by lia. apply conv_small, eval_range.
Qed.

(** A new node with its type recorded, or the constant. *)
Lemma typed_or_constant tr n :
  new n -> exists t, node_Value (gvn_phase base lt tr) lt n = Some t /\
    let n' := raise_bottom_type n t in
    if singleton t && negb (is_Con n') then replaced n (makecon t)
    else new n' /\ in_graph n' /\ kind_of n' = kind_of n /\ eval e n' = eval e n.
Proof using All.
  intros Hn. destruct (new_value tr n Hn) as (t & Hv & Ht & Hs). exists t. split; [done |]. cbv zeta.
  destruct (raise_type n t Hn Ht) as (Hn' & Hk & He & Hc & Hst).
  destruct (singleton t && _) eqn:Hcon.
  - apply andb_prop in Hcon as [Hcon _]. apply constant_replaced; [done | done |]. rewrite <- Ht.
    eapply typed_not_bottom, gvn_type_typed; [done | apply Hn].
  - split_and!; try done. destruct Hn' as (Hr & Hw & Hd). split_and!; try done. cbn [registered gvn_phase with_types].
    rewrite registered_eq, Hst. apply andb_true_intro. split.
    + by destruct (is_Con _), (singleton t).
    + apply forallb_forall. exact Hr.
Qed.

Lemma fold_constant_replaced n : new n -> replaced n (fold_constant base lt n).
Proof using All.
  intros Hn. unfold fold_constant. destruct (typed_or_constant (fun m => m) n Hn) as (t & -> & H). cbv zeta in H. simpl.
  destruct (_ && _); [done |]. destruct H as (_ & H). by eexists.
Qed.

Lemma transform_end_replaced tr n :
  PhaseSound (gvn_phase base lt tr) e -> new n -> replaced n (transform_end lt (gvn_phase base lt tr) n).
Proof using All.
  intros Hph Hn. unfold transform_end. destruct (typed_or_constant tr n Hn) as (t & -> & H). cbv zeta in H. simpl.
  destruct (_ && _); [done |]. destruct H as (Hn' & Hg & Hk & Hv).
  destruct (node_identity_stays (gvn_phase base lt tr) e _ Hn') as (m & -> & [->|(Hm & Km & Em)]).
  - by eexists.
  - exists m. split_and!; [done | done | congruence | congruence].
Qed.

(** The function returns a node of the graph with the value of the new node. *)
Lemma transform_replaced fuel has_control n :
  new n -> is_Min n = false -> replaced n (transform_no_reclaim base lt undefined fuel has_control n).
Proof using All.
  revert has_control n. induction fuel as [|fuel IH]; intros has_control n Hn Hm; simpl; [by apply fold_constant_replaced |].
  set (tr := fun n => default n (transform_no_reclaim base lt undefined fuel false n)).
  assert (PhaseSound (gvn_phase base lt tr) e) as Hph.
  { apply gvn_phase_sound; [done | done |]. intros m Hf Hmin. destruct (IH false m Hf Hmin) as (m' & Hm' & Hg).
    unfold tr. by rewrite Hm'. }
  destruct (node_ideal_keeps (gvn_phase base lt tr) e false undefined has_control n Hn Hm) as (i & -> & Hi). simpl.
  destruct i as [i|]; [| by apply transform_end_replaced].
  destruct (Hi i eq_refl) as ((Hf & Hmin) & Hk & Hv). apply (replaced_eq n i); [done | done |]. by apply IH.
Qed.

(** The phase as the rewritings expect it. *)
#[global] Instance gvn_sound_phase fuel : PhaseSound (gvn base lt undefined fuel) e.
Proof using All.
  apply gvn_phase_sound; [done | done |]. intros n Hf Hm.
  destruct (transform_replaced fuel false n Hf Hm) as (m & Hr & Hg). by rewrite Hr.
Qed.

End Transform.


(** ** A graph *)

(** Leaves of which nothing is known. *)
Definition full_type (n : Node) : Type_ := FULL (kind_of n).

#[global] Instance full_leaves : LeavesTyped full_type.
Proof. split. intros n _. apply typed_full. Qed.
#[global] Instance simple_graph e : GraphSound simple_phase full_type e.
Proof.
  split.
  - intros n _. apply sound_full, eval_range.
  - intros n m H. by apply bool_decide_eq_true_1 in H.
  - intros n m ->%bool_decide_eq_true_1. done.
Qed.


End IdealGVNTheorems.
