(* ===== verification/JavaMachine.v ===== *)
(** Java's machine for straight-line integer code: the bytecodes (interpreter/bytecodes.hpp)
    and what each does to the values of the expression stack and the locals, as the Java
    specification has it.  The interpreter and the compiler are verified against it.

    [None] is code that the verifier rejects: a stack of other values than an instruction
    expects, more words than the method declared, or a local that does not hold the value. *)
From S2P Require Import Prelude GlobalDefinitions IdealType IdealNode.
Import GlobalDefinitions IdealType IdealNode.

Module JavaMachine.

(** ** Bytecodes *)

(** Operations with two operands of one kind; shifts have an int count. *)
Inductive vm_op : Set := VAdd | VSub | VMul | VAnd | VOr | VXor | VDiv | VRem.
Inductive vm_shift : Set := VShl | VShr | VUshr.

(** Instructions with their operand bytes; the index of a local is a byte, two after
    [wide], or part of the opcode. *)
Inductive bytecode : Set :=
  | Nop
  | Iconst (n : Z)
  | Lconst (n : Z)
  | Bipush (b : Z)
  | Sipush (b1 b2 : Z)
  | Iload (i : nat) | Lload (i : nat) | Istore (i : nat) | Lstore (i : nat)
  | Pop | Pop2 | Dup | Dup_x1 | Dup_x2 | Dup2 | Dup2_x1 | Dup2_x2 | Swap
  | Binary (k : kind) (op : vm_op)
  | Shift (k : kind) (op : vm_shift)
  | Neg (k : kind)
  | Iinc (i : nat) (b : Z)
  | Wide_iinc (i : nat) (b1 b2 : Z)
  | I2l | L2i | I2b | I2c | I2s.

(** [Bytes::get_Java_u2]: big-endian. *)
Definition get_Java_u2 (b1 b2 : Z) : Z := u_char b1 * 256 + u_char b2.

(** ** Values *)

Inductive jval : Set := JInt (z : Z) | JLong (z : Z).

(** A local holds an int, the first or the second half of a long, or nothing yet. *)
Inductive lval : Set := LInt (z : Z) | LLong (z : Z) | LSecond | LUnset.

(** The stack from its top, and the locals by index. *)
Record jframe : Set := mkJFrame { jstack : list jval; jlocals : list lval }.

Definition words (v : jval) : nat := match v with JInt _ => 1 | JLong _ => 2 end.
Definition stack_words (s : list jval) : nat := foldr (fun v n => words v + n)%nat 0%nat s.

Definition jvalue (k : kind) (z : Z) : jval := match k with KInt => JInt z | KLong => JLong z end.
Definition as_kind (k : kind) (v : jval) : option Z :=
  match k, v with KInt, JInt z => Some z | KLong, JLong z => Some z | _, _ => None end.

(** ** Steps *)

Inductive jresult : Set :=
  | JNext (f : jframe)
  | JArithmeticException.

Definition arith_of (op : vm_op) : arith :=
  match op with
  | VAdd => Add | VSub => Sub | VMul => Mul | VAnd => And | VOr => Or | VXor => Xor | VDiv => Div | VRem => Mod
  end.
Definition shift_of (op : vm_shift) : arith := match op with VShl => LShift | VShr => RShift | VUshr => URShift end.
Definition is_division (op : vm_op) : bool := match op with VDiv | VRem => true | _ => false end.

Section Machine.
Context (max_stack : nat).

(** The frame with another stack, if it fits. *)
Definition with_stack (s : list jval) (f : jframe) : option jresult :=
  if decide (stack_words s <= max_stack)%nat then Some (JNext (mkJFrame s (jlocals f))) else None.

(** The forms of the instructions that copy and move one or two words. *)
Definition stack_op (b : bytecode) (s : list jval) : option (list jval) :=
  match b, s with
  | Pop, JInt _ :: s => Some s
  | Pop2, JInt _ :: JInt _ :: s => Some s
  | Pop2, JLong _ :: s => Some s
  | Dup, JInt a :: s => Some (JInt a :: JInt a :: s)
  | Dup_x1, JInt a :: JInt b :: s => Some (JInt a :: JInt b :: JInt a :: s)
  | Dup_x2, JInt a :: JInt b :: JInt c :: s => Some (JInt a :: JInt b :: JInt c :: JInt a :: s)
  | Dup_x2, JInt a :: JLong b :: s => Some (JInt a :: JLong b :: JInt a :: s)
  | Dup2, JInt a :: JInt b :: s => Some (JInt a :: JInt b :: JInt a :: JInt b :: s)
  | Dup2, JLong a :: s => Some (JLong a :: JLong a :: s)
  | Dup2_x1, JInt a :: JInt b :: JInt c :: s => Some (JInt a :: JInt b :: JInt c :: JInt a :: JInt b :: s)
  | Dup2_x1, JLong a :: JInt b :: s => Some (JLong a :: JInt b :: JLong a :: s)
  | Dup2_x2, JInt a :: JInt b :: JInt c :: JInt d :: s =>
      Some (JInt a :: JInt b :: JInt c :: JInt d :: JInt a :: JInt b :: s)
  | Dup2_x2, JInt a :: JInt b :: JLong c :: s => Some (JInt a :: JInt b :: JLong c :: JInt a :: JInt b :: s)
  | Dup2_x2, JLong a :: JInt b :: JInt c :: s => Some (JLong a :: JInt b :: JInt c :: JLong a :: s)
  | Dup2_x2, JLong a :: JLong b :: s => Some (JLong a :: JLong b :: JLong a :: s)
  | Swap, JInt a :: JInt b :: s => Some (JInt b :: JInt a :: s)
  | _, _ => None
  end.

Definition jbinary (k : kind) (op : vm_op) (f : jframe) : option jresult :=
  match jstack f with
  | y :: x :: s =>
      b ← as_kind k y;
      a ← as_kind k x;
      if is_division op && (b =? 0) then Some JArithmeticException
      else with_stack (jvalue k (eval_bin (arith_of op) k a b) :: s) f
  | _ => None
  end.

Definition jshift (k : kind) (op : vm_shift) (f : jframe) : option jresult :=
  match jstack f with
  | JInt b :: x :: s => a ← as_kind k x; with_stack (jvalue k (eval_bin (shift_of op) k a b) :: s) f
  | _ => None
  end.

(** An instruction that replaces the value on top. *)
Definition jconvert (g : jval -> option jval) (f : jframe) : option jresult :=
  match jstack f with x :: s => y ← g x; with_stack (y :: s) f | [] => None end.

Definition jincrement (i : nat) (c : Z) (f : jframe) : option jresult :=
  match jlocals f !! i with
  | Some (LInt z) => Some (JNext (mkJFrame (jstack f) (<[i := LInt (jint (z + c))]> (jlocals f))))
  | _ => None
  end.

Definition on_int (g : Z -> jval) (v : jval) : option jval := match v with JInt z => Some (g z) | JLong _ => None end.

Definition jstep (b : bytecode) (f : jframe) : option jresult :=
  match b with
  | Nop => Some (JNext f)
  | Iconst n => if (-1 <=? n) && (n <=? 5) then with_stack (JInt n :: jstack f) f else None
  | Lconst n => if (0 <=? n) && (n <=? 1) then with_stack (JLong n :: jstack f) f else None
  | Bipush b => with_stack (JInt (jbyte b) :: jstack f) f
  | Sipush b1 b2 => with_stack (JInt (jshort (get_Java_u2 b1 b2)) :: jstack f) f
  | Iload i => match jlocals f !! i with Some (LInt z) => with_stack (JInt z :: jstack f) f | _ => None end
  | Lload i =>
      match jlocals f !! i, jlocals f !! (i + 1)%nat with
      | Some (LLong z), Some LSecond => with_stack (JLong z :: jstack f) f
      | _, _ => None
      end
  | Istore i =>
      match jstack f with
      | JInt z :: s =>
          if decide (i < length (jlocals f))%nat then Some (JNext (mkJFrame s (<[i := LInt z]> (jlocals f)))) else None
      | _ => None
      end
  | Lstore i =>
      match jstack f with
      | JLong z :: s =>
          if decide (i + 1 < length (jlocals f))%nat
          then Some (JNext (mkJFrame s (<[(i + 1)%nat := LSecond]> (<[i := LLong z]> (jlocals f))))) else None
      | _ => None
      end
  | Pop | Pop2 | Dup | Dup_x1 | Dup_x2 | Dup2 | Dup2_x1 | Dup2_x2 | Swap => s ← stack_op b (jstack f); with_stack s f
  | Binary k op => jbinary k op f
  | Shift k op => jshift k op f
  | Neg k => jconvert (fun v => z ← as_kind k v; Some (jvalue k (conv k (- z)))) f
  | Iinc i b => jincrement i (jbyte b) f
  | Wide_iinc i b1 b2 => jincrement i (jshort (get_Java_u2 b1 b2)) f
  | I2l => jconvert (on_int JLong) f
  | L2i => jconvert (fun v => match v with JLong z => Some (JInt (jint z)) | JInt _ => None end) f
  | I2b => jconvert (on_int (fun z => JInt (jbyte z))) f
  | I2c => jconvert (on_int (fun z => JInt (jchar z))) f
  | I2s => jconvert (on_int (fun z => JInt (jshort z))) f
  end.

Fixpoint jrun (code : list bytecode) (f : jframe) : option jresult :=
  match code with
  | [] => Some (JNext f)
  | b :: code =>
      r ← jstep b f;
      match r with JNext f => jrun code f | JArithmeticException => Some JArithmeticException end
  end.

End Machine.

End JavaMachine.
