(* ===== verification/Bytecodes.v ===== *)
(** The code of a method as bytes: reading operands (cpu/zero/vm/bytes_zero.hpp) and
    decoding the instructions of straight-line integer code (interpreter/bytecodes.hpp).

    [None] is a byte outside the code or another instruction. *)
From S2P Require Import Prelude GlobalDefinitions IdealType JavaMachine.
Import GlobalDefinitions IdealType JavaMachine.

Module Bytecodes.

Section Code.
(** The bytes from [code_base]. *)
Context (code : list Z).

Definition byte_at (pc : Z) : option Z := if pc <? 0 then None else code !! Z.to_nat pc.

(** [Bytes::get_Java_u2] and [get_Java_u4]. *)
Definition u2_at (pc : Z) : option Z :=
  b1 ← byte_at pc;
  b2 ← byte_at (pc + 1);
  Some (get_Java_u2 b1 b2).
Definition u4_at (pc : Z) : option Z :=
  hi ← u2_at pc;
  lo ← u2_at (pc + 2);
  Some (hi * 65536 + lo).

(** Instructions without operands, by their opcodes. *)
Definition plain_opcodes : list (Z * bytecode) :=
  [(0, Nop); (2, Iconst (-1)); (3, Iconst 0); (4, Iconst 1); (5, Iconst 2); (6, Iconst 3); (7, Iconst 4); (8, Iconst 5);
   (9, Lconst 0); (10, Lconst 1);
   (26, Iload 0); (27, Iload 1); (28, Iload 2); (29, Iload 3); (30, Lload 0); (31, Lload 1); (32, Lload 2); (33, Lload 3);
   (59, Istore 0); (60, Istore 1); (61, Istore 2); (62, Istore 3);
   (63, Lstore 0); (64, Lstore 1); (65, Lstore 2); (66, Lstore 3);
   (87, Pop); (88, Pop2); (89, Dup); (90, Dup_x1); (91, Dup_x2); (92, Dup2); (93, Dup2_x1); (94, Dup2_x2); (95, Swap);
   (96, Binary KInt VAdd); (97, Binary KLong VAdd); (100, Binary KInt VSub); (101, Binary KLong VSub);
   (104, Binary KInt VMul); (105, Binary KLong VMul); (108, Binary KInt VDiv); (109, Binary KLong VDiv);
   (112, Binary KInt VRem); (113, Binary KLong VRem); (116, Neg KInt); (117, Neg KLong);
   (120, Shift KInt VShl); (121, Shift KLong VShl); (122, Shift KInt VShr); (123, Shift KLong VShr);
   (124, Shift KInt VUshr); (125, Shift KLong VUshr);
   (126, Binary KInt VAnd); (127, Binary KLong VAnd); (128, Binary KInt VOr); (129, Binary KLong VOr);
   (130, Binary KInt VXor); (131, Binary KLong VXor);
   (133, I2l); (136, L2i); (145, I2b); (146, I2c); (147, I2s)].

(** Loads and stores with an index. *)
Definition local_opcodes : list (Z * (nat -> bytecode)) := [(21, Iload); (22, Lload); (54, Istore); (55, Lstore)].

Definition opcode_in {A} (l : list (Z * A)) (opcode : Z) : option A :=
  match find (fun p => p.1 =? opcode) l with Some p => Some p.2 | None => None end.

(** The instruction at [pc], if it is one of these, and its size. *)
Definition decode (pc : Z) : option (bytecode * Z) :=
  opcode ← byte_at pc;
  match opcode_in plain_opcodes opcode with
  | Some b => Some (b, 1)
  | None =>
  match opcode_in local_opcodes opcode with
  | Some b => i ← byte_at (pc + 1); Some (b (Z.to_nat i), 2)
  | None =>
      if opcode =? 16 then b ← byte_at (pc + 1); Some (Bipush b, 2)
      else if opcode =? 17 then b1 ← byte_at (pc + 1); b2 ← byte_at (pc + 2); Some (Sipush b1 b2, 3)
      else if opcode =? 132 then i ← byte_at (pc + 1); b ← byte_at (pc + 2); Some (Iinc (Z.to_nat i) b, 3)
      else if opcode =? 196 then
        wide_opcode ← byte_at (pc + 1);
        reg ← u2_at (pc + 2);
        match opcode_in local_opcodes wide_opcode with
        | Some b => Some (b (Z.to_nat reg), 4)
        | None =>
            if wide_opcode =? 132 then b1 ← byte_at (pc + 4); b2 ← byte_at (pc + 5); Some (Wide_iinc (Z.to_nat reg) b1 b2, 6)
            else None
        end
      else None
  end
  end.

End Code.

(** The tests of the branches, in the order of their opcodes. *)
Inductive condition : Set := c_eq | c_ne | c_lt | c_ge | c_gt | c_le.
Definition conditions : list condition := [c_eq; c_ne; c_lt; c_ge; c_gt; c_le].
Definition holds (c : condition) (a b : Z) : bool :=
  match c with
  | c_eq => a =? b
  | c_ne => negb (a =? b)
  | c_lt => a <? b
  | c_ge => b <=? a
  | c_gt => b <? a
  | c_le => a <=? b
  end.

(** The test of an opcode in a row of branches. *)
Definition branch_in (first opcode : Z) : option condition :=
  if first <=? opcode then conditions !! Z.to_nat (opcode - first) else None.

End Bytecodes.
