(* ===== verification/JavaMethod.v ===== *)
(** Java's machine on the code of a method: the instructions of straight-line integer code,
    comparisons, branches, switches and returns, as the Java specification has them.

    [None] is code that the verifier rejects. *)
From S2P Require Import Prelude GlobalDefinitions IdealType JavaMachine Bytecodes.
Import GlobalDefinitions IdealType JavaMachine Bytecodes.

Module JavaMethod.

(** Offsets are relative to the instruction.  The entries of a switch start at [table]. *)
Inductive instr : Set :=
  | Op (b : bytecode) (size : Z)
  | Lcmp
  | If_icmp (c : condition) (offset : Z)
  | If_ (c : condition) (offset : Z)
  | Goto (offset : Z)
  | Tableswitch (default low high table : Z)
  | Lookupswitch (default npairs table : Z)
  | Value_return (k : kind)
  | Void_return.

Section Method.
Context (max_stack : nat) (code : list Z).

(** Operands of switches start at the next multiple of 4. *)
Definition operands (pc : Z) : Z := pc + 1 + (- (pc + 1)) mod 4.

Definition s2_at (pc : Z) : option Z := v ← u2_at code pc; Some (jshort v).
Definition s4_at (pc : Z) : option Z := v ← u4_at code pc; Some (jint v).

(** Each entry of a switch is in the code. *)
Definition instr_at (pc : Z) : option instr :=
  match decode code pc with
  | Some (b, size) => Some (Op b size)
  | None =>
      opcode ← byte_at code pc;
      if opcode =? 148 then Some Lcmp else
      match branch_in 153 opcode, branch_in 159 opcode with
      | Some c, _ => offset ← s2_at (pc + 1); Some (If_ c offset)
      | None, Some c => offset ← s2_at (pc + 1); Some (If_icmp c offset)
      | None, None =>
          if opcode =? 167 then offset ← s2_at (pc + 1); Some (Goto offset)
          else if opcode =? 170 then
            default ← s4_at (operands pc);
            low ← s4_at (operands pc + 4);
            high ← s4_at (operands pc + 8);
            let table := operands pc + 12 in
            if (low <=? high) && (table + 4 * (high - low + 1) <=? Z.of_nat (length code))
            then Some (Tableswitch default low high table) else None
          else if opcode =? 171 then
            default ← s4_at (operands pc);
            npairs ← s4_at (operands pc + 4);
            let table := operands pc + 8 in
            if (0 <=? npairs) && (table + 8 * npairs <=? Z.of_nat (length code))
            then Some (Lookupswitch default npairs table) else None
          else if opcode =? 172 then Some (Value_return KInt)
          else if opcode =? 173 then Some (Value_return KLong)
          else if opcode =? 177 then Some Void_return
          else if opcode =? 200 then offset ← s4_at (pc + 1); Some (Goto offset)
          else None
      end
  end.

(** The offset of the first pair with the key. *)
Fixpoint lookup_pair (n : nat) (table key default : Z) : option Z :=
  match n with
  | O => Some default
  | S n =>
      match_ ← s4_at table;
      if key =? match_ then s4_at (table + 4) else lookup_pair n (table + 8) key default
  end.

Inductive jcontrol : Set :=
  | JAt (pc : Z) (F : jframe)
  | JReturn (v : option jval)
  | JThrow.

(** The frame without the operands of a branch, and where to go on. *)
Definition jgoto (pc offset : Z) (s : list jval) (F : jframe) : option jcontrol := Some (JAt (pc + offset) (mkJFrame s (jlocals F))).

Definition jexec (pc : Z) (F : jframe) : option jcontrol :=
  i ← instr_at pc;
  match i, jstack F with
  | Op b size, _ =>
      r ← jstep max_stack b F;
      match r with JNext F => Some (JAt (pc + size) F) | JArithmeticException => Some JThrow end
  | Lcmp, JLong b :: JLong a :: s =>
      jgoto pc 1 (JInt (if a <? b then -1 else if a =? b then 0 else 1) :: s) F
  | If_icmp c offset, JInt b :: JInt a :: s => jgoto pc (if holds c a b then offset else 3) s F
  | If_ c offset, JInt a :: s => jgoto pc (if holds c a 0 then offset else 3) s F
  | Goto offset, s => jgoto pc offset s F
  | Tableswitch default low high table, JInt key :: s =>
      offset ← (if (key <? low) || (high <? key) then Some default else s4_at (table + 4 * (key - low)));
      jgoto pc offset s F
  | Lookupswitch default npairs table, JInt key :: s =>
      offset ← lookup_pair (Z.to_nat npairs) table key default;
      jgoto pc offset s F
  | Value_return k, v :: _ => z ← as_kind k v; Some (JReturn (Some (jvalue k z)))
  | Void_return, _ => Some (JReturn None)
  | _, _ => None
  end.

(** A number of instructions, or fewer up to a return or an exception. *)
Fixpoint jloop (steps : nat) (c : jcontrol) : option jcontrol :=
  match steps, c with
  | S steps, JAt pc F => c ← jexec pc F; jloop steps c
  | _, _ => Some c
  end.

End Method.

End JavaMethod.
