(* ===== verification/BytecodeInterpreter.v ===== *)
(** The C++ interpreter on straight-line integer code (interpreter/bytecodeInterpreter.cpp,
    with the access macros and the arithmetic of the Zero port in cpu/zero/vm/).

    A frame is the words of the expression stack and of the locals.  Words have 64 bits;
    an int is the low half of its word, and writing it leaves the other half as it was
    (the byte order is little-endian).  A long takes two words of which only the one
    nearer to the top holds it: the upper of its two stack words, and the local after the
    one it is named by.  [None] is an access outside the stack or the locals. *)
From S2P Require Import Prelude GlobalDefinitions IdealType JavaMachine.
Import GlobalDefinitions IdealType JavaMachine.

Module BytecodeInterpreter.

(** ** Arithmetic of the port *)

(** [VMintAdd] and its siblings. *)
Definition VMint (op : vm_op) (op1 op2 : Z) : Z :=
  match op with
  | VAdd => jint (op1 + op2)
  | VAnd => Z.land op1 op2
  | VDiv => if (op1 =? -2147483648) && (op2 =? -1) then op1 else Z.quot op1 op2
  | VMul => jint (op1 * op2)
  | VOr => Z.lor op1 op2
  | VRem => if (op1 =? -2147483648) && (op2 =? -1) then 0 else Z.rem op1 op2
  | VSub => jint (op1 - op2)
  | VXor => Z.lxor op1 op2
  end.
Definition VMint_shift (op : vm_shift) (op1 op2 : Z) : Z :=
  match op with
  | VShl => jint (Z.shiftl op1 (Z.land op2 0x1F))
  | VShr => Z.shiftr op1 (Z.land op2 0x1F)
  | VUshr => Z.shiftr (juint op1) (Z.land op2 0x1F)
  end.
Definition VMintNeg (op : Z) : Z := jint (- op).

Definition VMlong (op : vm_op) (op1 op2 : Z) : Z :=
  match op with
  | VAdd => jlong (op1 + op2)
  | VAnd => Z.land op1 op2
  | VDiv => if (op1 =? -9223372036854775808) && (op2 =? -1) then op1 else Z.quot op1 op2
  | VMul => jlong (op1 * op2)
  | VOr => Z.lor op1 op2
  | VRem => if (op1 =? -9223372036854775808) && (op2 =? -1) then 0 else Z.rem op1 op2
  | VSub => jlong (op1 - op2)
  | VXor => Z.lxor op1 op2
  end.
Definition VMlong_shift (op : vm_shift) (op1 op2 : Z) : Z :=
  match op with
  | VShl => jlong (Z.shiftl op1 (Z.land op2 0x3F))
  | VShr => Z.shiftr op1 (Z.land op2 0x3F)
  | VUshr => jlong (Z.shiftr (julong op1) (Z.land op2 0x3F))
  end.
Definition VMlongNeg (op : Z) : Z := jlong (- op).

Definition VMint2Long (val : Z) : Z := jlong val.
Definition VMlong2Int (val : Z) : Z := jint val.
Definition VMint2Char (val : Z) : Z := jchar val.
Definition VMint2Short (val : Z) : Z := jshort val.
Definition VMint2Byte (val : Z) : Z := jbyte val.

(** ** Frames *)

(** [topOfStack] is the number of words in use, and the index of the first free one. *)
Record frame : Set := mkFrame { stack : nat -> Z; topOfStack : nat; stack_limit : nat; locals : list Z }.

Definition set_word (mem : nat -> Z) (i : nat) (w : Z) : nat -> Z := fun j => if decide (j = i) then w else mem j.

(** The low half of a word replaced. *)
Definition write_int (w v : Z) : Z := w / 2 ^ 32 * 2 ^ 32 + juint v.

(** The word at an offset from the top, within the stack. *)
Definition slot (f : frame) (offset : Z) : option nat :=
  let i := Z.of_nat (topOfStack f) + offset in
  if (0 <=? i) && (i <? Z.of_nat (stack_limit f)) then Some (Z.to_nat i) else None.

Definition STACK_WORD (f : frame) (offset : Z) : option Z := i ← slot f offset; Some (stack f i).
Definition STACK_INT (f : frame) (offset : Z) : option Z := w ← STACK_WORD f offset; Some (jint w).
Definition STACK_LONG (f : frame) (offset : Z) : option Z := w ← STACK_WORD f offset; Some (jlong w).

Definition SET_STACK_WORD (w : Z) (offset : Z) (f : frame) : option frame :=
  i ← slot f offset; Some (mkFrame (set_word (stack f) i w) (topOfStack f) (stack_limit f) (locals f)).
Definition SET_STACK_INT (v : Z) (offset : Z) (f : frame) : option frame :=
  w ← STACK_WORD f offset; SET_STACK_WORD (write_int w v) offset f.
Definition SET_STACK_LONG (v : Z) (offset : Z) (f : frame) : option frame := SET_STACK_WORD (julong v) offset f.

Definition LOCALS_WORD (f : frame) (i : nat) : option Z := locals f !! i.
Definition SET_LOCALS_WORD (w : Z) (i : nat) (f : frame) : option frame :=
  if decide (i < length (locals f))%nat
  then Some (mkFrame (stack f) (topOfStack f) (stack_limit f) (<[i := w]> (locals f))) else None.
Definition LOCALS_INT (f : frame) (i : nat) : option Z := w ← LOCALS_WORD f i; Some (jint w).
Definition SET_LOCALS_INT (v : Z) (i : nat) (f : frame) : option frame :=
  w ← LOCALS_WORD f i; SET_LOCALS_WORD (write_int w v) i f.
Definition LOCALS_LONG (f : frame) (i : nat) : option Z := w ← LOCALS_WORD f (i + 1); Some (jlong w).
Definition SET_LOCALS_LONG (v : Z) (i : nat) (f : frame) : option frame := SET_LOCALS_WORD (julong v) (i + 1) f.

(** The top moves; the next access is checked against the limits. *)
Definition MORE_STACK (n : Z) (f : frame) : option frame :=
  let top := Z.of_nat (topOfStack f) + n in
  if 0 <=? top then Some (mkFrame (stack f) (Z.to_nat top) (stack_limit f) (locals f)) else None.

Definition copy_stack_slot (from to : Z) (f : frame) : option frame :=
  w ← STACK_WORD f from; SET_STACK_WORD w to f.

Definition dup (f : frame) : option frame := copy_stack_slot (-1) 0 f.
Definition dup2 (f : frame) : option frame :=
  f ← copy_stack_slot (-2) 0 f;
  copy_stack_slot (-1) 1 f.
Definition dup_x1 (f : frame) : option frame :=
  f ← copy_stack_slot (-1) 0 f;
  f ← copy_stack_slot (-2) (-1) f;
  copy_stack_slot 0 (-2) f.
Definition dup_x2 (f : frame) : option frame :=
  f ← copy_stack_slot (-1) 0 f;
  f ← copy_stack_slot (-2) (-1) f;
  f ← copy_stack_slot (-3) (-2) f;
  copy_stack_slot 0 (-3) f.
Definition dup2_x1 (f : frame) : option frame :=
  f ← copy_stack_slot (-1) 1 f;
  f ← copy_stack_slot (-2) 0 f;
  f ← copy_stack_slot (-3) (-1) f;
  f ← copy_stack_slot 1 (-2) f;
  copy_stack_slot 0 (-3) f.
Definition dup2_x2 (f : frame) : option frame :=
  f ← copy_stack_slot (-1) 1 f;
  f ← copy_stack_slot (-2) 0 f;
  f ← copy_stack_slot (-3) (-1) f;
  f ← copy_stack_slot (-4) (-2) f;
  f ← copy_stack_slot 1 (-3) f;
  copy_stack_slot 0 (-4) f.
Definition swap (f : frame) : option frame :=
  val ← STACK_WORD f (-1);
  f ← copy_stack_slot (-2) (-1) f;
  SET_STACK_WORD val (-2) f.

(** ** Steps *)

(** The next frame, or the exception of a division by zero. *)
Inductive result : Set :=
  | Next (f : frame)
  | ArithmeticException.

Definition continue (n : Z) (f : frame) : option result := f ← MORE_STACK n f; Some (Next f).

(** [OPC_INT_BINARY] and [OPC_SHIFT_BINARY]. *)
Definition opc_binary (k : kind) (op : vm_op) (f : frame) : option result :=
  match k with
  | KInt =>
      op2 ← STACK_INT f (-1);
      if is_division op && (op2 =? 0) then Some ArithmeticException else
      op1 ← STACK_INT f (-2);
      SET_STACK_INT (VMint op op1 op2) (-2) f ≫= continue (-1)
  | KLong =>
      op2 ← STACK_LONG f (-1);
      if is_division op && (op2 =? 0) then Some ArithmeticException else
      op1 ← STACK_LONG f (-3);
      SET_STACK_LONG (VMlong op op1 op2) (-3) f ≫= continue (-2)
  end.
Definition opc_shift (k : kind) (op : vm_shift) (f : frame) : option result :=
  op2 ← STACK_INT f (-1);
  match k with
  | KInt => op1 ← STACK_INT f (-2); SET_STACK_INT (VMint_shift op op1 op2) (-2) f ≫= continue (-1)
  | KLong => op1 ← STACK_LONG f (-2); SET_STACK_LONG (VMlong_shift op op1 op2) (-2) f ≫= continue (-1)
  end.

(** The cases of the switch in [BytecodeInterpreter::run]. *)
Definition step (b : bytecode) (f : frame) : option result :=
  match b with
  | Nop => continue 0 f
  | Iconst n => SET_STACK_INT n 0 f ≫= continue 1
  | Lconst n => SET_STACK_LONG n 1 f ≫= continue 2
  | Bipush b => SET_STACK_INT (jbyte b) 0 f ≫= continue 1
  | Sipush b1 b2 => SET_STACK_INT (jshort (get_Java_u2 b1 b2)) 0 f ≫= continue 1
  | Iload i => w ← LOCALS_WORD f i; SET_STACK_WORD w 0 f ≫= continue 1
  | Lload i => v ← LOCALS_LONG f i; SET_STACK_LONG v 1 f ≫= continue 2
  | Istore i => w ← STACK_WORD f (-1); SET_LOCALS_WORD w i f ≫= continue (-1)
  | Lstore i => v ← STACK_LONG f (-1); SET_LOCALS_LONG v i f ≫= continue (-2)
  | Pop => continue (-1) f
  | Pop2 => continue (-2) f
  | Dup => dup f ≫= continue 1
  | Dup2 => dup2 f ≫= continue 2
  | Dup_x1 => dup_x1 f ≫= continue 1
  | Dup_x2 => dup_x2 f ≫= continue 1
  | Dup2_x1 => dup2_x1 f ≫= continue 2
  | Dup2_x2 => dup2_x2 f ≫= continue 2
  | Swap => swap f ≫= continue 0
  | Binary k op => opc_binary k op f
  | Shift k op => opc_shift k op f
  | Neg KInt => v ← STACK_INT f (-1); SET_STACK_INT (VMintNeg v) (-1) f ≫= continue 0
  | Neg KLong => v ← STACK_LONG f (-1); SET_STACK_LONG (VMlongNeg v) (-1) f ≫= continue 0
  | Iinc i b => v ← LOCALS_INT f i; SET_LOCALS_INT (jint (v + jbyte b)) i f ≫= continue 0
  | Wide_iinc i b1 b2 => v ← LOCALS_INT f i; SET_LOCALS_INT (jint (v + jshort (get_Java_u2 b1 b2))) i f ≫= continue 0
  | I2l => v ← STACK_INT f (-1); f ← MORE_STACK (-1) f; SET_STACK_LONG (VMint2Long v) 1 f ≫= continue 2
  | L2i => v ← STACK_LONG f (-1); f ← MORE_STACK (-2) f; SET_STACK_INT (VMlong2Int v) 0 f ≫= continue 1
  | I2b => v ← STACK_INT f (-1); SET_STACK_INT (VMint2Byte v) (-1) f ≫= continue 0
  | I2c => v ← STACK_INT f (-1); SET_STACK_INT (VMint2Char v) (-1) f ≫= continue 0
  | I2s => v ← STACK_INT f (-1); SET_STACK_INT (VMint2Short v) (-1) f ≫= continue 0
  end.

Fixpoint run (code : list bytecode) (f : frame) : option result :=
  match code with
  | [] => Some (Next f)
  | b :: code =>
      r ← step b f;
      match r with Next f => run code f | ArithmeticException => Some ArithmeticException end
  end.

End BytecodeInterpreter.
