(* ===== verification/InterpreterTheorems.v ===== *)
(** The C++ interpreter implements Java's machine on straight-line integer code. *)
From S2P Require Import Prelude GlobalDefinitions IdealType IdealNode IdealRings IdealValueTheorems JavaMachine BytecodeInterpreter.
Import GlobalDefinitions IdealType IdealNode IdealRings IdealValueTheorems JavaMachine BytecodeInterpreter.

Module InterpreterTheorems.

(** ** What frames represent *)

(** The words below [h] are those of the values; only one word of a long holds it. *)
Fixpoint stack_rep (mem : nat -> Z) (h : nat) (s : list jval) : Prop :=
  match s with
  | [] => h = 0%nat
  | JInt z :: s => (1 <= h)%nat /\ jint (mem (h - 1)%nat) = z /\ stack_rep mem (h - 1) s
  | JLong z :: s => (2 <= h)%nat /\ jlong (mem (h - 1)%nat) = z /\ stack_rep mem (h - 2) s
  end.

Definition locals_rep (ws : list Z) (l : list lval) : Prop :=
  length ws = length l /\
  (forall i z, l !! i = Some (LInt z) -> exists w, ws !! i = Some w /\ jint w = z) /\
  (forall i z, l !! i = Some (LLong z) -> l !! (i + 1)%nat = Some LSecond ->
     exists w, ws !! (i + 1)%nat = Some w /\ jlong w = z).

Record represents (max_stack : nat) (f : frame) (F : jframe) : Prop := {
  rep_stack : stack_rep (stack f) (topOfStack f) (jstack F);
  rep_limit : stack_limit f = max_stack;
  rep_room : (topOfStack f <= max_stack)%nat;
  rep_locals : locals_rep (locals f) (jlocals F) }.

Definition result_rep (max_stack : nat) (r : result) (R : jresult) : Prop :=
  match r, R with
  | Next f, JNext F => represents max_stack f F
  | ArithmeticException, JArithmeticException => True
  | _, _ => False
  end.

(** ** Words *)

Lemma jint_write w v : jint (write_int w v) = jint v.
Proof.
  unfold write_int, jint, swrap, juint, wrap.
  replace (w / 2 ^ 32 * 2 ^ 32 + v mod 2 ^ 32 + 2 ^ (32 - 1)) with (v mod 2 ^ 32 + 2 ^ (32 - 1) + w / 2 ^ 32 * 2 ^ 32) by lia.
  rewrite Z.mod_add by done. by rewrite Zplus_mod_idemp_l.
Qed.
Lemma jlong_julong v : jlong (julong v) = jlong v.
Proof. unfold jlong, julong, swrap, wrap. by rewrite Zplus_mod_idemp_l. Qed.
Lemma jint_bounds w : min_j KInt <= jint w <= max_j KInt.
Proof. apply (conv_range KInt). Qed.
Lemma jlong_bounds w : min_j KLong <= jlong w <= max_j KLong.
Proof. apply (conv_range KLong). Qed.
Lemma jint_jint w : jint (jint w) = jint w.
Proof. apply (conv_conv KInt). Qed.
Lemma jlong_jlong w : jlong (jlong w) = jlong w.
Proof. apply (conv_conv KLong). Qed.

(** Narrow integers. *)
Lemma jbyte_narrow b : -32768 <= jbyte b <= 65535.
Proof. pose proof (swrap_range 8 b ltac:(lia)) as H. unfold in_signed in H. cbn in H. unfold jbyte. lia. Qed.
Lemma jshort_narrow b : -32768 <= jshort b <= 65535.
Proof. pose proof (swrap_range 16 b ltac:(lia)) as H. unfold in_signed in H. cbn in H. unfold jshort. lia. Qed.
Lemma jchar_narrow b : -32768 <= jchar b <= 65535.
Proof. pose proof (wrap_range 16 b ltac:(lia)) as H. unfold in_unsigned in H. cbn in H. unfold jchar. lia. Qed.
Lemma narrow_constant n : -32768 <= n <= 65535 -> min_j KInt <= n <= max_j KInt.
Proof. intros. change (-2147483648 <= n <= 2147483647). lia. Qed.

(** ** Stacks *)

Lemma stack_rep_frame mem mem' h h' s :
  h = h' -> (forall i, (i < h)%nat -> mem i = mem' i) -> stack_rep mem h s -> stack_rep mem' h' s.
Proof.
  intros <-. revert h. induction s as [|[z|z] s IH]; intros h Hm; simpl; [done |..]; intros (Hh & Hz & Hs);
    (split; [done |]); (split; [by rewrite <- Hm by lia | apply IH; [intros i Hi; apply Hm; lia | done]]).
Qed.

Lemma stack_rep_words mem h s : stack_rep mem h s -> h = stack_words s.
Proof. revert h. induction s as [|[z|z] s IH]; simpl; [done |..]; intros h (Hh & _ & E%IH); lia. Qed.

Lemma slot_at mem top lim locs offset i :
  Z.of_nat top + offset = Z.of_nat i -> (i < lim)%nat -> slot (mkFrame mem top lim locs) offset = Some i.
Proof.
  intros Hi Hlim. unfold slot. cbn [topOfStack stack_limit]. rewrite Hi.
  rewrite (proj2 (Z.leb_le _ _)), (proj2 (Z.ltb_lt _ _)) by lia. simpl. by rewrite Nat2Z.id.
Qed.

Lemma set_stack_same mem i w : set_word mem i w i = w.
Proof. unfold set_word. by rewrite decide_True. Qed.
Lemma set_stack_other mem i j w : j <> i -> set_word mem i w j = mem j.
Proof. intros. unfold set_word. by rewrite decide_False. Qed.

(** The index of an access, for a top of the form [S (S h)]. *)
Ltac index top offset :=
  match offset with
  | 0 => constr:(top)
  | 1 => constr:(S top)
  | -1 => match top with S ?h => constr:(h) end
  | -2 => match top with S (S ?h) => constr:(h) end
  | -3 => match top with S (S (S ?h)) => constr:(h) end
  | -4 => match top with S (S (S (S ?h))) => constr:(h) end
  end.

(** What a sequence of writes leaves in a word. *)
Ltac written := repeat first [rewrite set_stack_same | rewrite set_stack_other by lia].

(** The accesses of a step, all within the stack. *)
Ltac accesses :=
  repeat (first
    [ progress cbn [mbind option_bind topOfStack stack_limit stack locals]
    | progress written
    | match goal with |- context [slot (mkFrame ?mem ?top ?lim ?locs) ?offset] =>
        let i := index top offset in rewrite (slot_at mem top lim locs offset i) by lia end ]).

Lemma more_stack mem top lim locs n top' :
  Z.of_nat top + n = Z.of_nat top' -> MORE_STACK n (mkFrame mem top lim locs) = Some (mkFrame mem top' lim locs).
Proof.
  intros H. unfold MORE_STACK. cbn [topOfStack stack_limit stack locals]. rewrite H, (proj2 (Z.leb_le _ _)) by lia.
  by rewrite Nat2Z.id.
Qed.

(** A new stack, over the words that stay. *)
Ltac new_stack :=
  cbn [stack_rep jstack stack topOfStack]; cbn [Nat.sub]; rewrite ?Nat.sub_0_r;
  repeat match goal with |- _ /\ _ => split end;
  first
    [ lia
    | match goal with Hs : stack_rep ?mem _ ?s |- stack_rep _ _ ?s =>
        apply (stack_rep_frame mem _ _ _ s) with (3 := Hs); [lia | intros; by written] end
    | written; rewrite ?jint_write, ?jlong_julong, ?jint_jint, ?jlong_jlong; try done ].

(** A step whose accesses are within the stack, to a stack of another height. *)
Ltac take_step top :=
  unfold continue, dup, dup2, dup_x1, dup_x2, dup2_x1, dup2_x2, swap, copy_stack_slot,
    SET_STACK_INT, SET_STACK_LONG, STACK_INT, STACK_LONG, STACK_WORD, SET_STACK_WORD;
  accesses; rewrite (more_stack _ _ _ _ _ top) by lia; eexists; split; [reflexivity |].

(** The heights and words of the stack that a step starts from. *)
Ltac heights Hs Hsize Htop :=
  cbn [stack_rep stack_words foldr words] in Hs, Hsize, Htop; cbn [Nat.add] in *;
  change (foldr (fun v n => words v + n)%nat 0%nat) with stack_words in *;
  match type of Hs with context [stack_rep _ _ ?l] =>
    lazymatch l with _ :: _ => fail | _ => try (set (h := stack_words l) in *; clearbody h) end end;
  match type of Htop with ?top = _ => subst top end; cbn [Nat.sub] in Hs; rewrite ?Nat.sub_0_r in Hs;
  repeat match goal with H : _ /\ _ |- _ => destruct H end; subst.

Lemma stack_op_rep max_stack b f F s :
  represents max_stack f F -> stack_op b (jstack F) = Some s -> (stack_words s <= max_stack)%nat ->
  exists f', step b f = Some (Next f') /\ represents max_stack f' (mkJFrame s (jlocals F)).
Proof.
  intros [Hs Hl Hr Hloc] Hop Hsize. destruct f as [mem top lim locs], F as [S L].
  cbn [stack topOfStack stack_limit locals jstack jlocals] in *. subst lim.
  pose proof (stack_rep_words _ _ _ Hs) as Htop.
  destruct b; try done; cbn [step stack_op] in *;
    repeat match type of Hop with match ?x with _ => _ end = _ => destruct x; try done end;
    injection Hop as <-; cbn [stack_rep stack_words foldr words] in Hs, Hsize, Htop; cbn [Nat.add] in *;
    change (foldr (fun v n => words v + n)%nat 0%nat) with stack_words in *;
    match type of Hsize with context [stack_words ?l] => set (h := stack_words l) in *; clearbody h end;
    subst top; cbn [Nat.sub] in Hs; rewrite ?Nat.sub_0_r in Hs;
    repeat match goal with H : _ /\ _ |- _ => destruct H end;
    match type of Hsize with (?t <= _)%nat => take_step t end; (split; [new_stack | done | done | done]).
Qed.

(** ** Arithmetic *)

(** The port's arithmetic is Java's. *)
Lemma vm_binary_spec k op a b :
  min_j k <= a <= max_j k -> min_j k <= b <= max_j k -> (is_division op = true -> b <> 0) ->
  (match k with KInt => VMint op a b | KLong => VMlong op a b end) = eval_bin (arith_of op) k a b.
Proof.
  intros Ha Hb Hne.
  assert (is_division op = true -> (a =? min_j k) && (b =? -1) = false -> min_j k <= Z.quot a b <= max_j k) as Hq.
  { intros Hd Hx. apply quot_range; [done | auto |]. apply andb_false_iff in Hx as [Hx|Hx]; apply Z.eqb_neq in Hx; tauto. }
  assert (is_division op = true -> min_j k <= Z.rem a b <= max_j k) as Hrem by (intros Hd; by apply rem_range; [| apply Hne]).
  destruct op; cbn [arith_of eval_bin is_division] in *; try (by destruct k);
    try (symmetry; destruct k; by first [apply land_conv | apply lor_conv | apply lxor_conv]).
  - assert ((a =? min_j k) && (b =? -1) = true -> a = conv k (Z.quot a b)) as Hmin.
    { intros [->%Z.eqb_eq ->%Z.eqb_eq]%andb_prop. by destruct k. }
    specialize (Hq eq_refl). destruct k; simpl VMint; simpl VMlong;
      match goal with |- (if ?c then _ else _) = _ => change c with ((a =? min_j KInt) && (b =? -1)) || change c with ((a =? min_j KLong) && (b =? -1)) end;
      destruct (_ && _); [by apply Hmin | symmetry; by apply conv_small, Hq | by apply Hmin | symmetry; by apply conv_small, Hq].
  - assert ((a =? min_j k) && (b =? -1) = true -> 0 = conv k (Z.rem a b)) as Hmin.
    { intros [->%Z.eqb_eq ->%Z.eqb_eq]%andb_prop. by destruct k. }
    specialize (Hrem eq_refl). destruct k; simpl VMint; simpl VMlong;
      match goal with |- (if ?c then _ else _) = _ => change c with ((a =? min_j KInt) && (b =? -1)) || change c with ((a =? min_j KLong) && (b =? -1)) end;
      destruct (_ && _); [by apply Hmin | symmetry; by apply conv_small | by apply Hmin | symmetry; by apply conv_small].
Qed.

Lemma eval_bin_range op k a b : op <> Cmp -> min_j k <= eval_bin op k a b <= max_j k.
Proof. intros Hop. destruct op; try done; apply conv_range. Qed.

Lemma vm_shift_spec k op a b :
  min_j k <= a <= max_j k ->
  (match k with KInt => jint (VMint_shift op a b) | KLong => jlong (VMlong_shift op a b) end) =
  eval_bin (shift_of op) k a b.
Proof.
  intros Ha. destruct op, k; cbn [shift_of eval_bin VMint_shift VMlong_shift];
    rewrite ?jint_jint, ?jlong_jlong; done.
Qed.

(** ** Steps *)

Section Steps.
Context (max_stack : nat).

Lemma with_stack_Some s F R :
  with_stack max_stack s F = Some R -> (stack_words s <= max_stack)%nat /\ R = JNext (mkJFrame s (jlocals F)).
Proof. unfold with_stack. case_decide; [by intros [= <-] | done]. Qed.

(** The step reaches a frame with another stack and the same locals. *)
Definition to_stack (F : jframe) (s : list jval) (r : option result) : Prop :=
  exists f, r = Some (Next f) /\ represents max_stack f (mkJFrame s (jlocals F)).

Ltac enter Hf Hsize :=
  let Hs := fresh "Hs" in let Hl := fresh "Hl" in let Hr := fresh "Hr" in let Hloc := fresh "Hloc" in
  let Htop := fresh "Htop" in
  destruct Hf as [Hs Hl Hr Hloc];
  repeat match goal with f : frame |- _ => destruct f as [mem top lim locs] | F : jframe |- _ => destruct F as [js L] end;
  cbn [stack topOfStack stack_limit locals jstack jlocals] in *; subst;
  pose proof (stack_rep_words _ _ _ Hs) as Htop; heights Hs Hsize Htop.

Ltac reach top := unfold to_stack; take_step top; (split; [new_stack | done | cbn [topOfStack]; lia | done]).

Lemma push_int f F v :
  represents max_stack f F -> (stack_words (JInt (jint v) :: jstack F) <= max_stack)%nat ->
  to_stack F (JInt (jint v) :: jstack F) (SET_STACK_INT v 0 f ≫= continue 1).
Proof. intros Hf Hsize. enter Hf Hsize. reach (S h). Qed.

Lemma push_word f F w :
  represents max_stack f F -> (stack_words (JInt (jint w) :: jstack F) <= max_stack)%nat ->
  to_stack F (JInt (jint w) :: jstack F) (SET_STACK_WORD w 0 f ≫= continue 1).
Proof. intros Hf Hsize. enter Hf Hsize. reach (S h). Qed.

Lemma push_long f F v :
  represents max_stack f F -> (stack_words (JLong (jlong v) :: jstack F) <= max_stack)%nat ->
  to_stack F (JLong (jlong v) :: jstack F) (SET_STACK_LONG v 1 f ≫= continue 2).
Proof. intros Hf Hsize. enter Hf Hsize. reach (S (S h)). Qed.

(** Words on top of the stack. *)
Lemma top_int f F z s :
  represents max_stack f F -> jstack F = JInt z :: s -> exists w, STACK_WORD f (-1) = Some w /\ jint w = z.
Proof.
  intros Hf Hj. assert (0 <= max_stack)%nat as Hsize by lia. destruct F as [js L]. cbn in Hj. subst js. enter Hf Hsize.
  unfold STACK_WORD. accesses. by eexists.
Qed.

Lemma binary_rep k op f L a b s :
  represents max_stack f (mkJFrame (jvalue k b :: jvalue k a :: s) L) -> (is_division op = true -> b <> 0) ->
  to_stack (mkJFrame [] L) (jvalue k (eval_bin (arith_of op) k a b) :: s) (opc_binary k op f).
Proof.
  intros Hf Hne. assert (is_division op && (b =? 0) = false) as Hz.
  { destruct (is_division op); [by apply Z.eqb_neq, Hne | done]. }
  assert (0 <= max_stack)%nat as Hsize by lia. destruct k; cbn [jvalue] in *; enter Hf Hsize;
    unfold opc_binary, STACK_INT, STACK_LONG, STACK_WORD; accesses; rewrite Hz.
  - pose proof (vm_binary_spec KInt op (jint (mem h)) (jint (mem (S h))) (jint_bounds _) (jint_bounds _) Hne) as Ev.
    rewrite <- Ev. reach (S h). rewrite Ev. apply (conv_small KInt), eval_bin_range. by destruct op.
  - pose proof (vm_binary_spec KLong op (jlong (mem (S h))) (jlong (mem (S (S (S h))))) (jlong_bounds _) (jlong_bounds _) Hne) as Ev.
    rewrite <- Ev. reach (S (S h)). rewrite Ev. apply (conv_small KLong), eval_bin_range. by destruct op.
Qed.

Lemma division_by_zero k op f L x s :
  represents max_stack f (mkJFrame (jvalue k 0 :: x :: s) L) -> is_division op = true ->
  opc_binary k op f = Some ArithmeticException.
Proof.
  intros Hf Hd. assert (0 <= max_stack)%nat as Hsize by lia.
  assert (exists w, STACK_WORD f (-1) = Some w /\ match k with KInt => jint w = 0 | KLong => jlong w = 0 end) as (w & Hw & Ev).
  { destruct f as [mem top lim locs], Hf as [Hs Hl Hr Hloc]. cbn in *. subst lim. unfold STACK_WORD, slot. cbn.
    rewrite (proj2 (Z.leb_le _ _)), (proj2 (Z.ltb_lt _ _)) by (destruct k; cbn in Hs; lia). cbn. eexists. split; [done |].
    replace (Z.to_nat _) with (top - 1)%nat by (destruct k; cbn in Hs; lia). destruct k; apply Hs. }
  unfold opc_binary, STACK_INT, STACK_LONG. rewrite Hw, Hd. destruct k; cbn; by rewrite Ev.
Qed.

Lemma shift_rep k op f L a b s :
  represents max_stack f (mkJFrame (JInt b :: jvalue k a :: s) L) ->
  to_stack (mkJFrame [] L) (jvalue k (eval_bin (shift_of op) k a b) :: s) (opc_shift k op f).
Proof.
  intros Hf. assert (0 <= max_stack)%nat as Hsize by lia.
  destruct k; cbn [jvalue] in *; enter Hf Hsize; unfold opc_shift, STACK_INT, STACK_LONG, STACK_WORD; accesses.
  - rewrite <- (vm_shift_spec KInt) by apply jint_bounds. reach (S h).
  - rewrite <- (vm_shift_spec KLong) by apply jlong_bounds. reach (S (S h)).
Qed.

(** A value on top is replaced by another. *)
Lemma int_to_int f L z s g :
  represents max_stack f (mkJFrame (JInt z :: s) L) ->
  to_stack (mkJFrame [] L) (JInt (jint (g z)) :: s) (v ← STACK_INT f (-1); SET_STACK_INT (g v) (-1) f ≫= continue 0).
Proof.
  intros Hf. assert (0 <= max_stack)%nat as Hsize by lia. enter Hf Hsize. reach (S h).
Qed.

Lemma long_to_long f L z s g :
  represents max_stack f (mkJFrame (JLong z :: s) L) ->
  to_stack (mkJFrame [] L) (JLong (jlong (g z)) :: s) (v ← STACK_LONG f (-1); SET_STACK_LONG (g v) (-1) f ≫= continue 0).
Proof.
  intros Hf. assert (0 <= max_stack)%nat as Hsize by lia. enter Hf Hsize. reach (S (S h)).
Qed.

Lemma i2l_rep f L z s :
  represents max_stack f (mkJFrame (JInt z :: s) L) -> (stack_words (JLong z :: s) <= max_stack)%nat ->
  to_stack (mkJFrame [] L) (JLong z :: s) (step I2l f).
Proof.
  intros Hf Hsize. enter Hf Hsize. cbn [step]. unfold STACK_INT, STACK_WORD. accesses.
  rewrite (more_stack _ _ _ _ _ h) by lia. cbn [mbind option_bind]. reach (S (S h)).
  apply (conv_small KLong). pose proof (jint_bounds (mem h)) as Hr'.
  change (-2147483648 <= jint (mem h) <= 2147483647) in Hr'.
  change (-9223372036854775808 <= jint (mem h) <= 9223372036854775807). lia.
Qed.

Lemma l2i_rep f L z s :
  represents max_stack f (mkJFrame (JLong z :: s) L) -> to_stack (mkJFrame [] L) (JInt (jint z) :: s) (step L2i f).
Proof.
  intros Hf. assert (0 <= max_stack)%nat as Hsize by lia. enter Hf Hsize. cbn [step]. unfold STACK_LONG, STACK_WORD. accesses.
  rewrite (more_stack _ _ _ _ _ h) by lia. cbn [mbind option_bind]. reach (S h).
Qed.

(** Operands of branches, read and then dropped. *)
Lemma pop_int f L a s :
  represents max_stack f (mkJFrame (JInt a :: s) L) ->
  STACK_INT f (-1) = Some a /\ exists f', MORE_STACK (-1) f = Some f' /\ represents max_stack f' (mkJFrame s L).
Proof.
  intros Hf. assert (0 <= max_stack)%nat as Hsize by lia. enter Hf Hsize. unfold STACK_INT, STACK_WORD. accesses.
  split; [done |]. rewrite (more_stack _ _ _ _ _ h) by lia. eexists. split; [done |]. split; cbn; try done. lia.
Qed.

Lemma pop_ints f L b a s :
  represents max_stack f (mkJFrame (JInt b :: JInt a :: s) L) ->
  STACK_INT f (-2) = Some a /\ STACK_INT f (-1) = Some b /\
  exists f', MORE_STACK (-2) f = Some f' /\ represents max_stack f' (mkJFrame s L).
Proof.
  intros Hf. assert (0 <= max_stack)%nat as Hsize by lia. enter Hf Hsize. unfold STACK_INT, STACK_WORD. accesses.
  split; [done |]. split; [done |]. rewrite (more_stack _ _ _ _ _ h) by lia. eexists. split; [done |]. split; cbn; try done. lia.
Qed.

Lemma top_long f L a s : represents max_stack f (mkJFrame (JLong a :: s) L) -> STACK_LONG f (-1) = Some a.
Proof.
  intros Hf. assert (0 <= max_stack)%nat as Hsize by lia. enter Hf Hsize. unfold STACK_LONG, STACK_WORD. by accesses.
Qed.

(** Two longs replaced by an int. *)
Lemma longs_to_int f L b a s g :
  represents max_stack f (mkJFrame (JLong b :: JLong a :: s) L) ->
  exists f', (op1 ← STACK_LONG f (-3); op2 ← STACK_LONG f (-1); f ← MORE_STACK (-4) f; SET_STACK_INT (g op1 op2) 0 f) = Some f' /\
  exists f'', MORE_STACK 1 f' = Some f'' /\ represents max_stack f'' (mkJFrame (JInt (jint (g a b)) :: s) L).
Proof.
  intros Hf. assert (0 <= max_stack)%nat as Hsize by lia. enter Hf Hsize. unfold STACK_LONG, SET_STACK_INT, STACK_WORD, SET_STACK_WORD. accesses.
  rewrite (more_stack _ _ _ _ _ h) by lia. accesses. eexists. split; [done |].
  rewrite (more_stack _ _ _ _ _ (S h)) by lia. eexists. split; [done |].
  (split; [new_stack | done | cbn [topOfStack]; lia | done]).
Qed.

(** ** Locals *)

Lemma locals_store_int ws l i w z :
  locals_rep ws l -> jint w = z -> (i < length l)%nat -> locals_rep (<[i := w]> ws) (<[i := LInt z]> l).
Proof.
  intros (Hlen & Hint & Hlong) Hz Hi. split_and!.
  - by rewrite !length_insert.
  - intros j y Hj. destruct (decide (j = i)) as [->|Hne].
    + rewrite list_lookup_insert_eq in Hj by lia. injection Hj as <-. exists w. by rewrite list_lookup_insert_eq by lia.
    + rewrite list_lookup_insert_ne in Hj by done. rewrite list_lookup_insert_ne by done. by apply Hint.
  - intros j y Hj Hj1. destruct (decide (j = i)) as [->|Hne]; [by rewrite list_lookup_insert_eq in Hj by lia |].
    destruct (decide (j + 1 = i)%nat) as [<-|Hne1]; [by rewrite list_lookup_insert_eq in Hj1 by lia |].
    rewrite list_lookup_insert_ne in Hj by done. rewrite list_lookup_insert_ne in Hj1 by done. rewrite list_lookup_insert_ne by done. by apply Hlong.
Qed.

Lemma locals_store_long ws l i w z :
  locals_rep ws l -> jlong w = z -> (i + 1 < length l)%nat ->
  locals_rep (<[(i + 1)%nat := w]> ws) (<[(i + 1)%nat := LSecond]> (<[i := LLong z]> l)).
Proof.
  intros (Hlen & Hint & Hlong) Hz Hi. split_and!.
  - by rewrite !length_insert.
  - intros j y Hj. destruct (decide (j = i + 1)%nat) as [->|Hne]; [by rewrite list_lookup_insert_eq in Hj by (rewrite length_insert; lia) |].
    rewrite list_lookup_insert_ne in Hj by done. destruct (decide (j = i)) as [->|Hne']; [by rewrite list_lookup_insert_eq in Hj by lia |].
    rewrite list_lookup_insert_ne in Hj by done. rewrite list_lookup_insert_ne by done. by apply Hint.
  - intros j y Hj Hj1. destruct (decide (j = i + 1)%nat) as [->|Hne]; [by rewrite list_lookup_insert_eq in Hj by (rewrite length_insert; lia) |].
    rewrite list_lookup_insert_ne in Hj by done. destruct (decide (j = i)) as [->|Hne'].
    + rewrite list_lookup_insert_eq in Hj by lia. injection Hj as <-. exists w. by rewrite list_lookup_insert_eq by lia.
    + rewrite list_lookup_insert_ne in Hj by done. destruct (decide (j + 1 = i)%nat) as [<-|Hne1].
      * by rewrite list_lookup_insert_ne, list_lookup_insert_eq in Hj1 by lia.
      * rewrite !list_lookup_insert_ne in Hj1 by lia. rewrite list_lookup_insert_ne by lia. by apply Hlong.
Qed.

(** A store of a word in range. *)
Lemma set_local f i w :
  (i < length (locals f))%nat ->
  SET_LOCALS_WORD w i f = Some (mkFrame (stack f) (topOfStack f) (stack_limit f) (<[i := w]> (locals f))).
Proof. intros. unfold SET_LOCALS_WORD. by rewrite decide_True. Qed.

Lemma increment_rep f F i c R :
  represents max_stack f F -> jincrement i c F = Some R ->
  exists r, (v ← LOCALS_INT f i; SET_LOCALS_INT (jint (v + c)) i f ≫= continue 0) = Some r /\ result_rep max_stack r R.
Proof.
  intros [Hs Hl Hr Hloc] Hj. unfold jincrement in Hj. destruct (jlocals F !! i) as [[z| | |]|] eqn:Hi; try done.
  injection Hj as <-. pose proof Hloc as (Hlen & Hint & _). destruct (Hint i z Hi) as (w & Hw & <-).
  apply lookup_lt_Some in Hi. unfold LOCALS_INT, SET_LOCALS_INT, LOCALS_WORD, continue. rewrite Hw. cbn [mbind option_bind].
  rewrite set_local by lia. destruct f as [mem top lim locs]. cbn [mbind option_bind stack topOfStack stack_limit locals] in *.
  rewrite (more_stack _ _ _ _ _ top) by lia. eexists. split; [done |]. split; cbn; try done.
  apply locals_store_int; [done | | done]. by rewrite jint_write, jint_jint.
Qed.

Lemma istore_rep f F i z s :
  represents max_stack f F -> jstack F = JInt z :: s -> (i < length (jlocals F))%nat ->
  exists f', step (Istore i) f = Some (Next f') /\ represents max_stack f' (mkJFrame s (<[i := LInt z]> (jlocals F))).
Proof.
  intros Hf Hj Hi. pose proof (rep_locals _ _ _ Hf) as Hloc. assert (0 <= max_stack)%nat as Hsize by lia.
  destruct F as [js L]. cbn in Hj, Hi, Hloc. subst js. enter Hf Hsize.
  cbn [step]. unfold STACK_WORD. accesses. pose proof Hloc as (Hlen & _). rewrite set_local by (cbn; lia).
  cbn [mbind option_bind stack topOfStack stack_limit locals]. unfold continue. rewrite (more_stack _ _ _ _ _ h) by lia.
  eexists. split; [done |]. split; cbn; try done; [lia | by apply locals_store_int].
Qed.

Lemma lstore_rep f F i z s :
  represents max_stack f F -> jstack F = JLong z :: s -> (i + 1 < length (jlocals F))%nat ->
  exists f', step (Lstore i) f = Some (Next f') /\
    represents max_stack f' (mkJFrame s (<[(i + 1)%nat := LSecond]> (<[i := LLong z]> (jlocals F)))).
Proof.
  intros Hf Hj Hi. pose proof (rep_locals _ _ _ Hf) as Hloc. assert (0 <= max_stack)%nat as Hsize by lia.
  destruct F as [js L]. cbn in Hj, Hi, Hloc. subst js. enter Hf Hsize.
  cbn [step]. unfold STACK_LONG, STACK_WORD. accesses. pose proof Hloc as (Hlen & _).
  unfold SET_LOCALS_LONG. rewrite set_local by (cbn; lia).
  cbn [mbind option_bind stack topOfStack stack_limit locals]. unfold continue. rewrite (more_stack _ _ _ _ _ h) by lia.
  eexists. split; [done |]. split; cbn; try done; [lia |]. apply locals_store_long; [done | | done].
  by rewrite jlong_julong, jlong_jlong.
Qed.

(** ** Refinement *)

Lemma to_stack_rep F s r R :
  to_stack F s r -> R = JNext (mkJFrame s (jlocals F)) -> exists r', r = Some r' /\ result_rep max_stack r' R.
Proof. intros (f & -> & Hf) ->. by eexists. Qed.

Lemma as_kind_Some k v z : as_kind k v = Some z -> v = jvalue k z.
Proof. destruct k, v; try done; by intros [= ->]. Qed.

Lemma small_constant z : -32768 <= z <= 65535 -> jint z = z.
Proof. intros. by apply (conv_small KInt), narrow_constant. Qed.

(** Instructions that push, replace the top, or move words between the stack and the locals. *)
Lemma load_int_rep f F i R :
  represents max_stack f F -> jstep max_stack (Iload i) F = Some R ->
  exists r, step (Iload i) f = Some r /\ result_rep max_stack r R.
Proof.
  intros Hf Hj. cbn [jstep] in Hj. destruct (jlocals F !! i) as [[z| | |]|] eqn:Hi; try done.
  apply with_stack_Some in Hj as [Hsize ->]. destruct (rep_locals _ _ _ Hf) as (_ & Hint & _).
  destruct (Hint i z Hi) as (w & Hw & <-). cbn [step]. unfold LOCALS_WORD. rewrite Hw. cbn [mbind option_bind].
  eapply to_stack_rep; [by apply push_word | done].
Qed.

Lemma load_long_rep f F i R :
  represents max_stack f F -> jstep max_stack (Lload i) F = Some R ->
  exists r, step (Lload i) f = Some r /\ result_rep max_stack r R.
Proof.
  intros Hf Hj. cbn [jstep] in Hj. destruct (jlocals F !! i) as [[|z| |]|] eqn:Hi; try done.
  destruct (jlocals F !! (i + 1)%nat) as [[| | |]|] eqn:Hi1; try done.
  apply with_stack_Some in Hj as [Hsize ->]. destruct (rep_locals _ _ _ Hf) as (_ & _ & Hlong).
  destruct (Hlong i z Hi Hi1) as (w & Hw & <-). cbn [step]. unfold LOCALS_LONG, LOCALS_WORD. rewrite Hw. cbn [mbind option_bind].
  rewrite <- (jlong_jlong w) in Hsize. eapply to_stack_rep; [by apply push_long | by rewrite jlong_jlong].
Qed.

Lemma binary_refines f F k op R :
  represents max_stack f F -> jbinary max_stack k op F = Some R ->
  exists r, opc_binary k op f = Some r /\ result_rep max_stack r R.
Proof.
  intros Hf Hj. destruct F as [[|y [|x s]] L]; try done. unfold jbinary in Hj. cbn [jstack] in Hj.
  apply bind_Some in Hj as (b & ->%as_kind_Some & Hj). apply bind_Some in Hj as (a & ->%as_kind_Some & Hj).
  destruct (is_division op && (b =? 0)) eqn:Hz.
  - injection Hj as <-. apply andb_prop in Hz as [Hd ->%Z.eqb_eq]. exists ArithmeticException.
    split; [by eapply division_by_zero | done].
  - apply with_stack_Some in Hj as [Hsize ->]. eapply to_stack_rep; [| done].
    apply binary_rep; [done |]. intros Hd ->. by rewrite Hd in Hz.
Qed.

Lemma shift_refines f F k op R :
  represents max_stack f F -> jshift max_stack k op F = Some R ->
  exists r, opc_shift k op f = Some r /\ result_rep max_stack r R.
Proof.
  intros Hf Hj. destruct F as [[|[b|b] [|x s]] L]; try done. unfold jshift in Hj. cbn [jstack] in Hj.
  apply bind_Some in Hj as (a & ->%as_kind_Some & Hj). apply with_stack_Some in Hj as [Hsize ->].
  eapply to_stack_rep; [by apply shift_rep | done].
Qed.

Lemma convert_refines b f F R :
  match b with Neg _ | I2l | L2i | I2b | I2c | I2s => True | _ => False end ->
  represents max_stack f F -> jstep max_stack b F = Some R ->
  exists r, step b f = Some r /\ result_rep max_stack r R.
Proof.
  intros Hb Hf Hj. destruct F as [[|x s] L]; [destruct b; done |].
  assert (forall g, jconvert max_stack g (mkJFrame (x :: s) L) = Some R ->
    exists y, g x = Some y /\ (stack_words (y :: s) <= max_stack)%nat /\ R = JNext (mkJFrame (y :: s) L)) as Hconv.
  { intros g Hg. unfold jconvert in Hg. cbn [jstack] in Hg. apply bind_Some in Hg as (y & Hy & [Hsize ->]%with_stack_Some). eauto. }
  destruct b; try done; cbn [jstep] in Hj; apply Hconv in Hj as (y & Hy & Hsize & ->); clear Hconv.
  - apply bind_Some in Hy as (z & ->%as_kind_Some & [= <-]). destruct k; cbn [step jvalue conv] in *.
    + eapply to_stack_rep; [by apply (int_to_int f L z s VMintNeg) | unfold VMintNeg; by rewrite jint_jint].
    + eapply to_stack_rep; [by apply (long_to_long f L z s VMlongNeg) | unfold VMlongNeg; by rewrite jlong_jlong].
  - destruct x as [z|]; [injection Hy as <- | done]. eapply to_stack_rep; [by apply i2l_rep | done].
  - destruct x as [|z]; [done | injection Hy as <-]. eapply to_stack_rep; [by apply l2i_rep | done].
  - destruct x as [z|]; [injection Hy as <- | done]. eapply to_stack_rep; [by apply (int_to_int f L z s VMint2Byte) |].
    unfold VMint2Byte. rewrite small_constant; [done | apply jbyte_narrow].
  - destruct x as [z|]; [injection Hy as <- | done]. eapply to_stack_rep; [by apply (int_to_int f L z s VMint2Char) |].
    unfold VMint2Char. rewrite small_constant; [done | apply jchar_narrow].
  - destruct x as [z|]; [injection Hy as <- | done]. eapply to_stack_rep; [by apply (int_to_int f L z s VMint2Short) |].
    unfold VMint2Short. rewrite small_constant; [done | apply jshort_narrow].
Qed.

(** Constants. *)
Lemma constant_refines f F n R :
  -32768 <= n <= 65535 -> represents max_stack f F -> with_stack max_stack (JInt n :: jstack F) F = Some R ->
  exists r, (SET_STACK_INT n 0 f ≫= continue 1) = Some r /\ result_rep max_stack r R.
Proof.
  intros Hn Hf [Hsize ->]%with_stack_Some. rewrite <- (small_constant n Hn) in Hsize.
  eapply to_stack_rep; [by apply push_int | by rewrite small_constant].
Qed.

Lemma step_refines b f F R :
  represents max_stack f F -> jstep max_stack b F = Some R ->
  exists r, step b f = Some r /\ result_rep max_stack r R.
Proof.
  intros Hf Hj. destruct b.
  all: try (apply bind_Some in Hj as (s & Hop & [Hsize ->]%with_stack_Some);
            destruct (stack_op_rep max_stack _ f F s Hf Hop Hsize) as (f' & Hst & Hrep); by exists (Next f')).
  all: try (by apply (increment_rep f F _ _ R Hf)).
  all: try (by apply (convert_refines _ f F R)).
  all: try (by first [apply load_int_rep with F | apply load_long_rep with F | apply binary_refines with F | apply shift_refines with F]).
  all: cbn [jstep step] in *.
  - injection Hj as <-. destruct f as [mem top lim locs]. unfold continue. rewrite (more_stack _ _ _ _ _ top) by lia. by eexists.
  - destruct ((_ <=? _) && _) eqn:E; [| done]. apply andb_prop in E as [?%Z.leb_le ?%Z.leb_le].
    apply (constant_refines f F); [lia | done | done].
  - destruct ((_ <=? _) && _) eqn:E; [| done]. apply andb_prop in E as [?%Z.leb_le ?%Z.leb_le].
    apply with_stack_Some in Hj as [Hsize ->]. assert (jlong n = n) as Hn by (assert (n = 0 \/ n = 1) as [-> | ->] by lia; done).
    rewrite <- Hn in Hsize. eapply to_stack_rep; [by apply push_long | by rewrite Hn].
  - apply (constant_refines f F); [apply jbyte_narrow | done | done].
  - apply (constant_refines f F); [apply jshort_narrow | done | done].
  - destruct F as [[|[z|z] s] L]; try done. cbn [jstack jlocals] in Hj. case_decide as Hi; [injection Hj as <- | done].
    destruct (istore_rep f _ i z s Hf eq_refl Hi) as (f' & Hst & Hrep). by exists (Next f').
  - destruct F as [[|[z|z] s] L]; try done. cbn [jstack jlocals] in Hj. case_decide as Hi; [injection Hj as <- | done].
    destruct (lstore_rep f _ i z s Hf eq_refl Hi) as (f' & Hst & Hrep). by exists (Next f').
Qed.

Lemma run_rep code : forall f F R,
  represents max_stack f F -> jrun max_stack code F = Some R ->
  exists r, run code f = Some r /\ result_rep max_stack r R.
Proof.
  induction code as [|b code IH]; intros f F R Hf Hj; cbn [jrun run] in *; [injection Hj as <-; by eexists |].
  apply bind_Some in Hj as (R1 & Hj1 & Hj). destruct (step_refines b f F R1 Hf Hj1) as (r1 & -> & Hr1).
  cbn [mbind option_bind]. destruct r1 as [f'|], R1 as [F'|]; try done; [by apply (IH f' F') |].
  injection Hj as <-. by exists ArithmeticException.
Qed.

End Steps.

End InterpreterTheorems.
