(* ===== verification/InterpreterLoop.v ===== *)
(** The loop of the C++ interpreter over the code of a method
    (interpreter/bytecodeInterpreter.cpp, [BytecodeInterpreter::run]): the switch on the
    opcode with the branches, the switches and the returns.

    Counters and profiles, the safepoint of a backward branch and the replacement of the
    frame by compiled code are left out.  A return leaves its value on top of the stack,
    where the caller of the loop takes it.  [None] is an access outside the stack, the
    locals or the code, or an opcode of no instruction modelled. *)
From S2P Require Import Prelude GlobalDefinitions IdealType JavaMachine BytecodeInterpreter Bytecodes.
Import GlobalDefinitions IdealType JavaMachine BytecodeInterpreter Bytecodes.

Module InterpreterLoop.

(** [VMlongCompare] *)
Definition VMlongCompare (op1 op2 : Z) : Z := if op1 <? op2 then -1 else if op2 <? op1 then 1 else 0.

Definition VMalignWordUp (val : Z) : Z := Z.land (uintptr_t (val + 3)) (Z.lnot 3).

Inductive control : Set :=
  | At (pc : Z) (f : frame)
  | Return (f : frame)
  | Throw.

Section Loop.
(** The address of the code and its bytes. *)
Context (code_base : Z) (code : list Z).

(** [UPDATE_PC_AND_TOS] *)
Definition UPDATE_PC_AND_TOS (pc opsize n : Z) (f : frame) : option control :=
  f ← MORE_STACK n f;
  Some (At (pc + opsize) f).

(** [COMPARISON_OP] *)
Definition comparison_op (pc : Z) (cmp : bool) (n : Z) (f : frame) : option control :=
  skip ← (if cmp then v ← u2_at code (pc + 1); Some (jshort v) else Some 3);
  UPDATE_PC_AND_TOS pc skip n f.

(** [Bytes::get_Java_u4] at an address. *)
Definition u4_at_address (p : Z) : option Z := u4_at code (p - code_base).

Definition tableswitch (pc : Z) (f : frame) : option control :=
  let lpc := VMalignWordUp (code_base + pc + 1) in
  key ← STACK_INT f (-1);
  low ← u4_at_address (lpc + 4); let low := jint low in
  high ← u4_at_address (lpc + 8); let high := jint high in
  let key := jint (key - low) in
  skip ← (if juint (jint (high - low)) <? juint key then u4_at_address lpc else u4_at_address (lpc + 4 * jint (key + 3)));
  UPDATE_PC_AND_TOS pc (jint skip) (-1) f.

(** The loop of [lookupswitch] over [npairs] entries, after [lpc]. *)
Fixpoint lookup_loop (npairs : nat) (lpc key skip : Z) : option Z :=
  match npairs with
  | O => Some skip
  | S npairs =>
      let lpc := lpc + 8 in
      v ← u4_at_address lpc;
      if key =? jint v then v ← u4_at_address (lpc + 4); Some (jint v)
      else lookup_loop npairs lpc key skip
  end.

Definition lookupswitch (pc : Z) (f : frame) : option control :=
  let lpc := VMalignWordUp (code_base + pc + 1) in
  key ← STACK_INT f (-1);
  skip ← u4_at_address lpc;
  npairs ← u4_at_address (lpc + 4);
  skip ← lookup_loop (Z.to_nat (jint npairs)) lpc key (jint skip);
  UPDATE_PC_AND_TOS pc skip (-1) f.

(** One round of the loop. *)
Definition dispatch (pc : Z) (f : frame) : option control :=
  match decode code pc with
  | Some (b, size) =>
      r ← step b f;
      match r with Next f => Some (At (pc + size) f) | ArithmeticException => Some Throw end
  | None =>
      opcode ← byte_at code pc;
      if opcode =? 148 then
        op1 ← STACK_LONG f (-3);
        op2 ← STACK_LONG f (-1);
        f ← MORE_STACK (-4) f;
        f ← SET_STACK_INT (VMlongCompare op1 op2) 0 f;
        UPDATE_PC_AND_TOS pc 1 1 f
      else
      match branch_in 153 opcode, branch_in 159 opcode with
      | Some c, _ => a ← STACK_INT f (-1); comparison_op pc (holds c a 0) (-1) f
      | None, Some c => a ← STACK_INT f (-2); b ← STACK_INT f (-1); comparison_op pc (holds c a b) (-2) f
      | None, None =>
          if opcode =? 167 then offset ← u2_at code (pc + 1); Some (At (pc + jshort offset) f)
          else if opcode =? 170 then tableswitch pc f
          else if opcode =? 171 then lookupswitch pc f
          else if (opcode =? 172) || (opcode =? 173) || (opcode =? 177) then Some (Return f)
          else if opcode =? 200 then offset ← u4_at code (pc + 1); Some (At (pc + jint offset) f)
          else None
      end
  end.

Fixpoint loop (rounds : nat) (c : control) : option control :=
  match rounds, c with
  | S rounds, At pc f => c ← dispatch pc f; loop rounds c
  | _, _ => Some c
  end.

End Loop.

End InterpreterLoop.
