(* ===== verification/InterpreterLoopTheorems.v ===== *)
(** The loop of the C++ interpreter implements Java's machine on the code of a method. *)
From S2P Require Import Prelude GlobalDefinitions IdealType IdealNode IdealRings IdealValueTheorems JavaMachine BytecodeInterpreter InterpreterTheorems Bytecodes JavaMethod InterpreterLoop.
Import GlobalDefinitions IdealType IdealNode IdealRings IdealValueTheorems JavaMachine BytecodeInterpreter InterpreterTheorems.
Import Bytecodes JavaMethod InterpreterLoop.

Module InterpreterLoopTheorems.

(** ** Arithmetic of switches *)

(** The test of a table with one unsigned comparison. *)
Lemma in_table key low high :
  min_j KInt <= key <= max_j KInt -> min_j KInt <= low <= max_j KInt -> min_j KInt <= high <= max_j KInt -> low <= high ->
  (juint (jint (high - low)) <? juint (jint (key - low))) = (key <? low) || (high <? key).
Proof.
  change (min_j KInt) with (-2147483648). change (max_j KInt) with 2147483647. intros.
  assert (forall z, -4294967295 <= z <= 4294967295 -> juint (jint z) = if z <? 0 then z + 4294967296 else z) as Hw.
  { intros z Hz. unfold juint, jint. rewrite wrap_swrap by lia. unfold wrap. change (2 ^ 32) with 4294967296.
    destruct (Z.ltb_spec z 0).
    - rewrite <- (Z.mod_add z 1) by lia. rewrite Z.mod_small; lia.
    - apply Z.mod_small. lia. }
  rewrite !Hw by lia. rewrite (proj2 (Z.ltb_ge (high - low) 0)) by lia.
  destruct (Z.ltb_spec (key - low) 0), (Z.ltb_spec key low), (Z.ltb_spec high key); try lia; simpl;
    first [apply Z.ltb_lt; lia | apply Z.ltb_ge; lia].
Qed.

(** Alignment of an address in code that starts at a multiple of 4. *)
Lemma align_operands base pc :
  0 <= base -> base mod 4 = 0 -> 0 <= pc -> base + pc + 4 < 2 ^ 64 -> VMalignWordUp (base + pc + 1) = base + operands pc.
Proof.
  intros Hb Hm Hp Hmax. unfold VMalignWordUp, operands, uintptr_t. rewrite wrap_small by (unfold in_unsigned; lia).
  change 3 with (Z.ones 2) at 2. rewrite <- Z.ldiff_land, Z.ldiff_ones_r by lia.
  rewrite Z.shiftr_div_pow2, Z.shiftl_mul_pow2 by lia. change (2 ^ 2) with 4.
  Z.to_euclidean_division_equations. lia.
Qed.

(** ** The loop *)

Definition value_rep (f : frame) (v : option jval) : Prop :=
  match v with
  | None => True
  | Some (JInt z) => STACK_INT f (-1) = Some z
  | Some (JLong z) => STACK_LONG f (-1) = Some z
  end.

Definition control_rep (max_stack : nat) (c : control) (C : jcontrol) : Prop :=
  match c, C with
  | At pc f, JAt pc' F => pc = pc' /\ represents max_stack f F
  | Return f, JReturn v => value_rep f v
  | Throw, JThrow => True
  | _, _ => False
  end.

Section Loop.
Context (max_stack : nat) (code_base : Z) (code : list Z).

(** Where methods have their code: at a multiple of 4, in an address space that has room
    for the longest code, of less than 2^16 bytes. *)
Definition placed : Prop :=
  0 <= code_base /\ code_base mod 4 = 0 /\ code_base + 2 ^ 16 + 4 < 2 ^ 64 /\ Z.of_nat (length code) < 2 ^ 16.

Lemma byte_at_range pc b : byte_at code pc = Some b -> 0 <= pc < Z.of_nat (length code).
Proof using.
  unfold byte_at. destruct (Z.ltb_spec pc 0); [done |]. intros Hb%lookup_lt_Some. lia.
Qed.

Lemma s4_range pc v : s4_at code pc = Some v -> min_j KInt <= v <= max_j KInt.
Proof using. unfold s4_at. intros (w & _ & [= <-])%bind_Some. apply jint_bounds. Qed.

Lemma aligned pc b : placed -> byte_at code pc = Some b -> VMalignWordUp (code_base + pc + 1) = code_base + operands pc.
Proof using. intros (? & ? & ? & ?) ?%byte_at_range. apply align_operands; lia. Qed.

Lemma at_offset p : u4_at_address code_base code (code_base + p) = u4_at code p.
Proof using. unfold u4_at_address. f_equal. lia. Qed.

Lemma at_offset_plus p q : u4_at_address code_base code (code_base + p + q) = u4_at code (p + q).
Proof using. unfold u4_at_address. f_equal. lia. Qed.

Lemma jumps pc offset n f f' s L :
  MORE_STACK n f = Some f' -> represents max_stack f' (mkJFrame s L) ->
  exists c, UPDATE_PC_AND_TOS pc offset n f = Some c /\ control_rep max_stack c (JAt (pc + offset) (mkJFrame s L)).
Proof using. intros Hm Hf. unfold UPDATE_PC_AND_TOS. rewrite Hm. by eexists. Qed.

Lemma branches pc cmp n f f' s L offset :
  s2_at code (pc + 1) = Some offset -> MORE_STACK n f = Some f' -> represents max_stack f' (mkJFrame s L) ->
  exists c, comparison_op code pc cmp n f = Some c /\ control_rep max_stack c (JAt (pc + if cmp then offset else 3) (mkJFrame s L)).
Proof using.
  intros Ho Hm Hf. unfold comparison_op. unfold s2_at in Ho. destruct cmp; [rewrite Ho |]; cbn [mbind option_bind]; by apply jumps with f'.
Qed.

(** Rewriting with the reads of operands. *)
Lemma s4_u4 p v : s4_at code p = Some v -> exists w, u4_at code p = Some w /\ jint w = v.
Proof using. unfold s4_at. intros (w & -> & [= <-])%bind_Some. by eexists. Qed.

Lemma tableswitch_jumps pc opcode f key s L default low high :
  placed -> byte_at code pc = Some opcode -> represents max_stack f (mkJFrame (JInt key :: s) L) ->
  s4_at code (operands pc) = Some default -> s4_at code (operands pc + 4) = Some low ->
  s4_at code (operands pc + 8) = Some high -> low <= high ->
  operands pc + 12 + 4 * (high - low + 1) <= Z.of_nat (length code) ->
  forall offset,
  (if (key <? low) || (high <? key) then Some default else s4_at code (operands pc + 12 + 4 * (key - low))) = Some offset ->
  exists c, tableswitch code_base code pc f = Some c /\ control_rep max_stack c (JAt (pc + offset) (mkJFrame s L)).
Proof using.
  intros Hp Hop Hf Hd Hl Hh Hle Hlen offset Ho. pose proof Hp as (_ & _ & _ & Hmax).
  pose proof (s4_range _ _ Hl) as Rl. pose proof (s4_range _ _ Hh) as Rh. pose proof (byte_at_range _ _ Hop) as Rp.
  destruct (pop_int _ _ _ _ _ Hf) as (Hkey & f' & Hm & Hf'). pose proof (jint_bounds key) as Rk.
  assert (jint key = key) as Ek. { unfold STACK_INT in Hkey. apply bind_Some in Hkey as (w & _ & [= <-]). apply jint_jint. }
  rewrite Ek in Rk. unfold tableswitch. rewrite (aligned pc opcode) by done. cbv zeta. rewrite Hkey. cbn [mbind option_bind].
  destruct (s4_u4 _ _ Hl) as (wl & Hwl & El). destruct (s4_u4 _ _ Hh) as (wh & Hwh & Eh). destruct (s4_u4 _ _ Hd) as (wd & Hwd & Ed).
  rewrite (at_offset_plus _ 4), Hwl. cbn [mbind option_bind]. rewrite (at_offset_plus _ 8), Hwh. cbn [mbind option_bind].
  rewrite El, Eh. rewrite in_table by done. destruct ((key <? low) || (high <? key)) eqn:Hin.
  - injection Ho as <-. rewrite at_offset, Hwd. cbn [mbind option_bind]. rewrite Ed. by apply jumps with f'.
  - apply orb_false_iff in Hin as [?%Z.ltb_ge ?%Z.ltb_ge]. destruct (s4_u4 _ _ Ho) as (wo & Hwo & Eo).
    assert (0 <= operands pc) as Rop by (unfold operands; pose proof (Z.mod_pos_bound (- (pc + 1)) 4 ltac:(lia)); lia).
    assert (jint (jint (key - low) + 3) = key - low + 3) as ->.
    { assert (jint (key - low) = key - low) as -> by (apply (conv_small KInt), narrow_constant; lia).
      apply (conv_small KInt), narrow_constant. lia. }
    replace (code_base + operands pc + 4 * (key - low + 3)) with (code_base + (operands pc + 12 + 4 * (key - low))) by lia.
    rewrite at_offset, Hwo. cbn [mbind option_bind]. rewrite Eo. by apply jumps with f'.
Qed.

Lemma lookup_loop_spec n : forall p key skip offset,
  lookup_pair code n p key skip = Some offset -> lookup_loop code_base code n (code_base + p - 8) key skip = Some offset.
Proof using.
  induction n as [|n IH]; intros p key skip offset H; cbn [lookup_pair lookup_loop] in *; [done |].
  apply bind_Some in H as (m & Hm & H). destruct (s4_u4 _ _ Hm) as (w & Hw & Ew). cbv zeta.
  replace (code_base + p - 8 + 8) with (code_base + p) by lia. rewrite at_offset, Hw. cbn [mbind option_bind]. rewrite Ew.
  destruct (key =? m).
  - destruct (s4_u4 _ _ H) as (v & Hv & Ev). rewrite at_offset_plus, Hv. cbn [mbind option_bind]. by rewrite Ev.
  - apply IH in H. rewrite <- H. f_equal. lia.
Qed.

Lemma lookupswitch_jumps pc opcode f key s L default npairs offset :
  placed -> byte_at code pc = Some opcode -> represents max_stack f (mkJFrame (JInt key :: s) L) ->
  s4_at code (operands pc) = Some default -> s4_at code (operands pc + 4) = Some npairs ->
  lookup_pair code (Z.to_nat npairs) (operands pc + 8) key default = Some offset ->
  exists c, lookupswitch code_base code pc f = Some c /\ control_rep max_stack c (JAt (pc + offset) (mkJFrame s L)).
Proof using.
  intros Hp Hop Hf Hd Hn Ho. destruct (pop_int _ _ _ _ _ Hf) as (Hkey & f' & Hm & Hf').
  unfold lookupswitch. rewrite (aligned pc opcode) by done. cbv zeta. rewrite Hkey. cbn [mbind option_bind].
  destruct (s4_u4 _ _ Hn) as (wn & Hwn & En). destruct (s4_u4 _ _ Hd) as (wd & Hwd & Ed).
  rewrite at_offset, Hwd. cbn [mbind option_bind]. rewrite (at_offset_plus _ 4), Hwn. cbn [mbind option_bind]. rewrite En, Ed.
  apply lookup_loop_spec in Ho. replace (code_base + (operands pc + 8) - 8) with (code_base + operands pc) in Ho by lia.
  rewrite Ho. cbn [mbind option_bind]. by apply jumps with f'.
Qed.

Lemma lcmp_jumps pc f b a s L :
  represents max_stack f (mkJFrame (JLong b :: JLong a :: s) L) ->
  exists c,
    (op1 ← STACK_LONG f (-3); op2 ← STACK_LONG f (-1); f ← MORE_STACK (-4) f;
     f ← SET_STACK_INT (VMlongCompare op1 op2) 0 f; UPDATE_PC_AND_TOS pc 1 1 f) = Some c /\
    control_rep max_stack c (JAt (pc + 1) (mkJFrame (JInt (if a <? b then -1 else if a =? b then 0 else 1) :: s) L)).
Proof using.
  intros Hf. destruct (longs_to_int max_stack f L b a s VMlongCompare Hf) as (f' & Hst & f'' & Hm & Hf'').
  apply bind_Some in Hst as (x & -> & Hst). cbn [mbind option_bind]. apply bind_Some in Hst as (y & -> & Hst). cbn [mbind option_bind].
  apply bind_Some in Hst as (g & -> & Hst). cbn [mbind option_bind]. rewrite Hst. cbn [mbind option_bind].
  destruct (jumps pc 1 1 f' f'' _ L Hm Hf'') as (c & Hc & Hr). exists c. split; [done |].
  replace (if a <? b then -1 else if a =? b then 0 else 1) with (jint (VMlongCompare a b)); [done |].
  unfold VMlongCompare. destruct (Z.ltb_spec a b), (Z.ltb_spec b a), (Z.eqb_spec a b); try lia; done.
Qed.

(** One round of the loop. *)
Lemma dispatch_rep pc f F C :
  placed -> represents max_stack f F -> jexec max_stack code pc F = Some C ->
  exists c, dispatch code_base code pc f = Some c /\ control_rep max_stack c C.
Proof using.
  intros Hp Hf Hj. unfold jexec in Hj. apply bind_Some in Hj as (i & Hi & Hj). unfold instr_at in Hi. unfold dispatch.
  destruct (decode code pc) as [[b size]|].
  - injection Hi as <-. apply bind_Some in Hj as (R & HR & Hj). destruct (step_refines max_stack b f F R Hf HR) as (r & -> & Hr).
    cbn [mbind option_bind]. destruct r as [f'|], R as [F'|]; try done; injection Hj as <-; by eexists.
  - apply bind_Some in Hi as (opcode & Hop & Hi). rewrite Hop. cbn [mbind option_bind]. destruct F as [st L]. cbn [jstack] in Hj.
    destruct (opcode =? 148).
    { injection Hi as <-. destruct st as [|[|b] [|[|a] s]]; try done. injection Hj as <-. by apply lcmp_jumps. }
    destruct (branch_in 153 opcode) as [c|].
    { apply bind_Some in Hi as (offset & Ho & [= <-]). destruct st as [|[a|] s]; try done. injection Hj as <-.
      destruct (pop_int _ _ _ _ _ Hf) as (-> & f' & Hm & Hf'). cbn [mbind option_bind]. by apply branches with f'. }
    destruct (branch_in 159 opcode) as [c|].
    { apply bind_Some in Hi as (offset & Ho & [= <-]). destruct st as [|[b|] [|[a|] s]]; try done. injection Hj as <-.
      destruct (pop_ints _ _ _ _ _ _ Hf) as (-> & -> & f' & Hm & Hf'). cbn [mbind option_bind]. by apply branches with f'. }
    destruct (opcode =? 167).
    { apply bind_Some in Hi as (offset & Ho & [= <-]). injection Hj as <-. unfold s2_at in Ho. apply bind_Some in Ho as (v & -> & [= <-]).
      by eexists. }
    destruct (opcode =? 170).
    { apply bind_Some in Hi as (default & Hd & Hi). apply bind_Some in Hi as (low & Hl & Hi). apply bind_Some in Hi as (high & Hh & Hi).
      cbv zeta in Hi. destruct ((low <=? high) && _) eqn:E; [injection Hi as <- | done]. apply andb_prop in E as [?%Z.leb_le ?%Z.leb_le].
      destruct st as [|[key|] s]; try done. apply bind_Some in Hj as (offset & Ho & [= <-]).
      by apply (tableswitch_jumps pc opcode f key s L default low high). }
    destruct (opcode =? 171).
    { apply bind_Some in Hi as (default & Hd & Hi). apply bind_Some in Hi as (npairs & Hn & Hi).
      cbv zeta in Hi. destruct ((0 <=? npairs) && _) eqn:E; [injection Hi as <- | done].
      destruct st as [|[key|] s]; try done. apply bind_Some in Hj as (offset & Ho & [= <-]).
      by apply (lookupswitch_jumps pc opcode f key s L default npairs). }
    destruct (opcode =? 172); cbn [orb].
    { injection Hi as <-. destruct st as [|[z|] s]; try done. injection Hj as <-. eexists. split; [done |]. by apply (pop_int max_stack f L z s). }
    destruct (opcode =? 173); cbn [orb].
    { injection Hi as <-. destruct st as [|[|z] s]; try done. injection Hj as <-. eexists. split; [done |]. by apply (top_long max_stack f L z s). }
    destruct (opcode =? 177); cbn [orb].
    { injection Hi as <-. destruct st; injection Hj as <-; by eexists. }
    destruct (opcode =? 200); [| done].
    apply bind_Some in Hi as (offset & Ho & [= <-]). injection Hj as <-. unfold s4_at in Ho. apply bind_Some in Ho as (v & -> & [= <-]). by eexists.
Qed.

Lemma loop_rep steps : forall c C C',
  placed -> control_rep max_stack c C -> jloop max_stack code steps C = Some C' ->
  exists c', loop code_base code steps c = Some c' /\ control_rep max_stack c' C'.
Proof using.
  induction steps as [|steps IH]; intros c C C' Hp Hc Hj; [injection Hj as <-; by exists c |].
  destruct c as [pc f| f|], C as [pc' F|v|]; try done; try (injection Hj as <-; by eexists).
  destruct Hc as [-> Hf]. cbn [jloop loop] in *. apply bind_Some in Hj as (C1 & Hx & Hj).
  destruct (dispatch_rep pc' f F C1 Hp Hf Hx) as (c1 & -> & Hc1). cbn [mbind option_bind]. by apply (IH c1 C1).
Qed.

End Loop.

(** C3.  The interpreter.  On the code of any method that the verifier accepts, of integer
    instructions, branches, switches and returns, the loop never reads or writes outside
    the stack, the locals and the code: each round executes one instruction as Java's
    machine does.  After any number of rounds it has gone to the same instruction with a
    frame whose words hold the values of Java's frame, or has returned with the value on
    top of the stack, or throws, where Java's machine does. *)
Theorem interpreter_refines max_stack code_base code steps pc f F C :
  placed code_base code -> represents max_stack f F ->
  jloop max_stack code steps (JAt pc F) = Some C ->
  exists c, loop code_base code steps (At pc f) = Some c /\ control_rep max_stack c C.
Proof. intros Hp Hf. by apply loop_rep. Qed.

(** ** A method *)

(** [int s = 0; for (; n > 0; n--) s += n; switch (s) { case 10: return 100; case 9:
    default: return s; }] *)
Definition example_method : list Z :=
  [3; 60; 26; 158; 0; 13; 27; 26; 96; 60; 132; 0; 255; 167; 255; 245; 27;
   170; 0; 0; 0; 0; 0; 26; 0; 0; 0; 9; 0; 0; 0; 10; 0; 0; 0; 26; 0; 0; 0; 23; 16; 100; 172; 27; 172].

Lemma interpreter_refines_witness :
  let start n := mkFrame (fun i => 2 ^ 40 + 3) 0 2 [n; 77] in
  (exists f, loop 4096 example_method 40 (At 0 (start 4)) = Some (Return f) /\ STACK_INT f (-1) = Some 100) /\
  (exists f, loop 4096 example_method 40 (At 0 (start 3)) = Some (Return f) /\ STACK_INT f (-1) = Some 6).
Proof.
  intros start.
  assert (placed 4096 example_method) as Hp by (split; [lia |]; split; [reflexivity |]; split; [lia | reflexivity]).
  assert (forall n, jint n = n -> represents 2 (start n) (mkJFrame [] [LInt n; LUnset])) as Hs.
  { intros n Hn. split; [reflexivity | reflexivity | apply Nat.le_0_l |]. split; [reflexivity |]. split.
    - intros [|[|i]] z Hz; try discriminate Hz; injection Hz as <-. exists n. split; [reflexivity | exact Hn].
    - intros [|[|i]] z Hz; discriminate Hz. }
  split.
  - destruct (interpreter_refines 2 4096 example_method 40 0 (start 4) (mkJFrame [] [LInt 4; LUnset]) (JReturn (Some (JInt 100))) Hp)
      as ([?|f|] & Hr & Hv); [apply Hs; reflexivity | vm_compute; reflexivity | destruct Hv | | destruct Hv].
    exists f. split; [exact Hr | exact Hv].
  - destruct (interpreter_refines 2 4096 example_method 40 0 (start 3) (mkJFrame [] [LInt 3; LUnset]) (JReturn (Some (JInt 6))) Hp)
      as ([?|f|] & Hr & Hv); [apply Hs; reflexivity | vm_compute; reflexivity | destruct Hv | | destruct Hv].
    exists f. split; [exact Hr | exact Hv].
Defined.

End InterpreterLoopTheorems.
