(* ===== verification/Parse.v ===== *)
(** The C2 compiler's parser on straight-line integer code: [Parse::do_one_bytecode]
    (opto/parse2.cpp) with the state and the checks of [GraphKit] (opto/graphKit.hpp,
    graphKit.cpp).  It executes the code abstractly: the expression stack and the locals
    hold the nodes of the graph that compute the values.

    A slot without a value holds the node [top()], here [None].  A long takes two slots,
    of which the second is [top()].  [checks] are the tests of the branches built so far,
    in order: compiled code throws at the first that is false.  An arithmetic node made
    of [top()] is not modelled: [None], as for a failed assertion. *)
From S2P Require Import Prelude GlobalDefinitions IdealType IdealNode IdealTransform IdealConvert IdealGVN JavaMachine.
Import GlobalDefinitions IdealType IdealNode IdealTransform IdealConvert IdealGVN JavaMachine.

Module Parse.

(** ** GraphKit *)

Record kit : Set := mkKit { kstack : list (option Node); klocals : list (option Node); checks : list Node }.

Section GraphKit.
(** The room for stack slots in the map. *)
Context (max_stack : nat).

Definition with_slots (s : list (option Node)) (K : kit) : kit := mkKit s (klocals K) (checks K).

Definition push (n : option Node) (K : kit) : option kit :=
  if decide (length (kstack K) < max_stack)%nat then Some (with_slots (n :: kstack K) K) else None.
Definition pop (K : kit) : option (option Node * kit) :=
  match kstack K with n :: s => Some (n, with_slots s K) | [] => None end.
Definition peek (off : nat) (K : kit) : option (option Node) := kstack K !! off.
Definition dec_sp (i : nat) (K : kit) : option kit :=
  if decide (i <= length (kstack K))%nat then Some (with_slots (drop i (kstack K)) K) else None.

Definition local (i : nat) (K : kit) : option (option Node) := klocals K !! i.
(** A value stored over the second half of a long kills the long ([SafePointNode::set_local]). *)
Definition kill_half (i : nat) (n : option Node) (l : list (option Node)) : list (option Node) :=
  match i, n, l !! i with
  | S j, Some _, Some None =>
      match l !! j with
      | Some (Some m) => if decide (kind_of m = KLong) then <[j := None]> l else l
      | _ => l
      end
  | _, _, _ => l
  end.
Definition set_local (i : nat) (n : option Node) (K : kit) : option kit :=
  if decide (i < length (klocals K))%nat
  then Some (mkKit (kstack K) (<[i := n]> (kill_half i n (klocals K))) (checks K)) else None.

Definition push_pair (n : option Node) (K : kit) : option kit :=
  K ← push n K;
  push None K.
Definition push_pair_local (i : nat) (K : kit) : option kit :=
  n ← local i K;
  K ← push n K;
  half ← local (i + 1) K;
  if decide (half = None) then push None K else None.
Definition pop_pair (K : kit) : option (option Node * kit) :=
  '(half, K) ← pop K;
  if decide (half = None) then pop K else None.
Definition set_pair_local (i : nat) (n : option Node) (K : kit) : option kit :=
  K ← set_local i n K;
  set_local (i + 1) None K.

(** An operand, as an int or as a pair. *)
Definition pop_value (k : kind) (K : kit) : option (Node * kit) :=
  '(n, K) ← (match k with KInt => pop K | KLong => pop_pair K end);
  n ← n;
  Some (n, K).
Definition push_value (k : kind) (n : Node) (K : kit) : option kit :=
  match k with KInt => push (Some n) K | KLong => push_pair (Some n) K end.

End GraphKit.

(** ** Parse *)

(** Where an instruction leaves the path: it goes on; or it ends, since the instruction
    always throws or is not reached; or it joins another one in a phi. *)
Inductive parsed : Set :=
  | Falls (K : kit)
  | Throws (K : kit)
  | Unreached (K : kit)
  | Joins (K : kit).
Definition kit_of (r : parsed) : kit := match r with Falls K | Throws K | Unreached K | Joins K => K end.

Definition is_Bool (n : Node) : bool := match n with Bool_ _ _ => true | _ => false end.
Definition positive_power_of_2 (divisor : Z) : bool :=
  (0 <? divisor) && (Z.land divisor (Z.lnot (divisor - 1)) =? divisor).

Section Parser.
Context (base : PhaseGVN) (leaf_type : Node -> Type_) (undefined : Z) (fuel : nat) (max_stack : nat).

Definition gvn_transform : Node -> option Node := transform_no_reclaim base leaf_type undefined fuel false.
Definition gvn_transform_control : Node -> option Node := transform_no_reclaim base leaf_type undefined fuel true.

(** [zero_check_int] and [zero_check_long]: [null_check_common] with [BuildCutout], and
    what [IfNode::Value] leaves of the branch. *)
Definition zero_check (k : kind) (value : Node) (K : kit) : option parsed :=
  if decide (kind_of value = k) then
    chk ← gvn_transform (Bin Cmp k value (con k 0));
    tst ← gvn_transform (Bool_ bt_ne chk);
    if is_Con tst || is_Bool tst then
      let t := gvn_type base leaf_type tst in
      if decide (t = TOP) then Some (Unreached K)
      else if decide (t = ZERO KInt) then Some (Throws K)
      else if decide (t = ONE KInt) then Some (Falls K)
      else if decide (t = BOOL) then Some (Falls (mkKit (kstack K) (klocals K) (checks K ++ [tst])))
      else None
    else None
  else None.

(** The check of a divisor, which stays on the stack. *)
Definition check_divisor (k : kind) (K : kit) : option parsed :=
  match k with
  | KInt => value ← peek 0 K; value ← value; zero_check KInt value K
  | KLong =>
      half ← peek 0 K;
      if decide (half = None) then value ← peek 1 K; value ← value; zero_check KLong value K else None
  end.

Definition do_binary (k k2 : kind) (op : arith) (tr : Node -> option Node) (K : kit) : option kit :=
  '(b, K) ← pop_value k2 K;
  '(a, K) ← pop_value k K;
  c ← tr (Bin op k a b);
  push_value max_stack k c K.

Definition do_division (k : kind) (op : arith) (K : kit) : option parsed :=
  r ← check_divisor k K;
  match r with
  | Falls K => K ← do_binary k k op gvn_transform_control K; Some (Falls K)
  | _ => Some r
  end.

(** The remainder of a positive power of 2 is a diamond of control flow. *)
Definition do_irem (K : kit) : option parsed :=
  r ← check_divisor KInt K;
  match r with
  | Falls K =>
      '(b, _) ← pop_value KInt K;
      let t := gvn_type base leaf_type b in
      diamond ← (if decide (t = TOP) then Some false
                 else ti ← isa KInt t; Some (is_con ti && positive_power_of_2 (get_con ti)));
      if diamond : bool then Some (Joins K)
      else K ← do_binary KInt KInt Mod gvn_transform_control K; Some (Falls K)
  | _ => Some r
  end.

Definition falls (K : option kit) : option parsed := K ← K; Some (Falls K).

(** An operand replaced by a node made of it. *)
Definition do_unary (k1 k2 : kind) (make : Node -> option Node) (K : kit) : option kit :=
  '(a, K) ← pop_value k1 K;
  b ← make a;
  push_value max_stack k2 b K.

Definition do_iinc (i : nat) (c : Z) (K : kit) : option kit :=
  n ← local i K;
  n ← n;
  m ← gvn_transform (Bin Add KInt (intcon c) n);
  set_local i (Some m) K.

Definition sign_extend (width : Z) (a : Node) : option Node :=
  a ← gvn_transform (Bin LShift KInt a (intcon width));
  gvn_transform (Bin RShift KInt a (intcon width)).

(** The instructions that pop words and push them again in another order. *)
Definition do_stack (b : bytecode) (K : kit) : option kit :=
  let push := push max_stack in
  match b with
  | Pop => dec_sp 1 K
  | Pop2 => dec_sp 2 K
  | Swap => '(a, K) ← pop K; '(b, K) ← pop K; push a K ≫= push b
  | Dup => '(a, K) ← pop K; push a K ≫= push a
  | Dup_x1 => '(a, K) ← pop K; '(b, K) ← pop K; K ← push a K; push b K ≫= push a
  | Dup_x2 => '(a, K) ← pop K; '(b, K) ← pop K; '(c, K) ← pop K; K ← push a K; K ← push c K; push b K ≫= push a
  | Dup2 => '(a, K) ← pop K; '(b, K) ← pop K; K ← push b K; K ← push a K; push b K ≫= push a
  | Dup2_x1 =>
      '(a, K) ← pop K; '(b, K) ← pop K; '(c, K) ← pop K;
      K ← push b K; K ← push a K; K ← push c K; push b K ≫= push a
  | Dup2_x2 =>
      '(a, K) ← pop K; '(b, K) ← pop K; '(c, K) ← pop K; '(d, K) ← pop K;
      K ← push b K; K ← push a K; K ← push d K; K ← push c K; push b K ≫= push a
  | _ => None
  end.

Definition do_one_bytecode (b : bytecode) (K : kit) : option parsed :=
  match b with
  | Nop => Some (Falls K)
  | Iconst n => falls (push max_stack (Some (intcon n)) K)
  | Lconst n => falls (push_pair max_stack (Some (longcon n)) K)
  | Bipush b => falls (push max_stack (Some (intcon (jbyte b))) K)
  | Sipush b1 b2 => falls (push max_stack (Some (intcon (jshort (get_Java_u2 b1 b2)))) K)
  | Iload i => n ← local i K; falls (push max_stack n K)
  | Lload i => falls (push_pair_local max_stack i K)
  | Istore i => '(n, K) ← pop K; falls (set_local i n K)
  | Lstore i => '(n, K) ← pop_pair K; falls (set_pair_local i n K)
  | Pop | Pop2 | Dup | Dup_x1 | Dup_x2 | Dup2 | Dup2_x1 | Dup2_x2 | Swap => falls (do_stack b K)
  | Binary KInt VRem => do_irem K
  | Binary k op =>
      if is_division op then do_division k (arith_of op) K else falls (do_binary k k (arith_of op) gvn_transform K)
  | Shift k op => falls (do_binary k KInt (shift_of op) gvn_transform K)
  | Neg k => falls (do_unary k k (fun a => gvn_transform (Bin Sub k (con k 0) a)) K)
  | Iinc i b => falls (do_iinc i (jbyte b) K)
  | Wide_iinc i b1 b2 => falls (do_iinc i (jshort (get_Java_u2 b1 b2)) K)
  | I2l => falls (do_unary KInt KLong (fun a => gvn_transform (ConvI2L a LONG_INT)) K)
  | L2i => falls (do_unary KLong KInt (fun a => gvn_transform (ConvL2I a)) K)
  | I2b => falls (do_unary KInt KInt (sign_extend 24) K)
  | I2c => falls (do_unary KInt KInt (fun a => gvn_transform (Bin And KInt a (intcon 0xFFFF))) K)
  | I2s => falls (do_unary KInt KInt (sign_extend 16) K)
  end.

(** The instructions of a block, as long as its path goes on. *)
Fixpoint do_one_block (code : list bytecode) (K : kit) : option parsed :=
  match code with
  | [] => Some (Falls K)
  | b :: code =>
      r ← do_one_bytecode b K;
      match r with Falls K => do_one_block code K | _ => Some r end
  end.

End Parser.

End Parse.
