(* ===== verification/ParseTheorems.v ===== *)
(** The graph that the C2 parser builds computes what Java's machine does on straight-line
    integer code, and the code that the interpreter runs and the graph agree. *)
From S2P Require Import Prelude GlobalDefinitions IdealType IdealTypeTheorems IdealNode IdealRings IdealValueTheorems IdealComputes IdealTransform IdealConvert IdealGVN IdealGVNTheorems JavaMachine BytecodeInterpreter InterpreterTheorems Parse.
Import GlobalDefinitions IdealType IdealTypeTheorems IdealNode IdealRings IdealValueTheorems IdealComputes IdealTransform IdealConvert.
Import IdealGVN IdealGVNTheorems JavaMachine BytecodeInterpreter InterpreterTheorems Parse.

Module ParseTheorems.

(** ** Tests *)

(** A test stays a test, or becomes a constant. *)
Definition test_node (n : Node) : bool := is_Con n || is_Bool n.

Lemma makecon_con t m : makecon t = Some m -> is_Con m = true.
Proof. unfold makecon. intros H. repeat case_match; try done. by injection H as <-. Qed.

Lemma bool_ideal_test ph test a i : BoolNode_Ideal ph test a = ret i -> exists test' a', i = Bool_ test' a'.
Proof.
  unfold BoolNode_Ideal, ret, none. intros H. repeat (case_match; try done).
  all: try (injection H as <-; by eauto).
Qed.

Lemma transform_test base lt undefined fuel : forall hc test a m,
  transform_no_reclaim base lt undefined fuel hc (Bool_ test a) = Some m -> test_node m = true.
Proof.
  assert (forall t test a m, (if singleton t && true then makecon t else Some (Bool_ test a)) = Some m -> test_node m = true) as Hend.
  { intros t test a m H. case_match; [| by injection H as <-]. apply makecon_con in H. unfold test_node. by rewrite H. }
  induction fuel as [|fuel IH]; intros hc test a m Hm; cbn [transform_no_reclaim] in Hm.
  - unfold fold_constant in Hm. apply bind_Some in Hm as (t & _ & Hm). exact (Hend t test a m Hm).
  - cbv zeta in Hm. apply bind_Some in Hm as (i & Hi & Hm). destruct i as [i|].
    + apply bool_ideal_test in Hi as (test' & a' & ->). by eapply IH.
    + unfold transform_end in Hm. apply bind_Some in Hm as (t & _ & Hm). exact (Hend t test a m Hm).
Qed.

Lemma test_type test cc :
  cc2logical test cc = TOP \/ cc2logical test cc = ZERO KInt \/ cc2logical test cc = ONE KInt \/ cc2logical test cc = BOOL.
Proof. unfold cc2logical. repeat case_match; try tauto; simpl; tauto. Qed.

Section Parser.
Context (base : PhaseGVN) (lt : Node -> Type_) (undefined : Z) (fuel : nat) (max_stack : nat) (e : env).
Context `{!GraphSound base lt e} `{!LeavesTyped lt}.

Abbreviation ph := (gvn base lt undefined fuel).
Abbreviation T := (gvn_transform base lt undefined fuel).

(** ** What the slots hold *)

Fixpoint slots_rep (ps : list (option Node)) (s : list jval) : Prop :=
  match s, ps with
  | [], [] => True
  | JInt z :: s, Some n :: ps => computes ph e n KInt z /\ slots_rep ps s
  | JLong z :: s, None :: Some n :: ps => computes ph e n KLong z /\ slots_rep ps s
  | _, _ => False
  end.

(** A long is held by the first of its locals, as long as the second is its second half. *)
Definition locals_hold (ps : list (option Node)) (l : list lval) : Prop :=
  length ps = length l /\
  (forall i z, l !! i = Some (LInt z) -> exists m, ps !! i = Some (Some m) /\ computes ph e m KInt z) /\
  (forall i z, l !! i = Some (LLong z) -> l !! (i + 1)%nat = Some LSecond ->
     exists m, ps !! i = Some (Some m) /\ computes ph e m KLong z) /\
  (forall i, l !! i = Some LSecond -> ps !! i = Some None).

Definition kit_rep (K : kit) (F : jframe) : Prop :=
  slots_rep (kstack K) (jstack F) /\ locals_hold (klocals K) (jlocals F).

(** A check passes in the execution. *)
Definition passes (t : Node) : Prop := eval e t <> 0.

Lemma slots_words ps s : slots_rep ps s -> length ps = stack_words s.
Proof using.
  revert ps. induction s as [|[z|z] s IH]; intros [|[n|] ps]; simpl; try done; [by intros [_ ->%IH] |].
  destruct ps as [|[m|] ps]; simpl; try done. by intros [_ ->%IH].
Qed.

(** ** Nodes *)

Lemma transform_computes hc n k v :
  builds ph e n k v -> exists m, transform_no_reclaim base lt undefined fuel hc n = Some m /\ computes ph e m k v.
Proof using All.
  intros ([Hf Hm] & <- & <-). destruct (transform_replaced base lt undefined e fuel hc n Hf Hm) as (m & -> & Hg & Hk & Hv).
  by exists m.
Qed.

(** The type of a test tells its value, or that both are possible. *)
Lemma test_typed tst b :
  computes ph e tst KInt (Z.b2z b) -> test_node tst = true ->
  gvn_type base lt tst = (if b then ONE KInt else ZERO KInt) \/ gvn_type base lt tst = BOOL.
Proof using All.
  intros (Hg & Hk & Hv) Ht. destruct Hg as (_ & Hw & Hd).
  pose proof (gvn_type_sound base lt e tst Hw Hd) as [_ Hs]. rewrite Hk, Hv in Hs.
  destruct tst as [k z| | | | | | |test a| |]; try done.
  - left. simpl in Hk, Hv. subst k. change (con_type KInt (conv KInt z) = if b then ONE KInt else ZERO KInt). rewrite Hv. by destruct b.
  - rewrite (gvn_type_eq base lt (fun m => m)) in Hs |- *. cbn [node_Value default id] in Hs |- *. unfold BoolNode_Value in *.
    edestruct (test_type test) as [E|[E|[E|E]]]; rewrite E in Hs |- *; [done | | | by right]; left;
      destruct Hs as [_ Hs]; simpl in Hs; destruct b; simpl in Hs; try done; lia.
Qed.

Lemma zero_check_spec k value z K :
  computes ph e value k z ->
  exists r, zero_check base lt undefined fuel k value K = Some r /\
    ((r = Falls K /\ z <> 0) \/ (r = Throws K /\ z = 0) \/
     exists tst, r = Falls (mkKit (kstack K) (klocals K) (checks K ++ [tst])) /\ (passes tst <-> z <> 0)).
Proof using All.
  intros Hv. unfold zero_check. rewrite decide_True by apply Hv. unfold gvn_transform.
  assert (computes ph e (con k 0) k 0) as H0 by (apply computes_const; [apply _ | by destruct k]).
  destruct (transform_computes false _ _ _ (builds_cmp ph e k value (con k 0) z 0 Hv H0)) as (chk & -> & Hchk). cbn [mbind option_bind].
  destruct (transform_computes false _ _ _ (builds_bool ph e bt_ne chk _ Hchk (flags_range z 0))) as (tst & Htst & Hc).
  rewrite Htst. cbn [mbind option_bind]. pose proof (transform_test _ _ _ _ _ _ _ _ Htst) as Ht.
  change (is_Con tst || is_Bool tst) with (test_node tst). rewrite Ht. cbv zeta.
  assert (eval_test bt_ne (flags z 0) = negb (z =? 0)) as Hb.
  { unfold flags. simpl. destruct (Z.ltb_spec z 0), (Z.eqb_spec z 0); try lia; done. }
  rewrite Hb in Hc. destruct (test_typed tst _ Hc Ht) as [->| ->].
  - destruct (Z.eqb_spec z 0) as [->|Hne]; cbn [negb]; eexists; (split; [reflexivity |]); auto.
  - eexists. split; [reflexivity |]. right. right. exists tst. split; [done |]. destruct Hc as (_ & _ & Hc). unfold passes. rewrite Hc.
    destruct (Z.eqb_spec z 0); done.
Qed.

(** ** The state *)

(** The new state holds the values of the frame and has the same checks. *)
Definition reaches (K : kit) (F : jframe) (r : option kit) : Prop :=
  exists K', r = Some K' /\ kit_rep K' F /\ checks K' = checks K.

Lemma push_value_rep k n z K s L :
  kit_rep K (mkJFrame s L) -> computes ph e n k z -> (stack_words (jvalue k z :: s) <= max_stack)%nat ->
  reaches K (mkJFrame (jvalue k z :: s) L) (push_value max_stack k n K).
Proof using.
  intros [Hs HL] Hn Hsize. cbn [jstack jlocals] in *. pose proof (slots_words _ _ Hs) as Hlen.
  destruct k; cbn [jvalue stack_words foldr words] in *; unfold push_value, push_pair, push;
    fold (stack_words s) in Hsize; rewrite decide_True by lia; cbn [mbind option_bind with_slots kstack length];
    rewrite ?decide_True by lia; (eexists; split; [done |]; split; [split; [done | done] | done]).
Qed.

Lemma pop_value_rep k z K s L :
  kit_rep K (mkJFrame (jvalue k z :: s) L) ->
  exists n K', pop_value k K = Some (n, K') /\ computes ph e n k z /\ kit_rep K' (mkJFrame s L) /\ checks K' = checks K.
Proof using.
  destruct K as [ks kl c]. intros [Hs HL]. cbn [jstack jlocals kstack klocals] in *.
  destruct k; cbn [jvalue] in Hs; destruct ks as [|[n|] ks]; try done.
  - destruct Hs as [Hn Hs]. exists n. eexists. split; [done |]. done.
  - destruct ks as [|[n|] ks]; try done. destruct Hs as [Hn Hs]. exists n. eexists. split; [done |]. done.
Qed.

Lemma do_stack_rep b K F s :
  kit_rep K F -> stack_op b (jstack F) = Some s -> (stack_words s <= max_stack)%nat ->
  reaches K (mkJFrame s (jlocals F)) (do_stack max_stack b K).
Proof using.
  destruct K as [ks kl c], F as [js L]. intros [Hs HL] Hop Hsize. cbn [jstack jlocals kstack klocals] in *.
  pose proof (slots_words _ _ Hs) as Hlen. destruct b; try done; cbn [stack_op do_stack] in *;
    repeat match type of Hop with match ?x with _ => _ end = _ => destruct x; try done end;
    injection Hop as <-;
    repeat match goal with Hs : slots_rep ?l (_ :: _) |- _ =>
      destruct l as [|[?|] ?]; cbn [slots_rep] in Hs; try done;
      try match type of Hs with match ?l with _ => _ end => destruct l as [|[?|] ?]; try done end; destruct Hs as [? Hs] end;
    cbn [stack_words foldr words length] in *; try fold (stack_words s) in *; try fold (stack_words l) in *;
    unfold dec_sp, push, pop, with_slots; cbn [mbind option_bind kstack klocals checks length drop];
    repeat (rewrite decide_True by (simpl; lia); cbn [mbind option_bind kstack klocals checks length drop]);
    (eexists; split; [done |]; split; [split; done | done]).
Qed.

Lemma reaches_checks K K1 F r : checks K1 = checks K -> reaches K1 F r -> reaches K F r.
Proof using. intros Hc (K' & -> & HK & Hc'). exists K'. split_and!; [done | done | congruence]. Qed.

(** ** Arithmetic *)

Lemma do_binary_rep k k2 op hc K b a s L v :
  kit_rep K (mkJFrame (jvalue k2 b :: jvalue k a :: s) L) ->
  (forall m n, computes ph e m k a -> computes ph e n k2 b -> builds ph e (Bin op k m n) k v) ->
  (stack_words (jvalue k v :: s) <= max_stack)%nat ->
  reaches K (mkJFrame (jvalue k v :: s) L) (do_binary max_stack k k2 op (transform_no_reclaim base lt undefined fuel hc) K).
Proof using All.
  intros HK Hb Hsize. unfold do_binary.
  destruct (pop_value_rep _ _ _ _ _ HK) as (n & K1 & -> & Hn & HK1 & Hc1). cbn [mbind option_bind].
  destruct (pop_value_rep _ _ _ _ _ HK1) as (m & K2 & -> & Hm & HK2 & Hc2). cbn [mbind option_bind].
  destruct (transform_computes hc _ _ _ (Hb m n Hm Hn)) as (c & -> & Hc). cbn [mbind option_bind].
  apply reaches_checks with K2; [congruence |]. by apply push_value_rep.
Qed.

Lemma builds_vm op k m n a b :
  computes ph e m k a -> computes ph e n k b -> (is_division op = true -> b <> 0) ->
  builds ph e (Bin (arith_of op) k m n) k (eval_bin (arith_of op) k a b).
Proof using All.
  intros Hm Hn Hne. destruct (is_division op) eqn:Hd.
  - destruct Hm as (? & ? & <-), Hn as (? & ? & <-). specialize (Hne eq_refl).
    destruct op; try done; (split_and!; [by apply fresh_bin | done | done | done]).
  - apply builds_bin; [by destruct op | done | done].
Qed.

Lemma do_unary_rep k1 k2 make K a s L v :
  kit_rep K (mkJFrame (jvalue k1 a :: s) L) ->
  (forall m, computes ph e m k1 a -> exists n, make m = Some n /\ computes ph e n k2 v) ->
  (stack_words (jvalue k2 v :: s) <= max_stack)%nat ->
  reaches K (mkJFrame (jvalue k2 v :: s) L) (do_unary max_stack k1 k2 make K).
Proof using All.
  intros HK Hb Hsize. unfold do_unary.
  destruct (pop_value_rep _ _ _ _ _ HK) as (n & K1 & -> & Hn & HK1 & Hc1). cbn [mbind option_bind].
  destruct (Hb n Hn) as (c & -> & Hc). cbn [mbind option_bind].
  apply reaches_checks with K1; [congruence |]. by apply push_value_rep.
Qed.

(** Sign extension by two shifts. *)
Lemma shifts_extend w a : 0 < w < 32 -> conv KInt (a * 2 ^ w) / 2 ^ w = swrap (32 - w) a.
Proof using.
  intros Hw. unfold conv, swrap. simpl bits.
  replace (2 ^ (32 - 1)) with (2 ^ (32 - w - 1) * 2 ^ w) by (rewrite <- Z.pow_add_r by lia; f_equal; lia).
  replace (2 ^ 32) with (2 ^ (32 - w) * 2 ^ w) by (rewrite <- Z.pow_add_r by lia; f_equal; lia).
  pose proof (Z.pow_pos_nonneg 2 w ltac:(lia) ltac:(lia)). pose proof (Z.pow_pos_nonneg 2 (32 - w) ltac:(lia) ltac:(lia)).
  rewrite <- Z.mul_add_distr_r, Z.mul_mod_distr_r, <- Z.mul_sub_distr_r by lia. apply Z.div_mul. lia.
Qed.

Lemma sign_extend_rep w m a :
  0 < w < 32 -> computes ph e m KInt a ->
  exists n, sign_extend base lt undefined fuel w m = Some n /\ computes ph e n KInt (swrap (32 - w) a).
Proof using All.
  intros Hw Hm. unfold sign_extend, gvn_transform.
  destruct (transform_computes false _ _ _ (builds_lshift ph e KInt m a w ltac:(simpl; lia) Hm)) as (n & -> & Hn). cbn [mbind option_bind].
  destruct (transform_computes false _ _ _ (builds_rshift ph e KInt n _ w ltac:(simpl; lia) Hn)) as (n' & -> & Hn').
  exists n'. split; [done |]. eapply computes_eq; [exact Hn' |]. by apply shifts_extend.
Qed.

(** ** Locals *)

Lemma kill_half_length i n l : length (kill_half i n l) = length l.
Proof using. unfold kill_half. repeat case_match; by rewrite ?length_insert. Qed.

(** Only a long is killed. *)
Lemma kill_half_lookup i n l j :
  kill_half i n l !! j = l !! j \/
  (kill_half i n l !! j = Some None /\ (j + 1 = i)%nat /\ exists m, l !! j = Some (Some m) /\ kind_of m = KLong).
Proof using.
  unfold kill_half. repeat (case_match; try (by left)). subst. destruct (decide (j = n0)) as [->|Hne].
  - right. rewrite list_lookup_insert_eq by (by eapply lookup_lt_Some). split_and!; [done | lia | by eexists].
  - left. by rewrite list_lookup_insert_ne.
Qed.

Lemma set_local_value i n v m K s L :
  kit_rep K (mkJFrame s L) -> n = Some m ->
  (exists z, v = LInt z /\ computes ph e m KInt z) \/ (exists z, v = LLong z /\ computes ph e m KLong z) -> (i < length L)%nat ->
  exists K', set_local i n K = Some K' /\ kit_rep K' (mkJFrame s (<[i := v]> L)) /\ checks K' = checks K /\
    klocals K' !! i = Some (Some m).
Proof using.
  intros [Hs (Hlen & Hint & Hlong & Hsec)] -> Hv Hi. cbn [jlocals] in *. unfold set_local. rewrite decide_True by lia.
  eexists. split; [done |]. cbn [checks klocals]. rewrite list_lookup_insert_eq by (rewrite kill_half_length; lia).
  split_and!; [| done | done]. split; [done |]. cbn [klocals jlocals]. split_and!.
  - by rewrite !length_insert, kill_half_length.
  - intros j y Hj. destruct (decide (j = i)) as [->|Hne].
    + rewrite list_lookup_insert_eq in Hj by lia. rewrite list_lookup_insert_eq by (rewrite kill_half_length; lia).
      destruct Hv as [(z & -> & Hz)|(z & -> & _)]; [| done]. injection Hj as <-. by exists m.
    + rewrite list_lookup_insert_ne in Hj by done. rewrite list_lookup_insert_ne by done.
      destruct (Hint j y Hj) as (m' & Hm' & Hc). destruct (kill_half_lookup i (Some m) (klocals K) j) as [->|(_ & _ & m2 & Hm2 & Hk)].
      * by exists m'.
      * rewrite Hm' in Hm2. injection Hm2 as <-. destruct Hc as (_ & Hc & _). congruence.
  - intros j y Hj Hj1. assert ((j + 1)%nat <> i) as Hne1.
    { intros <-. rewrite list_lookup_insert_eq in Hj1 by lia. by destruct Hv as [(z & -> & _)|(z & -> & _)]. }
    rewrite list_lookup_insert_ne in Hj1 by done. destruct (decide (j = i)) as [->|Hne].
    + rewrite list_lookup_insert_eq in Hj by lia. rewrite list_lookup_insert_eq by (rewrite kill_half_length; lia).
      destruct Hv as [(z & -> & _)|(z & -> & Hz)]; [done |]. injection Hj as <-. by exists m.
    + rewrite list_lookup_insert_ne in Hj by done. rewrite list_lookup_insert_ne by done.
      destruct (kill_half_lookup i (Some m) (klocals K) j) as [->|(_ & ? & _)]; [by apply Hlong | lia].
  - intros j Hj. destruct (decide (j = i)) as [->|Hne].
    + rewrite list_lookup_insert_eq in Hj by lia. by destruct Hv as [(z & -> & _)|(z & -> & _)].
    + rewrite list_lookup_insert_ne in Hj by done. rewrite list_lookup_insert_ne by done.
      destruct (kill_half_lookup i (Some m) (klocals K) j) as [->|(-> & _)]; [by apply Hsec | done].
Qed.

(** The second half of a long. *)
Lemma set_local_half i m z K s L :
  kit_rep K (mkJFrame s L) -> L !! i = Some (LLong z) -> klocals K !! i = Some (Some m) -> computes ph e m KLong z ->
  (i + 1 < length L)%nat -> reaches K (mkJFrame s (<[(i + 1)%nat := LSecond]> L)) (set_local (i + 1) None K).
Proof using.
  intros [Hs (Hlen & Hint & Hlong & Hsec)] HL Hm Hz Hi. cbn [jlocals] in *. unfold set_local. rewrite decide_True by lia.
  assert (kill_half (i + 1) None (klocals K) = klocals K) as -> by (by rewrite Nat.add_1_r).
  eexists. split; [done |]. split; [| done]. split; [done |]. cbn [klocals jlocals]. split_and!.
  - by rewrite !length_insert.
  - intros j y Hj. destruct (decide (j = i + 1)%nat) as [->|Hne]; [by rewrite list_lookup_insert_eq in Hj by lia |].
    rewrite list_lookup_insert_ne in Hj by done. rewrite list_lookup_insert_ne by done. by apply Hint.
  - intros j y Hj Hj1. destruct (decide (j = i + 1)%nat) as [->|Hne]; [by rewrite list_lookup_insert_eq in Hj by lia |].
    rewrite list_lookup_insert_ne in Hj by done. rewrite list_lookup_insert_ne by done. destruct (decide (j = i)) as [->|Hne'].
    + rewrite HL in Hj. injection Hj as <-. by exists m.
    + rewrite list_lookup_insert_ne in Hj1 by lia. by apply Hlong.
  - intros j Hj. destruct (decide (j = i + 1)%nat) as [->|Hne]; [rewrite list_lookup_insert_eq by lia; done |].
    rewrite list_lookup_insert_ne in Hj by done. rewrite list_lookup_insert_ne by done. by apply Hsec.
Qed.

Lemma increment_reaches i c K F R :
  min_j KInt <= c <= max_j KInt -> kit_rep K F -> jincrement i c F = Some R ->
  exists F', R = JNext F' /\ reaches K F' (do_iinc base lt undefined fuel i c K).
Proof using All.
  intros Hcr HK Hj. unfold jincrement in Hj. destruct (jlocals F !! i) as [[z| | |]|] eqn:Hi; try done. injection Hj as <-.
  eexists. split; [done |]. pose proof HK as [_ (_ & Hint & _)]. destruct (Hint i z Hi) as (m & Hl & Hm).
  unfold do_iinc, gvn_transform, local. rewrite Hl. cbn [mbind option_bind].
  assert (computes ph e (intcon c) KInt c) as Hc by (by apply computes_const; [apply _ |]).
  destruct (transform_computes false _ _ _ (builds_bin ph e Add KInt (intcon c) m c z eq_refl Hc Hm)) as (n & -> & Hn).
  cbn [mbind option_bind]. destruct F as [s L]. cbn [jstack jlocals] in *.
  rewrite Z.add_comm. apply lookup_lt_Some in Hi.
  destruct (set_local_value i (Some n) (LInt (jint (c + z))) n K s L HK eq_refl) as (K' & HK' & Hrep & Hc' & _); [| done |].
  - left. by eexists.
  - by exists K'.
Qed.

(** ** Steps *)

(** The checks added since pass. *)
Definition extends (K K' : kit) : Prop := exists l, checks K' = checks K ++ l /\ Forall passes l.

Lemma extends_refl K K' : checks K' = checks K -> extends K K'.
Proof using. intros E. exists []. by rewrite E, app_nil_r. Qed.
Lemma extends_trans K1 K2 K3 : extends K1 K2 -> extends K2 K3 -> extends K1 K3.
Proof using.
  intros (l & E & Hl) (l' & E' & Hl'). exists (l ++ l'). by rewrite E', E, <- app_assoc, Forall_app.
Qed.

(** The instruction is executed: the path goes on, or joins another in a remainder. *)
Definition executed (K : kit) (F : jframe) (irem : Prop) (r : option parsed) : Prop :=
  exists K', extends K K' /\ ((r = Some (Falls K') /\ kit_rep K' F) \/ (r = Some (Joins K') /\ irem)).

Lemma falls_executed K F irem r : reaches K F r -> executed K F irem (falls r).
Proof using. intros (K' & -> & HK & Hc). exists K'. split; [by apply extends_refl | by left]. Qed.

Lemma check_divisor_peek k K b s L :
  kit_rep K (mkJFrame (jvalue k b :: s) L) ->
  exists n, check_divisor base lt undefined fuel k K = zero_check base lt undefined fuel k n K /\ computes ph e n k b.
Proof using.
  destruct K as [ks kl c]. intros [Hs _]. cbn [jstack kstack] in *. unfold check_divisor, peek. cbn [kstack].
  destruct k; cbn [jvalue] in Hs; destruct ks as [|[n|] ks]; try done; [by exists n; destruct Hs |].
  destruct ks as [|[n|] ks]; try done. by exists n; destruct Hs.
Qed.

(** The check of a divisor that is not zero passes and leaves the stack. *)
Lemma check_divisor_passes k K b s L :
  kit_rep K (mkJFrame (jvalue k b :: s) L) -> b <> 0 ->
  exists K', check_divisor base lt undefined fuel k K = Some (Falls K') /\ extends K K' /\ kit_rep K' (mkJFrame (jvalue k b :: s) L).
Proof using All.
  intros HK Hb. destruct (check_divisor_peek _ _ _ _ _ HK) as (n & -> & Hn).
  destruct (zero_check_spec k n b K Hn) as (r & -> & [[-> _]|[[_ Hz]|(tst & -> & Ht)]]).
  - exists K. split_and!; [done | by apply extends_refl | done].
  - done.
  - eexists. split_and!; [done | | done]. exists [tst]. split; [done |]. by apply Forall_singleton, Ht.
Qed.

Lemma division_executed k op K b a s L irem :
  is_division op = true -> kit_rep K (mkJFrame (jvalue k b :: jvalue k a :: s) L) -> b <> 0 ->
  (stack_words (jvalue k (eval_bin (arith_of op) k a b) :: s) <= max_stack)%nat ->
  executed K (mkJFrame (jvalue k (eval_bin (arith_of op) k a b) :: s) L) irem
    (do_division base lt undefined fuel max_stack k (arith_of op) K).
Proof using All.
  intros Hd HK Hb Hsize. unfold do_division.
  destruct (check_divisor_passes _ _ _ _ _ HK Hb) as (K1 & -> & Hext & HK1). cbn [mbind option_bind].
  destruct (do_binary_rep k k (arith_of op) true K1 b a s L (eval_bin (arith_of op) k a b) HK1) as (K2 & Hb2 & HK2 & Hc); [| done |].
  - intros m n Hm Hn. by apply builds_vm.
  - unfold gvn_transform_control. rewrite Hb2. cbn [mbind option_bind]. exists K2.
    split; [eapply extends_trans; [done | by apply extends_refl] | by left].
Qed.

Lemma irem_executed K b a s L :
  kit_rep K (mkJFrame (JInt b :: JInt a :: s) L) -> b <> 0 ->
  (stack_words (JInt (eval_bin Mod KInt a b) :: s) <= max_stack)%nat ->
  executed K (mkJFrame (JInt (eval_bin Mod KInt a b) :: s) L) True (do_irem base lt undefined fuel max_stack K).
Proof using All.
  intros HK Hb Hsize. unfold do_irem.
  destruct (check_divisor_passes KInt _ _ _ _ HK Hb) as (K1 & -> & Hext & HK1). cbn [mbind option_bind].
  destruct (pop_value_rep KInt _ _ _ _ HK1) as (n & K2 & -> & Hn & _ & _). cbn [mbind option_bind]. cbv zeta.
  destruct Hn as ((_ & Hw & Hd) & Hk & _). pose proof (gvn_type_typed base lt n _ Hw) as Ht. rewrite Hk in Ht.
  set (t := gvn_type base lt n) in *. clearbody t.
  assert (exists d, (if decide (t = TOP) then Some false else ti ← isa KInt t; Some (is_con ti && positive_power_of_2 (get_con ti))) = Some d) as [d ->].
  { destruct Ht as [->|[r ->]]; [by eexists |]. rewrite decide_False by done. rewrite isa_num. by eexists. }
  cbn [mbind option_bind]. destruct d; [exists K1; split; [done | by right] |].
  destruct (do_binary_rep KInt KInt Mod true K1 b a s L (eval_bin Mod KInt a b) HK1) as (K3 & Hb3 & HK3 & Hc); [| done |].
  - intros m n' Hm Hn'. by apply (builds_vm VRem).
  - unfold gvn_transform_control. rewrite Hb3. cbn [mbind option_bind]. exists K3.
    split; [eapply extends_trans; [done | by apply extends_refl] | by left].
Qed.

Lemma binary_executed k op K F F' :
  kit_rep K F -> jbinary max_stack k op F = Some (JNext F') ->
  executed K F' (k = KInt /\ op = VRem) (do_one_bytecode base lt undefined fuel max_stack (Binary k op) K).
Proof using All.
  intros HK Hj. destruct F as [[|y [|x s]] L]; try done. unfold jbinary in Hj. cbn [jstack] in Hj.
  apply bind_Some in Hj as (b & ->%as_kind_Some & Hj). apply bind_Some in Hj as (a & ->%as_kind_Some & Hj).
  destruct (is_division op && (b =? 0)) eqn:Hz; [done |].
  apply with_stack_Some in Hj as [Hsize [= ->]]. cbn [jlocals].
  assert (is_division op = true -> b <> 0) as Hne by (intros Hd ->; by rewrite Hd in Hz).
  destruct (is_division op) eqn:Hd.
  - specialize (Hne eq_refl). pose proof (fun irem => division_executed k op K b a s L irem Hd HK Hne Hsize) as Hdiv.
    destruct k, op; try done.
    destruct (irem_executed K b a s L HK Hne Hsize) as (K' & Hext & [H|[H _]]); exists K'; (split; [done |]); [by left | by right].
  - assert (executed K (mkJFrame (jvalue k (eval_bin (arith_of op) k a b) :: s) L) (k = KInt /\ op = VRem)
      (falls (do_binary max_stack k k (arith_of op) T K))) as Hbin.
    { apply falls_executed, (do_binary_rep k k (arith_of op) false K b a s L); [done | | done].
      intros m n Hm Hn. apply builds_vm; [done | done |]. by rewrite Hd. }
    destruct k, op; done.
Qed.

Lemma shift_executed k op K F F' irem :
  kit_rep K F -> jshift max_stack k op F = Some (JNext F') ->
  executed K F' irem (do_one_bytecode base lt undefined fuel max_stack (Shift k op) K).
Proof using All.
  intros HK Hj. destruct F as [[|[b|b] [|x s]] L]; try done. unfold jshift in Hj. cbn [jstack] in Hj.
  apply bind_Some in Hj as (a & ->%as_kind_Some & Hj). apply with_stack_Some in Hj as [Hsize [= ->]]. cbn [jlocals].
  apply falls_executed, (do_binary_rep k KInt (shift_of op) false K b a s L); [done | | done].
  intros m n Hm Hn. apply builds_shift; [by destruct op | done | done].
Qed.

Lemma convert_executed b K F F' irem :
  match b with Neg _ | I2l | L2i | I2b | I2c | I2s => True | _ => False end ->
  kit_rep K F -> jstep max_stack b F = Some (JNext F') ->
  executed K F' irem (do_one_bytecode base lt undefined fuel max_stack b K).
Proof using All.
  intros Hb HK Hj. destruct F as [[|x s] L]; [destruct b; done |].
  assert (forall g, jconvert max_stack g (mkJFrame (x :: s) L) = Some (JNext F') ->
    exists y, g x = Some y /\ (stack_words (y :: s) <= max_stack)%nat /\ F' = mkJFrame (y :: s) L) as Hconv.
  { intros g Hg. unfold jconvert in Hg. cbn [jstack] in Hg. apply bind_Some in Hg as (y & Hy & [Hsize [= ->]]%with_stack_Some). eauto. }
  destruct b; try done; cbn [jstep] in Hj; apply Hconv in Hj as (y & Hy & Hsize & ->); clear Hconv; apply falls_executed.
  - apply bind_Some in Hy as (z & ->%as_kind_Some & [= <-]). eapply do_unary_rep; [exact HK | | exact Hsize].
    intros m Hm. apply transform_computes. eapply builds_eq; [apply builds_bin; [done | apply computes_con, _ | exact Hm] |].
    by destruct k.
  - destruct x as [z|]; [injection Hy as <- | done]. apply (do_unary_rep KInt KLong _ K z s L z); [done | | done].
    intros m Hm. by apply transform_computes, builds_I2L.
  - destruct x as [|z]; [done | injection Hy as <-]. apply (do_unary_rep KLong KInt _ K z s L (jint z)); [done | | done].
    intros m Hm. by apply transform_computes, builds_L2I.
  - destruct x as [z|]; [injection Hy as <- | done]. apply (do_unary_rep KInt KInt _ K z s L (jbyte z)); [done | | done].
    intros m Hm. by apply (sign_extend_rep 24).
  - destruct x as [z|]; [injection Hy as <- | done]. apply (do_unary_rep KInt KInt _ K z s L (jchar z)); [done | | done].
    intros m Hm. apply transform_computes. eapply builds_eq; [apply builds_bin; [done | exact Hm | apply computes_con, _] |].
    cbn [eval_bin]. change (conv KInt 0xFFFF) with (Z.ones 16). rewrite Z.land_ones by lia.
    apply conv_small. pose proof (Z.mod_pos_bound z (2 ^ 16) ltac:(lia)). change (-2147483648 <= z mod 2 ^ 16 <= 2147483647). lia.
  - destruct x as [z|]; [injection Hy as <- | done]. apply (do_unary_rep KInt KInt _ K z s L (jshort z)); [done | | done].
    intros m Hm. by apply (sign_extend_rep 16).
Qed.

Lemma constant_reaches k n K F R :
  min_j k <= n <= max_j k -> kit_rep K F -> with_stack max_stack (jvalue k n :: jstack F) F = Some R ->
  exists F', R = JNext F' /\ reaches K F' (push_value max_stack k (con k n) K).
Proof using All.
  intros Hn HK [Hsize ->]%with_stack_Some. eexists. split; [done |]. destruct F as [s L].
  apply push_value_rep; [done | by apply computes_const; [apply _ |] | done].
Qed.

Lemma reaches_executed K F1 F2 irem r :
  (exists F', JNext F1 = JNext F' /\ reaches K F' r) -> JNext F1 = JNext F2 -> executed K F2 irem (falls r).
Proof using. intros (F' & [= <-] & H) [= <-]. by apply falls_executed. Qed.

Lemma load_int_executed i K F F' irem :
  kit_rep K F -> jstep max_stack (Iload i) F = Some (JNext F') ->
  executed K F' irem (do_one_bytecode base lt undefined fuel max_stack (Iload i) K).
Proof using All.
  intros HK Hj. cbn [jstep] in Hj. destruct (jlocals F !! i) as [[z| | |]|] eqn:Hi; try done.
  apply with_stack_Some in Hj as [Hsize [= ->]]. pose proof HK as [_ (_ & Hint & _)]. destruct (Hint i z Hi) as (m & Hl & Hm).
  cbn [do_one_bytecode]. unfold local. rewrite Hl. cbn [mbind option_bind]. destruct F as [s L].
  apply falls_executed, (push_value_rep KInt m z K s L); done.
Qed.

Lemma load_long_executed i K F F' irem :
  kit_rep K F -> jstep max_stack (Lload i) F = Some (JNext F') ->
  executed K F' irem (do_one_bytecode base lt undefined fuel max_stack (Lload i) K).
Proof using All.
  intros HK Hj. cbn [jstep] in Hj. destruct (jlocals F !! i) as [[|z| |]|] eqn:Hi; try done.
  destruct (jlocals F !! (i + 1)%nat) as [[| | |]|] eqn:Hi1; try done.
  apply with_stack_Some in Hj as [Hsize [= ->]]. pose proof HK as [_ (_ & _ & Hlong & Hsec)].
  destruct (Hlong i z Hi Hi1) as (m & Hl & Hm). pose proof (Hsec _ Hi1) as Hl1. destruct F as [s L]. cbn [jstack jlocals] in *.
  cbn [do_one_bytecode]. apply falls_executed. unfold push_pair_local, local. rewrite Hl. cbn [mbind option_bind].
  destruct (push_value_rep KLong m z K s L HK Hm Hsize) as (K' & HK' & Hrep). exists K'. split; [| done].
  rewrite <- HK'. unfold push_value, push_pair, push. case_decide; [| done]. cbn [mbind option_bind].
  change (klocals (with_slots (Some m :: kstack K) K)) with (klocals K). by rewrite Hl1.
Qed.

Lemma store_executed b K F F' irem :
  match b with Istore _ | Lstore _ => True | _ => False end ->
  kit_rep K F -> jstep max_stack b F = Some (JNext F') ->
  executed K F' irem (do_one_bytecode base lt undefined fuel max_stack b K).
Proof using All.
  intros Hb HK Hj. destruct K as [ks kl c], F as [[|v s] L]; destruct b; try done; destruct v as [z|z]; try done;
    cbn [jstep jstack jlocals] in Hj; (case_decide as Hi; [injection Hj as <- | done]);
    pose proof HK as [Hs HL]; cbn [jstack jlocals kstack klocals] in *; destruct ks as [|[n|] ks]; try done.
  - destruct Hs as [Hn Hs]. cbn [do_one_bytecode pop kstack mbind option_bind]. apply falls_executed.
    assert (kit_rep (mkKit ks kl c) (mkJFrame s L)) as HK1 by done.
    destruct (set_local_value i (Some n) (LInt z) n _ _ _ HK1 eq_refl) as (K1 & Hst & HK2 & Hc & _); [left; by eexists | done |].
    by exists K1.
  - destruct ks as [|[n|] ks]; try done. destruct Hs as [Hn Hs]. cbn [do_one_bytecode]. unfold pop_pair. cbn [pop kstack mbind option_bind with_slots decide].
    apply falls_executed. unfold set_pair_local.
    assert (kit_rep (mkKit ks kl c) (mkJFrame s L)) as HK1 by done.
    destruct (set_local_value i (Some n) (LLong z) n _ _ _ HK1 eq_refl) as (K1 & Hst & HK2 & Hc & Hl); [right; by eexists | lia |].
    change (reaches (mkKit ks kl c) (mkJFrame s (<[(i + 1)%nat:=LSecond]> (<[i:=LLong z]> L)))
      (set_local i (Some n) (mkKit ks kl c) ≫= fun K => set_local (i + 1) None K)).
    rewrite Hst. cbn [mbind option_bind]. apply reaches_checks with K1; [done |].
    apply set_local_half with n z; [done | by rewrite list_lookup_insert_eq by lia | done | done | rewrite length_insert; lia].
Qed.

(** An instruction that does not throw. *)
Lemma step_executed b K F F' :
  kit_rep K F -> jstep max_stack b F = Some (JNext F') ->
  executed K F' (b = Binary KInt VRem) (do_one_bytecode base lt undefined fuel max_stack b K).
Proof using All.
  intros HK Hj. destruct b.
  all: try first [by apply (convert_executed _ K F) | by apply (store_executed _ K F) | by apply (load_int_executed _ K F)
                  | by apply (load_long_executed _ K F) | by apply (shift_executed _ _ K F)].
  all: try (cbn [jstep] in Hj; apply bind_Some in Hj as (s & Hop & [Hsize [= ->]]%with_stack_Some);
            by apply falls_executed, do_stack_rep).
  all: try (cbn [jstep] in Hj; eapply reaches_executed; [eapply increment_reaches; [| exact HK | exact Hj] | done];
            apply narrow_constant; first [apply jbyte_narrow | apply jshort_narrow]).
  - injection Hj as <-. exists K. split; [by apply extends_refl | by left].
  - cbn [jstep] in Hj. destruct ((_ <=? _) && _) eqn:E; [| done]. apply andb_prop in E as [?%Z.leb_le ?%Z.leb_le].
    eapply reaches_executed; [eapply (constant_reaches KInt); [apply narrow_constant; lia | exact HK | exact Hj] | done].
  - cbn [jstep] in Hj. destruct ((_ <=? _) && _) eqn:E; [| done]. apply andb_prop in E as [?%Z.leb_le ?%Z.leb_le].
    eapply reaches_executed; [eapply (constant_reaches KLong); [| exact HK | exact Hj] | done].
    change (-9223372036854775808 <= n <= 9223372036854775807). lia.
  - eapply reaches_executed; [eapply (constant_reaches KInt); [apply narrow_constant, jbyte_narrow | exact HK | exact Hj] | done].
  - eapply reaches_executed; [eapply (constant_reaches KInt); [apply narrow_constant, jshort_narrow | exact HK | exact Hj] | done].
  - destruct (binary_executed k op K F F' HK Hj) as (K' & Hext & [H|[H [-> ->]]]); exists K'; (split; [done |]); [by left | by right].
Qed.

(** ** Exceptions *)

(** What executing the graph of a path does. *)
Inductive outcome : Set :=
  | Continues (K : kit)
  | Exception
  | Elsewhere.
Definition execute (r : parsed) : outcome :=
  if forallb (fun t => negb (eval e t =? 0)) (checks (kit_of r)) then
    match r with Falls K => Continues K | Throws _ => Exception | Unreached _ | Joins _ => Elsewhere end
  else Exception.

Lemma passes_all l : Forall passes l -> forallb (fun t => negb (eval e t =? 0)) l = true.
Proof using. intros H. apply forallb_forall. intros t Ht. rewrite List.Forall_forall in H. by apply negb_true_iff, Z.eqb_neq, H. Qed.

Lemma execute_fails r t pre post : checks (kit_of r) = pre ++ t :: post -> ~ passes t -> execute r = Exception.
Proof using.
  intros E Ht. unfold execute. rewrite E, forallb_app. cbn [forallb]. unfold passes in Ht.
  destruct (Z.eqb_spec (eval e t) 0); [| tauto]. by rewrite andb_false_r.
Qed.

(** The parser only adds checks. *)
Ltac opened := repeat match goal with
  | H : (_ ≫= _) = Some _ |- _ => apply bind_Some in H as (? & ? & ?)
  | H : Some _ = Some _ |- _ => injection H; clear H; intros; subst
  | H : None = Some _ |- _ => discriminate H
  | H : (let '(_, _) := ?p in _) = Some _ |- _ => destruct p
  | H : (if ?c then _ else _) = Some _ |- _ => destruct c
  | H : match ?x with _ => _ end = Some _ |- _ => destruct x
  end; try done.

Lemma pop_checks K n K' : pop K = Some (n, K') -> checks K' = checks K.
Proof using. unfold pop. intros H. opened. Qed.
Lemma push_checks n K K' : push max_stack n K = Some K' -> checks K' = checks K.
Proof using. unfold push. intros H. opened. Qed.
Lemma set_local_checks i n K K' : set_local i n K = Some K' -> checks K' = checks K.
Proof using. unfold set_local. intros H. opened. Qed.
Lemma dec_sp_checks i K K' : dec_sp i K = Some K' -> checks K' = checks K.
Proof using. unfold dec_sp. intros H. opened. Qed.

(** Equations of checks along a sequence of operations. *)
Ltac same_checks := repeat match goal with
  | H : pop _ = Some (_, _) |- _ => apply pop_checks in H
  | H : push _ _ _ = Some _ |- _ => apply push_checks in H
  | H : set_local _ _ _ = Some _ |- _ => apply set_local_checks in H
  | H : dec_sp _ _ = Some _ |- _ => apply dec_sp_checks in H
  end; congruence.

Lemma pop_value_checks k K n K' : pop_value k K = Some (n, K') -> checks K' = checks K.
Proof using. unfold pop_value, pop_pair. intros H. destruct k; opened; same_checks. Qed.
Lemma push_value_checks k n K K' : push_value max_stack k n K = Some K' -> checks K' = checks K.
Proof using. unfold push_value, push_pair. intros H. destruct k; opened; same_checks. Qed.
Lemma do_stack_checks b K K' : do_stack max_stack b K = Some K' -> checks K' = checks K.
Proof using. intros H. destruct b; cbn [do_stack] in H; opened; same_checks. Qed.
Lemma do_binary_checks k k2 op tr K K' : do_binary max_stack k k2 op tr K = Some K' -> checks K' = checks K.
Proof using.
  unfold do_binary. intros H. opened. apply push_value_checks in H2. apply pop_value_checks in H, H0. congruence.
Qed.
Lemma do_unary_checks k1 k2 make K K' : do_unary max_stack k1 k2 make K = Some K' -> checks K' = checks K.
Proof using. unfold do_unary. intros H. opened. apply push_value_checks in H1. apply pop_value_checks in H. congruence. Qed.
Lemma do_iinc_checks i c K K' : do_iinc base lt undefined fuel i c K = Some K' -> checks K' = checks K.
Proof using. unfold do_iinc. intros H. opened. same_checks. Qed.

Definition adds (K : kit) (r : parsed) : Prop := exists l, checks (kit_of r) = checks K ++ l.

Lemma adds_same K r : checks (kit_of r) = checks K -> adds K r.
Proof using. intros E. exists []. by rewrite E, app_nil_r. Qed.
Lemma adds_trans K1 r K2 r' : adds K1 r -> kit_of r = K2 -> adds K2 r' -> adds K1 r'.
Proof using. intros [l E] <- [l' E']. exists (l ++ l'). by rewrite E', E, app_assoc. Qed.

Lemma zero_check_adds k value K r : zero_check base lt undefined fuel k value K = Some r -> adds K r.
Proof using.
  unfold zero_check. cbv zeta. intros H. opened; try (by apply adds_same). by eexists [_].
Qed.
Lemma check_divisor_adds k K r : check_divisor base lt undefined fuel k K = Some r -> adds K r.
Proof using. unfold check_divisor. intros H. destruct k; opened; by eapply zero_check_adds. Qed.

(** A division after its check. *)
Lemma divided k op K r :
  is_division op = true -> do_one_bytecode base lt undefined fuel max_stack (Binary k op) K = Some r ->
  exists r1, check_divisor base lt undefined fuel k K = Some r1 /\
    match r1 with Falls K1 => checks (kit_of r) = checks K1 | _ => r = r1 end.
Proof using.
  intros Hd H.
  assert ((k = KInt /\ op = VRem /\ do_irem base lt undefined fuel max_stack K = Some r) \/
          do_division base lt undefined fuel max_stack k (arith_of op) K = Some r) as [(-> & -> & Hr)|Hr]
    by (destruct k, op; try done; auto); clear H.
  - unfold do_irem in Hr. cbv zeta in Hr. apply bind_Some in Hr as (r1 & Hc & H). exists r1. split; [done |].
    destruct r1; try (by injection H as <-). apply bind_Some in H as ([b K1] & _ & H).
    apply bind_Some in H as ([|] & _ & H); [by injection H as <- |]. by apply bind_Some in H as (K2 & Hb%do_binary_checks & [= <-]).
  - unfold do_division in Hr. apply bind_Some in Hr as (r1 & Hc & H). exists r1. split; [done |].
    destruct r1; try (by injection H as <-). by apply bind_Some in H as (K2 & Hb2%do_binary_checks & [= <-]).
Qed.

Lemma falls_adds K r r' : (forall K', r = Some K' -> checks K' = checks K) -> falls r = Some r' -> adds K r'.
Proof using. intros H (K' & E & [= <-])%bind_Some. by apply adds_same, H. Qed.

Lemma step_adds b K r : do_one_bytecode base lt undefined fuel max_stack b K = Some r -> adds K r.
Proof using.
  intros H. destruct b.
  all: try (eapply falls_adds; [| exact H]; intros K' HK';
            first [by eapply do_stack_checks | by eapply do_binary_checks | by eapply do_unary_checks | by eapply do_iinc_checks
                  | by eapply (push_value_checks KInt) | by eapply (push_value_checks KLong)
                  | unfold push_pair_local in HK'; opened; same_checks]).
  - injection H as <-. by apply adds_same.
  - cbn [do_one_bytecode] in H. unfold falls in H. opened. apply adds_same. cbn [kit_of]. same_checks.
  - cbn [do_one_bytecode] in H. unfold falls in H. opened. apply adds_same. cbn [kit_of]. same_checks.
  - cbn [do_one_bytecode] in H. unfold falls, pop_pair, set_pair_local in H. opened. apply adds_same. cbn [kit_of]. same_checks.
  - destruct (is_division op) eqn:Hd.
    + destruct (divided k op K r Hd H) as (r1 & Hc%check_divisor_adds & Hr).
      destruct r1; try (by subst). eapply adds_trans; [exact Hc | done | by apply adds_same].
    + eapply falls_adds; [| destruct k, op; try done; exact H]. intros K' HK'. by eapply do_binary_checks.
Qed.

Lemma block_adds code : forall K r, do_one_block base lt undefined fuel max_stack code K = Some r -> adds K r.
Proof using.
  induction code as [|b code IH]; intros K r H; cbn [do_one_block] in H; [injection H as <-; by apply adds_same |].
  apply bind_Some in H as (r1 & H1%step_adds & H). destruct r1; try (by injection H as <-).
  eapply adds_trans; [exact H1 | done | by apply IH].
Qed.

(** Only a division throws. *)
Lemma exception_division b F :
  jstep max_stack b F = Some JArithmeticException ->
  exists k op x s L, b = Binary k op /\ is_division op = true /\ F = mkJFrame (jvalue k 0 :: x :: s) L.
Proof using.
  assert (forall s F', with_stack max_stack s F' = Some JArithmeticException -> False) as Hno
    by (intros s F'; unfold with_stack; by case_decide).
  destruct F as [s L]. intros H. destruct b; cbn [jstep] in H; unfold jincrement, jconvert, jshift, jbinary in H; cbn [jstack jlocals] in H;
    repeat first
      [ by apply Hno in H
      | discriminate H
      | match type of H with (_ ≫= _) = Some _ => apply bind_Some in H as (? & ?Hz & H) end
      | match type of H with (if ?c then _ else _) = Some _ => destruct c eqn:? end
      | match type of H with match ?x with _ => _ end = Some _ => destruct x end ].
  apply andb_prop in Heqb as [Hd ->%Z.eqb_eq]. apply as_kind_Some in Hz as ->. by repeat eexists.
Qed.

Lemma step_throws b K F r :
  kit_rep K F -> jstep max_stack b F = Some JArithmeticException ->
  do_one_bytecode base lt undefined fuel max_stack b K = Some r ->
  r = Throws K \/ exists t, checks (kit_of r) = checks K ++ [t] /\ ~ passes t.
Proof using All.
  intros HK (k & op & x & s & L & -> & Hd & ->)%exception_division Hr.
  destruct (divided k op K r Hd Hr) as (r1 & Hc & Hr1).
  destruct (check_divisor_peek k K 0 (x :: s) L HK) as (n & Hpeek & Hn). rewrite Hpeek in Hc.
  destruct (zero_check_spec k n 0 K Hn) as (r2 & Hz & H). rewrite Hz in Hc. injection Hc as ->.
  destruct H as [[_ Hz0]|[[-> _]|(t & -> & Ht)]]; [done | by left |]. right. exists t. split; [done | tauto].
Qed.

(** ** Blocks *)

(** The path ends in a remainder by a power of 2. *)
Definition joined (code : list bytecode) (r : parsed) : Prop :=
  exists K, r = Joins K /\ Forall passes (checks K) /\ In (Binary KInt VRem) code.

Definition outcome_rep (o : outcome) (R : jresult) : Prop :=
  match o, R with
  | Continues K, JNext F => kit_rep K F
  | Exception, JArithmeticException => True
  | _, _ => False
  end.

Lemma extends_passes K K' : extends K K' -> Forall passes (checks K) -> Forall passes (checks K').
Proof using. intros (l & -> & Hl) HK. by apply Forall_app. Qed.

Lemma block_rep code : forall K F R,
  kit_rep K F -> Forall passes (checks K) -> jrun max_stack code F = Some R ->
  (R <> JArithmeticException -> is_Some (do_one_block base lt undefined fuel max_stack code K)) /\
  (forall r, do_one_block base lt undefined fuel max_stack code K = Some r -> joined code r \/ outcome_rep (execute r) R).
Proof using All.
  induction code as [|b code IH]; intros K F R HK Hp Hj; cbn [jrun do_one_block] in *.
  - injection Hj as <-. split; [by eexists |]. intros r [= <-]. right. unfold execute. cbn [kit_of]. by rewrite passes_all.
  - apply bind_Some in Hj as (R1 & Hj1 & Hj). destruct R1 as [F1|].
    + destruct (step_executed b K F F1 HK Hj1) as (K1 & Hext & [[-> HK1]|[-> ->]]); cbn [mbind option_bind].
      * destruct (IH K1 F1 R HK1 (extends_passes _ _ Hext Hp) Hj) as [Htot Hout]. split; [done |].
        intros r Hr. destruct (Hout r Hr) as [(K2 & -> & Hp2 & Hin)|H]; [left; exists K2; split_and!; [done | done | by right] | by right].
      * split; [by eexists |]. intros r [= <-]. left. exists K1. split_and!; [done | by eapply extends_passes | by left].
    + injection Hj as <-. split; [done |]. intros r Hr. right. apply bind_Some in Hr as (r1 & Hr1 & Hr).
      destruct (step_throws b K F r1 HK Hj1 Hr1) as [->|(t & Hc & Ht)].
      * injection Hr as <-. unfold execute. cbn [kit_of]. by rewrite passes_all.
      * assert (exists l, checks (kit_of r) = checks (kit_of r1) ++ l) as [l Hl].
        { destruct r1; try (injection Hr as <-; exists []; by rewrite app_nil_r). by apply block_adds in Hr. }
        rewrite (execute_fails r t (checks K) l); [done | | done]. by rewrite Hl, Hc, <- app_assoc.
Qed.

End Parser.


(** ** A block *)

(** [x / y / 7 + (x += -56)], of two parameters. *)
Definition example_code : list bytecode :=
  [Iload 0; Iload 1; Binary KInt VDiv; Bipush 7; Binary KInt VDiv; Iinc 0 200; Iload 0; Binary KInt VAdd; Istore 1].
Definition example_kit : kit := mkKit [] [Some (Leaf KInt 0); Some (Leaf KInt 1)] [].
Definition example_env (y : Z) : env := mkEnv (fun _ id => if decide (id = 0%nat) then 1000 else y) (fun _ => 0).
Definition example_frame (x y : Z) : jframe := mkJFrame [] [LInt x; LInt y].

Lemma example_kit_rep fuel y :
  min_j KInt <= y <= max_j KInt ->
  kit_rep simple_phase full_type 0 fuel (example_env y) example_kit (example_frame 1000 y).
Proof.
  intros Hy. split; [done |]. split_and!; [done | | by intros [|[|i]] z | by intros [|[|i]]].
  intros [|[|i]] z Hz; [| | done]; injection Hz as <-; (eexists; split; [reflexivity |]);
    (split; [by split_and! | split; [done |]]); [done | by apply (conv_small KInt)].
Qed.

(** One check, of the parameter: the division by 7 needs none, and is a product, two shifts
    and a difference. *)
Definition example_graph : kit :=
  let x := Leaf KInt 0 in
  let q := Bin Div KInt x (Leaf KInt 1) in
  let magic := ConvL2I (Bin RShift KLong (Bin Mul KLong (ConvI2L q (make KLong (min_j KInt) (max_j KInt) 3))
                 (Con KLong (-1840700269))) (Con KInt 32)) in
  let seventh := Bin Sub KInt (Bin RShift KInt (Bin Add KInt q magic) (Con KInt 2)) (Bin RShift KInt q (Con KInt 31)) in
  mkKit [] [Some (Bin Add KInt x (Con KInt (-56))); Some (Bin Add KInt (Bin Add KInt seventh x) (Con KInt (-56)))]
    [Bool_ bt_ne (Bin Cmp KInt (Leaf KInt 1) (Con KInt 0))].

Lemma example_block : do_one_block simple_phase full_type 0 3 2 example_code example_kit = Some (Falls example_graph).
Proof. vm_compute. reflexivity. Qed.
Lemma example_runs : jrun 2 example_code (example_frame 1000 (-3)) = Some (JNext (example_frame 944 897)).
Proof. vm_compute. reflexivity. Qed.


(** The values of the interpreter's frame are those of the graph, of some frame of Java's. *)
Definition same_values base leaf_type undefined fuel max_stack e (f : frame) (K : kit) : Prop :=
  exists F, represents max_stack f F /\ kit_rep base leaf_type undefined fuel e K F.

(** C1.  Compiled and interpreted code agree.  Started with the same values on code without
    int remainders that the verifier accepts and the parser compiles, the interpreter and
    the graph both throw, or both reach the end with the same values. *)
Theorem compiled_as_interpreted base leaf_type undefined fuel max_stack e code f K F R r :
  GraphSound base leaf_type e -> LeavesTyped leaf_type ->
  represents max_stack f F -> kit_rep base leaf_type undefined fuel e K F -> Forall (passes e) (checks K) ->
  jrun max_stack code F = Some R -> ~ In (Binary KInt VRem) code ->
  do_one_block base leaf_type undefined fuel max_stack code K = Some r ->
  exists r', run code f = Some r' /\
    match r', execute e r with
    | Next f', Continues K' => same_values base leaf_type undefined fuel max_stack e f' K'
    | ArithmeticException, Exception => True
    | _, _ => False
    end.
Proof.
  intros Hg Hl Hf HK Hp Hj Hno Hr. destruct (run_rep max_stack code f F R Hf Hj) as (r' & -> & Hr').
  exists r'. split; [done |].
  destruct (proj2 (block_rep base leaf_type undefined fuel max_stack e code K F R HK Hp Hj) r Hr) as [(K' & _ & _ & H)|Ho]; [done |].
  destruct r' as [f'|], R as [F'|], (execute e r) as [K'| |]; try done. by exists F'.
Qed.

Lemma compiled_as_interpreted_witness :
  let start y := mkFrame (fun i => 2 ^ 40) 0 2 [1000; y] in
  (exists f, run example_code (start (-3)) = Some (Next f) /\
    same_values simple_phase full_type 0 3 2 (example_env (-3)) f example_graph) /\
  run example_code (start 0) = Some ArithmeticException.
Proof.
  intros start. split; [| vm_compute; reflexivity].
  destruct (compiled_as_interpreted simple_phase full_type 0 3 2 (example_env (-3)) example_code (start (-3)) example_kit
    (example_frame 1000 (-3)) (JNext (example_frame 944 897)) (Falls example_graph) (simple_graph _) full_leaves)
    with (6 := example_block) (4 := example_runs) as (r & Hr & H).
  - split; [reflexivity | reflexivity | apply Nat.le_0_l |]. split; [reflexivity |]. split.
    + intros [|[|i]] z Hz; try discriminate Hz; injection Hz as <-; (eexists; split; [reflexivity | vm_compute; reflexivity]).
    + intros [|[|i]] z Hz; discriminate Hz.
  - apply example_kit_rep. vm_compute. split; discriminate.
  - constructor.
  - intros H. repeat (destruct H as [H|H]; [discriminate H |]). exact H.
  - destruct r as [f|]; [| destruct H]. exists f. split; [exact Hr | exact H].
Defined.

End ParseTheorems.
